(* ===== verification/_CoqProject ===== *)
-Q . S2P
Prelude.v
TTScheduler.v
TTTiming.v
TTInterrupt.v
TTAddTask.v
CDouble.v
Sequencer.v
Services.v
SeqGen.v
SeqGen2.v
SeqGen3.v
SeqGenEx0.v
SeqReports.v
RtSetup.v
PosixClock.v
Timers.v
ClockTimes.v
SimpleThreads.v
VmChannels.v
BoundedQueue.v
BlockingQueue.v
Actors.v
Actior.v
AsioExecutors.v
SerialQueue.v
TaskSystem.v
SystemTimer.v
DelayedExecutors.v
CopyOnWrite.v
StlabTask.v
SharedFuture.v
FutureValues.v
ChannelQueues.v
Channels.v
ChannelSafety.v
ChannelFlow.v
ChannelYield.v
YieldSafety.v
FunctionProcess.v
MergedProcess.v
ChannelHandles.v
HandleCounts.v
Annotations.v
ProgressTracker.v
FutureCombinators.v
FutureChains.v
ChainsAnswer.v
FutureLifetimes.v
BlockingGet.v
