(* ===== verification/Prelude.v ===== *)
(** * Verified models of the schedulers in this repository

    The repository collects scheduling experiments. Its C programs are of two
    kinds: a time-triggered co-operative scheduler for a small microcontroller
    ([c89_c99_scheduler]), and POSIX real-time programs ([rtos_rte_cp]): sequencers
    that release service threads at sub-rates of a clock, clock measurements,
    interval timers and thread creation. Its C++ part has queues, actors and a
    library of tasks, futures and executors. This library models them as functions
    and step relations on explicit states and proves what they do.

    ** How C is modelled

    This file. A fragment of C over a state [S] is a function of type [C S A]: it
    returns, leaves the process through [exit], meets undefined behaviour, or
    runs out of the fuel of a loop ([outcome]); the state reached is kept in every
    case. Machine integers are [Z]: unsigned arithmetic wraps ([u8], [u32], [u64]),
    signed arithmetic out of range is undefined ([c_int], [c_long]). [runs m s a s']
    says the fragment returns [a] in [s'], [hoare] is total correctness. The
    lemmas on loops over an array ([for_map]) and over an index ([hoare_for]), the
    tactics and the hint databases [c_runs] and [c_hoare] are shared by all files.
    [CDouble] has C's [double] (binary64, through [SpecFloat]) and [struct timespec].

    ** The parts

    - [TTScheduler], [TTTiming]: [time_triggered_arch/scheduler_raw/sch51.c], all of
      its functions. State [sched]: the table [SCH_tasks_G] of [SCH_MAX_TASKS]
      slots, [Error_code_G], and what the tasks themselves touch. Task bodies are a
      parameter ([call]) and may call the scheduler back. [TTScheduler] proves
      memory safety of every reachable table, that the interrupt handler is a
      slotwise tick and the dispatcher runs exactly the due tasks, what adding and
      deleting do on every branch, and where they go wrong (a full table, a task
      that replaces itself). [TTTiming] proves when a task runs after any number of
      interrupts. [TTInterrupt] cuts the dispatcher at its accesses to the table and
      lets the interrupt fall anywhere: it stays safe, and loses no activation if
      the decrement of [RunMe] is one instruction, and may lose one if it is not.
      [TTAddTask] does the same with [SCH_Add_Task] and [SCH_Delete_Task]: the
      deletion is atomic at its store of [pTask]; the addition is at its store of
      [Delay], but for activations that fall before its last store, which are lost.
    - [Sequencer], [Services]: what the four programs of
      [rtos_rte_cp/sequencer_generic] share. [Sequencer] has the sequencer's state,
      its shared actions (posting a semaphore, raising an abort flag, disarming
      the timer), the specification of releases, and the class [ReleaseTable]: a
      program promises that its release code posts what a table of sub-rates
      says, and gets the lemmas on cycles and on the number of releases. [Services]
      is the transition system of a sequencer's actions and the service threads
      interleaved one shared access at a time; it proves that no release is lost
      in any interleaving, that every execution is finite, that an uninterrupted
      shutdown lets every service leave, and (lemma [hangs]) that an interrupted one
      can leave a service waiting for ever.
    - [SeqGen], [SeqGen2], [SeqGen3], [SeqGenEx0]: one file per program, its instance
      of [ReleaseTable], its sequencer (a thread, or in [SeqGen3] a signal handler)
      and its services. [nanosleep], [clock_nanosleep] and the clocks are functions
      from the number of the call to the answer. The theorems give the complete
      sequence of actions of a run, the number of releases per service, and what
      happens when sleeps fail or are interrupted.
    - [SeqReports]: what the four programs print: clock values as [double]s, and the
      processors of the main thread.
    - [RtSetup]: [main] of the four programs over the operating system's answers:
      the threads created, their priorities and processors, the error exits, and
      that the priorities follow the release rates of the tables above.
    - [PosixClock]: [RT-Clock/posix_clock.c]; [Timers]: the programs of [timer];
      [ClockTimes]: [clock_times.c]; [SimpleThreads]: the three thread-creation
      programs; [VmChannels]: the virtual machine's channels and the co-operative
      run loop of [time_triggered_arch].
    - [BoundedQueue], [Actors]: the two C++ headers with logic of their own.
      [BoundedQueue] refines the public operations of [bounded_try_queue]
      ([data_structures.h]) to a list of bounded length; [BlockingQueue] has its private
      ones: [stop] lets all threads go, and what else goes wrong. [Actors] is the message
      queue of [safe_queue_cc11.h] with the actor of [actors_cc98.h] as a transition
      system over its mutex and condition variable: nothing is lost or
      reordered, no wake-up is lost, and the destructor returns. [Actior], of
      [actors_cc11.h], behaves like that actor.
    - [AsioExecutors] is the registry [executors] and [asio_executor] of [threading.cc]
      and the pools of [actors_cc98.h] and [thread_pools.cc] over a class for Boost's
      [io_service]: clients, workers and jobs interleaved at mutex, pointer counts,
      service and [join]. Jobs run once, on workers of their executor; calls that wait
      for a job may wait for ever, and so may destructors, also inside the mutex.

    - The C++ library [stlab] that the repository keeps under [deps] (in
      [clean_stlab] and [clean_stlab_trash]). [TaskSystem] is the portable work-stealing
      task system of [default_executor.hpp]: queues by priority and processor,
      workers, clients and destructor as a transition system whose steps are
      its critical sections and accesses to atomics; no task is lost or run twice,
      no queue is missing, everything comes to rest, what a sweep finds, and that wake-ups can be lost.
      [SerialQueue] is [serial_queue.hpp]: in any interleaving its tasks run one at a
      time in their order, in both schedule modes, and the queue drains.
      [SystemTimer] is the portable [system_timer.hpp] over a class for the heap
      functions of the standard library: no task runs early or twice.
      [DelayedExecutors] is [execute_at] of [executor_base.hpp] on top of it: tasks are
      given on time, by executors that are good for one call.
    - [CopyOnWrite] and [StlabTask] are data types with an abstract specification
      each. [copy_on_write.hpp], a heap of counted values, refines variables that
      hold values. [task.hpp], a buffer behind a table of functions, is type safe.
    - [SharedFuture] is the shared state of [future.hpp]: promises, continuations and
      readers interleaved at its critical sections. Every continuation is
      resumed or destroyed once, a copyable future that is resolved destroys none, and one that is
      resolved once has one outcome. [FutureValues] is
      where the value goes, for copyable types, types that only move and [void]:
      who leaves alone what was given up never gets a moved-from value.
    - [ChannelQueues], [Channels], [ChannelSafety], [ChannelFlow] are [channel.hpp]. [ChannelQueues] has
      the four queue strategies behind the class [Strategy], whose promise
      [StrategyLaws] each of them keeps: first in, first out for every sender.
      [Channels] is a chain of processes with its senders and receivers,
      interleaved at their critical sections, and shows how larger buffers and
      exceptions break it; [ChannelSafety] has the invariant of such chains with the
      default buffer of one message: one call at a time, back-pressure, one end.
      [ChannelFlow]: such chains deliver everything in order, and end, without exceptions.
    - [ChannelYield], [YieldSafety] are the processes of [channel.hpp] with [await] and
      [yield]. [ChannelYield] has one of them with its senders, acknowledgements, clock
      and timers, and shows how closing and timeouts go wrong; [YieldSafety] proves that
      without timeouts, and with downstreams that buffer one message, one thread at a
      time works on it, as a sequential program would.
      [FunctionProcess]: with [function_process] that is the map of a function.
      [MergedProcess] has a function of several senders ([zip], [merge_channel] and
      the like) behind any queue strategy that keeps [StrategyLaws]. Where downstreams buffer
      one message, every sender's messages are taken in order, each downstream is sent the results in order, and without
      exceptions the run ends with everything closed. What [zip] has left over then
      is never taken. With larger buffers results overtake each other or get lost.
    - [ChannelHandles], [HandleCounts] are the handles of [channel.hpp]: senders and
      receivers with the counts, pointers and closing of the processes behind them.
      Programs that overwrite no handle in use, copy no receiver that is ready and merge
      only receivers of channels keep the counts right, and their processes live as long as
      somebody can receive from them; others lose count.
    - [Annotations] is [operator&], which says on what executor and with what buffer a
      process runs; [ProgressTracker] is [progress.hpp], clients that count themselves
      and calls that are reported, in any interleaving.
    - [FutureCombinators] is [when_all] and [when_any] of [future.hpp]: continuations of
      the inputs interleaved at their atomic operations answer once, with the
      right result, after a bounded number of steps.
    - [FutureChains] is what clients build from futures, over a heap of shared states:
      [async], [then], [recover], [reduce], and how broken promises stay unnoticed.
      [ChainsAnswer]: without them every future comes to what its expression says,
      in any order of the tasks, in a number of steps its text determines.
    - [FutureLifetimes] says who keeps shared states alive (futures, continuations,
      [detach]), and that what nobody needs is cancelled and what is needed computed.
    - [BlockingGet] is [blocking_get] of [utility.hpp]: the thread that waits and the
      continuation that wakes it, interleaved at mutex and condition variable.

    ** Fuel

    Loops with a bound in the source are structural ([c_for]). The others take
    fuel, and the theorems say how much is enough: the sequencer's loop needs one
    unit per period ([cycle_count]), the retry loop of [seqgenex0.c] one more than the
    number of consecutive interruptions, the sleep loop of [posix_clock.c] 3, the
    search of [SCH_Add_Task] [SCH_MAX_TASKS + 1]. Theorems about runs state that the
    fragment returns, not only what holds if it does; [OutOfFuel] for every fuel
    is how non-termination is stated ([seqgen_retry_never_ends]).

    ** Not modelled

    Text that is only printed or logged, inline assembly that reads cycle counters, contention scope of
    threads, and in the C++ part the Qt copy of the registry and the tests. Of [stlab]:
    futures of futures of [void] and of types that only move, the executors of
    other platforms. The second copy of its files in [libraries-1.5.0] is the same
    text. The kernel, libc, Boost and the C++ standard library are parameters. *)

From stdpp Require Export base numbers list list_numbers strings option relations.
From Stdlib Require Export ZArith Lia.

#[global] Set Default Goal Selector "!".

Declare Scope c_scope.
Delimit Scope c_scope with c.

(** ** Machine integers

    A C integer is a [Z]; unsigned arithmetic wraps, conversion to a signed
    type wraps (what gcc and clang define it to do), signed arithmetic that
    leaves the range is undefined behaviour. *)

Definition u8 (z : Z) : Z := z mod 2 ^ 8.
Definition u32 (z : Z) : Z := z mod 2 ^ 32.
Definition u64 (z : Z) : Z := z mod 2 ^ 64.
Definition i32 (z : Z) : Z := (z + 2 ^ 31) mod 2 ^ 32 - 2 ^ 31.

Definition is_u8 (z : Z) : Prop := (0 <= z < 2 ^ 8)%Z.
Definition is_u32 (z : Z) : Prop := (0 <= z < 2 ^ 32)%Z.
Definition is_u64 (z : Z) : Prop := (0 <= z < 2 ^ 64)%Z.
Definition in_i32 (z : Z) : bool := ((- 2 ^ 31 <=? z) && (z <? 2 ^ 31))%Z.
Definition in_i64 (z : Z) : bool := ((- 2 ^ 63 <=? z) && (z <? 2 ^ 63))%Z.

(** ** Outcomes and the effect of a C fragment

    A fragment of C over a state [S] either returns, leaves the process through
    [exit], runs into undefined behaviour, or exhausts the fuel of a loop whose
    bound is not structural. The state reached is kept in every case. *)

Inductive undefined :=
  | OutOfBounds (index : Z)
  | NullCall
  | SignedOverflow
  | Uninitialised
  | BadConversion
  | DivisionByZero
  | SelfDeadlock
  | UseAfterFree.

Inductive outcome (A : Type) :=
  | Ret (a : A)
  | Exit (status : Z)
  | Undefined (u : undefined)
  | OutOfFuel.
Arguments Ret {A} a.
Arguments Exit {A} status.
Arguments Undefined {A} u.
Arguments OutOfFuel {A}.

#[global] Instance undefined_eq_dec : EqDecision undefined.
Proof. solve_decision. Defined.
#[global] Instance outcome_eq_dec `{EqDecision A} : EqDecision (outcome A).
Proof. solve_decision. Defined.

Definition C (S A : Type) : Type := S -> outcome A * S.

Definition c_ret {S A} (a : A) : C S A := fun s => (Ret a, s).
Definition c_exit {S A} (status : Z) : C S A := fun s => (Exit status, s).
Definition c_undefined {S A} (u : undefined) : C S A := fun s => (Undefined u, s).
Definition c_get {S} : C S S := fun s => (Ret s, s).
Definition c_modify {S} (f : S -> S) : C S unit := fun s => (Ret tt, f s).

Definition c_bind {S A B} (m : C S A) (k : A -> C S B) : C S B := fun s =>
  match m s with
  | (Ret a, s') => k a s'
  | (Exit n, s') => (Exit n, s')
  | (Undefined u, s') => (Undefined u, s')
  | (OutOfFuel, s') => (OutOfFuel, s')
  end.

Notation "'let*' x := m 'in' k" := (c_bind m (fun x => k))
  (at level 10, x name, m at level 100, k at level 200,
   format "'let*'  x  :=  m  'in' '//' k") : c_scope.
Notation "m ;; k" := (c_bind m (fun _ => k))
  (at level 100, k at level 200, right associativity) : c_scope.

Definition c_when {S} (b : bool) (m : C S unit) : C S unit :=
  if b then m else c_ret tt.

(** [for (i = lo; i < lo + n; i++) body(i)], the bound a constant of the source. *)
Fixpoint c_for_each {S A} (xs : list A) (body : A -> C S unit) : C S unit :=
  match xs with
  | [] => c_ret tt
  | x :: xs' => (body x ;; c_for_each xs' body)%c
  end.

Definition c_for {S} (lo hi : Z) (body : Z -> C S unit) : C S unit :=
  c_for_each (seqZ lo (hi - lo)) body.

(** [do body while (cond)], the body answering whether to go round again. *)
Fixpoint c_do_while {S} (fuel : nat) (body : C S bool) : C S unit :=
  match fuel with
  | O => fun s => (OutOfFuel, s)
  | Datatypes.S fuel' =>
      (let* again := body in
       if (again : bool) then c_do_while fuel' body else c_ret tt)%c
  end.

(** A fragment applied to a part of the state, an object passed by address. *)
Definition c_on {S T A} (get : S -> T) (set : T -> S -> S) (m : C T A) : C S A := fun s =>
  let '(o, t) := m (get s) in (o, set t s).

(** Signed [int] arithmetic: a result out of range is undefined. *)
Definition c_int {S} (z : Z) : C S Z :=
  if in_i32 z then c_ret z else c_undefined SignedOverflow.
Definition c_long {S} (z : Z) : C S Z :=
  if in_i64 z then c_ret z else c_undefined SignedOverflow.

(** ** Running a fragment to a return *)

Definition runs {S A} (m : C S A) (s : S) (a : A) (s' : S) : Prop := m s = (Ret a, s').

(** Total correctness: from every state satisfying [P] the fragment returns, and
    the value and the state returned satisfy [Q]. *)
Definition hoare {S A} (P : S -> Prop) (m : C S A) (Q : A -> S -> Prop) : Prop :=
  forall s, P s -> exists a s', runs m s a s' /\ Q a s'.

Create HintDb c_runs.
Create HintDb c_hoare.

Section runs.
Context {S A B : Type}.
Implicit Types (m : C S A) (k : A -> C S B) (s : S).

Lemma bind_runs m k s a s' : runs m s a s' -> c_bind m k s = k a s'.
Proof. unfold runs, c_bind. by intros ->. Qed.

Lemma runs_bind m k s a s' b s'' :
  runs m s a s' -> runs (k a) s' b s'' -> runs (c_bind m k) s b s''.
Proof. unfold runs. intros Hm. by rewrite (bind_runs _ _ _ _ _ Hm). Qed.

Lemma runs_bind_inv m k s b s'' : runs (c_bind m k) s b s'' -> exists a s', runs m s a s' /\ runs (k a) s' b s''.
Proof. unfold runs, c_bind. destruct (m s) as [[a| | |] s1]; try done. eauto. Qed.

Lemma bind_returns m k s a s' (Q : B -> S -> Prop) :
  runs m s a s' -> (exists b s'', runs (k a) s' b s'' /\ Q b s'') ->
  exists b s'', runs (c_bind m k) s b s'' /\ Q b s''.
Proof. intros Hm (b & s2 & Hk & HQ). exists b, s2. split; [by eapply runs_bind | done]. Qed.

Lemma runs_ret (a : A) s : runs (c_ret a) s a s.
Proof. done. Qed.

Lemma runs_modify f s : runs (c_modify f) s tt (f s).
Proof. done. Qed.

Lemma runs_get s : runs c_get s s s.
Proof. done. Qed.

Lemma runs_det m s a s' a2 s2 : runs m s a s' -> runs m s a2 s2 -> a = a2 /\ s' = s2.
Proof. unfold runs. intros H1 H2. rewrite H1 in H2. by simplify_eq. Qed.

Lemma hoare_ret (P : S -> Prop) (Q : A -> S -> Prop) a :
  (forall s, P s -> Q a s) -> hoare P (c_ret a) Q.
Proof. intros H s Hs. exists a, s. split; [done | auto]. Qed.

Lemma hoare_bind (P : S -> Prop) (R : A -> S -> Prop) (Q : B -> S -> Prop) m k :
  hoare P m R -> (forall a, hoare (R a) (k a) Q) -> hoare P (c_bind m k) Q.
Proof.
  intros Hm Hk s Hs. destruct (Hm s Hs) as (a & s1 & Hrun & HR).
  destruct (Hk a s1 HR) as (b & s2 & Hrun2 & HQ).
  exists b, s2. split; [by eapply runs_bind | done].
Qed.

Lemma hoare_conseq (P P' : S -> Prop) (Q Q' : A -> S -> Prop) m :
  hoare P' m Q' -> (forall s, P s -> P' s) -> (forall a s, Q' a s -> Q a s) -> hoare P m Q.
Proof.
  intros Hm HP HQ s Hs. destruct (Hm s (HP s Hs)) as (a & s' & Hrun & Hq).
  exists a, s'. eauto.
Qed.
End runs.

Lemma runs_when {S} (b : bool) (m : C S unit) s s' :
  (if b then runs m s tt s' else s' = s) -> runs (c_when b m) s tt s'.
Proof. destruct b; [done | by intros ->]. Qed.

#[export] Hint Resolve runs_ret runs_modify runs_get : c_runs.
#[export] Hint Resolve hoare_ret : c_hoare.

(** A loop whose body keeps an invariant keeps it, and terminates. *)
Lemma hoare_for_each {S A} (I : S -> Prop) (xs : list A) (body : A -> C S unit) :
  (forall x, x ∈ xs -> hoare I (body x) (fun _ => I)) ->
  hoare I (c_for_each xs body) (fun _ => I).
Proof.
  induction xs as [|x xs IH]; intros Hb; simpl.
  - by apply hoare_ret.
  - apply hoare_bind with (R := fun _ => I).
    + apply Hb. by left.
    + intros _. apply IH. intros y Hy. apply Hb. by right.
Qed.

(** The same with an invariant that mentions the index. *)
Lemma hoare_for_from {S} (I : Z -> S -> Prop) (body : Z -> C S unit) n : forall lo,
  (forall i, (lo <= i < lo + Z.of_nat n)%Z -> hoare (I i) (body i) (fun _ => I (i + 1)%Z)) ->
  hoare (I lo) (c_for_each (seqZ lo (Z.of_nat n)) body) (fun _ => I (lo + Z.of_nat n)%Z).
Proof.
  induction n as [|n IH]; intros lo Hb.
  - apply hoare_ret. by replace (lo + Z.of_nat 0)%Z with lo by lia.
  - rewrite seqZ_cons by lia. apply hoare_bind with (R := fun _ => I (lo + 1)%Z); [apply Hb; lia|].
    intros _. replace (Z.pred (Z.of_nat (Datatypes.S n))) with (Z.of_nat n) by lia.
    replace (lo + Z.of_nat (Datatypes.S n))%Z with (lo + 1 + Z.of_nat n)%Z by lia.
    apply (IH (lo + 1)%Z). intros i Hi. apply Hb. lia.
Qed.

Lemma hoare_for {S} (I : Z -> S -> Prop) (body : Z -> C S unit) n : (0 <= n)%Z ->
  (forall i, (0 <= i < n)%Z -> hoare (I i) (body i) (fun _ => I (i + 1)%Z)) ->
  hoare (I 0%Z) (c_for 0 n body) (fun _ => I n).
Proof.
  intros Hn Hb. unfold c_for. replace (n - 0)%Z with (Z.of_nat (Z.to_nat n)) by lia.
  eapply hoare_conseq; [apply (hoare_for_from I body (Z.to_nat n) 0)|done|].
  - intros i Hi. apply Hb. lia.
  - intros a s. cbn. by replace (0 + Z.of_nat (Z.to_nat n))%Z with n by lia.
Qed.

(** A fragment over a part of the state. *)
Lemma on_runs {S T A} (get : S -> T) (set : T -> S -> S) (m : C T A) s a t' :
  runs m (get s) a t' -> runs (c_on get set m) s a (set t' s).
Proof. unfold runs, c_on. by intros ->. Qed.

(** One iteration of [c_for_each], for rewriting. *)
Lemma for_each_cons {S A} (x : A) xs (body : A -> C S unit) s s' :
  runs (body x) s tt s' -> c_for_each (x :: xs) body s = c_for_each xs body s'.
Proof. intros H. simpl. by rewrite (bind_runs _ _ _ _ _ H). Qed.

Lemma for_each_runs {S A} (x : A) xs (body : A -> C S unit) s s' s'' :
  runs (body x) s tt s' -> runs (c_for_each xs body) s' tt s'' ->
  runs (c_for_each (x :: xs) body) s tt s''.
Proof. intros H1 H2. by eapply runs_bind. Qed.

Lemma for_each_snoc {S A} xs (x : A) (body : A -> C S unit) s s' s'' :
  runs (c_for_each xs body) s tt s' -> runs (body x) s' tt s'' ->
  runs (c_for_each (xs ++ [x]) body) s tt s''.
Proof.
  revert s. induction xs as [|y xs IH]; intros s H1 H2; simpl in *.
  - unfold runs in H1. injection H1 as ->. eapply runs_bind; [exact H2|apply runs_ret].
  - unfold runs, c_bind in H1. destruct (body y s) as [[[]| | |] s1] eqn:E; try discriminate.
    eapply runs_bind; [exact E|]. by apply IH.
Qed.

(** ** Automation *)

(** Case analysis on the boolean tests the C conditions become. *)
Ltac case_bool :=
  match goal with
  | |- context [ (?a =? ?b)%Z ] => destruct (Z.eqb_spec a b)
  | |- context [ (?a <? ?b)%Z ] => destruct (Z.ltb_spec a b)
  | |- context [ (?a <=? ?b)%Z ] => destruct (Z.leb_spec a b)
  | H : context [ (?a =? ?b)%Z ] |- _ => destruct (Z.eqb_spec a b)
  | H : context [ (?a <? ?b)%Z ] |- _ => destruct (Z.ltb_spec a b)
  | H : context [ (?a <=? ?b)%Z ] |- _ => destruct (Z.leb_spec a b)
  end.

Lemma u8_small z : is_u8 z -> u8 z = z.
Proof. unfold u8, is_u8. apply Z.mod_small. Qed.
Lemma u32_small z : is_u32 z -> u32 z = z.
Proof. unfold u32, is_u32. apply Z.mod_small. Qed.
Lemma u64_small z : is_u64 z -> u64 z = z.
Proof. unfold u64, is_u64. apply Z.mod_small. Qed.
Lemma u8_range z : is_u8 (u8 z).
Proof. unfold u8, is_u8. by apply Z.mod_pos_bound. Qed.
Lemma u32_range z : is_u32 (u32 z).
Proof. unfold u32, is_u32. by apply Z.mod_pos_bound. Qed.
Lemma u64_range z : is_u64 (u64 z).
Proof. unfold u64, is_u64. by apply Z.mod_pos_bound. Qed.
Lemma in_i32_spec z : in_i32 z = true <-> (- 2 ^ 31 <= z < 2 ^ 31)%Z.
Proof. unfold in_i32. rewrite andb_true_iff, Z.leb_le, Z.ltb_lt. done. Qed.
Lemma in_i64_spec z : in_i64 z = true <-> (- 2 ^ 63 <= z < 2 ^ 63)%Z.
Proof. unfold in_i64. rewrite andb_true_iff, Z.leb_le, Z.ltb_lt. done. Qed.
Lemma i32_small z : (- 2 ^ 31 <= z < 2 ^ 31)%Z -> i32 z = z.
Proof. intros H. unfold i32. rewrite Z.mod_small; lia. Qed.

Lemma int_runs {S} z (s : S) : (- 2 ^ 31 <= z < 2 ^ 31)%Z -> runs (c_int z) s z s.
Proof. intros H%in_i32_spec. unfold c_int, runs. by rewrite H. Qed.
Lemma long_runs {S} z (s : S) : (- 2 ^ 63 <= z < 2 ^ 63)%Z -> runs (c_long z) s z s.
Proof. intros H%in_i64_spec. unfold c_long, runs. by rewrite H. Qed.

#[export] Hint Resolve int_runs long_runs : c_runs.
#[export] Hint Resolve u8_range u32_range u64_range : c_hoare.

(** ** Lists *)

Lemma Forall_mono {A} (P Q : A -> Prop) (l : list A) :
  Forall P l -> (forall x, P x -> Q x) -> Forall Q l.
Proof. induction 1; constructor; auto. Qed.

Lemma Forall_set {A} (P : A -> Prop) (l : list A) i x : Forall P l -> P x -> Forall P (<[i := x]> l).
Proof. apply Forall_insert. Qed.

Lemma omap_of_fmap {A B D} (h : B -> option D) (f : A -> B) (l : list A) :
  omap h (f <$> l) = omap (fun x => h (f x)) l.
Proof.
  induction l as [|x l IH]; [done|]. simpl. destruct (h (f x)); [f_equal|]; exact IH.
Qed.

(** *** Sums of measures *)
Definition sumZ (l : list Z) : Z := foldr Z.add 0%Z l.

Lemma sumZ_insert (l : list Z) i x y : l !! i = Some x -> sumZ (<[i := y]> l) = (sumZ l - x + y)%Z.
Proof.
  revert i. induction l as [|z l IH]; intros [|i] H; simpl in *; simplify_eq; [lia|].
  rewrite (IH i) by done. lia.
Qed.

Lemma sumZ_nonneg l : Forall (fun z => 0 <= z)%Z l -> (0 <= sumZ l)%Z.
Proof. unfold sumZ. induction 1; simpl; lia. Qed.

Lemma sumZ_cons z l : sumZ (z :: l) = (z + sumZ l)%Z.
Proof. done. Qed.

(** A measure summed over a list, when one element changes. *)
Lemma sum_with_insert {A} (g : A -> nat) (l : list A) i x y : l !! i = Some x ->
  sum_list_with g (<[i := y]> l) + g x = sum_list_with g l + g y.
Proof.
  revert i. induction l as [|z l IH]; intros [|i] H; simpl in *; simplify_eq; [lia|].
  specialize (IH i H). lia.
Qed.

(** Counting: a measure of at most one reaches the length only if it is one
    everywhere. *)
Lemma sum_at_most_length {A} (g : A -> nat) (l : list A) : (forall x, g x <= 1) -> sum_list_with g l <= length l.
Proof. intros Hg. induction l as [|x l IH]; simpl; [done|]. specialize (Hg x). lia. Qed.
Lemma sum_full {A} (g : A -> nat) (l : list A) : (forall x, g x <= 1) ->
  sum_list_with g l = length l <-> Forall (fun x => g x = 1) l.
Proof.
  intros Hg. induction l as [|x l IH]; simpl; [by split|]. rewrite Forall_cons, <- IH.
  pose proof (sum_at_most_length g l Hg). specialize (Hg x). lia.
Qed.
Lemma sum_zero {A} (g : A -> nat) (l : list A) : sum_list_with g l = 0 <-> Forall (fun x => g x = 0) l.
Proof. induction l as [|x l IH]; simpl; [by split|]. rewrite Forall_cons, <- IH. lia. Qed.

Lemma sum_with_fmap {A B} (g : B -> nat) (f : A -> B) (l : list A) :
  sum_list_with g (f <$> l) = sum_list_with (fun x => g (f x)) l.
Proof. induction l as [|x l IH]; [done|]. rewrite fmap_cons. simpl. by rewrite IH. Qed.

Lemma alter_at {A} (f : A -> A) (i : nat) (l : list A) x : l !! i = Some x -> alter f i l = <[i := f x]> l.
Proof.
  intros Hx. apply list_eq. intros j. destruct (decide (j = i)) as [->|Hj].
  - rewrite list_lookup_alter_eq, Hx, list_lookup_insert_eq; [done|]. by eapply lookup_lt_Some.
  - by rewrite list_lookup_alter_ne, list_lookup_insert_ne by done.
Qed.

(** Occurrences: lists with the same are permutations. *)
Definition occ (x : nat) (l : list nat) : nat := count_occ Nat.eq_dec l x.
#[global] Arguments occ : simpl never.
Definition occs {A} (x : nat) (g : A -> list nat) (l : list A) : nat := sum_list_with (fun a => occ x (g a)) l.
#[global] Arguments occs : simpl never.

Lemma occ_app x l1 l2 : occ x (l1 ++ l2) = occ x l1 + occ x l2.
Proof. apply count_occ_app. Qed.
Lemma occ_cons x y l : occ x (y :: l) = occ x [y] + occ x l.
Proof. exact (occ_app x [y] l). Qed.
Lemma occ_nil x : occ x [] = 0.
Proof. done. Qed.
Lemma occ_concat {A} x (g : A -> list nat) (l : list A) : occ x (concat (g <$> l)) = occs x g l.
Proof. unfold occs. induction l as [|a l IH]; [done|]. cbn. by rewrite occ_app, IH. Qed.
Lemma occs_cons {A} x (g : A -> list nat) a (l : list A) : occs x g (a :: l) = occ x (g a) + occs x g l.
Proof. done. Qed.
Lemma occs_insert {A} x (g : A -> list nat) (l : list A) i a b : l !! i = Some a ->
  occs x g (<[i := b]> l) + occ x (g a) = occs x g l + occ x (g b).
Proof. apply (sum_with_insert (fun a => occ x (g a))). Qed.
Lemma occ_one x y : occ x [y] = if decide (y = x) then 1 else 0.
Proof. unfold occ. cbn. by destruct (Nat.eq_dec y x); case_decide. Qed.
Lemma occ_in x l : x ∈ l <-> 0 < occ x l.
Proof. rewrite list_elem_of_In. apply (count_occ_In Nat.eq_dec). Qed.
Lemma occs_app {A} x (g : A -> list nat) (l k : list A) : occs x g (l ++ k) = occs x g l + occs x g k.
Proof. apply sum_list_with_app. Qed.
Lemma occs_in {A} x (g : A -> list nat) (l : list A) i a : l !! i = Some a -> x ∈ g a -> 0 < occs x g l.
Proof. intros Hi Ha%occ_in. rewrite <- (take_drop_middle _ _ _ Hi), occs_app, occs_cons. lia. Qed.
Lemma occs_exists {A} x (g : A -> list nat) (l : list A) : 0 < occs x g l -> exists i a, l !! i = Some a /\ x ∈ g a.
Proof.
  induction l as [|a l IH]; [unfold occs; cbn; lia|]. rewrite occs_cons. intros H.
  destruct (decide (0 < occ x (g a))) as [Hc|Hc]; [exists 0, a; split; [done|by apply occ_in]|].
  destruct IH as (i & b & Hi & Hb); [lia|]. by exists (S i), b.
Qed.
Lemma occ_permutation l1 l2 : (forall x, occ x l1 = occ x l2) -> l1 ≡ₚ l2.
Proof. apply (Permutation_count_occ Nat.eq_dec). Qed.

(** Folds that can fail. *)
Fixpoint fold_opt {A B} (f : B -> A -> option B) (l : list A) (b : B) : option B :=
  match l with [] => Some b | a :: l => b ← f b a; fold_opt f l b end.
Lemma fold_opt_app {A B} (f : B -> A -> option B) (l l' : list A) (b : B) :
  fold_opt f (l ++ l') b = fold_opt f l b ≫= fold_opt f l'.
Proof. revert b. induction l as [|a l IH]; intros b; [done|]. cbn. destruct (f b a); [apply IH|done]. Qed.

(** ** Loops over an array held in the state

    [get]/[set] single out an array of the state. When the body of iteration
    [i] replaces element [x] at [i], which satisfies [P], by [f x], and changes
    the rest of the state by [g x], the whole loop maps [f] over the array and
    folds [g] over the old elements, in index order. *)
Section array_loop.
Context {S X : Type} (get : S -> list X) (set : list X -> S -> S).
Context (f : X -> X) (g : X -> S -> S).
Context (get_set : forall l s, get (set l s) = l).
Context (set_set : forall l l' s, set l (set l' s) = set l s).
Context (set_get : forall s, set (get s) s = s).
Context (get_g : forall x s, get (g x s) = get s).
Context (set_g : forall l x s, set l (g x s) = g x (set l s)).
Context (body : Z -> C S unit).
Context (P : X -> Prop).
Context (body_spec : forall s i x, get s !! i = Some x -> P x ->
  runs (body (Z.of_nat i)) s tt (set (<[i := f x]> (get s)) (g x s))).

Definition fold_rest (l : list X) (s : S) : S := foldl (fun s x => g x s) s l.

Lemma fold_rest_set l : forall L s, fold_rest l (set L s) = set L (fold_rest l s).
Proof.
  induction l as [|x l IH]; intros L s; [done|]. simpl. by rewrite <- set_g, IH.
Qed.

Lemma for_each_map_from l2 : forall l1 s, get s = l1 ++ l2 -> Forall P l2 ->
  runs (c_for_each (seqZ (Z.of_nat (length l1)) (Z.of_nat (length l2))) body) s tt
       (set (l1 ++ (f <$> l2)) (fold_rest l2 s)).
Proof.
  induction l2 as [|x l2 IH]; intros l1 s Hs HP.
  - simpl. rewrite <- Hs, set_get. apply runs_ret.
  - rewrite seqZ_cons by (simpl; lia).
    assert (Hx : get s !! length l1 = Some x).
    { rewrite Hs, lookup_app_r by lia. by rewrite Nat.sub_diag. }
    apply Forall_cons_1 in HP as [Px HP].
    eapply for_each_runs; [by apply body_spec|].
    assert (Hg : get (set (<[length l1:=f x]> (get s)) (g x s)) = (l1 ++ [f x]) ++ l2).
    { rewrite get_set, Hs, insert_app_r_alt by lia.
      rewrite Nat.sub_diag. simpl. by rewrite <- app_assoc. }
    pose proof (IH (l1 ++ [f x]) _ Hg HP) as H.
    rewrite length_app, fold_rest_set, set_set in H. simpl in H.
    replace (Z.succ (Z.of_nat (length l1))) with (Z.of_nat (length l1 + 1)) by lia.
    replace (Z.pred (Z.of_nat (length (x :: l2)))) with (Z.of_nat (length l2)) by (simpl; lia).
    rewrite <- app_assoc in H. exact H.
Qed.

Lemma for_map s n : Z.of_nat (length (get s)) = n -> Forall P (get s) ->
  runs (c_for 0 n body) s tt (set (f <$> get s) (fold_rest (get s) s)).
Proof.
  intros <- HP. unfold c_for. rewrite Z.sub_0_r.
  exact (for_each_map_from (get s) [] s eq_refl HP).
Qed.
End array_loop.

Lemma fold_rest_id {S X} (l : list X) (s : S) : fold_rest (fun _ s => s) l s = s.
Proof. unfold fold_rest. by induction l. Qed.
