(* ===== verification/TTScheduler.v ===== *)
(** * The time-triggered co-operative scheduler

    Model of [c89_c99_scheduler/source/time_triggered_arch/scheduler_raw/]
    [sch51.c] with the constants and integer types of [main.h]: the task table
    [SCH_tasks_G], the error variable [Error_code_G] and every function of the
    file. A task is a [void (void)] function the application supplies, so the
    type of function pointers and what calling one does to the state are
    parameters: a task may call back into the scheduler. *)

From S2P Require Import Prelude.
Local Open Scope Z_scope.
Local Open Scope c_scope.

(** ** Constants of [main.h] *)
Definition SCH_MAX_TASKS : Z := 4.
Definition RETURN_NORMAL : Z := 0.
Definition RETURN_ERROR : Z := 1.
Definition ERROR_SCH_TOO_MANY_TASKS : Z := 1.
Definition ERROR_SCH_CANNOT_DELETE_TASK : Z := 2.

(** ** The task table

    [Delay] and [Period] are [tWord] ([unsigned int], 32 bits on the hosts the
    build supports), [RunMe] is a [tByte]; a null [pTask] is [None]. *)
Record sTask (fn : Type) := mk_sTask {
  pTask : option fn;
  Delay : Z;
  Period : Z;
  RunMe : Z
}.
Arguments mk_sTask {fn}.
Arguments pTask {fn}.
Arguments Delay {fn}.
Arguments Period {fn}.
Arguments RunMe {fn}.

(** [env] is whatever else the tasks act on. *)
Record sched (fn env : Type) := mk_sched {
  SCH_tasks_G : list (sTask fn);
  Error_code_G : Z;
  outside : env
}.
Arguments mk_sched {fn env}.
Arguments SCH_tasks_G {fn env}.
Arguments Error_code_G {fn env}.
Arguments outside {fn env}.

#[global] Instance sTask_eq_dec `{EqDecision fn} : EqDecision (sTask fn).
Proof. solve_decision. Defined.

Section operations.
Context {fn env : Type}.
Abbreviation task := (sTask fn).
Abbreviation state := (sched fn env).

(** *** Field assignments *)
Definition set_pTask (p : option fn) (t : task) : task :=
  mk_sTask p (Delay t) (Period t) (RunMe t).
Definition set_Delay (d : Z) (t : task) : task :=
  mk_sTask (pTask t) d (Period t) (RunMe t).
Definition set_Period (p : Z) (t : task) : task :=
  mk_sTask (pTask t) (Delay t) p (RunMe t).
Definition set_RunMe (r : Z) (t : task) : task :=
  mk_sTask (pTask t) (Delay t) (Period t) r.

Definition with_tasks (ts : list task) (s : state) : state :=
  mk_sched ts (Error_code_G s) (outside s).
Definition with_error (e : Z) (s : state) : state :=
  mk_sched (SCH_tasks_G s) e (outside s).

(** [SCH_tasks_G[Index]] as an rvalue, and [SCH_tasks_G[Index].field = v]. *)
Definition load (Index : Z) : C state task := fun s =>
  match SCH_tasks_G s !! Z.to_nat Index with
  | Some t => if 0 <=? Index then (Ret t, s) else (Undefined (OutOfBounds Index), s)
  | None => (Undefined (OutOfBounds Index), s)
  end.
Definition store (Index : Z) (assign : task -> task) : C state unit :=
  let* t := load Index in
  c_modify (fun s => with_tasks (<[Z.to_nat Index := assign t]> (SCH_tasks_G s)) s).

(** *** [SCH_Go_To_Sleep] and [SCH_Start]: every statement is commented out. *)
Definition SCH_Go_To_Sleep : C state unit := c_ret tt.
Definition SCH_Start : C state unit := c_ret tt.

(** *** [SCH_Delete_Task] *)
Definition SCH_Delete_Task (TASK_INDEX : Z) : C state Z :=
  let* t := load TASK_INDEX in
  let* Return_code :=
    match pTask t with
    | None => c_modify (with_error ERROR_SCH_CANNOT_DELETE_TASK) ;; c_ret RETURN_ERROR
    | Some _ => c_ret RETURN_NORMAL
    end in
  store TASK_INDEX (set_pTask None) ;;
  store TASK_INDEX (set_Delay 0) ;;
  store TASK_INDEX (set_Period 0) ;;
  store TASK_INDEX (set_RunMe 0) ;;
  c_ret Return_code.

(** *** [SCH_Update], the timer interrupt *)
Definition SCH_Update_slot (Index : Z) : C state unit :=
  let* t := load Index in
  match pTask t with
  | None => c_ret tt
  | Some _ =>
      if Delay t =? 0 then
        store Index (set_RunMe (u8 (RunMe t + 1))) ;;
        c_when (negb (Period t =? 0)) (store Index (set_Delay (Period t)))
      else
        store Index (set_Delay (u32 (Delay t - 1)))
  end.
Definition SCH_Update : C state unit := c_for 0 SCH_MAX_TASKS SCH_Update_slot.

(** *** [SCH_Add_Task]

    The loop reads [SCH_tasks_G[Index].pTask] before it compares [Index] with
    [SCH_MAX_TASKS]. What a read one past the end of the table does is the
    parameter [beyond]: [None] for the undefined behaviour of the C standard,
    [Some v] for a machine on which it reads the value [v]. *)
Definition load_pTask (beyond : option (option fn)) (Index : Z) : C state (option fn) := fun s =>
  match SCH_tasks_G s !! Z.to_nat Index with
  | Some t => (Ret (pTask t), s)
  | None =>
      match beyond with
      | None => (Undefined (OutOfBounds Index), s)
      | Some v => (Ret v, s)
      end
  end.

Fixpoint find_gap (beyond : option (option fn)) (fuel : nat) (Index : Z) : C state Z :=
  match fuel with
  | O => fun s => (OutOfFuel, s)
  | S fuel' =>
      let* p := load_pTask beyond Index in
      if bool_decide (is_Some p) && (Index <? SCH_MAX_TASKS)
      then find_gap beyond fuel' (u8 (Index + 1))
      else c_ret Index
  end.

Definition SCH_Add_Task (beyond : option (option fn))
    (pFunction : option fn) (DELAY PERIOD : Z) : C state Z :=
  let* Index := find_gap beyond (Z.to_nat SCH_MAX_TASKS + 1) 0 in
  if Index =? SCH_MAX_TASKS then
    c_modify (with_error ERROR_SCH_TOO_MANY_TASKS) ;;
    c_ret SCH_MAX_TASKS
  else
    store Index (set_pTask pFunction) ;;
    store Index (set_Delay DELAY) ;;
    store Index (set_Period PERIOD) ;;
    store Index (set_RunMe 0) ;;
    c_ret Index.

(** *** [SCH_Init_T2] *)
Definition SCH_Init_T2 : C state unit :=
  c_for 0 SCH_MAX_TASKS (fun i => let* _ := SCH_Delete_Task i in c_ret tt) ;;
  c_modify (with_error 0).

(** *** [SCH_Dispatch_Tasks]

    [call f] is the effect of running the task [f]; calling through a null
    pointer is undefined. *)
Section dispatch.
Context (call : fn -> C state unit).

Definition call_pointer (p : option fn) : C state unit :=
  match p with
  | Some f => call f
  | None => c_undefined NullCall
  end.

Definition SCH_Dispatch_slot (Index : Z) : C state unit :=
  let* t := load Index in
  c_when (0 <? RunMe t)
    (call_pointer (pTask t) ;;
     let* t1 := load Index in
     store Index (set_RunMe (u8 (RunMe t1 - 1))) ;;
     let* t2 := load Index in
     c_when (Period t2 =? 0) (let* _ := SCH_Delete_Task Index in c_ret tt)).

Definition SCH_Dispatch_Tasks : C state unit :=
  c_for 0 SCH_MAX_TASKS SCH_Dispatch_slot ;;
  SCH_Go_To_Sleep.
End dispatch.

(** ** Specification: what each operation does to the table as a whole *)

Definition empty_slot : task := mk_sTask None 0 0 0.

(** One timer tick on one slot. *)
Definition tick_slot (t : task) : task :=
  match pTask t with
  | None => t
  | Some f =>
      if Delay t =? 0 then mk_sTask (Some f) (Period t) (Period t) (u8 (RunMe t + 1))
      else mk_sTask (Some f) (Delay t - 1) (Period t) (RunMe t)
  end.

(** One dispatch of one slot, for a task that leaves the table alone. *)
Definition dispatch_slot (t : task) : task :=
  if 0 <? RunMe t then
    if Period t =? 0 then empty_slot else set_RunMe (RunMe t - 1) t
  else t.

(** The task a dispatch of this slot runs. *)
Definition due (t : task) : option fn := if 0 <? RunMe t then pTask t else None.

Definition with_outside (e : env) (s : state) : state :=
  mk_sched (SCH_tasks_G s) (Error_code_G s) e.

(** A task that acts on the outside only. *)
Definition quiet (act : fn -> env -> env) (f : fn) : C state unit :=
  c_modify (fun s => with_outside (act f (outside s)) s).

(** *** Effects on the rest of the state, slot by slot *)
Definition put (i : nat) (t : task) (s : state) : state :=
  with_tasks (<[i := t]> (SCH_tasks_G s)) s.
Definition occupied (t : task) : Prop := is_Some (pTask t).
Definition delete_error (t : task) (s : state) : state :=
  match pTask t with None => with_error ERROR_SCH_CANNOT_DELETE_TASK s | Some _ => s end.
Definition run_outside (act : fn -> env -> env) (t : task) (s : state) : state :=
  match due t with Some f => with_outside (act f (outside s)) s | None => s end.

(** *** Well-formed tables: field widths, and empty slots are all zero. *)
Record wf_slot (t : task) : Prop := mk_wf_slot {
  wf_Delay : is_u32 (Delay t);
  wf_Period : is_u32 (Period t);
  wf_RunMe : is_u8 (RunMe t);
  wf_empty : pTask t = None -> t = empty_slot
}.
Record wf (s : state) : Prop := mk_wf {
  wf_length : length (SCH_tasks_G s) = Z.to_nat SCH_MAX_TASKS;
  wf_slots : Forall wf_slot (SCH_tasks_G s)
}.

(** *** Calls of the interface, as steps *)
Inductive sched_step (call : fn -> C state unit) : state -> state -> Prop :=
  | step_init s s' : runs SCH_Init_T2 s tt s' -> sched_step call s s'
  | step_add beyond f d p r s s' :
      is_u32 d -> is_u32 p ->
      runs (SCH_Add_Task beyond (Some f) d p) s r s' -> sched_step call s s'
  | step_delete i r s s' : runs (SCH_Delete_Task i) s r s' -> sched_step call s s'
  | step_update s s' : runs SCH_Update s tt s' -> sched_step call s s'
  | step_dispatch s s' : runs (SCH_Dispatch_Tasks call) s tt s' -> sched_step call s s'.
End operations.

Arguments wf_slot {fn} t.
Arguments wf_length {fn env s}.
Arguments wf_slots {fn env s}.
Arguments wf {fn env} s.

(** ** A concrete table for the witnesses: tasks are numbers, and running one
    writes its number in a log, except that task 9 deletes itself from slot 0
    and installs task 7 with period 10. *)
Definition demo_state (first : nat) : sched nat (list nat) :=
  mk_sched [mk_sTask (Some first) 0 5 1; mk_sTask (Some 2%nat) 0 0 1;
            mk_sTask None 0 0 0; mk_sTask (Some 3%nat) 7 0 0] 0 [].
Definition demo_log (f : nat) (log : list nat) : list nat := log ++ [f].
Definition demo_call (f : nat) : C (sched nat (list nat)) unit :=
  if decide (f = 9%nat) then
    let* _ := SCH_Delete_Task 0 in
    let* _ := SCH_Add_Task None (Some 7%nat) 20 10 in c_ret tt
  else quiet demo_log f.
Definition demo_full : sched nat (list nat) :=
  mk_sched (replicate 4 (mk_sTask (Some 1%nat) 0 5 0)) 0 [].

(** ** Lemmas on slots *)
Section slots.
Context {fn env : Type}.
Implicit Types (t : sTask fn) (s : sched fn env).

Lemma tasks_with_tasks ts s : SCH_tasks_G (with_tasks ts s) = ts.
Proof. done. Qed.
Lemma with_tasks_twice ts ts' s : with_tasks ts (with_tasks ts' s) = with_tasks ts s.
Proof. done. Qed.
Lemma with_tasks_same s : with_tasks (SCH_tasks_G s) s = s.
Proof. by destruct s. Qed.

Lemma slot_put i t t0 s : SCH_tasks_G s !! i = Some t0 -> SCH_tasks_G (put i t s) !! i = Some t.
Proof. intros H%lookup_lt_Some. simpl. by apply list_lookup_insert_eq. Qed.

Lemma put_put i t t' s : put i t (put i t' s) = put i t s.
Proof. unfold put, with_tasks. simpl. by rewrite list_insert_insert_eq. Qed.

Lemma put_same i t s : SCH_tasks_G s !! i = Some t -> put i t s = s.
Proof. intros H. unfold put. by rewrite list_insert_id, with_tasks_same. Qed.

Lemma put_with_error i t e s : put i t (with_error e s) = with_error e (put i t s).
Proof. done. Qed.

Lemma load_runs (i : nat) t s :
  SCH_tasks_G s !! i = Some t -> runs (load (Z.of_nat i)) s t s.
Proof.
  intros H. unfold runs, load. rewrite Nat2Z.id, H.
  by destruct (Z.leb_spec 0 (Z.of_nat i)); [|lia].
Qed.

Lemma load_outside (i : Z) s :
  ~ (0 <= i < Z.of_nat (length (SCH_tasks_G s))) ->
  load i s = (Undefined (OutOfBounds i), s).
Proof.
  intros H. unfold load. destruct (_ !! _) as [t|] eqn:E; [|done].
  apply lookup_lt_Some in E. destruct (Z.leb_spec 0 i); [lia|done].
Qed.

Lemma store_runs (i : nat) (f : sTask fn -> sTask fn) t s :
  SCH_tasks_G s !! i = Some t -> runs (store (Z.of_nat i) f) s tt (put i (f t) s).
Proof.
  intros H. unfold store. eapply runs_bind; [by apply load_runs|].
  unfold put. rewrite Nat2Z.id. reflexivity.
Qed.

Lemma store_put_runs (i : nat) (f : sTask fn -> sTask fn) t t0 s :
  SCH_tasks_G s !! i = Some t0 ->
  runs (store (Z.of_nat i) f) (put i t s) tt (put i (f t) s).
Proof.
  intros H. rewrite <- (put_put i (f t) t s). eapply store_runs, slot_put, H.
Qed.

Lemma load_put_runs (i : nat) t t0 s :
  SCH_tasks_G s !! i = Some t0 -> runs (load (Z.of_nat i)) (put i t s) t (put i t s).
Proof. intros H. eapply load_runs, slot_put, H. Qed.
End slots.

#[export] Hint Resolve load_runs store_runs store_put_runs load_put_runs : c_runs.

(** Run the statements of a straight-line fragment one after the other. *)
Ltac c_step := eapply runs_bind; [solve [eauto 3 with c_runs] | cbn beta iota].
Ltac c_steps := repeat c_step.

Section operations_spec.
Context {fn env : Type}.
Implicit Types (t : sTask fn) (s : sched fn env).

(** *** [SCH_Update] *)
Lemma update_slot_runs s i t :
  SCH_tasks_G s !! i = Some t -> is_u32 (Delay t) ->
  runs (SCH_Update_slot (Z.of_nat i)) s tt (put i (tick_slot t) s).
Proof.
  intros Ht Hd. unfold SCH_Update_slot. c_step. unfold tick_slot.
  destruct t as [[f|] d p r]; simpl in *.
  - case_bool; subst.
    + c_step. apply runs_when. case_bool; subst; simpl.
      * done.
      * exact (store_put_runs i (set_Delay p) (set_RunMe _ _) _ s Ht).
    + unfold is_u32 in Hd. rewrite u32_small by (unfold is_u32; lia).
      by apply (store_runs i (set_Delay (d - 1)) _ _ Ht).
  - rewrite put_same by done. apply runs_ret.
Qed.

Lemma wf_tasks_length s : wf s -> Z.of_nat (length (SCH_tasks_G s)) = SCH_MAX_TASKS.
Proof. intros [Hl _]. by rewrite Hl. Qed.

(** The interrupt handler is the slotwise tick, on any table of the right length
    whose delays are in range. *)
Lemma update_runs_delays s : length (SCH_tasks_G s) = Z.to_nat SCH_MAX_TASKS ->
  Forall (fun t => is_u32 (Delay t)) (SCH_tasks_G s) ->
  runs SCH_Update s tt (with_tasks (tick_slot <$> SCH_tasks_G s) s).
Proof.
  intros Hl Hd. unfold SCH_Update.
  rewrite <- (fold_rest_id (SCH_tasks_G s) s) at 3.
  apply (for_map SCH_tasks_G with_tasks tick_slot (fun _ s => s))
    with (P := fun t => is_u32 (Delay t)); try done.
  - apply with_tasks_same.
  - intros s0 i t Hi Hdi. by apply update_slot_runs.
  - by rewrite Hl.
Qed.

Lemma update_runs s : wf s -> runs SCH_Update s tt (with_tasks (tick_slot <$> SCH_tasks_G s) s).
Proof.
  intros [Hl Hs]. apply update_runs_delays; [done|]. eapply Forall_mono; [exact Hs|]. by intros t [].
Qed.

Lemma wf_tick_slot t : wf_slot t -> wf_slot (tick_slot t).
Proof.
  intros [Hd Hp Hr He]. unfold tick_slot. destruct t as [[f|] d p r]; simpl in *.
  - case_bool; constructor; simpl; auto using u8_range; try done.
    unfold is_u32 in *; lia.
  - rewrite He by done. by constructor.
Qed.

Lemma update_wf s s' : wf s -> runs SCH_Update s tt s' -> wf s'.
Proof.
  intros Hwf Hrun. destruct (runs_det _ _ _ _ _ _ Hrun (update_runs s Hwf)) as [_ ->].
  destruct Hwf as [Hl Hs]. constructor; simpl; [by rewrite length_fmap|].
  apply Forall_fmap. eapply Forall_mono; [done|]. intros t Ht. by apply wf_tick_slot.
Qed.

(** *** [SCH_Delete_Task] *)
Lemma delete_runs s (i : nat) t :
  SCH_tasks_G s !! i = Some t ->
  runs (SCH_Delete_Task (Z.of_nat i)) s
    (match pTask t with None => RETURN_ERROR | Some _ => RETURN_NORMAL end)
    (put i empty_slot
       (match pTask t with None => with_error ERROR_SCH_CANNOT_DELETE_TASK s | Some _ => s end)).
Proof.
  intros Ht. unfold SCH_Delete_Task. c_step.
  destruct t as [[f|] d p r]; cbn [pTask].
  - c_steps. done.
  - eapply runs_bind; [eapply runs_bind; [reflexivity|apply runs_ret]|].
    assert (SCH_tasks_G (with_error ERROR_SCH_CANNOT_DELETE_TASK s) !! i
            = Some (mk_sTask None d p r)) by done.
    c_steps. done.
Qed.

Lemma delete_outside s (i : Z) :
  ~ (0 <= i < Z.of_nat (length (SCH_tasks_G s))) ->
  SCH_Delete_Task i s = (Undefined (OutOfBounds i), s).
Proof. intros H. unfold SCH_Delete_Task, c_bind. by rewrite load_outside. Qed.

(** *** [SCH_Init_T2] *)
Lemma fold_delete_error l s :
  SCH_tasks_G (fold_rest delete_error l s) = SCH_tasks_G s /\
  outside (fold_rest delete_error l s) = outside s.
Proof.
  revert s. induction l as [|t l IH]; intros s; [done|].
  destruct (IH (delete_error t s)) as [H1 H2]. simpl.
  change (foldl _ ?a l) with (fold_rest delete_error l a).
  rewrite H1, H2. unfold delete_error. by destruct (pTask t).
Qed.

Lemma init_runs s :
  length (SCH_tasks_G s) = Z.to_nat SCH_MAX_TASKS ->
  runs SCH_Init_T2 s tt
    (mk_sched (replicate (Z.to_nat SCH_MAX_TASKS) empty_slot) 0 (outside s)).
Proof.
  intros Hl. unfold SCH_Init_T2. eapply runs_bind.
  - apply (for_map SCH_tasks_G with_tasks (fun _ => empty_slot) delete_error)
      with (P := fun _ => True); try done.
    + apply with_tasks_same.
    + intros l t s0. unfold delete_error. by destruct (pTask t).
    + intros s0 i t Hi _. eapply runs_bind; [by apply delete_runs|].
      unfold delete_error, put. destruct (pTask t); apply runs_ret.
    + by rewrite Hl.
    + by apply Forall_true.
  - destruct (fold_delete_error (SCH_tasks_G s) s) as [_ H].
    unfold runs, c_modify, with_error, with_tasks. cbn [outside SCH_tasks_G]. rewrite H.
    do 2 f_equal. rewrite <- Hl. f_equal. by apply const_fmap.
Qed.

(** *** [SCH_Add_Task] *)
Lemma load_pTask_runs beyond (i : nat) t s :
  SCH_tasks_G s !! i = Some t -> runs (load_pTask beyond (Z.of_nat i)) s (pTask t) s.
Proof. intros H. unfold runs, load_pTask. by rewrite Nat2Z.id, H. Qed.

Lemma find_gap_free beyond s t n : forall fuel k,
  SCH_tasks_G s !! (k + n)%nat = Some t -> pTask t = None ->
  (forall j t', (k <= j < k + n)%nat -> SCH_tasks_G s !! j = Some t' -> occupied t') ->
  Z.of_nat (k + n) < SCH_MAX_TASKS -> (n < fuel)%nat ->
  runs (find_gap beyond fuel (Z.of_nat k)) s (Z.of_nat (k + n)) s.
Proof.
  induction n as [|n IH]; intros fuel k Ht Hn Hocc Hmax Hfuel;
    (destruct fuel as [|fuel]; [lia|]); simpl.
  - rewrite Nat.add_0_r in *. eapply runs_bind; [by apply load_pTask_runs|].
    rewrite Hn. apply runs_ret.
  - destruct (SCH_tasks_G s !! k) as [tk|] eqn:Hk.
    2:{ apply lookup_lt_Some in Ht. apply lookup_ge_None in Hk. lia. }
    eapply runs_bind; [by apply load_pTask_runs|].
    rewrite bool_decide_eq_true_2 by (eapply (Hocc k); [lia|done]).
    destruct (Z.ltb_spec (Z.of_nat k) SCH_MAX_TASKS); [|lia].
    unfold SCH_MAX_TASKS in *.
    rewrite u8_small by (unfold is_u8; lia). cbn [andb].
    replace (Z.of_nat k + 1) with (Z.of_nat (Datatypes.S k)) by lia.
    replace (k + Datatypes.S n)%nat with (Datatypes.S k + n)%nat in * by lia.
    apply IH; auto with lia. intros j t' Hj. apply Hocc. lia.
Qed.

Lemma find_gap_full beyond s n : forall fuel k,
  length (SCH_tasks_G s) = Z.to_nat SCH_MAX_TASKS ->
  Forall occupied (SCH_tasks_G s) ->
  (k + n)%nat = Z.to_nat SCH_MAX_TASKS -> (n < fuel)%nat ->
  find_gap beyond fuel (Z.of_nat k) s =
    match beyond with
    | None => (Undefined (OutOfBounds SCH_MAX_TASKS), s)
    | Some _ => (Ret SCH_MAX_TASKS, s)
    end.
Proof.
  induction n as [|n IH]; intros fuel k Hl Hocc Hk Hfuel;
    (destruct fuel as [|fuel]; [lia|]); simpl.
  - rewrite Nat.add_0_r in Hk. subst k.
    assert (E : load_pTask beyond (Z.of_nat (Z.to_nat SCH_MAX_TASKS)) s =
      match beyond with
      | None => (Undefined (OutOfBounds SCH_MAX_TASKS), s) | Some v => (Ret v, s) end).
    { unfold load_pTask. rewrite Nat2Z.id, (proj2 (lookup_ge_None _ _)) by (rewrite Hl; lia).
      by destruct beyond. }
    unfold c_bind. rewrite E. destruct beyond as [v|]; [|done].
    by rewrite andb_false_r.
  - destruct (lookup_lt_is_Some_2 (SCH_tasks_G s) k) as [t Ht]; [rewrite Hl; lia|].
    rewrite (bind_runs _ _ _ _ _ (load_pTask_runs beyond k t s Ht)).
    rewrite bool_decide_eq_true_2 by exact (Forall_lookup_1 _ _ _ _ Hocc Ht).
    unfold SCH_MAX_TASKS in *.
    destruct (Z.ltb_spec (Z.of_nat k) 4); [|lia].
    rewrite u8_small by (unfold is_u8; lia). cbn [andb].
    replace (Z.of_nat k + 1) with (Z.of_nat (Datatypes.S k)) by lia.
    apply IH; auto with lia.
Qed.

Lemma store_fields_runs (i : nat) p d q s t0 :
  SCH_tasks_G s !! i = Some t0 ->
  runs (store (Z.of_nat i) (set_pTask p) ;; store (Z.of_nat i) (set_Delay d) ;;
        store (Z.of_nat i) (set_Period q) ;; store (Z.of_nat i) (set_RunMe 0) ;;
        c_ret (Z.of_nat i))
    s (Z.of_nat i) (put i (mk_sTask p d q 0) s).
Proof. intros H. c_steps. done. Qed.

Lemma add_free_runs beyond s p d q (i : nat) t :
  (i < Z.to_nat SCH_MAX_TASKS)%nat -> SCH_tasks_G s !! i = Some t -> pTask t = None ->
  (forall j t', (j < i)%nat -> SCH_tasks_G s !! j = Some t' -> occupied t') ->
  runs (SCH_Add_Task beyond p d q) s (Z.of_nat i) (put i (mk_sTask p d q 0) s).
Proof.
  intros Hi Ht Hn Hocc. unfold SCH_Add_Task. unfold SCH_MAX_TASKS in Hi.
  eapply runs_bind.
  - apply (find_gap_free beyond s t i _ 0); simpl; unfold SCH_MAX_TASKS in *; try done;
      [|lia..].
    intros j t' Hj. apply Hocc. lia.
  - cbn beta. destruct (Z.eqb_spec (Z.of_nat (0 + i)) SCH_MAX_TASKS).
    + unfold SCH_MAX_TASKS in *. lia.
    + by eapply store_fields_runs.
Qed.

Lemma add_full s beyond p d q :
  length (SCH_tasks_G s) = Z.to_nat SCH_MAX_TASKS -> Forall occupied (SCH_tasks_G s) ->
  SCH_Add_Task beyond p d q s =
    match beyond with
    | None => (Undefined (OutOfBounds SCH_MAX_TASKS), s)
    | Some _ => (Ret SCH_MAX_TASKS, with_error ERROR_SCH_TOO_MANY_TASKS s)
    end.
Proof.
  intros Hl Hocc. unfold SCH_Add_Task, c_bind at 1.
  change 0 with (Z.of_nat 0) at 1.
  rewrite (find_gap_full beyond s (Z.to_nat SCH_MAX_TASKS)) by (try done; lia).
  by destruct beyond.
Qed.

(** Either some slot is free, and there is a first one, or all are occupied. *)
Lemma first_free (l : list (sTask fn)) :
  Forall occupied l \/
  exists i t, l !! i = Some t /\ pTask t = None /\
    forall j t', (j < i)%nat -> l !! j = Some t' -> occupied t'.
Proof.
  induction l as [|t l IH]; [by left|].
  destruct (pTask t) as [f|] eqn:E.
  - destruct IH as [IH|(i & t' & H1 & H2 & H3)].
    + left. constructor; [by eexists|done].
    + right. exists (Datatypes.S i), t'. split_and!; [done..|].
      intros [|j] t2 Hj Ht2; simpl in *; [|eapply H3; [|done]; lia].
      simplify_eq. by eexists.
  - right. exists 0%nat, t. split_and!; [done..|]. lia.
Qed.

(** *** [SCH_Dispatch_Tasks] *)
Lemma fold_run_outside act l s :
  fold_rest (run_outside act) l s =
    with_outside (foldl (fun e f => act f e) (outside s) (omap due l)) s.
Proof.
  revert s. induction l as [|t l IH]; intros s; [by destruct s|].
  simpl. change (foldl _ ?a l) with (fold_rest (run_outside act) l a).
  rewrite IH. unfold run_outside. by destruct (due t).
Qed.

Lemma dispatch_slot_runs act s (i : nat) t :
  SCH_tasks_G s !! i = Some t -> wf_slot t ->
  runs (SCH_Dispatch_slot (quiet act) (Z.of_nat i)) s tt
    (put i (dispatch_slot t) (run_outside act t s)).
Proof.
  intros Ht [Hd Hp Hr He]. unfold SCH_Dispatch_slot. c_step.
  apply runs_when. unfold run_outside, due, dispatch_slot.
  destruct (Z.ltb_spec 0 (RunMe t)); [|by rewrite put_same].
  destruct t as [[f|] d p r]; [|injection (He eq_refl) as -> -> ->; simpl in *; lia].
  simpl in *. set (s1 := with_outside (act f (outside s)) s).
  assert (Ht1 : SCH_tasks_G s1 !! i = Some (mk_sTask (Some f) d p r)) by done.
  eapply runs_bind; [reflexivity|]. fold s1. c_steps.
  unfold is_u8 in Hr. cbn [RunMe]. rewrite u8_small by (unfold is_u8; lia).
  apply runs_when. cbn. case_bool; [|done].
  eapply runs_bind; [|apply runs_ret].
  rewrite <- (put_put i empty_slot (mk_sTask (Some f) d p (r - 1)) s1).
  exact (delete_runs (put i (mk_sTask (Some f) d p (r - 1)) s1) i _ (slot_put i _ _ _ Ht1)).
Qed.

Lemma dispatch_quiet_runs act s :
  wf s ->
  runs (SCH_Dispatch_Tasks (quiet act)) s tt
    (mk_sched (dispatch_slot <$> SCH_tasks_G s) (Error_code_G s)
       (foldl (fun e f => act f e) (outside s) (omap due (SCH_tasks_G s)))).
Proof.
  intros Hwf. unfold SCH_Dispatch_Tasks, SCH_Go_To_Sleep.
  eapply runs_bind; [|apply runs_ret].
  pose proof (fold_run_outside act (SCH_tasks_G s) s) as E.
  match goal with |- runs _ _ _ ?s' =>
    replace s' with (with_tasks (dispatch_slot <$> SCH_tasks_G s)
      (fold_rest (run_outside act) (SCH_tasks_G s) s)) by (by rewrite E) end.
  apply (for_map SCH_tasks_G with_tasks) with (P := wf_slot); try done.
  - apply with_tasks_same.
  - intros l t s0. unfold run_outside. by destruct (due t).
  - intros s0 i t Hi Ht. pose proof (dispatch_slot_runs act s0 i t Hi Ht) as H.
    unfold put in H. replace (SCH_tasks_G (run_outside act t s0)) with (SCH_tasks_G s0) in H
      by (unfold run_outside; by destruct (due t)). exact H.
  - by apply wf_tasks_length.
  - apply (wf_slots Hwf).
Qed.

(** *** The invariant *)
Lemma wf_empty_slot : wf_slot (@empty_slot fn).
Proof. by constructor. Qed.

Lemma wf_slot_lookup s (i : nat) t : wf s -> SCH_tasks_G s !! i = Some t -> wf_slot t.
Proof. intros Hwf. apply Forall_lookup_1, (wf_slots Hwf). Qed.

Lemma wf_put s (i : nat) t : wf s -> wf_slot t -> wf (put i t s).
Proof.
  intros [Hl Hs] Ht. constructor; simpl; [by rewrite length_insert|]. by apply Forall_set.
Qed.

Lemma wf_with_error s e : wf s -> wf (with_error e s).
Proof. intros [Hl Hs]. by constructor. Qed.

Lemma wf_in_range s i : wf s -> 0 <= i < SCH_MAX_TASKS ->
  exists (k : nat) t, i = Z.of_nat k /\ SCH_tasks_G s !! k = Some t.
Proof.
  intros Hwf Hi. destruct (lookup_lt_is_Some_2 (SCH_tasks_G s) (Z.to_nat i)) as [t Ht].
  { rewrite (wf_length Hwf). unfold SCH_MAX_TASKS in *. lia. }
  exists (Z.to_nat i), t. split; [lia|done].
Qed.

Lemma delete_hoare i : 0 <= i < SCH_MAX_TASKS ->
  hoare (@wf fn env) (SCH_Delete_Task i) (fun _ => wf).
Proof.
  intros Hi s Hwf. destruct (wf_in_range s i Hwf Hi) as (k & t & -> & Ht).
  eexists _, _. split; [by apply delete_runs|].
  apply wf_put; [|apply wf_empty_slot]. destruct (pTask t); auto using wf_with_error.
Qed.

Lemma delete_wf s i r s' : wf s -> runs (SCH_Delete_Task i) s r s' -> wf s'.
Proof.
  intros Hwf Hrun. destruct (decide (0 <= i < SCH_MAX_TASKS)) as [Hi|Hi].
  - destruct (delete_hoare i Hi s Hwf) as (r' & s'' & Hrun' & Hwf').
    by destruct (runs_det _ _ _ _ _ _ Hrun Hrun') as [_ ->].
  - unfold runs in Hrun. rewrite delete_outside in Hrun; [done|].
    by rewrite (wf_tasks_length s Hwf).
Qed.

Lemma init_wf s0 : wf (mk_sched (replicate (Z.to_nat SCH_MAX_TASKS) (@empty_slot fn)) 0
                         (outside (s0 : sched fn env))).
Proof. constructor; [done|]. apply Forall_replicate, wf_empty_slot. Qed.

Lemma add_wf beyond s f d p r s' :
  is_u32 d -> is_u32 p -> wf s ->
  runs (SCH_Add_Task beyond (Some f) d p) s r s' -> wf s'.
Proof.
  intros Hd Hp Hwf Hrun. destruct (first_free (SCH_tasks_G s)) as [Hocc|(i & t & Ht & Hn & Hocc)].
  - unfold runs in Hrun. rewrite add_full in Hrun by (done || apply (wf_length Hwf)).
    destruct beyond; simplify_eq. by apply wf_with_error.
  - assert (Hi : (i < Z.to_nat SCH_MAX_TASKS)%nat)
      by (rewrite <- (wf_length Hwf); by eapply lookup_lt_Some).
    pose proof (add_free_runs beyond s (Some f) d p i t Hi Ht Hn Hocc) as Hrun'.
    destruct (runs_det _ _ _ _ _ _ Hrun Hrun') as [_ ->].
    apply wf_put; [done|]. by constructor.
Qed.

(** A dispatch of one slot keeps the invariant whatever the task does to the
    table, as long as the task keeps it: a slot the task emptied has a null
    [Period], so its wrapped [RunMe] does not survive. *)
Lemma dispatch_slot_hoare (call : fn -> C (sched fn env) unit) i :
  (forall f, hoare wf (call f) (fun _ => wf)) -> 0 <= i < SCH_MAX_TASKS ->
  hoare wf (SCH_Dispatch_slot call i) (fun _ => wf).
Proof.
  intros Hcall Hi s Hwf. destruct (wf_in_range s i Hwf Hi) as (k & t & -> & Ht).
  pose proof (wf_slot_lookup _ _ _ Hwf Ht) as Hslot.
  unfold SCH_Dispatch_slot. eapply bind_returns; [by apply load_runs|].
  unfold c_when at 1. destruct (Z.ltb_spec 0 (RunMe t)) as [Hr|Hr]; [|by exists tt, s].
  destruct (pTask t) as [f|] eqn:Hf.
  2:{ rewrite (wf_empty _ Hslot Hf) in Hr. simpl in Hr. lia. }
  destruct (Hcall f s Hwf) as ([] & s1 & Hrun1 & Hwf1).
  destruct (wf_in_range s1 (Z.of_nat k) Hwf1 Hi) as (k' & t1 & Hk & Ht1).
  apply Nat2Z.inj in Hk. subst k'.
  pose proof (wf_slot_lookup _ _ _ Hwf1 Ht1) as [Hd1 Hp1 Hr1 He1].
  set (t2 := set_RunMe (u8 (RunMe t1 - 1)) t1).
  eapply bind_returns; [exact Hrun1|]. eapply bind_returns; [by apply load_runs|].
  eapply bind_returns; [by apply store_runs|].
  eapply bind_returns; [by eapply load_put_runs|]. fold t2.
  unfold c_when. destruct (Z.eqb_spec (Period t2) 0) as [Hz|Hz].
  - eapply bind_returns; [by eapply delete_runs, slot_put|].
    eexists tt, _. split; [apply runs_ret|].
    destruct (pTask t2); rewrite ?put_with_error, put_put;
      auto using wf_with_error, wf_put, wf_empty_slot.
  - eexists tt, _. split; [apply runs_ret|]. apply wf_put; [done|].
    constructor; try done; [apply u8_range|]. intros Hn.
    exfalso. apply Hz. unfold t2. simpl. by rewrite (He1 Hn).
Qed.

Lemma dispatch_hoare (call : fn -> C (sched fn env) unit) :
  (forall f, hoare wf (call f) (fun _ => wf)) ->
  hoare wf (SCH_Dispatch_Tasks call) (fun _ => wf).
Proof.
  intros Hcall. unfold SCH_Dispatch_Tasks, SCH_Go_To_Sleep.
  apply hoare_bind with (R := fun _ => wf); [|intros []; by apply hoare_ret].
  apply hoare_for_each. intros i Hi%elem_of_seqZ.
  apply dispatch_slot_hoare; [done|]. unfold SCH_MAX_TASKS in *. lia.
Qed.

Lemma step_wf (call : fn -> C (sched fn env) unit) s s' :
  (forall f, hoare wf (call f) (fun _ => wf)) -> wf s -> sched_step call s s' -> wf s'.
Proof.
  intros Hcall Hwf Hstep. revert Hwf.
  destruct Hstep as [s1 s2 Hr|b f d p r s1 s2 Hd Hp Hr|i r s1 s2 Hr|s1 s2 Hr|s1 s2 Hr];
    intros Hwf.
  - destruct (runs_det _ _ _ _ _ _ Hr (init_runs s1 (wf_length Hwf))) as [_ ->].
    apply init_wf.
  - exact (add_wf _ _ _ _ _ _ _ Hd Hp Hwf Hr).
  - exact (delete_wf _ _ _ _ Hwf Hr).
  - exact (update_wf _ _ Hwf Hr).
  - destruct (dispatch_hoare call Hcall s1 Hwf) as ([] & s3 & Hr' & Hwf').
    by destruct (runs_det _ _ _ _ _ _ Hr Hr') as [_ ->].
Qed.
End operations_spec.

Ltac solve_wf :=
  constructor; [reflexivity|];
  repeat first [apply Forall_cons_2 | apply Forall_nil_2];
  (constructor; simpl; unfold is_u32, is_u8; (lia || discriminate || reflexivity)).

Lemma demo_wf first : wf (demo_state first).
Proof. solve_wf. Qed.

(** ** Properties *)

(** C1: after [SCH_Init_T2], whatever sequence of [SCH_Add_Task],
    [SCH_Delete_Task], [SCH_Update] and [SCH_Dispatch_Tasks] calls follows (the
    tasks may themselves call the scheduler), the table is well formed, and the
    next interrupt and the next dispatch both return: no task is called through
    a null pointer, no index leaves the table, no loop runs out. *)
Theorem SCH_reachable_safe {fn env : Type} (call : fn -> C (sched fn env) unit)
    (s0 s s' : sched fn env) :
  (forall f, hoare wf (call f) (fun _ => wf)) ->
  length (SCH_tasks_G s0) = Z.to_nat SCH_MAX_TASKS ->
  runs SCH_Init_T2 s0 tt s -> rtc (sched_step call) s s' ->
  wf s' /\ (exists s2, runs SCH_Update s' tt s2 /\ wf s2)
        /\ (exists s2, runs (SCH_Dispatch_Tasks call) s' tt s2 /\ wf s2).
Proof.
  intros Hcall Hl Hinit Hsteps.
  destruct (runs_det _ _ _ _ _ _ Hinit (init_runs s0 Hl)) as [_ ->].
  assert (Hwf : wf s').
  { assert (H0 := init_wf s0). revert H0. clear Hinit. induction Hsteps; eauto using step_wf. }
  split_and!; [done|..].
  - eexists. split; [by apply update_runs|]. eapply update_wf; [done|by apply update_runs].
  - destruct (dispatch_hoare call Hcall s' Hwf) as ([] & s2 & Hr & Hw). eauto.
Qed.

Lemma SCH_reachable_safe_witness :
  exists s, runs SCH_Init_T2 (demo_state 1) tt s /\
    wf s /\ (exists s2, runs SCH_Update s tt s2 /\ wf s2)
    /\ (exists s2, runs (SCH_Dispatch_Tasks (quiet demo_log)) s tt s2 /\ wf s2).
Proof.
  eexists. split; [reflexivity|].
  eapply (SCH_reachable_safe (quiet demo_log) (demo_state 1)).
  - intros f s Hwf. exists tt, (with_outside (demo_log f (outside s)) s).
    split; [reflexivity|]. by destruct Hwf.
  - reflexivity.
  - reflexivity.
  - apply rtc_refl.
Defined.

(** C36: one timer interrupt ticks every slot of a well-formed table exactly
    once and touches nothing else: an empty slot is left alone, a task whose
    [Delay] is zero becomes due once more and is reloaded with its [Period], any
    other task has its [Delay] counted down. *)
Theorem SCH_Update_is_tick {fn env : Type} (s : sched fn env) :
  wf s -> SCH_Update s = (Ret tt, with_tasks (tick_slot <$> SCH_tasks_G s) s).
Proof. apply update_runs. Qed.

Lemma SCH_Update_is_tick_witness :
  SCH_Update (demo_state 1) =
    (Ret tt, with_tasks [mk_sTask (Some 1%nat) 5 5 2; mk_sTask (Some 2%nat) 0 0 2;
                         mk_sTask None 0 0 0; mk_sTask (Some 3%nat) 6 0 0] (demo_state 1)).
Proof. exact (SCH_Update_is_tick (demo_state 1) (demo_wf 1)). Defined.

(** C23: when the tasks do not touch the table, one dispatch runs exactly the
    tasks whose [RunMe] is positive, in slot order and once each, takes one
    activation off each of them, and removes the one-shot ones. *)
Theorem SCH_Dispatch_runs_due {fn env : Type} (act : fn -> env -> env) (s : sched fn env) :
  wf s ->
  SCH_Dispatch_Tasks (quiet act) s =
    (Ret tt, mk_sched (dispatch_slot <$> SCH_tasks_G s) (Error_code_G s)
       (foldl (fun e f => act f e) (outside s) (omap due (SCH_tasks_G s)))).
Proof. apply dispatch_quiet_runs. Qed.

Lemma SCH_Dispatch_runs_due_witness :
  SCH_Dispatch_Tasks (quiet demo_log) (demo_state 1) =
    (Ret tt, mk_sched [mk_sTask (Some 1%nat) 0 5 0; mk_sTask None 0 0 0;
                       mk_sTask None 0 0 0; mk_sTask (Some 3%nat) 7 0 0] 0 [1%nat; 2%nat]).
Proof. exact (SCH_Dispatch_runs_due demo_log (demo_state 1) (demo_wf 1)). Defined.

(** With a free slot in the table [SCH_Add_Task] takes the first one,
    returns its index, and changes nothing else. *)
Theorem SCH_Add_Task_first_gap {fn env : Type} beyond f d p (s : sched fn env) :
  wf s -> ~ Forall occupied (SCH_tasks_G s) ->
  exists i, SCH_Add_Task beyond (Some f) d p s = (Ret (Z.of_nat i), put i (mk_sTask (Some f) d p 0) s)
    /\ Z.of_nat i < SCH_MAX_TASKS /\ SCH_tasks_G s !! i = Some empty_slot
    /\ Forall occupied (take i (SCH_tasks_G s)).
Proof.
  intros Hwf Hfree. destruct (first_free (SCH_tasks_G s)) as [?|(i & t & Ht & Hn & Hocc)]; [done|].
  assert (Hi : (i < Z.to_nat SCH_MAX_TASKS)%nat)
    by (rewrite <- (wf_length Hwf); by eapply lookup_lt_Some).
  exists i. split_and!.
  - by eapply add_free_runs.
  - unfold SCH_MAX_TASKS in *. lia.
  - by rewrite <- (wf_empty _ (wf_slot_lookup _ _ _ Hwf Ht) Hn).
  - apply Forall_lookup. intros j t' [Hj Hlt]%lookup_take_Some. by eapply Hocc.
Qed.

Lemma SCH_Add_Task_first_gap_witness :
  exists i, SCH_Add_Task None (Some 8%nat) 3 4 (demo_state 1)
      = (Ret (Z.of_nat i), put i (mk_sTask (Some 8%nat) 3 4 0) (demo_state 1))
    /\ Z.of_nat i < SCH_MAX_TASKS /\ SCH_tasks_G (demo_state 1) !! i = Some empty_slot
    /\ Forall occupied (take i (SCH_tasks_G (demo_state 1))).
Proof.
  apply (SCH_Add_Task_first_gap None 8%nat 3 4 (demo_state 1) (demo_wf 1)).
  intros H. by destruct (Forall_lookup_1 _ _ 2%nat _ H eq_refl).
Defined.

(** On a full table the loop of [SCH_Add_Task] evaluates
    [SCH_tasks_G[SCH_MAX_TASKS].pTask], one past the end: undefined behaviour by
    the C standard. On a machine where that read yields some value, whatever it
    is, the call reports the full table as meant and leaves it unchanged. *)
Theorem SCH_Add_Task_full {fn env : Type} p d q (s : sched fn env) :
  wf s -> Forall occupied (SCH_tasks_G s) ->
  SCH_Add_Task None p d q s = (Undefined (OutOfBounds SCH_MAX_TASKS), s) /\
  forall v, SCH_Add_Task (Some v) p d q s =
    (Ret SCH_MAX_TASKS, with_error ERROR_SCH_TOO_MANY_TASKS s).
Proof. intros Hwf Hocc. split; intros; by rewrite add_full by (done || apply (wf_length Hwf)). Qed.

Lemma SCH_Add_Task_full_witness :
  SCH_Add_Task None (Some 8%nat) 3 4 demo_full = (Undefined (OutOfBounds SCH_MAX_TASKS), demo_full) /\
  forall v, SCH_Add_Task (Some v) (Some 8%nat) 3 4 demo_full =
    (Ret SCH_MAX_TASKS, with_error ERROR_SCH_TOO_MANY_TASKS demo_full).
Proof.
  apply (SCH_Add_Task_full (Some 8%nat) 3 4 demo_full); [solve_wf|].
  repeat constructor; by eexists.
Defined.

(** C39: deleting the task just added, by the index [SCH_Add_Task] returned,
    reports success and gives back the state before the addition. *)
Theorem SCH_Add_Delete_roundtrip {fn env : Type} beyond f d p (s s' : sched fn env) i :
  wf s -> i <> SCH_MAX_TASKS ->
  SCH_Add_Task beyond (Some f) d p s = (Ret i, s') ->
  SCH_Delete_Task i s' = (Ret RETURN_NORMAL, s).
Proof.
  intros Hwf Hi Hadd. destruct (first_free (SCH_tasks_G s)) as [Hocc|(k & t & Ht & Hn & Hocc)].
  - rewrite add_full in Hadd by (done || apply (wf_length Hwf)). destruct beyond; by simplify_eq.
  - assert (Hk : (k < Z.to_nat SCH_MAX_TASKS)%nat)
      by (rewrite <- (wf_length Hwf); by eapply lookup_lt_Some).
    rewrite (add_free_runs beyond s (Some f) d p k t Hk Ht Hn Hocc) in Hadd. simplify_eq.
    pose proof (delete_runs _ k _ (slot_put k (mk_sTask (Some f) d p 0) t s Ht)) as H.
    unfold runs in H. rewrite H. cbn. rewrite put_put, put_same; [done|].
    by rewrite <- (wf_empty _ (wf_slot_lookup _ _ _ Hwf Ht) Hn).
Qed.

Lemma SCH_Add_Delete_roundtrip_witness :
  SCH_Delete_Task 2 (put 2 (mk_sTask (Some 8%nat) 3 4 0) (demo_state 1))
    = (Ret RETURN_NORMAL, demo_state 1).
Proof.
  apply (SCH_Add_Delete_roundtrip None 8%nat 3 4 (demo_state 1)); [apply demo_wf|done|reflexivity].
Defined.

(** [SCH_Delete_Task] empties the slot in every case; on an empty slot it
    also sets [Error_code_G] and returns [RETURN_ERROR]. The index is not
    checked: outside the table the access is undefined. *)
Theorem SCH_Delete_Task_spec {fn env : Type} (i : Z) (s : sched fn env) :
  wf s ->
  (forall t, SCH_tasks_G s !! Z.to_nat i = Some t -> 0 <= i ->
     SCH_Delete_Task i s =
       if bool_decide (occupied t) then (Ret RETURN_NORMAL, put (Z.to_nat i) empty_slot s)
       else (Ret RETURN_ERROR, with_error ERROR_SCH_CANNOT_DELETE_TASK s)) /\
  (~ (0 <= i < SCH_MAX_TASKS) -> SCH_Delete_Task i s = (Undefined (OutOfBounds i), s)).
Proof.
  intros Hwf. split.
  - intros t Ht Hi. pose proof (delete_runs s (Z.to_nat i) t Ht) as H. rewrite Z2Nat.id in H by done.
    unfold runs in H. rewrite H. unfold occupied. case_bool_decide as Hocc.
    + destruct (pTask t); [done|by destruct Hocc].
    + destruct (pTask t) eqn:E; [by destruct Hocc; eexists|].
      rewrite put_with_error, put_same; [done|].
      by rewrite <- (wf_empty _ (wf_slot_lookup _ _ _ Hwf Ht) E).
  - intros Hi. apply delete_outside. by rewrite (wf_tasks_length s Hwf).
Qed.

Lemma SCH_Delete_Task_spec_witness :
  SCH_Delete_Task 2 (demo_state 1) = (Ret RETURN_ERROR, with_error ERROR_SCH_CANNOT_DELETE_TASK (demo_state 1))
  /\ SCH_Delete_Task 4 (demo_state 1) = (Undefined (OutOfBounds 4), demo_state 1).
Proof.
  split.
  - exact (proj1 (SCH_Delete_Task_spec 2 (demo_state 1) (demo_wf 1)) _ eq_refl ltac:(lia)).
  - apply (proj2 (SCH_Delete_Task_spec 4 (demo_state 1) (demo_wf 1))). unfold SCH_MAX_TASKS. lia.
Defined.

(** A task that deletes itself and then adds a periodic task gives the new
    task the slot just freed, and the dispatcher's [RunMe -= 1] after the call
    wraps its activation count from 0 to 255: the new task is run by each of the
    next 255 dispatches although its [Delay] has not passed. *)
Theorem SCH_Dispatch_self_replacement {fn env : Type} (call : fn -> C (sched fn env) unit)
    beyond f g d p t (k : nat) (s : sched fn env) :
  wf s -> SCH_tasks_G s !! k = Some t -> pTask t = Some f -> 0 < RunMe t -> p <> 0 ->
  Forall occupied (take k (SCH_tasks_G s)) ->
  call f = (let* _ := SCH_Delete_Task (Z.of_nat k) in
            let* _ := SCH_Add_Task beyond (Some g) d p in c_ret tt) ->
  runs (SCH_Dispatch_slot call (Z.of_nat k)) s tt (put k (mk_sTask (Some g) d p 255) s).
Proof.
  intros Hwf Ht Hf Hr Hp Hocc Hcall. unfold SCH_Dispatch_slot.
  eapply runs_bind; [by apply load_runs|]. apply runs_when.
  destruct (Z.ltb_spec 0 (RunMe t)); [|lia]. rewrite Hf. simpl. rewrite Hcall.
  assert (Hk : (k < Z.to_nat SCH_MAX_TASKS)%nat)
    by (rewrite <- (wf_length Hwf); by eapply lookup_lt_Some).
  pose proof (delete_runs s k t Ht) as Hdel. rewrite Hf in Hdel.
  pose proof (slot_put k empty_slot t s Ht) as Hs1.
  pose proof (slot_put k (mk_sTask (Some g) d p 0) t s Ht) as Hs2.
  eapply runs_bind.
  - eapply runs_bind; [exact Hdel|]. eapply runs_bind; [|apply runs_ret].
    eapply add_free_runs; [done|exact Hs1|done|].
    intros j t' Hj Ht'. simpl in Ht'. rewrite list_lookup_insert_ne in Ht' by lia.
    eapply Forall_lookup_1; [exact Hocc|]. apply lookup_take_Some. split; [exact Ht'|lia].
  - rewrite put_put. eapply runs_bind; [by apply load_runs|].
    eapply runs_bind; [by apply store_runs|]. eapply runs_bind; [by eapply load_runs, slot_put|].
    rewrite put_put. apply runs_when. cbn. by destruct (Z.eqb_spec p 0).
Qed.

Lemma SCH_Dispatch_self_replacement_witness :
  runs (SCH_Dispatch_slot demo_call 0) (demo_state 9) tt
    (put 0 (mk_sTask (Some 7%nat) 20 10 255) (demo_state 9)).
Proof.
  eapply (SCH_Dispatch_self_replacement demo_call None 9%nat 7%nat 20 10 _ 0 (demo_state 9));
    [apply demo_wf|reflexivity|reflexivity|reflexivity|done|constructor|reflexivity].
Defined.
