(* ===== verification/TTTiming.v ===== *)
(** * When the scheduler runs its tasks

    Timing of the task table of [sch51.c]: how many activations a task has
    collected after a number of timer interrupts, and how often it has been run
    after a number of rounds of one interrupt and one dispatch, which is how the
    main loop of [c89_c99_scheduler/tests] drives the scheduler. *)

From S2P Require Import Prelude TTScheduler.
Local Open Scope Z_scope.
Local Open Scope c_scope.

(** [n] interrupts, nothing dispatched in between. *)
Definition interrupts {fn env} (n : nat) : C (sched fn env) unit :=
  c_for_each (seq 0 n) (fun _ => SCH_Update).

(** One interrupt, then one pass of the main loop. *)
Definition round {fn env} (call : fn -> C (sched fn env) unit) : C (sched fn env) unit :=
  SCH_Update ;; SCH_Dispatch_Tasks call.
Definition rounds {fn env} (call : fn -> C (sched fn env) unit) (n : nat) : C (sched fn env) unit :=
  c_for_each (seq 0 n) (fun _ => round call).

(** ** Specification

    A task with initial delay [d] and period [p] becomes due at tick [d + 1], and
    then every [p + 1] ticks; a one-shot task ([p = 0]) again at every tick until
    it is dispatched. *)
Definition activations (d p n : Z) : Z :=
  if n <=? d then 0 else if p =? 0 then n - d else 1 + (n - d - 1) / (p + 1).

Definition delay_after (d p n : Z) : Z :=
  if n <=? d then d - n else if p =? 0 then 0 else p - (n - d - 1) mod (p + 1).

(** How often a promptly dispatched task has run after [n] rounds. *)
Definition runs_after (d p n : Z) : Z :=
  if n <=? d then 0 else if p =? 0 then 1 else 1 + (n - d - 1) / (p + 1).

Definition round_slot {fn} (t : sTask fn) : sTask fn := dispatch_slot (tick_slot t).

Definition slot_after {fn} (f : fn) (d p n : Z) : sTask fn :=
  if (n <=? d) || negb (p =? 0) then mk_sTask (Some f) (delay_after d p n) p 0 else empty_slot.

(** The log of the tasks run, in order. *)
Definition logging {fn} (f : fn) (log : list fn) : list fn := log ++ [f].

Definition occurrences `{EqDecision fn} (f : fn) (log : list fn) : Z :=
  Z.of_nat (length (filter (fun g => g = f) log)).

Definition expected_runs `{EqDecision fn} (f : fn) (n : nat) (l : list (sTask fn)) : Z :=
  foldr (fun t acc => acc + if decide (pTask t = Some f)
                            then runs_after (Delay t) (Period t) (Z.of_nat n) else 0) 0 l.

(** ** Arithmetic of one more tick *)

Lemma div_mod_succ m q : 0 <= m -> 0 < q ->
  (m mod q = q - 1 /\ (m + 1) / q = m / q + 1 /\ (m + 1) mod q = 0) \/
  (0 <= m mod q < q - 1 /\ (m + 1) / q = m / q /\ (m + 1) mod q = m mod q + 1).
Proof.
  intros Hm Hq. pose proof (Z.mod_pos_bound m q Hq) as Hb.
  pose proof (Z.div_mod m q ltac:(lia)) as Hdm.
  destruct (decide (m mod q = q - 1)) as [He|Hn]; [left|right].
  - split_and!; [done|symmetry; apply Z.div_unique with 0|symmetry; apply Z.mod_unique with (m / q + 1)];
      lia.
  - split_and!; [lia|lia|symmetry; apply Z.div_unique with (m mod q + 1)
                        |symmetry; apply Z.mod_unique with (m / q)]; lia.
Qed.

(** Unfold the timing functions at [n] and [n + 1] and compare. *)
Ltac timing_cases d p n :=
  destruct (decide (p = 0)) as [->|?];
  [|destruct (div_mod_succ (n - d - 1) (p + 1)) as [(?&?&?)|(?&?&?)]];
  repeat case_bool; simpl in *; try lia.

Lemma delay_after_range d p n : 0 <= d -> 0 <= p -> 0 <= n ->
  0 <= delay_after d p n <= Z.max d p.
Proof.
  intros Hd Hp Hn. unfold delay_after. repeat case_bool; try lia.
  pose proof (Z.mod_pos_bound (n - d - 1) (p + 1)). lia.
Qed.

Lemma delay_after_one_shot d n : delay_after d 0 n = Z.max 0 (d - n).
Proof. unfold delay_after. simpl. case_bool; lia. Qed.

(** One step of the countdown, with what it adds to the activations. *)
Lemma tick_arith d p n : 0 <= d -> 0 <= p -> 0 <= n ->
  (delay_after d p n = 0 /\ delay_after d p (n + 1) = p /\
     activations d p (n + 1) = activations d p n + 1) \/
  (0 < delay_after d p n /\ delay_after d p (n + 1) = delay_after d p n - 1 /\
     activations d p (n + 1) = activations d p n).
Proof.
  intros Hd Hp Hn. unfold delay_after, activations.
  replace (n + 1 - d - 1) with (n - d - 1 + 1) by lia.
  destruct (Z.leb_spec n d); destruct (Z.leb_spec (n + 1) d); try lia.
  - destruct (decide (n = d)) as [->|]; [|lia].
    left. replace (d - d - 1 + 1) with 0 by lia.
    rewrite Z.mod_0_l, Z.div_0_l by lia. repeat case_bool; lia.
  - destruct (Z.eqb_spec p 0); [lia|].
    destruct (div_mod_succ (n - d - 1) (p + 1)) as [(H1&H2&H3)|(H1&H2&H3)]; lia.
Qed.

(** ** Interrupts only *)
Section interrupts.
Context {fn env : Type}.
Implicit Types (t : sTask fn) (s : sched fn env).

Lemma iter_tick f d p r (n : nat) :
  0 <= d -> 0 <= p -> is_u8 r ->
  Nat.iter n tick_slot (mk_sTask (Some f : option fn) d p r) =
    mk_sTask (Some f) (delay_after d p (Z.of_nat n)) p
      (u8 (r + activations d p (Z.of_nat n))).
Proof.
  intros Hd Hp Hr. induction n as [|n IH].
  - simpl. unfold delay_after, activations. destruct (Z.leb_spec (Z.of_nat 0) d); [|lia].
    replace (r + 0) with r by lia. rewrite u8_small by done. f_equal. lia.
  - simpl Nat.iter. rewrite IH. clear IH. unfold tick_slot. cbn [pTask Delay Period RunMe].
    replace (Z.of_nat (S n)) with (Z.of_nat n + 1) by lia.
    destruct (tick_arith d p (Z.of_nat n)) as [(->&->&->)|(?&->&->)]; [lia..| |].
    + f_equal. unfold u8. rewrite Zplus_mod_idemp_l. f_equal. lia.
    + case_bool; [lia|done].
Qed.

Lemma rep_update_runs (l : list nat) s : wf s ->
  runs (c_for_each l (fun _ => SCH_Update)) s tt
    (with_tasks (Nat.iter (length l) tick_slot <$> SCH_tasks_G s) s).
Proof.
  revert s. induction l as [|x l IH]; intros s Hwf.
  - simpl. rewrite list_fmap_id, with_tasks_same. apply runs_ret.
  - pose proof (update_runs s Hwf) as Hu. eapply for_each_runs; [exact Hu|].
    pose proof (IH _ (update_wf _ _ Hwf Hu)) as H. simpl in H. rewrite <- list_fmap_compose in H.
    replace (Nat.iter (length (x :: l)) tick_slot <$> SCH_tasks_G s)
      with ((Nat.iter (length l) tick_slot ∘ tick_slot) <$> SCH_tasks_G s); [exact H|].
    apply list_fmap_ext. intros _ t _. simpl. by rewrite Nat.iter_swap.
Qed.
End interrupts.

(** ** Rounds *)
Section rounds.
Context {fn : Type} `{EqDecision fn}.
Implicit Types (t : sTask fn).
Abbreviation state := (sched fn (list fn)).

Lemma logging_fold (l log : list fn) : foldl (fun e f => logging f e) log l = log ++ l.
Proof.
  revert log. induction l as [|f l IH]; intros log; simpl; [by rewrite app_nil_r|].
  rewrite IH. unfold logging. by rewrite <- app_assoc.
Qed.

Lemma round_runs (s : state) : wf s ->
  runs (round (quiet logging)) s tt
    (mk_sched (round_slot <$> SCH_tasks_G s) (Error_code_G s)
       (outside s ++ omap due (tick_slot <$> SCH_tasks_G s))).
Proof.
  intros Hwf. unfold round. pose proof (update_runs s Hwf) as Hu.
  eapply runs_bind; [exact Hu|].
  pose proof (dispatch_quiet_runs logging _ (update_wf _ _ Hwf Hu)) as Hd.
  simpl in Hd. rewrite logging_fold, <- list_fmap_compose in Hd. exact Hd.
Qed.

Lemma wf_dispatch_slot t : wf_slot t -> wf_slot (dispatch_slot t).
Proof.
  intros [Hd Hp Hr He]. unfold dispatch_slot. destruct (Z.ltb_spec 0 (RunMe t)).
  - destruct (Z.eqb_spec (Period t) 0); [apply wf_empty_slot|].
    constructor; simpl; try done; [unfold is_u8 in *; lia|].
    intros Hn. rewrite (He Hn) in *. simpl in *. lia.
  - by constructor.
Qed.

Lemma round_wf (s s' : state) : wf s -> runs (round (quiet logging)) s tt s' -> wf s'.
Proof.
  intros Hwf Hr. destruct (runs_det _ _ _ _ _ _ Hr (round_runs s Hwf)) as [_ ->].
  destruct Hwf as [Hl Hs]. constructor; simpl; [by rewrite length_fmap|].
  apply Forall_fmap. eapply Forall_mono; [exact Hs|].
  intros t Ht. by apply wf_dispatch_slot, wf_tick_slot.
Qed.

Lemma occurrences_app f (l1 l2 : list fn) :
  occurrences f (l1 ++ l2) = occurrences f l1 + occurrences f l2.
Proof. unfold occurrences. rewrite filter_app, length_app. lia. Qed.

(** What one slot contributes to the log in its [n+1]st round. *)
Definition due_in_round (f : fn) (n : nat) t : Z :=
  if decide (due (tick_slot (Nat.iter n round_slot t)) = Some f) then 1 else 0.

Lemma occurrences_omap (f : fn) (h : sTask fn -> option fn) l :
  occurrences f (omap h l) = foldr (fun t acc => acc + if decide (h t = Some f) then 1 else 0) 0 l.
Proof.
  induction l as [|t l IH]; [done|]. cbn [foldr omap list_omap]. rewrite <- IH. unfold occurrences.
  destruct (h t) as [g|]; [|rewrite decide_False by done; lia].
  rewrite filter_cons. do 2 case_decide; simplify_eq; simpl; lia.
Qed.

(** The countdown of a slot that is dispatched in every round. *)
Lemma round_slot_after (f : fn) d p n : is_u32 d -> is_u32 p -> 0 <= n ->
  round_slot (slot_after f d p n) = slot_after f d p (n + 1) /\
  due (tick_slot (slot_after f d p n)) =
    (if runs_after d p (n + 1) =? runs_after d p n then None else Some f) /\
  runs_after d p n <= runs_after d p (n + 1) <= runs_after d p n + 1.
Proof.
  unfold is_u32. intros Hd Hp Hn.
  pose proof (tick_arith d p n ltac:(lia) ltac:(lia) Hn) as Ht.
  pose proof (delay_after_range d p n ltac:(lia) ltac:(lia) Hn) as Hrange.
  unfold round_slot, slot_after, runs_after, tick_slot, dispatch_slot, due, activations in *.
  destruct (Z.eqb_spec p 0) as [->|Hp0]; rewrite ?orb_true_r, ?orb_false_r; simpl in *.
  - rewrite !delay_after_one_shot in *.
    destruct (Z.leb_spec n d); destruct (Z.leb_spec (n + 1) d); simpl in *; try lia.
    + destruct (Z.eqb_spec (Z.max 0 (d - n)) 0); [lia|]. simpl.
      replace (Z.max 0 (d - n) - 1) with (Z.max 0 (d - (n + 1))) by lia. split_and!; (done || lia).
    + destruct (Z.eqb_spec (Z.max 0 (d - n)) 0); [|lia]. split_and!; (done || lia).
    + split_and!; (done || lia).
  - destruct Ht as [(E&->&EA)|(E&->&EA)].
    + rewrite E, EA. simpl. destruct (Z.eqb_spec p 0); [done|].
      match goal with |- context [Z.eqb (?R + 1) _] => destruct (Z.eqb_spec (R + 1) R) end; [lia|].
      split_and!; (done || lia).
    + rewrite EA. destruct (Z.eqb_spec (delay_after d p n) 0); [lia|]. simpl.
      rewrite Z.eqb_refl. split_and!; (done || lia).
Qed.

Lemma slot_after_0 (f : fn) d p : 0 <= d -> slot_after f d p 0 = mk_sTask (Some f) d p 0.
Proof.
  intros Hd. unfold slot_after, delay_after. destruct (Z.leb_spec 0 d); [|lia].
  simpl. f_equal. lia.
Qed.

Lemma slot_after_rounds (f : fn) d p (n : nat) : is_u32 d -> is_u32 p ->
  Nat.iter n round_slot (mk_sTask (Some f) d p 0) = slot_after f d p (Z.of_nat n).
Proof.
  intros Hd Hp. induction n as [|n IH]; simpl.
  - symmetry. apply slot_after_0. unfold is_u32 in *. lia.
  - rewrite IH. destruct (round_slot_after f d p (Z.of_nat n) Hd Hp ltac:(lia)) as [-> _].
    f_equal. lia.
Qed.

(** The log grows by exactly the difference of the specified counts. *)
Lemma due_in_round_runs (f : fn) t (n : nat) : wf_slot t -> RunMe t = 0 ->
  (if decide (pTask t = Some f) then runs_after (Delay t) (Period t) (Z.of_nat n) else 0)
    + due_in_round f n t =
  (if decide (pTask t = Some f) then runs_after (Delay t) (Period t) (Z.of_nat (S n)) else 0).
Proof.
  intros [Hd Hp Hr He] Hr0. destruct t as [[g|] d p r]; simpl in *; subst r.
  - unfold due_in_round. rewrite slot_after_rounds by done.
    destruct (round_slot_after g d p (Z.of_nat n) Hd Hp ltac:(lia)) as (_&->&Hle).
    replace (Z.of_nat (S n)) with (Z.of_nat n + 1) by lia.
    destruct (Z.eqb_spec (runs_after d p (Z.of_nat n + 1)) (runs_after d p (Z.of_nat n)));
      repeat case_decide; simplify_eq; lia.
  - injection (He eq_refl) as -> ->. unfold due_in_round.
    assert (E : Nat.iter n round_slot (@empty_slot fn) = empty_slot)
      by (induction n as [|n IH]; simpl; [done|by rewrite IH]).
    change (mk_sTask None 0 0 0) with (@empty_slot fn). rewrite E. repeat case_decide; done.
Qed.

Lemma expected_runs_succ (f : fn) n l : Forall wf_slot l -> Forall (fun t => RunMe t = 0) l ->
  expected_runs f (S n) l =
    expected_runs f n l + foldr (fun t acc => acc + due_in_round f n t) 0 l.
Proof.
  unfold expected_runs. induction 1 as [|t l Ht Hl IH]; intros Hr; [done|].
  apply Forall_cons_1 in Hr as [Hr0 Hr]. cbn [foldr]. rewrite (IH Hr).
  pose proof (due_in_round_runs f t n Ht Hr0). lia.
Qed.

Lemma expected_runs_0 (f : fn) l : Forall wf_slot l -> expected_runs f 0 l = 0.
Proof.
  unfold expected_runs. induction 1 as [|t l [Hd _ _ _] Hl IH]; [done|]. cbn [foldr]. rewrite IH.
  unfold runs_after, is_u32 in *. destruct (Z.leb_spec (Z.of_nat 0) (Delay t)); [|lia].
  case_decide; lia.
Qed.

Lemma rounds_runs (s : state) n : wf s -> outside s = [] ->
  Forall (fun t => RunMe t = 0) (SCH_tasks_G s) ->
  exists s', runs (rounds (quiet logging) n) s tt s' /\ wf s' /\
    SCH_tasks_G s' = Nat.iter n round_slot <$> SCH_tasks_G s /\
    forall f, occurrences f (outside s') = expected_runs f n (SCH_tasks_G s).
Proof.
  intros Hwf Hout Hr. induction n as [|n (s1 & Hruns & Hwf1 & Ht & Hocc)].
  - exists s. unfold rounds. split_and!; [apply runs_ret|exact Hwf|symmetry; apply list_fmap_id|].
    intros f. rewrite Hout. symmetry. by apply expected_runs_0, (wf_slots Hwf).
  - pose proof (round_runs s1 Hwf1) as Hround.
    eexists. split; [|split; [by eapply round_wf|split]].
    + unfold rounds in *. rewrite seq_S. eapply for_each_snoc; [exact Hruns|exact Hround].
    + simpl. rewrite Ht, <- list_fmap_compose. by apply list_fmap_ext.
    + intros f. simpl. rewrite occurrences_app, Hocc, expected_runs_succ by (done || apply (wf_slots Hwf)).
      f_equal. rewrite Ht, !omap_of_fmap. apply occurrences_omap.
Qed.
End rounds.

Lemma interrupts_slot {fn env} (s : sched fn env) n (i : nat) f d p r :
  wf s -> SCH_tasks_G s !! i = Some (mk_sTask (Some f) d p r) ->
  exists s', runs (interrupts n) s tt s' /\ wf s' /\
    SCH_tasks_G s' !! i =
      Some (mk_sTask (Some f) (delay_after d p (Z.of_nat n)) p
              (u8 (r + activations d p (Z.of_nat n)))).
Proof.
  intros Hwf Hi. pose proof (rep_update_runs (seq 0 n) s Hwf) as Hrun.
  rewrite length_seq in Hrun. eexists. split; [exact Hrun|split].
  - clear Hi. induction n as [|n IH]; simpl.
    + rewrite list_fmap_id, with_tasks_same. exact Hwf.
    + pose proof (rep_update_runs (seq 0 n) s Hwf) as Hrun'. rewrite length_seq in Hrun'.
      pose proof (update_wf _ _ (IH Hrun') (update_runs _ (IH Hrun'))) as H.
      simpl in H. rewrite <- list_fmap_compose in H. exact H.
  - simpl. rewrite list_lookup_fmap, Hi. simpl. f_equal.
    destruct (wf_slot_lookup _ _ _ Hwf Hi) as [Hd Hp Hr _]. unfold is_u32 in *. simpl in *.
    apply iter_tick; (done || lia).
Qed.

Lemma activations_step d p n : 0 <= d -> 0 < p -> 0 <= n ->
  (activations d p (n + 1) = activations d p n + 1 <-> exists k, 0 <= k /\ n + 1 = d + 1 + k * (p + 1)) /\
  activations d p n <= activations d p (n + 1) <= activations d p n + 1.
Proof.
  intros Hd Hp Hn. unfold activations. destruct (Z.eqb_spec p 0); [lia|].
  replace (n + 1 - d - 1) with (n - d - 1 + 1) by lia.
  destruct (Z.leb_spec n d); destruct (Z.leb_spec (n + 1) d); try lia.
  - split; [|lia]. split; [lia|]. intros (k & Hk & E). nia.
  - replace (n - d - 1 + 1) with 0 by lia. rewrite Z.div_0_l by lia. split; [|lia].
    split; [|lia]. intros _. exists 0. lia.
  - destruct (div_mod_succ (n - d - 1) (p + 1)) as [(H1&H2&H3)|(H1&H2&H3)]; [lia..| |].
    + split; [|lia]. split; [|lia]. intros _. exists ((n - d - 1) / (p + 1) + 1).
      pose proof (Z.div_mod (n - d - 1) (p + 1) ltac:(lia)).
      pose proof (Z.div_pos (n - d - 1) (p + 1) ltac:(lia) ltac:(lia)). lia.
    + split; [|lia]. split; [lia|]. intros (k & Hk & E). exfalso.
      assert (Hz : (n - d - 1 + 1) mod (p + 1) = 0)
        by (replace (n - d - 1 + 1) with (k * (p + 1)) by lia; apply Z.mod_mul; lia).
      lia.
Qed.

(** ** Properties *)

(** After [n] timer interrupts with no dispatch in between, a task added
    with delay [d] and period [p] has collected [activations d p n] activations,
    kept in the 8 bits of [RunMe], and its [Delay] is [delay_after d p n]. *)
Theorem SCH_activations_after {fn env} (s : sched fn env) (n i : nat) f d p r :
  wf s -> SCH_tasks_G s !! i = Some (mk_sTask (Some f) d p r) ->
  exists s', interrupts n s = (Ret tt, s') /\
    SCH_tasks_G s' !! i =
      Some (mk_sTask (Some f) (delay_after d p (Z.of_nat n)) p
              (u8 (r + activations d p (Z.of_nat n)))).
Proof. intros Hwf Hi. destruct (interrupts_slot s n i f d p r Hwf Hi) as (s'&?&?&?). by exists s'. Qed.

Lemma SCH_activations_after_witness :
  exists s', interrupts 20 (demo_state 1) = (Ret tt, s') /\
    SCH_tasks_G s' !! 3%nat = Some (mk_sTask (Some 3%nat) 0 0 13).
Proof. exact (SCH_activations_after (demo_state 1) 20 3 3%nat 7 0 0 (demo_wf 1) eq_refl). Defined.

(** A dispatcher that keeps up (one dispatch per interrupt) runs a task
    added with delay [d] and period [p] exactly [runs_after d p n] times in [n]
    rounds, and a one-shot task exactly once; the log holds nothing else. *)
Theorem SCH_prompt_dispatch_runs {fn} `{EqDecision fn} (s : sched fn (list fn)) n :
  wf s -> outside s = [] -> Forall (fun t => RunMe t = 0) (SCH_tasks_G s) ->
  exists s', rounds (quiet logging) n s = (Ret tt, s') /\
    forall f, occurrences f (outside s') = expected_runs f n (SCH_tasks_G s).
Proof. intros H1 H2 H3. destruct (rounds_runs s n H1 H2 H3) as (s'&?&_&_&?). by exists s'. Qed.

Lemma SCH_prompt_dispatch_runs_witness :
  exists s', rounds (quiet logging) 30 demo_full = (Ret tt, s') /\
    forall f, occurrences f (outside s') = expected_runs f 30 (SCH_tasks_G demo_full).
Proof.
  apply (SCH_prompt_dispatch_runs demo_full 30); [solve_wf|reflexivity|by repeat constructor].
Defined.

(** The interval between two activations of a periodic task is [Period + 1]
    ticks, not [Period]: tick number [m] raises [RunMe] exactly when [m] is
    [Delay + 1 + k * (Period + 1)] for some [k]. *)
Theorem SCH_interval_is_period_plus_one {fn env} (s : sched fn env) (n i : nat) f d p :
  wf s -> SCH_tasks_G s !! i = Some (mk_sTask (Some f) d p 0) -> 0 < p ->
  exists s1 s2 t1 t2, interrupts n s = (Ret tt, s1) /\ SCH_Update s1 = (Ret tt, s2) /\
    SCH_tasks_G s1 !! i = Some t1 /\ SCH_tasks_G s2 !! i = Some t2 /\
    (RunMe t2 = u8 (RunMe t1 + 1) <->
       exists k, 0 <= k /\ Z.of_nat (S n) = d + 1 + k * (p + 1)) /\
    (RunMe t2 = RunMe t1 \/ RunMe t2 = u8 (RunMe t1 + 1)).
Proof.
  intros Hwf Hi Hp. destruct (interrupts_slot s n i f d p 0 Hwf Hi) as (s1 & Hr1 & Hwf1 & Ht1).
  destruct (wf_slot_lookup _ _ _ Hwf Hi) as [Hd _ _ _]. unfold is_u32 in Hd. simpl in Hd.
  destruct (activations_step d p (Z.of_nat n)) as [Hiff Hle]; [lia..|].
  pose proof (tick_arith d p (Z.of_nat n) ltac:(lia) ltac:(lia) ltac:(lia)) as Htick.
  eexists s1, _, _, _. split; [exact Hr1|]. split; [by apply update_runs|].
  split; [exact Ht1|]. split; [simpl; by rewrite list_lookup_fmap, Ht1|].
  replace (Z.of_nat (S n)) with (Z.of_nat n + 1) by lia. rewrite <- Hiff.
  unfold tick_slot. cbn [pTask Delay Period RunMe].
  destruct Htick as [(E & _ & EA)|(E & _ & EA)].
  - rewrite E, EA. simpl. tauto.
  - destruct (Z.eqb_spec (delay_after d p (Z.of_nat n)) 0); [lia|]. cbn [RunMe]. rewrite EA.
    split; [|by left]. unfold u8.
    pose proof (Z.mod_pos_bound (0 + activations d p (Z.of_nat n)) (2 ^ 8) ltac:(lia)).
    split; [|lia]. intros Hbad. exfalso. revert Hbad.
    destruct (decide ((0 + activations d p (Z.of_nat n)) mod 2 ^ 8 = 255)) as [->|Hne].
    + vm_compute. discriminate.
    + rewrite (Z.mod_small (_ + 1)) by lia. lia.
Qed.

Lemma SCH_interval_is_period_plus_one_witness :
  exists s1 s2 t1 t2, interrupts 5 demo_full = (Ret tt, s1) /\ SCH_Update s1 = (Ret tt, s2) /\
    SCH_tasks_G s1 !! 0%nat = Some t1 /\ SCH_tasks_G s2 !! 0%nat = Some t2 /\
    (RunMe t2 = u8 (RunMe t1 + 1) <-> exists k, 0 <= k /\ Z.of_nat 6 = 0 + 1 + k * (5 + 1)) /\
    (RunMe t2 = RunMe t1 \/ RunMe t2 = u8 (RunMe t1 + 1)).
Proof.
  apply (SCH_interval_is_period_plus_one demo_full 5 0 1%nat 0 5); [solve_wf|reflexivity|reflexivity].
Defined.

(** The activations of a one-shot task are counted in 8 bits while nothing
    dispatches it: after 256 interrupts with no dispatch its [RunMe] is back to
    zero, and the next dispatch passes over the task although it is due. *)
Theorem SCH_one_shot_lost {fn env} (call : fn -> C (sched fn env) unit) (s : sched fn env)
    (i : nat) f :
  wf s -> SCH_tasks_G s !! i = Some (mk_sTask (Some f) 0 0 0) ->
  exists s', interrupts 256 s = (Ret tt, s') /\
    SCH_tasks_G s' !! i = Some (mk_sTask (Some f) 0 0 0) /\
    SCH_Dispatch_slot call (Z.of_nat i) s' = (Ret tt, s').
Proof.
  intros Hwf Hi. destruct (interrupts_slot s 256 i f 0 0 0 Hwf Hi) as (s' & Hr & _ & Ht).
  exists s'. split_and!; [exact Hr|exact Ht|].
  unfold SCH_Dispatch_slot. by rewrite (bind_runs _ _ _ _ _ (load_runs i _ s' Ht)).
Qed.

Lemma SCH_one_shot_lost_witness :
  exists s', interrupts 256 (put 1 (mk_sTask (Some 2%nat) 0 0 0) (demo_state 1)) = (Ret tt, s') /\
    SCH_tasks_G s' !! 1%nat = Some (mk_sTask (Some 2%nat) 0 0 0) /\
    SCH_Dispatch_slot (quiet demo_log) 1 s' = (Ret tt, s').
Proof.
  apply (SCH_one_shot_lost (quiet demo_log) (put 1 (mk_sTask (Some 2%nat) 0 0 0) (demo_state 1)) 1 2%nat);
    [solve_wf|reflexivity].
Defined.
