(* ===== verification/TTInterrupt.v ===== *)
(** * The timer interrupt in the middle of the dispatcher

    [SCH_Update] is an interrupt handler: it can run between any two accesses of
    [SCH_Dispatch_Tasks] to the task table. Here the dispatcher of [sch51.c] is
    cut at its accesses to the table, and a run is any sequence of dispatcher
    steps and interrupts. [RunMe -= 1] is one step where the compiler makes it one
    instruction, and otherwise a load and a store. The tasks do not call the
    scheduler. [SCH_Delete_Task] is one step: from its first store on the handler
    skips the slot, and before that it has not changed it. *)

From S2P Require Import Prelude TTScheduler.
Local Open Scope Z_scope.
Local Open Scope c_scope.

(** ** Where the dispatcher is, and what has happened, per slot *)
Inductive dispatcher :=
  | AtTest (i : nat)
  | AtCall (i : nat)
  | AtDecrement (i : nat)
  | AtLoad (i : nat)
  | AtStore (i : nat) (v : Z)
  | AtPeriod (i : nat)
  | AtDelete (i : nat)
  | Crashed.

Inductive event := Activated (i : nat) | Called (i : nat) | Decremented (i : nat) | Deleted (i : nat).

#[global] Instance dispatcher_eq_dec : EqDecision dispatcher.
Proof. solve_decision. Defined.
#[global] Instance event_eq_dec : EqDecision event.
Proof. solve_decision. Defined.

Record machine (fn : Type) := mk_machine {
  table : sched fn unit;
  position : dispatcher;
  trace : list event
}.
Arguments mk_machine {fn}.
Arguments table {fn}.
Arguments position {fn}.
Arguments trace {fn}.

(** The slots an interrupt activates. *)
Definition is_due {fn} (t : sTask fn) : bool := bool_decide (is_Some (pTask t)) && (Delay t =? 0).
Definition activated {fn} (ts : list (sTask fn)) : list event :=
  concat (imap (fun i t => if is_due t then [Activated i] else []) ts).

Definition interrupt {fn} (m : machine fn) : machine fn :=
  mk_machine (SCH_Update (table m)).2 (position m) (trace m ++ activated (SCH_tasks_G (table m))).

(** One step of the dispatcher, called again and again by the main loop. A call
    through the null pointer or an access outside the table is [Crashed]. *)
Definition dispatcher_step {fn} (one_instruction : bool) (m : machine fn) : machine fn :=
  let s := table m in
  let goto p := mk_machine s p (trace m) in
  let crash := mk_machine s Crashed (trace m) in
  let with_slot i (k : sTask fn -> machine fn) :=
    match load (Z.of_nat i) s with (Ret t, _) => k t | _ => crash end in
  match position m with
  | AtTest i =>
      if Z.of_nat i <? SCH_MAX_TASKS then
        with_slot i (fun t => goto (if 0 <? RunMe t then AtCall i else AtTest (S i)))
      else goto (AtTest 0)
  | AtCall i =>
      with_slot i (fun t =>
        match pTask t with
        | Some _ => mk_machine s (if one_instruction then AtDecrement i else AtLoad i) (trace m ++ [Called i])
        | None => crash
        end)
  | AtDecrement i =>
      with_slot i (fun t =>
        mk_machine (store (Z.of_nat i) (set_RunMe (u8 (RunMe t - 1))) s).2 (AtPeriod i)
          (trace m ++ [Decremented i]))
  | AtLoad i => with_slot i (fun t => goto (AtStore i (RunMe t)))
  | AtStore i v =>
      mk_machine (store (Z.of_nat i) (set_RunMe (u8 (v - 1))) s).2 (AtPeriod i) (trace m ++ [Decremented i])
  | AtPeriod i => with_slot i (fun t => goto (if Period t =? 0 then AtDelete i else AtTest (S i)))
  | AtDelete i => mk_machine (SCH_Delete_Task (Z.of_nat i) s).2 (AtTest (S i)) (trace m ++ [Deleted i])
  | Crashed => m
  end.

(** A run: [true] is an interrupt, [false] a step of the dispatcher. *)
Definition run {fn} (one_instruction : bool) (l : list bool) (m : machine fn) : machine fn :=
  foldl (fun m b => if (b : bool) then interrupt m else dispatcher_step one_instruction m) m l.

Definition ready {fn} (s : sched fn unit) : machine fn := mk_machine s (AtTest 0) [].

(** ** Specification *)

Definition count (e : event) (l : list event) : Z := Z.of_nat (length (filter (fun x => x = e) l)).

(** The slot the dispatcher is working on. *)
Definition working_on (p : dispatcher) : option nat :=
  match p with
  | AtCall i | AtDecrement i | AtLoad i | AtStore i _ | AtPeriod i | AtDelete i => Some i
  | AtTest _ | Crashed => None
  end.
Definition pending_decrement (p : dispatcher) (i : nat) : Z :=
  match p with AtDecrement j | AtLoad j | AtStore j _ => if decide (i = j) then 1 else 0 | _ => 0 end.

(** What holds all along a run that started from the table [s0], for a slot [i]
    that held the periodic task [t0]. *)
Record slot_inv {fn} (i : nat) (t0 : sTask fn) (m : machine fn) : Prop := mk_slot_inv {
  si_slot : exists t, SCH_tasks_G (table m) !! i = Some t /\ pTask t = pTask t0 /\ Period t = Period t0 /\
    RunMe t = u8 (RunMe t0 + count (Activated i) (trace m) - count (Decremented i) (trace m));
  si_calls : count (Called i) (trace m) =
    count (Decremented i) (trace m) + pending_decrement (position m) i
}.

Record machine_inv {fn} (m : machine fn) : Prop := mk_machine_inv {
  mi_wf : wf (table m);
  mi_alive : position m <> Crashed;
  mi_working : forall i, working_on (position m) = Some i ->
    exists t, SCH_tasks_G (table m) !! i = Some t /\ occupied t;
  mi_delete : forall i t, position m = AtDelete i -> SCH_tasks_G (table m) !! i = Some t -> Period t = 0
}.

(** A table with a task of period 2 in slot 0 and a one-shot task in slot 1. *)
Definition demo_table : sched nat unit :=
  mk_sched [mk_sTask (Some 1%nat) 0 2 0; mk_sTask (Some 2%nat) 1 0 0; empty_slot; empty_slot] 0 tt.

(** ** Lemmas *)

Lemma count_app e l1 l2 : count e (l1 ++ l2) = count e l1 + count e l2.
Proof. unfold count. rewrite filter_app, length_app. lia. Qed.

Lemma count_one e e' : count e [e'] = if decide (e' = e) then 1 else 0.
Proof. unfold count. rewrite filter_cons, filter_nil. by case_decide. Qed.

Lemma count_snoc e l e' : count e (l ++ [e']) = count e l + if decide (e' = e) then 1 else 0.
Proof. by rewrite count_app, count_one. Qed.

Section counting.
Context {fn : Type}.
Implicit Types (ts : list (sTask fn)) (t : sTask fn).

Lemma count_activated_from e ts : forall k,
  count e (concat (imap (fun j t => if is_due t then [Activated (k + j)%nat] else []) ts)) =
    match e with
    | Activated i =>
        match (if decide (k <= i)%nat then ts !! (i - k)%nat else None) with
        | Some t => if is_due t then 1 else 0
        | None => 0
        end
    | _ => 0
    end.
Proof.
  induction ts as [|t ts IH]; intros k.
  - cbn. destruct e as [i| | |]; try done. by destruct (decide (k <= i)%nat).
  - rewrite imap_cons. cbn [concat]. rewrite count_app, Nat.add_0_r.
    replace (imap ((fun j t => if is_due t then [Activated (k + j)%nat] else []) ∘ S) ts)
      with (imap (fun j t => if is_due t then [Activated (S k + j)%nat] else []) ts)
      by (apply imap_ext; intros j x _; cbn; by rewrite Nat.add_succ_r).
    rewrite IH. assert (H : count e (if is_due t then [Activated k] else []) =
      match e with Activated i => if decide (i = k) then if is_due t then 1 else 0 else 0 | _ => 0 end).
    { destruct (is_due t); [rewrite count_one|change (count e []) with 0]; destruct e as [i| | |];
        repeat case_decide; congruence. }
    rewrite H. destruct e as [i| | |]; [|done..]. destruct (lt_eq_lt_dec i k) as [[Hlt|Heq]|Hgt].
    + by rewrite !decide_False by lia.
    + subst i. rewrite (decide_False (P := (S k <= k)%nat)), !decide_True, Nat.sub_diag by lia.
      cbn. by destruct (is_due t).
    + rewrite (decide_False (P := (i = k))), !decide_True by lia.
      by replace (i - k)%nat with (S (i - S k)) by lia.
Qed.

Lemma count_activated e ts :
  count e (activated ts) =
    match e with
    | Activated i => match ts !! i with Some t => if is_due t then 1 else 0 | None => 0 end
    | _ => 0
    end.
Proof.
  unfold activated. pose proof (count_activated_from e ts 0) as H. cbn in H. rewrite H.
  destruct e as [i| | |]; try done. by rewrite Nat.sub_0_r.
Qed.

Lemma tick_slot_fields t :
  pTask (tick_slot t) = pTask t /\ Period (tick_slot t) = Period t /\
  RunMe (tick_slot t) = if is_due t then u8 (RunMe t + 1) else RunMe t.
Proof. unfold tick_slot, is_due. destruct t as [[f|] d p r]; cbn; [|done]. by destruct (d =? 0). Qed.
End counting.

Lemma u8_add_1 a : u8 (u8 a + 1) = u8 (a + 1).
Proof. unfold u8. by rewrite Zplus_mod_idemp_l. Qed.
Lemma u8_sub_1 a : u8 (u8 a - 1) = u8 (a - 1).
Proof. unfold u8. by rewrite Zminus_mod_idemp_l. Qed.

Section machines.
Context {fn : Type}.
Implicit Types (m : machine fn) (t : sTask fn) (s : sched fn unit).

Lemma update_table s : wf s -> (SCH_Update s).2 = with_tasks (tick_slot <$> SCH_tasks_G s) s.
Proof. intros Hwf. pose proof (update_runs s Hwf) as H. unfold runs in H. by rewrite H. Qed.

Lemma store_table s i f t : SCH_tasks_G s !! i = Some t -> (store (Z.of_nat i) f s).2 = put i (f t) s.
Proof. intros Ht. pose proof (store_runs i f t s Ht) as H. unfold runs in H. by rewrite H. Qed.

Lemma delete_table s i t : SCH_tasks_G s !! i = Some t -> occupied t ->
  (SCH_Delete_Task (Z.of_nat i) s).2 = put i empty_slot s.
Proof.
  intros Ht [f Hf]. pose proof (delete_runs s i t Ht) as H. unfold runs in H. by rewrite H, Hf.
Qed.

Lemma occupied_tick t : occupied t -> occupied (tick_slot t).
Proof. unfold occupied. by destruct (tick_slot_fields t) as (-> & _ & _). Qed.

(** *** The interrupt *)
Lemma interrupt_lookup m i : wf (table m) ->
  SCH_tasks_G (table (interrupt m)) !! i = tick_slot <$> (SCH_tasks_G (table m) !! i).
Proof. intros Hwf. cbn. by rewrite update_table, <- list_lookup_fmap. Qed.

Lemma interrupt_inv m : machine_inv m -> machine_inv (interrupt m).
Proof.
  intros [Hwf Ha Hw Hd]. pose proof (fun i => interrupt_lookup m i Hwf) as Hl.
  constructor; [|done|..].
  - eapply update_wf; [exact Hwf|]. cbn. rewrite update_table by done. by apply update_runs.
  - intros i Hi. destruct (Hw i Hi) as (t & Ht & Ho). exists (tick_slot t).
    rewrite Hl, Ht. split; [done|by apply occupied_tick].
  - intros i t Hi. rewrite Hl. intros (t' & Ht' & ->)%fmap_Some.
    destruct (tick_slot_fields t') as (_ & -> & _). by apply (Hd i).
Qed.

Lemma interrupt_slot_inv i t0 m : machine_inv m -> slot_inv i t0 m -> slot_inv i t0 (interrupt m).
Proof.
  intros [Hwf _ _ _] [(t & Ht & Hp & HP & Hr) Hc]. destruct (tick_slot_fields t) as (Ef & Ep & Er).
  constructor; cbn [position trace interrupt].
  - exists (tick_slot t). rewrite interrupt_lookup, Ht by done.
    rewrite Ef, Ep, Er, !count_app, !count_activated, Ht. split_and!; [done..|].
    destruct (is_due t); [rewrite Hr, u8_add_1|rewrite Hr]; f_equal; lia.
  - rewrite !count_app, !count_activated. lia.
Qed.

(** *** A step of the dispatcher *)

(** Rewriting one slot with a slot that is still occupied and well formed. *)
Lemma put_lookup s i t0 t j : SCH_tasks_G s !! i = Some t0 ->
  SCH_tasks_G (put i t s) !! j = if decide (j = i) then Some t else SCH_tasks_G s !! j.
Proof.
  intros H%lookup_lt_Some. cbn. case_decide; [subst; by apply list_lookup_insert_eq|].
  by apply list_lookup_insert_ne.
Qed.

Lemma wf_set_RunMe t r : wf_slot t -> occupied t -> wf_slot (set_RunMe (u8 r) t).
Proof.
  intros [Hd Hp Hr He] [f Hf]. constructor; cbn; auto using u8_range. congruence.
Qed.

Lemma decrement_inv m i t r : machine_inv m -> SCH_tasks_G (table m) !! i = Some t -> occupied t ->
  machine_inv (mk_machine (store (Z.of_nat i) (set_RunMe (u8 r)) (table m)).2 (AtPeriod i)
                 (trace m ++ [Decremented i])).
Proof.
  intros [Hwf _ _ _] Ht Ho. rewrite (store_table _ _ _ t Ht). constructor; cbn [table position]; [|done| |done].
  - apply wf_put; [done|]. apply wf_set_RunMe; [|done]. by apply (wf_slot_lookup (table m) i).
  - intros j [= <-]. exists (set_RunMe (u8 r) t). rewrite (put_lookup _ _ t), decide_True by done. done.
Qed.

Lemma dispatcher_step_inv b m : machine_inv m -> machine_inv (dispatcher_step b m).
Proof.
  intros Hinv. pose proof Hinv as [Hwf Ha Hw Hd]. unfold dispatcher_step.
  assert (Hload : forall i t, SCH_tasks_G (table m) !! i = Some t ->
    load (Z.of_nat i) (table m) = (Ret t, table m)) by (intros; by apply load_runs).
  destruct (position m) as [i|i|i|i|i v|i|i|] eqn:Hpos; [|specialize (Hw i eq_refl) as (t & Ht & Ho)..|done];
    try rewrite (Hload i t Ht).
  - destruct (Z.ltb_spec (Z.of_nat i) SCH_MAX_TASKS); [|by constructor].
    destruct (wf_in_range (table m) (Z.of_nat i) Hwf ltac:(lia)) as (k & t & ->%Nat2Z.inj & Ht).
    rewrite (Hload k t Ht). constructor; cbn [table position]; try done.
    + by destruct (0 <? RunMe t).
    + intros j. destruct (Z.ltb_spec 0 (RunMe t)); [|done]. intros [= <-]. exists t. split; [done|].
      destruct (pTask t) eqn:E; [by eexists|]. pose proof (wf_slot_lookup _ _ _ Hwf Ht) as [_ _ _ He].
      rewrite (He E) in H0. cbn in H0. lia.
    + by destruct (0 <? RunMe t).
  - destruct Ho as [f Hf]. rewrite Hf. constructor; cbn [table position]; try done.
    + by destruct b.
    + intros j Hj. exists t. assert (j = i) as -> by (destruct b; by injection Hj as ->).
      split; [done|by exists f].
    + by destruct b.
  - by apply (decrement_inv m i t).
  - constructor; cbn [table position]; try done. intros j [= <-]. by exists t.
  - by apply (decrement_inv m i t).
  - destruct (Z.eqb_spec (Period t) 0); constructor; cbn [table position]; try done.
    + intros j [= <-]. by exists t.
    + intros j t' [= <-] Ht'. by simplify_eq.
  - rewrite (delete_table _ _ t) by done. constructor; cbn [table position]; try done.
    apply wf_put; [done|apply wf_empty_slot].
Qed.

Definition atomic_position (p : dispatcher) : Prop :=
  match p with AtLoad _ | AtStore _ _ => False | _ => True end.

Lemma step_atomic m : atomic_position (position m) -> atomic_position (position (dispatcher_step true m)).
Proof.
  unfold dispatcher_step. intros Hp. destruct (position m) eqn:E; try done.
  all: repeat match goal with |- context [match ?x with _ => _ end] => destruct x end; try done.
  all: by rewrite E.
Qed.

(** Nothing happens to slot [i] or its counts. *)
Lemma slot_inv_same i t0 m s p l : slot_inv i t0 m -> SCH_tasks_G s !! i = SCH_tasks_G (table m) !! i ->
  (forall e, e ∈ [Activated i; Called i; Decremented i] -> count e l = 0) ->
  pending_decrement p i = pending_decrement (position m) i ->
  slot_inv i t0 (mk_machine s p (trace m ++ l)).
Proof.
  intros [(t & Ht & H1 & H2 & H3) Hc] Hs Hl Hp. constructor; cbn [table position trace].
  - exists t. rewrite Hs. split_and!; [done..|]. rewrite !count_app, !Hl by set_solver. rewrite H3. f_equal. lia.
  - rewrite !count_app, !Hl, Hp by set_solver. lia.
Qed.

Lemma goto_slot_inv i t0 m p : slot_inv i t0 m ->
  pending_decrement p i = pending_decrement (position m) i ->
  slot_inv i t0 (mk_machine (table m) p (trace m)).
Proof.
  intros H Hp. rewrite <- (app_nil_r (trace m)). by apply slot_inv_same.
Qed.

Lemma dispatcher_step_slot_inv i t0 m : machine_inv m -> atomic_position (position m) -> Period t0 <> 0 ->
  slot_inv i t0 m -> slot_inv i t0 (dispatcher_step true m).
Proof.
  intros [Hwf Ha Hw Hd] Hat HP Hs. unfold dispatcher_step.
  assert (Hload : forall i t, SCH_tasks_G (table m) !! i = Some t ->
    load (Z.of_nat i) (table m) = (Ret t, table m)) by (intros; by apply load_runs).
  destruct (position m) as [j|j|j|j|j v|j|j|] eqn:Hpos; try done;
    [|specialize (Hw j eq_refl) as (t & Ht & Ho)..]; try rewrite (Hload j t Ht).
  - destruct (Z.ltb_spec (Z.of_nat j) SCH_MAX_TASKS); [|apply goto_slot_inv; [done|by rewrite Hpos]].
    destruct (wf_in_range (table m) (Z.of_nat j) Hwf ltac:(lia)) as (k & t & ->%Nat2Z.inj & Ht).
    rewrite (Hload k t Ht). apply goto_slot_inv; [done|]. rewrite Hpos. by destruct (0 <? RunMe t).
  - destruct Ho as [f Hf]. rewrite Hf. destruct Hs as [Ht' Hc]. rewrite Hpos in Hc. cbn in Hc.
    constructor; cbn [table position trace].
    + destruct Ht' as (t' & ?). exists t'. by rewrite !count_snoc, !decide_False, !Z.add_0_r by done.
    + rewrite !count_snoc, (decide_False (P := Called j = Decremented i)) by done. cbn.
      destruct (decide (i = j)) as [->|]; [rewrite decide_True by done; lia|].
      rewrite decide_False by congruence. lia.
  - rewrite (store_table _ _ _ t Ht). destruct Hs as [(t' & Ht' & H1 & H2 & H3) Hc]. rewrite Hpos in Hc.
    cbn in Hc. constructor; cbn [table position trace].
    + rewrite (put_lookup _ _ t) by done. destruct (decide (i = j)) as [->|Hne].
      * simplify_eq. eexists. split; [done|]. cbn. split_and!; [done..|].
        rewrite H3, u8_sub_1, !count_snoc, decide_False, decide_True by done. f_equal. lia.
      * exists t'. rewrite !count_snoc, !decide_False, !Z.add_0_r by congruence. done.
    + rewrite !count_snoc, (decide_False (P := Decremented j = Called i)) by done. cbn.
      destruct (decide (i = j)) as [->|]; [rewrite decide_True by done; lia|].
      rewrite decide_False by congruence. lia.
  - apply goto_slot_inv; [done|]. rewrite Hpos. by destruct (Period t =? 0).
  - rewrite (delete_table _ _ t) by done. assert (Hne : i <> j).
    { intros ->. destruct Hs as [(t' & Ht' & _ & H2 & _) _]. rewrite Ht in Ht'. injection Ht' as <-.
      apply HP. rewrite <- H2. by apply (Hd j t). }
    apply slot_inv_same; [done| | |by rewrite Hpos].
    + by rewrite (put_lookup _ _ t), decide_False.
    + intros e He. rewrite count_one, decide_False; [done|]. intros <-.
      by repeat (apply elem_of_cons in He as [He|He]; [done|]); apply elem_of_nil in He.
Qed.

Lemma run_inv b l : forall m, machine_inv m -> machine_inv (run b l m).
Proof.
  induction l as [|x l IH]; intros m Hm; [done|]. apply IH.
  destruct x; [by apply interrupt_inv|by apply dispatcher_step_inv].
Qed.

Lemma run_slot_inv i t0 l : forall m, machine_inv m -> atomic_position (position m) -> Period t0 <> 0 ->
  slot_inv i t0 m -> slot_inv i t0 (run true l m).
Proof.
  induction l as [|x l IH]; intros m Hm Ha HP Hs; [done|]. destruct x; apply IH; try done.
  - by apply interrupt_inv.
  - by apply interrupt_slot_inv.
  - by apply dispatcher_step_inv.
  - by apply step_atomic.
  - by apply dispatcher_step_slot_inv.
Qed.

Lemma ready_inv s : wf s -> machine_inv (ready s).
Proof. by constructor. Qed.

Lemma ready_slot_inv s i t : wf s -> SCH_tasks_G s !! i = Some t -> slot_inv i t (ready s).
Proof.
  intros Hwf Ht. constructor; [|done]. exists t. split_and!; [done..|]. cbn.
  rewrite Z.add_0_r, Z.sub_0_r, u8_small; [done|]. apply (wf_slot_lookup s i t Hwf Ht).
Qed.

(** The steps between which a torn decrement can be interrupted. *)
Lemma torn_step m i t : machine_inv m -> position m = AtLoad i -> SCH_tasks_G (table m) !! i = Some t ->
  run false [false; true; false] m =
    mk_machine (put i (set_RunMe (u8 (RunMe t - 1)) (tick_slot t)) (table (interrupt m))) (AtPeriod i)
      (trace m ++ activated (SCH_tasks_G (table m)) ++ [Decremented i]).
Proof.
  intros Hinv Hp Ht. cbn [run foldl].
  assert (E1 : dispatcher_step false m = mk_machine (table m) (AtStore i (RunMe t)) (trace m)).
  { unfold dispatcher_step. rewrite Hp. pose proof (load_runs i t (table m) Ht) as Hl.
    unfold runs in Hl. by rewrite Hl. }
  rewrite E1. unfold interrupt at 1. cbn [table position trace].
  unfold dispatcher_step. cbn [position table trace].
  rewrite (store_table _ i _ (tick_slot t)), <- app_assoc; [done|].
  pose proof (interrupt_lookup m i (mi_wf _ Hinv)) as H. cbn [interrupt table] in H. by rewrite H, Ht.
Qed.
End machines.

Lemma demo_table_wf : wf demo_table.
Proof. constructor; [done|]. by repeat (constructor; [by constructor|]). Qed.

(** ** Properties *)



(** Where the decrement is a load and a store, an interrupt between the two
    that activates the task of that slot is lost: the activation is made, the
    decrement is made, and [RunMe] is one less than before. *)
Theorem torn_decrement_loses {fn : Type} (s : sched fn unit) (l : list bool) (i : nat) (t : sTask fn) :
  let m := run false l (ready s) in
  wf s -> position m = AtLoad i -> SCH_tasks_G (table m) !! i = Some t -> is_due t = true ->
  let m' := run false [false; true; false] m in
  count (Activated i) (trace m') = count (Activated i) (trace m) + 1 /\
  count (Decremented i) (trace m') = count (Decremented i) (trace m) + 1 /\
  exists t', SCH_tasks_G (table m') !! i = Some t' /\ RunMe t' = u8 (RunMe t - 1).
Proof.
  intros m Hwf Hp Ht Hdue m'. pose proof (run_inv false l (ready s) (ready_inv s Hwf)) as Hinv.
  fold m in Hinv. unfold m'. rewrite (torn_step m i t Hinv Hp Ht). cbn [trace table].
  rewrite !count_app, !count_activated, !count_one, Ht, Hdue, decide_False, decide_True by done.
  split_and!; [lia..|]. eexists. erewrite put_lookup, decide_True; [done|done|].
  rewrite interrupt_lookup, Ht by apply Hinv. done.
Qed.

Lemma torn_decrement_loses_witness :
  let s := mk_sched [mk_sTask (Some 1%nat) 0 2 1; empty_slot; empty_slot; empty_slot] 0 tt in
  let m' := run false [false; true; false] (run false [false; false] (ready s)) in
  count (Activated 0) (trace m') = 1 /\ count (Decremented 0) (trace m') = 1 /\
  exists t', SCH_tasks_G (table m') !! 0%nat = Some t' /\ RunMe t' = 0.
Proof.
  apply (torn_decrement_loses
    (mk_sched [mk_sTask (Some 1%nat) 0 2 1; empty_slot; empty_slot; empty_slot] 0 tt)
    [false; false] 0 (mk_sTask (Some 1%nat) 0 2 1)); [|done..].
  constructor; [done|]. by repeat (constructor; [by constructor|]).
Defined.
