(* ===== verification/TTAddTask.v ===== *)
(** * The timer interrupt in the middle of [SCH_Add_Task] and [SCH_Delete_Task]

    The main loop adds and deletes tasks while the timer interrupt runs
    [SCH_Update]: [sch51.c] does not disable it, and a comment asks whether that
    is safe. Here the two functions are cut at their accesses to the table, in
    program order, and a run is any sequence of their steps and of interrupts. The
    result is compared with the uncut functions of [TTScheduler], which no
    interrupt divides. *)

From S2P Require Import Prelude TTScheduler TTTiming.
Local Open Scope Z_scope.
Local Open Scope c_scope.

(** ** A function cut at its accesses

    [position] is the access to come; [fell] has the position at which each
    interrupt so far fell. *)
Record machine (fn env P : Type) := mk_machine {
  table : sched fn env;
  position : P;
  fell : list P
}.
Arguments mk_machine {fn env P}.
Arguments table {fn env P}.
Arguments position {fn env P}.
Arguments fell {fn env P}.

Definition start {fn env P} (p : P) (s : sched fn env) : machine fn env P := mk_machine s p [].

Definition interrupt {fn env P} (m : machine fn env P) : machine fn env P :=
  mk_machine (SCH_Update (table m)).2 (position m) (fell m ++ [position m]).

(** [true] is an interrupt, [false] a step of the function. *)
Definition run {fn env P} (step : P -> sched fn env -> P * sched fn env)
    (l : list bool) (m : machine fn env P) : machine fn env P :=
  foldl (fun m b => if (b : bool) then interrupt m
                    else let '(p, s) := step (position m) (table m) in mk_machine s p (fell m)) m l.

(** ** [SCH_Add_Task] *)
Inductive adder :=
  | AtRead (Index : Z)
  | AtError
  | AtTask (Index : Z)
  | AtDelay (Index : Z)
  | AtPeriod (Index : Z)
  | AtRunMe (Index : Z)
  | Added (Index : Z)
  | Stuck.

(** The read of the search and the tests after it are one step: [Index] is a
    local variable. A read past the table is as in [load_pTask]. *)
Definition add_step {fn env} (beyond : option (option fn)) (pFunction : option fn) (DELAY PERIOD : Z)
    (p : adder) (s : sched fn env) : adder * sched fn env :=
  match p with
  | AtRead Index =>
      match load_pTask beyond Index s with
      | (Ret q, s) =>
          (if bool_decide (is_Some q) && (Index <? SCH_MAX_TASKS) then AtRead (u8 (Index + 1))
           else if Index =? SCH_MAX_TASKS then AtError else AtTask Index, s)
      | (_, s) => (Stuck, s)
      end
  | AtError => (Added SCH_MAX_TASKS, with_error ERROR_SCH_TOO_MANY_TASKS s)
  | AtTask Index => (AtDelay Index, (store Index (set_pTask pFunction) s).2)
  | AtDelay Index => (AtPeriod Index, (store Index (set_Delay DELAY) s).2)
  | AtPeriod Index => (AtRunMe Index, (store Index (set_Period PERIOD) s).2)
  | AtRunMe Index => (Added Index, (store Index (set_RunMe 0) s).2)
  | Added _ | Stuck => (p, s)
  end.

(** ** [SCH_Delete_Task] *)
Inductive deleter :=
  | AtTest
  | EraseTask (Return_code : Z)
  | EraseDelay (Return_code : Z)
  | ErasePeriod (Return_code : Z)
  | EraseRunMe (Return_code : Z)
  | Erased (Return_code : Z).

Definition delete_step {fn env} (TASK_INDEX : Z) (p : deleter) (s : sched fn env) : deleter * sched fn env :=
  match p with
  | AtTest =>
      match load TASK_INDEX s with
      | (Ret t, s) =>
          match pTask t with
          | None => (EraseTask RETURN_ERROR, with_error ERROR_SCH_CANNOT_DELETE_TASK s)
          | Some _ => (EraseTask RETURN_NORMAL, s)
          end
      | (_, s) => (p, s)
      end
  | EraseTask r => (EraseDelay r, (store TASK_INDEX (set_pTask None) s).2)
  | EraseDelay r => (ErasePeriod r, (store TASK_INDEX (set_Delay 0) s).2)
  | ErasePeriod r => (EraseRunMe r, (store TASK_INDEX (set_Period 0) s).2)
  | EraseRunMe r => (Erased r, (store TASK_INDEX (set_RunMe 0) s).2)
  | Erased _ => (p, s)
  end.

(** ** Specification *)

(** [n] interrupts on a table. *)
Definition after {fn env} (n : nat) (s : sched fn env) : sched fn env :=
  with_tasks (Nat.iter n tick_slot <$> SCH_tasks_G s) s.

(** How many interrupts fell where [q] holds. *)
Definition during {P} (q : P -> bool) (l : list P) : nat := length (filter (fun p => q p = true) l).

Definition before_Delay (p : adder) : bool :=
  match p with AtRead _ | AtError | AtTask _ | AtDelay _ => true | _ => false end.
Definition before_Period (p : adder) : bool := match p with AtPeriod _ => true | _ => false end.
Definition before_RunMe (p : adder) : bool := match p with AtRunMe _ => true | _ => false end.
Definition added (p : adder) : bool := match p with Added _ => true | _ => false end.

Definition before_erase (p : deleter) : bool :=
  match p with AtTest | EraseTask _ => true | _ => false end.

(** The slot that is added, when [k] interrupts fell before the store of
    [Period] and [q] between it and the store of [RunMe]. *)
Definition added_slot {fn} (f : fn) (DELAY PERIOD : Z) (k q : nat) : sTask fn :=
  Nat.iter q tick_slot (mk_sTask (Some f) (DELAY - Z.min (Z.of_nat k) DELAY) PERIOD 0).

(** The slot [i] is the first free one. *)
Definition is_first_free {fn env} (s : sched fn env) (i : nat) : Prop :=
  (exists t, SCH_tasks_G s !! i = Some t /\ pTask t = None) /\
  forall j t, (j < i)%nat -> SCH_tasks_G s !! j = Some t -> occupied t.

(** What holds all along an addition that started from the table [s]. *)
Definition add_inv {fn env} (beyond : option (option fn)) (f : fn) (DELAY PERIOD : Z) (s : sched fn env)
    (m : machine fn env adder) : Prop :=
  let n := during before_Delay (fell m) in
  let k := during before_Period (fell m) in
  let q := during before_RunMe (fell m) in
  let a := during added (fell m) in
  match position m with
  | AtRead Index => (k + q + a = 0)%nat /\ table m = after n s /\ 0 <= Index <= SCH_MAX_TASKS /\
      forall j t, Z.of_nat j < Index -> SCH_tasks_G s !! j = Some t -> occupied t
  | AtError => (k + q + a = 0)%nat /\ table m = after n s /\ Forall occupied (SCH_tasks_G s) /\
      is_Some beyond
  | AtTask Index => (k + q + a = 0)%nat /\ exists i, Index = Z.of_nat i /\ is_first_free s i /\
      table m = after n s
  | AtDelay Index => (k + q + a = 0)%nat /\ exists i r, Index = Z.of_nat i /\ is_first_free s i /\
      is_u8 r /\ table m = put i (mk_sTask (Some f) 0 0 r) (after n s)
  | AtPeriod Index => (q + a = 0)%nat /\ exists i r, Index = Z.of_nat i /\ is_first_free s i /\ is_u8 r /\
      table m = put i (mk_sTask (Some f) (DELAY - Z.min (Z.of_nat k) DELAY) 0 r) (after (n + k) s)
  | AtRunMe Index => (a = 0)%nat /\ exists i r, Index = Z.of_nat i /\ is_first_free s i /\ is_u8 r /\
      table m = put i (set_RunMe r (added_slot f DELAY PERIOD k q)) (after (n + k + q) s)
  | Added Index =>
      (exists i, Index = Z.of_nat i /\ is_first_free s i /\
        table m = put i (Nat.iter a tick_slot (set_RunMe 0 (added_slot f DELAY PERIOD k q)))
                    (after (n + k + q + a) s)) \/
      (Index = SCH_MAX_TASKS /\ Forall occupied (SCH_tasks_G s) /\ (k + q = 0)%nat /\ is_Some beyond /\
        table m = with_error ERROR_SCH_TOO_MANY_TASKS (after (n + a) s))
  | Stuck => Forall occupied (SCH_tasks_G s) /\ beyond = None
  end.

(** What holds all along a deletion of the slot [i], that held [t]. *)
Definition delete_inv {fn env} (i : nat) (t : sTask fn) (s : sched fn env)
    (m : machine fn env deleter) : Prop :=
  let n := during before_erase (fell m) in
  let a := length (fell m) in
  let code := match pTask t with None => RETURN_ERROR | Some _ => RETURN_NORMAL end in
  let holds d p r := table m = put i (mk_sTask None d p r) (delete_error t (after a s)) in
  match position m with
  | AtTest => n = a /\ table m = after a s
  | EraseTask c => n = a /\ c = code /\ table m = delete_error t (after a s)
  | EraseDelay c => c = code /\ exists d p r, is_u32 d /\ holds d p r
  | ErasePeriod c => c = code /\ exists p r, holds 0 p r
  | EraseRunMe c => c = code /\ exists r, holds 0 0 r
  | Erased c => c = code /\ holds 0 0 0
  end.

(** The steps the function still has to make. *)
Definition add_remaining (p : adder) : nat :=
  match p with
  | AtRead j => Z.to_nat (SCH_MAX_TASKS - j) + 5
  | AtTask _ => 4 | AtDelay _ => 3 | AtPeriod _ => 2 | AtRunMe _ | AtError => 1
  | Added _ | Stuck => 0
  end.

Definition delete_remaining (p : deleter) : nat :=
  match p with
  | AtTest => 5 | EraseTask _ => 4 | EraseDelay _ => 3 | ErasePeriod _ => 2 | EraseRunMe _ => 1
  | Erased _ => 0
  end.

(** A table whose second slot is free. *)
Definition demo_gap : sched nat unit :=
  mk_sched [mk_sTask (Some 1%nat) 0 2 0; empty_slot; mk_sTask (Some 2%nat) 1 0 0; empty_slot] 0 tt.

(** ** Lemmas *)
Section cut.
Context {fn env : Type}.
Implicit Types (s : sched fn env) (t : sTask fn) (f : fn).

(** *** Interrupts on a table *)
Lemma interrupts_after n s : wf s -> interrupts n s = (Ret tt, after n s).
Proof.
  intros Hwf. pose proof (rep_update_runs (seq 0 n) s Hwf) as H. unfold runs in H.
  unfold interrupts. by rewrite H, length_seq.
Qed.

Lemma update_after n s : wf (after n s) -> (SCH_Update (after n s)).2 = after (S n) s.
Proof.
  intros Hwf. pose proof (update_runs _ Hwf) as H. unfold runs in H. rewrite H. cbn [snd].
  unfold after.
  rewrite with_tasks_twice. cbn [SCH_tasks_G with_tasks]. by rewrite <- list_fmap_compose.
Qed.

Lemma after_0 s : after 0 s = s.
Proof. unfold after. cbn. by rewrite list_fmap_id, with_tasks_same. Qed.

Lemma after_plus n k s : after (n + k) s = after n (after k s).
Proof.
  unfold after. rewrite with_tasks_twice. cbn [SCH_tasks_G with_tasks]. rewrite <- list_fmap_compose.
  f_equal. apply list_fmap_ext. intros _ t _. apply Nat.iter_add.
Qed.

Lemma after_with_error n e s : after n (with_error e s) = with_error e (after n s).
Proof. done. Qed.

Lemma wf_update s : wf s -> wf (SCH_Update s).2.
Proof.
  intros Hwf. pose proof (update_runs s Hwf) as H. eapply update_wf; [exact Hwf|].
  unfold runs in *. by rewrite H.
Qed.

Lemma wf_after n s : wf s -> wf (after n s).
Proof.
  intros Hwf. induction n as [|n IH]; [by rewrite after_0|].
  rewrite <- update_after by done. by apply wf_update.
Qed.

Lemma update_with_error e s : wf s -> (SCH_Update (with_error e s)).2 = with_error e (SCH_Update s).2.
Proof.
  intros Hwf. pose proof (update_runs _ Hwf) as H1. pose proof (update_runs _ (wf_with_error _ e Hwf)) as H2.
  unfold runs in *. by rewrite H1, H2.
Qed.

Lemma update_put i t s : wf (put i t s) -> (SCH_Update (put i t s)).2 = put i (tick_slot t) (after 1 s).
Proof.
  intros Hwf. pose proof (update_runs _ Hwf) as H. unfold runs in H. rewrite H.
  unfold put, after. rewrite !with_tasks_twice. cbn [snd SCH_tasks_G with_tasks].
  by rewrite list_fmap_insert.
Qed.

Lemma update_put_after i t n s : wf (put i t (after n s)) ->
  (SCH_Update (put i t (after n s))).2 = put i (tick_slot t) (after (S n) s).
Proof. intros Hwf. rewrite update_put by done. by rewrite <- (after_plus 1 n). Qed.

(** *** Slots *)
Lemma tick_pTask t : pTask (tick_slot t) = pTask t.
Proof. unfold tick_slot. destruct t as [[f|] d p r]; cbn; [|done]. by destruct (d =? 0). Qed.

Lemma tick_iter_pTask n t : pTask (Nat.iter n tick_slot t) = pTask t.
Proof.
  induction n as [|n IH]; [done|]. by rewrite Nat.iter_succ, tick_pTask.
Qed.

Lemma after_lookup n s i t : SCH_tasks_G s !! i = Some t ->
  SCH_tasks_G (after n s) !! i = Some (Nat.iter n tick_slot t).
Proof. intros H. cbn. by rewrite list_lookup_fmap, H. Qed.

Lemma iter_empty_slot n : Nat.iter n tick_slot (@empty_slot fn) = empty_slot.
Proof. induction n as [|n IH]; [done|]. by rewrite Nat.iter_succ, IH. Qed.

Lemma after_free n s i t : wf s -> SCH_tasks_G s !! i = Some t -> pTask t = None ->
  SCH_tasks_G (after n s) !! i = Some empty_slot.
Proof.
  intros Hwf Ht Hn. rewrite (after_lookup _ _ _ t Ht). f_equal.
  rewrite (wf_empty _ (wf_slot_lookup _ _ _ Hwf Ht) Hn). apply iter_empty_slot.
Qed.

Lemma after_occupied n s i t : SCH_tasks_G (after n s) !! i = Some t ->
  exists t0, SCH_tasks_G s !! i = Some t0 /\ pTask t = pTask t0.
Proof.
  cbn. rewrite list_lookup_fmap. intros (t0 & Ht & ->)%fmap_Some. exists t0. split; [done|].
  apply tick_iter_pTask.
Qed.

Lemma set_RunMe_twice r r' t : set_RunMe r (set_RunMe r' t) = set_RunMe r t.
Proof. done. Qed.

Lemma tick_set_RunMe r t : is_u8 r ->
  exists r', is_u8 r' /\ tick_slot (set_RunMe r t) = set_RunMe r' (tick_slot t).
Proof.
  intros Hr. destruct t as [[f|] d p q]; unfold tick_slot; cbn; [|by eauto].
  destruct (d =? 0); [exists (u8 (r + 1))|exists r]; split; try done. apply u8_range.
Qed.

Lemma store_at s (i : nat) (g : sTask fn -> sTask fn) t : SCH_tasks_G s !! i = Some t ->
  (store (Z.of_nat i) g s).2 = put i (g t) s.
Proof. intros Ht. pose proof (store_runs i g t s Ht) as H. unfold runs in H. by rewrite H. Qed.

Lemma store_put s (i : nat) (g : sTask fn -> sTask fn) t : (i < length (SCH_tasks_G s))%nat ->
  (store (Z.of_nat i) g (put i t s)).2 = put i (g t) s.
Proof.
  intros Hi. rewrite (store_at _ _ _ t) by (cbn; by apply list_lookup_insert_eq). apply put_put.
Qed.

Lemma first_free_length s i n : is_first_free s i -> (i < length (SCH_tasks_G (after n s)))%nat.
Proof. intros [(t & Ht & _) _]. cbn. rewrite length_fmap. by eapply lookup_lt_Some. Qed.

Lemma first_free_after s i n : is_first_free s i -> is_first_free (after n s) i.
Proof.
  intros [(t & Ht & Hn) Ho]. split.
  - exists (Nat.iter n tick_slot t). split; [by apply after_lookup|by rewrite tick_iter_pTask].
  - intros j t' Hj (t0 & Ht0 & E)%after_occupied. unfold occupied. rewrite E. by eapply Ho.
Qed.

Lemma added_slot_wf f d p k q : is_u32 d -> is_u32 p -> wf_slot (added_slot f d p k q).
Proof.
  intros Hd Hp. unfold added_slot. induction q as [|q IH]; [|by apply wf_tick_slot].
  constructor; cbn; try done. unfold is_u32 in *. lia.
Qed.

Lemma wf_slot_set_RunMe r t : is_u8 r -> wf_slot t -> occupied t -> wf_slot (set_RunMe r t).
Proof. intros Hr [Hd Hp _ He] [f Hf]. constructor; cbn; try done. congruence. Qed.

Lemma added_slot_occupied f d p k q : occupied (added_slot f d p k q).
Proof. unfold occupied, added_slot. rewrite tick_iter_pTask. by eexists. Qed.

(** While the countdown has not ended, [q] ticks only count down. *)
Lemma added_slot_counting f d p k q : Z.of_nat (k + q) <= d ->
  added_slot f d p k q = mk_sTask (Some f) (d - Z.of_nat (k + q)) p 0.
Proof.
  intros Hd. unfold added_slot. induction q as [|q IH]; [cbn; f_equal; lia|].
  rewrite Nat.iter_succ, IH by lia. unfold tick_slot. cbn. destruct (Z.eqb_spec (d - Z.of_nat (k + q)) 0); [lia|].
  f_equal. lia.
Qed.

Lemma added_slot_atomic f d p k q : 0 <= d -> Z.of_nat (k + q) <= d ->
  added_slot f d p k q = Nat.iter (k + q) tick_slot (mk_sTask (Some f) d p 0).
Proof.
  intros Hd Hk. transitivity (added_slot f d p 0 (k + q)); [by rewrite !added_slot_counting|].
  unfold added_slot. do 2 f_equal. lia.
Qed.

Lemma added_slot_waiting f d p k q : Z.of_nat (k + q) <= d ->
  set_RunMe 0 (added_slot f d p k q) = added_slot f d p k q.
Proof. intros H. by rewrite added_slot_counting. Qed.

Lemma delay_after_shift d p k q : 0 <= k <= d -> delay_after (d - k) p q = delay_after d p (k + q).
Proof.
  intros Hk. unfold delay_after. replace (q - (d - k) - 1) with (k + q - d - 1) by lia.
  repeat case_bool; lia.
Qed.

(** *** Counting *)
Lemma during_app {P} (q : P -> bool) l1 l2 : during q (l1 ++ l2) = (during q l1 + during q l2)%nat.
Proof. unfold during. by rewrite filter_app, length_app. Qed.

Lemma during_snoc {P} (q : P -> bool) l p : during q (l ++ [p]) = (during q l + if q p then 1 else 0)%nat.
Proof.
  unfold during. rewrite filter_app, length_app, filter_cons, filter_nil.
  by destruct (q p); [rewrite decide_True by done|rewrite decide_False by done].
Qed.

Lemma zero_plus (n a : nat) : a = 0%nat -> (n + a = n)%nat.
Proof. lia. Qed.

Lemma during_negb {P} (q : P -> bool) l : (during (negb ∘ q) l + during q l = length l)%nat.
Proof.
  induction l as [|p l IH] using rev_ind; [done|]. rewrite !during_snoc, length_app. cbn.
  destruct (q p); cbn; lia.
Qed.

Lemma run_cons {P} (st : P -> sched fn env -> P * sched fn env) b l m :
  run st (b :: l) m = run st l (run st [b] m).
Proof. done. Qed.

(** *** The addition *)
Section addition.
Context (beyond : option (option fn)) (f : fn) (DELAY PERIOD : Z) (s : sched fn env).
Context (Hs : wf s) (HD : is_u32 DELAY) (HP : is_u32 PERIOD).
Abbreviation inv := (add_inv beyond f DELAY PERIOD s).
Abbreviation step := (add_step beyond (Some f) DELAY PERIOD).

(** Counting one more interrupt at the position [p]. *)
Local Ltac count_fall := rewrite ?during_snoc; cbn [before_Delay before_Period before_RunMe added];
  rewrite ?Nat.add_0_r.

Lemma add_interrupt_inv m : wf (table m) -> inv m -> inv (interrupt m).
Proof.
  intros Hwf. unfold add_inv, interrupt. cbn [table position fell].
  destruct (position m) as [j| |j|j|j|j|j|] eqn:Hp; count_fall; try done.
  - intros (Hz & Ht & H). rewrite Ht in *. by rewrite update_after, Nat.add_1_r by done.
  - intros (Hz & Ht & H). rewrite Ht in *. by rewrite update_after, Nat.add_1_r by done.
  - intros (Hz & i & -> & Hf & Ht). rewrite Ht in *. split; [done|]. exists i.
    by rewrite update_after, Nat.add_1_r by done.
  - intros (Hz & i & r & -> & Hf & Hr & Ht). rewrite Ht in *. split; [done|]. exists i, (u8 (r + 1)).
    rewrite update_put_after, Nat.add_1_r by done. split_and!; try done. apply u8_range.
  - intros (Hz & i & r & -> & Hf & Hr & Ht). rewrite Ht in *. split; [done|].
    rewrite update_put_after, !Nat.add_1_r, Nat.add_succ_r by done. unfold tick_slot. cbn.
    destruct (Z.eqb_spec (DELAY - Z.min (Z.of_nat (during before_Period (fell m))) DELAY) 0).
    + exists i, (u8 (r + 1)). split_and!; try done; [apply u8_range|]. do 2 f_equal; lia.
    + exists i, r. split_and!; try done. do 2 f_equal; lia.
  - intros (Hz & i & r & -> & Hf & Hr & Ht). rewrite Ht in *. split; [done|].
    rewrite update_put_after, !Nat.add_1_r, Nat.add_succ_r by done.
    destruct (tick_set_RunMe r (added_slot f DELAY PERIOD (during before_Period (fell m))
      (during before_RunMe (fell m))) Hr) as (r' & Hr' & E). by exists i, r'; rewrite E.
  - intros [(i & -> & Hf & Ht)|(-> & Ho & Hz & Hb & Ht)]; [left|right].
    + rewrite Ht in *. exists i. by rewrite update_put_after, !Nat.add_1_r, Nat.add_succ_r by done.
    + split_and!; try done. rewrite Ht, update_with_error, update_after by by apply wf_after.
      by rewrite Nat.add_1_r, Nat.add_succ_r.
Qed.

(** The search, at its read. *)
Lemma add_read_inv m j : wf (table m) -> position m = AtRead j -> inv m ->
  inv (let '(p, s') := step (AtRead j) (table m) in mk_machine s' p (fell m)) /\
  (step (AtRead j) (table m)).2 = table m.
Proof.
  intros Hwf Hp. unfold add_inv at 1. rewrite Hp. intros (Hz & Ht & Hj & Ho).
  unfold add_step. destruct (decide (j < SCH_MAX_TASKS)) as [Hlt|Hge].
  - destruct (wf_in_range (table m) j Hwf ltac:(lia)) as (i & t & -> & Hi).
    pose proof (load_pTask_runs beyond i t _ Hi) as E. unfold runs in E. rewrite E. split; [|done].
    destruct (pTask t) as [g|] eqn:Eg; cbn [bool_decide andb].
    + rewrite bool_decide_true, (proj2 (Z.ltb_lt _ _)) by (done || lia). cbn [andb].
      unfold SCH_MAX_TASKS in *. rewrite u8_small by (unfold is_u8; lia). unfold add_inv; cbn [position table fell].
      split_and!; try done; try (unfold SCH_MAX_TASKS; lia). intros j t' Hlt' Hj'.
      destruct (decide (j = i)) as [->|]; [|apply (Ho j); [lia|done]].
      rewrite Ht in Hi. apply after_occupied in Hi as (t0 & Ht0 & E0). simplify_eq. rewrite Eg in E0.
      unfold occupied. by rewrite <- E0.
    + rewrite bool_decide_false by (by intros [? ?]). cbn [andb].
      rewrite (proj2 (Z.eqb_neq _ _)) by lia. unfold add_inv; cbn [position table fell].
      split; [done|]. exists i. split_and!; [done| |done]. split.
      * rewrite Ht in Hi. apply after_occupied in Hi as (t0 & Ht0 & E0). exists t0. by rewrite <- E0.
      * intros j t' Hlt' Hj'. apply (Ho j); [lia|done].
  - assert (j = SCH_MAX_TASKS) as -> by lia. assert (Hocc : Forall occupied (SCH_tasks_G s)).
    { apply Forall_lookup. intros i t Hi. apply (Ho i); [|done]. apply lookup_lt_Some in Hi.
      rewrite (wf_length Hs) in Hi. unfold SCH_MAX_TASKS in *. lia. }
    unfold load_pTask. rewrite (proj2 (lookup_ge_None _ _)) by (by rewrite (wf_length Hwf)).
    destruct beyond as [v|]; [|done]. split; [|done]. rewrite Z.ltb_irrefl, andb_false_r, Z.eqb_refl. done.
Qed.

Lemma add_step_inv m : wf (table m) -> inv m ->
  let '(p, s') := step (position m) (table m) in inv (mk_machine s' p (fell m)) /\ wf s'.
Proof.
  intros Hwf Hi. pose proof (fun j Hp => add_read_inv m j Hwf Hp Hi) as Hread. revert Hi.
  unfold add_inv at 1. destruct (position m) as [j| |j|j|j|j|j|] eqn:Hp.
  - intros _. destruct (Hread j eq_refl) as [H1 H2]. destruct (step _ _) as [p s'].
    cbn in H2. by subst s'.
  - intros (Hz & Ht & Ho & Hb). split; [|by apply wf_with_error]. right. cbn [fell table].
    rewrite Ht, (zero_plus _ (during added (fell m))) by lia. split_and!; try done; lia.
  - intros (Hz & i & -> & Hf & Ht). cbn [add_step]. pose proof Hf as [(t & Hi & Hn) _].
    rewrite (store_at _ i _ empty_slot) by (rewrite Ht; by eapply after_free).
    split; [|by apply wf_put]. split; [done|]. exists i, 0. cbn [table fell]. by rewrite Ht.
  - intros (Hz & i & r & -> & Hf & Hr & Ht). cbn [add_step]. rewrite Ht, store_put by by apply first_free_length.
    split; [|apply wf_put; [by apply wf_after|by constructor]]. split; [cbn [fell]; lia|]. exists i, r.
    cbn [fell table]. rewrite (zero_plus _ (during before_Period (fell m))) by lia.
    split_and!; try done. unfold set_Delay. cbn. do 2 f_equal. unfold is_u32 in *. lia.
  - intros (Hz & i & r & -> & Hf & Hr & Ht). cbn [add_step]. rewrite Ht, store_put by by apply first_free_length.
    split; [|apply wf_put; [by apply wf_after|constructor; try done; cbn; unfold is_u32 in *; lia]].
    split; [cbn [fell]; lia|]. exists i, r. cbn [fell table].
    rewrite (zero_plus _ (during before_RunMe (fell m))) by lia. split_and!; try done.
    by replace (during before_RunMe (fell m)) with 0%nat by lia.
  - intros (Hz & i & r & -> & Hf & Hr & Ht). cbn [add_step].
    rewrite Ht, store_put, set_RunMe_twice by by apply first_free_length.
    split; [left|apply wf_put; [by apply wf_after|apply wf_slot_set_RunMe;
      [done|by apply added_slot_wf|apply added_slot_occupied]]].
    exists i. cbn [fell table]. rewrite Hz, Nat.add_0_r. done.
  - intros H. split; [|done]. exact H.
  - intros H. split; [|done]. exact H.
Qed.

Lemma add_run_inv l : forall m, wf (table m) -> inv m -> inv (run step l m) /\ wf (table (run step l m)).
Proof.
  induction l as [|b l IH]; intros m Hwf Hi; [done|]. destruct b; cbn [run foldl]; apply IH.
  - by apply wf_update.
  - by apply add_interrupt_inv.
  - pose proof (add_step_inv m Hwf Hi) as H. destruct (step _ _). apply H.
  - pose proof (add_step_inv m Hwf Hi) as H. destruct (step _ _). apply H.
Qed.

Lemma add_start_inv : inv (start (AtRead 0) s).
Proof.
  unfold inv, start. cbn. split_and!; try done; [by rewrite after_0|].
  intros j t Hj. lia.
Qed.

Lemma add_step_remaining m : inv m ->
  (add_remaining (step (position m) (table m)).1 <= pred (add_remaining (position m)))%nat.
Proof.
  unfold add_inv. destruct (position m) as [j| |j|j|j|j|j|]; try (intros _; cbn; lia).
  intros (_ & _ & Hj & _). cbn [add_step]. unfold load_pTask, SCH_MAX_TASKS in *.
  assert (E : u8 (j + 1) = j + 1) by (apply u8_small; unfold is_u8; lia).
  destruct (SCH_tasks_G (table m) !! Z.to_nat j) as [t|]; [|destruct beyond as [v|]; [|cbn; lia]].
  all: destruct (Z.ltb_spec j 4); rewrite ?andb_false_r, ?andb_true_r; cbn [fst].
  all: try case_bool_decide; rewrite ?E; try destruct (j =? 4); cbn [add_remaining]; unfold SCH_MAX_TASKS; lia.
Qed.

Lemma add_run_remaining l : forall m, wf (table m) -> inv m ->
  (add_remaining (position (run step l m)) <= add_remaining (position m) - during negb l)%nat.
Proof.
  induction l as [|b l IH]; intros m Hwf Hi; [cbn; lia|].
  pose proof (add_run_inv [b] m Hwf Hi) as [Hi1 Hwf1]. specialize (IH _ Hwf1 Hi1).
  rewrite run_cons, (during_app _ [b] l). etrans; [exact IH|]. cbn [run foldl]. destruct b.
  - change (during negb [true]) with 0%nat. cbn [position interrupt]. lia.
  - change (during negb [false]) with 1%nat. pose proof (add_step_remaining m Hi) as Hr.
    destruct (step _ _) as [p s']. cbn [position fst] in *. lia.
Qed.

(** The uncut function, on a table the interrupts have been at. *)
Lemma add_after n i : is_first_free s i ->
  SCH_Add_Task beyond (Some f) DELAY PERIOD (after n s) =
    (Ret (Z.of_nat i), put i (mk_sTask (Some f) DELAY PERIOD 0) (after n s)).
Proof.
  intros Hf. pose proof (first_free_length s i n Hf) as Hi.
  destruct (first_free_after s i n Hf) as [(t & Ht & Hn) Ho].
  rewrite (wf_length (wf_after n s Hs)) in Hi.
  exact (add_free_runs beyond (after n s) (Some f) DELAY PERIOD i t Hi Ht Hn Ho).
Qed.

Lemma add_after_full n : Forall occupied (SCH_tasks_G s) ->
  SCH_Add_Task beyond (Some f) DELAY PERIOD (after n s) =
    match beyond with
    | None => (Undefined (OutOfBounds SCH_MAX_TASKS), after n s)
    | Some _ => (Ret SCH_MAX_TASKS, with_error ERROR_SCH_TOO_MANY_TASKS (after n s))
    end.
Proof.
  intros Ho. apply add_full; [apply wf_length, wf_after, Hs|].
  apply Forall_lookup. intros i t (t0 & Ht0 & E)%after_occupied. unfold occupied. rewrite E.
  by apply (Forall_lookup_1 _ _ _ _ Ho Ht0).
Qed.

Lemma after_put n k i t : after n (put i t (after k s)) = put i (Nat.iter n tick_slot t) (after (n + k) s).
Proof.
  rewrite after_plus. unfold put, after at 1. rewrite !with_tasks_twice. cbn [SCH_tasks_G with_tasks].
  by rewrite list_fmap_insert.
Qed.
End addition.

(** *** The deletion *)
Lemma after_delete_error t n s : after n (delete_error t s) = delete_error t (after n s).
Proof. unfold delete_error. by destruct (pTask t). Qed.

Lemma wf_delete_error t s : wf s -> wf (delete_error t s).
Proof. unfold delete_error. destruct (pTask t); auto using wf_with_error. Qed.

(** The handler skips a slot whose [pTask] is erased, whatever is left in it. *)
Lemma update_erased i d p r s : wf s -> is_u32 d ->
  (SCH_Update (put i (mk_sTask None d p r) s)).2 = put i (mk_sTask None d p r) (after 1 s).
Proof.
  intros [Hl Hs] Hd. pose proof (update_runs_delays (put i (mk_sTask None d p r) s)) as H.
  unfold runs in H. rewrite H; cbn [SCH_tasks_G put with_tasks].
  - unfold put, after. rewrite !with_tasks_twice. cbn [snd SCH_tasks_G with_tasks]. by rewrite list_fmap_insert.
  - by rewrite length_insert.
  - apply Forall_insert; [|done]. eapply Forall_mono; [exact Hs|]. by intros ? [].
Qed.

Section deletion.
Context (i : nat) (t : sTask fn) (s : sched fn env).
Context (Hs : wf s) (Ht : SCH_tasks_G s !! i = Some t).
Abbreviation inv := (delete_inv i t s).
Abbreviation step := (delete_step (Z.of_nat i)).

Lemma delete_interrupt_inv m : inv m -> inv (interrupt m).
Proof.
  unfold delete_inv, interrupt. cbn [table position fell]. rewrite length_app, Nat.add_1_r.
  assert (Hu : forall n, (SCH_Update (after n s)).2 = after (S n) s) by (intros; by apply update_after, wf_after).
  assert (He : forall n, (SCH_Update (delete_error t (after n s))).2 = delete_error t (after (S n) s)).
  { intros n. rewrite <- !after_delete_error. by apply update_after, wf_after, wf_delete_error. }
  assert (Hh : forall n d p r, is_u32 d -> table m = put i (mk_sTask None d p r) (delete_error t (after n s)) ->
    (SCH_Update (table m)).2 = put i (mk_sTask None d p r) (delete_error t (after (S n) s))).
  { intros n d p r Hd ->. rewrite update_erased by (try done; by apply wf_delete_error, wf_after).
    by rewrite <- !after_delete_error, <- after_plus. }
  destruct (position m) as [|c|c|c|c|c]; rewrite ?during_snoc; cbn [before_erase].
  - intros [Hn ->]. by rewrite Hu, Hn, Nat.add_1_r.
  - intros (Hn & -> & ->). by rewrite He, Hn, Nat.add_1_r.
  - intros (-> & d & p & r & Hd & H). split; [done|]. exists d, p, r. auto.
  - intros (-> & p & r & H). split; [done|]. exists p, r. apply Hh; [done|exact H].
  - intros (-> & r & H). split; [done|]. exists r. apply Hh; [done|exact H].
  - intros (-> & H). split; [done|]. apply Hh; [done|exact H].
Qed.

Lemma delete_step_inv m : inv m -> let '(p, s') := step (position m) (table m) in inv (mk_machine s' p (fell m)).
Proof.
  unfold delete_inv. cbn [table position fell]. set (a := length (fell m)).
  assert (Hi : (i < length (SCH_tasks_G (delete_error t (after a s))))%nat).
  { unfold delete_error. destruct (pTask t); cbn; rewrite length_fmap; by eapply lookup_lt_Some. }
  destruct (position m) as [|c|c|c|c|c]; cbn [delete_step].
  - intros [Hn ->]. pose proof (load_runs i _ _ (after_lookup a s i t Ht)) as E. unfold runs in E. rewrite E.
    rewrite tick_iter_pTask. unfold delete_error. by destruct (pTask t).
  - intros (Hn & -> & ->). assert (Hl : SCH_tasks_G (delete_error t (after a s)) !! i = Some (Nat.iter a tick_slot t)).
    { rewrite <- (after_lookup a s i t Ht). unfold delete_error. by destruct (pTask t). }
    rewrite (store_at _ _ _ _ Hl). split; [done|].
    exists (Delay (Nat.iter a tick_slot t)), (Period (Nat.iter a tick_slot t)), (RunMe (Nat.iter a tick_slot t)).
    split; [|done]. apply (wf_slot_lookup _ i _ (wf_after a s Hs)), after_lookup, Ht.
  - intros (-> & d & p & r & Hd & ->). rewrite store_put by done. split; [done|]. by exists p, r.
  - intros (-> & p & r & ->). rewrite store_put by done. split; [done|]. by exists r.
  - intros (-> & r & ->). by rewrite store_put.
  - by intros (-> & ->).
Qed.

Lemma delete_step_remaining m : inv m ->
  (delete_remaining (step (position m) (table m)).1 <= pred (delete_remaining (position m)))%nat.
Proof.
  unfold delete_inv. destruct (position m) as [|c|c|c|c|c]; cbn [delete_step]; try (intros _; cbn; lia).
  intros [_ ->]. pose proof (load_runs i _ _ (after_lookup (length (fell m)) s i t Ht)) as E.
  unfold runs in E. rewrite E. destruct (pTask _); cbn; lia.
Qed.

Lemma delete_run_inv l : forall m, inv m -> inv (run step l m) /\
  (delete_remaining (position (run step l m)) <= delete_remaining (position m) - during negb l)%nat.
Proof.
  induction l as [|b l IH]; intros m Hi; [cbn; split; [done|lia]|].
  rewrite run_cons, (during_app _ [b] l). destruct b.
  - exact (IH _ (delete_interrupt_inv m Hi)).
  - assert (Hi1 : inv (run step [false] m)).
    { pose proof (delete_step_inv m Hi) as H. cbn [run foldl]. by destruct (step _ _). }
    destruct (IH _ Hi1) as [H1 H2]. split; [done|]. etrans; [exact H2|]. change (during negb [false]) with 1%nat.
    pose proof (delete_step_remaining m Hi) as Hr. cbn [run foldl].
    destruct (step _ _) as [p s']. cbn [position fst] in *. lia.
Qed.

Lemma delete_after n : SCH_Delete_Task (Z.of_nat i) (after n s) =
  (Ret (match pTask t with None => RETURN_ERROR | Some _ => RETURN_NORMAL end),
   put i empty_slot (delete_error t (after n s))).
Proof.
  pose proof (delete_runs _ i _ (after_lookup n s i t Ht)) as H. unfold runs in H. rewrite H.
  by rewrite tick_iter_pTask.
Qed.
End deletion.
End cut.

Lemma demo_gap_wf : wf demo_gap.
Proof. constructor; [done|]. by repeat (constructor; [by constructor|]). Qed.

(** ** Properties *)

(** C18: [SCH_Add_Task] with interrupts between any two of its accesses to the
    table is [SCH_Add_Task] in one piece, run at the moment of its store of
    [Delay], whenever at most [DELAY] interrupts fall between that store and the
    last one: the same index or error, the same table, every interrupt counted.
    After at most nine steps of its own it has returned, or has read past a full
    table. *)
Theorem add_linearizes {fn env} (beyond : option (option fn)) (f : fn) (DELAY PERIOD : Z)
    (s : sched fn env) (l : list bool) :
  wf s -> is_u32 DELAY -> is_u32 PERIOD ->
  let m := run (add_step beyond (Some f) DELAY PERIOD) l (start (AtRead 0) s) in
  let n := during before_Delay (fell m) in
  let k := (during before_Period (fell m) + during before_RunMe (fell m))%nat in
  (forall Index, position m = Added Index -> Z.of_nat k <= DELAY ->
     exists s', SCH_Add_Task beyond (Some f) DELAY PERIOD (after n s) = (Ret Index, s') /\
       table m = after (k + during added (fell m)) s') /\
  (position m = Stuck -> SCH_Add_Task beyond (Some f) DELAY PERIOD (after n s) =
     (Undefined (OutOfBounds SCH_MAX_TASKS), after n s)) /\
  ((9 <= during negb l)%nat -> position m = Stuck \/ exists Index, position m = Added Index).
Proof.
  intros Hs HD HP m n k.
  pose proof (add_start_inv beyond f DELAY PERIOD s) as H0.
  destruct (add_run_inv beyond f DELAY PERIOD s Hs HD HP l (start (AtRead 0) s) Hs H0) as [Hi _]. fold m in Hi.
  unfold add_inv in Hi. split_and!.
  - intros Index Hp Hk. rewrite Hp in Hi. destruct Hi as [(i & -> & Hf & Ht)|(-> & Ho & Hz & [v Hb] & Ht)].
    + eexists. split; [by apply add_after|]. rewrite Ht, after_put. f_equal.
      * rewrite added_slot_waiting, added_slot_atomic by (done || unfold is_u32 in *; lia).
        fold k. rewrite (Nat.add_comm k). symmetry. apply Nat.iter_add.
      * f_equal. unfold k. lia.
    + eexists. split; [by rewrite add_after_full, Hb|]. rewrite Ht, (Nat.add_comm _ (during added _)).
      unfold k. by rewrite Hz, after_with_error, <- after_plus.
  - intros Hp. rewrite Hp in Hi. destruct Hi as [Ho Hb]. rewrite add_after_full by done. by rewrite Hb.
  - intros Hn. pose proof (add_run_remaining beyond f DELAY PERIOD s Hs HD HP l (start (AtRead 0) s) Hs H0) as Hr.
    change (add_remaining (position (start (AtRead 0) s))) with 9%nat in Hr. fold m in Hr.
    destruct (position m); cbn [add_remaining] in Hr; try lia; eauto.
Qed.

Lemma add_linearizes_witness :
  let m := run (add_step None (Some 7%nat) 2 5) [false; true; false; false; true; false; false; true; false; false; true]
             (start (AtRead 0) demo_gap) in
  exists s', SCH_Add_Task None (Some 7%nat) 2 5 (after 2 demo_gap) = (Ret 1, s') /\
    table m = after 2 s'.
Proof.
  destruct (add_linearizes None 7%nat 2 5 demo_gap
    [false; true; false; false; true; false; false; true; false; false; true]) as (H & _ & _);
    [apply demo_gap_wf|done|done|].
  by apply (H 1); vm_compute.
Defined.

(** The interrupts that fall between the store of [Delay] and that of
    [RunMe] count the new task down, and every activation they make is lost, as
    the last store clears [RunMe]: at the return it is 0, where the addition in
    one piece would have left as many activations as [DELAY] and [PERIOD] say.
    If the countdown did not end before the store of [Period] the delay that is
    left is the same in both, so the loss is not made up for. *)
Theorem add_loses_activations {fn env} (beyond : option (option fn)) (f : fn) (DELAY PERIOD : Z)
    (s : sched fn env) (l : list bool) (i : nat) :
  wf s -> is_u32 DELAY -> is_u32 PERIOD ->
  let m := run (add_step beyond (Some f) DELAY PERIOD) l (start (AtRead 0) s) in
  let n := during before_Delay (fell m) in
  let k := during before_Period (fell m) in
  let q := during before_RunMe (fell m) in
  position m = Added (Z.of_nat i) -> Z.of_nat i < SCH_MAX_TASKS -> during added (fell m) = 0%nat ->
  exists s' d, SCH_Add_Task beyond (Some f) DELAY PERIOD (after n s) = (Ret (Z.of_nat i), s') /\
    SCH_tasks_G (table m) !! i = Some (mk_sTask (Some f) d PERIOD 0) /\
    SCH_tasks_G (after (k + q) s') !! i =
      Some (mk_sTask (Some f) (delay_after DELAY PERIOD (Z.of_nat (k + q))) PERIOD
              (u8 (activations DELAY PERIOD (Z.of_nat (k + q))))) /\
    (Z.of_nat k <= DELAY -> d = delay_after DELAY PERIOD (Z.of_nat (k + q))).
Proof.
  intros Hs HD HP m n k q Hp Hi Ha. unfold is_u32 in HD, HP.
  pose proof (add_start_inv beyond f DELAY PERIOD s) as H0.
  destruct (add_run_inv beyond f DELAY PERIOD s Hs HD HP l (start (AtRead 0) s) Hs H0) as [Hinv _]. fold m in Hinv.
  unfold add_inv in Hinv. rewrite Hp, Ha in Hinv.
  destruct Hinv as [(j & <-%Nat2Z.inj & Hf & Ht)|(E & _)]; [|lia].
  pose proof (first_free_length s i) as Hl. eexists _, _. split_and!; [by apply add_after|..].
  - rewrite Ht. cbn [put SCH_tasks_G with_tasks]. rewrite list_lookup_insert_eq by by apply Hl.
    unfold added_slot. rewrite iter_tick by (done || lia). done.
  - rewrite after_put. cbn [put SCH_tasks_G with_tasks]. rewrite list_lookup_insert_eq by by apply Hl.
    by rewrite iter_tick by (done || lia).
  - subst k q. intros Hk. cbn [Delay]. rewrite Z.min_l, delay_after_shift, Nat2Z.inj_add by lia. done.
Qed.

Lemma add_loses_activations_witness :
  let m := run (add_step None (Some 7%nat) 0 5) [false; false; false; false; false; true; false]
             (start (AtRead 0) demo_gap) in
  exists s' d, SCH_Add_Task None (Some 7%nat) 0 5 (after 0 demo_gap) = (Ret 1, s') /\
    SCH_tasks_G (table m) !! 1%nat = Some (mk_sTask (Some 7%nat) d 5 0) /\
    SCH_tasks_G (after 1 s') !! 1%nat = Some (mk_sTask (Some 7%nat) 5 5 1) /\
    (Z.of_nat 0 <= 0 -> d = 5).
Proof.
  exact (add_loses_activations None 7%nat 0 5 demo_gap [false; false; false; false; false; true; false] 1
    demo_gap_wf ltac:(done) ltac:(done) eq_refl ltac:(done) eq_refl).
Defined.

(** [SCH_Delete_Task] with interrupts between any two of its accesses to the
    table is [SCH_Delete_Task] in one piece, run at the moment of its store of
    [pTask], however many interrupts fall: the same code, the same table. After
    at most five steps of its own it has returned. *)
Theorem delete_linearizes {fn env} (s : sched fn env) (i : nat) (l : list bool) :
  wf s -> Z.of_nat i < SCH_MAX_TASKS ->
  let m := run (delete_step (Z.of_nat i)) l (start AtTest s) in
  let n := during before_erase (fell m) in
  let k := during (negb ∘ before_erase) (fell m) in
  (forall c, position m = Erased c ->
     exists s', SCH_Delete_Task (Z.of_nat i) (after n s) = (Ret c, s') /\ table m = after k s') /\
  ((5 <= during negb l)%nat -> exists c, position m = Erased c).
Proof.
  intros Hs Hi m n k. destruct (wf_in_range s (Z.of_nat i) Hs ltac:(lia)) as (j & t & <-%Nat2Z.inj & Ht).
  destruct (delete_run_inv i t s Hs Ht l (start AtTest s)) as [Hinv Hr]; [by split; [|rewrite after_0]|].
  fold m in Hinv, Hr. unfold delete_inv in Hinv. split.
  - intros c Hp. rewrite Hp in Hinv. destruct Hinv as [-> H]. eexists. split; [by apply delete_after|].
    rewrite H, <- !after_delete_error, after_put, iter_empty_slot. unfold k, n. by rewrite during_negb.
  - intros Hn. change (delete_remaining (position (start AtTest s))) with 5%nat in Hr.
    destruct (position m); cbn [delete_remaining] in Hr; try lia; eauto.
Qed.

Lemma delete_linearizes_witness :
  let m := run (delete_step 0) [true; false; true; false; true; false; false; true; false; true]
             (start AtTest demo_gap) in
  (forall c, position m = Erased c ->
     exists s', SCH_Delete_Task 0 (after 2 demo_gap) = (Ret c, s') /\ table m = after 3 s') /\
  ((5 <= 5)%nat -> exists c, position m = Erased c).
Proof.
  exact (delete_linearizes demo_gap 0 [true; false; true; false; true; false; false; true; false; true]
    demo_gap_wf ltac:(done)).
Defined.
