(* ===== verification/CDouble.v ===== *)
(** * [double] and [struct timespec]

    The C type [double] as IEEE binary64 ([SpecFloat] at precision 53), with the
    conversions the sources use, and the clock values of [<time.h>]. Used by the
    sequencers of [rtos_rte_cp/sequencer_generic] and the clock programs. *)

From S2P Require Import Prelude.
From Stdlib Require Import SpecFloat.
Local Open Scope Z_scope.

Definition double : Type := spec_float.
Definition d_prec : Z := 53.
Definition d_emax : Z := 1024.

(** Conversion from an integer type, rounding to nearest. *)
Definition d_of_int (z : Z) : double := binary_normalize d_prec d_emax z 0 false.
Definition d_add : double -> double -> double := SFadd d_prec d_emax.
Definition d_sub : double -> double -> double := SFsub d_prec d_emax.
Definition d_mul : double -> double -> double := SFmul d_prec d_emax.
Definition d_div : double -> double -> double := SFdiv d_prec d_emax.
Definition d_gt (x y : double) : bool := SFltb y x.

(** Conversion to [long]: truncation towards zero; undefined for a value out of
    the range of the type and for infinities and NaN. *)
Definition d_trunc (x : double) : option Z :=
  match x with
  | S754_zero _ => Some 0
  | S754_finite sign m e =>
      let v := if 0 <=? e then Z.pos m * 2 ^ e else Z.pos m / 2 ^ (- e) in
      Some (if sign then - v else v)
  | _ => None
  end.
Definition c_long_of_double {S} (x : double) : C S Z :=
  match d_trunc x with
  | Some z => if in_i64 z then c_ret z else c_undefined BadConversion
  | None => c_undefined BadConversion
  end.

(** ** Clock values *)
Record timespec := mk_timespec { tv_sec : Z; tv_nsec : Z }.

#[global] Instance timespec_eq_dec : EqDecision timespec.
Proof. solve_decision. Defined.

Definition NANOSEC_PER_SEC : Z := 1000000000.

(** The clock value in nanoseconds, and what the kernel's clocks return. *)
Definition nanos (t : timespec) : Z := tv_sec t * NANOSEC_PER_SEC + tv_nsec t.
Definition normalized (t : timespec) : Prop := 0 <= tv_nsec t < NANOSEC_PER_SEC.

Lemma nanos_inj t1 t2 : normalized t1 -> normalized t2 -> nanos t1 = nanos t2 -> t1 = t2.
Proof.
  destruct t1 as [s1 n1], t2 as [s2 n2]. unfold normalized, nanos, NANOSEC_PER_SEC. simpl.
  intros H1 H2 H. assert (s1 = s2) by lia. subst. f_equal. lia.
Qed.

Lemma nanos_lt t1 t2 : normalized t1 -> normalized t2 ->
  (nanos t1 < nanos t2 <->
     tv_sec t1 < tv_sec t2 \/ (tv_sec t1 = tv_sec t2 /\ tv_nsec t1 < tv_nsec t2)).
Proof. unfold normalized, nanos, NANOSEC_PER_SEC. lia. Qed.
