(* ===== verification/Sequencer.v ===== *)
(** * What the four sequencers share

    The programs of [rtos_rte_cp/sequencer_generic] ([seqgen.c], [seqgen2.c],
    [seqgen3.c], [seqgenex0.c]) release service threads by posting a semaphore
    per service at a sub-rate of their own cycle, and shut the services down by a
    last post of each semaphore followed by setting each abort flag. What a
    sequencer does to the other threads is the list of its actions on these
    shared objects, in program order. This file holds the sequencer's state, the
    interface [ReleaseTable] a program's release code meets, and the lemmas on
    release counts proved against that interface. *)

From S2P Require Import Prelude.
Local Open Scope Z_scope.
Local Open Scope c_scope.

(** ** Shared actions: [sem_post(&semSk)], [abortSk = TRUE], and zeroing the
    interval timer. Services are numbered from 0, [semS1] being semaphore 0. *)
Inductive action := Post (k : nat) | SetAbort (k : nat) | DisarmTimer.

#[global] Instance action_eq_dec : EqDecision action.
Proof. solve_decision. Defined.

(** ** State of a sequencer: its cycle counter ([unsigned long long]), the global
    [abortTest], how many sleeps and clock readings it has made (they index the
    environment's answers), and the actions so far. *)
Record seq_state := mk_seq {
  seqCnt : Z;
  abortTest : bool;
  sleeps : nat;
  reads : nat;
  actions : list action
}.

Definition emits (l : list action) (s : seq_state) : seq_state :=
  mk_seq (seqCnt s) (abortTest s) (sleeps s) (reads s) (actions s ++ l).
Definition set_seqCnt (n : Z) (s : seq_state) : seq_state :=
  mk_seq n (abortTest s) (sleeps s) (reads s) (actions s).
Definition slept (s : seq_state) : seq_state :=
  mk_seq (seqCnt s) (abortTest s) (S (sleeps s)) (reads s) (actions s).
Definition clock_read (s : seq_state) : seq_state :=
  mk_seq (seqCnt s) (abortTest s) (sleeps s) (S (reads s)) (actions s).

Definition sem_post (k : nat) : C seq_state unit := c_modify (emits [Post k]).
Definition set_abort (k : nat) : C seq_state unit := c_modify (emits [SetAbort k]).

(** A blocking call: the environment's answer to the next one. *)
Definition next_sleep {R} (answers : nat -> R) : C seq_state R :=
  let* s := c_get in c_modify slept ;; c_ret (answers (sleeps s)).
Definition next_read {R} (clock : nat -> R) : C seq_state R :=
  let* s := c_get in c_modify clock_read ;; c_ret (clock (reads s)).

Definition initial (ab : bool) : seq_state := mk_seq 0 ab 0 0 [].

(** ** Specification of releases

    [released ps n]: the posts of cycle [n] when service [k] is released every
    [p] cycles, [nth k ps = Some p] ([None]: never). *)
Fixpoint released_from (k : nat) (ps : list (option Z)) (n : Z) : list action :=
  match ps with
  | [] => []
  | o :: ps' =>
      (match o with Some p => if n mod p =? 0 then [Post k] else [] | None => [] end)
        ++ released_from (S k) ps' n
  end.
Definition released := released_from 0.

(** The actions of [n] cycles, the first numbered [lo]. *)
Definition cycles (ps : list (option Z)) (lo n : Z) : list action :=
  concat (released ps <$> seqZ lo n).

(** The shutdown of [m] services. *)
Definition shutdown (m : nat) : list action := (Post <$> seq 0 m) ++ (SetAbort <$> seq 0 m).

Definition posts (k : nat) (l : list action) : Z :=
  Z.of_nat (length (filter (fun a => a = Post k) l)).

(** How many multiples of [p] there are among [lo .. lo + n - 1]. *)
Definition multiples (p lo n : Z) : Z := (lo + n - 1) / p - (lo - 1) / p.

(** How many cycles [do ... while (!abortTest && seqCnt < N)] makes. *)
Definition cycle_count (ab : bool) (N : Z) : Z := if ab then 1 else Z.max 1 N.

(** The state after [i] cycles, the first numbered [lo], one sleep each. *)
Definition after_cycles (ps : list (option Z)) (ab : bool) (lo : Z) (rd : Z -> nat) (i : Z) : seq_state :=
  mk_seq i ab (Z.to_nat i) (rd i) (cycles ps lo i).

(** ** The interface between a program and the results below *)
Class ReleaseTable := {
  periods : list (option Z);
  release : Z -> C seq_state unit;
  periods_positive : Forall (fun o => forall p, o = Some p -> 0 < p) periods;
  release_spec : forall n s, runs (release n) s tt (emits (released periods n) s)
}.

(** ** Lemmas *)

Lemma emits_emits l1 l2 s : emits l2 (emits l1 s) = emits (l1 ++ l2) s.
Proof. unfold emits. simpl. by rewrite app_assoc. Qed.
Lemma emits_nil s : emits [] s = s.
Proof. unfold emits. rewrite app_nil_r. by destruct s. Qed.

Lemma next_sleep_runs {R} (answers : nat -> R) s :
  runs (next_sleep answers) s (answers (sleeps s)) (slept s).
Proof. reflexivity. Qed.
Lemma next_read_runs {R} (clock : nat -> R) s :
  runs (next_read clock) s (clock (reads s)) (clock_read s).
Proof. reflexivity. Qed.
#[export] Hint Resolve next_sleep_runs next_read_runs : c_runs.

(** A release written as one conditional post per service. *)
Lemma when_post_runs (b : bool) k s :
  runs (c_when b (sem_post k)) s tt (emits (if b then [Post k] else []) s).
Proof. destruct b; [reflexivity|]. rewrite emits_nil. apply runs_ret. Qed.

Ltac release_steps :=
  repeat (eapply runs_bind; [apply when_post_runs|]);
  etransitivity; [apply when_post_runs|];
  rewrite !emits_emits; unfold released; cbn [released_from];
  rewrite <- ?app_assoc, ?app_nil_r; reflexivity.

(** A shutdown written as one post and one flag per service. *)
Ltac shutdown_steps def :=
  unfold def, sem_post, set_abort;
  repeat (eapply runs_bind; [apply runs_modify|]); etransitivity; [apply runs_modify|];
  rewrite !emits_emits; reflexivity.

(** *** A [do ... while] loop that counts its cycles *)
Lemma do_while_counted {S} (body : C S bool) (st : Z -> S) (hi : Z) n : forall lo fuel,
  (forall i, lo <= i < hi -> runs body (st i) (i + 1 <? hi) (st (i + 1))) ->
  hi - lo = Z.of_nat (Datatypes.S n) -> (n < fuel)%nat ->
  runs (c_do_while fuel body) (st lo) tt (st hi).
Proof.
  induction n as [|n IH]; intros lo fuel Hb Hn Hf; (destruct fuel as [|fuel]; [lia|]); simpl.
  - eapply runs_bind; [apply Hb; lia|]. destruct (Z.ltb_spec (lo + 1) hi); [lia|].
    replace hi with (lo + 1) by lia. apply runs_ret.
  - eapply runs_bind; [apply Hb; lia|]. destruct (Z.ltb_spec (lo + 1) hi); [|lia].
    apply IH; [|lia|lia]. intros i Hi. apply Hb. lia.
Qed.

(** A loop one of whose cycles leaves the process. *)
Lemma do_while_exits {S} (body : C S bool) (st : Z -> S) (j : Z) n s' m : forall lo fuel,
  (forall i, lo <= i < j -> runs body (st i) true (st (i + 1))) ->
  body (st j) = (Exit n, s') -> j - lo = Z.of_nat m -> (m < fuel)%nat ->
  c_do_while fuel body (st lo) = (Exit n, s').
Proof.
  induction m as [|m IH]; intros lo fuel Hb Hj Hm Hf; (destruct fuel as [|fuel]; [lia|]); simpl.
  - unfold c_bind. replace lo with j by lia. by rewrite Hj.
  - rewrite (bind_runs _ _ _ _ _ (Hb lo ltac:(lia))).
    apply IH; [|done|lia|lia]. intros i Hi. apply Hb. lia.
Qed.

Lemma again_flag ab N i : 0 <= i < cycle_count ab N ->
  (negb ab && (i + 1 <? N)) = (i + 1 <? cycle_count ab N).
Proof. unfold cycle_count. destruct ab; simpl; intros Hi; repeat case_bool; (done || lia). Qed.

Lemma cycle_count_u64 ab N : is_u64 N -> 1 <= cycle_count ab N < 2 ^ 64.
Proof. unfold is_u64, cycle_count. destruct ab; lia. Qed.

(** A sequencer's main loop, given what one cycle does. *)
Lemma sequencer_loop (body : C seq_state bool) ps ab lo rd N fuel :
  is_u64 N -> (Z.to_nat (cycle_count ab N) <= fuel)%nat ->
  (forall i, 0 <= i < cycle_count ab N ->
     runs body (after_cycles ps ab lo rd i) (negb ab && (i + 1 <? N)) (after_cycles ps ab lo rd (i + 1))) ->
  runs (c_do_while fuel body) (after_cycles ps ab lo rd 0) tt
    (after_cycles ps ab lo rd (cycle_count ab N)).
Proof.
  intros HN Hfuel Hb. pose proof (cycle_count_u64 ab N HN) as Hc.
  apply (do_while_counted body (after_cycles ps ab lo rd) _ (Z.to_nat (cycle_count ab N - 1))); [|lia..].
  intros i Hi. rewrite <- again_flag by lia. apply Hb. lia.
Qed.

(** *** Counting *)
Lemma posts_app k l1 l2 : posts k (l1 ++ l2) = posts k l1 + posts k l2.
Proof. unfold posts. rewrite filter_app, length_app. lia. Qed.

Lemma posts_nonneg k l : 0 <= posts k l.
Proof. unfold posts. lia. Qed.

Lemma posts_released_from k ps n : forall j,
  posts k (released_from j ps n) =
    match (if decide (j <= k)%nat then ps !! (k - j)%nat else None) with
    | Some (Some p) => if n mod p =? 0 then 1 else 0
    | _ => 0
    end.
Proof.
  induction ps as [|o ps IH]; intros j; simpl; [by case_decide|].
  rewrite posts_app, IH. destruct (decide (j = k)) as [->|Hne].
  - rewrite decide_False by lia. rewrite decide_True by lia. rewrite Nat.sub_diag. simpl.
    destruct o as [p|]; [|done]. destruct (n mod p =? 0); [|done].
    unfold posts. rewrite filter_cons_True by done. done.
  - assert (E : posts k match o with
                        | Some p => if n mod p =? 0 then [Post j] else [] | None => [] end = 0).
    { destruct o as [p|]; [|done]. destruct (n mod p =? 0); [|done].
      unfold posts. rewrite filter_cons_False; [done|congruence]. }
    rewrite E. repeat case_decide; try lia. by replace (k - j)%nat with (S (k - S j)) by lia.
Qed.

Lemma multiples_succ p lo n : 0 < p -> 0 <= n ->
  multiples p lo (n + 1) = multiples p lo n + (if (lo + n) mod p =? 0 then 1 else 0).
Proof.
  intros Hp Hn. unfold multiples. replace (lo + (n + 1) - 1) with (lo + n) by lia.
  set (m := lo + n). pose proof (Z.div_mod m p ltac:(lia)).
  pose proof (Z.mod_pos_bound m p Hp). destruct (Z.eqb_spec (m mod p) 0).
  - rewrite <- (Z.div_unique (m - 1) p (m / p - 1) (p - 1)) by lia. lia.
  - rewrite <- (Z.div_unique (m - 1) p (m / p) (m mod p - 1)) by lia. lia.
Qed.

Lemma cycles_succ ps lo n : 0 <= n -> cycles ps lo (n + 1) = cycles ps lo n ++ released ps (lo + n).
Proof.
  intros Hn. unfold cycles. rewrite seqZ_app by lia.
  assert (E : seqZ (lo + n) 1 = [lo + n]) by (rewrite seqZ_cons by lia; done).
  rewrite E, fmap_app, concat_app. simpl. by rewrite app_nil_r.
Qed.

(** The number of releases of a service in [n] cycles. *)
Lemma posts_cycles ps lo k p (n : nat) : ps !! k = Some (Some p) -> 0 < p ->
  posts k (cycles ps lo (Z.of_nat n)) = multiples p lo (Z.of_nat n).
Proof.
  intros Hk Hp. induction n as [|n IH].
  - unfold multiples. replace (lo + Z.of_nat 0 - 1) with (lo - 1) by lia. rewrite Z.sub_diag. done.
  - replace (Z.of_nat (S n)) with (Z.of_nat n + 1) by lia.
    rewrite cycles_succ, posts_app, IH, multiples_succ by lia. f_equal.
    unfold released. rewrite posts_released_from, decide_True, Nat.sub_0_r, Hk by lia. done.
Qed.

Lemma posts_cycles_never ps lo k (n : nat) : ps !! k = Some None ->
  posts k (cycles ps lo (Z.of_nat n)) = 0.
Proof.
  intros Hk. induction n as [|n IH]; [done|].
  replace (Z.of_nat (S n)) with (Z.of_nat n + 1) by lia.
  rewrite cycles_succ, posts_app, IH by lia.
  unfold released. by rewrite posts_released_from, decide_True, Nat.sub_0_r, Hk by lia.
Qed.

Lemma posts_cons k a l : posts k (a :: l) = (if decide (a = Post k) then 1 else 0) + posts k l.
Proof. unfold posts. rewrite filter_cons. case_decide; simpl; lia. Qed.

Lemma posts_aborts k j m : posts k (SetAbort <$> seq j m) = 0.
Proof. revert j. induction m as [|m IH]; intros j; [done|]. simpl. by rewrite posts_cons, IH. Qed.

Lemma posts_posts k j m :
  posts k (Post <$> seq j m) = if decide (j <= k < j + m)%nat then 1 else 0.
Proof.
  revert j. induction m as [|m IH]; intros j; simpl.
  - case_decide; [lia|done].
  - rewrite posts_cons, IH. destruct (decide (j = k)) as [->|Hne].
    + rewrite decide_True by done. repeat case_decide; lia.
    + rewrite decide_False by congruence. repeat case_decide; lia.
Qed.

Lemma posts_shutdown k m : (k < m)%nat -> posts k (shutdown m) = 1.
Proof.
  intros Hk. unfold shutdown. rewrite posts_app, posts_aborts, posts_posts, decide_True by lia. lia.
Qed.

Lemma posts_snoc k l a : posts k (l ++ [a]) = posts k l + (if decide (a = Post k) then 1 else 0).
Proof. rewrite posts_app, posts_cons. change (posts k []) with 0. lia. Qed.

Lemma cycles_0 ps lo : cycles ps lo 0 = [].
Proof. done. Qed.

(** ** Results about any program that meets the interface *)
Section client.
Context `{ReleaseTable}.

(** Counting a cycle, releasing the services of that cycle, and deciding whether
    to go on: the part of the main loop the thread sequencers share. *)
Lemma count_and_release_runs ab N rd i : is_u64 N -> 0 <= i < cycle_count ab N ->
  runs (let* s := c_get in
        c_modify (set_seqCnt (u64 (seqCnt s + 1))) ;;
        let* s := c_get in
        release (seqCnt s) ;;
        let* s := c_get in
        c_ret (negb (abortTest s) && (seqCnt s <? N)))
    (slept (after_cycles periods ab 1 rd i))
    (negb ab && (i + 1 <? N))
    (mk_seq (i + 1) ab (Z.to_nat (i + 1)) (rd i) (cycles periods 1 (i + 1))).
Proof.
  intros HN Hi. pose proof (cycle_count_u64 ab N HN) as Hc.
  eapply runs_bind; [apply runs_get|]. eapply runs_bind; [apply runs_modify|].
  eapply runs_bind; [apply runs_get|].
  cbn [seqCnt set_seqCnt slept after_cycles]. rewrite u64_small by (unfold is_u64; lia).
  eapply runs_bind; [apply release_spec|]. eapply runs_bind; [apply runs_get|].
  unfold after_cycles, set_seqCnt, slept, emits. cbn.
  rewrite cycles_succ by lia. replace (1 + i) with (i + 1) by lia.
  replace (Z.to_nat (i + 1)) with (S (Z.to_nat i)) by lia. apply runs_ret.
Qed.

(** How often a service is released by [n] cycles numbered from 1 and the
    shutdown of [m] services: once every [p] cycles, and once to shut down. *)
Lemma posts_run k p (n : nat) m : periods !! k = Some (Some p) -> (k < m)%nat ->
  posts k (cycles periods 1 (Z.of_nat n) ++ shutdown m) = Z.of_nat n / p + 1.
Proof.
  intros Hk Hm. pose proof (Forall_lookup_1 _ _ _ _ periods_positive Hk p eq_refl) as Hp.
  rewrite posts_app, (posts_cycles _ _ _ p), posts_shutdown by done.
  unfold multiples. replace (1 + Z.of_nat n - 1) with (Z.of_nat n) by lia.
  rewrite (Z.div_small (1 - 1)) by lia. lia.
Qed.

Lemma released_no_abort j ps n k : ~ SetAbort k ∈ released_from j ps n.
Proof.
  revert j. induction ps as [|o ps IH]; intros j; simpl; [apply not_elem_of_nil|].
  rewrite elem_of_app. intros [Hin|Hin]; [|by eapply IH].
  destruct o as [p|]; [|by apply elem_of_nil in Hin].
  destruct (n mod p =? 0); [|by apply elem_of_nil in Hin]. by apply list_elem_of_singleton in Hin.
Qed.

Lemma cycles_no_abort ps lo n k : ~ SetAbort k ∈ cycles ps lo n.
Proof.
  unfold cycles. rewrite list_elem_of_In, in_concat. intros (l & Hl & Hin).
  apply list_elem_of_In, list_elem_of_fmap in Hl as (i & -> & _).
  apply list_elem_of_In in Hin. by eapply released_no_abort.
Qed.
End client.
