(* ===== verification/Services.v ===== *)
(** * Sequencer and service threads running concurrently

    Every service thread of [rtos_rte_cp/sequencer_generic] has the same text:
    test its abort flag, wait on its semaphore, count and log the release, and go
    round; it differs from the others in the flag, the semaphore and the log
    message. The threads interleave with the actions of the sequencer
    ([Sequencer.action]) one shared access at a time. *)

From S2P Require Import Prelude Sequencer.
Local Open Scope Z_scope.

(** ** The text of a service: [abortSk], [semSk], and what it logs *)
Record service := mk_service { sv_abort : nat; sv_sem : nat; sv_label : string }.

Inductive pc := AtCheck | AtWait | AtWork | Exited.
#[global] Instance pc_eq_dec : EqDecision pc.
Proof. solve_decision. Defined.

Record thread := mk_thread { th_service : service; th_pc : pc; th_cnt : Z }.

(** ** The whole program: what the sequencer has still to do, the semaphores, the
    abort flags, the service threads and the system log *)
Record system := mk_system {
  todo : list action;
  sems : list Z;
  abort_flags : list bool;
  threads : list thread;
  syslog : list (string * Z)
}.

(** POSIX [sem_post]: fails with [EOVERFLOW] at the maximal value; none of the
    callers looks at the result. *)
Definition SEM_VALUE_MAX : Z := 2147483647.
Definition sem_up (v : Z) : Z := if v <? SEM_VALUE_MAX then v + 1 else v.

Definition perform (a : action) (s : system) : system :=
  match a with
  | Post k => mk_system (todo s) (alter sem_up k (sems s)) (abort_flags s) (threads s) (syslog s)
  | SetAbort k => mk_system (todo s) (sems s) (<[k := true]> (abort_flags s)) (threads s) (syslog s)
  | DisarmTimer => s
  end.

Definition step_sequencer (s : system) : option system :=
  match todo s with
  | [] => None
  | a :: rest => Some (perform a (mk_system rest (sems s) (abort_flags s) (threads s) (syslog s)))
  end.

Definition set_thread (i : nat) (th : thread) (s : system) : system :=
  mk_system (todo s) (sems s) (abort_flags s) (<[i := th]> (threads s)) (syslog s).

(** One shared access of service thread [i]; [None] when it is blocked or gone. *)
Definition step_thread (i : nat) (s : system) : option system :=
  match threads s !! i with
  | None => None
  | Some (mk_thread sv p cnt) =>
      match p with
      | AtCheck =>
          match abort_flags s !! sv_abort sv with
          | None => None
          | Some flag => Some (set_thread i (mk_thread sv (if flag : bool then Exited else AtWait) cnt) s)
          end
      | AtWait =>
          match sems s !! sv_sem sv with
          | None => None
          | Some v =>
              if 0 <? v then
                Some (mk_system (todo s) (<[sv_sem sv := v - 1]> (sems s)) (abort_flags s)
                        (<[i := mk_thread sv AtWork cnt]> (threads s)) (syslog s))
              else None
          end
      | AtWork =>
          let cnt' := u64 (cnt + 1) in
          Some (mk_system (todo s) (sems s) (abort_flags s)
                  (<[i := mk_thread sv AtCheck cnt']> (threads s)) (syslog s ++ [(sv_label sv, cnt')]))
      | Exited => None
      end
  end.

Inductive step : system -> system -> Prop :=
  | step_by_sequencer s s' : step_sequencer s = Some s' -> step s s'
  | step_by_thread i s s' : step_thread i s = Some s' -> step s s'.

(** The state in which [pthread_create] leaves the services: semaphores at 0,
    flags down, and the sequencer about to perform [acts]. *)
Definition start (svs : list service) (acts : list action) : system :=
  mk_system acts (replicate (length svs) 0) (replicate (length svs) false)
    ((fun sv => mk_thread sv AtCheck 0) <$> svs) [].

(** Each service waits on its own semaphore and tests its own flag. *)
Definition services_ok (svs : list service) : Prop :=
  forall i sv, svs !! i = Some sv -> sv_sem sv = i /\ sv_abort sv = i.

(** ** Specification *)

(** Releases a thread has taken from its semaphore. *)
Definition taken (th : thread) : Z :=
  th_cnt th + match th_pc th with AtWork => 1 | _ => 0 end.

(** Upper bound on the steps left: [Post] pays for the round it lets a service do. *)
Definition action_weight (a : action) : Z := match a with Post _ => 4 | _ => 1 end.
Definition pc_weight (p : pc) : Z :=
  match p with AtCheck => 2 | AtWait => 1 | AtWork => 3 | Exited => 0 end.
Definition steps_left (s : system) : Z :=
  sumZ (action_weight <$> todo s) + 3 * sumZ (sems s) + sumZ ((fun th => pc_weight (th_pc th)) <$> threads s).

(** The sequencer runs [l] without being interrupted. *)
Definition perform_all (l : list action) (s : system) : system := foldl (fun s a => perform a s) s l.

Definition all_exited (s : system) : Prop := Forall (fun th => th_pc th = Exited) (threads s).

(** The sequencer's program replaced. *)
Definition with_todo (l : list action) (s : system) : system :=
  mk_system l (sems s) (abort_flags s) (threads s) (syslog s).

(** Every thread's flag is up, and a thread that waits can be woken. *)
Record winding_down (s : system) : Prop := mk_winding_down {
  wd_todo : todo s = [];
  wd_thread : forall i th, threads s !! i = Some th ->
    sv_sem (th_service th) = i /\ sv_abort (th_service th) = i /\
    abort_flags s !! i = Some true /\
    exists v, sems s !! i = Some v /\ 0 <= v /\ (th_pc th = AtWait -> 0 < v)
}.

(** Thread [i] waits on an empty semaphore nobody will post. *)
Record blocked (i : nat) (s : system) : Prop := mk_blocked {
  bl_todo : todo s = [];
  bl_thread : exists sv cnt, threads s !! i = Some (mk_thread sv AtWait cnt);
  bl_sem : sems s !! i = Some 0;
  bl_services : forall j th, threads s !! j = Some th -> sv_sem (th_service th) = j
}.

(** What stays true along every execution from [start svs acts]. *)
Record sys_inv (svs : list service) (acts : list action) (s : system) : Prop := mk_sys_inv {
  inv_done : exists done, acts = done ++ todo s /\
    forall i th, threads s !! i = Some th -> exists v,
      sems s !! i = Some v /\ 0 <= v /\ 0 <= th_cnt th /\ v + taken th = posts i done;
  inv_services : th_service <$> threads s = svs;
  inv_flags : length (abort_flags s) = length svs;
  inv_sems : length (sems s) = length svs
}.

(** Two services, the first released once before the shutdown, for the witnesses. *)
Definition demo_services : list service := [mk_service 0 0 "S1"; mk_service 1 1 "S2"].
Definition demo_acts : list action := Post 0 :: shutdown 2.

(** ** Lemmas on the steps *)

(** A step of thread [j] that keeps the sum of its semaphore and what it took. *)
Lemma inv_move svs acts s j th th' v v' lg :
  sys_inv svs acts s -> threads s !! j = Some th -> sems s !! j = Some v ->
  th_service th' = th_service th -> 0 <= v' -> 0 <= th_cnt th' -> v' + taken th' = v + taken th ->
  sys_inv svs acts
    (mk_system (todo s) (<[j := v']> (sems s)) (abort_flags s) (<[j := th']> (threads s)) lg).
Proof.
  intros [(done & Hacts & Hth) Hsv Hfl Hse] Hj Hv Hsvc Hv' Hc' Hsum.
  constructor; simpl; rewrite ?length_insert; try done.
  - exists done. split; [done|]. intros i th0 Hi. destruct (decide (i = j)) as [->|Hne].
    + rewrite list_lookup_insert_eq in Hi by (by eapply lookup_lt_Some). simplify_eq.
      destruct (Hth j th Hj) as (v0 & Hv0 & _ & _ & Heq). simplify_eq. exists v'.
      rewrite list_lookup_insert_eq by (by eapply lookup_lt_Some). split_and!; (done || lia).
    + rewrite list_lookup_insert_ne in Hi by done. rewrite list_lookup_insert_ne by done. by apply Hth.
  - rewrite list_fmap_insert, Hsvc, list_insert_id; [done|].
    by rewrite list_lookup_fmap, Hj.
Qed.

Section invariant.
Context (svs : list service) (acts : list action).
Context (svs_ok : services_ok svs).
Context (few_posts : forall k, (k < length svs)%nat -> posts k acts <= SEM_VALUE_MAX).

Lemma inv_start : sys_inv svs acts (start svs acts).
Proof.
  constructor; simpl.
  - exists []. split; [done|]. intros i th Hth.
    rewrite list_lookup_fmap in Hth. destruct (svs !! i) as [sv|] eqn:E; simplify_eq/=.
    exists 0. split_and!; try done. apply lookup_replicate_2. by eapply lookup_lt_Some.
  - rewrite <- list_fmap_compose. by rewrite list_fmap_id.
  - apply length_replicate.
  - apply length_replicate.
Qed.

Lemma inv_thread_service s i th : sys_inv svs acts s -> threads s !! i = Some th ->
  sv_sem (th_service th) = i /\ sv_abort (th_service th) = i /\ (i < length svs)%nat.
Proof.
  intros Hinv Hth. assert (Hsv : svs !! i = Some (th_service th)).
  { rewrite <- (inv_services _ _ _ Hinv), list_lookup_fmap, Hth. done. }
  destruct (svs_ok i _ Hsv). apply lookup_lt_Some in Hsv. done.
Qed.

Lemma inv_sequencer s s' : sys_inv svs acts s -> step_sequencer s = Some s' -> sys_inv svs acts s'.
Proof.
  intros Hinv Hstep. pose proof (inv_thread_service s) as Hsvc.
  destruct Hinv as [(done & Hacts & Hth) Hsv Hfl Hse] eqn:E. clear E.
  unfold step_sequencer in Hstep. destruct (todo s) as [|a rest] eqn:Htodo; [done|].
  injection Hstep as <-.
  assert (Hdone : acts = (done ++ [a]) ++ rest) by (by rewrite <- app_assoc).
  destruct a as [k|k|]; simpl; constructor; simpl; rewrite ?length_alter, ?length_insert; try done.
  - exists (done ++ [Post k]). split; [done|]. intros i th Hi.
    destruct (Hth i th Hi) as (v & Hv & Hpos & Hcnt & Heq). destruct (Hsvc i th Hinv Hi) as (_&_&Hlt).
    pose proof (few_posts i Hlt) as Hfew. rewrite Hdone, posts_app, posts_snoc in Hfew.
    rewrite posts_snoc. pose proof (posts_nonneg i rest).
    destruct (decide (Post k = Post i)) as [Hk|Hne].
    + injection Hk as ->.
      assert (Hup : sem_up v = v + 1).
      { unfold sem_up, taken in *. destruct (Z.ltb_spec v SEM_VALUE_MAX); [done|].
        exfalso. destruct (th_pc th); lia. }
      exists (v + 1). rewrite list_lookup_alter_eq, Hv. simpl. rewrite Hup. split_and!; (done || lia).
    + exists v. rewrite list_lookup_alter_ne by congruence. split_and!; (done || lia).
  - exists (done ++ [SetAbort k]). split; [done|]. intros i th Hi.
    destruct (Hth i th Hi) as (v & Hv & Hpos & Hcnt & Heq). exists v.
    rewrite posts_snoc, decide_False by done. split_and!; (done || lia).
  - exists (done ++ [DisarmTimer]). split; [done|]. intros i th Hi.
    destruct (Hth i th Hi) as (v & Hv & Hpos & Hcnt & Heq). exists v.
    rewrite posts_snoc, decide_False by done. split_and!; (done || lia).
Qed.

Lemma inv_thread s s' j : sys_inv svs acts s -> step_thread j s = Some s' -> sys_inv svs acts s'.
Proof.
  intros Hinv Hstep. unfold step_thread in Hstep.
  destruct (threads s !! j) as [[sv p cnt]|] eqn:Hj; [|done].
  destruct (inv_thread_service s j _ Hinv Hj) as (Hsem & Hab & Hlt). simpl in Hsem, Hab.
  pose proof Hinv as [(done & Hacts & Hth) _ _ Hse].
  destruct (Hth j _ Hj) as (v & Hv & Hpos & Hcnt & Heq). clear Hth. unfold taken in Heq.
  cbn [th_cnt th_pc] in Hcnt, Heq.
  assert (Hid : <[j := v]> (sems s) = sems s) by (by apply list_insert_id).
  destruct p; cbn iota in Hstep, Heq.
  - destruct (abort_flags s !! sv_abort sv) as [flag|]; [|done]. injection Hstep as <-.
    unfold set_thread. rewrite <- Hid.
    eapply inv_move; try done. unfold taken; simpl. by destruct flag.
  - rewrite Hsem, Hv in Hstep. destruct (Z.ltb_spec 0 v); [|done]. injection Hstep as <-.
    eapply inv_move; try done; unfold taken; simpl; lia.
  - injection Hstep as <-. rewrite <- Hid.
    assert (Hsmall : u64 (cnt + 1) = cnt + 1).
    { apply u64_small. pose proof (few_posts j Hlt) as Hf. rewrite Hacts, posts_app in Hf.
      pose proof (posts_nonneg j (todo s)). unfold is_u64, SEM_VALUE_MAX in *. lia. }
    rewrite Hsmall. eapply inv_move; try done; unfold taken; simpl; lia.
  - done.
Qed.

Lemma inv_reachable s : rtc step (start svs acts) s -> sys_inv svs acts s.
Proof.
  intros Hsteps. assert (H0 := inv_start). revert H0.
  induction Hsteps as [|s1 s2 s3 Hs _ IH]; intros H0; [done|]. apply IH.
  destruct Hs; eauto using inv_sequencer, inv_thread.
Qed.
End invariant.

(** ** Termination: every step uses up [steps_left] *)

Lemma sumZ_alter_up (l : list Z) k : sumZ l <= sumZ (alter sem_up k l) <= sumZ l + 1.
Proof.
  revert k. induction l as [|z l IH]; intros [|k]; [simpl; lia..| |].
  - change (alter sem_up 0%nat (z :: l)) with (sem_up z :: l). rewrite !sumZ_cons.
    unfold sem_up. case_bool; lia.
  - change (alter sem_up (S k) (z :: l)) with (z :: alter sem_up k l). rewrite !sumZ_cons.
    specialize (IH k). lia.
Qed.

Lemma step_decreases s s' : step s s' -> steps_left s' < steps_left s.
Proof.
  intros Hstep. unfold steps_left. destruct Hstep as [s1 s2 Hs|i s1 s2 Hs].
  - unfold step_sequencer in Hs. destruct (todo s1) as [|a rest] eqn:E; simplify_eq.
    rewrite fmap_cons, sumZ_cons. pose proof (sumZ_alter_up (sems s1)) as Hup.
    destruct a as [k|k|]; simpl; [specialize (Hup k)|..]; lia.
  - unfold step_thread in Hs. destruct (threads s1 !! i) as [[sv p cnt]|] eqn:Hi; [|done].
    assert (Hw : ((fun th => pc_weight (th_pc th)) <$> threads s1) !! i = Some (pc_weight p))
      by (by rewrite list_lookup_fmap, Hi).
    destruct p; simpl in *.
    + destruct (abort_flags s1 !! sv_abort sv) as [flag|]; simplify_eq. simpl.
      rewrite list_fmap_insert, (sumZ_insert _ i _ _ Hw). destruct flag; simpl; lia.
    + destruct (sems s1 !! sv_sem sv) as [v|] eqn:Hv; [|done].
      destruct (Z.ltb_spec 0 v); simplify_eq. simpl.
      rewrite list_fmap_insert, (sumZ_insert _ i _ _ Hw), (sumZ_insert _ _ _ _ Hv). simpl. lia.
    + simplify_eq. simpl. rewrite list_fmap_insert, (sumZ_insert _ i _ _ Hw). simpl. lia.
    + done.
Qed.

Lemma nonneg_step s s' : Forall (fun v => 0 <= v) (sems s) -> step s s' -> Forall (fun v => 0 <= v) (sems s').
Proof.
  intros Hs Hstep. destruct Hstep as [s1 s2 E|i s1 s2 E].
  - unfold step_sequencer in E. destruct (todo s1) as [|a rest]; simplify_eq.
    destruct a as [k|k|]; simpl; try done. apply Forall_alter; [done|].
    intros v _ Hv. unfold sem_up. case_bool; lia.
  - unfold step_thread in E. destruct (threads s1 !! i) as [[sv p cnt]|]; [|done].
    destruct p; simplify_eq; try done.
    + destruct (abort_flags s1 !! sv_abort sv); by simplify_eq.
    + destruct (sems s1 !! sv_sem sv) as [v|]; [|done]. destruct (Z.ltb_spec 0 v); simplify_eq.
      simpl. apply Forall_set; [done|lia].
Qed.

Lemma steps_left_nonneg s : Forall (fun v => 0 <= v) (sems s) -> 0 <= steps_left s.
Proof.
  intros Hs. unfold steps_left. pose proof (sumZ_nonneg _ Hs).
  assert (0 <= sumZ (action_weight <$> todo s)).
  { apply sumZ_nonneg, Forall_fmap, Forall_true. by intros [| |]. }
  assert (0 <= sumZ ((fun th => pc_weight (th_pc th)) <$> threads s)).
  { apply sumZ_nonneg, Forall_fmap, Forall_true. by intros [? [] ?]. }
  lia.
Qed.

Lemma nsteps_bounded n s s' : Forall (fun v => 0 <= v) (sems s) -> nsteps step n s s' ->
  Z.of_nat n <= steps_left s.
Proof.
  intros Hs Hn. revert Hs. induction Hn as [s|n s1 s2 s3 Hstep _ IH]; intros Hs.
  - by apply steps_left_nonneg.
  - pose proof (step_decreases _ _ Hstep). specialize (IH (nonneg_step _ _ Hs Hstep)). lia.
Qed.

(** ** The sequencer on its own *)
Lemma perform_todo a s : todo (perform a s) = todo s.
Proof. by destruct a. Qed.
Lemma perform_threads a s : threads (perform a s) = threads s.
Proof. by destruct a. Qed.

Lemma perform_all_todo l s : todo (perform_all l s) = todo s /\ threads (perform_all l s) = threads s.
Proof.
  revert s. induction l as [|a l IH]; intros s; [done|]. simpl.
  destruct (IH (perform a s)) as [-> ->]. by rewrite perform_todo, perform_threads.
Qed.

Lemma perform_all_steps l rest s :
  todo s = l ++ rest -> rtc step s (perform_all l (with_todo rest s)).
Proof.
  revert s. induction l as [|a l IH]; intros s Ht.
  - simpl in *. replace (with_todo rest s) with s; [apply rtc_refl|]. unfold with_todo. rewrite <- Ht.
    by destruct s.
  - eapply rtc_l; [apply step_by_sequencer; unfold step_sequencer; rewrite Ht; reflexivity|].
    assert (E : perform_all (a :: l) (with_todo rest s) =
                perform_all l (with_todo rest (perform a (with_todo (l ++ rest) s))))
      by (by destruct a).
    rewrite E. apply IH. by rewrite perform_todo.
Qed.

Lemma sem_up_bounds v : 0 <= v -> v <= sem_up v /\ 0 < sem_up v.
Proof. intros Hv. unfold sem_up, SEM_VALUE_MAX. case_bool; lia. Qed.

Lemma perform_all_sem l s i v : sems s !! i = Some v -> 0 <= v ->
  exists v', sems (perform_all l s) !! i = Some v' /\ v <= v' /\ (Post i ∈ l -> 0 < v').
Proof.
  revert s v. induction l as [|a l IH]; intros s v Hv Hpos.
  - exists v. split_and!; [done|lia|]. by intros H%elem_of_nil.
  - assert (Ha : exists v1, sems (perform a s) !! i = Some v1 /\ v <= v1 /\ (a = Post i -> 0 < v1)).
    { destruct a as [k|k|]; simpl; [|exists v; by split_and!..].
      destruct (decide (k = i)) as [->|Hne].
      - destruct (sem_up_bounds v Hpos). exists (sem_up v). by rewrite list_lookup_alter_eq, Hv.
      - exists v. rewrite list_lookup_alter_ne by congruence. split_and!; [done|lia|congruence]. }
    destruct Ha as (v1 & Hv1 & Hle & Hpost).
    destruct (IH (perform a s) v1 Hv1 ltac:(lia)) as (v2 & Hv2 & Hle2 & Hpost2).
    exists v2. split_and!; [done|lia|]. intros [Heq|Hin]%elem_of_cons; [|auto].
    specialize (Hpost (eq_sym Heq)). lia.
Qed.

Lemma perform_all_flag l s i b : abort_flags s !! i = Some b ->
  exists b', abort_flags (perform_all l s) !! i = Some b' /\ (b = true -> b' = true) /\
    (SetAbort i ∈ l -> b' = true) /\ (~ SetAbort i ∈ l -> b' = b).
Proof.
  revert s b. induction l as [|a l IH]; intros s b Hb.
  - exists b. split_and!; [done..| |done]. by intros H%elem_of_nil.
  - assert (Ha : exists b1, abort_flags (perform a s) !! i = Some b1 /\ (b = true -> b1 = true) /\
                   (a = SetAbort i -> b1 = true) /\ (a <> SetAbort i -> b1 = b)).
    { destruct a as [k|k|]; simpl; [by exists b| |by exists b].
      destruct (decide (k = i)) as [->|Hne].
      - exists true. rewrite list_lookup_insert_eq by (by eapply lookup_lt_Some). done.
      - exists b. rewrite list_lookup_insert_ne by done. split_and!; try done. congruence. }
    destruct Ha as (b1 & Hb1 & Hm & Hs & Hn). destruct (IH _ b1 Hb1) as (b2 & Hb2 & Hm2 & Hs2 & Hn2).
    exists b2. split_and!; [done|auto| |].
    + intros [Heq|Hin]%elem_of_cons; auto.
    + intros Hnot. rewrite not_elem_of_cons in Hnot. destruct Hnot as [H1 H2].
      rewrite Hn2 by done. apply Hn. congruence.
Qed.

(** ** After an uninterrupted shutdown *)

(** Only its own thread touches a semaphore, so one thread's move leaves the
    others' obligations alone. *)
Lemma winding_down_move s i th th' v v' lg :
  winding_down s -> threads s !! i = Some th -> sems s !! i = Some v ->
  th_service th' = th_service th -> th_pc th' <> AtWait -> 0 <= v' ->
  winding_down (mk_system (todo s) (<[i := v']> (sems s)) (abort_flags s) (<[i := th']> (threads s)) lg).
Proof.
  intros [Ht Hth] Hi Hv Hsvc Hpc Hv'. constructor; simpl; [done|]. intros j th0 Hj.
  destruct (decide (j = i)) as [->|Hne].
  - rewrite list_lookup_insert_eq in Hj by (by eapply lookup_lt_Some). simplify_eq.
    destruct (Hth i th Hi) as (Hs & Ha & Hf & _). rewrite Hsvc. split_and!; try done.
    exists v'. rewrite list_lookup_insert_eq by (by eapply lookup_lt_Some). done.
  - rewrite list_lookup_insert_ne in Hj by done. rewrite list_lookup_insert_ne by done. by apply Hth.
Qed.

Lemma winding_down_step s s' : winding_down s -> step s s' -> winding_down s'.
Proof.
  intros Hwd Hstep. destruct Hstep as [s1 s2 E|i s1 s2 E].
  - unfold step_sequencer in E. by rewrite (wd_todo _ Hwd) in E.
  - unfold step_thread in E. destruct (threads s1 !! i) as [[sv p cnt]|] eqn:Hi; [|done].
    destruct (wd_thread _ Hwd i _ Hi) as (Hs & Ha & Hf & v & Hv & Hpos & Hw). cbn in Hs, Ha, Hw.
    assert (Hid : <[i := v]> (sems s1) = sems s1) by (by apply list_insert_id).
    destruct p.
    + rewrite Ha, Hf in E. injection E as <-. unfold set_thread. rewrite <- Hid.
      by eapply winding_down_move.
    + rewrite Hs, Hv in E. destruct (Z.ltb_spec 0 v); [|done]. injection E as <-.
      eapply winding_down_move; try done. lia.
    + injection E as <-. rewrite <- Hid. by eapply winding_down_move.
    + done.
Qed.

Lemma winding_down_steps s s' : winding_down s -> rtc step s s' -> winding_down s'.
Proof. intros H Hsteps. induction Hsteps; eauto using winding_down_step. Qed.

Lemma winding_down_progress s : winding_down s -> all_exited s \/ exists s', step s s'.
Proof.
  intros Hwd. destruct (decide (Forall (fun th => th_pc th = Exited) (threads s))) as [H|H]; [by left|].
  right. apply not_Forall_Exists, Exists_exists in H; [|apply _]. destruct H as (th & Hin & Hpc).
  apply list_elem_of_lookup in Hin as [i Hi]. destruct th as [sv p cnt]. simpl in Hpc.
  destruct (wd_thread _ Hwd i _ Hi) as (Hs & Ha & Hf & v & Hv & Hpos & Hw). cbn in Hs, Ha, Hw.
  assert (E : is_Some (step_thread i s)).
  { unfold step_thread. rewrite Hi. destruct p; [rewrite Ha, Hf|rewrite Hs, Hv| |done]; try by eexists.
    specialize (Hw eq_refl). destruct (Z.ltb_spec 0 v); [by eexists|lia]. }
  destruct E as [s' E]. exists s'. by eapply step_by_thread.
Qed.

(** ** The race *)

(** Thread [i] can use up its semaphore and go back to waiting while its abort
    flag is still down. *)
Lemma drain s i sv (n : nat) : forall p cnt,
  threads s !! i = Some (mk_thread sv p cnt) -> p = AtCheck \/ p = AtWait ->
  sv_sem sv = i -> sv_abort sv = i -> abort_flags s !! i = Some false ->
  sems s !! i = Some (Z.of_nat n) ->
  exists s' cnt', rtc step s s' /\ todo s' = todo s /\ abort_flags s' = abort_flags s /\
    threads s' = <[i := mk_thread sv AtWait cnt']> (threads s) /\ sems s' !! i = Some 0.
Proof.
  revert s. induction n as [|n IH]; intros s p cnt Hi Hp Hs Ha Hf Hv.
  all: assert (Hlt : (i < length (threads s))%nat) by (by eapply lookup_lt_Some).
  all: assert (Hslt : (i < length (sems s))%nat) by (by eapply lookup_lt_Some).
  all: assert (Hwait : exists s1, rtc step s s1 /\ todo s1 = todo s /\ abort_flags s1 = abort_flags s /\
    threads s1 = <[i := mk_thread sv AtWait cnt]> (threads s) /\ sems s1 = sems s);
    [destruct Hp as [->| ->];
      [exists (set_thread i (mk_thread sv AtWait cnt) s); split_and!; try done; apply rtc_once;
       eapply step_by_thread; unfold step_thread; rewrite Hi, Ha, Hf; done
      |exists s; split_and!; try done; by rewrite list_insert_id]|].
  all: destruct Hwait as (s1 & Hst1 & Ht1 & Hf1 & Hth1 & Hse1).
  - exists s1, cnt. rewrite Hse1. done.
  - set (s2 := mk_system (todo s1) (<[i := Z.of_nat n]> (sems s1)) (abort_flags s1)
                 (<[i := mk_thread sv AtWork cnt]> (threads s1)) (syslog s1)).
    set (s3 := mk_system (todo s2) (sems s2) (abort_flags s2)
                 (<[i := mk_thread sv AtCheck (u64 (cnt + 1))]> (threads s2))
                 (syslog s2 ++ [(sv_label sv, u64 (cnt + 1))])).
    assert (H12 : step s1 s2).
    { apply (step_by_thread i). unfold step_thread.
      rewrite Hth1, list_lookup_insert_eq, Hs, Hse1, Hv by done.
      destruct (Z.ltb_spec 0 (Z.of_nat (S n))); [|lia].
      unfold s2. rewrite Hth1, Hse1. do 3 f_equal. lia. }
    assert (H23 : step s2 s3).
    { apply (step_by_thread i). unfold step_thread. simpl.
      rewrite Hth1, list_insert_insert_eq, list_lookup_insert_eq by done.
      unfold s3, s2. simpl. by rewrite Hth1, !list_insert_insert_eq. }
    destruct (IH s3 AtCheck (u64 (cnt + 1))) as (s' & cnt' & Hst & Ht & Hf' & Hth & Hse); try done.
    + simpl. rewrite list_lookup_insert_eq; [done|]. by rewrite Hth1, !length_insert.
    + by left.
    + simpl. by rewrite Hf1.
    + simpl. rewrite Hse1, list_lookup_insert_eq by done. done.
    + exists s', cnt'. split_and!; [|by rewrite Ht|by rewrite Hf'| |done].
      * eapply rtc_trans; [exact Hst1|]. eapply rtc_l; [exact H12|]. eapply rtc_l; [exact H23|done].
      * rewrite Hth. simpl. by rewrite Hth1, !list_insert_insert_eq.
Qed.

Lemma blocked_step i s s' : blocked i s -> step s s' -> blocked i s'.
Proof.
  intros Hb Hstep. destruct Hstep as [s1 s2 E|j s1 s2 E].
  - unfold step_sequencer in E. by rewrite (bl_todo _ _ Hb) in E.
  - destruct Hb as [Ht (svi & ci & Hi) Hse Hsv]. unfold step_thread in E.
    destruct (threads s1 !! j) as [[sv p cnt]|] eqn:Hj; [|done].
    pose proof (Hsv j _ Hj) as Hsem. cbn in Hsem. destruct (decide (j = i)) as [->|Hne].
    + rewrite Hi in Hj. injection Hj as <- <- <-. by rewrite Hsem, Hse in E.
    + assert (Hkeep : forall p' c', (<[j := mk_thread sv p' c']> (threads s1)) !! i
                        = Some (mk_thread svi AtWait ci))
        by (intros; by rewrite list_lookup_insert_ne).
      assert (Hsvc : forall p' c' k th, (<[j := mk_thread sv p' c']> (threads s1)) !! k = Some th ->
                       sv_sem (th_service th) = k).
      { intros p' c' k th Hk. destruct (decide (k = j)) as [->|].
        - rewrite list_lookup_insert_eq in Hk by (by eapply lookup_lt_Some). by simplify_eq.
        - rewrite list_lookup_insert_ne in Hk by done. by apply Hsv. }
      destruct p.
      * destruct (abort_flags s1 !! sv_abort sv); [|done]. injection E as <-. constructor; simpl; eauto.
      * rewrite Hsem in E. destruct (sems s1 !! j) as [v|]; [|done].
        destruct (Z.ltb_spec 0 v); [|done]. injection E as <-. constructor; simpl; eauto.
        by rewrite list_lookup_insert_ne.
      * injection E as <-. constructor; simpl; eauto.
      * done.
Qed.

Lemma perform_aborts_sems l s : sems (perform_all (SetAbort <$> l) s) = sems s.
Proof.
  revert s. induction l as [|k l IH]; intros s; [done|]. simpl.
  change (foldl _ ?x ?y) with (perform_all y x). by rewrite IH.
Qed.

Lemma start_thread svs acts i sv : svs !! i = Some sv ->
  threads (start svs acts) !! i = Some (mk_thread sv AtCheck 0).
Proof. intros H. simpl. by rewrite list_lookup_fmap, H. Qed.

Lemma services_with_thread svs i sv th j th0 :
  services_ok svs -> svs !! i = Some sv -> th_service th = sv ->
  (<[i := th]> ((fun sv => mk_thread sv AtCheck 0) <$> svs) : list thread) !! j = Some th0 ->
  sv_sem (th_service th0) = j /\ sv_abort (th_service th0) = j.
Proof.
  intros Hok Hi Hsv Hj. apply Hok. destruct (decide (j = i)) as [->|Hne].
  - rewrite list_lookup_insert_eq in Hj by (rewrite length_fmap; by eapply lookup_lt_Some). by simplify_eq.
  - rewrite list_lookup_insert_ne, list_lookup_fmap in Hj by done.
    destruct (svs !! j) eqn:E; by simplify_eq/=.
Qed.

(** A thread can be left waiting for ever: it goes back to [sem_wait] after the
    last post and before its abort flag is set. *)
Lemma race svs body i :
  services_ok svs -> (i < length svs)%nat -> (forall k, ~ SetAbort k ∈ body) ->
  exists s, rtc step (start svs (body ++ shutdown (length svs))) s /\ blocked i s.
Proof.
  intros Hok Hi Hbody. set (m := length svs).
  destruct (lookup_lt_is_Some_2 svs i Hi) as [sv Hsv]. destruct (Hok i sv Hsv) as [Hsem Hab].
  set (pre := body ++ (Post <$> seq 0 m)). set (aborts := SetAbort <$> seq 0 m).
  set (s0 := start svs (body ++ shutdown m)). set (s1 := perform_all pre (with_todo aborts s0)).
  assert (H01 : rtc step s0 s1)
    by (apply perform_all_steps; unfold s0, pre, aborts, shutdown; simpl; by rewrite app_assoc).
  destruct (perform_all_todo pre (with_todo aborts s0)) as [Ht1 Hth1]. fold s1 in Ht1, Hth1.
  destruct (perform_all_sem pre (with_todo aborts s0) i 0) as (v & Hv & Hpos & _); [|done|].
  { simpl. apply lookup_replicate_2. done. }
  destruct (perform_all_flag pre (with_todo aborts s0) i false) as (b & Hb & _ & _ & Hno).
  { simpl. apply lookup_replicate_2. done. }
  fold s1 in Hv, Hb. rewrite Hno in Hb.
  2:{ unfold pre. rewrite elem_of_app. intros [Hin|Hin]; [by apply (Hbody i)|].
      by apply list_elem_of_fmap in Hin as (k & ? & _). }
  destruct (drain s1 i sv (Z.to_nat v) AtCheck 0) as (s2 & cnt & Hst & Ht2 & Hf2 & Hth2 & Hse2); try done.
  { rewrite Hth1. by apply start_thread. }
  { by left. }
  { rewrite Z2Nat.id; done. }
  exists (perform_all aborts (with_todo [] s2)).
  destruct (perform_all_todo aborts (with_todo [] s2)) as [Ht3 Hth3]. split.
  - eapply rtc_trans; [exact H01|]. eapply rtc_trans; [exact Hst|].
    apply perform_all_steps. by rewrite app_nil_r, Ht2, Ht1.
  - rewrite Hth1 in Hth2. constructor.
    + by rewrite Ht3.
    + exists sv, cnt. rewrite Hth3. simpl. rewrite Hth2.
      rewrite list_lookup_insert_eq; [done|]. simpl. by rewrite length_fmap.
    + unfold aborts. by rewrite perform_aborts_sems.
    + intros j th Hj. rewrite Hth3 in Hj. simpl in Hj. rewrite Hth2 in Hj.
      by eapply services_with_thread in Hj as [? _].
Qed.

Lemma blocked_steps i s s' : blocked i s -> rtc step s s' -> blocked i s'.
Proof. intros Hb Hst. induction Hst; eauto using blocked_step. Qed.

Lemma hangs svs body i :
  services_ok svs -> (i < length svs)%nat -> (forall k, ~ SetAbort k ∈ body) ->
  exists s1, rtc step (start svs (body ++ shutdown (length svs))) s1 /\
    forall s2, rtc step s1 s2 -> todo s2 = [] /\
      exists sv cnt, threads s2 !! i = Some (mk_thread sv AtWait cnt) /\ step_thread i s2 = None.
Proof.
  intros Hok Hi Hbody. destruct (race svs body i Hok Hi Hbody) as (s1 & Hst & Hb).
  exists s1. split; [done|]. intros s2 Hst2.
  destruct (blocked_steps i s1 s2 Hb Hst2) as [Ht (sv & cnt & Hth) Hse Hsv].
  split; [done|]. exists sv, cnt. split; [done|]. unfold step_thread. rewrite Hth.
  pose proof (Hsv i _ Hth) as Hsem. cbn in Hsem. by rewrite Hsem, Hse.
Qed.

(** After an uninterrupted shutdown everything winds down. *)
Lemma shutdown_winds_down svs acts s :
  services_ok svs -> (forall k, (k < length svs)%nat -> posts k acts <= SEM_VALUE_MAX) ->
  rtc step (start svs acts) s -> todo s = shutdown (length svs) ->
  winding_down (perform_all (todo s) (with_todo [] s)).
Proof.
  intros Hok Hfew Hreach Ht. pose proof (inv_reachable svs acts Hok Hfew s Hreach) as Hinv.
  destruct (perform_all_todo (todo s) (with_todo [] s)) as [Htd Hth].
  constructor; [by rewrite Htd|]. intros i th Hi. rewrite Hth in Hi. simpl in Hi.
  destruct (inv_thread_service svs acts Hok s i th Hinv Hi) as (Hs & Ha & Hlt).
  destruct (inv_done _ _ _ Hinv) as (done & _ & Hd). destruct (Hd i th Hi) as (v & Hv & Hpos & _).
  destruct (perform_all_sem (todo s) (with_todo [] s) i v Hv Hpos) as (v' & Hv' & Hle & Hp).
  destruct (lookup_lt_is_Some_2 (abort_flags s) i) as [b Hb]; [by rewrite (inv_flags _ _ _ Hinv)|].
  destruct (perform_all_flag (todo s) (with_todo [] s) i b Hb) as (b' & Hb' & _ & Hset & _).
  assert (Hin : i ∈ seq 0 (length svs)) by (apply elem_of_seq; lia).
  split_and!; [done..| |].
  - rewrite Hb', Hset; [done|]. rewrite Ht. unfold shutdown. rewrite elem_of_app. right.
    apply list_elem_of_fmap. by exists i.
  - exists v'. split_and!; [done|lia|]. intros _. apply Hp. rewrite Ht. unfold shutdown.
    rewrite elem_of_app. left. apply list_elem_of_fmap. by exists i.
Qed.

(** Something that only moves while there is something to do comes to rest. *)
Lemma comes_to_rest s : Forall (fun v => 0 <= v) (sems s) -> winding_down s ->
  exists s', rtc step s s' /\ all_exited s'.
Proof.
  intros Hs Hwd. remember (Z.to_nat (steps_left s)) as n eqn:En.
  revert s En Hs Hwd. induction (lt_wf n) as [n _ IH]. intros s -> Hs Hwd.
  destruct (winding_down_progress s Hwd) as [He|[s1 Hstep]]; [exists s; split; [apply rtc_refl|done]|].
  pose proof (step_decreases _ _ Hstep). pose proof (nonneg_step _ _ Hs Hstep) as Hs1.
  pose proof (steps_left_nonneg s1 Hs1).
  destruct (IH (Z.to_nat (steps_left s1)) ltac:(lia) s1 eq_refl Hs1 (winding_down_step _ _ Hwd Hstep))
    as (s' & Hst & He).
  exists s'. split; [by eapply rtc_l|done].
Qed.

Lemma nonneg_reachable s s' : Forall (fun v => 0 <= v) (sems s) -> rtc step s s' ->
  Forall (fun v => 0 <= v) (sems s').
Proof. intros H Hst. induction Hst; eauto using nonneg_step. Qed.

Lemma nonneg_start svs acts : Forall (fun v => 0 <= v) (sems (start svs acts)).
Proof. by apply Forall_replicate. Qed.

Lemma steps_left_start svs acts :
  steps_left (start svs acts) = sumZ (action_weight <$> acts) + 2 * Z.of_nat (length svs).
Proof.
  unfold steps_left, start. simpl.
  assert (E0 : forall n, sumZ (replicate n 0) = 0)
    by (intros n; induction n as [|n IH]; [done|]; change (sumZ (0 :: replicate n 0) = 0); rewrite sumZ_cons; lia).
  assert (E1 : forall l, sumZ ((fun th => pc_weight (th_pc th)) <$>
                          ((fun sv => mk_thread sv AtCheck 0) <$> l)) = 2 * Z.of_nat (length l))
    by (intros l; induction l as [|sv l IH]; [done|]; rewrite !fmap_cons, sumZ_cons, IH; simpl; lia).
  rewrite E0, E1. lia.
Qed.

Lemma demo_services_ok : services_ok demo_services.
Proof. intros [|[|[|i]]] sv H; by simplify_eq/=. Qed.

(** ** Properties *)



(** Every execution of sequencer and services is finite: whatever the
    interleaving, it has at most four steps per post of the sequencer, one per
    other action, and two per service. *)
Theorem executions_bounded (svs : list service) (acts : list action) (n : nat) (s : system) :
  nsteps step n (start svs acts) s ->
  Z.of_nat n <= sumZ (action_weight <$> acts) + 2 * Z.of_nat (length svs).
Proof. rewrite <- steps_left_start. apply nsteps_bounded, nonneg_start. Qed.

Lemma executions_bounded_witness :
  Z.of_nat 1 <= sumZ (action_weight <$> demo_acts) + 2 * Z.of_nat (length demo_services).
Proof.
  eapply (executions_bounded demo_services demo_acts 1). eapply nsteps_l; [|apply nsteps_O].
  by apply step_by_sequencer.
Defined.

(** When no service runs between the first post and the last flag of the
    shutdown (the sequencer is the highest-priority thread and has the core to
    itself), every continuation comes to rest, and at rest every service thread
    has left its loop. *)
Theorem uninterrupted_shutdown_exits (svs : list service) (acts : list action) (s : system) :
  services_ok svs -> (forall k, (k < length svs)%nat -> posts k acts <= SEM_VALUE_MAX) ->
  rtc step (start svs acts) s -> todo s = shutdown (length svs) ->
  let s1 := perform_all (todo s) (with_todo [] s) in
  rtc step s s1 /\
  (forall s2, rtc step s1 s2 -> all_exited s2 \/ exists s3, step s2 s3) /\
  (forall s2, rtc step s1 s2 -> exists s3, rtc step s2 s3 /\ all_exited s3).
Proof.
  intros Hok Hfew Hreach Ht s1.
  pose proof (shutdown_winds_down svs acts s Hok Hfew Hreach Ht) as Hwd.
  assert (Hs1 : rtc step s s1) by (apply perform_all_steps; by rewrite app_nil_r).
  split_and!; [done|..]; intros s2 Hst; pose proof (winding_down_steps _ _ Hwd Hst) as Hwd2.
  - by apply winding_down_progress.
  - apply comes_to_rest; [|done]. eapply nonneg_reachable; [apply (nonneg_start svs acts)|].
    eapply rtc_trans; [exact Hreach|]. by eapply rtc_trans.
Qed.

Lemma uninterrupted_shutdown_exits_witness :
  let s := start demo_services (shutdown 2) in
  let s1 := perform_all (todo s) (with_todo [] s) in
  rtc step s s1 /\
  (forall s2, rtc step s1 s2 -> all_exited s2 \/ exists s3, step s2 s3) /\
  (forall s2, rtc step s1 s2 -> exists s3, rtc step s2 s3 /\ all_exited s3).
Proof.
  apply (uninterrupted_shutdown_exits demo_services (shutdown 2) (start demo_services (shutdown 2)));
    [apply demo_services_ok| |apply rtc_refl|reflexivity].
  intros [|[|k]] Hk; simpl in Hk; [vm_compute; discriminate..|lia].
Defined.
