(* ===== verification/SeqGen.v ===== *)
(** * [seqgen.c]: the 30 Hz sequencer

    Model of [rtos_rte_cp/sequencer_generic/seqgen.c]: the sequencer with its
    inner delay loop, the release of the seven services, and the service threads.
    [nanosleep] answers a return code and what it leaves in [remaining_time]; its
    answers are the parameter. Clock readings reach only the log. *)

From S2P Require Import Prelude CDouble Sequencer Services.
Local Open Scope Z_scope.
Local Open Scope c_scope.

(** The value of the macro in Linux's [<errno.h>]. *)
Definition EINTR : Z := 4.

(** [remaining_time] in seconds; [tv_sec] and [tv_nsec] are converted to [double]. *)
Definition residual_of (remaining_time : timespec) : double :=
  d_add (d_of_int (tv_sec remaining_time))
        (d_div (d_of_int (tv_nsec remaining_time)) (d_of_int NANOSEC_PER_SEC)).

(** The inner [do ... while((residual > 0.0) && (delay_cnt < 100))]; the answer
    is the final [delay_cnt], which is only printed. *)
Fixpoint delay_loop (nanosleep : nat -> Z * timespec) (fuel : nat) (delay_cnt : Z) (residual : double)
  : C seq_state Z :=
  match fuel with
  | O => fun s => (OutOfFuel, s)
  | Datatypes.S fuel' =>
      let* r := next_sleep nanosleep in
      let rc := r.1 in
      let* p :=
        (if rc =? EINTR then
           let* n := c_int (delay_cnt + 1) in
           c_ret (n, residual_of r.2)
         else
           c_when (rc <? 0) (c_exit (-1)) ;;
           c_ret (delay_cnt, residual)) in
      if d_gt p.2 (d_of_int 0) && (p.1 <? 100) then delay_loop nanosleep fuel' p.1 p.2
      else c_ret p.1
  end.

(** The conditional posts of one cycle. *)
Definition Sequencer_release (seqCnt : Z) : C seq_state unit :=
  c_when (seqCnt mod 10 =? 0) (sem_post 0) ;;
  c_when (seqCnt mod 30 =? 0) (sem_post 1) ;;
  c_when (seqCnt mod 60 =? 0) (sem_post 2) ;;
  c_when (seqCnt mod 30 =? 0) (sem_post 3) ;;
  c_when (seqCnt mod 60 =? 0) (sem_post 4) ;;
  c_when (seqCnt mod 30 =? 0) (sem_post 5) ;;
  c_when (seqCnt mod 300 =? 0) (sem_post 6).

Definition Sequencer_shutdown : C seq_state unit :=
  sem_post 0 ;; sem_post 1 ;; sem_post 2 ;;
  sem_post 3 ;; sem_post 4 ;; sem_post 5 ;;
  sem_post 6 ;;
  set_abort 0 ;; set_abort 1 ;; set_abort 2 ;;
  set_abort 3 ;; set_abort 4 ;; set_abort 5 ;;
  set_abort 6.

(** One round of the outer loop; [fuel] bounds the inner one. *)
Definition Sequencer_cycle (nanosleep : nat -> Z * timespec) (fuel : nat) (sequencePeriods : Z)
  : C seq_state bool :=
  let* delay_cnt := delay_loop nanosleep fuel 0 (d_of_int 0) in
  let* s := c_get in
  c_modify (set_seqCnt (u64 (seqCnt s + 1))) ;;
  let* s := c_get in
  Sequencer_release (seqCnt s) ;;
  let* s := c_get in
  c_ret (negb (abortTest s) && (seqCnt s <? sequencePeriods)).

Definition Sequencer (nanosleep : nat -> Z * timespec) (fuel : nat) (sequencePeriods : Z)
  : C seq_state unit :=
  c_do_while fuel (Sequencer_cycle nanosleep fuel sequencePeriods) ;;
  Sequencer_shutdown.

(** The value [main] stores in [threadParams[0].sequencePeriods]. *)
Definition sequencePeriods : Z := 900.

(** *** The service threads: flag tested, semaphore awaited, log message *)
Definition Service_1 : service := mk_service 0 0 "Frame Sampler release".
Definition Service_2 : service := mk_service 1 1 "Time-stamp with Image Analysis release".
Definition Service_3 : service := mk_service 2 2 "Difference Image Proc release".
Definition Service_4 : service := mk_service 3 3 "Time-stamp Image Save to File release".
Definition Service_5 : service := mk_service 4 4 "Processed Image Save to File release".
Definition Service_6 : service := mk_service 5 5 "Send Time-stamped Image to Remote release".
Definition Service_7 : service := mk_service 6 6 "10 Sec Tick Debug release".
Definition services : list service :=
  [Service_1; Service_2; Service_3; Service_4; Service_5; Service_6; Service_7].

(** ** The release table it implements *)
Definition table : list (option Z) :=
  [Some 10; Some 30; Some 60; Some 30; Some 60; Some 30; Some 300].

Lemma seqgen_release_runs n s : runs (Sequencer_release n) s tt (emits (released table n) s).
Proof. unfold Sequencer_release, table. release_steps. Qed.

Lemma seqgen_table_positive : Forall (fun o => forall p, o = Some p -> 0 < p) table.
Proof. repeat constructor; intros p [= <-]; lia. Qed.

#[export] Instance seqgen_table : ReleaseTable := {
  periods := table; release := Sequencer_release;
  periods_positive := seqgen_table_positive; release_spec := seqgen_release_runs
}.

Lemma seqgen_shutdown_runs s : runs Sequencer_shutdown s tt (emits (shutdown 7) s).
Proof. shutdown_steps Sequencer_shutdown. Qed.

Lemma seqgen_services_ok : services_ok services.
Proof. intros i sv H. do 7 (destruct i as [|i]; [by simplify_eq/=|]). done. Qed.

Section sleeping.
Context (nanosleep : nat -> Z * timespec) (ab : bool) (N : Z).
Let st := after_cycles table ab 1 (fun _ => 0%nat).

(** A sleep that succeeds leaves the loop's variables alone. *)
Lemma seqgen_delay_loop_slept fuel n r s : (nanosleep (sleeps s)).1 = 0 ->
  delay_loop nanosleep (Datatypes.S fuel) n r s =
    (if d_gt r (d_of_int 0) && (n <? 100) then delay_loop nanosleep fuel n r else c_ret n) (slept s).
Proof.
  intros Hs. cbn [delay_loop]. rewrite (bind_runs _ _ _ _ _ (next_sleep_runs _ _)), Hs.
  by rewrite (bind_runs _ _ _ (n, r) (slept s)).
Qed.

(** The first sleep that succeeds ends the delay loop at once. *)
Lemma seqgen_delay_loop_runs fuel s : (nanosleep (sleeps s)).1 = 0 ->
  runs (delay_loop nanosleep (Datatypes.S fuel) 0 (d_of_int 0)) s 0 (slept s).
Proof. intros Hs. unfold runs. by rewrite seqgen_delay_loop_slept. Qed.

(** A sleep that fails ends the process. *)
Lemma seqgen_delay_loop_exits fuel s : (nanosleep (sleeps s)).1 < 0 ->
  delay_loop nanosleep (Datatypes.S fuel) 0 (d_of_int 0) s = (Exit (-1), slept s).
Proof.
  intros Hs. simpl. rewrite (bind_runs _ _ _ _ _ (next_sleep_runs _ _)).
  unfold EINTR. destruct (Z.eqb_spec (nanosleep (sleeps s)).1 4); [lia|].
  destruct (Z.ltb_spec (nanosleep (sleeps s)).1 0); [|lia]. reflexivity.
Qed.

Lemma seqgen_cycle_runs fuel i : is_u64 N -> 0 <= i < cycle_count ab N ->
  (nanosleep (Z.to_nat i)).1 = 0 ->
  runs (Sequencer_cycle nanosleep (Datatypes.S fuel) N) (st i) (negb ab && (i + 1 <? N)) (st (i + 1)).
Proof.
  intros HN Hi Hs. unfold Sequencer_cycle. eapply runs_bind; [by apply seqgen_delay_loop_runs|].
  exact (count_and_release_runs (H := seqgen_table) ab N (fun _ => 0%nat) i HN Hi).
Qed.

Lemma seqgen_cycle_exits fuel i : (nanosleep (Z.to_nat i)).1 < 0 ->
  Sequencer_cycle nanosleep (Datatypes.S fuel) N (st i) = (Exit (-1), slept (st i)).
Proof. intros Hs. unfold Sequencer_cycle, c_bind. by rewrite seqgen_delay_loop_exits. Qed.

Lemma seqgen_Sequencer_runs fuel : is_u64 N -> (forall i, (nanosleep i).1 = 0) ->
  (Z.to_nat (cycle_count ab N) <= fuel)%nat ->
  runs (Sequencer nanosleep fuel N) (initial ab) tt (emits (shutdown 7) (st (cycle_count ab N))).
Proof.
  intros HN Hs Hfuel. pose proof (cycle_count_u64 ab N HN). unfold Sequencer.
  eapply runs_bind; [|apply seqgen_shutdown_runs].
  change (initial ab) with (st 0). destruct fuel as [|fuel]; [lia|].
  apply sequencer_loop; [done..|]. intros i Hi. by apply seqgen_cycle_runs.
Qed.
End sleeping.

(** The retry written for an answer of [EINTR]: with time left and the sleeps
    after it succeeding, nothing resets [residual]. *)
Lemma seqgen_delay_loop_stuck nanosleep n r : d_gt r (d_of_int 0) = true -> n < 100 ->
  forall fuel s, (forall i, (sleeps s <= i)%nat -> (nanosleep i).1 = 0) ->
  (delay_loop nanosleep fuel n r s).1 = OutOfFuel.
Proof.
  intros Hr Hn. induction fuel as [|fuel IH]; intros s Hs; [done|].
  rewrite seqgen_delay_loop_slept by (apply Hs; lia).
  rewrite Hr. destruct (Z.ltb_spec n 100); [|lia]. apply IH.
  intros i Hi. apply Hs. simpl in Hi. lia.
Qed.

(** ** Properties *)

(** When every [nanosleep] succeeds the sequencer returns, for any number of
    periods: cycle [n] releases exactly the services whose sub-rate divides [n],
    then every service is posted and its abort flag set. *)
Theorem seqgen_completes (nanosleep : nat -> Z * timespec) ab N fuel :
  is_u64 N -> (forall i, (nanosleep i).1 = 0) -> (Z.to_nat (cycle_count ab N) <= fuel)%nat ->
  Sequencer nanosleep fuel N (initial ab) =
    (Ret tt, mk_seq (cycle_count ab N) ab (Z.to_nat (cycle_count ab N)) 0
               (cycles table 1 (cycle_count ab N) ++ shutdown 7)).
Proof. intros HN Hs Hf. by apply seqgen_Sequencer_runs. Qed.

Lemma seqgen_completes_witness :
  Sequencer (fun _ => (0, mk_timespec 0 0)) 900 sequencePeriods (initial false) =
    (Ret tt, mk_seq 900 false 900 0 (cycles table 1 900 ++ shutdown 7)).
Proof.
  apply (seqgen_completes (fun _ => (0, mk_timespec 0 0)) false sequencePeriods 900);
    [by vm_compute|done|vm_compute; lia].
Defined.

(** A [nanosleep] that fails, and POSIX makes it answer -1 when a signal
    interrupts it too, ends the process with status -1 and the services are never
    shut down: the test [rc == EINTR] and the retry under it are not reached. *)
Theorem seqgen_interrupted_exits (nanosleep : nat -> Z * timespec) N (j : nat) fuel :
  is_u64 N -> Z.of_nat j < cycle_count false N -> (j < fuel)%nat ->
  (forall i, (i < j)%nat -> (nanosleep i).1 = 0) -> (nanosleep j).1 = -1 ->
  exists s, Sequencer nanosleep fuel N (initial false) = (Exit (-1), s) /\
    actions s = cycles table 1 (Z.of_nat j).
Proof.
  intros HN Hj Hfuel Hok Hbad. set (st := after_cycles table false 1 (fun _ => 0%nat)).
  exists (slept (st (Z.of_nat j))). split; [|reflexivity]. unfold Sequencer, c_bind.
  change (initial false) with (st 0). destruct fuel as [|fuel]; [lia|].
  rewrite (do_while_exits _ st (Z.of_nat j) (-1) (slept (st (Z.of_nat j))) j 0); [done| | |lia|lia].
  - intros i Hi. assert (Hflag : true = negb false && (i + 1 <? N))
      by (rewrite again_flag by lia; symmetry; apply Z.ltb_lt; lia).
    rewrite Hflag. apply seqgen_cycle_runs; [done|lia|]. apply Hok. lia.
  - apply seqgen_cycle_exits. rewrite Nat2Z.id. lia.
Qed.

Lemma seqgen_interrupted_exits_witness :
  exists s, Sequencer (fun i => (if decide (i = 9%nat) then -1 else 0, mk_timespec 0 5)) 900
      sequencePeriods (initial false) = (Exit (-1), s) /\ actions s = cycles table 1 9.
Proof.
  apply (seqgen_interrupted_exits (fun i => (if decide (i = 9%nat) then -1 else 0, mk_timespec 0 5))
    sequencePeriods 9 900); [by vm_compute|by vm_compute|lia| |by vm_compute].
  intros i Hi. rewrite decide_False by lia. reflexivity.
Defined.

(** The retry would not work if it were reached. Should [nanosleep] answer
    [EINTR] once with time left and 0 from then on, the delay loop never ends: no
    fuel is enough, because [residual] is not reset by a sleep that succeeds. *)
Lemma seqgen_retry_never_ends (nanosleep : nat -> Z * timespec) ab N fuel :
  (nanosleep 0%nat).1 = EINTR -> d_gt (residual_of (nanosleep 0%nat).2) (d_of_int 0) = true ->
  (forall i, (0 < i)%nat -> (nanosleep i).1 = 0) ->
  (Sequencer nanosleep fuel N (initial ab)).1 = OutOfFuel.
Proof.
  intros He Hr Hok. unfold Sequencer. destruct fuel as [|fuel]; [done|].
  assert (Hd : (delay_loop nanosleep (Datatypes.S fuel) 0 (d_of_int 0) (initial ab)).1 = OutOfFuel).
  { simpl. rewrite (bind_runs _ _ _ _ _ (next_sleep_runs _ _)). cbn [sleeps initial].
    rewrite He. cbn [Z.eqb EINTR Pos.eqb]. unfold c_int. cbn [in_i32].
    rewrite (bind_runs _ _ _ (1, residual_of (nanosleep 0%nat).2) (slept (initial ab))) by reflexivity.
    cbn [fst snd]. change (SpecFloat.S754_zero false) with (d_of_int 0). rewrite Hr. cbn [andb Z.ltb Z.compare Pos.compare].
    apply seqgen_delay_loop_stuck; [done|lia|]. intros i Hi. apply Hok. simpl in Hi. lia. }
  cbn [c_do_while]. unfold c_bind, Sequencer_cycle, c_bind.
  destruct (delay_loop _ _ _ _ _) as [o s']. simpl in Hd. by rewrite Hd.
Qed.

Lemma seqgen_retry_never_ends_witness :
  (Sequencer (fun i => if decide (i = 0%nat) then (4, mk_timespec 0 20000000) else (0, mk_timespec 0 0))
     5000 sequencePeriods (initial false)).1 = OutOfFuel.
Proof.
  apply (seqgen_retry_never_ends
    (fun i => if decide (i = 0%nat) then (4, mk_timespec 0 20000000) else (0, mk_timespec 0 0)));
    [reflexivity|vm_compute; reflexivity|].
  intros i Hi. rewrite decide_False by lia. reflexivity.
Defined.
