(* ===== verification/SeqGen2.v ===== *)
(** * [seqgen2.c]: the 100 Hz sequencer on its own core

    Model of [rtos_rte_cp/sequencer_generic/seqgen2.c]: the sequencer thread, the
    release of the seven services, and the service threads. [clock_nanosleep]
    answers 0 or an error number; its answers are the parameter. *)

From S2P Require Import Prelude Sequencer Services.
Local Open Scope Z_scope.
Local Open Scope c_scope.

(** The conditional posts of one cycle. *)
Definition Sequencer_release (seqCnt : Z) : C seq_state unit :=
  c_when (seqCnt mod 2 =? 0) (sem_post 0) ;;
  c_when (seqCnt mod 5 =? 0) (sem_post 1) ;;
  c_when (seqCnt mod 10 =? 0) (sem_post 2) ;;
  c_when (seqCnt mod 20 =? 0) (sem_post 3) ;;
  c_when (seqCnt mod 50 =? 0) (sem_post 4) ;;
  c_when (seqCnt mod 100 =? 0) (sem_post 5) ;;
  c_when (seqCnt mod 100 =? 0) (sem_post 6).

Definition Sequencer_shutdown : C seq_state unit :=
  sem_post 0 ;; sem_post 1 ;; sem_post 2 ;;
  sem_post 3 ;; sem_post 4 ;; sem_post 5 ;;
  sem_post 6 ;;
  set_abort 0 ;; set_abort 1 ;; set_abort 2 ;;
  set_abort 3 ;; set_abort 4 ;; set_abort 5 ;;
  set_abort 6.

(** One round of the [do ... while]; the answer is whether there is another. The
    clock readings reach only the log, and [current_realtime] in the loop only
    statements that are commented out. *)
Definition Sequencer_cycle (clock_nanosleep : nat -> Z) (sequencePeriods : Z) : C seq_state bool :=
  let* rc := next_sleep clock_nanosleep in
  c_when (negb (rc =? 0)) (c_exit (-1)) ;;
  let* s := c_get in
  c_modify (set_seqCnt (u64 (seqCnt s + 1))) ;;
  let* s := c_get in
  Sequencer_release (seqCnt s) ;;
  let* s := c_get in
  c_ret (negb (abortTest s) && (seqCnt s <? sequencePeriods)).

Definition Sequencer (clock_nanosleep : nat -> Z) (fuel : nat) (sequencePeriods : Z) : C seq_state unit :=
  c_do_while fuel (Sequencer_cycle clock_nanosleep sequencePeriods) ;;
  Sequencer_shutdown.

(** The value [main] stores in [threadParams[0].sequencePeriods]. *)
Definition sequencePeriods : Z := 2000.

(** *** The service threads: flag tested, semaphore awaited, log message *)
Definition Service_1 : service := mk_service 0 0 "S1 50 Hz on core".
Definition Service_2 : service := mk_service 1 1 "S2 20 Hz on core".
Definition Service_3 : service := mk_service 2 2 "S3 10 Hz on core".
Definition Service_4 : service := mk_service 3 3 "S4 5 Hz on core".
Definition Service_5 : service := mk_service 4 4 "S5 2 Hz on core".
Definition Service_6 : service := mk_service 5 5 "S6 1 Hz on core".
Definition Service_7 : service := mk_service 6 6 "S7 1 Hz on core".
Definition services : list service :=
  [Service_1; Service_2; Service_3; Service_4; Service_5; Service_6; Service_7].

(** ** The release table it implements *)
Definition table : list (option Z) :=
  [Some 2; Some 5; Some 10; Some 20; Some 50; Some 100; Some 100].

Lemma seqgen2_release_runs n s : runs (Sequencer_release n) s tt (emits (released table n) s).
Proof.
  unfold Sequencer_release, table. release_steps.
Qed.

Lemma seqgen2_table_positive : Forall (fun o => forall p, o = Some p -> 0 < p) table.
Proof. repeat constructor; intros p [= <-]; lia. Qed.

#[export] Instance seqgen2_table : ReleaseTable := {
  periods := table; release := Sequencer_release;
  periods_positive := seqgen2_table_positive; release_spec := seqgen2_release_runs
}.

Lemma seqgen2_shutdown_runs s : runs Sequencer_shutdown s tt (emits (shutdown 7) s).
Proof. shutdown_steps Sequencer_shutdown. Qed.

Section sleeping.
Context (clock_nanosleep : nat -> Z) (ab : bool) (N : Z).

(** One cycle with the sleep answered 0. *)
Lemma seqgen2_cycle_runs i : is_u64 N -> 0 <= i < cycle_count ab N -> clock_nanosleep (Z.to_nat i) = 0 ->
  runs (Sequencer_cycle clock_nanosleep N) (after_cycles table ab 1 (fun _ => 0%nat) i)
    (negb ab && (i + 1 <? N)) (after_cycles table ab 1 (fun _ => 0%nat) (i + 1)).
Proof.
  intros HN Hi Hs. unfold Sequencer_cycle. eapply runs_bind; [apply next_sleep_runs|].
  cbn [sleeps after_cycles]. rewrite Hs. cbn beta. eapply runs_bind; [apply runs_ret|].
  exact (count_and_release_runs (H := seqgen2_table) ab N (fun _ => 0%nat) i HN Hi).
Qed.

(** One cycle whose sleep is answered with an error. *)
Lemma seqgen2_cycle_exits i : clock_nanosleep (Z.to_nat i) <> 0 ->
  Sequencer_cycle clock_nanosleep N (after_cycles table ab 1 (fun _ => 0%nat) i) =
    (Exit (-1), slept (after_cycles table ab 1 (fun _ => 0%nat) i)).
Proof.
  intros Hs. unfold Sequencer_cycle. rewrite (bind_runs _ _ _ _ _ (next_sleep_runs _ _)).
  cbn [sleeps after_cycles]. by destruct (Z.eqb_spec (clock_nanosleep (Z.to_nat i)) 0).
Qed.

Lemma seqgen2_Sequencer_runs fuel : is_u64 N -> (forall i, clock_nanosleep i = 0) ->
  (Z.to_nat (cycle_count ab N) <= fuel)%nat ->
  runs (Sequencer clock_nanosleep fuel N) (initial ab) tt
    (emits (shutdown 7) (after_cycles table ab 1 (fun _ => 0%nat) (cycle_count ab N))).
Proof.
  intros HN Hs Hfuel. unfold Sequencer.
  eapply runs_bind; [|apply seqgen2_shutdown_runs].
  change (initial ab) with (after_cycles table ab 1 (fun _ => 0%nat) 0).
  apply sequencer_loop; [done..|]. intros i Hi. by apply seqgen2_cycle_runs.
Qed.
End sleeping.

Lemma seqgen2_services_ok : services_ok services.
Proof. intros i sv H. do 7 (destruct i as [|i]; [by simplify_eq/=|]). done. Qed.

(** ** Properties *)

(** When every sleep succeeds the sequencer returns, for any number of
    periods: it makes [sequencePeriods] cycles (one at least, and only one if
    [abortTest] is set), releases in cycle [n] exactly the services whose period
    divides [n], then posts every semaphore and sets every abort flag; in all it
    posts a service of period [p] once per [p] cycles and once to shut down. *)
Theorem seqgen2_completes (clock_nanosleep : nat -> Z) ab N fuel :
  is_u64 N -> (forall i, clock_nanosleep i = 0) -> (Z.to_nat (cycle_count ab N) <= fuel)%nat ->
  let acts := cycles table 1 (cycle_count ab N) ++ shutdown 7 in
  Sequencer clock_nanosleep fuel N (initial ab) =
    (Ret tt, mk_seq (cycle_count ab N) ab (Z.to_nat (cycle_count ab N)) 0 acts) /\
  forall k p, table !! k = Some (Some p) -> posts k acts = cycle_count ab N / p + 1.
Proof.
  intros HN Hs Hf acts. split; [by apply seqgen2_Sequencer_runs|]. intros k p Hk.
  pose proof (cycle_count_u64 ab N HN). unfold acts. rewrite <- (Z2Nat.id (cycle_count ab N)) by lia.
  apply (posts_run (H := seqgen2_table)); [exact Hk|exact (lookup_lt_Some _ _ _ Hk)].
Qed.

Lemma seqgen2_completes_witness :
  Sequencer (fun _ => 0) 2000 sequencePeriods (initial false) =
    (Ret tt, mk_seq 2000 false 2000 0 (cycles table 1 2000 ++ shutdown 7)) /\
  forall k p, table !! k = Some (Some p) -> posts k (cycles table 1 2000 ++ shutdown 7) = 2000 / p + 1.
Proof.
  apply (seqgen2_completes (fun _ => 0) false sequencePeriods 2000); [by vm_compute|done|].
  vm_compute. lia.
Defined.

(** The first sleep that does not return 0, an interrupted one included,
    ends the whole process with status -1, without a shutdown of the services. *)
Theorem seqgen2_sleep_error_exits (clock_nanosleep : nat -> Z) N (j : nat) fuel :
  is_u64 N -> Z.of_nat j < cycle_count false N -> (j < fuel)%nat ->
  (forall i, (i < j)%nat -> clock_nanosleep i = 0) -> clock_nanosleep j <> 0 ->
  exists s, Sequencer clock_nanosleep fuel N (initial false) = (Exit (-1), s) /\
    actions s = cycles table 1 (Z.of_nat j).
Proof.
  intros HN Hj Hfuel Hok Hbad. exists (slept (after_cycles table false 1 (fun _ => 0%nat) (Z.of_nat j))).
  split; [|reflexivity]. unfold Sequencer. unfold c_bind. change (initial false) with (after_cycles table false 1 (fun _ => 0%nat) 0).
  rewrite (do_while_exits _ (after_cycles table false 1 (fun _ => 0%nat)) (Z.of_nat j) (-1)
    (slept (after_cycles table false 1 (fun _ => 0%nat) (Z.of_nat j))) j 0 fuel); [done| | |lia|lia].
  - intros i Hi.
    assert (Hflag : true = negb false && (i + 1 <? N)) by (rewrite again_flag by lia; symmetry; apply Z.ltb_lt; lia).
    rewrite Hflag. apply seqgen2_cycle_runs; [done|lia|]. apply Hok. lia.
  - apply seqgen2_cycle_exits. by rewrite Nat2Z.id.
Qed.

Lemma seqgen2_sleep_error_exits_witness :
  exists s, Sequencer (fun i => if decide (i = 4%nat) then 4 else 0) 2000 sequencePeriods (initial false)
      = (Exit (-1), s) /\ actions s = cycles table 1 4.
Proof.
  apply (seqgen2_sleep_error_exits (fun i => if decide (i = 4%nat) then 4 else 0) sequencePeriods 4 2000);
    [by vm_compute|by vm_compute|lia| |by vm_compute].
  intros i Hi. rewrite decide_False by lia. reflexivity.
Defined.

(** Each of the seven services can be left waiting for ever: in the run
    [main] starts there is an interleaving after which the sequencer is done and
    the service sits in [sem_wait] on an empty semaphore, because the shutdown
    posts the semaphores before it sets the flags. [pthread_join] on it never
    returns. *)
Theorem seqgen2_service_can_hang (clock_nanosleep : nat -> Z) s i :
  (forall i, clock_nanosleep i = 0) -> (i < 7)%nat ->
  runs (Sequencer clock_nanosleep 2000 sequencePeriods) (initial false) tt s ->
  exists s1, rtc step (start services (actions s)) s1 /\
    forall s2, rtc step s1 s2 -> todo s2 = [] /\
      exists sv cnt, threads s2 !! i = Some (mk_thread sv AtWait cnt) /\ step_thread i s2 = None.
Proof.
  intros Hs Hi Hr.
  destruct (runs_det _ _ _ _ _ _ Hr (seqgen2_Sequencer_runs clock_nanosleep false sequencePeriods 2000
    ltac:(by vm_compute) Hs ltac:(vm_compute; lia))) as [_ ->].
  apply (hangs services (cycles table 1 2000) i seqgen2_services_ok Hi), cycles_no_abort.
Qed.

Lemma seqgen2_service_can_hang_witness :
  exists s1, rtc step (start services (cycles table 1 2000 ++ shutdown 7)) s1 /\
    forall s2, rtc step s1 s2 -> todo s2 = [] /\
      exists sv cnt, threads s2 !! 0%nat = Some (mk_thread sv AtWait cnt) /\ step_thread 0 s2 = None.
Proof.
  apply (seqgen2_service_can_hang (fun _ => 0) (mk_seq 2000 false 2000 0 (cycles table 1 2000 ++ shutdown 7)) 0);
    [done|lia|vm_compute; reflexivity].
Defined.
