(* ===== verification/SeqGen3.v ===== *)
(** * [seqgen3.c]: the sequencer as a signal handler

    Model of [rtos_rte_cp/sequencer_generic/seqgen3.c]: [Sequencer] is the handler
    of the interval timer's [SIGALRM]; its cycle counter is a static variable and
    the end of the run disarms the timer. A run is a number of deliveries of the
    signal. Clock readings reach only the log. *)

From S2P Require Import Prelude Sequencer Services.
Local Open Scope Z_scope.
Local Open Scope c_scope.

(** The conditional posts of one cycle; those of the services 1, 2, 3, 5 and 6
    are commented out in the source. *)
Definition Sequencer_release (seqCnt : Z) : C seq_state unit :=
  c_when (seqCnt mod 20 =? 0) (sem_post 3) ;;
  c_when (seqCnt mod 100 =? 0) (sem_post 6).

(** [timer_settime] with a zero [itime]. *)
Definition disable_timer : C seq_state unit := c_modify (emits [DisarmTimer]).

Definition Sequencer_shutdown : C seq_state unit :=
  disable_timer ;;
  sem_post 0 ;; sem_post 1 ;; sem_post 2 ;;
  sem_post 3 ;; sem_post 4 ;; sem_post 5 ;;
  sem_post 6 ;;
  set_abort 0 ;; set_abort 1 ;; set_abort 2 ;;
  set_abort 3 ;; set_abort 4 ;; set_abort 5 ;;
  set_abort 6.

(** The handler. *)
Definition Sequencer (sequencePeriods : Z) : C seq_state unit :=
  let* s := c_get in
  c_modify (set_seqCnt (u64 (seqCnt s + 1))) ;;
  let* s := c_get in
  Sequencer_release (seqCnt s) ;;
  let* s := c_get in
  c_when (abortTest s || (sequencePeriods <=? seqCnt s)) Sequencer_shutdown.

(** [n] deliveries of the signal. *)
Definition signals (n : nat) (sequencePeriods : Z) : C seq_state unit :=
  c_for_each (seq 0 n) (fun _ => Sequencer sequencePeriods).

(** The value [main] stores before it arms the timer. *)
Definition sequencePeriods : Z := 2000.

(** *** The service threads: flag tested, semaphore awaited, log message *)
Definition Service_1 : service := mk_service 0 0 "S1 50 Hz on core".
Definition Service_2 : service := mk_service 1 1 "S2 20 Hz on core".
Definition Service_3 : service := mk_service 2 2 "S3 10 Hz on core".
Definition Service_4 : service := mk_service 3 3 "S4 5 Hz on core".
Definition Service_5 : service := mk_service 4 4 "S5 2 Hz on core".
Definition Service_6 : service := mk_service 5 5 "S6 1 Hz on core".
Definition Service_7 : service := mk_service 6 6 "S7 1 Hz on core".
Definition services : list service :=
  [Service_1; Service_2; Service_3; Service_4; Service_5; Service_6; Service_7].

(** ** The release table it implements, and what a signal does *)
Definition table : list (option Z) := [None; None; None; Some 20; None; None; Some 100].

Definition last_actions : list action := DisarmTimer :: shutdown 7.

Definition signal_actions (ab : bool) (N n : Z) : list action :=
  released table n ++ (if ab || (N <=? n) then last_actions else []).

Definition after_signals (ab : bool) (N n : Z) : seq_state :=
  mk_seq n ab 0 0 (concat (signal_actions ab N <$> seqZ 1 n)).

Lemma seqgen3_release_runs n s : runs (Sequencer_release n) s tt (emits (released table n) s).
Proof. unfold Sequencer_release, table. release_steps. Qed.

Lemma seqgen3_table_positive : Forall (fun o => forall p, o = Some p -> 0 < p) table.
Proof. repeat constructor; intros p [= <-]; lia. Qed.

#[export] Instance seqgen3_table : ReleaseTable := {
  periods := table; release := Sequencer_release;
  periods_positive := seqgen3_table_positive; release_spec := seqgen3_release_runs
}.

Lemma seqgen3_shutdown_runs s : runs Sequencer_shutdown s tt (emits last_actions s).
Proof. unfold disable_timer. shutdown_steps Sequencer_shutdown. Qed.

Lemma seqgen3_services_ok : services_ok services.
Proof. intros i sv H. do 7 (destruct i as [|i]; [by simplify_eq/=|]). done. Qed.

Lemma signal_runs ab N n : 0 <= n < 2 ^ 64 - 1 ->
  runs (Sequencer N) (after_signals ab N n) tt (after_signals ab N (n + 1)).
Proof.
  intros Hn. unfold Sequencer. eapply runs_bind; [apply runs_get|].
  eapply runs_bind; [apply runs_modify|]. eapply runs_bind; [apply runs_get|].
  cbn [seqCnt set_seqCnt after_signals]. rewrite u64_small by (unfold is_u64; lia).
  eapply runs_bind; [apply seqgen3_release_runs|]. eapply runs_bind; [apply runs_get|].
  cbn [abortTest seqCnt emits set_seqCnt after_signals].
  assert (E : after_signals ab N (n + 1) =
    emits (if ab || (N <=? n + 1) then last_actions else [])
      (emits (released table (n + 1)) (set_seqCnt (n + 1) (after_signals ab N n)))).
  { unfold after_signals, emits, set_seqCnt. cbn. f_equal. rewrite seqZ_app, fmap_app, concat_app by lia.
    rewrite <- app_assoc. f_equal. replace (1 + n) with (n + 1) by lia.
    rewrite seqZ_cons by lia. cbn. by rewrite app_nil_r. }
  rewrite E. unfold c_when. destruct (ab || (N <=? n + 1)).
  - apply seqgen3_shutdown_runs.
  - rewrite emits_nil. apply runs_ret.
Qed.

Lemma signals_run ab N n : Z.of_nat n < 2 ^ 64 ->
  runs (signals n N) (initial ab) tt (after_signals ab N (Z.of_nat n)).
Proof.
  unfold signals. induction n as [|n IH]; intros Hn; [reflexivity|].
  rewrite seq_S. eapply for_each_snoc; [apply IH; lia|].
  replace (Z.of_nat (S n)) with (Z.of_nat n + 1) by lia. apply signal_runs. lia.
Qed.

(** Before the last period a signal only releases. *)
Lemma quiet_signals N n : 0 <= n < N -> concat (signal_actions false N <$> seqZ 1 n) = cycles table 1 n.
Proof.
  intros Hn. unfold cycles. f_equal. apply list_fmap_ext. intros i z Hz.
  apply lookup_seqZ in Hz as [-> Hi]. unfold signal_actions.
  destruct (Z.leb_spec N (1 + Z.of_nat i)); [lia|]. apply app_nil_r.
Qed.

Lemma last_signal N : 1 <= N ->
  concat (signal_actions false N <$> seqZ 1 N) = cycles table 1 N ++ last_actions.
Proof.
  intros HN. assert (E : seqZ 1 N = seqZ 1 (N - 1) ++ [N]).
  { replace N with (N - 1 + 1) at 1 by lia. rewrite seqZ_app by lia.
    replace (1 + (N - 1)) with N by lia. by rewrite (seqZ_cons N 1). }
  unfold cycles. rewrite E, !fmap_app, !concat_app, quiet_signals by lia. unfold cycles.
  simpl. rewrite !app_nil_r, <- app_assoc. f_equal. unfold signal_actions.
  by rewrite (proj2 (Z.leb_le N N) ltac:(lia)).
Qed.

(** ** Properties *)

(** Up to signal [sequencePeriods - 1] the handler only releases services;
    signal [sequencePeriods] releases, disarms the timer, posts every semaphore
    and sets every abort flag; a signal delivered after that (pending when the
    timer was disarmed) releases and repeats the whole shutdown. *)
Theorem seqgen3_handler (N : Z) (n : nat) :
  1 <= N -> N + 1 < 2 ^ 64 -> Z.of_nat n <= N + 1 ->
  exists s, runs (signals n N) (initial false) tt s /\ seqCnt s = Z.of_nat n /\
    actions s =
      if Z.of_nat n <? N then cycles table 1 (Z.of_nat n)
      else if Z.of_nat n =? N then cycles table 1 N ++ DisarmTimer :: shutdown 7
      else cycles table 1 N ++ (DisarmTimer :: shutdown 7) ++
           released table (N + 1) ++ DisarmTimer :: shutdown 7.
Proof.
  intros HN HM Hn. exists (after_signals false N (Z.of_nat n)).
  split; [apply signals_run; lia|]. split; [done|]. cbn [actions after_signals].
  destruct (Z.ltb_spec (Z.of_nat n) N); [apply quiet_signals; lia|].
  destruct (Z.eqb_spec (Z.of_nat n) N) as [->|]; [by apply last_signal|].
  replace (Z.of_nat n) with (N + 1) by lia. rewrite seqZ_app, fmap_app, concat_app, last_signal by lia.
  rewrite <- app_assoc. do 2 f_equal. replace (1 + N) with (N + 1) by lia.
  rewrite (seqZ_cons (N + 1) 1) by lia. simpl. rewrite app_nil_r. unfold signal_actions.
  by rewrite (proj2 (Z.leb_le N (N + 1)) ltac:(lia)).
Qed.

Lemma seqgen3_handler_witness :
  exists s, runs (signals 2000 sequencePeriods) (initial false) tt s /\ seqCnt s = 2000 /\
    actions s = cycles table 1 2000 ++ DisarmTimer :: shutdown 7.
Proof. apply (seqgen3_handler 2000 2000); [lia..|vm_compute; congruence]. Defined.

(** In the run [main] starts, service 4 is posted 101 times and service 7 21
    times; the five services whose release is commented out are posted once, by
    the shutdown, so that their threads do one round of work and leave. *)
Theorem seqgen3_release_counts (k : nat) (s : seq_state) :
  (k < 7)%nat -> runs (signals 2000 sequencePeriods) (initial false) tt s ->
  posts k (actions s) =
    match k with 3%nat => 101 | 6%nat => 21 | _ => 1 end.
Proof.
  intros Hk Hr. assert (Hn : Z.of_nat 2000 < 2 ^ 64) by lia.
  destruct (runs_det _ _ _ _ _ _ Hr (signals_run false sequencePeriods 2000 Hn)) as [_ ->].
  cbn [actions after_signals]. change (Z.of_nat 2000) with sequencePeriods.
  rewrite last_signal by (unfold sequencePeriods; lia). unfold last_actions.
  rewrite posts_app, posts_cons, decide_False, posts_shutdown by done.
  change sequencePeriods with (Z.of_nat 2000).
  assert (Hnever : forall k, table !! k = Some None -> posts k (cycles table 1 (Z.of_nat 2000)) = 0)
    by (intros; by apply posts_cycles_never).
  destruct k as [|[|[|[|[|[|[|k]]]]]]]; [..|lia].
  all: try (rewrite Hnever by reflexivity; lia).
  - rewrite (posts_cycles _ _ _ 20) by (reflexivity || lia). reflexivity.
  - rewrite (posts_cycles _ _ _ 100) by (reflexivity || lia). reflexivity.
Qed.

Lemma seqgen3_release_counts_witness :
  posts 3 (actions (after_signals false 2000 2000)) = 101.
Proof.
  apply (seqgen3_release_counts 3 (after_signals false 2000 2000)); [lia|vm_compute; reflexivity].
Defined.
