(* ===== verification/SeqGenEx0.v ===== *)
(** * [seqgenex0.c]: the 100 Hz sequencer with absolute deadlines

    Model of [rtos_rte_cp/sequencer_generic/seqgenex0.c] and the constants of its
    [seqgen.h], compiled as the source has it with [ABS_DELAY] and
    [DRIFT_CONTROL]. The environment answers [clock_gettime(CLOCK_REALTIME)], one
    value per call, and [clock_nanosleep], whose answer may depend on the deadline
    it is given. *)

From S2P Require Import Prelude CDouble Sequencer Services.
Local Open Scope Z_scope.
Local Open Scope c_scope.

Definition RTSEQ_PERIODS : Z := 2400.
Definition CLOCK_BIAS_NANOSEC : Z := 100000.
Definition DT_SCALING_UNCERTAINTY_NANOSEC : Z := 500000.
Definition RTSEQ_DELAY_NSEC : Z := 10000000.
Definition EINTR : Z := 4.
Definition EINVAL : Z := 22.

(** ** Time *)

(** A clock reading in seconds since [start_time]. *)
Definition elapsed (start_time : double) (event_ts : timespec) : double :=
  d_sub (d_add (d_of_int (tv_sec event_ts))
               (d_div (d_of_int (tv_nsec event_ts)) (d_of_int NANOSEC_PER_SEC))) start_time.

Definition getTimeMsec (clock : nat -> timespec) (start_time : double) : C seq_state double :=
  let* event_ts := next_read clock in
  c_ret (elapsed start_time event_ts).

Definition delta_t : double := d_div (d_of_int RTSEQ_DELAY_NSEC) (d_of_int NANOSEC_PER_SEC).

(** The corrected delay, before its conversion to [long]. *)
Definition corrected_delay (current_time last_time : double) : double :=
  let scale_dt := d_sub (d_sub current_time last_time) delta_t in
  d_sub (d_sub (d_of_int RTSEQ_DELAY_NSEC)
               (d_mul scale_dt (d_of_int (NANOSEC_PER_SEC + DT_SCALING_UNCERTAINTY_NANOSEC))))
        (d_of_int CLOCK_BIAS_NANOSEC).

(** The absolute wake-up time. *)
Definition wake_time {S} (current_time_val : timespec) (delay_nsec : Z) : C S timespec :=
  let* nsec := c_long (tv_nsec current_time_val + delay_nsec) in
  if NANOSEC_PER_SEC <? nsec then
    let* sec := c_long (tv_sec current_time_val + 1) in
    let* nsec := c_long (nsec - NANOSEC_PER_SEC) in
    c_ret (mk_timespec sec nsec)
  else c_ret (mk_timespec (tv_sec current_time_val) nsec).

(** ** The sequencer *)

(** The delay loop, retried while the answer is [EINTR]. *)
Fixpoint delay_loop (clock_nanosleep : nat -> timespec -> Z) (fuel : nat) (delay_cnt : Z)
    (delay_time : timespec) : C seq_state unit :=
  match fuel with
  | O => fun s => (OutOfFuel, s)
  | Datatypes.S fuel' =>
      let* answer := next_sleep clock_nanosleep in
      let rc := answer delay_time in
      if rc =? EINTR then
        let* n := c_int (delay_cnt + 1) in
        delay_loop clock_nanosleep fuel' n delay_time
      else c_when (rc <? 0) (c_exit (-1))
  end.

(** The conditional posts of one cycle. *)
Definition Sequencer_release (seqCnt : Z) : C seq_state unit :=
  c_when (seqCnt mod 2 =? 0) (sem_post 0) ;;
  c_when (seqCnt mod 10 =? 0) (sem_post 1) ;;
  c_when (seqCnt mod 15 =? 0) (sem_post 2).

Definition Sequencer_shutdown : C seq_state unit :=
  sem_post 0 ;; sem_post 1 ;; sem_post 2 ;;
  set_abort 0 ;; set_abort 1 ;; set_abort 2.

(** One round of the main loop; the answer is whether there is another, and the
    [last_time] it starts with. *)
Definition Sequencer_cycle (clock : nat -> timespec) (clock_nanosleep : nat -> timespec -> Z)
    (fuel : nat) (start_time : double) (sequencePeriods : Z) (last_time : double)
  : C seq_state (bool * double) :=
  let* current_time := getTimeMsec clock start_time in
  let* delay_nsec := c_long_of_double (corrected_delay current_time last_time) in
  let* current_time_val := next_read clock in
  let* delay_time := wake_time current_time_val delay_nsec in
  delay_loop clock_nanosleep fuel 0 delay_time ;;
  let* s := c_get in
  Sequencer_release (seqCnt s) ;;
  c_modify (set_seqCnt (u64 (seqCnt s + 1))) ;;
  let* s := c_get in
  c_ret (negb (abortTest s) && (seqCnt s <? sequencePeriods), current_time).

Fixpoint Sequencer_loop (clock : nat -> timespec) (clock_nanosleep : nat -> timespec -> Z)
    (fuel' fuel : nat) (start_time : double) (sequencePeriods : Z) (last_time : double)
  : C seq_state unit :=
  match fuel with
  | O => fun s => (OutOfFuel, s)
  | Datatypes.S n =>
      let* r := Sequencer_cycle clock clock_nanosleep fuel' start_time sequencePeriods last_time in
      if (r.1 : bool) then
        Sequencer_loop clock clock_nanosleep fuel' n start_time sequencePeriods r.2
      else c_ret tt
  end.

Definition Sequencer (clock : nat -> timespec) (clock_nanosleep : nat -> timespec -> Z)
    (fuel : nat) (start_time : double) (sequencePeriods : Z) : C seq_state unit :=
  let* current_time := getTimeMsec clock start_time in
  Sequencer_loop clock clock_nanosleep fuel fuel start_time sequencePeriods (d_sub current_time delta_t) ;;
  Sequencer_shutdown.

(** *** The service threads: flag tested, semaphore awaited, log message *)
Definition Service_1 : service := mk_service 0 0 "S1: release".
Definition Service_2 : service := mk_service 1 1 "S2: release".
Definition Service_3 : service := mk_service 2 2 "S3: release".
Definition services : list service := [Service_1; Service_2; Service_3].

(** ** The release table it implements *)
Definition table : list (option Z) := [Some 2; Some 10; Some 15].

(** The values [current_time] and [last_time] take in cycle [i] of a run that
    starts with reading 0 of the clock, and the correction being a [long]. *)
Definition cycle_time (clock : nat -> timespec) (start_time : double) (i : nat) : double :=
  elapsed start_time (clock (1 + 2 * i)%nat).
Definition cycle_last (clock : nat -> timespec) (start_time : double) (i : nat) : double :=
  match i with
  | O => d_sub (elapsed start_time (clock 0%nat)) delta_t
  | Datatypes.S i' => cycle_time clock start_time i'
  end.
Definition delay_ok (clock : nat -> timespec) (start_time : double) (i : nat) : Prop :=
  exists d, d_trunc (corrected_delay (cycle_time clock start_time i) (cycle_last clock start_time i)) = Some d
    /\ - 2 ^ 62 <= d <= 2 ^ 62.

(** ** Lemmas *)

Lemma seqgenex0_release_runs n s : runs (Sequencer_release n) s tt (emits (released table n) s).
Proof. unfold Sequencer_release, table. release_steps. Qed.

Lemma seqgenex0_table_positive : Forall (fun o => forall p, o = Some p -> 0 < p) table.
Proof. repeat constructor; intros p [= <-]; lia. Qed.

#[export] Instance seqgenex0_table : ReleaseTable := {
  periods := table; release := Sequencer_release;
  periods_positive := seqgenex0_table_positive; release_spec := seqgenex0_release_runs
}.

Lemma seqgenex0_shutdown_runs s : runs Sequencer_shutdown s tt (emits (shutdown 3) s).
Proof. shutdown_steps Sequencer_shutdown. Qed.

Lemma seqgenex0_services_ok : services_ok services.
Proof. intros i sv H. do 3 (destruct i as [|i]; [by simplify_eq/=|]). done. Qed.

Lemma wake_time_runs {S} now d (s : S) :
  normalized now -> - 2 ^ 62 <= d <= 2 ^ 62 -> - 2 ^ 62 <= tv_sec now <= 2 ^ 62 ->
  runs (wake_time now d) s
    (if NANOSEC_PER_SEC <? tv_nsec now + d
     then mk_timespec (tv_sec now + 1) (tv_nsec now + d - NANOSEC_PER_SEC)
     else mk_timespec (tv_sec now) (tv_nsec now + d)) s.
Proof.
  unfold normalized, NANOSEC_PER_SEC. intros Hn Hd Hs. unfold wake_time.
  eapply runs_bind; [apply long_runs; lia|]. unfold NANOSEC_PER_SEC.
  destruct (Z.ltb_spec 1000000000 (tv_nsec now + d)); [|apply runs_ret].
  eapply runs_bind; [apply long_runs; lia|]. eapply runs_bind; [apply long_runs; lia|]. apply runs_ret.
Qed.

Section run.
Context (clock : nat -> timespec) (clock_nanosleep : nat -> timespec -> Z).
Context (start_time : double) (ab : bool) (N : Z) (B : nat).
Context (clock_ok : forall i, normalized (clock i) /\ 0 <= tv_sec (clock i) < 2 ^ 62).
Context (answers_nonneg : forall i t, 0 <= clock_nanosleep i t).
Context (recovers : forall i t, exists k, (k <= B)%nat /\ clock_nanosleep (i + k)%nat t <> EINTR).
Context (B_small : Z.of_nat B < 2 ^ 31) (N_u64 : is_u64 N).

(** The state before cycle [i], however many sleeps were interrupted. *)
Definition at_cycle (i : Z) (s : seq_state) : Prop :=
  exists sl, s = mk_seq i ab sl (Z.to_nat (1 + 2 * i)) (cycles table 0 i).

Lemma seqgenex0_delay_loop_runs t : forall b n fuel s,
  (exists k, (k <= b)%nat /\ clock_nanosleep (sleeps s + k)%nat t <> EINTR) ->
  (b < fuel)%nat -> 0 <= n -> n + Z.of_nat b < 2 ^ 31 ->
  exists sl, runs (delay_loop clock_nanosleep fuel n t) s tt
               (mk_seq (seqCnt s) (abortTest s) sl (reads s) (actions s)).
Proof.
  induction b as [|b IH]; intros n fuel s (k & Hk & He) Hf Hn Hb; (destruct fuel as [|fuel]; [lia|]);
    pose proof (answers_nonneg (sleeps s) t) as Hnn.
  - assert (k = 0%nat) as -> by lia. rewrite Nat.add_0_r in He. exists (S (sleeps s)). cbn [delay_loop].
    eapply runs_bind; [apply next_sleep_runs|]. apply Z.eqb_neq in He as ->.
    destruct (Z.ltb_spec (clock_nanosleep (sleeps s) t) 0); [lia|]. apply runs_ret.
  - cbn [delay_loop]. destruct (Z.eqb_spec (clock_nanosleep (sleeps s) t) EINTR) as [E|E].
    + destruct k as [|k]; [by rewrite Nat.add_0_r in He|].
      destruct (IH (n + 1) fuel (slept s)) as (sl & Hr); [|lia..|].
      { exists k. split; [lia|]. cbn [sleeps slept]. by replace (S (sleeps s) + k)%nat with (sleeps s + S k)%nat by lia. }
      exists sl. eapply runs_bind; [apply next_sleep_runs|]. rewrite E, Z.eqb_refl.
      eapply runs_bind; [apply int_runs; lia|]. exact Hr.
    + exists (S (sleeps s)). eapply runs_bind; [apply next_sleep_runs|].
      apply Z.eqb_neq in E as ->. destruct (Z.ltb_spec (clock_nanosleep (sleeps s) t) 0); [lia|].
      apply runs_ret.
Qed.

Lemma seqgenex0_cycle_runs fuel i s :
  0 <= i < cycle_count ab N -> (B < fuel)%nat -> delay_ok clock start_time (Z.to_nat i) -> at_cycle i s ->
  exists s', runs (Sequencer_cycle clock clock_nanosleep fuel start_time N
                     (cycle_last clock start_time (Z.to_nat i))) s
               (negb ab && (i + 1 <? N), cycle_time clock start_time (Z.to_nat i)) s'
    /\ at_cycle (i + 1) s'.
Proof.
  intros Hi Hf (d & Hd & Hr) [sl ->]. pose proof (cycle_count_u64 ab N N_u64) as Hc.
  match goal with |- exists s', runs ?m ?s0 ?v s' /\ ?Q s' =>
    enough (H : exists b s', runs m s0 b s' /\ (b = v /\ Q s'))
      by (destruct H as (b & s' & Hrun & -> & HQ); by exists s') end.
  unfold Sequencer_cycle. eapply bind_returns; [eapply runs_bind; [apply next_read_runs|apply runs_ret]|].
  cbn [reads]. replace (clock (Z.to_nat (1 + 2 * i))) with (clock (1 + 2 * Z.to_nat i)%nat) by (f_equal; lia).
  eapply bind_returns.
  { unfold c_long_of_double. fold (cycle_time clock start_time (Z.to_nat i)). rewrite Hd.
    rewrite (proj2 (in_i64_spec d)) by lia. apply runs_ret. }
  eapply bind_returns; [apply next_read_runs|]. cbn [reads clock_read].
  destruct (clock_ok (S (Z.to_nat (1 + 2 * i)))) as [Hn Hs].
  eapply bind_returns; [apply wake_time_runs; [done|lia|lia]|].
  set (t := if NANOSEC_PER_SEC <? _ then _ else _).
  set (s0 := clock_read (clock_read _)).
  destruct (seqgenex0_delay_loop_runs t B 0 fuel s0 (recovers _ t) Hf ltac:(lia) ltac:(lia)) as (sl' & Hsl).
  eapply bind_returns; [exact Hsl|]. eapply bind_returns; [apply runs_get|].
  cbn [seqCnt s0 clock_read]. eapply bind_returns; [apply seqgenex0_release_runs|].
  eapply bind_returns; [apply runs_modify|]. eapply bind_returns; [apply runs_get|].
  rewrite u64_small by (unfold is_u64; lia). eexists _, _. split; [apply runs_ret|].
  split; [done|]. exists sl'. unfold set_seqCnt, emits. cbn. rewrite cycles_succ by lia. f_equal. lia.
Qed.

Lemma Sequencer_loop_runs f m : forall i fuel s, cycle_count ab N - i = Z.of_nat (S m) ->
  0 <= i -> (m < fuel)%nat -> (B < f)%nat ->
  (forall i, Z.of_nat i < cycle_count ab N -> delay_ok clock start_time i) -> at_cycle i s ->
  exists s', runs (Sequencer_loop clock clock_nanosleep f fuel start_time N
                     (cycle_last clock start_time (Z.to_nat i))) s tt s'
    /\ at_cycle (cycle_count ab N) s'.
Proof.
  induction m as [|m IH]; intros i fuel s Hm Hi Hf HB Hok Hs; (destruct fuel as [|fuel]; [lia|]);
    destruct (seqgenex0_cycle_runs f i s ltac:(lia) HB (Hok (Z.to_nat i) ltac:(lia)) Hs) as (s1 & Hr & Hs1);
    rewrite again_flag in Hr by lia; cbn [Sequencer_loop].
  - exists s1. replace (cycle_count ab N) with (i + 1) in * by lia. split; [|done].
    eapply runs_bind; [exact Hr|]. rewrite Z.ltb_irrefl. apply runs_ret.
  - destruct (IH (i + 1) fuel s1 ltac:(lia) ltac:(lia) ltac:(lia) HB Hok Hs1) as (s2 & Hr2 & Hs2).
    exists s2. split; [|done]. eapply runs_bind; [exact Hr|]. cbn [fst snd].
    destruct (Z.ltb_spec (i + 1) (cycle_count ab N)); [|lia].
    replace (cycle_time clock start_time (Z.to_nat i)) with (cycle_last clock start_time (Z.to_nat (i + 1)))
      by (replace (Z.to_nat (i + 1)) with (S (Z.to_nat i)) by lia; done).
    exact Hr2.
Qed.

Lemma seqgenex0_Sequencer_runs fuel : (B < fuel)%nat -> (Z.to_nat (cycle_count ab N) <= fuel)%nat ->
  (forall i, Z.of_nat i < cycle_count ab N -> delay_ok clock start_time i) ->
  exists sl, runs (Sequencer clock clock_nanosleep fuel start_time N) (initial ab) tt
    (mk_seq (cycle_count ab N) ab sl (Z.to_nat (1 + 2 * cycle_count ab N))
       (cycles table 0 (cycle_count ab N) ++ shutdown 3)).
Proof.
  intros HB Hf Hok. pose proof (cycle_count_u64 ab N N_u64) as Hc. unfold Sequencer.
  destruct (Sequencer_loop_runs fuel (Z.to_nat (cycle_count ab N - 1)) 0 fuel (clock_read (initial ab))
    ltac:(lia) ltac:(lia) ltac:(lia) HB Hok) as (s' & Hr & sl & ->); [by exists 0%nat|].
  exists sl. eapply runs_bind; [eapply runs_bind; [apply next_read_runs|apply runs_ret]|].
  eapply runs_bind; [exact Hr|]. apply seqgenex0_shutdown_runs.
Qed.
End run.

(** Hypotheses of the properties, at a clock that stands still. *)
Definition still_clock : nat -> timespec := fun _ => mk_timespec 1000 0.
Definition sleeper : nat -> timespec -> Z :=
  fun i _ => if Nat.even i then EINTR else if Nat.even (i / 2) then EINVAL else 0.

Lemma still_clock_delay_ok i : delay_ok still_clock (d_of_int 990) i.
Proof.
  unfold delay_ok. destruct i as [|i].
  - eexists. split; [vm_compute; reflexivity|lia].
  - eexists. split; [|shelve]. unfold cycle_last, cycle_time, still_clock. vm_compute. reflexivity.
    Unshelve. lia.
Qed.

Lemma sleeper_recovers i t : exists k, (k <= 1)%nat /\ sleeper (i + k) t <> EINTR.
Proof.
  exists (if Nat.even i then 1 else 0)%nat. unfold sleeper.
  destruct (Nat.even i) eqn:E; (split; [lia|]).
  - rewrite Nat.add_1_r, Nat.even_succ, <- Nat.negb_even, E. cbn [negb]. case_match; discriminate.
  - rewrite Nat.add_0_r, E. case_match; discriminate.
Qed.

Lemma sleeper_nonneg i t : 0 <= sleeper i t.
Proof. unfold sleeper. destruct (Nat.even i); [by vm_compute|]. case_match; by vm_compute. Qed.

(** ** Properties *)

(** C38: the run completes under any interruptions and refusals of the sleeps: if
    no answer is negative (POSIX: 0 or an error number) and at most [B]
    consecutive ones are [EINTR], the sequencer makes its [N] cycles, numbered
    from 0, releasing in cycle [n] the services whose sub-rate divides [n], and
    shuts the services down; service [k] is posted [(N - 1) / p + 2] times. In
    particular [EINVAL] and any other error do not stop or delay it. *)
Theorem seqgenex0_completes clock clock_nanosleep start_time ab N (B fuel : nat) :
  (forall i, normalized (clock i) /\ 0 <= tv_sec (clock i) < 2 ^ 62) ->
  (forall i t, 0 <= clock_nanosleep i t) ->
  (forall i t, exists k, (k <= B)%nat /\ clock_nanosleep (i + k)%nat t <> EINTR) ->
  Z.of_nat B < 2 ^ 31 -> is_u64 N -> (B < fuel)%nat -> (Z.to_nat (cycle_count ab N) <= fuel)%nat ->
  (forall i, Z.of_nat i < cycle_count ab N -> delay_ok clock start_time i) ->
  exists s, Sequencer clock clock_nanosleep fuel start_time N (initial ab) = (Ret tt, s) /\
    seqCnt s = cycle_count ab N /\
    actions s = cycles table 0 (cycle_count ab N) ++ shutdown 3 /\
    forall k p, table !! k = Some (Some p) -> posts k (actions s) = (cycle_count ab N - 1) / p + 2.
Proof.
  intros Hclk Ha Hr HB HN Hf1 Hf2 Hok. pose proof (cycle_count_u64 ab N HN) as Hcc.
  destruct (seqgenex0_Sequencer_runs clock clock_nanosleep start_time ab N B Hclk Ha Hr HB HN fuel Hf1 Hf2 Hok)
    as (sl & Hrun).
  eexists. split; [exact Hrun|]. cbn [seqCnt actions]. split_and!; [done..|]. intros k p Hk.
  pose proof (Forall_lookup_1 _ _ _ _ seqgenex0_table_positive Hk p eq_refl) as Hp.
  rewrite posts_app, posts_shutdown by exact (lookup_lt_Some _ _ _ Hk).
  rewrite <- (Z2Nat.id (cycle_count ab N)), (posts_cycles _ _ _ p), Z2Nat.id by (done || lia).
  unfold multiples. replace (0 + cycle_count ab N - 1) with (cycle_count ab N - 1) by lia.
  rewrite <- (Z.div_unique (0 - 1) p (-1) (p - 1)) by lia. lia.
Qed.

Lemma seqgenex0_completes_witness :
  exists s, Sequencer still_clock sleeper 2400 (d_of_int 990) RTSEQ_PERIODS (initial false) = (Ret tt, s) /\
    seqCnt s = RTSEQ_PERIODS /\
    actions s = cycles table 0 RTSEQ_PERIODS ++ shutdown 3 /\
    forall k p, table !! k = Some (Some p) -> posts k (actions s) = (RTSEQ_PERIODS - 1) / p + 2.
Proof.
  apply (seqgenex0_completes still_clock sleeper (d_of_int 990) false RTSEQ_PERIODS 1 2400).
  - intros i. split; [split; vm_compute; congruence|split; vm_compute; congruence].
  - apply sleeper_nonneg.
  - apply sleeper_recovers.
  - reflexivity.
  - split; vm_compute; congruence.
  - lia.
  - vm_compute. lia.
  - intros i _. apply still_clock_delay_ok.
Defined.

(** The wake-up time is the clock value plus the corrected delay, to the
    nanosecond. As long as the delay moves the nanoseconds into [0, 2 s) it is a
    normalized [timespec] except at one value: the test is [>], so a sum of
    exactly one second stays unnormalized, and a kernel refuses it. *)
Theorem seqgenex0_wake_time (now : timespec) (d : Z) (s : seq_state) :
  normalized now -> 0 <= tv_sec now < 2 ^ 62 -> 0 <= tv_nsec now + d < 2 * NANOSEC_PER_SEC ->
  exists t, runs (wake_time now d) s t s /\ nanos t = nanos now + d /\
    (normalized t <-> tv_nsec now + d <> NANOSEC_PER_SEC) /\
    (tv_nsec now + d = NANOSEC_PER_SEC -> t = mk_timespec (tv_sec now) NANOSEC_PER_SEC).
Proof.
  unfold NANOSEC_PER_SEC. intros Hn Hs Hd. eexists.
  split; [apply wake_time_runs; unfold normalized, NANOSEC_PER_SEC in *; (done || lia)|].
  unfold normalized, nanos, NANOSEC_PER_SEC in *.
  destruct (Z.ltb_spec 1000000000 (tv_nsec now + d)); cbn; (split_and!; [lia..|]); intros E; [lia|].
  by rewrite E.
Qed.

Lemma seqgenex0_wake_time_witness :
  exists t, runs (wake_time (mk_timespec 7 990000000) 10000000) (initial false) t (initial false) /\
    nanos t = nanos (mk_timespec 7 990000000) + 10000000 /\
    (normalized t <-> tv_nsec (mk_timespec 7 990000000) + 10000000 <> NANOSEC_PER_SEC) /\
    (tv_nsec (mk_timespec 7 990000000) + 10000000 = NANOSEC_PER_SEC -> t = mk_timespec 7 NANOSEC_PER_SEC).
Proof.
  apply (seqgenex0_wake_time (mk_timespec 7 990000000) 10000000 (initial false));
    [split; vm_compute; congruence|split; vm_compute; congruence|split; vm_compute; congruence].
Defined.
