(* ===== verification/SeqReports.v ===== *)
(** * What the sequencers report

    The functions of [rtos_rte_cp/sequencer_generic] whose results are only printed
    or logged: the clock as a [double] in [seqgen.c], [seqgen2.c] and [seqgen3.c]
    ([getTimeMsec], which nothing calls there, and [realtime]), and the processors of
    [seqgenex0.c] ([get_cpu_core_config]). A set of processors is a predicate on
    numbers below [CPU_SETSIZE]. *)

From S2P Require Import Prelude CDouble.
Local Open Scope Z_scope.

(** ** Clock values *)
Inductive clock_id := CLOCK_MONOTONIC | CLOCK_MONOTONIC_RAW.
Definition MY_CLOCK_TYPE : clock_id := CLOCK_MONOTONIC_RAW.

Definition milliseconds (event_ts : timespec) : double :=
  d_add (d_mul (d_of_int (tv_sec event_ts)) (d_of_int 1000))
        (d_div (d_of_int (tv_nsec event_ts)) (d_of_int 1000000)).
(** Of [seqgen.c], and of [seqgen2.c] and [seqgen3.c]. *)
Definition getTimeMsec (clock_gettime : clock_id -> timespec) : double := milliseconds (clock_gettime CLOCK_MONOTONIC).
Definition getTimeMsec2 (clock_gettime : clock_id -> timespec) : double := milliseconds (clock_gettime MY_CLOCK_TYPE).

Definition realtime (tsptr : timespec) : double :=
  d_add (d_of_int (tv_sec tsptr)) (d_div (d_of_int (tv_nsec tsptr)) (d_of_int 1000000000)).

(** ** Processors *)
Definition CPU_SETSIZE : nat := 1024.
Definition cpu_set : Type := nat -> bool.
Definition CPU_ZERO : cpu_set := fun _ => false.

(** What is printed: an error, or the processors of the thread; and the total. *)
Record report := mk_report { perror : bool; cpus : list nat; total : nat }.

Fixpoint print_cpus (cpuset : cpu_set) (n idx : nat) : list nat :=
  match n with
  | O => []
  | S n => if cpuset idx then idx :: print_cpus cpuset n (S idx) else print_cpus cpuset n (S idx)
  end.
Definition CPU_COUNT (cpuset : cpu_set) : nat :=
  foldl (fun n idx => if cpuset idx then S n else n) 0%nat (seq 0 CPU_SETSIZE).

(** [pthread_getaffinity_np]: its result, and the set it writes if that is 0. *)
Definition get_cpu_core_config (pthread_getaffinity_np : Z * cpu_set) : report :=
  let '(rc, mask) := pthread_getaffinity_np in
  if rc =? 0 then mk_report false (print_cpus mask CPU_SETSIZE 0) (CPU_COUNT mask)
  else mk_report true [] (CPU_COUNT CPU_ZERO).

(** ** Lemmas *)

Lemma print_cpus_elem (cpuset : cpu_set) n : forall (idx k : nat),
  k ∈ print_cpus cpuset n idx <-> (idx <= k < idx + n)%nat /\ cpuset k = true.
Proof.
  induction n as [|n IH]; intros idx k; cbn.
  - rewrite elem_of_nil. lia.
  - destruct (cpuset idx) eqn:Hc; rewrite ?elem_of_cons, IH.
    + split; [intros [->|[? ?]]; [split; [lia|done]|split; [lia|done]]|].
      intros [? ?]. destruct (decide (k = idx)); [by left|right; split; [lia|done]].
    + split; [intros [? ?]; split; [lia|done]|]. intros [? Hk].
      destruct (decide (k = idx)); [congruence|split; [lia|done]].
Qed.

Lemma print_cpus_sorted (cpuset : cpu_set) n : forall (idx i j x y : nat), (i < j)%nat ->
  print_cpus cpuset n idx !! i = Some x -> print_cpus cpuset n idx !! j = Some y -> (x < y)%nat.
Proof.
  induction n as [|n IH]; intros idx i j x y Hij; [done|]. cbn. destruct (cpuset idx); [|by apply IH].
  destruct j as [|j]; [lia|]. destruct i as [|i]; cbn.
  - intros [= <-] Hy%list_elem_of_lookup_2. apply print_cpus_elem in Hy. lia.
  - apply IH. lia.
Qed.

Lemma count_length (cpuset : cpu_set) n : forall (idx a : nat),
  foldl (fun m i => if cpuset i then S m else m) a (seq idx n) = (a + length (print_cpus cpuset n idx))%nat.
Proof.
  induction n as [|n IH]; intros idx a; [cbn; lia|]. cbn [seq foldl print_cpus]. rewrite IH.
  destruct (cpuset idx); cbn; lia.
Qed.

Lemma print_no_cpus n : forall idx, print_cpus CPU_ZERO n idx = [].
Proof. induction n as [|n IH]; intros idx; [done|]. apply IH. Qed.

(** ** Properties *)

(** The processors that are printed are those of the thread, each once, in
    ascending order, and the total is how many they are; after an error nothing is
    printed and the total is 0. *)
Theorem cpus_reported (rc : Z) (mask : cpu_set) :
  let r := get_cpu_core_config (rc, mask) in
  perror r = negb (rc =? 0) /\
  (forall k, k ∈ cpus r <-> rc = 0 /\ (k < CPU_SETSIZE)%nat /\ mask k = true) /\
  (forall i j x y, (i < j)%nat -> cpus r !! i = Some x -> cpus r !! j = Some y -> (x < y)%nat) /\
  total r = length (cpus r).
Proof.
  intros r. unfold r, get_cpu_core_config, CPU_COUNT. generalize CPU_SETSIZE as n. intros n.
  destruct (Z.eqb_spec rc 0) as [->|Hrc]; cbn [perror cpus total negb]; rewrite count_length.
  - split_and!; [done| |intros; by eapply print_cpus_sorted|done].
    intros k. rewrite print_cpus_elem. intuition lia.
  - split_and!; [done| |done|by rewrite print_no_cpus].
    intros k. rewrite elem_of_nil. intuition congruence.
Qed.
