(* ===== verification/RtSetup.v ===== *)
(** * The [main] functions of the sequencers

    Models of [main] in [seqgen.c], [seqgen2.c], [seqgen3.c] and [seqgenex0.c]
    ([rtos_rte_cp/sequencer_generic]): the semaphores, the scheduling policy, the
    thread attributes, the creation of the threads, the timer of [seqgen3.c], and
    the joins. The answers of the operating system are the parameter. What is only
    printed (clock values, processor counts, contention scope) is left out, and
    priorities, which POSIX keeps within a small range, are unbounded integers. *)

From S2P Require Import Prelude Sequencer SeqGen SeqGen2 SeqGen3 SeqGenEx0.
Local Open Scope Z_scope.
Local Open Scope c_scope.

Definition SCHED_OTHER : Z := 0.
Definition SCHED_FIFO : Z := 1.
Definition SCHED_RR : Z := 2.

(** ** The operating system's answers *)
Record os := mk_os {
  os_sem_init : nat -> Z;
  os_priority_max : Z;
  os_priority_min : Z;
  os_getscheduler : Z;
  os_pthread_create : nat -> Z
}.

(** ** State: thread attributes (an uninitialised one is [None]), [rt_param],
    the created threads by slot of the array [threads], and what has been done *)
Record attr := mk_attr {
  at_explicit : bool;
  at_policy : Z;
  at_affinity : option (list Z);
  at_priority : Z
}.

Record created := mk_created { cr_entry : nat; cr_attr : attr }.

Record os_state := mk_os_state {
  semaphores : list nat;
  main_priority : option Z;
  rt_sched_attr : list (option attr);
  rt_param : list (option Z);
  threads : list (option created);
  sequence_periods : option Z;
  timer_interval : option Z;
  joined : list nat
}.

Definition os_initial (n : nat) : os_state :=
  mk_os_state [] None (replicate n None) (replicate n None) (replicate n None) None None [].

Definition set_semaphores v s := mk_os_state v (main_priority s) (rt_sched_attr s) (rt_param s)
  (threads s) (sequence_periods s) (timer_interval s) (joined s).
Definition set_main_priority v s := mk_os_state (semaphores s) v (rt_sched_attr s) (rt_param s)
  (threads s) (sequence_periods s) (timer_interval s) (joined s).
Definition set_rt_sched_attr v s := mk_os_state (semaphores s) (main_priority s) v (rt_param s)
  (threads s) (sequence_periods s) (timer_interval s) (joined s).
Definition set_rt_param v s := mk_os_state (semaphores s) (main_priority s) (rt_sched_attr s) v
  (threads s) (sequence_periods s) (timer_interval s) (joined s).
Definition set_threads v s := mk_os_state (semaphores s) (main_priority s) (rt_sched_attr s) (rt_param s)
  v (sequence_periods s) (timer_interval s) (joined s).
Definition set_sequence_periods v s := mk_os_state (semaphores s) (main_priority s) (rt_sched_attr s)
  (rt_param s) (threads s) v (timer_interval s) (joined s).
Definition set_timer v s := mk_os_state (semaphores s) (main_priority s) (rt_sched_attr s) (rt_param s)
  (threads s) (sequence_periods s) v (joined s).
Definition set_joined v s := mk_os_state (semaphores s) (main_priority s) (rt_sched_attr s) (rt_param s)
  (threads s) (sequence_periods s) (timer_interval s) v.

(** ** The library calls, on the state *)

Definition modify_attr (i : nat) (f : attr -> attr) : C os_state unit :=
  let* s := c_get in
  match rt_sched_attr s !! i with
  | Some (Some a) => c_modify (set_rt_sched_attr (<[i := Some (f a)]> (rt_sched_attr s)))
  | _ => c_undefined Uninitialised
  end.

(** Default attributes: inherited scheduling, no affinity, priority 0. *)
Definition pthread_attr_init (i : nat) : C os_state unit :=
  let* s := c_get in
  c_modify (set_rt_sched_attr (<[i := Some (mk_attr false SCHED_OTHER None 0)]> (rt_sched_attr s))).
Definition pthread_attr_setinheritsched (i : nat) : C os_state unit :=
  modify_attr i (fun a => mk_attr true (at_policy a) (at_affinity a) (at_priority a)).
Definition pthread_attr_setschedpolicy (i : nat) (policy : Z) : C os_state unit :=
  modify_attr i (fun a => mk_attr (at_explicit a) policy (at_affinity a) (at_priority a)).
Definition pthread_attr_setaffinity_np (i : nat) (cpus : list Z) : C os_state unit :=
  modify_attr i (fun a => mk_attr (at_explicit a) (at_policy a) (Some cpus) (at_priority a)).

(** [rt_param[i].sched_priority = prio; pthread_attr_setschedparam(...)]. *)
Definition set_priority (i : nat) (prio : Z) : C os_state unit :=
  let* s := c_get in
  c_modify (set_rt_param (<[i := Some prio]> (rt_param s))) ;;
  modify_attr i (fun a => mk_attr (at_explicit a) (at_policy a) (at_affinity a) prio).

(** Entry 0 is [Sequencer], entry [k] is [Service_k]. The result is only tested
    with [rc < 0], to print. *)
Definition pthread_create (env : os) (i entry : nat) : C os_state unit :=
  let* s := c_get in
  match rt_sched_attr s !! i with
  | Some (Some a) =>
      if os_pthread_create env i =? 0
      then c_modify (set_threads (<[i := Some (mk_created entry a)]> (threads s)))
      else c_ret tt
  | _ => c_undefined Uninitialised
  end.

(** [pthread_join] on an identifier no creation has set is undefined. *)
Definition pthread_join (i : nat) : C os_state unit :=
  let* s := c_get in
  match threads s !! i with
  | Some (Some _) => c_modify (set_joined (joined s ++ [i]))
  | _ => c_undefined Uninitialised
  end.

(** ** The parts of [main] *)

(** [if (sem_init (&semSk, 0, 0)) { ...; exit (-1); }] for one semaphore. *)
Definition init_semaphore (env : os) (k : nat) : C os_state unit :=
  c_when (negb (os_sem_init env k =? 0)) (c_exit (-1)) ;;
  let* s := c_get in c_modify (set_semaphores (semaphores s ++ [k])).
Definition init_semaphores (env : os) (n : nat) : C os_state unit :=
  c_for_each (seq 0 n) (init_semaphore env).

Definition print_scheduler (env : os) : C os_state unit :=
  let schedType := os_getscheduler env in
  if schedType =? SCHED_FIFO then c_ret tt
  else if schedType =? SCHED_OTHER then c_exit (-1)
  else if schedType =? SCHED_RR then c_exit (-1)
  else c_exit (-1).

Definition set_main_scheduler (env : os) : C os_state unit :=
  c_modify (set_main_priority (Some (os_priority_max env))) ;;
  print_scheduler env.

(** The loop that fills [rt_sched_attr]; [affinity i] is the processor of thread
    [i], [None] where the call is commented out. *)
Definition init_attr (env : os) (affinity : nat -> option Z) (i : nat) : C os_state unit :=
  pthread_attr_init i ;;
  pthread_attr_setinheritsched i ;;
  pthread_attr_setschedpolicy i SCHED_FIFO ;;
  match affinity i with
  | Some cpu => pthread_attr_setaffinity_np i [cpu]
  | None => c_ret tt
  end ;;
  set_priority i (os_priority_max env - Z.of_nat i).
Definition init_attrs (env : os) (affinity : nat -> option Z) (n : nat) : C os_state unit :=
  c_for_each (seq 0 n) (init_attr env affinity).

Definition create (env : os) (i : nat) (prio : Z) (entry : nat) : C os_state unit :=
  set_priority i prio ;; pthread_create env i entry.

Definition join_all (n : nat) : C os_state unit := c_for_each (seq 0 n) pthread_join.

Definition even_odd (i : nat) : option Z := Some (if Nat.even i then 2 else 3).

(** ** The four programs *)

Definition seqgen_create (env : os) : C os_state unit :=
  let max := os_priority_max env in
  create env 1 (max - 1) 1 ;; create env 2 (max - 2) 2 ;; create env 3 (max - 3) 3 ;;
  create env 4 (max - 3) 4 ;; create env 5 (max - 3) 5 ;; create env 6 (max - 2) 6 ;;
  create env 7 (os_priority_min env) 7 ;;
  c_modify (set_sequence_periods (Some SeqGen.sequencePeriods)) ;;
  create env 0 max 0.
Definition seqgen_main (env : os) : C os_state unit :=
  init_semaphores env 7 ;; set_main_scheduler env ;;
  init_attrs env (fun _ => None) 8 ;; seqgen_create env ;; join_all 8.

Definition seqgen2_create (env : os) : C os_state unit :=
  let max := os_priority_max env in
  create env 1 (max - 1) 1 ;; create env 2 (max - 2) 2 ;; create env 3 (max - 3) 3 ;;
  create env 4 (max - 4) 4 ;; create env 5 (max - 5) 5 ;; create env 6 (max - 6) 6 ;;
  create env 7 (os_priority_min env) 7 ;;
  c_modify (set_sequence_periods (Some SeqGen2.sequencePeriods)) ;;
  pthread_attr_setaffinity_np 0 [1] ;;
  create env 0 max 0.
Definition seqgen2_main (env : os) : C os_state unit :=
  init_semaphores env 7 ;; set_main_scheduler env ;;
  init_attrs env even_odd 8 ;; seqgen2_create env ;; join_all 8.

Definition seqgen3_create (env : os) : C os_state unit :=
  let max := os_priority_max env in
  create env 0 (max - 1) 1 ;; create env 1 (max - 2) 2 ;; create env 2 (max - 3) 3 ;;
  create env 3 (max - 4) 4 ;; create env 4 (max - 5) 5 ;; create env 5 (max - 6) 6 ;;
  create env 6 (os_priority_min env) 7 ;;
  c_modify (set_sequence_periods (Some SeqGen3.sequencePeriods)) ;;
  c_modify (set_timer (Some 10000000)).
Definition seqgen3_main (env : os) : C os_state unit :=
  init_semaphores env 7 ;; set_main_scheduler env ;;
  init_attrs env even_odd 7 ;; seqgen3_create env ;; join_all 7.

Definition seqgenex0_create (env : os) : C os_state unit :=
  let max := os_priority_max env in
  create env 1 (max - 1) 1 ;; create env 2 (max - 2) 2 ;; create env 3 (max - 3) 3 ;;
  c_modify (set_sequence_periods (Some RTSEQ_PERIODS)) ;;
  create env 0 max 0.
Definition seqgenex0_main (env : os) : C os_state unit :=
  init_semaphores env 3 ;; set_main_scheduler env ;;
  init_attrs env (fun _ => Some 3) 4 ;; seqgenex0_create env ;; join_all 4.

Inductive program := Seqgen | Seqgen2 | Seqgen3 | Seqgenex0.
Definition main (p : program) : os -> C os_state unit :=
  match p with
  | Seqgen => seqgen_main | Seqgen2 => seqgen2_main
  | Seqgen3 => seqgen3_main | Seqgenex0 => seqgenex0_main
  end.
Definition num_threads (p : program) : nat :=
  match p with Seqgen3 => 7 | Seqgenex0 => 4 | _ => 8 end.
Definition num_semaphores (p : program) : nat := match p with Seqgenex0 => 3 | _ => 7 end.

(** The sub-rate at which the program releases [Service_k]. *)
Definition release_period (p : program) (k : nat) : option Z :=
  match k with
  | O => None
  | S k' => mjoin ((match p with
                    | Seqgen => SeqGen.table | Seqgen2 => SeqGen2.table
                    | Seqgen3 => SeqGen3.table | Seqgenex0 => SeqGenEx0.table end) !! k')
  end.

(** ** Specification: the threads a run creates, by slot *)
Definition fifo (cpu : option Z) (prio : Z) : attr :=
  mk_attr true SCHED_FIFO ((fun c => [c]) <$> cpu) prio.
Definition plan (p : program) (max min : Z) : list created :=
  let t cpu k prio := mk_created k (fifo cpu prio) in
  match p with
  | Seqgen =>
      [t None 0%nat max; t None 1%nat (max - 1); t None 2%nat (max - 2); t None 3%nat (max - 3);
       t None 4%nat (max - 3); t None 5%nat (max - 3); t None 6%nat (max - 2); t None 7%nat min]
  | Seqgen2 =>
      [t (Some 1) 0%nat max; t (Some 3) 1%nat (max - 1); t (Some 2) 2%nat (max - 2);
       t (Some 3) 3%nat (max - 3); t (Some 2) 4%nat (max - 4); t (Some 3) 5%nat (max - 5);
       t (Some 2) 6%nat (max - 6); t (Some 3) 7%nat min]
  | Seqgen3 =>
      [t (Some 2) 1%nat (max - 1); t (Some 3) 2%nat (max - 2); t (Some 2) 3%nat (max - 3);
       t (Some 3) 4%nat (max - 4); t (Some 2) 5%nat (max - 5); t (Some 3) 6%nat (max - 6);
       t (Some 2) 7%nat min]
  | Seqgenex0 =>
      [t (Some 3) 0%nat max; t (Some 3) 1%nat (max - 1); t (Some 3) 2%nat (max - 2);
       t (Some 3) 3%nat (max - 3)]
  end.
Definition plan_periods (p : program) : Z :=
  match p with Seqgen => 900 | Seqgenex0 => 2400 | _ => 2000 end.
Definition plan_timer (p : program) : option Z :=
  match p with Seqgen3 => Some 10000000 | _ => None end.

(** Every call succeeds; creation of thread [slot] alone fails, with error [err]. *)
Definition os_success (max min : Z) : os := mk_os (fun _ => 0) max min SCHED_FIFO (fun _ => 0).
Definition os_create_fails (max min : Z) (slot : nat) (err : Z) : os :=
  mk_os (fun _ => 0) max min SCHED_FIFO (fun i => if Nat.eqb i slot then err else 0).

(** ** Lemmas *)

Lemma init_semaphores_run env m : forall j s, (forall i, (j <= i < j + m)%nat -> os_sem_init env i = 0) ->
  runs (c_for_each (seq j m) (init_semaphore env)) s tt (set_semaphores (semaphores s ++ seq j m) s).
Proof.
  induction m as [|m IH]; intros j s Hok; simpl.
  - rewrite app_nil_r. by destruct s.
  - eapply runs_bind; [|eapply eq_trans; [apply IH; intros i Hi; apply Hok; lia|]].
    { unfold init_semaphore. rewrite (Hok j) by lia. eapply runs_bind; [apply runs_ret|].
      eapply runs_bind; [apply runs_get|]. apply runs_modify. }
    destruct s; cbn. by rewrite <- app_assoc.
Qed.

Lemma init_semaphores_exit env k : forall j m s, (k < m)%nat ->
  (forall i, (i < k)%nat -> os_sem_init env (j + i) = 0) -> os_sem_init env (j + k) <> 0 ->
  c_for_each (seq j m) (init_semaphore env) s = (Exit (-1), set_semaphores (semaphores s ++ seq j k) s).
Proof.
  induction k as [|k IH]; intros j [|m] s Hk Hok Hbad; try lia; simpl.
  - rewrite Nat.add_0_r in Hbad. apply Z.eqb_neq in Hbad. rewrite app_nil_r.
    unfold c_bind, init_semaphore, c_bind. rewrite Hbad. by destruct s.
  - assert (Hj : os_sem_init env j = 0) by (rewrite <- (Nat.add_0_r j); apply Hok; lia).
    rewrite (bind_runs _ _ _ tt (set_semaphores (semaphores s ++ [j]) s)).
    + rewrite IH; [|lia| |].
      * destruct s; cbn. by rewrite <- app_assoc.
      * intros i Hi. rewrite Nat.add_succ_comm. apply Hok. lia.
      * by rewrite Nat.add_succ_comm.
    + unfold init_semaphore. rewrite Hj. reflexivity.
Qed.

(** What precedes the first creation of a thread, in any of the programs. *)
Lemma main_prefix p env : exists rest, main p env =
  (init_semaphores env (num_semaphores p) ;; set_main_scheduler env ;; rest).
Proof. destruct p; eexists; reflexivity. Qed.

Lemma main_run p max min :
  runs (main p (os_success max min)) (os_initial (num_threads p)) tt
    (mk_os_state (seq 0 (num_semaphores p)) (Some max) ((fun c => Some (cr_attr c)) <$> plan p max min)
       ((fun c => Some (at_priority (cr_attr c))) <$> plan p max min) (Some <$> plan p max min)
       (Some (plan_periods p)) (plan_timer p) (seq 0 (num_threads p))).
Proof. destruct p; vm_compute; reflexivity. Qed.

(** ** Properties *)

(** When the system grants every call, each program creates the threads of
    its [plan]: per slot the entry function, explicit [SCHED_FIFO], the processor
    and the priority; it hands the sequencer its number of periods, arms the
    timer where there is one, and waits for the threads in slot order. *)
Theorem setup_creates_plan (p : program) (max min : Z) :
  exists s, runs (main p (os_success max min)) (os_initial (num_threads p)) tt s /\
    threads s = Some <$> plan p max min /\ main_priority s = Some max /\
    sequence_periods s = Some (plan_periods p) /\ timer_interval s = plan_timer p /\
    joined s = seq 0 (num_threads p).
Proof. eexists. split; [apply main_run|done]. Qed.

(** A semaphore that cannot be initialised, or a scheduling policy other than
    [SCHED_FIFO], ends the process with status -1 before any thread is created. *)
Theorem setup_refuses (p : program) (env : os) :
  (forall k, (k < num_semaphores p)%nat -> (forall i, (i < k)%nat -> os_sem_init env i = 0) ->
     os_sem_init env k <> 0 ->
     exists s, main p env (os_initial (num_threads p)) = (Exit (-1), s) /\
       semaphores s = seq 0 k /\ threads s = replicate (num_threads p) None) /\
  ((forall i, (i < num_semaphores p)%nat -> os_sem_init env i = 0) ->
     os_getscheduler env <> SCHED_FIFO ->
     exists s, main p env (os_initial (num_threads p)) = (Exit (-1), s) /\
       threads s = replicate (num_threads p) None).
Proof.
  destruct (main_prefix p env) as [rest Hm]. rewrite Hm. split.
  - intros k Hk Hok Hbad. eexists. unfold c_bind, init_semaphores.
    by rewrite (init_semaphores_exit env k 0 (num_semaphores p)).
  - intros Hok Hp. eexists.
    rewrite (bind_runs _ _ _ _ _ (init_semaphores_run env (num_semaphores p) 0 _ ltac:(intros; apply Hok; lia))).
    unfold c_bind, set_main_scheduler, c_bind, print_scheduler. cbn [c_modify].
    apply Z.eqb_neq in Hp. rewrite Hp. by repeat case_match.
Qed.

(** The priorities follow the rates: in every program a service released less
    often never has a higher priority than one released more often, and in all
    but [seqgen.c] a strictly lower one; the sequencer is above them all. *)
Theorem setup_rate_monotonic (p : program) (max min : Z) (s : os_state) i j ci cj :
  min < max - 6 -> runs (main p (os_success max min)) (os_initial (num_threads p)) tt s ->
  threads s !! i = Some (Some ci) -> threads s !! j = Some (Some cj) ->
  (forall pi pj, release_period p (cr_entry ci) = Some pi -> release_period p (cr_entry cj) = Some pj ->
     pi < pj -> at_priority (cr_attr cj) <= at_priority (cr_attr ci) /\
       (p <> Seqgen -> at_priority (cr_attr cj) < at_priority (cr_attr ci))) /\
  (cr_entry ci = 0%nat -> cr_entry cj <> 0%nat -> at_priority (cr_attr cj) < at_priority (cr_attr ci)).
Proof.
  intros Hmin Hr Hi Hj. destruct (runs_det _ _ _ _ _ _ Hr (main_run p max min)) as [_ ->].
  cbn [threads] in Hi, Hj. apply list_lookup_fmap_Some in Hi as (ci' & [= <-] & Hi).
  apply list_lookup_fmap_Some in Hj as (cj' & [= <-] & Hj).
  apply list_elem_of_lookup_2 in Hi, Hj. split.
  - intros pi pj Hpi Hpj Hlt. destruct p; cbn [plan] in Hi, Hj.
    all: set_unfold; destruct_or!; subst; cbn in *; simplify_eq; try lia; (split; [lia|intros; (done || lia)]).
  - intros H0 Hne. destruct p; cbn [plan] in Hi, Hj.
    all: set_unfold; destruct_or!; subst; cbn in *; simplify_eq; lia.
Qed.

Lemma setup_refuses_witness :
  (exists s, main Seqgen2 (mk_os (fun k => if Nat.eqb k 2 then -1 else 0) 99 1 SCHED_FIFO (fun _ => 0))
     (os_initial 8) = (Exit (-1), s) /\ semaphores s = [0; 1]%nat /\ threads s = replicate 8 None) /\
  (exists s, main Seqgen2 (mk_os (fun _ => 0) 99 1 SCHED_RR (fun _ => 0)) (os_initial 8) = (Exit (-1), s) /\
     threads s = replicate 8 None).
Proof.
  split.
  - apply (proj1 (setup_refuses Seqgen2
      (mk_os (fun k => if Nat.eqb k 2 then -1 else 0) 99 1 SCHED_FIFO (fun _ => 0))) 2%nat);
      [simpl; lia| |discriminate]. by intros [|[|i]] Hi; [..|lia].
  - apply (proj2 (setup_refuses Seqgen2 (mk_os (fun _ => 0) 99 1 SCHED_RR (fun _ => 0)))); [done|discriminate].
Defined.

Lemma setup_rate_monotonic_witness :
  at_priority (fifo (Some 3) 98) < at_priority (fifo (Some 1) 99).
Proof.
  apply (proj2 (setup_rate_monotonic Seqgen2 99 1 _ 0 1
    (mk_created 0 (fifo (Some 1) 99)) (mk_created 1 (fifo (Some 3) 98)) ltac:(lia)
    (main_run Seqgen2 99 1) eq_refl eq_refl)); [done|discriminate].
Defined.

(** A failed creation goes unnoticed, since [pthread_create] answers a
    positive error number and the code tests [rc < 0]: every other thread is
    created and started, and [main] waits for the threads before the failed one,
    then joins an identifier that was never set. *)
Theorem setup_create_failure (p : program) (max min err : Z) (slot : nat) :
  (slot < num_threads p)%nat -> 0 < err ->
  exists s, main p (os_create_fails max min slot err) (os_initial (num_threads p)) =
      (Undefined Uninitialised, s) /\
    threads s = <[slot := None]> (Some <$> plan p max min) /\ joined s = seq 0 slot.
Proof.
  intros Hs He. destruct err as [|e|e]; [lia| |lia]. destruct p; cbn [num_threads] in Hs.
  all: do 8 (destruct slot as [|slot]; [first [lia|eexists; split; [vm_compute; reflexivity|done]]|]); lia.
Qed.

Lemma setup_create_failure_witness :
  exists s, main Seqgenex0 (os_create_fails 99 1 2 11) (os_initial 4) = (Undefined Uninitialised, s) /\
    threads s = <[2%nat := None]> (Some <$> plan Seqgenex0 99 1) /\ joined s = [0; 1]%nat.
Proof. apply (setup_create_failure Seqgenex0 99 1 11 2); simpl; lia. Defined.
