(* ===== verification/PosixClock.v ===== *)
(** * [posix_clock.c]: measuring a sleep

    Model of [rtos_rte_cp/RT-Clock/posix_clock.c]: the difference of two clock
    values, the test loop that sleeps and measures, and [main]. The environment
    answers [clock_gettime] (one value per call), [nanosleep] (a return code, and
    what it writes to [remaining_time] if it writes) and the scheduling calls. *)

From S2P Require Import Prelude CDouble.
Local Open Scope Z_scope.
Local Open Scope c_scope.

Definition NSEC_PER_SEC : Z := 1000000000.
Definition NSEC_PER_MSEC : Z := 1000000.
Definition ERROR : Z := -1.
Definition OK : Z := 0.
Definition TEST_SECONDS : Z := 0.
Definition TEST_NANOSECONDS : Z := NSEC_PER_MSEC * 10.
Definition TEST_ITERATIONS : Z := 100.
Definition max_sleep_calls : Z := 3.

(** ** [delta_t], on the object its last argument points to. The differences are
    computed in [long] and stored in [int]. *)
Definition delta_t (stop start : timespec) : C timespec Z :=
  let* d := c_long (tv_sec stop - tv_sec start) in
  let dt_sec := i32 d in
  let* d := c_long (tv_nsec stop - tv_nsec start) in
  let dt_nsec := i32 d in
  if dt_sec =? 0 then
    if (0 <=? dt_nsec) && (dt_nsec <? NSEC_PER_SEC) then
      c_modify (fun _ => mk_timespec 0 dt_nsec) ;; c_ret OK
    else if NSEC_PER_SEC <? dt_nsec then
      c_modify (fun _ => mk_timespec 1 (dt_nsec - NSEC_PER_SEC)) ;; c_ret OK
    else c_ret ERROR
  else if 0 <? dt_sec then
    if (0 <=? dt_nsec) && (dt_nsec <? NSEC_PER_SEC) then
      c_modify (fun _ => mk_timespec dt_sec dt_nsec) ;; c_ret OK
    else if NSEC_PER_SEC <? dt_nsec then
      let* out := c_get in
      let* sec := c_long (tv_sec out + 1) in
      c_modify (fun _ => mk_timespec sec (dt_nsec - NSEC_PER_SEC)) ;; c_ret OK
    else
      c_modify (fun _ => mk_timespec (dt_sec - 1) (NSEC_PER_SEC + dt_nsec)) ;; c_ret OK
  else c_ret OK.

Definition d_ftime (fstart fstop : timespec) : double :=
  let seconds t := d_add (d_of_int (tv_sec t)) (d_div (d_of_int (tv_nsec t)) (d_of_int 1000000000)) in
  d_sub (seconds fstop) (seconds fstart).

(** ** The static variables, how many calls the environment has answered, and
    the lines printed by [end_delay_test]: [rtclk_dt], [real_dt], [delay_error] *)
Record clk := mk_clk {
  sleep_time : timespec;
  sleep_requested : timespec;
  remaining_time : timespec;
  sleep_count : Z;
  rtclk_dt : timespec;
  rtclk_start_time : timespec;
  rtclk_stop_time : timespec;
  delay_error : timespec;
  naps : nat;
  readings : nat;
  reports : list (timespec * double * timespec)
}.

Definition zero_time : timespec := mk_timespec 0 0.
Definition clk_initial : clk :=
  mk_clk zero_time zero_time zero_time 0 zero_time zero_time zero_time zero_time 0 0 [].

Definition set_request (t : timespec) (s : clk) : clk :=
  mk_clk t t (remaining_time s) (sleep_count s) (rtclk_dt s) (rtclk_start_time s) (rtclk_stop_time s)
    (delay_error s) (naps s) (readings s) (reports s).
Definition set_sleep_count (n : Z) (s : clk) : clk :=
  mk_clk (sleep_time s) (sleep_requested s) (remaining_time s) n (rtclk_dt s) (rtclk_start_time s)
    (rtclk_stop_time s) (delay_error s) (naps s) (readings s) (reports s).
Definition nap (written : option timespec) (s : clk) : clk :=
  mk_clk (sleep_time s) (sleep_requested s) (default (remaining_time s) written) (sleep_count s)
    (rtclk_dt s) (rtclk_start_time s) (rtclk_stop_time s) (delay_error s) (S (naps s)) (readings s) (reports s).
Definition sleep_remaining (s : clk) : clk :=
  mk_clk (remaining_time s) (sleep_requested s) (remaining_time s) (sleep_count s) (rtclk_dt s)
    (rtclk_start_time s) (rtclk_stop_time s) (delay_error s) (naps s) (readings s) (reports s).
Definition set_start (t : timespec) (s : clk) : clk :=
  mk_clk (sleep_time s) (sleep_requested s) (remaining_time s) (sleep_count s) (rtclk_dt s) t
    (rtclk_stop_time s) (delay_error s) (naps s) (S (readings s)) (reports s).
Definition set_stop (t : timespec) (s : clk) : clk :=
  mk_clk (sleep_time s) (sleep_requested s) (remaining_time s) (sleep_count s) (rtclk_dt s)
    (rtclk_start_time s) t (delay_error s) (naps s) (S (readings s)) (reports s).
Definition set_dt (t : timespec) (s : clk) : clk :=
  mk_clk (sleep_time s) (sleep_requested s) (remaining_time s) (sleep_count s) t (rtclk_start_time s)
    (rtclk_stop_time s) (delay_error s) (naps s) (readings s) (reports s).
Definition set_error (t : timespec) (s : clk) : clk :=
  mk_clk (sleep_time s) (sleep_requested s) (remaining_time s) (sleep_count s) (rtclk_dt s)
    (rtclk_start_time s) (rtclk_stop_time s) t (naps s) (readings s) (reports s).
Definition report (s : clk) : clk :=
  mk_clk (sleep_time s) (sleep_requested s) (remaining_time s) (sleep_count s) (rtclk_dt s)
    (rtclk_start_time s) (rtclk_stop_time s) (delay_error s) (naps s) (readings s)
    (reports s ++ [(rtclk_dt s, d_ftime (rtclk_start_time s) (rtclk_stop_time s), delay_error s)]).

(** ** The test *)

(** [do { if (nanosleep(...) == 0) break; ... } while (...)] *)
Fixpoint sleep_loop (nanosleep : nat -> Z * option timespec) (fuel : nat) : C clk unit :=
  match fuel with
  | O => fun s => (OutOfFuel, s)
  | S fuel' =>
      let* s := c_get in
      let answer := nanosleep (naps s) in
      c_modify (nap answer.2) ;;
      if answer.1 =? 0 then c_ret tt
      else
        c_modify sleep_remaining ;;
        let* s := c_get in
        c_modify (set_sleep_count (u32 (sleep_count s + 1))) ;;
        let* s := c_get in
        if ((0 <? tv_sec (remaining_time s)) || (0 <? tv_nsec (remaining_time s)))
           && (sleep_count s <? max_sleep_calls)
        then sleep_loop nanosleep fuel' else c_ret tt
  end.

Definition read_clock (clock : nat -> timespec) (put : timespec -> clk -> clk) : C clk unit :=
  let* s := c_get in c_modify (put (clock (readings s))).

Definition delay_iteration (clock : nat -> timespec) (nanosleep : nat -> Z * option timespec)
    (fuel : nat) (idx : Z) : C clk unit :=
  c_modify (set_request (mk_timespec TEST_SECONDS TEST_NANOSECONDS)) ;;
  read_clock clock set_start ;;
  sleep_loop nanosleep fuel ;;
  read_clock clock set_stop ;;
  let* s := c_get in
  let* rc := c_on rtclk_dt set_dt (delta_t (rtclk_stop_time s) (rtclk_start_time s)) in
  let* s := c_get in
  let* rc := c_on delay_error set_error (delta_t (rtclk_dt s) (sleep_requested s)) in
  c_modify report.

Definition delay_test (clock_getres : Z) (clock : nat -> timespec)
    (nanosleep : nat -> Z * option timespec) (fuel : nat) : C clk unit :=
  c_modify (set_sleep_count 0) ;;
  c_when (clock_getres =? ERROR) (c_exit (-1)) ;;
  c_for 0 TEST_ITERATIONS (delay_iteration clock nanosleep fuel).

(** [main] with [RUN_RT_THREAD]; the test runs in a thread that is joined. *)
Definition main (sched_setscheduler pthread_create : Z) (test : C clk unit) : C clk unit :=
  c_when (negb (sched_setscheduler =? 0)) (c_exit (-1)) ;;
  c_when (negb (pthread_create =? 0)) (c_exit (-1)) ;;
  test.

(** ** Specification *)

(** A clock value of this century's clocks: normalized, seconds in 31 bits. *)
Definition clock_value (t : timespec) : Prop := normalized t /\ 0 <= tv_sec t < 2 ^ 31.

(** What [delta_t] returns and leaves in its last argument, which held [out]. *)
Definition delta_of (stop start out : timespec) : Z * timespec :=
  if tv_sec stop <? tv_sec start then (OK, out)
  else if nanos stop <? nanos start then (ERROR, out)
  else let d := nanos stop - nanos start in
       (OK, mk_timespec (d / NANOSEC_PER_SEC) (d mod NANOSEC_PER_SEC)).

(** The clock values of iteration [idx] and the time between them. *)
Definition start_of (clock : nat -> timespec) (idx : nat) : timespec := clock (2 * idx)%nat.
Definition stop_of (clock : nat -> timespec) (idx : nat) : timespec := clock (2 * idx + 1)%nat.
Definition interval (clock : nat -> timespec) (idx : nat) : Z :=
  nanos (stop_of clock idx) - nanos (start_of clock idx).

(** What iteration [idx] reports, [prev] being the error reported before it: the
    exact time and error; but when the clock says the sleep was too short, the
    error reported is the previous one. *)
Definition report_ok (clock : nat -> timespec) (idx : nat) (prev : timespec)
    (r : timespec * double * timespec) : Prop :=
  let '(dt, real_dt, err) := r in
  real_dt = d_ftime (start_of clock idx) (stop_of clock idx) /\
  (0 <= interval clock idx -> nanos dt = interval clock idx /\ normalized dt) /\
  (TEST_NANOSECONDS <= interval clock idx ->
     nanos err = interval clock idx - TEST_NANOSECONDS /\ normalized err) /\
  (0 <= interval clock idx < TEST_NANOSECONDS -> err = prev).
Fixpoint reports_ok (clock : nat -> timespec) (idx : nat) (prev : timespec)
    (l : list (timespec * double * timespec)) : Prop :=
  match l with
  | [] => True
  | r :: l' => report_ok clock idx prev r /\ reports_ok clock (S idx) r.2 l'
  end.
Definition last_error (prev : timespec) (l : list (timespec * double * timespec)) : timespec :=
  foldl (fun _ r => r.2) prev l.

(** ** Lemmas *)

Lemma div_mod_by_sec a b : 0 <= b < NANOSEC_PER_SEC ->
  (a * NANOSEC_PER_SEC + b) / NANOSEC_PER_SEC = a /\ (a * NANOSEC_PER_SEC + b) mod NANOSEC_PER_SEC = b.
Proof.
  unfold NANOSEC_PER_SEC. intros Hb. split.
  - symmetry. apply (Z.div_unique _ _ a b); lia.
  - symmetry. apply (Z.mod_unique _ _ a b); lia.
Qed.

Lemma delta_t_runs stop start out : clock_value stop -> clock_value start ->
  runs (delta_t stop start) out (delta_of stop start out).1 (delta_of stop start out).2.
Proof.
  destruct stop as [s1 n1], start as [s0 n0]. unfold clock_value, normalized. cbn [tv_sec tv_nsec].
  intros [Hn1 Hs1] [Hn0 Hs0]. unfold NANOSEC_PER_SEC in Hn1, Hn0. unfold delta_t, delta_of, nanos.
  cbn [tv_sec tv_nsec].
  eapply runs_bind; [apply long_runs; lia|]. eapply runs_bind; [apply long_runs; lia|].
  rewrite !i32_small by lia. unfold NSEC_PER_SEC.
  destruct (Z.ltb_spec s1 s0).
  { rewrite (proj2 (Z.eqb_neq (s1 - s0) 0)), (proj2 (Z.ltb_ge 0 (s1 - s0))) by lia. apply runs_ret. }
  destruct (Z.ltb_spec (s1 * NANOSEC_PER_SEC + n1) (s0 * NANOSEC_PER_SEC + n0)) as [Hlt|Hge];
    unfold NANOSEC_PER_SEC in *.
  { assert (s1 = s0) as -> by lia. rewrite Z.sub_diag. cbn [Z.eqb].
    rewrite (proj2 (Z.leb_gt 0 (n1 - n0))), (proj2 (Z.ltb_ge 1000000000 (n1 - n0))) by lia. apply runs_ret. }
  set (d := s1 * 1000000000 + n1 - (s0 * 1000000000 + n0)). cbn [fst snd].
  destruct (Z.leb_spec 0 (n1 - n0)); cbn [andb].
  - replace d with ((s1 - s0) * NANOSEC_PER_SEC + (n1 - n0)) by (unfold d, NANOSEC_PER_SEC; lia).
    destruct (div_mod_by_sec (s1 - s0) (n1 - n0)) as [Hd Hm]; [unfold NANOSEC_PER_SEC; lia|].
    fold NANOSEC_PER_SEC. rewrite Hd, Hm. rewrite (proj2 (Z.ltb_lt (n1 - n0) NANOSEC_PER_SEC))
      by (unfold NANOSEC_PER_SEC; lia).
    destruct (Z.eqb_spec (s1 - s0) 0) as [->|]; [reflexivity|].
    rewrite (proj2 (Z.ltb_lt 0 (s1 - s0))) by lia. reflexivity.
  - replace d with ((s1 - s0 - 1) * NANOSEC_PER_SEC + (NANOSEC_PER_SEC + (n1 - n0)))
      by (unfold d, NANOSEC_PER_SEC; lia).
    destruct (div_mod_by_sec (s1 - s0 - 1) (NANOSEC_PER_SEC + (n1 - n0))) as [Hd Hm];
      [unfold NANOSEC_PER_SEC; lia|].
    fold NANOSEC_PER_SEC. rewrite Hd, Hm.
    rewrite (proj2 (Z.eqb_neq (s1 - s0) 0)), (proj2 (Z.ltb_lt 0 (s1 - s0))),
      (proj2 (Z.ltb_ge NANOSEC_PER_SEC (n1 - n0))) by (unfold NANOSEC_PER_SEC; lia).
    reflexivity.
Qed.

(** The difference of two clock values is a clock value, if the old content was. *)
Lemma delta_of_value stop start out :
  clock_value stop -> clock_value start -> clock_value out -> clock_value (delta_of stop start out).2.
Proof.
  intros [Hn1 Hs1] [Hn0 Hs0] Hout. unfold delta_of.
  destruct (Z.ltb_spec (tv_sec stop) (tv_sec start)); [done|].
  destruct (Z.ltb_spec (nanos stop) (nanos start)); [done|].
  unfold clock_value, normalized, nanos, NANOSEC_PER_SEC in *. cbn. split; [apply Z.mod_pos_bound; lia|].
  split; [apply Z.div_pos; lia|]. apply Z.div_lt_upper_bound; lia.
Qed.

Lemma delta_of_exact stop start out : nanos start <= nanos stop -> normalized stop -> normalized start ->
  (delta_of stop start out).1 = OK /\
  nanos (delta_of stop start out).2 = nanos stop - nanos start /\ normalized (delta_of stop start out).2.
Proof.
  intros Hle Hn1 Hn0. unfold delta_of.
  destruct (Z.ltb_spec (tv_sec stop) (tv_sec start));
    [unfold normalized, nanos, NANOSEC_PER_SEC in *; lia|].
  destruct (Z.ltb_spec (nanos stop) (nanos start)); [lia|]. cbn [fst snd]. split; [done|].
  unfold nanos at 1, normalized, NANOSEC_PER_SEC. cbn [tv_sec tv_nsec]. split.
  - pose proof (Z.div_mod (nanos stop - nanos start) 1000000000). lia.
  - by apply Z.mod_pos_bound.
Qed.

Lemma reports_ok_snoc clock l r : forall idx prev,
  reports_ok clock idx prev l -> report_ok clock (idx + length l) (last_error prev l) r ->
  reports_ok clock idx prev (l ++ [r]).
Proof.
  induction l as [|r0 l IH]; intros idx prev Hl Hr; simpl in *.
  - by rewrite Nat.add_0_r in Hr.
  - destruct Hl as [H0 Hl]. split; [done|]. apply IH; [done|]. by rewrite Nat.add_succ_comm.
Qed.

Lemma last_error_snoc prev l r : last_error prev (l ++ [r]) = r.2.
Proof. unfold last_error. by rewrite foldl_app. Qed.

Lemma reports_ok_lookup clock l : forall idx prev, reports_ok clock idx prev l ->
  forall j r, l !! j = Some r -> report_ok clock (idx + j) (last_error prev (take j l)) r.
Proof.
  induction l as [|r0 l IH]; intros idx prev Hl j r Hj; [done|]. destruct Hl as [H0 Hl].
  destruct j as [|j]; simpl in Hj.
  - injection Hj as <-. by rewrite Nat.add_0_r.
  - rewrite <- Nat.add_succ_comm. by apply (IH (S idx)).
Qed.

(** The part of the state a sleep does not touch. *)
Definition measures (s : clk) :=
  (sleep_requested s, rtclk_dt s, rtclk_start_time s, delay_error s, readings s, reports s).

Lemma sleep_loop_runs nanosleep : forall n fuel s, 2 - sleep_count s <= Z.of_nat n -> (n < fuel)%nat ->
  0 <= sleep_count s -> sleep_count s + Z.of_nat n + 1 < 2 ^ 32 ->
  exists s', runs (sleep_loop nanosleep fuel) s tt s' /\ measures s' = measures s /\
    Z.of_nat (naps s) + 1 <= Z.of_nat (naps s') /\
    Z.of_nat (naps s') <= Z.of_nat (naps s) + 1 + (Z.min 2 (sleep_count s') - Z.min 2 (sleep_count s)) /\
    sleep_count s <= sleep_count s' <= sleep_count s + (Z.of_nat (naps s') - Z.of_nat (naps s)).
Proof.
  induction n as [|n IH]; intros fuel s Hc Hf H0 Hw; (destruct fuel as [|fuel]; [lia|]); cbn [sleep_loop];
    set (ans := nanosleep (naps s)); set (s1 := sleep_remaining (nap ans.2 s));
    set (s2 := set_sleep_count (sleep_count s + 1) s1).
  all: destruct (Z.eqb_spec ans.1 0) as [E|E];
    [ exists (nap ans.2 s); split;
      [eapply runs_bind; [apply runs_get|]; eapply runs_bind; [apply runs_modify|];
       fold ans; rewrite E; apply runs_ret|cbn; split; [done|lia]] |].
  all: assert (Hstep : forall v s',
         runs (if ((0 <? tv_sec (remaining_time s2)) || (0 <? tv_nsec (remaining_time s2)))
                  && (sleep_count s + 1 <? max_sleep_calls)
               then sleep_loop nanosleep fuel else c_ret tt) s2 v s' ->
         runs (sleep_loop nanosleep (S fuel)) s v s')
      by (intros v s' Hr; cbn [sleep_loop];
          eapply runs_bind; [apply runs_get|]; eapply runs_bind; [apply runs_modify|]; fold ans;
          apply Z.eqb_neq in E as ->; eapply runs_bind; [apply runs_modify|];
          eapply runs_bind; [apply runs_get|]; eapply runs_bind; [apply runs_modify|];
          eapply runs_bind; [apply runs_get|];
          cbn [sleep_count sleep_remaining nap];
          rewrite u32_small by (unfold is_u32; lia); exact Hr).
  - exists s2. split; [apply Hstep; unfold max_sleep_calls;
      rewrite (proj2 (Z.ltb_ge (sleep_count s + 1) 3)), andb_false_r by lia; apply runs_ret|].
    cbn. split; [done|lia].
  - destruct (((0 <? tv_sec (remaining_time s2)) || (0 <? tv_nsec (remaining_time s2)))
               && (sleep_count s + 1 <? max_sleep_calls)) eqn:Eb.
    + apply andb_true_iff in Eb as [_ Eb%Z.ltb_lt]. unfold max_sleep_calls in Eb.
      destruct (IH fuel s2) as (s' & Hr & Hm & Hn); [cbn; lia..|].
      exists s'. split; [by apply Hstep|]. split; [by rewrite Hm|]. cbn in Hn. lia.
    + exists s2. split; [apply Hstep; apply runs_ret|]. cbn. split; [done|lia].
Qed.

(** The state before iteration [idx]. *)
Record before (clock : nat -> timespec) (idx : Z) (s : clk) : Prop := mk_before {
  bf_readings : Z.of_nat (readings s) = 2 * idx;
  bf_dt : clock_value (rtclk_dt s);
  bf_error : clock_value (delay_error s);
  bf_naps : idx <= Z.of_nat (naps s) <= idx + Z.min 2 (sleep_count s);
  bf_count : 0 <= sleep_count s <= Z.of_nat (naps s);
  bf_length : Z.of_nat (length (reports s)) = idx;
  bf_reports : reports_ok clock 0 zero_time (reports s);
  bf_last : last_error zero_time (reports s) = delay_error s
}.

Lemma requested_value : clock_value (mk_timespec TEST_SECONDS TEST_NANOSECONDS).
Proof. repeat split; vm_compute; congruence. Qed.

(** The two differences of an iteration make the report it should. *)
Lemma iteration_report clock idx prev old : let request := mk_timespec TEST_SECONDS TEST_NANOSECONDS in
  clock_value (start_of clock idx) -> clock_value (stop_of clock idx) -> clock_value old ->
  let dt := (delta_of (stop_of clock idx) (start_of clock idx) old).2 in
  report_ok clock idx prev
    (dt, d_ftime (start_of clock idx) (stop_of clock idx), (delta_of dt request prev).2).
Proof.
  intros request [Hn0 Hs0] [Hn1 Hs1] [Hno Hso] dt. split; [done|].
  assert (Hdt : 0 <= interval clock idx -> nanos dt = interval clock idx /\ normalized dt).
  { unfold interval. intros Hi.
    destruct (delta_of_exact (stop_of clock idx) (start_of clock idx) old) as (_ & H1 & H2); [lia|done|done|].
    by split. }
  assert (Hreq : nanos request = TEST_NANOSECONDS) by done.
  split; [exact Hdt|]. split.
  - intros Hi. destruct Hdt as [H1 H2]; [unfold TEST_NANOSECONDS, NSEC_PER_MSEC in Hi; lia|].
    destruct (delta_of_exact dt request prev) as (_ & H3 & H4); [lia|done|apply requested_value|].
    split; [by rewrite H3, H1, Hreq|done].
  - intros [Hi0 Hi]. destruct (Hdt Hi0) as [H1 H2]. unfold delta_of.
    destruct (Z.ltb_spec (tv_sec dt) (tv_sec request)); [done|].
    destruct (Z.ltb_spec (nanos dt) (nanos request)); [done|lia].
Qed.

Section test.
Context (clock : nat -> timespec) (nanosleep : nat -> Z * option timespec) (fuel : nat).
Context (clock_ok : forall i, clock_value (clock i)) (fuel_ok : (3 <= fuel)%nat).

Lemma iteration_runs idx : 0 <= idx < TEST_ITERATIONS ->
  hoare (before clock idx) (delay_iteration clock nanosleep fuel idx) (fun _ => before clock (idx + 1)).
Proof.
  intros Hidx s0 [Hread Hdt Herr Hnaps Hcount Hlen Hrep Hlast]. unfold delay_iteration, TEST_ITERATIONS in *.
  set (request := mk_timespec TEST_SECONDS TEST_NANOSECONDS).
  eapply bind_returns; [apply runs_modify|].
  eapply bind_returns; [eapply runs_bind; [apply runs_get|apply runs_modify]|].
  set (s1 := set_start _ _).
  destruct (sleep_loop_runs nanosleep 2 fuel s1) as (s2 & Hr & Hm & Hn1 & Hn2 & Hc); [cbn; lia..|].
  eapply bind_returns; [exact Hr|]. destruct s2 as [st sr rt sc dt st0 sp de np rd rp]. cbn in Hm, Hn1, Hn2, Hc.
  injection Hm as -> -> -> -> -> ->.
  eapply bind_returns; [eapply runs_bind; [apply runs_get|apply runs_modify]|].
  eapply bind_returns; [apply runs_get|]. set (i := Z.to_nat idx).
  assert (Hr1 : readings s0 = (2 * i)%nat) by lia.
  cbn [readings set_stop rtclk_stop_time rtclk_start_time]. rewrite Hr1.
  replace (S (2 * i)) with (2 * i + 1)%nat by lia. fold (start_of clock i). fold (stop_of clock i).
  assert (Hva : clock_value (start_of clock i)) by apply clock_ok.
  assert (Hvo : clock_value (stop_of clock i)) by apply clock_ok.
  eapply bind_returns; [apply on_runs; by apply delta_t_runs|]. eapply bind_returns; [apply runs_get|].
  pose proof (delta_of_value (stop_of clock i) (start_of clock i) (rtclk_dt s0) Hvo Hva Hdt) as Hvd.
  eapply bind_returns; [apply on_runs, delta_t_runs; [exact Hvd|apply requested_value]|].
  eexists _, _. split; [apply runs_modify|].
  pose proof (iteration_report clock i (delay_error s0) (rtclk_dt s0) Hva Hvo Hdt) as Hro.
  constructor; cbn [readings rtclk_dt delay_error naps sleep_count reports report set_dt set_error set_stop].
  - cbn in Hr1. lia.
  - exact Hvd.
  - apply delta_of_value; [exact Hvd|apply requested_value|exact Herr].
  - cbn in *. lia.
  - cbn in *. lia.
  - rewrite length_app. cbn. cbn in Hlen. lia.
  - apply reports_ok_snoc; [exact Hrep|].
    assert (Hidx0 : (0 + length (reports s0))%nat = i) by lia.
    rewrite <- Hlast in Hro |- *. change (reports (set_stop _ _)) with (reports s0).
    rewrite Hidx0. exact Hro.
  - apply last_error_snoc.
Qed.

Lemma delay_test_runs clock_getres : clock_getres <> ERROR ->
  exists s, runs (delay_test clock_getres clock nanosleep fuel) clk_initial tt s /\
    before clock TEST_ITERATIONS s.
Proof.
  intros Hg. unfold delay_test.
  destruct (hoare_for (before clock) (delay_iteration clock nanosleep fuel) TEST_ITERATIONS ltac:(done)
    iteration_runs (set_sleep_count 0 clk_initial)) as ([] & s & Hr & Hb).
  { constructor; (done || (repeat split; vm_compute; congruence)). }
  exists s. split; [|done]. eapply runs_bind; [apply runs_modify|].
  apply Z.eqb_neq in Hg. rewrite Hg. eapply runs_bind; [apply runs_ret|]. exact Hr.
Qed.
End test.

(** ** Properties *)

(** On values of a clock, [delta_t] computes the difference: when the stop is
    not earlier it returns [OK] and stores, normalized, the nanoseconds between
    them; an earlier stop within the same second is an [ERROR] and nothing is
    stored; but a stop in an earlier second is answered [OK], with nothing stored. *)
Theorem delta_t_correct (stop start out : timespec) :
  clock_value stop -> clock_value start ->
  exists rc out', runs (delta_t stop start) out rc out' /\
    (nanos start <= nanos stop ->
       rc = OK /\ nanos out' = nanos stop - nanos start /\ normalized out') /\
    (nanos stop < nanos start -> tv_sec stop = tv_sec start -> rc = ERROR /\ out' = out) /\
    (tv_sec stop < tv_sec start -> rc = OK /\ out' = out).
Proof.
  intros H1 H0. eexists _, _. split; [by apply delta_t_runs|]. split_and!.
  - intros Hle. destruct H1 as [H1 _], H0 as [H0 _]. by apply delta_of_exact.
  - intros Hlt Heq. unfold delta_of. rewrite Heq, Z.ltb_irrefl. by rewrite (proj2 (Z.ltb_lt _ _) Hlt).
  - intros Hlt. unfold delta_of. by rewrite (proj2 (Z.ltb_lt _ _) Hlt).
Qed.

Lemma delta_t_correct_witness :
  exists rc out', runs (delta_t (mk_timespec 12 5) (mk_timespec 10 999999999)) zero_time rc out' /\
    (nanos (mk_timespec 10 999999999) <= nanos (mk_timespec 12 5) ->
       rc = OK /\ nanos out' = nanos (mk_timespec 12 5) - nanos (mk_timespec 10 999999999) /\ normalized out') /\
    (nanos (mk_timespec 12 5) < nanos (mk_timespec 10 999999999) -> 12 = 10 -> rc = ERROR /\ out' = zero_time) /\
    (12 < 10 -> rc = OK /\ out' = zero_time).
Proof.
  apply (delta_t_correct (mk_timespec 12 5) (mk_timespec 10 999999999) zero_time);
    repeat split; vm_compute; congruence.
Defined.

(** The test ends whatever the sleeps answer: 100 reports, and between 100
    and 102 calls of [nanosleep], because the retry budget [max_sleep_calls] is
    one for the whole test: after the third interruption no sleep is retried. *)
Theorem delay_test_sleeps (clock : nat -> timespec) nanosleep (clock_getres : Z) (fuel : nat) :
  (forall i, clock_value (clock i)) -> clock_getres <> ERROR -> (3 <= fuel)%nat ->
  exists s, runs (delay_test clock_getres clock nanosleep fuel) clk_initial tt s /\
    length (reports s) = 100%nat /\ (100 <= naps s <= 102)%nat.
Proof.
  intros Hc Hg Hf. destruct (delay_test_runs clock nanosleep fuel Hc Hf clock_getres Hg) as (s & Hr & Hb).
  exists s. split; [done|]. destruct Hb. unfold TEST_ITERATIONS in *. lia.
Qed.

Lemma delay_test_sleeps_witness :
  exists s, runs (delay_test 0 (fun _ => zero_time) (fun _ => (-1, Some (mk_timespec 0 5))) 3) clk_initial tt s /\
    length (reports s) = 100%nat /\ (100 <= naps s <= 102)%nat.
Proof.
  apply (delay_test_sleeps (fun _ => zero_time) (fun _ => (-1, Some (mk_timespec 0 5))) 0 3);
    [intros _; repeat split; vm_compute; congruence|discriminate|lia].
Defined.

(** What iteration [idx] reports, whatever the sleeps answer: the exact time
    between its two clock values when the clock does not go back, and the exact
    excess over the requested 10 ms when it is not negative; a sleep that was
    too short is reported with the error of the iteration before. *)
Theorem delay_test_reports (clock : nat -> timespec) nanosleep (clock_getres : Z) (fuel : nat) :
  (forall i, clock_value (clock i)) -> clock_getres <> ERROR -> (3 <= fuel)%nat ->
  exists s, runs (delay_test clock_getres clock nanosleep fuel) clk_initial tt s /\
    forall idx dt real_dt err, reports s !! idx = Some (dt, real_dt, err) ->
      (0 <= interval clock idx -> nanos dt = interval clock idx /\ normalized dt) /\
      (TEST_NANOSECONDS <= interval clock idx ->
         nanos err = interval clock idx - TEST_NANOSECONDS /\ normalized err) /\
      (0 <= interval clock idx < TEST_NANOSECONDS -> err = last_error zero_time (take idx (reports s))).
Proof.
  intros Hc Hg Hf. destruct (delay_test_runs clock nanosleep fuel Hc Hf clock_getres Hg) as (s & Hr & Hb).
  exists s. split; [done|]. intros idx dt real_dt err Hl.
  apply (reports_ok_lookup clock (reports s) 0 zero_time (bf_reports _ _ _ Hb) idx) in Hl. apply Hl.
Qed.

Lemma delay_test_reports_witness :
  exists s, runs (delay_test 0 (fun i => mk_timespec (Z.of_nat i mod 100) 0) (fun _ => (0, None)) 3) clk_initial tt s /\
    forall idx dt real_dt err, reports s !! idx = Some (dt, real_dt, err) ->
      let clock := fun i => mk_timespec (Z.of_nat i mod 100) 0 in
      (0 <= interval clock idx -> nanos dt = interval clock idx /\ normalized dt) /\
      (TEST_NANOSECONDS <= interval clock idx ->
         nanos err = interval clock idx - TEST_NANOSECONDS /\ normalized err) /\
      (0 <= interval clock idx < TEST_NANOSECONDS -> err = last_error zero_time (take idx (reports s))).
Proof.
  apply (delay_test_reports (fun i => mk_timespec (Z.of_nat i mod 100) 0) (fun _ => (0, None)) 0 3);
    [|discriminate|lia].
  intros i. pose proof (Z.mod_pos_bound (Z.of_nat i) 100 ltac:(lia)).
  unfold clock_value, normalized, NANOSEC_PER_SEC. cbn [tv_sec tv_nsec]. lia.
Defined.
