(* ===== verification/Timers.v ===== *)
(** * The interval-timer programs

    Models of [rtos_rte_cp/timer]: [posix_rt_timer.c] (jitter of a periodic
    timer), [posix_sw_wd.c] (software watchdog), [itimer.c] (tick and tock) and
    [posix_timer.c] (the interval given on the command line). A run of a program
    whose [main] ends in [pause] for ever is a sequence of signals. *)

From S2P Require Import Prelude CDouble.
Local Open Scope Z_scope.
Local Open Scope c_scope.

Module PosixRtTimer.
Definition NSEC_PER_MSEC : Z := 1000000.
Definition NSEC_PER_SEC : Z := 1000000000.

(** The static variables; [itime_nsec] is the [tv_nsec] the timer was armed with
    ([tv_sec] is 0), [None] before; [readings] counts the clock readings. *)
Record rt := mk_rt {
  period_millisecs : Z;
  period_nsecs : Z;
  itime_nsec : option Z;
  tick_count : Z;
  rtclk_time : timespec;
  rtclk_start_time : timespec;
  rtclk_last_time : timespec;
  accum_jitter_nsec : Z;
  tick_error : Z;
  readings : nat
}.

Definition rt_initial : rt :=
  mk_rt 10 10000000 None 0 (mk_timespec 0 0) (mk_timespec 0 0) (mk_timespec 0 0) 0 0 0.

Definition set_period (ms ns : Z) (s : rt) : rt :=
  mk_rt ms ns (itime_nsec s) (tick_count s) (rtclk_time s) (rtclk_start_time s) (rtclk_last_time s)
    (accum_jitter_nsec s) (tick_error s) (readings s).
Definition reset (s : rt) : rt :=
  mk_rt (period_millisecs s) (period_nsecs s) (itime_nsec s) 0 (mk_timespec 0 0) (rtclk_start_time s)
    (rtclk_last_time s) 0 (tick_error s) (readings s).
Definition arm (nsec : Z) (s : rt) : rt :=
  mk_rt (period_millisecs s) (period_nsecs s) (Some nsec) (tick_count s) (rtclk_time s)
    (rtclk_start_time s) (rtclk_last_time s) (accum_jitter_nsec s) (tick_error s) (readings s).
Definition started (t : timespec) (s : rt) : rt :=
  mk_rt (period_millisecs s) (period_nsecs s) (itime_nsec s) (tick_count s) (rtclk_time s) t t
    (accum_jitter_nsec s) (tick_error s) (S (readings s)).
Definition ticked (t : timespec) (s : rt) : rt :=
  mk_rt (period_millisecs s) (period_nsecs s) (itime_nsec s) (u64 (tick_count s + 1)) t
    (rtclk_start_time s) (rtclk_last_time s) (accum_jitter_nsec s) (tick_error s) (S (readings s)).
Definition jittered (err jitter : Z) (s : rt) : rt :=
  mk_rt (period_millisecs s) (period_nsecs s) (itime_nsec s) (tick_count s) (rtclk_time s)
    (rtclk_start_time s) (rtclk_time s) (u64 (accum_jitter_nsec s + jitter)) err (readings s).

(** [main] up to the endless [pause]; [atoi] is the value of the argument. The
    products with [NSEC_PER_MSEC] are products of [int]. *)
Definition main (clock : nat -> timespec) (argc atoi : Z) : C rt unit :=
  let* s := c_get in
  let* ms := (if argc =? 2 then c_ret atoi
              else if argc =? 1 then c_ret (period_millisecs s)
              else c_exit 1) in
  let* ns := c_int (ms * NSEC_PER_MSEC) in
  c_modify (set_period ms (u64 ns)) ;;
  c_modify reset ;;
  let* nsec := c_int (ms * NSEC_PER_MSEC) in
  c_modify (arm nsec) ;;
  let* s := c_get in
  c_modify (started (clock (readings s))).

(** The handler. The difference to the period is taken in [unsigned long long]
    and stored in an [int]; [abs(INT_MIN)] overflows. *)
Definition monitor_interval_expired (clock : nat -> timespec) : C rt unit :=
  let* s := c_get in
  c_modify (ticked (clock (readings s))) ;;
  let* s := c_get in
  let now := rtclk_time s in
  let last := rtclk_last_time s in
  let* dsec := c_long (tv_sec now - tv_sec last) in
  let* dsec_ns := c_long (dsec * NSEC_PER_SEC) in
  let* dnsec := c_long (tv_nsec now - tv_nsec last) in
  let* d := c_long (dsec_ns + dnsec) in
  let err := i32 (u64 (d - period_nsecs s)) in
  let* jitter := c_int (Z.abs err) in
  c_modify (jittered err jitter).

(** The tick-based time [ptimer_shutdown] prints, before it exits with status 0:
    unsigned quotient and remainder by the period in milliseconds. *)
Definition tick_delta (s : rt) : C rt (Z * Z) :=
  if u64 (period_millisecs s) =? 0 then c_undefined DivisionByZero
  else c_ret (tick_count s / u64 (period_millisecs s),
              u64 (tick_count s mod u64 (period_millisecs s) * period_nsecs s)).
Definition ptimer_shutdown : C rt unit :=
  let* s := c_get in
  let* d := tick_delta s in
  c_exit 0.

(** [n] deliveries of the timer's signal. *)
Definition expiries (clock : nat -> timespec) (n : nat) : C rt unit :=
  c_for_each (seq 0 n) (fun _ => monitor_interval_expired clock).

(** ** Specification *)

(** Time between expiry [i] (expiry 0 is the start) and the next, in excess of
    the period. *)
Definition excess (clock : nat -> timespec) (period : Z) (i : nat) : Z :=
  nanos (clock (S i)) - nanos (clock i) - period.
Definition total_jitter (clock : nat -> timespec) (period : Z) (n : nat) : Z :=
  foldr Z.add 0 ((fun i => Z.abs (excess clock period i)) <$> seq 0 n).

(** The state after [n] expiries of a timer armed with [p] milliseconds. *)
Definition after_expiries (clock : nat -> timespec) (p : Z) (n : nat) : rt :=
  mk_rt p (p * NSEC_PER_MSEC) (Some (p * NSEC_PER_MSEC)) (Z.of_nat n)
    (if decide (n = 0%nat) then mk_timespec 0 0 else clock n) (clock 0%nat) (clock n)
    (total_jitter clock (p * NSEC_PER_MSEC) n)
    (match n with O => 0 | S n' => excess clock (p * NSEC_PER_MSEC) n' end) (S n).

Lemma i32_of_u64 z : - 2 ^ 31 <= z < 2 ^ 31 -> i32 (u64 z) = z.
Proof.
  intros Hz. unfold i32, u64.
  rewrite <- (Z.mod_unique z (2 ^ 64) (if z <? 0 then -1 else 0) (if z <? 0 then z + 2 ^ 64 else z))
    by (destruct (Z.ltb_spec z 0); lia).
  destruct (Z.ltb_spec z 0).
  - rewrite <- (Z.mod_unique (z + 2 ^ 64 + 2 ^ 31) (2 ^ 32) (2 ^ 32) (z + 2 ^ 31)) by lia. lia.
  - rewrite Z.mod_small; lia.
Qed.

Lemma total_jitter_succ clock period n :
  total_jitter clock period (S n) = total_jitter clock period n + Z.abs (excess clock period n).
Proof.
  unfold total_jitter. rewrite seq_S, fmap_app. simpl.
  assert (H : forall l k, foldr Z.add 0 (l ++ [k]) = foldr Z.add 0 l + k)
    by (intros l k; induction l as [|z l IH]; simpl; lia).
  apply H.
Qed.

Section expiry.
Context (clock : nat -> timespec) (p : Z).
Context (p_ok : 1 <= p <= 2147).
Context (clock_ok : forall i, normalized (clock i) /\ 0 <= tv_sec (clock i) < 2 ^ 31).
Context (close : forall i, - 2 ^ 31 < excess clock (p * NSEC_PER_MSEC) i < 2 ^ 31).

Lemma total_jitter_bound n :
  0 <= total_jitter clock (p * NSEC_PER_MSEC) n <= 2 ^ 31 * Z.of_nat n.
Proof.
  induction n as [|n IH]; [by vm_compute|]. rewrite total_jitter_succ.
  pose proof (close n). lia.
Qed.

Lemma expiry_runs n : Z.of_nat n < 2 ^ 32 ->
  runs (monitor_interval_expired clock) (after_expiries clock p n) tt (after_expiries clock p (S n)).
Proof.
  intros Hn. pose proof (total_jitter_bound (S n)) as Hb. pose proof (close n) as Hc.
  pose proof (total_jitter_succ clock (p * NSEC_PER_MSEC) n) as Hsum. unfold monitor_interval_expired.
  eapply runs_bind; [apply runs_get|]. eapply runs_bind; [apply runs_modify|].
  eapply runs_bind; [apply runs_get|].
  cbn [rtclk_time rtclk_last_time period_nsecs ticked after_expiries readings].
  destruct (clock_ok n) as [Hn0 Hs0], (clock_ok (S n)) as [Hn1 Hs1].
  unfold normalized, NANOSEC_PER_SEC in Hn0, Hn1.
  eapply runs_bind; [apply long_runs; lia|]. eapply runs_bind; [apply long_runs; unfold NSEC_PER_SEC; lia|].
  eapply runs_bind; [apply long_runs; lia|]. eapply runs_bind; [apply long_runs; unfold NSEC_PER_SEC; lia|].
  assert (E : (tv_sec (clock (S n)) - tv_sec (clock n)) * NSEC_PER_SEC
              + (tv_nsec (clock (S n)) - tv_nsec (clock n)) - p * NSEC_PER_MSEC
            = excess clock (p * NSEC_PER_MSEC) n)
    by (unfold excess, nanos, NSEC_PER_SEC, NANOSEC_PER_SEC; lia).
  rewrite E, i32_of_u64 by lia.
  eapply runs_bind; [apply int_runs; lia|].
  unfold runs, c_modify, jittered, ticked, after_expiries.
  cbn [period_millisecs period_nsecs itime_nsec tick_count rtclk_time rtclk_start_time
       rtclk_last_time accum_jitter_nsec tick_error readings].
  rewrite <- Hsum, !u64_small by (unfold is_u64; lia).
  by replace (Z.of_nat n + 1) with (Z.of_nat (S n)) by lia.
Qed.

Lemma main_runs argc atoi : (argc = 2 /\ atoi = p) \/ (argc = 1 /\ p = 10) ->
  runs (main clock argc atoi) rt_initial tt (after_expiries clock p 0).
Proof.
  intros Harg. unfold main. eapply runs_bind; [apply runs_get|].
  eapply (runs_bind _ _ _ p rt_initial); [destruct Harg as [[-> ->]|[-> ->]]; apply runs_ret|].
  eapply runs_bind; [apply int_runs; unfold NSEC_PER_MSEC; lia|].
  eapply runs_bind; [apply runs_modify|]. eapply runs_bind; [apply runs_modify|].
  eapply runs_bind; [apply int_runs; unfold NSEC_PER_MSEC; lia|].
  eapply runs_bind; [apply runs_modify|]. eapply runs_bind; [apply runs_get|].
  unfold runs, c_modify, started, arm, reset, set_period, after_expiries. cbn.
  by rewrite u64_small by (unfold is_u64, NSEC_PER_MSEC; lia).
Qed.

Lemma expiries_run n : Z.of_nat n < 2 ^ 32 ->
  runs (expiries clock n) (after_expiries clock p 0) tt (after_expiries clock p n).
Proof.
  unfold expiries. induction n as [|n IH]; intros Hn; [reflexivity|].
  rewrite seq_S. eapply for_each_snoc; [apply IH; lia|]. apply expiry_runs. lia.
Qed.
End expiry.

(** ** Properties *)

(** The accumulated jitter is the sum of the absolute differences between
    the time from one expiry to the next and the period, as long as each of them
    is under 2^31 ns, and [tick_count] the number of expiries (up to 2^32). *)
Theorem jitter_accumulates (clock : nat -> timespec) (p argc atoi : Z) (n : nat) :
  1 <= p <= 2147 -> (argc = 2 /\ atoi = p) \/ (argc = 1 /\ p = 10) ->
  (forall i, normalized (clock i) /\ 0 <= tv_sec (clock i) < 2 ^ 31) ->
  (forall i, - 2 ^ 31 < excess clock (p * NSEC_PER_MSEC) i < 2 ^ 31) -> Z.of_nat n < 2 ^ 32 ->
  exists s, runs (main clock argc atoi ;; expiries clock n) rt_initial tt s /\
    tick_count s = Z.of_nat n /\ rtclk_last_time s = clock n /\
    accum_jitter_nsec s = total_jitter clock (p * NSEC_PER_MSEC) n.
Proof.
  intros Hp Harg Hc He Hn. exists (after_expiries clock p n).
  split; [eapply runs_bind; [by apply main_runs|by apply expiries_run]|done].
Qed.

Lemma jitter_accumulates_witness :
  exists s, runs (main (fun _ => mk_timespec 3 0) 2 20 ;; expiries (fun _ => mk_timespec 3 0) 5) rt_initial tt s /\
    tick_count s = 5 /\ rtclk_last_time s = mk_timespec 3 0 /\
    accum_jitter_nsec s = total_jitter (fun _ => mk_timespec 3 0) 20000000 5.
Proof.
  apply (jitter_accumulates (fun _ => mk_timespec 3 0) 20 2 20 5); [lia|by left| |..].
  - intros i. repeat split; vm_compute; congruence.
  - intros i. vm_compute. split; congruence.
  - lia.
Defined.

(** The period argument: up to 999 ms the timer is armed with it; from 1000
    to 2147 ms it is armed with a [tv_nsec] out of range, which [timer_settime]
    refuses and nobody notices; beyond that the product overflows an [int]. *)
Theorem period_bounds (clock : nat -> timespec) (p : Z) :
  0 <= p < 2 ^ 31 ->
  let r := main clock 2 p rt_initial in
  (p <= 2147 -> r.1 = Ret tt /\ itime_nsec r.2 = Some (p * NSEC_PER_MSEC) /\
     (normalized (mk_timespec 0 (p * NSEC_PER_MSEC)) <-> p <= 999)) /\
  (2147 < p -> r.1 = Undefined SignedOverflow /\ itime_nsec r.2 = None).
Proof.
  intros Hp r. unfold r, main. rewrite (bind_runs _ _ _ _ _ (runs_get _)).
  rewrite (bind_runs _ _ _ p rt_initial) by reflexivity. split; intros Hp2.
  - rewrite (bind_runs _ _ _ _ _ (int_runs (p * NSEC_PER_MSEC) _ ltac:(unfold NSEC_PER_MSEC; lia))).
    rewrite (bind_runs _ _ _ _ _ (runs_modify _ _)), (bind_runs _ _ _ _ _ (runs_modify _ _)).
    rewrite (bind_runs _ _ _ _ _ (int_runs (p * NSEC_PER_MSEC) _ ltac:(unfold NSEC_PER_MSEC; lia))).
    split; [done|]. split; [done|]. unfold normalized, NSEC_PER_MSEC, NANOSEC_PER_SEC. cbn. lia.
  - unfold c_bind, c_int. assert (E : in_i32 (p * NSEC_PER_MSEC) = false).
    { unfold in_i32, NSEC_PER_MSEC. apply andb_false_iff. right. apply Z.ltb_ge. lia. }
    by rewrite E.
Qed.

Lemma period_bounds_witness :
  (main (fun _ => mk_timespec 0 0) 2 3000 rt_initial).1 = Undefined SignedOverflow /\
  itime_nsec (main (fun _ => mk_timespec 0 0) 2 3000 rt_initial).2 = None.
Proof. apply (proj2 (period_bounds (fun _ => mk_timespec 0 0) 3000 ltac:(lia))). lia. Defined.

(** The tick-based time printed at the end is the number of ticks times the
    period only while there are fewer ticks than the period has milliseconds:
    the ticks are divided by the period in milliseconds instead of by the ticks
    in a second. *)
Lemma tick_delta_wrong (s : rt) (p : Z) :
  1 <= p <= 999 -> period_millisecs s = p -> period_nsecs s = p * NSEC_PER_MSEC ->
  0 <= tick_count s < 2 ^ 32 ->
  exists sec nsec, runs (tick_delta s) s (sec, nsec) s /\
    (sec * NSEC_PER_SEC + nsec = tick_count s * period_nsecs s <-> tick_count s < p).
Proof.
  intros Hp Hms Hns Ht. unfold tick_delta. rewrite Hms, Hns.
  rewrite (u64_small p) by (unfold is_u64; lia).
  destruct (Z.eqb_spec p 0); [lia|]. eexists _, _. split; [apply runs_ret|].
  pose proof (Z.div_mod (tick_count s) p ltac:(lia)) as Hdm.
  pose proof (Z.mod_pos_bound (tick_count s) p ltac:(lia)) as Hm.
  set (q := tick_count s / p) in *. set (r := tick_count s mod p) in *.
  rewrite u64_small by (unfold is_u64, NSEC_PER_MSEC; nia). unfold NSEC_PER_SEC, NSEC_PER_MSEC.
  assert (Hq : 0 <= q) by (apply Z.div_pos; lia).
  rewrite Hdm. split; intros H.
  - assert (Hz : q * (1000 - p * p) = 0) by nia. apply Z.mul_eq_0 in Hz as [Hz|Hz]; [nia|].
    assert (p <= 31 \/ 32 <= p) as [Hl|Hl] by lia; nia.
  - assert (q = 0) by nia. subst q. rewrite H0. lia.
Qed.

Lemma tick_delta_wrong_witness :
  exists sec nsec, runs (tick_delta (after_expiries (fun _ => mk_timespec 0 0) 10 250))
      (after_expiries (fun _ => mk_timespec 0 0) 10 250) (sec, nsec)
      (after_expiries (fun _ => mk_timespec 0 0) 10 250) /\
    (sec * NSEC_PER_SEC + nsec = 250 * 10000000 <-> 250 < 10).
Proof.
  apply (tick_delta_wrong (after_expiries (fun _ => mk_timespec 0 0) 10 250) 10); cbn; lia.
Defined.
End PosixRtTimer.

Module PosixSwWd.
Definition TARDY_TERMINATOR : Z := 3.

(** [monitor_interval_expcount], and the arming and deletion of the timer. *)
Record wd := mk_wd { monitor_interval_expcount : Z; armed : option timespec; deleted : bool }.
Definition set_expcount (n : Z) (s : wd) : wd := mk_wd n (armed s) (deleted s).
Definition timer_settime (t : timespec) (s : wd) : wd := mk_wd (monitor_interval_expcount s) (Some t) (deleted s).
Definition timer_delete (s : wd) : wd := mk_wd (monitor_interval_expcount s) None true.

(** The handler: what it does besides counting is commented out or printed. *)
Definition monitor_interval_expired : C wd unit :=
  let* s := c_get in
  let* n := c_int (monitor_interval_expcount s + 1) in
  c_modify (set_expcount n).

(** One round of [monitored], after its sleep. *)
Definition monitored_round : C wd unit := c_modify (timer_settime (mk_timespec 2 500000000)).

(** [main] from its initialisations on; [wakes] are the signals that end a
    [pause], [true] where the monitor's handler ran. Out of signals it waits. *)
Fixpoint wait_loop (wakes : list bool) : C wd unit :=
  let* s := c_get in
  if TARDY_TERMINATOR <? monitor_interval_expcount s then
    c_modify timer_delete ;; c_exit 0
  else match wakes with
       | [] => fun s => (OutOfFuel, s)
       | w :: wakes' => c_when w monitor_interval_expired ;; wait_loop wakes'
       end.
Definition main (wakes : list bool) : C wd unit :=
  c_modify (set_expcount 0) ;;
  c_modify (timer_settime (mk_timespec 2 500000000)) ;;
  wait_loop wakes.

Definition wd_state (n : Z) : wd := mk_wd n (Some (mk_timespec 2 500000000)) false.

Lemma wait_loop_spec wakes : forall n, 0 <= n <= 4 ->
  wait_loop wakes (wd_state n) =
    if 4 <=? n + Z.of_nat (length (filter (fun w => w = true) wakes))
    then (Exit 0, timer_delete (wd_state 4))
    else (OutOfFuel, wd_state (n + Z.of_nat (length (filter (fun w => w = true) wakes)))).
Proof.
  induction wakes as [|w wakes IH]; intros n Hn; cbn [wait_loop];
    rewrite (bind_runs _ _ _ _ _ (runs_get _)); cbn [monitor_interval_expcount wd_state];
    unfold TARDY_TERMINATOR; destruct (Z.ltb_spec 3 n).
  - replace n with 4 by lia. reflexivity.
  - cbn. rewrite Z.add_0_r. by destruct (Z.leb_spec 4 n); [lia|].
  - replace n with 4 by lia. by destruct (Z.leb_spec 4 (4 + Z.of_nat (length (filter (fun w => w = true) (w :: wakes))))); [|lia].
  - destruct w.
    + rewrite (bind_runs _ _ _ tt (wd_state (n + 1))).
      * rewrite IH, filter_cons_True by (done || lia). cbn [length].
        replace (n + 1 + Z.of_nat (length (filter (fun w => w = true) wakes)))
          with (n + Z.of_nat (S (length (filter (fun w => w = true) wakes)))) by lia. done.
      * unfold monitor_interval_expired. eapply runs_bind; [apply runs_get|].
        eapply runs_bind; [apply int_runs; cbn; lia|]. reflexivity.
    + rewrite (bind_runs _ _ _ tt (wd_state n)) by reflexivity. rewrite IH by lia. by rewrite filter_cons_False.
Qed.

(** ** Properties *)

(** The watchdog ends the process, with status 0 and its timer deleted,
    exactly at the fourth expiry its handler sees; until then it waits. *)
Lemma watchdog_terminates (wakes : list bool) :
  main wakes (mk_wd 0 None false) =
    if 4 <=? Z.of_nat (length (filter (fun w => w = true) wakes))
    then (Exit 0, mk_wd 4 None true)
    else (OutOfFuel, wd_state (Z.of_nat (length (filter (fun w => w = true) wakes)))).
Proof.
  unfold main. rewrite (bind_runs _ _ _ _ _ (runs_modify _ _)), (bind_runs _ _ _ _ _ (runs_modify _ _)).
  exact (wait_loop_spec wakes 0 ltac:(lia)).
Qed.
End PosixSwWd.

Module Itimer.
(** [count], and what the handler printed. *)
Inductive beat := Tick | Tock.
Record it := mk_it { count : Z; printed : list (beat * timespec) }.

Definition interval_expired (rtclock_time : timespec) : C it unit :=
  let* s := c_get in
  let* n := c_int (count s + 1) in
  let b := if Z.rem n 2 =? 0 then Tock else Tick in
  c_modify (fun s => mk_it n (printed s ++ [(b, rtclock_time)])).

(** The signals [main] waits for. *)
Definition expiries (times : list timespec) : C it unit := c_for_each times interval_expired.

Lemma beats_run times : forall n l, 0 <= n -> n + Z.of_nat (length times) < 2 ^ 31 ->
  runs (expiries times) (mk_it n l) tt
    (mk_it (n + Z.of_nat (length times))
       (l ++ imap (fun i t => (if Z.even (n + Z.of_nat i) then Tick else Tock, t)) times)).
Proof.
  unfold expiries. induction times as [|t times IH]; intros n l Hn Hb.
  - cbn. rewrite Z.add_0_r, app_nil_r. apply runs_ret.
  - cbn [length] in Hb. eapply for_each_runs.
    + unfold interval_expired. eapply runs_bind; [apply runs_get|].
      eapply runs_bind; [apply int_runs; cbn; lia|]. apply runs_modify.
    + cbn [count printed]. eapply eq_trans; [apply IH; lia|]. do 2 f_equal.
      * cbn [length]. lia.
      * rewrite <- app_assoc. f_equal. rewrite imap_cons. cbn [app]. f_equal.
        -- f_equal. rewrite Z.add_0_r. rewrite Z.rem_mod_nonneg by lia.
           rewrite Zmod_odd. replace (n + 1) with (Z.succ n) by lia.
           rewrite Z.odd_succ. by destruct (Z.even n).
        -- apply imap_ext. intros i x _. cbn. by replace (n + 1 + Z.of_nat i) with (n + Z.of_nat (S i)) by lia.
Qed.
End Itimer.

Module PosixTimer.
(** The interval [main] arms the timer with, from the argument in nanoseconds
    ([long long]; the quotient and remainder of C). *)
Definition its_value (freq_nanosecs : Z) : timespec :=
  mk_timespec (Z.quot freq_nanosecs 1000000000) (Z.rem freq_nanosecs 1000000000).

(** The calls of [main] that can fail, in order, each answered -1 on failure. *)
Record os := mk_os { os_sigaction : Z; os_block : Z; os_timer_create : Z; os_timer_settime : Z; os_unblock : Z }.
Definition EXIT_FAILURE : Z := 1.
Definition EXIT_SUCCESS : Z := 0.
Definition errExit {S} : C S unit := c_exit EXIT_FAILURE.

(** The timer's setting, [None] before [timer_settime] accepts one. *)
Definition main (env : os) (argc freq_nanosecs : Z) : C (option timespec) unit :=
  c_when (negb (argc =? 3)) (c_exit EXIT_FAILURE) ;;
  c_when (os_sigaction env =? -1) errExit ;;
  c_when (os_block env =? -1) errExit ;;
  c_when (os_timer_create env =? -1) errExit ;;
  c_when (os_timer_settime env =? -1) errExit ;;
  c_modify (fun _ => Some (its_value freq_nanosecs)) ;;
  c_when (os_unblock env =? -1) errExit ;;
  c_exit EXIT_SUCCESS.

(** The interval is the argument, normalized, for every argument a timer takes. *)
Lemma its_value_spec f : 0 <= f -> normalized (its_value f) /\ nanos (its_value f) = f.
Proof.
  intros Hf. unfold normalized, nanos, its_value, NANOSEC_PER_SEC. cbn [tv_sec tv_nsec].
  rewrite Z.rem_mod_nonneg, Z.quot_div_nonneg by lia.
  split; [by apply Z.mod_pos_bound|]. pose proof (Z.div_mod f 1000000000). lia.
Qed.
End PosixTimer.
