(* ===== verification/ClockTimes.v ===== *)
(** * [clock_times.c]: printing the clocks

    Model of [rtos_rte_cp/sequencer_generic/clock_times.c]: the line printed for a
    clock, and [main]'s schedule of readings and sleeps. The environment answers
    [clock_gettime], [clock_getres] and [nanosleep]; a refusal is [None]. *)

From S2P Require Import Prelude CDouble.
Local Open Scope Z_scope.
Local Open Scope c_scope.

Definition SECS_IN_DAY : Z := 24 * 60 * 60.
Definition DELAY_LOOPS : Z := 10.
Definition EXIT_FAILURE : Z := 1.
Definition EXIT_SUCCESS : Z := 0.

Inductive clockid :=
  | CLOCK_REALTIME | CLOCK_TAI | CLOCK_MONOTONIC | CLOCK_BOOTTIME | CLOCK_MONOTONIC_RAW.

(** A printed line: the clock, seconds and milliseconds, days if printed, hours,
    minutes, seconds of the day, and the resolution if asked for. *)
Record line := mk_line {
  ln_clock : clockid;
  ln_sec : Z;
  ln_msec : Z;
  ln_days : option Z;
  ln_hours : Z;
  ln_minutes : Z;
  ln_seconds : Z
}.

Record env := mk_env {
  clock_gettime : clockid -> nat -> option timespec;
  clock_getres : clockid -> nat -> option timespec;
  nanosleep : nat -> Z
}.

(** State: the lines printed, the resolutions printed, the calls made. *)
Record out := mk_out { lines : list line; resolutions : list timespec; readings : nat; naps : nat }.
Definition print_line (l : line) (s : out) : out :=
  mk_out (lines s ++ [l]) (resolutions s) (S (readings s)) (naps s).
Definition print_resolution (t : timespec) (s : out) : out :=
  mk_out (lines s) (resolutions s ++ [t]) (readings s) (naps s).
Definition nap (s : out) : out := mk_out (lines s) (resolutions s) (readings s) (S (naps s)).

(** The fields of a line, with the quotients and remainders of C. *)
Definition line_of (clock : clockid) (ts : timespec) : line :=
  let days := Z.quot (tv_sec ts) SECS_IN_DAY in
  mk_line clock (tv_sec ts) (Z.quot (tv_nsec ts) 1000000)
    (if 0 <? days then Some days else None)
    (Z.quot (Z.rem (tv_sec ts) SECS_IN_DAY) 3600)
    (Z.quot (Z.rem (tv_sec ts) 3600) 60)
    (Z.rem (tv_sec ts) 60).

Definition displayClock (e : env) (showRes : bool) (clock : clockid) : C out unit :=
  let* s := c_get in
  match clock_gettime e clock (readings s) with
  | None => c_exit EXIT_FAILURE
  | Some ts =>
      c_modify (print_line (line_of clock ts)) ;;
      match clock_getres e clock (readings s) with
      | None => c_exit EXIT_FAILURE
      | Some res => c_when showRes (c_modify (print_resolution res))
      end
  end.

(** One iteration of the loops: display, sleep, display again. *)
Definition delay_iteration (e : env) (showRes : bool) (clock : clockid) : C out unit :=
  displayClock e showRes clock ;;
  let* s := c_get in
  c_modify nap ;;
  if nanosleep e (naps s) =? 0 then displayClock e showRes clock else c_exit (-1).

Definition delay_loop (e : env) (showRes : bool) (clock : clockid) : C out unit :=
  c_for 0 DELAY_LOOPS (fun _ => delay_iteration e showRes clock).

(** [main], where Linux defines [CLOCK_TAI] and [CLOCK_BOOTTIME]. *)
Definition displays (e : env) (showRes : bool) : C out unit :=
  displayClock e showRes CLOCK_REALTIME ;;
  displayClock e showRes CLOCK_TAI ;;
  displayClock e showRes CLOCK_MONOTONIC ;;
  displayClock e showRes CLOCK_BOOTTIME ;;
  delay_loop e showRes CLOCK_REALTIME ;;
  delay_loop e showRes CLOCK_MONOTONIC ;;
  delay_loop e showRes CLOCK_MONOTONIC_RAW.
Definition main (e : env) (argc : Z) : C out unit :=
  displays e (1 <? argc) ;; c_exit EXIT_SUCCESS.

(** A line that says what time it is. *)
Definition line_ok (l : line) : Prop :=
  ln_sec l = default 0 (ln_days l) * SECS_IN_DAY + ln_hours l * 3600 + ln_minutes l * 60 + ln_seconds l /\
  0 <= ln_hours l < 24 /\ 0 <= ln_minutes l < 60 /\ 0 <= ln_seconds l < 60 /\ 0 <= ln_msec l < 1000 /\
  (forall d, ln_days l = Some d -> 0 < d).

(** ** Lemmas *)

Lemma line_of_ok clock ts : normalized ts -> 0 <= tv_sec ts -> line_ok (line_of clock ts).
Proof.
  unfold normalized, NANOSEC_PER_SEC. intros Hn Hs. unfold line_ok, line_of, SECS_IN_DAY.
  cbn [ln_sec ln_msec ln_days ln_hours ln_minutes ln_seconds].
  rewrite !Z.rem_mod_nonneg, !Z.quot_div_nonneg by (try apply Z.mod_pos_bound; lia).
  set (t := tv_sec ts) in *. assert (Hd : default 0 (if 0 <? t / (24 * 60 * 60) then Some (t / (24 * 60 * 60)) else None)
    = t / (24 * 60 * 60)).
  { destruct (Z.ltb_spec 0 (t / (24 * 60 * 60))); [done|]. cbn.
    pose proof (Z.div_pos t (24 * 60 * 60) ltac:(lia) ltac:(lia)). lia. }
  rewrite Hd. split_and!; try (apply Z.mod_pos_bound; lia).
  all: try (Z.to_euclidean_division_equations; lia).
  intros d. destruct (Z.ltb_spec 0 (t / (24 * 60 * 60))); [|done]. intros [= <-]. done.
Qed.

(** Only good lines have been printed. *)
Definition good (s : out) : Prop := Forall line_ok (lines s).

Section display.
Context (e : env) (showRes : bool).
Context (clock_ok : forall c i t, clock_gettime e c i = Some t -> normalized t /\ 0 <= tv_sec t).
Context (answers : forall c i, is_Some (clock_gettime e c i) /\ is_Some (clock_getres e c i)).
Context (naps_ok : forall i, nanosleep e i = 0).

(** The state has printed [n] good lines and slept [k] times. *)
Definition printed (n k : nat) (s : out) : Prop := length (lines s) = n /\ naps s = k /\ good s.

Lemma displayClock_runs c n k :
  hoare (printed n k) (displayClock e showRes c) (fun _ => printed (S n) k).
Proof.
  intros s (Hl & Hk & Hg). unfold displayClock.
  destruct (answers c (readings s)) as [[t Ht] [r Hr]].
  eapply bind_returns; [apply runs_get|]. rewrite Ht. eapply bind_returns; [apply runs_modify|].
  rewrite Hr. set (s1 := print_line (line_of c t) s).
  exists tt, (if showRes then print_resolution r s1 else s1).
  split; [apply runs_when; by destruct showRes|].
  assert (Hl' : length (lines s ++ [line_of c t]) = S n) by (rewrite length_app; cbn; lia).
  assert (Hg' : Forall line_ok (lines s ++ [line_of c t])).
  { apply Forall_app. split; [done|]. constructor; [|done]. apply line_of_ok; by apply (clock_ok c (readings s)). }
  by destruct showRes.
Qed.

Lemma clock_iteration_runs c n k :
  hoare (printed n k) (delay_iteration e showRes c) (fun _ => printed (S (S n)) (S k)).
Proof.
  unfold delay_iteration. eapply hoare_bind; [apply displayClock_runs|]. intros [] s Hs.
  eapply bind_returns; [apply runs_get|]. eapply bind_returns; [apply runs_modify|].
  rewrite naps_ok. cbn [Z.eqb]. apply (displayClock_runs c (S n) (S k)).
  destruct Hs as (H1 & H2 & H3). split_and!; [done| |done]. cbn. lia.
Qed.

Lemma clock_loop_runs c n k :
  hoare (printed n k) (delay_loop e showRes c) (fun _ => printed (n + 20)%nat (k + 10)%nat).
Proof.
  eapply hoare_conseq;
    [apply (hoare_for (fun i => printed (n + 2 * Z.to_nat i)%nat (k + Z.to_nat i)%nat) _ DELAY_LOOPS); [done|]| |].
  - intros i Hi. eapply hoare_conseq; [apply clock_iteration_runs|done|]. intros a s. cbn beta.
    replace (Z.to_nat (i + 1)) with (S (Z.to_nat i)) by lia.
    by replace (n + 2 * S (Z.to_nat i))%nat with (S (S (n + 2 * Z.to_nat i))) by lia;
       replace (k + S (Z.to_nat i))%nat with (S (k + Z.to_nat i)) by lia.
  - intros s. cbn. by rewrite !Nat.add_0_r.
  - done.
Qed.
End display.

(** ** Properties *)

(** When the system answers every call, the program prints 64 lines (4, and 60
    in three loops of ten sleeps) and ends with status 0; each line's days, hours,
    minutes and seconds add up to the clock's seconds, in their ranges, and the
    days are printed only if there are any. *)
Lemma clock_times_prints (e : env) (argc : Z) :
  (forall c i t, clock_gettime e c i = Some t -> normalized t /\ 0 <= tv_sec t) ->
  (forall c i, is_Some (clock_gettime e c i) /\ is_Some (clock_getres e c i)) ->
  (forall i, nanosleep e i = 0) ->
  exists s, main e argc (mk_out [] [] 0 0) = (Exit EXIT_SUCCESS, s) /\
    length (lines s) = 64%nat /\ naps s = 30%nat /\ Forall line_ok (lines s).
Proof.
  intros Hc Ha Hn. set (r := 1 <? argc).
  assert (H : hoare (printed 0 0) (displays e r) (fun _ => printed 64 30)).
  { unfold displays. do 4 (eapply hoare_bind; [by apply displayClock_runs|intros ?]).
    eapply hoare_bind; [by apply clock_loop_runs|intros ?].
    eapply hoare_bind; [by apply clock_loop_runs|intros ?]. by apply (clock_loop_runs e r Hc Ha Hn _ 44 20). }
  destruct (H (mk_out [] [] 0 0)) as ([] & s & Hr & Hp); [split_and!; [done|done|constructor]|].
  exists s. split; [|by destruct Hp as (? & ? & ?)].
  unfold main. by rewrite (bind_runs _ _ _ _ _ Hr).
Qed.

Lemma clock_times_prints_witness :
  exists s, main (mk_env (fun _ i => Some (mk_timespec (90061 + Z.of_nat i) 5)) (fun _ _ => Some (mk_timespec 0 1))
      (fun _ => 0)) 2 (mk_out [] [] 0 0) = (Exit EXIT_SUCCESS, s) /\
    length (lines s) = 64%nat /\ naps s = 30%nat /\ Forall line_ok (lines s).
Proof.
  apply (clock_times_prints (mk_env (fun _ i => Some (mk_timespec (90061 + Z.of_nat i) 5))
    (fun _ _ => Some (mk_timespec 0 1)) (fun _ => 0)) 2).
  - intros c i t [= <-]. unfold normalized, NANOSEC_PER_SEC. cbn [tv_sec tv_nsec]. lia.
  - intros c i. split; by eexists.
  - reflexivity.
Defined.
