(* ===== verification/SimpleThreads.v ===== *)
(** * The thread-creation programs

    Models of [rtos_rte_cp/simplethread1/pthread.c],
    [simplethread-affinity/pthread.c] and [simplethread-affinity-1/pthread.c]: the
    arrays [threadParams] and [threads] of 64 elements, the thread that sums up to
    its index, and the functions that create and join the threads. The last two
    programs have the same text up to the name of [main]. *)

From S2P Require Import Prelude.
Local Open Scope Z_scope.
Local Open Scope c_scope.

Definition NUM_THREADS : Z := 64.
Definition MAX_ITERATIONS : Z := 1000000.

(** ** The thread function *)

(** [sum=0; for(i=1; i < idx+1; i++) sum=sum+i;], over the local [sum]. *)
Definition sum_loop (threadIdx : Z) : C Z unit :=
  c_modify (fun _ => 0) ;;
  let* hi := c_int (threadIdx + 1) in
  c_for 1 hi (fun i => let* sum := c_get in let* sum := c_int (sum + i) in c_modify (fun _ => sum)).

(** [counterThread] of [simplethread1], and the one of the other programs, which
    repeats the summation. *)
Definition counterThread (threadIdx : Z) : C Z unit := sum_loop threadIdx.
Definition counterThread_repeated (threadIdx : Z) : C Z unit :=
  c_for 0 MAX_ITERATIONS (fun _ => sum_loop threadIdx).

(** ** Creating the threads *)

(** [threadParams], the index each created thread was given, the threads joined. *)
Record pool := mk_pool {
  threadParams : list Z;
  threads : list (option Z);
  joined : list nat
}.
Definition pool_initial : pool := mk_pool (replicate 64 0) (replicate 64 None) [].

Definition set_param (i : nat) (idx : Z) (s : pool) : pool :=
  mk_pool (<[i := idx]> (threadParams s)) (threads s) (joined s).
Definition set_thread (i : nat) (idx : Z) (s : pool) : pool :=
  mk_pool (threadParams s) (<[i := Some idx]> (threads s)) (joined s).
Definition set_joined (i : nat) (s : pool) : pool :=
  mk_pool (threadParams s) (threads s) (joined s ++ [i]).

(** [threadParams[i].threadIdx=i; pthread_create(&threads[i], ..., &threadParams[i])]. *)
Definition create_thread (i : Z) : C pool unit :=
  if (0 <=? i) && (i <? NUM_THREADS)
  then c_modify (set_param (Z.to_nat i) i) ;; c_modify (set_thread (Z.to_nat i) i)
  else c_undefined (OutOfBounds i).

(** [pthread_join] on an element no creation has set is undefined. *)
Definition join_thread (i : Z) : C pool unit :=
  let* s := c_get in
  match threads s !! Z.to_nat i with
  | Some (Some _) => c_modify (set_joined (Z.to_nat i))
  | _ => c_undefined Uninitialised
  end.

(** [simplethread1]: indices from 1 to [NUM_THREADS] inclusive. *)
Definition main_0 : C pool unit :=
  c_for 1 (NUM_THREADS + 1) create_thread ;;
  c_for 0 NUM_THREADS join_thread.

(** The affinity programs. *)
Definition starterThread : C pool unit :=
  c_for 0 NUM_THREADS create_thread ;;
  c_for 0 NUM_THREADS join_thread.

(** ** Scheduling attributes of the affinity programs *)
Record sched := mk_sched { sc_policy : Z; sc_cpus : list Z; sc_priority : Z; sc_explicit : bool }.
Definition SCHED_FIFO : Z := 1.

(** [set_scheduler]: a refused [sched_setscheduler] is only reported. *)
Definition set_scheduler (max_prio : Z) : sched := mk_sched SCHED_FIFO [3] max_prio true.

(** [main_1] and [main]: one thread with those attributes runs [starterThread],
    and with inherited attributes creates the counters with the same ones. *)
Definition main_1 (max_prio : Z) : C (pool * option sched) unit :=
  c_modify (fun s => (s.1, Some (set_scheduler max_prio))) ;;
  c_on fst (fun p s => (p, s.2)) starterThread.

(** ** Lemmas *)

Lemma sum_from n : forall lo s, 0 <= s -> 1 <= lo ->
  let total := s + (lo + Z.of_nat n - 1) * (lo + Z.of_nat n) / 2 - (lo - 1) * lo / 2 in
  total < 2 ^ 31 -> lo + Z.of_nat n < 2 ^ 31 ->
  runs (c_for_each (seqZ lo (Z.of_nat n))
    (fun i => let* sum := c_get in let* sum := c_int (sum + i) in c_modify (fun _ => sum))) s tt total.
Proof.
  induction n as [|n IH]; intros lo s Hs Hlo total Ht Hb.
  - unfold total. rewrite Z.add_0_r. replace (s + (lo - 1) * lo / 2 - (lo - 1) * lo / 2) with s by lia.
    apply runs_ret.
  - rewrite seqZ_cons by lia. replace (Z.pred (Z.of_nat (S n))) with (Z.of_nat n) by lia.
    assert (Hstep : (lo + 1 - 1) * (lo + 1) / 2 = (lo - 1) * lo / 2 + lo).
    { replace ((lo + 1 - 1) * (lo + 1)) with ((lo - 1) * lo + lo * 2) by lia. by rewrite Z.div_add. }
    assert (Htot : total = s + lo + (lo + 1 + Z.of_nat n - 1) * (lo + 1 + Z.of_nat n) / 2
                           - (lo + 1 - 1) * (lo + 1) / 2).
    { rewrite Hstep. unfold total. replace (lo + Z.of_nat (S n)) with (lo + 1 + Z.of_nat n) by lia. lia. }
    assert (Hmono : (lo + 1 - 1) * (lo + 1) / 2 <= (lo + 1 + Z.of_nat n - 1) * (lo + 1 + Z.of_nat n) / 2)
      by (apply Z.div_le_mono; nia).
    eapply for_each_runs.
    + eapply runs_bind; [apply runs_get|]. eapply runs_bind; [apply int_runs; lia|]. apply runs_modify.
    + rewrite Htot. apply IH; lia.
Qed.

Lemma sum_loop_runs n s : 0 <= n <= 65535 -> runs (sum_loop n) s tt (n * (n + 1) / 2).
Proof.
  intros Hn. unfold sum_loop. eapply runs_bind; [apply runs_modify|].
  eapply runs_bind; [apply int_runs; lia|]. unfold c_for.
  assert (Hb : n * (n + 1) / 2 < 2 ^ 31) by (apply Z.div_lt_upper_bound; nia).
  pose proof (sum_from (Z.to_nat n) 1 0 ltac:(lia) ltac:(lia)) as H. cbn zeta in H.
  rewrite Z2Nat.id in H by lia. replace (n + 1 - 1) with n by lia.
  replace (0 + (1 + n - 1) * (1 + n) / 2 - (1 - 1) * 1 / 2) with (n * (n + 1) / 2) in H.
  - apply H; lia.
  - replace ((1 - 1) * 1 / 2) with 0 by done. replace (1 + n - 1) with n by lia.
    replace (1 + n) with (n + 1) by lia. lia.
Qed.

(** Repeating a fragment that always ends in the same state. *)
Lemma repeat_runs {S} (body : C S unit) (s' : S) n : (forall s, runs body s tt s') ->
  forall lo s, runs (c_for_each (seqZ lo (Z.of_nat (Datatypes.S n))) (fun _ => body)) s tt s'.
Proof.
  intros Hb. induction n as [|n IH]; intros lo s; rewrite seqZ_cons by lia.
  - eapply for_each_runs; [apply Hb|]. apply runs_ret.
  - eapply for_each_runs; [apply Hb|].
    replace (Z.pred (Z.of_nat (Datatypes.S (Datatypes.S n)))) with (Z.of_nat (Datatypes.S n)) by lia.
    apply IH.
Qed.

(** ** Properties *)

(** Thread [n] computes [n (n + 1) / 2], in both versions, for every index
    whose sum fits in an [int]. *)
Lemma counterThread_sum (n s : Z) :
  0 <= n <= 65535 ->
  runs (counterThread n) s tt (n * (n + 1) / 2) /\
  runs (counterThread_repeated n) s tt (n * (n + 1) / 2).
Proof.
  intros Hn. split; [by apply sum_loop_runs|]. unfold counterThread_repeated, c_for.
  replace (MAX_ITERATIONS - 0) with (Z.of_nat (S (Z.to_nat 999999))) by (unfold MAX_ITERATIONS; lia).
  apply repeat_runs. intros s0. by apply sum_loop_runs.
Qed.

Lemma counterThread_sum_witness :
  runs (counterThread 63) 0 tt 2016 /\ runs (counterThread_repeated 63) 0 tt 2016.
Proof. apply (counterThread_sum 63 0). lia. Defined.

(** The affinity programs create and join all 64 threads, thread [i] in slot
    [i] with index [i]; [main_0] writes past the end of both arrays: it creates
    threads 1 to 63 and then leaves the arrays at index 64, with no thread 0. *)
Lemma threads_created :
  runs starterThread pool_initial tt
    (mk_pool (seqZ 0 64) (Some <$> seqZ 0 64) (seq 0 64)) /\
  exists s, main_0 pool_initial = (Undefined (OutOfBounds 64), s) /\
    threads s = None :: (Some <$> seqZ 1 63).
Proof. split; [vm_compute; reflexivity|]. eexists. split; vm_compute; reflexivity. Qed.
