(* ===== verification/VmChannels.v ===== *)
(** * The virtual machine's channels and the co-operative run loop

    Model of [vm/vm.c], [vm/virtualDvrPreampl.c], [tasks/onChain.c] and
    [scheduler/coOperativeScheduler.c] under
    [c89_c99_scheduler/source/time_triggered_arch]. The virtual preamplifier's
    reset has an empty body; its calls are recorded. *)

From S2P Require Import Prelude.
Local Open Scope Z_scope.
Local Open Scope c_scope.

Definition GkMaxCountChannels : Z := 4.

(** [currentChannel_], and how often the preamplifier has been reset. *)
Record vm := mk_vm { currentChannel_ : Z; resets : nat }.
Definition set_currentChannel (n : Z) (s : vm) : vm := mk_vm n (resets s).
Definition preamplReset_void_Virtual : C vm unit :=
  c_modify (fun s => mk_vm (currentChannel_ s) (S (resets s))).

Definition vmGetCurrentChannel : C vm Z := let* s := c_get in c_ret (currentChannel_ s).

Definition vmResetCurrentChannel : C vm unit :=
  let* s := c_get in
  if 0 =? currentChannel_ s then c_ret tt
  else if 1 =? currentChannel_ s then preamplReset_void_Virtual
  else c_ret tt.

Definition vmOnChannel_void : C vm unit :=
  let* s := c_get in
  if 0 =? currentChannel_ s then c_ret tt
  else if 1 =? currentChannel_ s then c_ret tt
  else c_ret tt.

Definition vmIncrementChannel : C vm unit :=
  let* s := c_get in
  let* n := c_int (currentChannel_ s + 1) in
  c_modify (set_currentChannel n) ;;
  let* s := c_get in
  c_when (GkMaxCountChannels =? currentChannel_ s) (c_modify (set_currentChannel 0)).

(** [onSlot], [schDispatch_void] and [schRunLoop_void], whose loop is left by a
    [break] after one round. *)
Definition onSlot : C vm unit := preamplReset_void_Virtual.
Definition schDispatch_void : C vm unit := onSlot.
Definition schRunLoop_void : C vm unit := schDispatch_void.

(** A sweep: reset the channel, go to the next, [n] times. *)
Definition sweep (n : nat) : C vm unit :=
  c_for_each (seq 0 n) (fun _ => vmResetCurrentChannel ;; vmOnChannel_void ;; vmIncrementChannel).

(** ** Lemmas *)

Definition channel_ok (s : vm) : Prop := 0 <= currentChannel_ s < GkMaxCountChannels.

Lemma vm_round_runs c k : 0 <= c < GkMaxCountChannels ->
  runs (vmResetCurrentChannel ;; vmOnChannel_void ;; vmIncrementChannel) (mk_vm c k) tt
    (mk_vm ((c + 1) mod GkMaxCountChannels) (if 1 =? c then S k else k)).
Proof.
  unfold GkMaxCountChannels. intros Hc.
  assert (c = 0 \/ c = 1 \/ c = 2 \/ c = 3) as [->|[->|[->| ->]]] by lia; reflexivity.
Qed.

(** A sweep over all channels, whichever it starts from, resets the preamplifier
    once and ends where it started. *)
Lemma full_sweep c k : 0 <= c < GkMaxCountChannels ->
  runs (sweep 4) (mk_vm c k) tt (mk_vm c (S k)).
Proof.
  unfold GkMaxCountChannels. intros Hc.
  assert (c = 0 \/ c = 1 \/ c = 2 \/ c = 3) as [->|[->|[->| ->]]] by lia; reflexivity.
Qed.
