(* ===== verification/BoundedQueue.v ===== *)
(** * The bounded queue

    Model of [bounded_try_queue] in [data_structures.h] (and of its copies
    [concurent_try_queue] in [concurent_queues_pthread.h]). Every public operation
    is one critical section on the queue's mutex, so a concurrent history of
    calls is a sequence of them; the mutex is kept in the state to say who may
    lock it. Of the private operations, which nothing calls, [wait_and_push] is
    here, because it locks the mutex twice; [BlockingQueue] has them all. *)

From S2P Require Import Prelude.
Local Open Scope Z_scope.
Local Open Scope c_scope.

Section queue.
Context {T : Type}.

(** The fields; the condition variables are not used by the public operations. *)
Record bq := mk_bq {
  m_current_size : Z;
  m_q : list T;
  m_mtx : bool;
  m_nblocked_push : Z;
  m_stopped : bool;
  cm_size : Z
}.

Definition set_lock (b : bool) (s : bq) : bq :=
  mk_bq (m_current_size s) (m_q s) b (m_nblocked_push s) (m_stopped s) (cm_size s).
Definition set_queue (n : Z) (l : list T) (s : bq) : bq :=
  mk_bq n l (m_mtx s) (m_nblocked_push s) (m_stopped s) (cm_size s).
Definition set_nblocked_push (n : Z) (s : bq) : bq :=
  mk_bq (m_current_size s) (m_q s) (m_mtx s) n (m_stopped s) (cm_size s).

(** [explicit bounded_try_queue(int size)]: the check of [size] has no effect. *)
Definition bounded_try_queue (size : Z) : bq := mk_bq 0 [] false 0 false size.

(** A [boost::mutex] its owner locks again is a deadlock. *)
Definition lock : C bq unit :=
  let* s := c_get in
  if m_mtx s then c_undefined SelfDeadlock else c_modify (set_lock true).
Definition unlock : C bq unit := c_modify (set_lock false).

(** [boost::mutex::scoped_lock lock(m_mtx);] for the rest of a block. *)
Definition scoped {A} (body : C bq A) : C bq A :=
  lock ;; let* a := body in unlock ;; c_ret a.

Definition empty : C bq bool :=
  scoped (let* s := c_get in c_ret (match m_q s with [] => true | _ => false end)).

(** The [int] is converted to [std::size_t]. *)
Definition size : C bq Z := scoped (let* s := c_get in c_ret (u64 (m_current_size s))).

Definition try_push (x : T) : C bq bool :=
  scoped
    (let* s := c_get in
     if m_current_size s =? cm_size s then c_ret false
     else
       let* n := c_int (m_current_size s + 1) in
       c_modify (set_queue n (m_q s ++ [x])) ;;
       c_ret true).

(** The answer and, if it is true, the element written to [popped]. *)
Definition try_pop : C bq (option T) :=
  scoped
    (let* s := c_get in
     match m_q s with
     | [] => c_ret None
     | x :: rest =>
         let* n := c_int (m_current_size s - 1) in
         c_modify (set_queue n rest) ;;
         c_ret (Some x)
     end).

(** [wait_and_push] up to the test of its loop, [m_q.size() == size()]. *)
Definition wait_and_push_test : C bq bool :=
  lock ;;
  let* s := c_get in
  let* n := c_int (m_nblocked_push s + 1) in
  c_modify (set_nblocked_push n) ;;
  let* s := c_get in
  if m_stopped s then c_ret false
  else let* n := size in c_ret (Z.of_nat (length (m_q s)) =? n).

(** ** Calls, and their results *)
Inductive call := TryPush (x : T) | TryPop | Size | Empty.
Inductive result := Bool (b : bool) | Popped (x : option T) | Count (n : Z).

Definition perform (c : call) : C bq result :=
  match c with
  | TryPush x => let* b := try_push x in c_ret (Bool b)
  | TryPop => let* x := try_pop in c_ret (Popped x)
  | Size => let* n := size in c_ret (Count n)
  | Empty => let* b := empty in c_ret (Bool b)
  end.

(** The calls of a history, in the order in which they get the mutex. *)
Fixpoint perform_all (cs : list call) : C bq (list result) :=
  match cs with
  | [] => c_ret []
  | c :: cs' =>
      let* r := perform c in
      let* rs := perform_all cs' in
      c_ret (r :: rs)
  end.

(** ** Specification: a first-in first-out list of at most [cap] elements *)
Definition spec (cap : Z) (c : call) (l : list T) : result * list T :=
  match c with
  | TryPush x => if Z.of_nat (length l) <? cap then (Bool true, l ++ [x]) else (Bool false, l)
  | TryPop => match l with [] => (Popped None, []) | x :: l' => (Popped (Some x), l') end
  | Size => (Count (Z.of_nat (length l)), l)
  | Empty => (Bool (match l with [] => true | _ => false end), l)
  end.
Fixpoint spec_all (cap : Z) (cs : list call) (l : list T) : list result * list T :=
  match cs with
  | [] => ([], l)
  | c :: cs' =>
      let '(r, l1) := spec cap c l in
      let '(rs, l2) := spec_all cap cs' l1 in (r :: rs, l2)
  end.

(** The queue that holds [l]. *)
Definition holding (cap : Z) (l : list T) : bq :=
  mk_bq (Z.of_nat (length l)) l false 0 false cap.

(** ** Lemmas *)

Lemma scoped_runs {A} (body : C bq A) s a s' : m_mtx s = false ->
  runs body (set_lock true s) a s' -> runs (scoped body) s a (set_lock false s').
Proof.
  intros Hm Hb. unfold scoped, lock. eapply runs_bind.
  - eapply runs_bind; [apply runs_get|]. rewrite Hm. apply runs_modify.
  - eapply runs_bind; [exact Hb|]. eapply runs_bind; [apply runs_modify|]. apply runs_ret.
Qed.

Lemma spec_length cap c l : Z.of_nat (length l) <= cap -> Z.of_nat (length (spec cap c l).2) <= cap.
Proof.
  intros Hl. destruct c as [x| | |]; cbn; try done.
  - destruct (Z.ltb_spec (Z.of_nat (length l)) cap); cbn; [|done]. rewrite length_app. cbn. lia.
  - destruct l; cbn in *; lia.
Qed.

Lemma scoped_holding {A} (body : C bq A) cap l l' a :
  runs body (set_lock true (holding cap l)) a (set_lock true (holding cap l')) ->
  runs (scoped body) (holding cap l) a (holding cap l').
Proof. intros H. change (holding cap l') with (set_lock false (set_lock true (holding cap l'))). by apply scoped_runs. Qed.

Lemma try_push_runs cap x l : 0 <= cap < 2 ^ 31 -> Z.of_nat (length l) <= cap ->
  runs (try_push x) (holding cap l) (Z.of_nat (length l) <? cap)
    (holding cap (if Z.of_nat (length l) <? cap then l ++ [x] else l)).
Proof.
  intros Hcap Hl. apply scoped_holding. eapply runs_bind; [apply runs_get|].
  cbn [m_current_size cm_size set_lock holding]. destruct (Z.ltb_spec (Z.of_nat (length l)) cap).
  - rewrite (proj2 (Z.eqb_neq _ _)) by lia. eapply runs_bind; [apply int_runs; lia|].
    eapply runs_bind; [apply runs_modify|]. unfold set_queue, set_lock, holding, runs, c_ret. cbn.
    rewrite length_app. cbn. do 2 f_equal. lia.
  - rewrite (proj2 (Z.eqb_eq _ _)) by lia. apply runs_ret.
Qed.

Lemma try_pop_runs cap l : 0 <= cap < 2 ^ 31 -> Z.of_nat (length l) <= cap ->
  runs try_pop (holding cap l) (head l) (holding cap (tail l)).
Proof.
  intros Hcap Hl. apply scoped_holding. eapply runs_bind; [apply runs_get|].
  cbn [m_q set_lock holding]. destruct l as [|x l]; [apply runs_ret|]. cbn [length] in Hl.
  eapply runs_bind; [apply int_runs; cbn; lia|]. eapply runs_bind; [apply runs_modify|].
  unfold set_queue, set_lock, holding, runs, c_ret. cbn. do 2 f_equal. lia.
Qed.

Lemma perform_runs cap c l : 0 <= cap < 2 ^ 31 -> Z.of_nat (length l) <= cap ->
  runs (perform c) (holding cap l) (spec cap c l).1 (holding cap (spec cap c l).2).
Proof.
  intros Hcap Hl. destruct c as [x| | |]; cbn [perform spec].
  - pose proof (try_push_runs cap x l Hcap Hl) as H. destruct (Z.of_nat (length l) <? cap);
      (eapply runs_bind; [exact H|apply runs_ret]).
  - pose proof (try_pop_runs cap l Hcap Hl) as H. destruct l; (eapply runs_bind; [exact H|apply runs_ret]).
  - eapply runs_bind; [|apply runs_ret]. apply scoped_holding. eapply runs_bind; [apply runs_get|].
    cbn [m_current_size set_lock holding fst snd]. rewrite u64_small by (unfold is_u64; lia). apply runs_ret.
  - eapply runs_bind; [|apply runs_ret]. apply scoped_holding. eapply runs_bind; [apply runs_get|]. by destruct l.
Qed.

Lemma perform_all_runs cap cs : 0 <= cap < 2 ^ 31 -> forall l, Z.of_nat (length l) <= cap ->
  runs (perform_all cs) (holding cap l) (spec_all cap cs l).1 (holding cap (spec_all cap cs l).2).
Proof.
  intros Hcap. induction cs as [|c cs IH]; intros l Hl; [apply runs_ret|]. cbn [perform_all spec_all].
  eapply runs_bind; [by apply perform_runs|]. pose proof (spec_length cap c l Hl) as Hl'.
  destruct (spec cap c l) as [r l1]. cbn [fst snd] in *.
  eapply runs_bind; [by apply IH|]. destruct (spec_all cap cs l1) as [rs l2]. apply runs_ret.
Qed.
End queue.

Arguments bq : clear implicits.
Arguments call : clear implicits.
Arguments result : clear implicits.

(** ** Properties *)

(** For every capacity that is not negative, any history of calls returns
    what a first-in first-out list of that capacity returns, and leaves the
    mutex free: the stored size is the length, a push is refused exactly when
    the queue is full, a pop exactly when it is empty. *)
Theorem bounded_queue_refines {T} (cap : Z) (cs : list (call T)) :
  0 <= cap < 2 ^ 31 ->
  runs (perform_all cs) (bounded_try_queue cap) (spec_all cap cs []).1 (holding cap (spec_all cap cs []).2) /\
  Z.of_nat (length (spec_all cap cs []).2) <= cap.
Proof.
  intros Hcap. split; [by apply (perform_all_runs cap cs Hcap [] ltac:(cbn; lia))|].
  assert (H : forall l : list T, Z.of_nat (length l) <= cap -> Z.of_nat (length (spec_all cap cs l).2) <= cap).
  { induction cs as [|c cs IH]; intros l Hl; [done|]. cbn. pose proof (spec_length cap c l Hl) as Hl'.
    destruct (spec cap c l) as [r l1]. specialize (IH l1 Hl'). by destruct (spec_all cap cs l1). }
  apply H. cbn. lia.
Qed.

Lemma bounded_queue_refines_witness :
  runs (perform_all [TryPush 1%nat; TryPush 2%nat; TryPush 3%nat; TryPop; Size]) (bounded_try_queue 2)
    [Bool true; Bool true; Bool false; Popped (Some 1%nat); Count 1] (holding 2 [2%nat]) /\
  Z.of_nat (length [2%nat]) <= 2.
Proof. apply (bounded_queue_refines 2 [TryPush 1%nat; TryPush 2%nat; TryPush 3%nat; TryPop; Size]). lia. Defined.

(** Where the code does not keep its promise: a negative size, which the
    constructor accepts, bounds nothing; and [wait_and_push] of a queue that was
    not stopped locks the mutex it holds, in [size()]. *)
Theorem bounded_queue_limits {T} (s : bq T) :
  m_mtx s = false ->
  (forall x, cm_size s < 0 -> 0 <= m_current_size s < 2 ^ 31 - 1 ->
     exists s', runs (try_push x) s true s' /\ m_q s' = m_q s ++ [x] /\ m_current_size s' = m_current_size s + 1) /\
  (m_stopped s = false -> 0 <= m_nblocked_push s < 2 ^ 31 - 1 ->
     (wait_and_push_test s).1 = Undefined SelfDeadlock).
Proof.
  intros Hm. split.
  - intros x Hc Hs. eexists. split; [apply scoped_runs; [done|]|].
    + eapply runs_bind; [apply runs_get|]. cbn [m_current_size cm_size set_lock].
      rewrite (proj2 (Z.eqb_neq _ _)) by lia. eapply runs_bind; [apply int_runs; lia|].
      eapply runs_bind; [apply runs_modify|]. apply runs_ret.
    + done.
  - intros Hst Hn. unfold wait_and_push_test.
    rewrite (bind_runs lock _ s tt (set_lock true s)) by (unfold lock, runs, c_bind; cbn; by rewrite Hm).
    rewrite (bind_runs _ _ _ _ _ (runs_get _)).
    rewrite (bind_runs _ _ _ _ _ (int_runs (m_nblocked_push (set_lock true s) + 1) _ ltac:(cbn; lia))).
    rewrite (bind_runs _ _ _ _ _ (runs_modify _ _)), (bind_runs _ _ _ _ _ (runs_get _)).
    cbn [m_stopped set_nblocked_push set_lock]. rewrite Hst. reflexivity.
Qed.

Lemma bounded_queue_limits_witness :
  (wait_and_push_test (bounded_try_queue (T := nat) 5)).1 = Undefined SelfDeadlock.
Proof. apply (proj2 (bounded_queue_limits (bounded_try_queue (T := nat) 5) eq_refl)); [done|cbn; lia]. Defined.
