(* ===== verification/BlockingQueue.v ===== *)
(** * The blocking operations of the bounded queue

    Model of the private operations of [bounded_try_queue] ([data_structures.h]):
    [wait_and_pop], [wait_and_push] and [stop], with the public [try_push] and
    [try_pop], called by threads that interleave. All accesses are made under the
    mutex, so a step is what a thread does between getting it and letting go of
    it (at the end of the call or in a wait). *)

From S2P Require Import Prelude.
Local Open Scope nat_scope.

(** ** Calls, and where a thread is

    In the wait of [wait_and_pop]'s loop or of the loops of [stop], asleep or woken;
    in [wait_and_push], locking the mutex it holds. *)
Inductive call := TryPush (x : nat) | TryPop | WaitPop | WaitPush (x : nat) | Stop (wait : bool).
Inductive result := Bool (b : bool) | Popped (x : option nat) | Got (x : nat) | Threw | Stopped.
Inductive phase := Free | InPop (awake : bool) | InStop (awake : bool) | Deadlocked.
Record thread := mk_thread { ph : phase; todo : list call; results : list result }.

(** The fields; the mutex, if it is held when nobody runs, is held for ever. [pushed]:
    the elements pushed; [taken]: those popped; [waited]: how many by [wait_and_pop]. *)
Record state := mk_state {
  m_current_size : nat;
  m_q : list nat;
  m_nblocked_pop : nat;
  m_nblocked_push : nat;
  m_stopped : bool;
  m_mtx : bool;
  cm_size : nat;
  threads : list thread;
  pushed : list nat;
  taken : list nat;
  waited : nat
}.

Definition set_threads (l : list thread) (s : state) : state :=
  mk_state (m_current_size s) (m_q s) (m_nblocked_pop s) (m_nblocked_push s) (m_stopped s) (m_mtx s) (cm_size s) l
    (pushed s) (taken s) (waited s).
Definition set_nblocked_pop (n : nat) (s : state) : state :=
  mk_state (m_current_size s) (m_q s) n (m_nblocked_push s) (m_stopped s) (m_mtx s) (cm_size s) (threads s)
    (pushed s) (taken s) (waited s).
Definition push (x : nat) (s : state) : state :=
  mk_state (S (m_current_size s)) (m_q s ++ [x]) (m_nblocked_pop s) (m_nblocked_push s) (m_stopped s) (m_mtx s) (cm_size s)
    (threads s) (pushed s ++ [x]) (taken s) (waited s).
(** [m_q.pop_front()]; [wait_and_pop] leaves [m_current_size] as it is. *)
Definition pop_front (size : nat) (blocking : bool) (x : nat) (rest : list nat) (s : state) : state :=
  mk_state size rest (m_nblocked_pop s) (m_nblocked_push s) (m_stopped s) (m_mtx s) (cm_size s)
    (threads s) (pushed s) (taken s ++ [x]) (if blocking then S (waited s) else waited s).
Definition set_stopped (s : state) : state :=
  mk_state (m_current_size s) (m_q s) (m_nblocked_pop s) (m_nblocked_push s) true (m_mtx s) (cm_size s) (threads s)
    (pushed s) (taken s) (waited s).
(** [++m_nblocked_push], and then the mutex is never released. *)
Definition deadlock (s : state) : state :=
  mk_state (m_current_size s) (m_q s) (m_nblocked_pop s) (S (m_nblocked_push s)) (m_stopped s) true (cm_size s) (threads s)
    (pushed s) (taken s) (waited s).

(** [m_pop_cv.notify_all()]. Nobody ever waits for [m_push_cv] (invariant [inv_push]:
    [stop] finds no pushers), so its notifications wake nobody. *)
Definition wake (t : thread) : thread :=
  match ph t with
  | InPop _ => mk_thread (InPop true) (todo t) (results t)
  | InStop _ => mk_thread (InStop true) (todo t) (results t)
  | _ => t
  end.
Definition notify_pop_all (s : state) : state := set_threads (wake <$> threads s) s.

Definition set_phase (p : phase) (t : thread) : thread := mk_thread p (todo t) (results t).
Definition return_ (r : result) (t : thread) : thread := mk_thread Free (todo t) (results t ++ [r]).
Definition put (i : nat) (t : thread) (s : state) : state := set_threads (<[i := t]> (threads s)) s.

(** The loop of [wait_and_pop] and what follows it. *)
Definition pop_loop (i : nat) (t : thread) (s : state) : state :=
  if negb (m_stopped s) && (match m_q s with [] => true | _ => false end) then put i (set_phase (InPop false) t) s
  else
    let s := set_nblocked_pop (pred (m_nblocked_pop s)) s in
    if m_stopped s then put i (return_ Threw t) (notify_pop_all s)
    else match m_q s with
    | x :: rest => put i (return_ (Got x) t) (pop_front (m_current_size s) true x rest s)
    | [] => s
    end.

(** The loops of [stop(true)]; the second one is left at once without pushers, and
    [None] otherwise: see above. *)
Definition stop_loop (i : nat) (t : thread) (s : state) : option state :=
  match m_nblocked_pop s, m_nblocked_push s with
  | S _, _ => Some (put i (set_phase (InStop false) t) s)
  | 0, 0 => Some (put i (return_ Stopped t) s)
  | 0, S _ => None
  end.

Definition step_thread (i : nat) (s : state) : option state :=
  t ← threads s !! i;
  if m_mtx s then None else
  match ph t with
  | Free =>
      match todo t with
      | [] => None
      | c :: cs =>
          let t := mk_thread Free cs (results t) in
          match c with
          | TryPush x =>
              Some (if m_current_size s =? cm_size s then put i (return_ (Bool false) t) s
                    else put i (return_ (Bool true) t) (push x s))
          | TryPop =>
              Some (match m_q s with
                    | [] => put i (return_ (Popped None) t) s
                    | x :: rest =>
                        put i (return_ (Popped (Some x)) t) (pop_front (pred (m_current_size s)) false x rest s)
                    end)
          | WaitPop => Some (pop_loop i t (set_nblocked_pop (S (m_nblocked_pop s)) s))
          | WaitPush x =>
              (* a stopped queue: nobody to notify *)
              Some (if m_stopped s then put i (return_ Threw t) s else put i (set_phase Deadlocked t) (deadlock s))
          | Stop wait =>
              let s := set_stopped (notify_pop_all s) in
              if wait then stop_loop i t s else Some (put i (return_ Stopped t) s)
          end
      end
  | InPop true => Some (pop_loop i t s)
  | InStop true => stop_loop i t s
  | _ => None
  end.

Inductive step : state -> state -> Prop := step_by i s s' : step_thread i s = Some s' -> step s s'.
(** Waits may also end for no reason. *)
Inductive any_step : state -> state -> Prop :=
  | step_thread_ s s' : step s s' -> any_step s s'
  | step_spurious i t s : threads s !! i = Some t -> any_step s (put i (wake t) s).

Definition start (size : nat) (programs : list (list call)) : state :=
  mk_state 0 [] 0 0 false false size ((fun p => mk_thread Free p []) <$> programs) [] [] 0.
Definition reachable (size : nat) (programs : list (list call)) : state -> Prop := rtc any_step (start size programs).

(** ** Invariant *)

Definition in_pop (t : thread) : nat := match ph t with InPop _ => 1 | _ => 0 end.
Definition thread_ok (stopped mtx : bool) (blocked : nat) (t : thread) : Prop :=
  match ph t with
  | Free | InPop true => True
  | InPop false => stopped = false
  | InStop awake => stopped = true /\ (awake = false -> blocked <> 0)
  | Deadlocked => mtx = true
  end.
Record inv (s : state) : Prop := mk_inv {
  inv_push : m_mtx s = false -> m_nblocked_push s = 0;
  inv_pop : m_nblocked_pop s = sum_list_with in_pop (threads s);
  inv_threads : Forall (thread_ok (m_stopped s) (m_mtx s) (m_nblocked_pop s)) (threads s);
  inv_size : m_current_size s = length (m_q s) + waited s;
  inv_cap : m_current_size s <= cm_size s;
  inv_fifo : pushed s = taken s ++ m_q s
}.

(** ** Lemmas *)

Lemma in_pop_wake l : sum_list_with in_pop (wake <$> l) = sum_list_with in_pop l.
Proof. induction l as [|t l IH]; [done|]. cbn. rewrite IH. f_equal. unfold in_pop, wake. by destruct (ph t) eqn:E; rewrite ?E. Qed.

Lemma wake_ok st mx n n' l : Forall (thread_ok st mx n) l -> Forall (thread_ok true mx n') (wake <$> l).
Proof.
  intros H. apply Forall_fmap. eapply Forall_impl; [exact H|]. intros t. unfold compose, thread_ok, wake.
  destruct (ph t) as [| | |] eqn:E; cbn; rewrite ?E; try done.
Qed.

(** Threads of a queue that was not stopped do not look at the number of poppers. *)
Lemma ok_not_stopped mx n n' l : Forall (thread_ok false mx n) l -> Forall (thread_ok false mx n') l.
Proof. intros H. eapply Forall_impl; [exact H|]. intros t. unfold thread_ok. destruct (ph t); try done. by intros [? _]. Qed.

Lemma put_inv i t t' s : inv s -> threads s !! i = Some t -> in_pop t' = in_pop t ->
  thread_ok (m_stopped s) (m_mtx s) (m_nblocked_pop s) t' -> inv (put i t' s).
Proof.
  intros [H1 H2 H3 H4 H5 H6] Hi Hp Hok. constructor; cbn; try done.
  - pose proof (sum_with_insert in_pop _ i t t' Hi). lia.
  - by apply Forall_insert.
Qed.

Lemma sum_in_pop_pos (l : list thread) i t : l !! i = Some t -> in_pop t = 1 -> 0 < sum_list_with in_pop l.
Proof. revert i. induction l as [|u l IH]; intros [|i] H Ht; cbn in *; simplify_eq; [lia|]. specialize (IH i H Ht). lia. Qed.

Lemma pop_loop_inv i t s : inv s -> threads s !! i = Some t -> ph t = InPop true -> inv (pop_loop i t s).
Proof.
  intros Hi Ht Hp. pose proof Hi as [H1 H2 H3 H4 H5 H6]. assert (Hin : in_pop t = 1) by (unfold in_pop; by rewrite Hp).
  pose proof (sum_in_pop_pos _ i t Ht Hin) as Hpos. unfold pop_loop. destruct (m_stopped s) eqn:Hst; cbn [negb andb].
  - cbn [set_nblocked_pop m_stopped]. rewrite Hst. constructor; cbn; try done.
    + pose proof (sum_with_insert in_pop (wake <$> threads s) i (wake t) (return_ Threw t)) as H.
      rewrite list_lookup_fmap, Ht in H. specialize (H eq_refl). rewrite in_pop_wake in H.
      replace (in_pop (wake t)) with 1 in H by (unfold in_pop, wake; by rewrite Hp). change (in_pop (return_ Threw t)) with 0 in H. lia.
    + rewrite Hst. apply Forall_insert; [|done]. by eapply wake_ok.
  - destruct (m_q s) as [|x rest] eqn:Hq; cbn [set_nblocked_pop m_stopped m_q]; rewrite ?Hst, ?Hq.
    + apply (put_inv i t); [done|done|unfold in_pop at 2; by rewrite Hp|done].
    + cbn in H4. constructor; cbn; try done.
      * pose proof (sum_with_insert in_pop _ i t (return_ (Got x) t) Ht). change (in_pop (return_ (Got x) t)) with 0 in *. lia.
      * rewrite Hst. apply Forall_insert; [|done]. by eapply ok_not_stopped.
      * lia.
      * by rewrite H6, <- app_assoc.
Qed.

Lemma stop_loop_inv i t s s' : inv s -> threads s !! i = Some t -> ph t = InStop true -> stop_loop i t s = Some s' -> inv s'.
Proof.
  intros Hi Ht Hp. assert (Hin : in_pop t = 0) by (unfold in_pop; by rewrite Hp).
  pose proof (Forall_lookup_1 _ _ _ _ (inv_threads s Hi) Ht) as Hok. unfold thread_ok in Hok. rewrite Hp in Hok.
  unfold stop_loop. destruct (m_nblocked_pop s) eqn:Hn; [destruct (m_nblocked_push s); [|done]|]; intros [= <-];
    (apply (put_inv i t); [done|done|by rewrite Hin|]); [done|]. unfold thread_ok. cbn. rewrite Hn. split; [apply Hok|done].
Qed.

Lemma put_twice i t t' s : put i t (put i t' s) = put i t s.
Proof. unfold put, set_threads. cbn. by rewrite list_insert_insert_eq. Qed.
Lemma put_wake i t t' s : put i t (notify_pop_all (put i t' s)) = put i t (notify_pop_all s).
Proof. unfold put, notify_pop_all, set_threads. cbn. by rewrite list_fmap_insert, list_insert_insert_eq. Qed.

(** The loops do not look at the phase of the thread. *)
Lemma pop_loop_enters i t s : pop_loop i t s = pop_loop i (set_phase (InPop true) t) (put i (set_phase (InPop true) t) s).
Proof.
  unfold pop_loop. cbn [put set_threads m_stopped m_q m_nblocked_pop set_nblocked_pop m_current_size].
  destruct (negb _ && _) eqn:E; [by rewrite put_twice|]. destruct (m_stopped s).
  - change (set_nblocked_pop ?n (put i ?u s)) with (put i u (set_nblocked_pop n s)). by rewrite put_wake.
  - destruct (m_q s) as [|x rest]; [done|]. unfold put, pop_front, set_threads. cbn. by rewrite list_insert_insert_eq.
Qed.
Lemma stop_loop_enters i t s : stop_loop i t s = stop_loop i (set_phase (InStop true) t) (put i (set_phase (InStop true) t) s).
Proof.
  unfold stop_loop. cbn [put set_threads m_nblocked_pop m_nblocked_push].
  destruct (m_nblocked_pop s); [destruct (m_nblocked_push s); [|done]|]; fold (put i (set_phase (InStop true) t) s); by rewrite put_twice.
Qed.

(** A call begins: the call is taken from the thread's list. *)
Definition begun (t : thread) : thread := mk_thread Free (tail (todo t)) (results t).

Lemma enter_pop_inv i t s : inv s -> threads s !! i = Some t -> ph t = Free ->
  inv (put i (set_phase (InPop true) (begun t)) (set_nblocked_pop (S (m_nblocked_pop s)) s)).
Proof.
  intros [H1 H2 H3 H4 H5 H6] Ht Hp. constructor; cbn; try done.
  - pose proof (sum_with_insert in_pop _ i t (set_phase (InPop true) (begun t)) Ht) as H.
    replace (in_pop t) with 0 in H by (unfold in_pop; by rewrite Hp). change (in_pop (set_phase _ _)) with 1 in H. lia.
  - apply Forall_insert; [|done]. eapply Forall_impl; [exact H3|]. intros u. unfold thread_ok. destruct (ph u) as [|[]|[]|]; intuition done.
Qed.

Lemma enter_stop_inv i t s : inv s -> threads s !! i = Some t -> ph t = Free ->
  inv (put i (set_phase (InStop true) (begun t)) (set_stopped (notify_pop_all s))).
Proof.
  intros [H1 H2 H3 H4 H5 H6] Ht Hp. constructor; cbn; try done.
  - pose proof (sum_with_insert in_pop (wake <$> threads s) i (wake t) (set_phase (InStop true) (begun t))) as H.
    rewrite list_lookup_fmap, Ht, in_pop_wake in H. specialize (H eq_refl).
    replace (in_pop (wake t)) with 0 in H by (unfold in_pop, wake; by rewrite !Hp). change (in_pop (set_phase _ _)) with 0 in H. lia.
  - apply Forall_insert; [by eapply wake_ok|]. by split.
Qed.

Lemma step_thread_inv i s s' : step_thread i s = Some s' -> inv s -> inv s'.
Proof.
  intros H Hi. unfold step_thread in H. destruct (threads s !! i) as [t|] eqn:Ht; [|done]. cbn [mbind option_bind] in H.
  destruct (m_mtx s) eqn:Hm; [done|]. destruct (ph t) as [|[]|[]|] eqn:Hp; try done.
  - destruct (todo t) as [|c cs] eqn:Htd; [done|]. assert (Hb : mk_thread Free cs (results t) = begun t) by (unfold begun; by rewrite Htd).
    rewrite Hb in H. assert (Hput : forall r s2, inv s2 -> threads s2 = threads s -> inv (put i (return_ r (begun t)) s2)).
    { intros r s2 H2 E. apply (put_inv i t); [done|by rewrite E|unfold in_pop; by rewrite Hp|done]. }
    destruct c as [x| | |x|w].
    + injection H as <-. destruct (Nat.eqb_spec (m_current_size s) (cm_size s)); [by apply Hput|]. apply Hput; [|done].
      destruct Hi as [H1 H2 H3 H4 H5 H6]. constructor; cbn; try done; [rewrite length_app; cbn; lia|lia|by rewrite H6, app_assoc].
    + injection H as <-. destruct (m_q s) as [|x rest] eqn:Hq; [by apply Hput|]. apply Hput; [|done].
      destruct Hi as [H1 H2 H3 H4 H5 H6]. rewrite Hq in *. cbn in H4.
      constructor; cbn; try done; [lia|lia|by rewrite H6, <- app_assoc].
    + injection H as <-. rewrite pop_loop_enters. apply pop_loop_inv; [by apply enter_pop_inv| |done].
      cbn. apply list_lookup_insert_eq. by eapply lookup_lt_Some.
    + injection H as <-. destruct (m_stopped s) eqn:Hst; [by apply Hput|]. apply (put_inv i t); [|done|unfold in_pop; by rewrite Hp|done].
      destruct Hi as [H1 H2 H3 H4 H5 H6]. constructor; cbn; try done. eapply Forall_impl; [exact H3|].
      intros u. unfold thread_ok. destruct (ph u) as [|[]|[]|]; intuition done.
    + assert (Hs : inv (put i (set_phase (InStop true) (begun t)) (set_stopped (notify_pop_all s)))) by by apply enter_stop_inv.
      assert (Hl : threads (put i (set_phase (InStop true) (begun t)) (set_stopped (notify_pop_all s))) !! i = Some (set_phase (InStop true) (begun t))).
      { cbn. apply list_lookup_insert_eq. rewrite length_fmap. by eapply lookup_lt_Some. }
      destruct w.
      * rewrite stop_loop_enters in H. by eapply stop_loop_inv; [exact Hs|exact Hl| |].
      * injection H as <-. rewrite <- (put_twice i _ (set_phase (InStop true) (begun t))). by eapply (put_inv i); [exact Hs|exact Hl|..].
  - injection H as <-. by apply pop_loop_inv.
  - by eapply stop_loop_inv.
Qed.

Lemma any_step_inv s s' : any_step s s' -> inv s -> inv s'.
Proof.
  intros [s0 s1 [i s2 s3 H]|i t s0 Ht] Hi; [by eapply step_thread_inv|].
  pose proof (Forall_lookup_1 _ _ _ _ (inv_threads _ Hi) Ht) as Hok.
  apply (put_inv i t); [done|done|..]; unfold in_pop, wake, thread_ok in *; destruct (ph t) eqn:E; cbn; rewrite ?E; intuition done.
Qed.

Lemma reachable_inv size programs s : reachable size programs s -> inv s.
Proof.
  intros Hr. eapply (rtc_ind_r inv); [|..|exact Hr].
  - constructor; cbn; try done; [|by apply Forall_fmap, Forall_true|lia]. symmetry. apply sum_zero, Forall_fmap, Forall_true. done.
  - intros y z _ Hs. by apply any_step_inv.
Qed.

(** *** Termination *)

(** Calls not begun count twice, those begun once more; threads that are awake in a
    wait have one step to spend. *)
Definition work (t : thread) : nat := 2 * length (todo t) + (match ph t with Free => 0 | _ => 1 end).
Definition awake (t : thread) : nat := match ph t with InPop true | InStop true => 1 | _ => 0 end.
Definition steps_left (s : state) : nat :=
  sum_list_with work (threads s) * S (length (threads s)) + sum_list_with awake (threads s).

Lemma awake_most l : sum_list_with awake l <= length l.
Proof. apply sum_at_most_length. intros t. unfold awake. destruct (ph t) as [|[]|[]|]; lia. Qed.
Lemma work_wake l : sum_list_with work (wake <$> l) = sum_list_with work l.
Proof. induction l as [|t l IH]; [done|]. cbn. rewrite IH. f_equal. unfold work, wake. destruct (ph t) eqn:E; cbn; by rewrite ?E. Qed.

Lemma less_work s s' : length (threads s') = length (threads s) ->
  sum_list_with work (threads s') < sum_list_with work (threads s) -> steps_left s' < steps_left s.
Proof. intros El Hw. unfold steps_left. rewrite El. pose proof (awake_most (threads s')) as Ha. rewrite El in Ha. nia. Qed.

Lemma put_work i t t' s s' : threads s !! i = Some t -> threads s' = threads s \/ threads s' = wake <$> threads s ->
  work t' < work t -> steps_left (put i t' s') < steps_left s.
Proof.
  intros Ht E Hw. assert (Hs : sum_list_with work (threads s') = sum_list_with work (threads s) /\ length (threads s') = length (threads s) /\
    exists u, threads s' !! i = Some u /\ work u = work t).
  { destruct E as [->| ->]; [split_and!; eauto|]. rewrite work_wake, length_fmap, list_lookup_fmap, Ht. split_and!; [done..|].
    eexists. split; [done|]. unfold work, wake. destruct (ph t) eqn:E; cbn; by rewrite ?E. }
  destruct Hs as (Hs & Hl & u & Hu & Hwu). apply less_work; cbn; [by rewrite length_insert|].
  pose proof (sum_with_insert work _ i u t' Hu). lia.
Qed.

Lemma sleep_less i t t' s : threads s !! i = Some t -> work t' = work t -> awake t' < awake t -> steps_left (put i t' s) < steps_left s.
Proof.
  intros Ht Hw Ha. unfold steps_left. cbn. rewrite length_insert. pose proof (sum_with_insert work _ i t t' Ht).
  pose proof (sum_with_insert awake _ i t t' Ht). nia.
Qed.

Lemma pop_loop_less i t u s s0 : threads s0 !! i = Some u -> threads s = threads s0 -> work (return_ Threw t) < work u ->
  work (set_phase (InPop false) t) < work u \/ work (set_phase (InPop false) t) = work u /\ awake u = 1 ->
  steps_left (pop_loop i t s) < steps_left s0.
Proof.
  intros Hu Es Hr Hw. unfold pop_loop. destruct (m_stopped s) eqn:Hst; cbn [negb andb].
  - cbn [set_nblocked_pop m_stopped]. rewrite Hst. apply (put_work i u); [done| |done]. right. cbn. by rewrite Es.
  - destruct (m_q s) as [|x rest] eqn:Hq; cbn [set_nblocked_pop m_stopped m_q]; rewrite ?Hst, ?Hq.
    + destruct Hw as [Hw|[Hw Ha]]; [apply (put_work i u); auto|].
      replace (steps_left (put _ _ s)) with (steps_left (put i (set_phase (InPop false) t) s0)) by (unfold steps_left; cbn; by rewrite Es).
      apply (sleep_less i u); [done|done|]. rewrite Ha. unfold awake. cbn. lia.
    + apply (put_work i u); [done|by left|done].
Qed.

Lemma stop_loop_less i t u s s0 s' : threads s0 !! i = Some u -> threads s = threads s0 \/ threads s = wake <$> threads s0 ->
  work (return_ Stopped t) < work u ->
  work (set_phase (InStop false) t) < work u \/ work (set_phase (InStop false) t) = work u /\ awake u = 1 /\ threads s = threads s0 ->
  stop_loop i t s = Some s' -> steps_left s' < steps_left s0.
Proof.
  intros Hu Es Hr Hw. unfold stop_loop.
  destruct (m_nblocked_pop s); [destruct (m_nblocked_push s); [|done]|]; intros [= <-]; [by apply (put_work i u)|].
  destruct Hw as [Hw|(Hw & Ha & E)]; [by apply (put_work i u)|].
  replace (steps_left (put _ _ s)) with (steps_left (put i (set_phase (InStop false) t) s0)) by (unfold steps_left; cbn; by rewrite E).
  apply (sleep_less i u); [done|done|]. rewrite Ha. unfold awake. cbn. lia.
Qed.

Lemma step_less s s' : step s s' -> steps_left s' < steps_left s.
Proof.
  intros [i s0 s1 H]. unfold step_thread in H. destruct (threads s0 !! i) as [t|] eqn:Ht; [|done]. cbn [mbind option_bind] in H.
  destruct (m_mtx s0); [done|]. destruct (ph t) as [|[]|[]|] eqn:Hp; try done.
  - assert (Hw : work t = 2 * length (todo t)) by (unfold work; rewrite Hp; lia). destruct (todo t) as [|c cs]; [done|]. cbn [length] in Hw.
    assert (Hret : forall r s2, threads s2 = threads s0 \/ threads s2 = wake <$> threads s0 ->
      steps_left (put i (return_ r (mk_thread Free cs (results t))) s2) < steps_left s0).
    { intros r s2 E. apply (put_work i t); [done|done|]. rewrite Hw. unfold work. cbn. lia. }
    destruct c as [x| | |x|w]; [injection H as <-..|].
    + destruct (_ =? _); apply Hret; by left.
    + destruct (m_q s0); apply Hret; by left.
    + apply (pop_loop_less i _ t); try done; [|left]; rewrite Hw; unfold work; cbn; lia.
    + destruct (m_stopped s0); [apply Hret; by left|]. apply (put_work i t); [done|by left|]. rewrite Hw. unfold work. cbn. lia.
    + destruct w; [|injection H as <-; apply Hret; by right].
      eapply (stop_loop_less i _ t); [done| | | |exact H]; [by right|..]; [|left]; rewrite Hw; unfold work; cbn; lia.
  - injection H as <-. assert (Hw : work t = S (2 * length (todo t))) by (unfold work; rewrite Hp; lia).
    apply (pop_loop_less i t t); try done; [|right]; rewrite Hw; unfold work; cbn; [lia|]. split; [lia|]. unfold awake. by rewrite Hp.
  - assert (Hw : work t = S (2 * length (todo t))) by (unfold work; rewrite Hp; lia).
    eapply (stop_loop_less i t t); [done|by left| | |exact H]; [|right]; rewrite Hw; unfold work; cbn; [lia|].
    split_and!; [lia| |done]. unfold awake. by rewrite Hp.
Qed.

Lemma steps_bound n s s' : nsteps step n s s' -> n + steps_left s' <= steps_left s.
Proof. induction 1 as [|n s1 s2 s3 Hs _ IH]; [lia|]. pose proof (step_less _ _ Hs). lia. Qed.

(** *** Monotone facts *)

Lemma pop_loop_fields i t s : m_stopped (pop_loop i t s) = m_stopped s /\ m_mtx (pop_loop i t s) = m_mtx s /\
  cm_size (pop_loop i t s) = cm_size s /\ waited s <= waited (pop_loop i t s).
Proof.
  unfold pop_loop. destruct (negb _ && _); [by cbn|]. cbn [set_nblocked_pop m_stopped m_q].
  destruct (m_stopped s) eqn:E; [by cbn; rewrite E|]. destruct (m_q s); cbn; rewrite ?E; split_and!; try done; lia.
Qed.
Lemma stop_loop_fields i t s s' : stop_loop i t s = Some s' -> m_stopped s' = m_stopped s /\ m_mtx s' = m_mtx s /\
  cm_size s' = cm_size s /\ waited s' = waited s.
Proof. unfold stop_loop. destruct (m_nblocked_pop s); [destruct (m_nblocked_push s); [|done]|]; by intros [= <-]. Qed.

(** A stopped queue stays stopped and usable; a pop that waited counts for ever. *)
Lemma step_fields s s' : step s s' -> cm_size s' = cm_size s /\ waited s <= waited s' /\
  (m_stopped s = true -> m_stopped s' = true /\ m_mtx s' = m_mtx s).
Proof.
  intros [i s0 s1 H]. unfold step_thread in H. destruct (threads s0 !! i) as [t|]; [|done]. cbn [mbind option_bind] in H.
  destruct (m_mtx s0) eqn:Hm; [done|].
  assert (Hpop : forall t s2, m_stopped s2 = m_stopped s0 -> m_mtx s2 = m_mtx s0 -> cm_size s2 = cm_size s0 -> waited s2 = waited s0 ->
    cm_size (pop_loop i t s2) = cm_size s0 /\ waited s0 <= waited (pop_loop i t s2) /\
    (m_stopped s0 = true -> m_stopped (pop_loop i t s2) = true /\ m_mtx (pop_loop i t s2) = false)).
  { intros t' s2 E1 E2 E3 E4. destruct (pop_loop_fields i t' s2) as (-> & -> & -> & H4). rewrite E1, E2, E3, Hm, <- E4. auto. }
  destruct (ph t) as [|[]|[]|]; try done.
  - destruct (todo t) as [|c cs]; [done|]. destruct c as [x| | |x|w]; [injection H as <-..|].
    + destruct (_ =? _); cbn; by rewrite ?Hm.
    + destruct (m_q s0); cbn; by rewrite ?Hm.
    + by apply Hpop.
    + destruct (m_stopped s0) eqn:E; cbn; by rewrite ?Hm, ?E.
    + destruct w; [|injection H as <-; cbn; by rewrite Hm].
      destruct (stop_loop_fields _ _ _ _ H) as (-> & -> & -> & ->). cbn. by rewrite Hm.
  - injection H as <-. by apply Hpop.
  - destruct (stop_loop_fields _ _ _ _ H) as (-> & -> & -> & ->). rewrite Hm. auto.
Qed.

(** A thread asleep in [wait_and_pop] is left alone by a step, unless the queue is stopped. *)
Lemma step_leaves_asleep s s' i t : step s s' -> m_stopped s' = false -> threads s !! i = Some t -> ph t = InPop false ->
  threads s' !! i = Some t.
Proof.
  intros [j s0 s1 H] Hst Ht Hp. assert (Hst0 : m_stopped s0 = false).
  { destruct (m_stopped s0) eqn:E; [|done]. destruct (step_fields s0 s1 (step_by j _ _ H)) as (_ & _ & Hs). destruct (Hs E). congruence. }
  unfold step_thread in H. destruct (threads s0 !! j) as [u|] eqn:Hu; [|done]. cbn [mbind option_bind] in H. destruct (m_mtx s0); [done|].
  assert (Hne : j <> i) by (intros ->; rewrite Ht in Hu; injection Hu as <-; by rewrite Hp in H).
  assert (Hput : forall v s2, threads s2 = threads s0 -> threads (put j v s2) !! i = Some t).
  { intros v s2 E. cbn. by rewrite list_lookup_insert_ne, E. }
  assert (Hpop : forall v s2, threads s2 = threads s0 -> m_stopped s2 = false -> threads (pop_loop j v s2) !! i = Some t).
  { intros v s2 E E2. unfold pop_loop. rewrite E2. cbn [negb andb set_nblocked_pop m_stopped m_q]. rewrite E2.
    destruct (m_q s2); by apply Hput. }
  destruct (ph u) as [|[]|[]|]; try done.
  - destruct (todo u) as [|c cs]; [done|]. destruct c as [x| | |x|w]; [injection H as <-..|].
    + destruct (_ =? _); by apply Hput.
    + destruct (m_q s0); by apply Hput.
    + by apply Hpop.
    + rewrite Hst0. by apply Hput.
    + exfalso. destruct w; [destruct (stop_loop_fields _ _ _ _ H) as (E & _)|injection H as <-]; [by rewrite E in Hst|done].
  - injection H as <-. by apply Hpop.
  - unfold stop_loop in H. destruct (m_nblocked_pop s0); [destruct (m_nblocked_push s0); [|done]|]; injection H as <-; by apply Hput.
Qed.

Lemma steps_stopped n s s' : nsteps step n s s' -> m_stopped s = true -> m_stopped s' = true.
Proof. induction 1 as [|n s s1 s2 Hs _ IH]; [done|]. intros Hst. destruct (step_fields _ _ Hs) as (_ & _ & H). by apply IH, H. Qed.

(** ** Properties *)

(** Elements come out in the order they went in, but what [wait_and_pop] takes keeps its
    place in [m_current_size]: the room left is the capacity less the elements and less
    all pops that waited. Once these fill it the queue is empty and refuses
    every push, for ever. *)
Theorem waiting_pops_use_up_room (size : nat) (programs : list (list call)) (s : state) : reachable size programs s ->
  pushed s = taken s ++ m_q s /\ m_current_size s = length (m_q s) + waited s /\ m_current_size s <= cm_size s /\
  (waited s = cm_size s -> forall n s', nsteps step n s s' -> m_q s' = [] /\ m_current_size s' = cm_size s').
Proof.
  intros Hr. pose proof (reachable_inv _ _ _ Hr) as [_ _ _ H4 H5 H6]. split_and!; [done..|]. intros Hw n s' Hn.
  assert (Hs : inv s' /\ cm_size s' = cm_size s /\ waited s <= waited s').
  { clear Hw H4 H5 H6. apply reachable_inv in Hr. revert Hr. induction Hn as [|n s s1 s2 Hs _ IH]; [done|]. intros Hi.
    destruct (step_fields _ _ Hs) as (E1 & E2 & _).
    destruct (IH (any_step_inv _ _ (step_thread_ _ _ Hs) Hi)) as (? & ? & ?). split_and!; [done|congruence|lia]. }
  destruct Hs as ([_ _ _ H4' H5' _] & Ec & Ew). destruct (m_q s') as [|x l]; cbn in H4'; [|lia]. split; [done|lia].
Qed.

(** [stop] gets every thread out: from any reachable state all executions are finite, and
    where one ends after the queue was stopped (with nobody in [wait_and_push] before),
    every thread has returned from all its calls. *)
Theorem stop_lets_everybody_go (size : nat) (programs : list (list call)) (s s' : state) (n : nat) :
  reachable size programs s -> nsteps step n s s' ->
  n <= steps_left s /\
  (m_stopped s = true -> m_mtx s = false -> (forall s'', ~ step s' s'') ->
     Forall (fun t => ph t = Free /\ todo t = []) (threads s')).
Proof.
  intros Hr Hn. split; [pose proof (steps_bound _ _ _ Hn); lia|]. intros Hst Hm Hstuck.
  assert (Hs : inv s' /\ m_stopped s' = true /\ m_mtx s' = false).
  { apply reachable_inv in Hr. clear Hstuck. revert Hr Hst Hm. induction Hn as [|n s s1 s2 Hs _ IH]; [done|]. intros Hi Hst Hm.
    destruct (step_fields _ _ Hs) as (_ & _ & H). destruct (H Hst) as [E1 E2].
    apply IH; [by eapply any_step_inv; [apply step_thread_|]|done|congruence]. }
  destruct Hs as (Hi & Hst' & Hm'). clear Hr Hn Hst Hm.
  assert (Hnone : forall i, step_thread i s' = None).
  { intros i. destruct (step_thread i s') as [s2|] eqn:E; [|done]. by destruct (Hstuck s2 (step_by i s' s2 E)). }
  pose proof (inv_push _ Hi Hm') as Hpush.
  assert (Hpop : forall i t, threads s' !! i = Some t -> in_pop t = 0).
  { intros i t Ht. specialize (Hnone i). pose proof (Forall_lookup_1 _ _ _ _ (inv_threads _ Hi) Ht) as Hok.
    unfold step_thread in Hnone. rewrite Ht in Hnone. cbn [mbind option_bind] in Hnone. rewrite Hm' in Hnone.
    unfold in_pop, thread_ok in *. destruct (ph t) as [|[]|[]|]; try done. congruence. }
  assert (Hzero : m_nblocked_pop s' = 0).
  { rewrite (inv_pop _ Hi). apply sum_zero, Forall_lookup. done. }
  apply Forall_lookup. intros i t Ht. specialize (Hnone i). specialize (Hpop i t Ht).
  pose proof (Forall_lookup_1 _ _ _ _ (inv_threads _ Hi) Ht) as Hok.
  unfold step_thread in Hnone. rewrite Ht in Hnone. cbn [mbind option_bind] in Hnone. rewrite Hm' in Hnone.
  unfold in_pop, thread_ok, stop_loop in *. rewrite Hst', Hm', Hzero in *. cbn in Hnone. rewrite ?Hzero, ?Hpush in Hnone.
  destruct (ph t) as [|[]|[]|]; try done; [|by destruct (proj2 Hok)]. split; [done|].
  destruct (todo t) as [|[| | | |[]] l]; done.
Qed.

(** Only [stop] wakes a thread that sleeps in [wait_and_pop]: before it, the thread sleeps
    on whatever is pushed. *)
Theorem pushes_wake_nobody (n : nat) (s s' : state) (i : nat) (t : thread) : threads s !! i = Some t ->
  ph t = InPop false -> nsteps step n s s' -> m_stopped s' = false -> threads s' !! i = Some t.
Proof.
  intros Ht Hp Hn Hst'. induction Hn as [|n s s1 s2 Hs Hn IH]; [done|]. apply IH; [|done].
  eapply step_leaves_asleep; [done| |done|done].
  destruct (m_stopped s1) eqn:E; [|done]. pose proof (steps_stopped _ _ _ Hn E). congruence.
Qed.

(** ** Examples *)

Fixpoint take_turns (order : list nat) (s : state) : option state :=
  match order with [] => Some s | i :: order => s ← step_thread i s; take_turns order s end.
Lemma take_turns_steps order s s' : take_turns order s = Some s' -> nsteps step (length order) s s'.
Proof.
  revert s. induction order as [|i order IH]; intros s; cbn; [intros [= ->]; constructor|].
  destruct (step_thread i s) as [s1|] eqn:H; [|done]. intros Ht. econstructor; [by econstructor|by apply IH].
Qed.

Lemma take_turns_reachable size programs order s : take_turns order (start size programs) = Some s -> reachable size programs s.
Proof.
  unfold reachable. generalize (start size programs) as s0. induction order as [|i order IH]; intros s0; cbn; [by intros [= ->]|].
  destruct (step_thread i s0) as [s1|] eqn:H; [|done]. intros Ht. eapply rtc_l; [|by apply IH]. by constructor; econstructor.
Qed.
(** One thread waits for an element, the other pushes two and stops the queue. *)
Definition demo : list (list call) := [[WaitPop]; [TryPush 1; TryPush 2; Stop true]].
Definition demo_pushed : state := default (start 2 demo) (take_turns [0; 1; 1] (start 2 demo)).
Definition demo_stopping : state := default (start 2 demo) (take_turns [1] demo_pushed).
Definition demo_done : state := default (start 2 demo) (take_turns [0; 1] demo_stopping).

Lemma demo_stopping_reachable : reachable 2 demo demo_stopping.
Proof.
  apply (take_turns_reachable 2 demo [0; 1; 1; 1]). vm_compute. reflexivity.
Qed.

Lemma pushes_wake_nobody_witness : threads demo_pushed !! 0 = Some (mk_thread (InPop false) [] []) /\ m_q demo_pushed = [1; 2].
Proof.
  split; [|reflexivity].
  apply (pushes_wake_nobody 2 (default demo_pushed (take_turns [0] (start 2 demo))) demo_pushed 0); try reflexivity.
  apply (take_turns_steps [1; 1]). vm_compute. reflexivity.
Defined.

Lemma stop_lets_everybody_go_witness : Forall (fun t => ph t = Free /\ todo t = []) (threads demo_done).
Proof.
  apply (stop_lets_everybody_go 2 demo demo_stopping demo_done 2 demo_stopping_reachable); try reflexivity.
  - apply (take_turns_steps [0; 1]). vm_compute. reflexivity.
  - intros s Hs. inversion Hs as [i s1 s2 H]; subst. revert H. destruct i as [|[|i]]; vm_compute; discriminate.
Defined.

(** A queue of one place, whose element is taken by [wait_and_pop]. *)
Definition used_up : state :=
  default (start 1 []) (take_turns [0; 0] (start 1 [[TryPush 5; WaitPop; TryPush 6]])).
Lemma waiting_pops_use_up_room_witness : waited used_up = 1 /\ m_q used_up = [] /\ m_current_size used_up = cm_size used_up.
Proof.
  split; [reflexivity|].
  assert (Hr : reachable 1 [[TryPush 5; WaitPop; TryPush 6]] used_up)
    by (apply (take_turns_reachable 1 [[TryPush 5; WaitPop; TryPush 6]] [0; 0]); vm_compute; reflexivity).
  destruct (waiting_pops_use_up_room _ _ _ Hr) as (_ & _ & _ & H). apply (H eq_refl 0). constructor.
Defined.

(** [wait_and_push] on a queue that was not stopped leaves nobody a step. *)
Example wait_and_push_blocks_all : exists s, step_thread 0 (start 3 [[WaitPush 1]; [TryPop; Stop true]]) = Some s /\ forall i, step_thread i s = None.
Proof. eexists. split; [reflexivity|]. by intros [|[|i]]. Qed.
