(* ===== verification/Actors.v ===== *)
(** * The actor and its message queue

    Model of [executors/safe_queue_cc11.h] ([message_queue]: a FIFO under a mutex,
    with a condition variable) and of the class [Actor] of [actors_cc98.h], whose
    thread dequeues and executes messages until it meets the sentinel [done], and
    whose destructor sends the sentinel and joins the thread. Senders and the
    actor interleave at every lock, unlock, wait and notification; a waiting
    thread may also wake up for no reason. *)

From S2P Require Import Prelude.
Local Open Scope Z_scope.

(** ** Messages: the sentinel, and the messages proper, told apart by a number *)
Inductive message := Done | Msg (n : nat).
#[global] Instance message_eq_dec : EqDecision message.
Proof. solve_decision. Defined.

(** ** Where a thread is. [enqueue]: before the lock, holding it, after the push,
    after the notification. [Run]: before the lock of [dequeue], at the test of its
    loop, in [c.wait], woken and wanting the lock, holding the lock with the
    message popped, after the return of [dequeue], after the loop. *)
Inductive sender_pc := Ready | Locked | Pushed | Notified.
Inductive actor_pc :=
  | WantsLock | AtTest | Waiting | Woken | Popped (m : message) | Got (m : message) | Exited.
#[global] Instance sender_pc_eq_dec : EqDecision sender_pc.
Proof. solve_decision. Defined.
#[global] Instance actor_pc_eq_dec : EqDecision actor_pc.
Proof. solve_decision. Defined.

Inductive owner := Actor | Sender (k : nat).
#[global] Instance owner_eq_dec : EqDecision owner.
Proof. solve_decision. Defined.

(** A sender, with the messages it has still to send, the head being sent. *)
Record sender := mk_sender { s_pc : sender_pc; s_todo : list message }.

(** ** The queue [q] with its mutex [m], the threads, what the actor executed, and
    the messages in the order they were pushed. The condition variable's waiting
    set is the actor or nobody. *)
Record state := mk_state {
  q : list message;
  m : option owner;
  actor : actor_pc;
  senders : list sender;
  executed : list nat;
  sent : list message
}.

Definition set_actor (q' : list message) (m' : option owner) (a : actor_pc) (e : list nat) (s : state) : state :=
  mk_state q' m' a (senders s) e (sent s).
Definition set_sender (k : nat) (x : sender) (q' : list message) (m' : option owner) (a : actor_pc)
    (sent' : list message) (s : state) : state :=
  mk_state q' m' a (<[k := x]> (senders s)) (executed s) sent'.

(** [c.notify_one()]. *)
Definition notify (a : actor_pc) : actor_pc := match a with Waiting => Woken | _ => a end.

(** One step of sender [k] inside [enqueue]; [None] if it is blocked or done. *)
Definition step_sender (k : nat) (s : state) : option state :=
  match senders s !! k with
  | Some (mk_sender pc (x :: rest)) =>
      match pc with
      | Ready =>
          match m s with
          | None => Some (set_sender k (mk_sender Locked (x :: rest)) (q s) (Some (Sender k)) (actor s) (sent s) s)
          | Some _ => None
          end
      | Locked => Some (set_sender k (mk_sender Pushed (x :: rest)) (q s ++ [x]) (m s) (actor s) (sent s ++ [x]) s)
      | Pushed => Some (set_sender k (mk_sender Notified (x :: rest)) (q s) (m s) (notify (actor s)) (sent s) s)
      | Notified => Some (set_sender k (mk_sender Ready rest) (q s) None (actor s) (sent s) s)
      end
  | _ => None
  end.

(** One step of the actor's thread: [dequeue] and the loop of [Run]. *)
Definition step_actor (s : state) : option state :=
  match actor s with
  | WantsLock | Woken =>
      match m s with
      | None => Some (set_actor (q s) (Some Actor) AtTest (executed s) s)
      | Some _ => None
      end
  | AtTest =>
      match q s with
      | [] => Some (set_actor [] None Waiting (executed s) s)
      | x :: rest => Some (set_actor rest (m s) (Popped x) (executed s) s)
      end
  | Waiting => None
  | Popped x => Some (set_actor (q s) None (Got x) (executed s) s)
  | Got x =>
      match x with
      | Done => Some (set_actor (q s) (m s) Exited (executed s) s)
      | Msg n => Some (set_actor (q s) (m s) WantsLock (executed s ++ [n]) s)
      end
  | Exited => None
  end.

(** The steps the threads make, and wake-ups without a notification. *)
Inductive step : state -> state -> Prop :=
  | step_by_sender k s s' : step_sender k s = Some s' -> step s s'
  | step_by_actor s s' : step_actor s = Some s' -> step s s'.
Definition wake (s : state) : state :=
  match actor s with Waiting => set_actor (q s) (m s) Woken (executed s) s | _ => s end.
Inductive any_step : state -> state -> Prop :=
  | step_thread s s' : step s s' -> any_step s s'
  | step_wake s : any_step s (wake s).

(** [programs]: what each sender sends, the destructor's [Send(done)] included. *)
Definition start (programs : list (list message)) : state :=
  mk_state [] None WantsLock (mk_sender Ready <$> programs) [] [].

(** ** Specification *)

(** The messages before the sentinel. *)
Fixpoint before_done (l : list message) : list nat :=
  match l with
  | Msg n :: l' => n :: before_done l'
  | _ => []
  end.

(** The message the actor has taken and not executed yet. *)
Definition in_hand (a : actor_pc) : list message :=
  match a with Popped x | Got x => [x] | Exited => [Done] | _ => [] end.

Definition has_lock (pc : sender_pc) : bool := match pc with Ready => false | _ => true end.
(** What a sender has still to push. *)
Definition remaining (x : sender) : list message :=
  match s_pc x with Pushed | Notified => tail (s_todo x) | _ => s_todo x end.

Record inv (programs : list (list message)) (s : state) : Prop := mk_inv {
  inv_sent : sent s = (Msg <$> executed s) ++ in_hand (actor s) ++ q s;
  inv_actor_lock : m s = Some Actor <-> actor s = AtTest \/ exists x, actor s = Popped x;
  inv_sender_lock : forall k x, senders s !! k = Some x ->
    (m s = Some (Sender k) <-> has_lock (s_pc x) = true);
  inv_owner : forall k, m s = Some (Sender k) -> (k < length (senders s))%nat;
  inv_wait : actor s = Waiting -> q s <> [] ->
    exists k x, senders s !! k = Some x /\ s_pc x = Pushed;
  inv_sending : forall k x, senders s !! k = Some x -> s_pc x <> Ready -> s_todo x <> [];
  inv_order : Forall2 (fun p x => exists done, p = done ++ remaining x /\ done `sublist_of` sent s)
    programs (senders s);
  inv_perm : sent s ++ concat (remaining <$> senders s) ≡ₚ concat programs
}.

(** Upper bound on the thread steps left. *)
Definition sender_weight (x : sender) : Z :=
  match s_pc x with
  | Ready => 11 * Z.of_nat (length (s_todo x))
  | Locked => 11 * Z.of_nat (length (s_todo x)) - 1
  | Pushed => 11 * Z.of_nat (length (s_todo x)) - 6
  | Notified => 11 * Z.of_nat (length (s_todo x)) - 10
  end.
Definition actor_weight (a : actor_pc) : Z :=
  match a with
  | WantsLock | Woken => 3 | AtTest => 2 | Waiting => 0 | Popped _ => 5 | Got _ => 4 | Exited => 0
  end.
Definition steps_left (s : state) : Z :=
  sumZ (sender_weight <$> senders s) + 4 * Z.of_nat (length (q s)) + actor_weight (actor s).

(** ** Lemmas *)

Lemma concat_insert (l : list (list message)) i y r : l !! i = Some (y ++ r) ->
  concat l ≡ₚ y ++ concat (<[i := r]> l).
Proof.
  revert i. induction l as [|z l IH]; intros [|i] H; simpl in *; simplify_eq.
  - by rewrite <- app_assoc.
  - rewrite (IH i) by done. rewrite !app_assoc. by rewrite (Permutation_app_comm z y).
Qed.

Lemma remaining_insert l k x x' : l !! k = Some x -> remaining x = remaining x' ->
  concat (remaining <$> <[k := x']> l) = concat (remaining <$> l).
Proof.
  intros Hk E. rewrite list_fmap_insert, list_insert_id; [done|]. by rewrite list_lookup_fmap, Hk, <- E.
Qed.

Lemma sublist_snoc (l1 l2 : list message) x : l1 `sublist_of` l2 -> l1 `sublist_of` l2 ++ [x].
Proof. intros H. by apply sublist_inserts_r. Qed.

Section execution.
Context (programs : list (list message)).

Lemma actor_inv_start : inv programs (start programs).
Proof.
  constructor; cbn; try done.
  - split; [done|]. by intros [|[x ?]].
  - intros k x. rewrite list_lookup_fmap. intros (p & Hp & ->)%fmap_Some. by split.
  - intros k x. rewrite list_lookup_fmap. by intros (p & Hp & ->)%fmap_Some.
  - apply Forall2_fmap_r. apply Forall_Forall2_diag, Forall_true. intros p. exists []. by split.
  - rewrite <- list_fmap_compose. by rewrite list_fmap_id.
Qed.

(** A step of a sender that does not push. *)
Lemma inv_sender_move s k x x' m' a' :
  inv programs s -> senders s !! k = Some x -> remaining x = remaining x' ->
  (m' = Some Actor <-> a' = AtTest \/ exists y, a' = Popped y) ->
  (forall j, m' = Some (Sender j) <-> j = k /\ has_lock (s_pc x') = true) ->
  in_hand a' = in_hand (actor s) -> (a' = Waiting -> q s = [] \/ s_pc x' = Pushed) ->
  (s_pc x' <> Ready -> s_todo x' <> []) ->
  (forall j y, j <> k -> senders s !! j = Some y -> has_lock (s_pc y) = false) ->
  inv programs (set_sender k x' (q s) m' a' (sent s) s).
Proof.
  intros [Hs Ha Hl Ho Hw Ht Hor Hp] Hk Hr Hma Hms Hh Hwait Hne Hothers.
  assert (Hlen : (k < length (senders s))%nat) by (by eapply lookup_lt_Some).
  assert (Hlook : forall j y, <[k := x']> (senders s) !! j = Some y ->
    (j = k /\ y = x') \/ (j <> k /\ senders s !! j = Some y)).
  { intros j y. destruct (decide (j = k)) as [->|Hne'].
    - rewrite list_lookup_insert_eq by done. intros [= <-]. by left.
    - rewrite list_lookup_insert_ne by done. by right. }
  constructor; cbn.
  - by rewrite Hh.
  - done.
  - intros j y [[-> ->]|[Hne' Hj]]%Hlook; rewrite Hms; [by split; [intros [_ ?]|]|].
    rewrite (Hothers j y) by done. split; [by intros [? _]|done].
  - intros j [-> _]%Hms. by rewrite length_insert.
  - intros Hwa Hq. destruct (Hwait Hwa) as [?|Hx]; [done|]. exists k, x'.
    by rewrite list_lookup_insert_eq.
  - intros j y [[-> ->]|[Hne' Hj]]%Hlook; [done|by apply (Ht j)].
  - apply Forall2_same_length_lookup. split; [rewrite length_insert; by eapply Forall2_length|].
    intros j p y Hpj [[-> ->]|[Hne' Hj]]%Hlook.
    + rewrite <- Hr. by apply (Forall2_lookup_lr _ _ _ k p x Hor).
    + by apply (Forall2_lookup_lr _ _ _ j p y Hor).
  - by rewrite (remaining_insert _ _ x).
Qed.

(** Senders other than the owner of the mutex are outside their critical section. *)
Lemma others_ready s k : inv programs s -> m s = None \/ m s = Some (Sender k) ->
  forall j y, j <> k -> senders s !! j = Some y -> has_lock (s_pc y) = false.
Proof.
  intros Hi Hm j y Hne Hj. pose proof (proj2 (inv_sender_lock _ _ Hi j y Hj)) as H.
  destruct (has_lock (s_pc y)); [|done]. specialize (H eq_refl). destruct Hm as [E|E]; congruence.
Qed.

(** A push wakes nobody by itself: the queue is not empty while the actor waits
    only between a push and its notification. *)
Lemma waiting_empty s : inv programs s -> actor s = Waiting ->
  (forall k x, senders s !! k = Some x -> s_pc x <> Pushed) -> q s = [].
Proof.
  intros Hi Hw Hn. destruct (decide (q s = [])) as [|Hq]; [done|].
  destruct (inv_wait _ _ Hi Hw Hq) as (k & x & Hk & Hp). by destruct (Hn k x Hk).
Qed.

Lemma not_pushed s k pc rest : inv programs s -> m s = None \/ m s = Some (Sender k) ->
  senders s !! k = Some (mk_sender pc rest) -> pc <> Pushed ->
  forall j x, senders s !! j = Some x -> s_pc x <> Pushed.
Proof.
  intros Hi Hm Hk Hpc j x Hj Hx. destruct (decide (j = k)) as [->|Hne].
  - rewrite Hk in Hj. by injection Hj as <-.
  - pose proof (others_ready s k Hi Hm j x Hne Hj) as H. by rewrite Hx in H.
Qed.

Lemma inv_push s k x rest : inv programs s -> senders s !! k = Some (mk_sender Locked (x :: rest)) ->
  inv programs (set_sender k (mk_sender Pushed (x :: rest)) (q s ++ [x]) (m s) (actor s) (sent s ++ [x]) s).
Proof.
  intros Hi Hk. pose proof Hi as [Hs Ha Hl Ho Hw Ht Hor Hp].
  assert (Hlen : (k < length (senders s))%nat) by (by eapply lookup_lt_Some).
  assert (Hm : m s = Some (Sender k)) by (by apply (Hl k _ Hk)).
  set (x' := mk_sender Pushed (x :: rest)).
  assert (Hlook : forall j y, <[k := x']> (senders s) !! j = Some y ->
    (j = k /\ y = x') \/ (j <> k /\ senders s !! j = Some y)).
  { intros j y. destruct (decide (j = k)) as [->|Hne'].
    - rewrite list_lookup_insert_eq by done. intros [= <-]. by left.
    - rewrite list_lookup_insert_ne by done. by right. }
  constructor; cbn.
  - rewrite Hs. by rewrite <- !app_assoc.
  - done.
  - intros j y [[-> ->]|[Hne' Hj]]%Hlook; [by rewrite Hm|by apply Hl].
  - intros j Hj. rewrite length_insert. by apply Ho.
  - intros _ _. exists k, x'. by rewrite list_lookup_insert_eq.
  - intros j y [[-> ->]|[Hne' Hj]]%Hlook; [done|by apply (Ht j)].
  - apply Forall2_same_length_lookup. split; [rewrite length_insert; by eapply Forall2_length|].
    intros j p y Hpj [[-> ->]|[Hne' Hj]]%Hlook.
    + destruct (Forall2_lookup_lr _ _ _ k p _ Hor Hpj Hk) as (d & -> & Hd). exists (d ++ [x]).
      split; [by rewrite <- app_assoc|]. by apply sublist_app.
    + destruct (Forall2_lookup_lr _ _ _ j p y Hor Hpj Hj) as (d & -> & Hd). exists d.
      split; [done|by apply sublist_snoc].
  - rewrite <- Hp, list_fmap_insert, <- app_assoc. f_equiv. symmetry.
    apply (concat_insert (remaining <$> senders s) k [x] rest).
    by rewrite list_lookup_fmap, Hk.
Qed.

Lemma inv_step_sender s s' k : inv programs s -> step_sender k s = Some s' -> inv programs s'.
Proof.
  intros Hi Hstep. pose proof Hi as [Hs Ha Hl Ho Hw Ht Hor Hp]. unfold step_sender in Hstep.
  destruct (senders s !! k) as [[pc [|x rest]]|] eqn:Hk; [done| |done]. destruct pc.
  - destruct (m s) eqn:Hm; [done|]. injection Hstep as <-.
    apply (inv_sender_move s k _ _ _ _ Hi Hk); cbn; try done.
    + rewrite <- Ha. done.
    + intros j. split; [intros [= ->]; done|by intros [-> _]].
    + intros Hwa. left. apply waiting_empty; [done|done|]. by eapply (not_pushed s k); [done|left|exact Hk|].
    + apply others_ready; [done|by left].
  - injection Hstep as <-. by apply inv_push.
  - injection Hstep as <-. assert (Hm : m s = Some (Sender k)) by (by apply (Hl k _ Hk)).
    apply (inv_sender_move s k _ _ _ _ Hi Hk); cbn; try done.
    + rewrite Ha. unfold notify. destruct (actor s); split; intros [?|[? ?]]; try done; eauto.
    + intros j. rewrite Hm. split; [intros [= ->]; done|by intros [-> _]].
    + by destruct (actor s).
    + by destruct (actor s).
    + apply others_ready; [done|by right].
  - injection Hstep as <-. assert (Hm : m s = Some (Sender k)) by (by apply (Hl k _ Hk)).
    apply (inv_sender_move s k _ _ _ _ Hi Hk); cbn; try done.
    + split; [done|]. rewrite <- Ha, Hm. done.
    + intros j. split; [done|by intros [_ ?]].
    + intros Hwa. left. apply waiting_empty; [done|done|]. by eapply (not_pushed s k); [done|right|exact Hk|].
    + apply others_ready; [done|by right].
Qed.

(** A step of the actor, which leaves the senders alone. *)
Lemma inv_actor_move s q' m' a' e' : inv programs s ->
  (Msg <$> e') ++ in_hand a' ++ q' = (Msg <$> executed s) ++ in_hand (actor s) ++ q s ->
  (m' = Some Actor <-> a' = AtTest \/ exists x, a' = Popped x) ->
  (m' = m s \/ (m s = None \/ m s = Some Actor) /\ (m' = None \/ m' = Some Actor)) ->
  (a' = Waiting -> q' = []) ->
  inv programs (set_actor q' m' a' e' s).
Proof.
  intros [Hs Ha Hl Ho Hw Ht Hor Hp] Hdata Hma Hm Hwait.
  assert (Heq : forall k, m' = Some (Sender k) <-> m s = Some (Sender k)).
  { intros k. destruct Hm as [->|[[E|E] [E'|E']]]; [done|..]; rewrite E, E'; done. }
  constructor; cbn; try done.
  - by rewrite Hs, Hdata.
  - intros k x Hk. rewrite Heq. by apply Hl.
  - intros k Hk. by apply Ho, Heq.
  - intros Hwa Hq. by destruct (Hq (Hwait Hwa)).
Qed.

Lemma inv_step_actor s s' : inv programs s -> step_actor s = Some s' -> inv programs s'.
Proof.
  intros Hi Hstep. pose proof (inv_actor_lock _ _ Hi) as Ha. unfold step_actor in Hstep.
  destruct (actor s) as [| | | |x|x|] eqn:Hac; try done.
  - destruct (m s) eqn:Hm; [done|]. injection Hstep as <-.
    apply inv_actor_move; rewrite ?Hac; try done; [by split; [left|]|by right; auto].
  - assert (Hm : m s = Some Actor) by (apply Ha; by left).
    destruct (q s) as [|x rest] eqn:Hq; injection Hstep as <-; apply inv_actor_move; rewrite ?Hac, ?Hq; try done.
    + split; [done|]. by intros [?|[? ?]].
    + right. auto.
    + split; [by eauto|done].
    + by left.
  - destruct (m s) eqn:Hm; [done|]. injection Hstep as <-.
    apply inv_actor_move; rewrite ?Hac; try done; [by split; [left|]|by right; auto].
  - assert (Hm : m s = Some Actor) by (apply Ha; eauto). injection Hstep as <-.
    apply inv_actor_move; rewrite ?Hac; try done; [|by right; auto]. split; [done|]. by intros [?|[? ?]].
  - assert (Hm : m s <> Some Actor) by (rewrite Ha; by intros [?|[? ?]]).
    destruct x as [|n]; injection Hstep as <-; apply inv_actor_move; rewrite ?Hac; try done; try (by left).
    + split; [done|]. by intros [?|[? ?]].
    + by rewrite fmap_app, <- app_assoc.
    + split; [done|]. by intros [?|[? ?]].
Qed.

Lemma inv_wake s : inv programs s -> inv programs (wake s).
Proof.
  intros Hi. unfold wake. destruct (actor s) eqn:Hac; try done.
  pose proof (inv_actor_lock _ _ Hi) as Ha. rewrite Hac in Ha.
  apply inv_actor_move; rewrite ?Hac; try done; [|by left]. rewrite Ha. by split; intros [?|[? ?]].
Qed.

Lemma actor_inv_reachable s : rtc any_step (start programs) s -> inv programs s.
Proof.
  intros Hr. pose proof actor_inv_start as H0. revert H0.
  induction Hr as [|s1 s2 s3 Hs _ IH]; intros H0; [done|]. apply IH.
  destruct Hs as [s1 s2 []|]; eauto using inv_step_sender, inv_step_actor, inv_wake.
Qed.

(** *** Termination and what is left at rest *)

Lemma sender_weight_nonneg s : inv programs s -> Forall (fun z => 0 <= z) (sender_weight <$> senders s).
Proof.
  intros Hi. apply Forall_fmap, Forall_lookup. intros k x Hk. pose proof (inv_sending _ _ Hi k x Hk) as Hne.
  unfold compose, sender_weight. destruct x as [[] [|y l]]; cbn in *; try lia; by destruct Hne.
Qed.

Lemma actor_steps_left_nonneg s : inv programs s -> 0 <= steps_left s.
Proof.
  intros Hi. unfold steps_left. pose proof (sumZ_nonneg _ (sender_weight_nonneg s Hi)).
  destruct (actor s); cbn; lia.
Qed.

Lemma notify_weight a : actor_weight (notify a) <= actor_weight a + 3.
Proof. destruct a; cbn; lia. Qed.

Lemma actor_step_decreases s s' : inv programs s -> step s s' -> steps_left s' < steps_left s.
Proof.
  intros Hi [k s1 s2 Hs|s1 s2 Hs]; unfold steps_left.
  - unfold step_sender in Hs. destruct (senders s1 !! k) as [[pc [|x rest]]|] eqn:Hk; [done| |done].
    assert (Hw : (sender_weight <$> senders s1) !! k = Some (sender_weight (mk_sender pc (x :: rest))))
      by (by rewrite list_lookup_fmap, Hk).
    pose proof (notify_weight (actor s1)). destruct pc; [destruct (m s1); [done|]|..]; injection Hs as <-;
      cbn [set_sender senders q actor]; rewrite list_fmap_insert, (sumZ_insert _ _ _ _ Hw), ?length_app;
      unfold sender_weight; cbn [s_pc s_todo length]; lia.
  - unfold step_actor in Hs. destruct (actor s1) as [| | | |x|x|] eqn:Hac; try done;
      try (destruct (m s1); [done|]); try (destruct (q s1) eqn:Hq);
      try (destruct x); injection Hs as <-; cbn [set_actor senders q actor actor_weight length]; lia.
Qed.

Lemma inv_steps n s s' : inv programs s -> nsteps step n s s' -> inv programs s' /\ Z.of_nat n + steps_left s' <= steps_left s.
Proof.
  intros Hi Hn. induction Hn as [|n s1 s2 s3 Hs _ IH]; [split; [done|lia]|].
  assert (Hi2 : inv programs s2) by (destruct Hs; eauto using inv_step_sender, inv_step_actor).
  destruct (IH Hi2) as [H1 H2]. pose proof (actor_step_decreases _ _ Hi Hs). split; [done|lia].
Qed.

(** At rest every sender is done, and the actor is gone or waits on an empty queue. *)
Definition at_rest (s : state) : Prop :=
  Forall (fun x => s_todo x = []) (senders s) /\ (actor s = Exited \/ actor s = Waiting /\ q s = []).

Lemma stuck_at_rest s : inv programs s -> (forall s', ~ step s s') -> at_rest s.
Proof.
  intros Hi Hstuck. assert (Hsend : forall k, step_sender k s = None).
  { intros k. destruct (step_sender k s) eqn:E; [|done]. by destruct (Hstuck _ (step_by_sender k s _ E)). }
  assert (Hact : step_actor s = None).
  { destruct (step_actor s) eqn:E; [|done]. by destruct (Hstuck _ (step_by_actor s _ E)). }
  assert (Hm : m s = None).
  { destruct (m s) as [[|k]|] eqn:Hm; [| |done]; exfalso.
    - unfold step_actor in Hact. destruct (proj1 (inv_actor_lock _ _ Hi) Hm) as [E|[x E]]; rewrite E in Hact; [|done].
      by destruct (q s).
    - destruct (lookup_lt_is_Some_2 (senders s) k (inv_owner _ _ Hi k Hm)) as [[pc l] Hk].
      pose proof (proj1 (inv_sender_lock _ _ Hi k _ Hk) Hm) as Hlk. pose proof (inv_sending _ _ Hi k _ Hk) as Hne.
      specialize (Hsend k). unfold step_sender in Hsend. rewrite Hk in Hsend.
      destruct l as [|x l]; [destruct pc; [done|by destruct Hne..]|]. by destruct pc. }
  assert (Hdone : Forall (fun x => s_todo x = []) (senders s)).
  { apply Forall_lookup. intros k [pc [|x l]] Hk; [done|]. specialize (Hsend k). unfold step_sender in Hsend.
    rewrite Hk, Hm in Hsend. by destruct pc. }
  split; [done|]. unfold step_actor in Hact. rewrite Hm in Hact.
  destruct (actor s) as [| | | |x|x|] eqn:Hac; try done; [by destruct (q s)| |by destruct x|by left].
  right. split; [done|]. apply waiting_empty; [done|done|]. intros k [pc l] Hk E.
  pose proof (Forall_lookup_1 _ _ _ _ Hdone Hk) as Hl. cbn in Hl, E. subst.
  by apply (inv_sending _ _ Hi k _ Hk).
Qed.

Lemma before_done_app l l' : before_done ((Msg <$> l) ++ Done :: l') = l.
Proof. induction l as [|n l IH]; [done|]. cbn. by f_equal. Qed.

Lemma rest_sent s : inv programs s -> at_rest s -> sent s ≡ₚ concat programs.
Proof.
  intros Hi [Hd _]. rewrite <- (inv_perm _ _ Hi).
  assert (E : concat (remaining <$> senders s) = []).
  { clear Hi. induction Hd as [|[pc l] xs Hx _ IH]; [done|]. cbn in Hx. subst. cbn. rewrite IH. by destruct pc. }
  by rewrite E, app_nil_r.
Qed.

Lemma rest_drained s : inv programs s -> at_rest s -> Done ∈ concat programs ->
  actor s = Exited /\ executed s = before_done (sent s).
Proof.
  intros Hi Hr HD. pose proof (inv_sent _ _ Hi) as Hs. pose proof Hr as [_ [He|[Hw Hq]]].
  - split; [done|]. rewrite Hs, He. cbn. by rewrite before_done_app.
  - exfalso. rewrite <- (rest_sent s Hi Hr), Hs, Hw, Hq, !app_nil_r in HD.
    by apply list_elem_of_fmap in HD as (n & ? & _).
Qed.
End execution.


(** Two senders, the second being the destructor. *)
Definition demo_programs : list (list message) := [[Msg 1; Msg 2]; [Msg 7; Done]].
Inductive turn := SenderTurn (k : nat) | ActorTurn.
Fixpoint take_turns (ts : list turn) (s : state) : option state :=
  match ts with
  | [] => Some s
  | t :: ts => s' ← match t with SenderTurn k => step_sender k s | ActorTurn => step_actor s end; take_turns ts s'
  end.
Lemma actor_turns_steps ts : forall s s', take_turns ts s = Some s' -> nsteps step (length ts) s s'.
Proof.
  induction ts as [|t ts IH]; intros s s' H; cbn in H; [injection H as ->; apply nsteps_O|].
  destruct (match t with SenderTurn k => step_sender k s | ActorTurn => step_actor s end) as [s1|] eqn:Ht; [|done].
  eapply nsteps_l; [|by apply IH]. destruct t; [by eapply step_by_sender|by apply step_by_actor].
Qed.
Lemma nsteps_reached n s s' : nsteps step n s s' -> rtc any_step s s'.
Proof. induction 1 as [|n s1 s2 s3 Hs _ IH]; [apply rtc_refl|]. eapply rtc_l; [by apply step_thread|done]. Qed.

(** The actor waits, a sender has pushed and not notified yet; then all is sent and
    the actor runs until it meets the sentinel. *)
Definition early_turns : list turn := [ActorTurn; ActorTurn; SenderTurn 0; SenderTurn 0].
Definition late_turns : list turn := replicate 6 (SenderTurn 0) ++ replicate 8 (SenderTurn 1) ++ replicate 16 ActorTurn.
Definition asleep : state := mk_state [Msg 1] (Some (Sender 0)) Waiting [mk_sender Pushed [Msg 1; Msg 2]; mk_sender Ready [Msg 7; Done]] [] [Msg 1].
Definition finished : state := mk_state [] None Exited [mk_sender Ready []; mk_sender Ready []] [1; 2; 7]%nat [Msg 1; Msg 2; Msg 7; Done].
Lemma asleep_steps : nsteps step 4 (start demo_programs) asleep.
Proof. apply (actor_turns_steps early_turns). vm_compute. reflexivity. Qed.
Lemma finished_steps : nsteps step 30 asleep finished.
Proof. apply (actor_turns_steps late_turns). vm_compute. reflexivity. Qed.
Lemma finished_stuck s : ~ step finished s.
Proof. intros H. inversion H as [k ? ? Hk|? ? Hk]; subst; [|done]. by destruct k as [|[|k]]. Qed.

(** ** Properties *)

(** The queue loses, invents and reorders nothing, in any interleaving, with
    any spurious wake-ups: what has been pushed is what the actor executed, what
    it has in hand and what is queued, in this order; it consists of the pushed
    parts of the senders' programs, each in its program's order. *)
Theorem queue_fifo (programs : list (list message)) (s : state) :
  rtc any_step (start programs) s ->
  sent s = (Msg <$> executed s) ++ in_hand (actor s) ++ q s /\
  sent s ++ concat (remaining <$> senders s) ≡ₚ concat programs /\
  forall k p x, programs !! k = Some p -> senders s !! k = Some x ->
    exists pushed, p = pushed ++ remaining x /\ pushed `sublist_of` sent s.
Proof.
  intros Hr. pose proof (actor_inv_reachable programs s Hr) as Hi. split_and!; [apply Hi|apply Hi|].
  intros k p x Hp Hx. by apply (Forall2_lookup_lr _ _ _ k p x (inv_order _ _ Hi)).
Qed.

Lemma queue_fifo_witness :
  sent (start demo_programs) = [] /\
  sent (start demo_programs) ++ concat (remaining <$> senders (start demo_programs)) ≡ₚ concat demo_programs /\
  forall k p x, demo_programs !! k = Some p -> senders (start demo_programs) !! k = Some x ->
    exists pushed, p = pushed ++ remaining x /\ pushed `sublist_of` sent (start demo_programs).
Proof. apply (queue_fifo demo_programs (start demo_programs)). apply rtc_refl. Defined.

(** C35: no wake-up is lost and nothing deadlocks: when the actor waits although
    the queue is not empty, a sender is about to notify it; and a reachable state
    in which no thread can move is one where every sender has returned and the
    actor has left its loop or waits on an empty queue. *)
Theorem no_lost_wakeup (programs : list (list message)) (s : state) :
  rtc any_step (start programs) s ->
  (actor s = Waiting -> q s <> [] -> exists k x, senders s !! k = Some x /\ s_pc x = Pushed) /\
  ((forall s', ~ step s s') -> at_rest s).
Proof.
  intros Hr. pose proof (actor_inv_reachable programs s Hr) as Hi.
  split; [apply Hi|]. by apply (stuck_at_rest programs).
Qed.

Lemma no_lost_wakeup_witness :
  (exists k x, senders asleep !! k = Some x /\ s_pc x = Pushed) /\ at_rest finished.
Proof.
  split.
  - apply (proj1 (no_lost_wakeup demo_programs asleep (nsteps_reached _ _ _ asleep_steps))); done.
  - apply (proj2 (no_lost_wakeup demo_programs finished ltac:(etrans; [exact (nsteps_reached _ _ _ asleep_steps)|exact (nsteps_reached _ _ _ finished_steps)]))).
    exact finished_stuck.
Defined.

(** C34: the destructor returns. Once some sender sends the sentinel, from any
    reachable state every execution of the threads is finite, with an explicit
    bound, and where it ends the actor has left its loop, having executed
    exactly the messages pushed before the first sentinel, in order, and all
    that was to be sent has been pushed. *)
Theorem destructor_joins (programs : list (list message)) (s s' : state) (n : nat) :
  rtc any_step (start programs) s -> Done ∈ concat programs -> nsteps step n s s' ->
  Z.of_nat n <= steps_left s /\
  ((forall s'', ~ step s' s'') ->
     actor s' = Exited /\ executed s' = before_done (sent s') /\ sent s' ≡ₚ concat programs).
Proof.
  intros Hr HD Hn. pose proof (actor_inv_reachable programs s Hr) as Hi.
  destruct (inv_steps programs n s s' Hi Hn) as [Hi' Hb].
  pose proof (actor_steps_left_nonneg programs s' Hi'). split; [lia|]. intros Hstuck.
  pose proof (stuck_at_rest programs s' Hi' Hstuck) as Hrest.
  destruct (rest_drained programs s' Hi' Hrest HD). split_and!; [done..|]. by apply rest_sent.
Qed.

Lemma destructor_joins_witness :
  Z.of_nat 30 <= steps_left asleep /\
  actor finished = Exited /\ executed finished = before_done (sent finished) /\ sent finished ≡ₚ concat demo_programs.
Proof.
  destruct (destructor_joins demo_programs asleep finished 30 (nsteps_reached _ _ _ asleep_steps) ltac:(apply list_elem_of_In; cbn; tauto) finished_steps) as [H1 H2].
  split; [exact H1|]. exact (H2 finished_stuck).
Defined.
