(* ===== verification/Actior.v ===== *)
(** * The actor that is told to end by its last message

    Model of the class [Actior] of [executors/actors_cc11.h] (and of [Actor] of
    [shadow/actors_cc11.h]): its thread takes functions from the same queue as the
    actor of [Actors] and runs them while the flag [done] is false; its destructor
    sends a function that sets the flag, and joins. It does what that actor does,
    with one more step for each test of the flag. *)

From S2P Require Import Prelude Actors.
Local Open Scope Z_scope.

(** The queue and the threads as in [Actors] ([Done] is the destructor's function),
    [done], and whether the actor is at the test of its loop. *)
Record actior := mk_actior { base : state; done_ : bool; testing : bool }.

Definition set_base (s : state) (x : actior) : actior := mk_actior s (done_ x) (testing x).

(** A step of the thread: [while( !done )], [dequeue], [msg()]. *)
Definition step_run (x : actior) : option actior :=
  let s := base x in
  if testing x then
    Some (mk_actior (if done_ x then set_actor (q s) (m s) Exited (executed s) s else s) (done_ x) false)
  else match actor s with
  | Got Done => Some (mk_actior (set_actor (q s) (m s) WantsLock (executed s) s) true true)
  | Got (Msg n) => Some (mk_actior (set_actor (q s) (m s) WantsLock (executed s ++ [n]) s) (done_ x) true)
  | _ => s' ← step_actor s; Some (set_base s' x)
  end.
Definition step_send (k : nat) (x : actior) : option actior := s' ← step_sender k (base x); Some (set_base s' x).

Inductive thread_step : actior -> actior -> Prop :=
  | run_step x x' : step_run x = Some x' -> thread_step x x'
  | send_step k x x' : step_send k x = Some x' -> thread_step x x'.
Inductive actior_step : actior -> actior -> Prop :=
  | by_thread x x' : thread_step x x' -> actior_step x x'
  | by_wake x : actior_step x (set_base (wake (base x)) x).

Definition Actior_start (programs : list (list message)) : actior := mk_actior (start programs) false true.

(** ** The actor of [Actors] it behaves like *)
Definition leaving (x : actior) : bool := testing x && done_ x.
Definition as_actor (x : actior) : state :=
  let s := base x in if leaving x then set_actor (q s) (m s) Exited (executed s) s else s.

(** At the test the actor holds nothing; once [done] is set it is there or gone. *)
Definition flag_inv (x : actior) : Prop :=
  (testing x = true -> actor (base x) = WantsLock) /\
  (testing x = false -> done_ x = true -> actor (base x) = Exited).

Definition steps_of (x : actior) : Z := 2 * steps_left (as_actor x) + (if testing x then 1 else 0).

(** ** Lemmas *)

(** A sender's step does not depend on what the actor is doing between its
    critical sections. *)
Lemma step_sender_away k s s' a : step_sender k s = Some s' -> notify a = a -> notify (actor s) = actor s ->
  step_sender k (set_actor (q s) (m s) a (executed s) s) = Some (set_actor (q s') (m s') a (executed s') s') /\
  actor s' = actor s.
Proof.
  intros H Ha Hs. unfold step_sender in *. cbn. destruct (senders s !! k) as [[pc [|x l]]|]; [done| |done].
  destruct pc; [destruct (m s) eqn:Hm; [done|]|..]; injection H as <-; rewrite ?Hm; cbn; rewrite ?Ha, ?Hs; done.
Qed.

Lemma flag_step x x' : flag_inv x -> actior_step x x' -> flag_inv x'.
Proof.
  intros Hf Hs. revert Hf. destruct Hs as [x x' [x0 x1 H|k x0 x1 H]|x]; intros [H1 H2].
  - unfold step_run in H. destruct (testing x0) eqn:Et.
    + injection H as <-. split; [done|]. cbn. intros _ ->. done.
    + destruct (done_ x0) eqn:Ed; [rewrite (H2 eq_refl eq_refl) in H; unfold step_actor in H; by rewrite (H2 eq_refl eq_refl) in H|].
      assert (Hb : forall s', Some (set_base s' x0) = Some x1 -> flag_inv x1).
      { intros s' [= <-]. split; cbn; rewrite ?Et, ?Ed; done. }
      destruct (actor (base x0)) as [| | | |y|[|n]|] eqn:Ha;
        try (destruct (step_actor (base x0)) as [s'|]; [by apply (Hb s')|done]); injection H as <-; by split.
  - unfold step_send in H. destruct (step_sender k (base x0)) as [s'|] eqn:Hk; [|done]. injection H as <-.
    split; cbn.
    + intros Et. rewrite <- (H1 Et). eapply (step_sender_away _ _ _ WantsLock Hk); [done|by rewrite (H1 Et)].
    + intros Et Ed. rewrite <- (H2 Et Ed). eapply (step_sender_away _ _ _ WantsLock Hk); [done|by rewrite (H2 Et Ed)].
  - split; cbn; intros Et; [|intros Ed]; unfold wake; [rewrite (H1 Et)|rewrite (H2 Et Ed)]; auto.
Qed.

(** Every step is a step of the actor, or the test of the flag. *)
Lemma actior_simulates x x' : flag_inv x -> thread_step x x' ->
  step (as_actor x) (as_actor x') \/ testing x = true /\ testing x' = false /\ as_actor x' = as_actor x.
Proof.
  intros Hf Hs. revert Hf. destruct Hs as [x0 x1 H|k x0 x1 H]; intros [H1 H2].
  - unfold step_run in H. destruct (testing x0) eqn:Et.
    + right. injection H as <-. unfold as_actor, leaving. rewrite Et. cbn. by destruct (done_ x0).
    + left. apply step_by_actor. unfold as_actor at 1, leaving. rewrite Et. cbn [andb].
      assert (Hb : forall s', step_actor (base x0) = Some s' -> step_actor (base x0) = Some (as_actor (set_base s' x0))).
      { intros s' ->. unfold as_actor, leaving. cbn. by rewrite Et. }
      destruct (actor (base x0)) as [| | | |y|[|n]|] eqn:Ha;
        try (destruct (step_actor (base x0)) as [s'|] eqn:Hs; [injection H as <-; by apply Hb|done]);
        injection H as <-; unfold step_actor; rewrite Ha; [done|].
      unfold as_actor, leaving. cbn. destruct (done_ x0) eqn:Ed; [|done]. specialize (H2 eq_refl eq_refl). congruence.
  - left. apply (step_by_sender k). unfold step_send in H. destruct (step_sender k (base x0)) as [s'|] eqn:Hk; [|done].
    injection H as <-. unfold as_actor, leaving. cbn. destruct (testing x0) eqn:Et; [|done]. destruct (done_ x0); [|done]. cbn.
    eapply (step_sender_away _ _ _ Exited Hk); [done|]. by rewrite (H1 eq_refl).
Qed.

Lemma actior_wake x : flag_inv x -> as_actor (set_base (wake (base x)) x) = wake (as_actor x).
Proof.
  intros [H1 _]. unfold as_actor, leaving, set_base, wake. cbn. destruct (testing x) eqn:Et; [|done]. destruct (done_ x); [|done].
  cbn. by rewrite (H1 eq_refl).
Qed.

Section programs.
Context (programs : list (list message)).

Lemma actior_reachable x : rtc actior_step (Actior_start programs) x ->
  flag_inv x /\ rtc any_step (start programs) (as_actor x).
Proof.
  intros Hr. eapply (rtc_ind_r (fun x => flag_inv x /\ rtc any_step (start programs) (as_actor x))); [|..|exact Hr].
  - split; [split; done|]. apply rtc_refl.
  - intros y z _ Hs [Hf Hy]. split; [by eapply flag_step|]. destruct Hs as [y z Hs|y].
    + destruct (actior_simulates y z Hf Hs) as [H|(_ & _ & ->)]; [|done]. eapply rtc_r; [done|]. by apply step_thread.
    + rewrite actior_wake by done. eapply rtc_r; [done|]. apply step_wake.
Qed.

Lemma actior_steps n x x' : flag_inv x -> inv programs (as_actor x) -> nsteps thread_step n x x' ->
  flag_inv x' /\ inv programs (as_actor x') /\ Z.of_nat n + steps_of x' <= steps_of x.
Proof.
  intros Hf Hi Hn. induction Hn as [|n x y z Hs _ IH]; [split_and!; [done..|lia]|].
  assert (Hf' : flag_inv y) by (eapply flag_step; [done|by apply by_thread]).
  assert (Hy : inv programs (as_actor y) /\ steps_of y < steps_of x).
  { unfold steps_of. destruct (actior_simulates x y Hf Hs) as [H|(-> & -> & ->)]; [|split; [done|lia]].
    destruct (inv_steps programs 1 _ _ Hi (nsteps_once _ _ H)) as [Hi' Hl]. split; [done|].
    destruct (testing x), (testing y); lia. }
  destruct Hy as [Hi' Hlt]. destruct (IH Hf' Hi') as (? & ? & ?). split_and!; [done..|lia].
Qed.

Lemma actior_stuck x : flag_inv x -> (forall x', ~ thread_step x x') -> as_actor x = base x /\ forall s', ~ step (base x) s'.
Proof.
  intros Hf Hst. destruct (testing x) eqn:Et.
  - exfalso. eapply Hst. apply run_step. unfold step_run. by rewrite Et.
  - split; [unfold as_actor, leaving; by rewrite Et|]. intros s' Hs. inversion Hs as [k s0 s1 Hs' E0|s0 s1 Hs' E0]; subst s0 s1.
    + eapply (Hst (set_base s' x)). apply (send_step k). unfold step_send. by rewrite Hs'.
    + assert (Hr : is_Some (step_run x)).
      { unfold step_run. rewrite Et, Hs'. destruct (actor (base x)) as [| | | |y|[|n]|]; by eexists. }
      destruct Hr as [x' Hx']. by eapply (Hst x'), run_step.
Qed.
End programs.

(** ** Properties *)

(** What [Actors] proves of its actor holds of this one: reached states are states
    of that actor, with the same queue, senders and messages executed. *)
Theorem actior_refines (programs : list (list message)) (x : actior) :
  rtc actior_step (Actior_start programs) x ->
  rtc any_step (start programs) (as_actor x) /\
  q (as_actor x) = q (base x) /\ executed (as_actor x) = executed (base x) /\ sent (as_actor x) = sent (base x).
Proof.
  intros [_ Hr]%actior_reachable. split; [done|]. unfold as_actor. by destruct (leaving x).
Qed.

Lemma actior_refines_witness : rtc any_step (start demo_programs) (as_actor (Actior_start demo_programs)) /\
  q (as_actor (Actior_start demo_programs)) = [] /\ executed (as_actor (Actior_start demo_programs)) = [] /\
  sent (as_actor (Actior_start demo_programs)) = [].
Proof. apply (actior_refines demo_programs). apply rtc_refl. Defined.

(** The destructor returns: once its function is sent every execution is finite, and
    where it ends the thread has left its loop, having run exactly the functions
    pushed before it. *)
Theorem actior_destructor_joins (programs : list (list message)) (x x' : actior) (n : nat) :
  rtc actior_step (Actior_start programs) x -> Done ∈ concat programs -> nsteps thread_step n x x' ->
  Z.of_nat n <= steps_of x /\
  ((forall x'', ~ thread_step x' x'') ->
     actor (base x') = Exited /\ executed (base x') = before_done (sent (base x')) /\ sent (base x') ≡ₚ concat programs).
Proof.
  intros [Hf Hr]%actior_reachable HD Hn. pose proof (actor_inv_reachable programs _ Hr) as Hi.
  destruct (actior_steps programs n x x' Hf Hi Hn) as (Hf' & Hi' & Hb).
  pose proof (actor_steps_left_nonneg programs _ Hi'). unfold steps_of in *. split; [destruct (testing x'); lia|]. intros Hst.
  destruct (actior_stuck x' Hf' Hst) as [E Hbase]. rewrite E in Hi'.
  pose proof (stuck_at_rest programs _ Hi' Hbase) as Hrest.
  destruct (rest_drained programs _ Hi' Hrest HD). split_and!; [done..|]. by apply rest_sent.
Qed.

Lemma actior_destructor_joins_witness : Z.of_nat 0 <= steps_of (Actior_start demo_programs).
Proof.
  apply (actior_destructor_joins demo_programs _ (Actior_start demo_programs) 0);
    [apply rtc_refl|apply list_elem_of_In; cbn; tauto|apply nsteps_O].
Defined.
