(* ===== verification/AsioExecutors.v ===== *)
(** * Executors and their registry

    Model of [threading.h] and [threading.cc] (the registry [executors], the class
    [asio_executor]) and of the pools of [actors_cc98.h] and [thread_pools.h]
    ([AsioThreadPool], [SingleWorker]): threads that run what is posted to an
    [io_service]. Clients and jobs are programs of calls; all threads interleave, cut at
    the registry's mutex, the counts of [shared_ptr], the service and [join].
    [boost::asio::io_service] is a class with what its documentation promises:
    nothing about the order of the handlers. *)

From S2P Require Import Prelude.
From stdpp Require Import gmap sorting.
Local Open Scope nat_scope.

(** ** [io_service] *)
Class IoService (Io : Type) := {
  io_new : Io;
  io_post : nat -> Io -> Io;
  io_stop : Io -> Io;
  io_stopped : Io -> bool;
  io_next : Io -> option (nat * Io);
  io_pending : Io -> list nat
}.

(** [io_next] is what [run()] takes next; a stopped service gives nothing, and keeps
    what it has until it is destroyed. *)
Class IoLaws (Io : Type) `{!IoService Io} := {
  law_new : io_pending io_new = [] /\ io_stopped io_new = false;
  law_post h s : io_pending (io_post h s) ≡ₚ h :: io_pending s /\ io_stopped (io_post h s) = io_stopped s;
  law_stop s : io_pending (io_stop s) ≡ₚ io_pending s /\ io_stopped (io_stop s) = true;
  law_next s h s' : io_next s = Some (h, s') ->
    io_stopped s = false /\ io_stopped s' = false /\ io_pending s ≡ₚ h :: io_pending s';
  law_waits s : io_next s = None -> io_stopped s = true \/ io_pending s = []
}.

(** A service that takes handlers in the order they were posted. *)
Record fifo := mk_fifo { f_queue : list nat; f_stopped : bool }.
#[global] Instance fifo_service : IoService fifo := {|
  io_new := mk_fifo [] false;
  io_post h s := mk_fifo (f_queue s ++ [h]) (f_stopped s);
  io_stop s := mk_fifo (f_queue s) true;
  io_stopped := f_stopped;
  io_next s :=
    match f_queue s with h :: l => if f_stopped s then None else Some (h, mk_fifo l false) | [] => None end;
  io_pending := f_queue
|}.
#[global] Instance fifo_laws : IoLaws fifo.
Proof.
  constructor; cbn.
  - done.
  - intros h s. split; [|done]. by rewrite Permutation_app_comm.
  - done.
  - intros [[|h' l] []] h s'; try done. by intros [= <- <-].
  - intros [[|h l] []]; cbn; auto. done.
Qed.

Section executors.
Context {Io : Type} `{IoS : !IoService Io}.

(** ** Calls

    [executors::post_task], [executors::post], [executors::add] with a pointer the
    caller holds, [executors::terminate_all], [AsioThreadPool::add] or
    [SingleWorker::post], and [SingleWorker::getId], on a pool the caller holds, and
    the end of a [shared_ptr].
    Executors and jobs are numbers. A call on an object that is gone takes no step; who
    calls catches what is thrown. *)
Inductive call :=
  | PostTask (id : Z) (j : nat)
  | Post (id : Z) (j : nat)
  | Add (id : Z) (e : nat)
  | TerminateAll
  | AddTo (e j : nat)
  | Ask (e j : nat)
  | Release (e : nat).
Inductive answer := Returned | Threw.

(** The service, the owners of the [shared_ptr], whether it is destroyed, and whether
    its destructor stops the service ([AsioThreadPool]) or not ([asio_executor]). *)
Record executor := mk_executor { io : Io; owners : nat; destroyed : bool; stops : bool }.

Definition set_io (x : Io) (e : executor) : executor := mk_executor x (owners e) (destroyed e) (stops e).
Definition set_owners (n : nat) (e : executor) : executor := mk_executor (io e) n (destroyed e) (stops e).

(** A job that was posted: where, which, and what has become of it. *)
Inductive status := Queued | Taken | Done | Dropped.
Record job := mk_job { target : nat; code : nat; st : status }.
Definition set_st (x : status) (j : job) : job := mk_job (target j) (code j) x.

(** Where a thread is: between calls (a worker also in [run()]); in the loop of
    [terminate_all]; about to release a pointer; in the destructor's [join]; about
    to unlock [mtx_]; in [f->get()]; gone. A worker that joins itself meets an error in a
    destructor: no step. *)
Inductive after := ThenUnlock (w : option nat) | ThenTerminate (l : list nat) | ThenGo.
Inductive phase :=
  | Go
  | Terminating (l : list nat)
  | Dropping (e : nat) (k : after)
  | Joining (e : nat) (k : after)
  | Unlocking (w : option nat)
  | Waiting (s : nat)
  | Exited.

(** [works_for]: the executor of a worker; [current]: the job it runs. *)
Record thread := mk_thread {
  works_for : option nat;
  at_ : phase;
  todo : list call;
  current : option nat;
  answers : list answer
}.
Definition set_at (p : phase) (t : thread) : thread :=
  mk_thread (works_for t) p (todo t) (current t) (answers t).
Definition next_call (p : phase) (a : list answer) (t : thread) : thread :=
  mk_thread (works_for t) p (tail (todo t)) (current t) (answers t ++ a).
Definition returned (t : thread) : thread :=
  mk_thread (works_for t) Go (todo t) (current t) (answers t ++ [Returned]).
Definition set_job (c : option nat) (cs : list call) (t : thread) : thread :=
  mk_thread (works_for t) (at_ t) cs c (answers t).

(** [id_to_exec_] (weak pointers), [mtx_], and [started]: who began what. *)
Record state := mk_state {
  id_to_exec : gmap Z nat;
  mtx : option nat;
  executors : list executor;
  jobs : list job;
  threads : list thread;
  started : list (nat * nat)
}.

Definition set_thread (i : nat) (t : thread) (s : state) : state :=
  mk_state (id_to_exec s) (mtx s) (executors s) (jobs s) (<[i := t]> (threads s)) (started s).
Definition set_executor (e : nat) (x : executor) (s : state) : state :=
  mk_state (id_to_exec s) (mtx s) (<[e := x]> (executors s)) (jobs s) (threads s) (started s).
Definition set_mtx (m : option nat) (s : state) : state :=
  mk_state (id_to_exec s) m (executors s) (jobs s) (threads s) (started s).
Definition set_map (m : gmap Z nat) (s : state) : state :=
  mk_state m (mtx s) (executors s) (jobs s) (threads s) (started s).
Definition set_jobs (l : list job) (s : state) : state :=
  mk_state (id_to_exec s) (mtx s) (executors s) l (threads s) (started s).
Definition start_job (i h : nat) (s : state) : state :=
  mk_state (id_to_exec s) (mtx s) (executors s) (jobs s) (threads s) (started s ++ [(i, h)]).

(** The order of a [std::map]. *)
Definition by_id (p q : Z * nat) : Prop := (p.1 <= q.1)%Z.
#[local] Instance by_id_dec : RelDecision by_id.
Proof. intros p q. apply Z.le_dec. Defined.
Definition in_order (m : gmap Z nat) : list nat := snd <$> merge_sort by_id (map_to_list m).

Section steps.
(** What the jobs do, as calls. *)
Context (body : nat -> list call).

(** [io_.post(t)]: a new job. *)
Definition submit (e : nat) (x : executor) (j : nat) (s : state) : state :=
  set_executor e (set_io (io_post (length (jobs s)) (io x)) x) (set_jobs (jobs s ++ [mk_job e j Queued]) s).

(** [post_task] up to the release of the pointer it got from the weak one; [wait]
    in [post]. The critical section does not let go of [mtx_] before. *)
Definition post_task (i : nat) (t : thread) (id : Z) (j : nat) (wait : bool) (s : state) : option state :=
  match mtx s with
  | Some _ => None
  | None =>
      match id_to_exec s !! id with
      | None => Some (set_thread i (next_call Go [Threw] t) s)
      | Some e =>
          x ← executors s !! e;
          if owners x =? 0 then Some (set_thread i (next_call Go [Threw] t) s)
          else
            let w := if wait then Some (length (jobs s)) else None in
            Some (set_thread i (next_call (Dropping e (ThenUnlock w)) [] t)
                   (set_mtx (Some i) (submit e (set_owners (S (owners x)) x) j s)))
      end
  end.

Definition resume (k : after) : phase :=
  match k with ThenUnlock w => Unlocking w | ThenTerminate l => Terminating l | ThenGo => Go end.

(** [run()]: the service gives a handler, or has been stopped. *)
Definition run_service (i : nat) (t : thread) (e : nat) (s : state) : option state :=
  x ← executors s !! e;
  if io_stopped (io x) then Some (set_thread i (set_at Exited t) s)
  else match io_next (io x) with
  | Some (h, io') =>
      j ← jobs s !! h;
      Some (set_thread i (set_job (Some h) (body (code j)) t)
             (start_job i h (set_executor e (set_io io' x) (set_jobs (<[h := set_st Taken j]> (jobs s)) s))))
  | None => None
  end.

Definition is_exited (t : thread) : bool := match at_ t with Exited => true | _ => false end.
Definition works_at (e : nat) (t : thread) : bool := match works_for t with Some e' => e' =? e | None => false end.

(** The handlers a destroyed service still had are destroyed. *)
Definition drop_jobs (e : nat) (l : list job) : list job :=
  (fun j => match st j with Queued => if target j =? e then set_st Dropped j else j | _ => j end) <$> l.

Definition step_thread (i : nat) (s : state) : option state :=
  t ← threads s !! i;
  match at_ t with
  | Go =>
      match todo t with
      | PostTask id j :: _ => post_task i t id j false s
      | Post id j :: _ => post_task i t id j true s
      | Add id e :: _ =>
          match mtx s with
          | Some _ => None
          | None => Some (set_thread i (next_call Go [Returned] t) (set_map (<[id := e]> (id_to_exec s)) s))
          end
      | TerminateAll :: _ =>
          match mtx s with
          | Some _ => None
          | None =>
              Some (set_thread i (next_call (Terminating (in_order (id_to_exec s))) [] t) (set_mtx (Some i) s))
          end
      | AddTo e j :: _ =>
          x ← executors s !! e;
          if owners x =? 0 then None
          else Some (set_thread i (next_call Go [Returned] t) (submit e x j s))
      | Ask e j :: _ =>
          x ← executors s !! e;
          if owners x =? 0 then None
          else Some (set_thread i (next_call (Waiting (length (jobs s))) [] t) (submit e x j s))
      | Release e :: _ => Some (set_thread i (next_call (Dropping e ThenGo) [] t) s)
      | [] =>
          match works_for t, current t with
          | None, _ => Some (set_thread i (set_at Exited t) s)
          | Some _, Some h =>
              j ← jobs s !! h;
              Some (set_thread i (set_job None [] t) (set_jobs (<[h := set_st Done j]> (jobs s)) s))
          | Some e, None => run_service i t e s
          end
      end
  | Terminating [] => Some (set_thread i (set_at (Unlocking None) t) (set_map ∅ s))
  | Terminating (e :: l) =>
      x ← executors s !! e;
      if owners x =? 0 then Some (set_thread i (set_at (Terminating l) t) s)
      else Some (set_thread i (set_at (Dropping e (ThenTerminate l)) t)
                  (set_executor e (set_io (io_stop (io x)) (set_owners (S (owners x)) x)) s))
  | Dropping e k =>
      x ← executors s !! e;
      match owners x with
      | 0 => None
      | 1 =>
          let x := set_owners 0 x in
          Some (set_thread i (set_at (Joining e k) t)
                 (set_executor e (if stops x then set_io (io_stop (io x)) x else x) s))
      | S n => Some (set_thread i (set_at (resume k) t) (set_executor e (set_owners n x) s))
      end
  | Joining e k =>
      if forallb (fun t' => negb (works_at e t') || is_exited t') (threads s) then
        x ← executors s !! e;
        Some (set_thread i (set_at (resume k) t)
               (set_executor e (mk_executor io_new 0 true (stops x)) (set_jobs (drop_jobs e (jobs s)) s)))
      else None
  | Unlocking w =>
      Some (set_thread i (match w with Some h => set_at (Waiting h) t | None => returned t end) (set_mtx None s))
  | Waiting h =>
      j ← jobs s !! h;
      match st j with Done => Some (set_thread i (returned t) s) | _ => None end
  | Exited => None
  end.

Inductive step : state -> state -> Prop :=
  | step_by i s s' : step_thread i s = Some s' -> step s s'.
End steps.

(** Clients with their programs; executors with their owners, their workers, and
    what their destructors do. *)
Definition new_client (p : list call) : thread := mk_thread None Go p None [].
Definition new_worker (e : nat) : thread := mk_thread (Some e) Go [] None [].
Definition start (programs : list (list call)) (es : list (nat * nat * bool)) : state :=
  mk_state ∅ None ((fun x => mk_executor io_new x.1.1 false x.2) <$> es) []
    ((new_client <$> programs) ++ concat (imap (fun e x => replicate x.1.2 (new_worker e)) es)) [].

Fixpoint take_turns (body : nat -> list call) (order : list nat) (s : state) : option state :=
  match order with [] => Some s | i :: order => s ← step_thread body i s; take_turns body order s end.

(** ** Invariants *)

Definition held (c : option nat) : list nat := match c with Some h => [h] | None => [] end.
Definition cur (t : thread) : list nat := held (current t).
Definition role (t : thread) : option nat * option nat := (works_for t, current t).
Definition queued (e : nat) (j : job) : bool := match st j with Queued => target j =? e | _ => false end.
Definition taken (j : job) : nat := match st j with Taken => 1 | _ => 0 end.
Definition begun (j : job) : nat := match st j with Taken | Done => 1 | _ => 0 end.
Definition of_job (g : job -> nat) (h : nat) (s : state) : nat := match jobs s !! h with Some j => g j | None => 0 end.

Record job_inv (s : state) : Prop := mk_job_inv {
  ji_pending : forall e x h, executors s !! e = Some x ->
    occ h (io_pending (io x)) = of_job (fun j => Nat.b2n (queued e j)) h s;
  ji_current : forall h, occs h cur (threads s) = of_job taken h s;
  ji_works : forall i t h, threads s !! i = Some t -> current t = Some h ->
    exists j, jobs s !! h = Some j /\ works_for t = Some (target j);
  ji_started : forall h, occ h (snd <$> started s) = of_job begun h s;
  ji_who : forall i h, (i, h) ∈ started s -> exists t j,
    threads s !! i = Some t /\ jobs s !! h = Some j /\ works_for t = Some (target j);
  ji_target : forall h j, jobs s !! h = Some j -> exists x, executors s !! target j = Some x /\
    (st j = Dropped -> destroyed x = true)
}.

(** Who is inside a critical section of the registry. *)
Definition after_lock (k : after) : bool := match k with ThenGo => false | _ => true end.
Definition in_lock (p : phase) : bool :=
  match p with
  | Terminating _ | Unlocking _ => true
  | Dropping _ k | Joining _ k => after_lock k
  | _ => false
  end.
Definition lock_inv (s : state) : Prop :=
  forall i t, threads s !! i = Some t -> (in_lock (at_ t) = true <-> mtx s = Some i).

(** ** Lemmas *)
Context `{!IoLaws Io}.

Lemma role_insert (l : list thread) i t t' : l !! i = Some t -> role t' = role t -> role <$> <[i := t']> l = role <$> l.
Proof. intros Hi Hr. rewrite list_fmap_insert. apply list_insert_id. by rewrite list_lookup_fmap, Hi, Hr. Qed.

Lemma occs_role h (l : list thread) : occs h cur l = occs h (fun r => held (snd r)) (role <$> l).
Proof. unfold occs. by rewrite sum_with_fmap. Qed.

Lemma role_lookup (l l' : list thread) i t' : role <$> l' = role <$> l -> l' !! i = Some t' ->
  exists t, l !! i = Some t /\ role t = role t'.
Proof.
  intros Hr Hi. assert (H : (role <$> l) !! i = Some (role t')) by (by rewrite <- Hr, list_lookup_fmap, Hi).
  rewrite list_lookup_fmap in H. apply fmap_Some in H as (t & ? & ?). by exists t.
Qed.

Lemma occ_perm h l l' : l ≡ₚ l' -> occ h l = occ h l'.
Proof. intros H. by apply (Permutation_count_occ Nat.eq_dec). Qed.

(** Steps that neither begin, end, post nor drop a job. *)
Lemma job_inv_frame s s' : job_inv s -> jobs s' = jobs s -> started s' = started s ->
  role <$> threads s' = role <$> threads s ->
  (forall e, match executors s' !! e, executors s !! e with
             | Some x', Some x => io_pending (io x') ≡ₚ io_pending (io x) /\ destroyed x' = destroyed x
             | None, None => True
             | _, _ => False
             end) -> job_inv s'.
Proof.
  intros [H1 H2 H3 H4 H5 H6] Ej Es Er Ee. constructor; unfold of_job in *; rewrite ?Ej, ?Es.
  - intros e x' h Hx'. specialize (Ee e). rewrite Hx' in Ee. destruct (executors s !! e) as [x|] eqn:Hx; [|done].
    rewrite (occ_perm h _ _ (proj1 Ee)). by apply H1.
  - intros h. rewrite occs_role, Er, <- occs_role. apply H2.
  - intros i t' h Ht' Hc. destruct (role_lookup _ _ _ _ Er Ht') as (t & Ht & Hrole).
    unfold role in Hrole. injection Hrole as E1 E2. rewrite <- E1. eapply H3; [done|by rewrite E2].
  - apply H4.
  - intros i h Hin. destruct (H5 i h Hin) as (t & j & Ht & Hj & Hw).
    destruct (role_lookup _ _ _ _ (eq_sym Er) Ht) as (t' & Ht' & Hrole). exists t', j. split_and!; [done..|].
    unfold role in Hrole. by injection Hrole as -> _.
  - intros h j Hj. destruct (H6 h j Hj) as (x & Hx & Hd). specialize (Ee (target j)). rewrite Hx in Ee.
    destruct (executors s' !! target j) as [x'|]; [|done]. exists x'. split; [done|]. destruct Ee as [_ ->]. done.
Qed.

Lemma of_job_snoc g h l j s : jobs s = l ++ [j] ->
  of_job g h s = if decide (h = length l) then g j else match l !! h with Some x => g x | None => 0 end.
Proof.
  intros E. unfold of_job. rewrite E. case_decide as Hh.
  - subst. by rewrite list_lookup_middle.
  - destruct (decide (h < length l)); [by rewrite lookup_app_l|].
    rewrite (lookup_ge_None_2 l h), lookup_ge_None_2; [done|rewrite length_app; cbn; lia|lia].
Qed.

Lemma occ_new h n l : occ n l = 0 -> occ h (n :: l) = if decide (h = n) then 1 else occ h l.
Proof.
  intros Hn. rewrite occ_cons, occ_one. repeat case_decide; subst; lia || congruence.
Qed.

(** A job is posted. *)
Lemma submit_inv s e x j : job_inv s -> executors s !! e = Some x -> job_inv (submit e x j s).
Proof.
  intros [H1 H2 H3 H4 H5 H6] Hx. set (n := length (jobs s)).
  assert (Hnone : jobs s !! n = None) by (apply lookup_ge_None_2; unfold n; lia).
  assert (Hof : forall g, of_job g n s = 0) by (intros g; unfold of_job; by rewrite Hnone).
  assert (Hs : forall g h, of_job g h (submit e x j s) = if decide (h = n) then g (mk_job e j Queued) else of_job g h s).
  { intros g h. by rewrite (of_job_snoc g h (jobs s) (mk_job e j Queued)). }
  assert (Hkeep : forall h j', jobs s !! h = Some j' -> jobs (submit e x j s) !! h = Some j').
  { intros h j' Hj. cbn. by apply lookup_app_l_Some. }
  constructor; cbn [threads started submit set_executor set_jobs].
  - intros e' x' h Hx'. rewrite Hs. cbn in Hx'. apply list_lookup_insert_Some in Hx' as [(-> & <- & _)|[Hne Hx']].
    + cbn [io set_io]. rewrite (occ_perm h _ _ (proj1 (law_post n (io x)))).
      rewrite occ_new by by rewrite (H1 e' x n Hx), Hof. case_decide; [|by apply H1].
      cbn. by rewrite Nat.eqb_refl.
    + rewrite (H1 e' x' h Hx'). case_decide as Hh; [|done]. subst h. rewrite Hof. cbn.
      by rewrite (proj2 (Nat.eqb_neq _ _)) by congruence.
  - intros h. rewrite Hs, H2. case_decide as Hh; [|done]. subst h. by rewrite Hof.
  - intros i t h Ht Hc. destruct (H3 i t h Ht Hc) as (j' & Hj & Hw). exists j'. auto.
  - intros h. rewrite Hs, H4. case_decide as Hh; [|done]. subst h. by rewrite Hof.
  - intros i h Hin. destruct (H5 i h Hin) as (t & j' & Ht & Hj & Hw). exists t, j'. auto.
  - intros h j' Hj. cbn in Hj. assert (Hd : forall e', executors s !! e' = None \/ exists y, executors s !! e' = Some y /\
      exists y', executors (submit e x j s) !! e' = Some y' /\ destroyed y' = destroyed y).
    { intros e'. destruct (executors s !! e') as [y|] eqn:Hy; [right|by left]. exists y. split; [done|]. cbn.
      destruct (decide (e' = e)) as [->|]; [|rewrite list_lookup_insert_ne by done; by exists y].
      rewrite list_lookup_insert_eq by (by eapply lookup_lt_Some). simplify_eq. by eexists. }
    apply lookup_app_Some in Hj as [Hj|[_ Hj]].
    + destruct (H6 h j' Hj) as (y & Hy & Hdr). destruct (Hd (target j')) as [Hn|(y0 & Hy0 & y' & Hy' & Hdd)]; [congruence|].
      exists y'. split; [done|]. rewrite Hdd. simplify_eq. done.
    + apply list_lookup_singleton_Some in Hj as [_ <-]. cbn [target st].
      destruct (Hd e) as [Hn|(y0 & Hy0 & y' & Hy' & Hdd)]; [congruence|]. exists y'. by split.
Qed.

Lemma of_job_at g h j s : jobs s !! h = Some j -> of_job g h s = g j.
Proof. unfold of_job. by intros ->. Qed.

Definition if_eq (k h n : nat) : nat := if decide (k = h) then n else 0.

(** A worker changes the state of a job of its executor. *)
Lemma job_inv_change s s' i t t' h j j' : job_inv s ->
  threads s !! i = Some t -> threads s' = <[i := t']> (threads s) -> works_for t' = works_for t ->
  jobs s !! h = Some j -> jobs s' = <[h := j']> (jobs s) -> target j' = target j -> st j' <> Dropped ->
  works_for t = Some (target j) -> (forall k, current t' = Some k -> k = h) ->
  (forall e, match executors s' !! e, executors s !! e with
             | Some x', Some x => destroyed x' = destroyed x /\ forall k,
                 occ k (io_pending (io x')) + if_eq k h (Nat.b2n (queued e j)) =
                 occ k (io_pending (io x)) + if_eq k h (Nat.b2n (queued e j'))
             | None, None => True
             | _, _ => False
             end) ->
  (forall k, occ k (cur t') + if_eq k h (taken j) = occ k (cur t) + if_eq k h (taken j')) ->
  (forall k, occ k (snd <$> started s') + if_eq k h (begun j) = occ k (snd <$> started s) + if_eq k h (begun j')) ->
  (forall i' k, (i', k) ∈ started s' -> (i', k) ∈ started s \/ i' = i /\ k = h) ->
  job_inv s'.
Proof.
  intros [H1 H2 H3 H4 H5 H6] Ht Et Ew Hj Ej Etg Hst Hw Hcur Ee Ec Es Ewho.
  assert (Hof : forall g k, of_job g k s' + if_eq k h (g j) = of_job g k s + if_eq k h (g j')).
  { intros g k. unfold of_job, if_eq. rewrite Ej. case_decide as Hk; [subst k|by rewrite list_lookup_insert_ne by done].
    rewrite list_lookup_insert_eq, Hj by (by eapply lookup_lt_Some). lia. }
  assert (Hkeep : forall k j0, jobs s !! k = Some j0 -> exists j1, jobs s' !! k = Some j1 /\ target j1 = target j0).
  { intros k j0 Hk. rewrite Ej. destruct (decide (k = h)) as [->|].
    - rewrite list_lookup_insert_eq by (by eapply lookup_lt_Some). simplify_eq. by exists j'.
    - rewrite list_lookup_insert_ne by done. by exists j0. }
  assert (Hth : forall i' t0, threads s !! i' = Some t0 -> exists t1, threads s' !! i' = Some t1 /\ works_for t1 = works_for t0).
  { intros i' t0 Hi. rewrite Et. destruct (decide (i' = i)) as [->|].
    - rewrite list_lookup_insert_eq by (by eapply lookup_lt_Some). simplify_eq. by exists t'.
    - rewrite list_lookup_insert_ne by done. by exists t0. }
  constructor.
  - intros e x' k Hx'. specialize (Ee e). rewrite Hx' in Ee. destruct (executors s !! e) as [x|] eqn:Hx; [|done].
    destruct Ee as [_ Ee]. specialize (Ee k). rewrite (H1 e x k Hx) in Ee. pose proof (Hof (fun j0 => Nat.b2n (queued e j0)) k). lia.
  - intros k. pose proof (occs_insert k cur (threads s) i t t' Ht) as H. rewrite <- Et, H2 in H.
    specialize (Ec k). pose proof (Hof taken k). lia.
  - intros i' t0 k Hi Hc. rewrite Et in Hi. apply list_lookup_insert_Some in Hi as [(-> & <- & _)|[Hne Hi]].
    + rewrite (Hcur k Hc). destruct (Hkeep h j Hj) as (j1 & ? & E1). exists j1. by rewrite E1, Ew.
    + destruct (H3 i' t0 k Hi Hc) as (j0 & Hj0 & Hw0). destruct (Hkeep k j0 Hj0) as (j1 & ? & E1). exists j1. by rewrite E1.
  - intros k. specialize (Es k). rewrite H4 in Es. pose proof (Hof begun k). lia.
  - intros i' k Hin. assert (Hex : exists t0 j0, threads s !! i' = Some t0 /\ jobs s !! k = Some j0 /\ works_for t0 = Some (target j0)).
    { destruct (Ewho i' k Hin) as [Hin'|[-> ->]]; [by apply H5|by exists t, j]. }
    destruct Hex as (t0 & j0 & Ht0 & Hj0 & Hw0). destruct (Hth i' t0 Ht0) as (t1 & ? & E1).
    destruct (Hkeep k j0 Hj0) as (j1 & ? & E2). exists t1, j1. by rewrite E1, E2.
  - intros k j1 Hj1. assert (Hj0 : exists j0, jobs s !! k = Some j0 /\ target j1 = target j0 /\ (st j1 = Dropped -> st j0 = Dropped)).
    { rewrite Ej in Hj1. apply list_lookup_insert_Some in Hj1 as [(-> & <- & _)|[_ Hj1]]; [by exists j|by exists j1]. }
    destruct Hj0 as (j0 & Hj0 & E & Hd). rewrite E. destruct (H6 k j0 Hj0) as (y & Hy & Hdr). specialize (Ee (target j0)).
    rewrite Hy in Ee. destruct (executors s' !! target j0) as [y'|]; [|done]. destruct Ee as [Ed _]. exists y'. rewrite Ed. auto.
Qed.

Lemma executors_same s h j j' : Nat.b2n (queued (target j) j) = Nat.b2n (queued (target j) j') -> target j' = target j ->
  forall e, match executors s !! e, executors s !! e with
            | Some x', Some x => destroyed x' = destroyed x /\ forall k,
                 occ k (io_pending (io x')) + if_eq k h (Nat.b2n (queued e j)) =
                 occ k (io_pending (io x)) + if_eq k h (Nat.b2n (queued e j'))
            | None, None => True
            | _, _ => False
            end.
Proof.
  intros Hq Ht e. destruct (executors s !! e); [|done]. split; [done|]. intros k. do 2 f_equal.
  unfold queued in *. rewrite Ht in *. rewrite Nat.eqb_refl in Hq. destruct (st j), (st j'), (Nat.eqb (target j) e); done.
Qed.

(** A job that waits in a service is queued there. *)
Lemma pending_queued s e x h j : job_inv s -> executors s !! e = Some x -> jobs s !! h = Some j ->
  h ∈ io_pending (io x) -> st j = Queued /\ target j = e.
Proof.
  intros Hi Hx Hj Hin%occ_in. rewrite (ji_pending s Hi e x h Hx), (of_job_at _ _ _ _ Hj) in Hin.
  unfold queued in Hin. destruct (st j); try (cbn in Hin; lia). destruct (Nat.eqb_spec (target j) e); [done|cbn in Hin; lia].
Qed.

Lemma take_inv s i t e x h j io' cs : job_inv s -> threads s !! i = Some t -> works_for t = Some e -> current t = None ->
  executors s !! e = Some x -> io_next (io x) = Some (h, io') -> jobs s !! h = Some j ->
  job_inv (set_thread i (set_job (Some h) cs t)
    (start_job i h (set_executor e (set_io io' x) (set_jobs (<[h := set_st Taken j]> (jobs s)) s)))).
Proof.
  intros Hi Ht Hw Hc Hx Hn Hj. destruct (law_next _ _ _ Hn) as (_ & _ & Hperm).
  destruct (pending_queued s e x h j Hi Hx Hj) as [Hst Htg]; [rewrite Hperm; by left|].
  apply (job_inv_change s _ i t (set_job (Some h) cs t) h j (set_st Taken j)); try done; [congruence|..].
  - by intros k [= <-].
  - intros e'. cbn. destruct (decide (e' = e)) as [->|].
    + rewrite list_lookup_insert_eq, Hx by (by eapply lookup_lt_Some). split; [done|]. intros k. cbn [io set_io].
      rewrite (occ_perm k _ _ Hperm), occ_cons, occ_one. unfold queued, if_eq. rewrite Hst, Htg, Nat.eqb_refl. cbn.
      repeat case_decide; try congruence; lia.
    + rewrite list_lookup_insert_ne by done. destruct (executors s !! e') as [y|]; [|done]. split; [done|].
      intros k. unfold queued. rewrite Hst, (proj2 (Nat.eqb_neq _ _)) by congruence. done.
  - intros k. unfold cur, if_eq. rewrite Hc. cbn [current set_job held]. rewrite occ_one, occ_nil. unfold taken. rewrite Hst. cbn.
    repeat case_decide; try congruence; lia.
  - intros k. cbn [started set_thread start_job set_executor set_jobs]. rewrite fmap_app, occ_app.
    change (snd <$> [(i, h)]) with [h]. rewrite occ_one. unfold if_eq, begun. rewrite Hst. cbn.
    repeat case_decide; try congruence; lia.
  - intros i' k [Hin|[= -> ->]%list_elem_of_singleton]%elem_of_app; auto.
Qed.

(** A job ends. *)
Lemma finish_inv s i t h j : job_inv s -> threads s !! i = Some t -> current t = Some h -> jobs s !! h = Some j ->
  job_inv (set_thread i (set_job None [] t) (set_jobs (<[h := set_st Done j]> (jobs s)) s)).
Proof.
  intros Hi Ht Hc Hj. destruct (ji_works s Hi i t h Ht Hc) as (j0 & Hj0 & Hw). simplify_eq.
  assert (Hst : st j = Taken).
  { pose proof (ji_current s Hi h) as H. rewrite (of_job_at _ _ _ _ Hj) in H.
    assert (0 < occs h cur (threads s)) by (eapply occs_in; [done|unfold cur; rewrite Hc; by left]).
    unfold taken in H. destruct (st j); try lia. done. }
  apply (job_inv_change s _ i t (set_job None [] t) h j (set_st Done j)); try done.
  - apply (executors_same s); [|done]. unfold queued. by rewrite Hst.
  - intros k. unfold cur, if_eq. rewrite Hc. cbn [current set_job held]. rewrite occ_one, occ_nil. unfold taken. rewrite Hst. cbn.
    repeat case_decide; try congruence; lia.
  - intros k. cbn. unfold begun. by rewrite Hst.
  - intros i' k Hin. by left.
Qed.

(** A service is destroyed with what it has. *)
Lemma drop_jobs_inv s e x : job_inv s -> executors s !! e = Some x ->
  job_inv (set_executor e (mk_executor io_new 0 true (stops x)) (set_jobs (drop_jobs e (jobs s)) s)).
Proof.
  intros [H1 H2 H3 H4 H5 H6] Hx. set (d := fun j => match st j with Queued => if target j =? e then set_st Dropped j else j | _ => j end).
  assert (Htg : forall j, target (d j) = target j) by (intros j; unfold d; destruct (st j); try done; by case_match).
  assert (Hof : forall g h, of_job g h (set_executor e (mk_executor io_new 0 true (stops x)) (set_jobs (drop_jobs e (jobs s)) s)) =
    of_job (fun j => g (d j)) h s).
  { intros g h. unfold of_job. cbn. unfold drop_jobs. rewrite list_lookup_fmap. by destruct (jobs s !! h). }
  assert (Hg : forall g, (forall j, g (d j) = g j) -> forall h, of_job (fun j => g (d j)) h s = of_job g h s).
  { intros g Hd h. unfold of_job. by destruct (jobs s !! h). }
  assert (Hkeep : forall h j, jobs s !! h = Some j -> drop_jobs e (jobs s) !! h = Some (d j)).
  { intros h j Hj. unfold drop_jobs. by rewrite list_lookup_fmap, Hj. }
  constructor; cbn [threads started executors jobs set_executor set_jobs].
  - intros e' x' h Hx'. rewrite Hof. apply list_lookup_insert_Some in Hx' as [(-> & <- & _)|[Hne Hx']].
    + cbn [io]. rewrite (proj1 law_new), occ_nil. unfold of_job. destruct (jobs s !! h) as [j|]; [|done].
      unfold d, queued. destruct (st j) eqn:Hst; rewrite ?Hst; try done. destruct (target j =? e') eqn:Ht; cbn; rewrite ?Hst, ?Ht; done.
    + rewrite (H1 e' x' h Hx'). unfold of_job. destruct (jobs s !! h) as [j|]; [|done].
      unfold d, queued. destruct (st j) eqn:Hst; rewrite ?Hst; try done.
      destruct (Nat.eqb_spec (target j) e) as [Ht|]; cbn; rewrite ?Hst; [|done]. by rewrite (proj2 (Nat.eqb_neq _ _)) by congruence.
  - intros h. rewrite Hof, Hg; [apply H2|]. intros j. unfold d, taken. destruct (st j) eqn:Hst; rewrite ?Hst; try done. destruct (target j =? e); cbn; by rewrite ?Hst.
  - intros i t h Ht Hc. destruct (H3 i t h Ht Hc) as (j & Hj & Hw). exists (d j). by rewrite Htg, (Hkeep h j Hj).
  - intros h. rewrite Hof, Hg; [apply H4|]. intros j. unfold d, begun. destruct (st j) eqn:Hst; rewrite ?Hst; try done. destruct (target j =? e); cbn; by rewrite ?Hst.
  - intros i h Hin. destruct (H5 i h Hin) as (t & j & Ht & Hj & Hw). exists t, (d j). by rewrite Htg, (Hkeep h j Hj).
  - intros h j' Hj'. unfold drop_jobs in Hj'. rewrite list_lookup_fmap in Hj'. apply fmap_Some in Hj' as (j & Hj & ->).
    fold (d j). rewrite Htg. destruct (H6 h j Hj) as (y & Hy & Hd). destruct (decide (target j = e)) as [Ee|Hne].
    + rewrite Ee, list_lookup_insert_eq by (by eapply lookup_lt_Some). by eexists.
    + rewrite list_lookup_insert_ne by done. exists y. split; [done|]. intros Hdr. apply Hd. revert Hdr. unfold d.
      destruct (st j) eqn:Hst; rewrite ?Hst; try done. by rewrite (proj2 (Nat.eqb_neq _ _)), Hst by done.
Qed.

Lemma executor_frame s e x y : executors s !! e = Some x -> io_pending (io y) ≡ₚ io_pending (io x) -> destroyed y = destroyed x ->
  forall e', match <[e := y]> (executors s) !! e', executors s !! e' with
            | Some x', Some x => io_pending (io x') ≡ₚ io_pending (io x) /\ destroyed x' = destroyed x
            | None, None => True
            | _, _ => False
            end.
Proof.
  intros Hx Hp Hd e'. destruct (decide (e' = e)) as [->|].
  - by rewrite list_lookup_insert_eq, Hx by (by eapply lookup_lt_Some).
  - rewrite list_lookup_insert_ne by done. by destruct (executors s !! e').
Qed.
Lemma no_executor_frame s : forall e', match executors s !! e', executors s !! e' with
            | Some x', Some x => io_pending (io x') ≡ₚ io_pending (io x) /\ destroyed x' = destroyed x
            | None, None => True
            | _, _ => False
            end.
Proof. intros e'. by destruct (executors s !! e'). Qed.

Lemma set_thread_inv s i t t' : job_inv s -> threads s !! i = Some t -> role t' = role t -> job_inv (set_thread i t' s).
Proof.
  intros Hi Ht Hr. apply (job_inv_frame s); try done; [by apply (role_insert _ i t)|apply (no_executor_frame s)].
Qed.
Lemma set_executor_inv s e x y : job_inv s -> executors s !! e = Some x -> io_pending (io y) ≡ₚ io_pending (io x) ->
  destroyed y = destroyed x -> job_inv (set_executor e y s).
Proof. intros Hi Hx Hp Hd. apply (job_inv_frame s); try done. by apply (executor_frame s e x y). Qed.
Lemma set_mtx_inv s m : job_inv s -> job_inv (set_mtx m s).
Proof. intros Hi. apply (job_inv_frame s); try done. apply (no_executor_frame s). Qed.
Lemma set_map_inv s m : job_inv s -> job_inv (set_map m s).
Proof. intros Hi. apply (job_inv_frame s); try done. apply (no_executor_frame s). Qed.

Lemma submit_owned s e x n j : job_inv s -> executors s !! e = Some x -> job_inv (submit e (set_owners n x) j s).
Proof.
  intros Hi Hx. pose proof (set_executor_inv s e x (set_owners n x) Hi Hx ltac:(done) ltac:(done)) as Hi'.
  assert (Hx' : executors (set_executor e (set_owners n x) s) !! e = Some (set_owners n x)).
  { cbn. apply list_lookup_insert_eq. by eapply lookup_lt_Some. }
  pose proof (submit_inv _ e _ j Hi' Hx') as H. unfold submit, set_executor in *. cbn in *.
  by rewrite list_insert_insert_eq in H.
Qed.

Section runs.
Context (body : nat -> list call).

Lemma post_task_inv s i t id j w s' : job_inv s -> threads s !! i = Some t -> post_task i t id j w s = Some s' -> job_inv s'.
Proof.
  intros Hi Ht. unfold post_task. destruct (mtx s); [done|]. destruct (id_to_exec s !! id) as [e|];
    [|intros [= <-]; by apply (set_thread_inv s i t)].
  destruct (executors s !! e) as [x|] eqn:Hx; [|done]. cbn [mbind option_bind].
  destruct (owners x =? 0); [intros [= <-]; by apply (set_thread_inv s i t)|]. intros [= <-].
  eapply (set_thread_inv _ i t); [by apply set_mtx_inv, submit_owned|done|done].
Qed.

Lemma run_service_inv s i t e s' : job_inv s -> threads s !! i = Some t -> works_for t = Some e -> current t = None ->
  run_service body i t e s = Some s' -> job_inv s'.
Proof.
  intros Hi Ht Hw Hc. unfold run_service. destruct (executors s !! e) as [x|] eqn:Hx; [|done]. cbn [mbind option_bind].
  destruct (io_stopped (io x)); [intros [= <-]; by apply (set_thread_inv s i t)|].
  destruct (io_next (io x)) as [[h io']|] eqn:Hn; [|done]. destruct (jobs s !! h) as [j|] eqn:Hj; [|done].
  intros [= <-]. by apply (take_inv s i t e x h j).
Qed.

Lemma step_job_inv s s' : step body s s' -> job_inv s -> job_inv s'.
Proof.
  intros [i s0 s1 Hstep] Hi. unfold step_thread in Hstep. destruct (threads s0 !! i) as [t|] eqn:Ht; [|done].
  cbn [mbind option_bind] in Hstep.
  assert (Hset : forall s2 t', job_inv s2 -> threads s2 = threads s0 -> role t' = role t -> job_inv (set_thread i t' s2)).
  { intros s2 t' H2 E Hr. apply (set_thread_inv s2 i t); [done|by rewrite E|done]. }
  destruct (at_ t) as [|[|e l]|e k|e k|w|h|].
  - destruct (todo t) as [|[id j|id j|id e| |e j|e j|e] cs].
    + destruct (works_for t) as [e|] eqn:Hw; [|injection Hstep as <-; by apply Hset].
      destruct (current t) as [h|] eqn:Hc; [|by eapply run_service_inv].
      destruct (jobs s0 !! h) as [j|] eqn:Hj; [|done]. injection Hstep as <-. by apply (finish_inv s0 i t h j).
    + by eapply post_task_inv.
    + by eapply post_task_inv.
    + destruct (mtx s0); [done|]. injection Hstep as <-. apply Hset; [by apply set_map_inv|done|done].
    + destruct (mtx s0); [done|]. injection Hstep as <-. apply Hset; [by apply set_mtx_inv|done|done].
    + destruct (executors s0 !! e) as [x|] eqn:Hx; [|done]. cbn in Hstep. destruct (owners x =? 0); [done|].
      injection Hstep as <-. apply Hset; [by apply submit_inv|done|done].
    + destruct (executors s0 !! e) as [x|] eqn:Hx; [|done]. cbn in Hstep. destruct (owners x =? 0); [done|].
      injection Hstep as <-. apply Hset; [by apply submit_inv|done|done].
    + injection Hstep as <-. by apply Hset.
  - injection Hstep as <-. apply Hset; [by apply set_map_inv|done|done].
  - destruct (executors s0 !! e) as [x|] eqn:Hx; [|done]. cbn in Hstep.
    destruct (owners x =? 0); injection Hstep as <-; [by apply Hset|].
    apply Hset; [|done|done]. apply (set_executor_inv s0 e x); try done. apply law_stop.
  - destruct (executors s0 !! e) as [x|] eqn:Hx; [|done]. cbn [mbind option_bind] in Hstep.
    destruct (owners x) as [|[|n]]; [done|..]; injection Hstep as <-; (apply Hset; [|done|done]);
      apply (set_executor_inv s0 e x); try done; destruct (stops x); try done. apply law_stop.
  - destruct (forallb _ _); [|done]. destruct (executors s0 !! e) as [x|] eqn:Hx; [|done]. injection Hstep as <-.
    apply Hset; [by apply drop_jobs_inv|done|done].
  - injection Hstep as <-. apply Hset; [by apply set_mtx_inv|done|by destruct w].
  - destruct (jobs s0 !! h) as [j|]; [|done]. cbn in Hstep. destruct (st j); try done. injection Hstep as <-. by apply Hset.
  - done.
Qed.
End runs.

(** All the branches of a step, each with its equations. *)
Ltac step_cases H :=
  unfold step_thread, post_task, run_service in H;
  repeat match type of H with
  | mbind _ ?x = Some _ => destruct x eqn:?; cbn [mbind option_bind] in H; [|discriminate H]
  | (match ?x with _ => _ end) = Some _ => destruct x eqn:?; try discriminate H
  end; try (injection H as <-).

(** *** The registry's mutex *)
Section locks.
Context (body : nat -> list call).

Lemma resume_lock k : in_lock (resume k) = after_lock k.
Proof. by destruct k. Qed.

Definition lock_step (i : nat) (t t' : thread) (m m' : option nat) : Prop :=
  in_lock (at_ t') = in_lock (at_ t) /\ m' = m \/
  m = None /\ m' = Some i /\ in_lock (at_ t') = true \/
  in_lock (at_ t) = true /\ m' = None /\ in_lock (at_ t') = false.

Lemma lock_step_inv s s' i t t' : lock_inv s -> threads s !! i = Some t -> threads s' = <[i := t']> (threads s) ->
  lock_step i t t' (mtx s) (mtx s') -> lock_inv s'.
Proof.
  intros Hl Ht Et Hs k u Hk. rewrite Et in Hk. pose proof (Hl i t Ht) as Hi.
  apply list_lookup_insert_Some in Hk as [(<- & <- & _)|[Hne Hk]].
  - destruct Hs as [[-> ->]|[(Hm & -> & ->)|(Hin & -> & ->)]]; [done|done|by split].
  - rewrite (Hl k u Hk). destruct Hs as [[_ ->]|[(-> & -> & _)|(Hin & -> & _)]]; [done|split; congruence|].
    apply Hi in Hin. split; congruence.
Qed.

(** What a step does to the thread that makes it, and to the mutex. *)
Lemma step_thread_of i s s' : step_thread body i s = Some s' -> exists t t', threads s !! i = Some t /\
  threads s' = <[i := t']> (threads s) /\ works_for t' = works_for t /\ lock_step i t t' (mtx s) (mtx s').
Proof.
  intros H. unfold step_thread in H. destruct (threads s !! i) as [t|] eqn:Ht; [|done]. cbn [mbind option_bind] in H.
  exists t. step_cases H; eexists; (split; [done|split; [reflexivity|split; [by repeat case_match|]]]); unfold lock_step; cbn;
    rewrite ?resume_lock; repeat match goal with E : at_ t = _ |- _ => rewrite E; clear E end; cbn; auto 10.
  all: try match goal with |- context [match ?w with Some _ => _ | None => _ end] => destruct w end; auto 10.
Qed.

Lemma step_lock_inv s s' : step body s s' -> lock_inv s -> lock_inv s'.
Proof.
  intros [i s0 s1 H] Hl. destruct (step_thread_of i s0 s1 H) as (t & t' & Ht & Et & _ & Hs). by eapply lock_step_inv.
Qed.

Lemma step_others i s s' k t : step_thread body i s = Some s' -> threads s !! k = Some t ->
  exists t', threads s' !! k = Some t' /\ works_for t' = works_for t /\ (k <> i -> t' = t).
Proof.
  intros H Hk. destruct (step_thread_of i s s' H) as (u & u' & Hu & Eu & Hw & _). rewrite Eu.
  destruct (decide (k = i)) as [->|]; [|by exists t; rewrite list_lookup_insert_ne].
  rewrite list_lookup_insert_eq by (by eapply lookup_lt_Some). simplify_eq. by exists u'.
Qed.
End locks.

(** *** Runs from the start *)
Section reachable.
Context (body : nat -> list call).

Lemma start_executors programs es e x : executors (start programs es) !! e = Some x -> io x = io_new.
Proof. cbn. rewrite list_lookup_fmap. by intros (y & _ & ->)%fmap_Some. Qed.

Lemma start_threads programs es i t : threads (start programs es) !! i = Some t -> at_ t = Go /\ current t = None.
Proof.
  cbn. intros [H|[_ H]]%lookup_app_Some.
  - rewrite list_lookup_fmap in H. by apply fmap_Some in H as (p & _ & ->).
  - apply list_elem_of_lookup_2, list_elem_of_In, in_concat in H as (l & Hl & Hin).
    apply list_elem_of_In, list_elem_of_lookup in Hl as (e & He). rewrite list_lookup_imap in He.
    apply fmap_Some in He as (x & _ & ->). apply list_elem_of_In, elem_of_replicate in Hin as [-> _]. done.
Qed.

Lemma start_job_inv programs es : job_inv (start programs es).
Proof.
  constructor; try done.
  - intros e x h Hx. by rewrite (start_executors _ _ _ _ Hx), (proj1 law_new), occ_nil.
  - intros h. unfold of_job. cbn. destruct (Nat.eq_0_gt_0_cases (occs h cur (threads (start programs es)))) as [|H]; [done|].
    apply occs_exists in H as (i & t & Ht & Hin). unfold cur in Hin. rewrite (proj2 (start_threads _ _ _ _ Ht)) in Hin. by apply not_elem_of_nil in Hin.
  - intros i t h Ht Hc. by rewrite (proj2 (start_threads _ _ _ _ Ht)) in Hc.
  - intros i h Hin. by apply not_elem_of_nil in Hin.
Qed.

Lemma start_lock_inv programs es : lock_inv (start programs es).
Proof. intros i t Ht. by rewrite (proj1 (start_threads _ _ _ _ Ht)). Qed.

Definition reachable (programs : list (list call)) (es : list (nat * nat * bool)) : state -> Prop :=
  rtc (step body) (start programs es).

Lemma reachable_invs programs es s : reachable programs es s -> job_inv s /\ lock_inv s.
Proof.
  intros Hr. eapply (rtc_ind_r (fun s => job_inv s /\ lock_inv s)); [|..|exact Hr].
  - split; [apply start_job_inv|apply start_lock_inv].
  - intros y z _ Hs [Hj Hl]. split; [by eapply step_job_inv|by eapply step_lock_inv].
Qed.

(** C30: however the threads interleave, no job is begun twice, only workers of the
    executor it was posted to begin it, and a job that was posted waits in its service
    (once), or is being run by one worker of it, or was run, or was destroyed with the
    service before anybody began it. *)
Theorem jobs_run_once programs es s : reachable programs es s ->
  NoDup (snd <$> started s) /\
  (forall i h, (i, h) ∈ started s -> exists t j,
     threads s !! i = Some t /\ jobs s !! h = Some j /\ works_for t = Some (target j)) /\
  (forall h j, jobs s !! h = Some j -> exists x, executors s !! target j = Some x /\
     match st j with
     | Queued => occ h (io_pending (io x)) = 1 /\ h ∉ snd <$> started s
     | Taken => h ∈ snd <$> started s /\ exists i t, threads s !! i = Some t /\ current t = Some h /\ works_for t = Some (target j)
     | Done => h ∈ snd <$> started s
     | Dropped => destroyed x = true /\ h ∉ snd <$> started s
     end).
Proof.
  intros [[H1 H2 H3 H4 H5 H6] _]%reachable_invs. split_and!; [|done|].
  - apply NoDup_ListNoDup, (NoDup_count_occ Nat.eq_dec). intros h. change (occ h (snd <$> started s) <= 1). rewrite H4.
    unfold of_job. destruct (jobs s !! h) as [j|]; [|lia]. unfold begun. destruct (st j); lia.
  - intros h j Hj. destruct (H6 h j Hj) as (x & Hx & Hd). exists x. split; [done|].
    pose proof (H1 _ x h Hx) as Hq. rewrite (of_job_at _ _ _ _ Hj) in Hq. unfold queued in Hq. rewrite Nat.eqb_refl in Hq.
    pose proof (H4 h) as Hb. rewrite (of_job_at _ _ _ _ Hj) in Hb. pose proof (occ_in h (snd <$> started s)) as Ho.
    pose proof (H2 h) as Hc. rewrite (of_job_at _ _ _ _ Hj) in Hc. unfold begun, taken in *.
    destruct (st j); [split; [done|rewrite Ho; lia]| |rewrite Ho; lia|split; [auto|rewrite Ho; lia]].
    split; [rewrite Ho; lia|]. destruct (occs_exists h cur (threads s)) as (i & t & Ht & Hin); [lia|].
    unfold cur in Hin. destruct (current t) as [h'|] eqn:Hcur; [|by apply not_elem_of_nil in Hin].
    apply list_elem_of_singleton in Hin as ->. destruct (H3 i t _ Ht Hcur) as (j' & Hj' & Hw). simplify_eq. by exists i, t.
Qed.
End reachable.

(** *** Waiting for a job that is never run *)
Section waiting.
Context (body : nat -> list call).

(** What a step can do to a job, and what it takes. *)
Definition job_move (i : nat) (s : state) (h : nat) (j j' : job) : Prop :=
  j' = j \/
  st j = Queued /\ j' = set_st Dropped j \/
  (exists t, threads s !! i = Some t /\ at_ t = Go /\ current t = Some h /\ j' = set_st Done j) \/
  (exists t e x io', threads s !! i = Some t /\ at_ t = Go /\ works_for t = Some e /\
     executors s !! e = Some x /\ io_next (io x) = Some (h, io') /\ j' = set_st Taken j).

Lemma step_job i s s' h j : step_thread body i s = Some s' -> jobs s !! h = Some j ->
  exists j', jobs s' !! h = Some j' /\ job_move i s h j j'.
Proof.
  intros H Hj. step_cases H; cbn; try (exists j; split; [done || by apply lookup_app_l_Some|by left]).
  all: try match goal with |- context [drop_jobs ?e] => exists (match st j with Queued => if target j =? e then set_st Dropped j else j | _ => j end);
    unfold drop_jobs; rewrite list_lookup_fmap, Hj; split; [done|]; destruct (st j) eqn:?; unfold job_move; auto; case_match; auto end.
  all: match goal with |- context [<[?k := set_st _ ?j']> _] => destruct (decide (h = k)) as [->|];
    [rewrite list_lookup_insert_eq by (by eapply lookup_lt_Some); simplify_eq; eexists; split; [done|]
    |rewrite list_lookup_insert_ne by done; exists j; split; [done|by left]] end; unfold job_move.
  - right; right; left; eauto 10.
  - right; right; right; eauto 20.
Qed.

Lemma step_stopped i s s' e x : step_thread body i s = Some s' -> executors s !! e = Some x -> io_stopped (io x) = true ->
  exists x', executors s' !! e = Some x' /\
    (io_stopped (io x') = true \/ forall h j, jobs s' !! h = Some j -> st j = Queued -> target j <> e).
Proof.
  intros H Hx Hs. step_cases H; cbn; try (exists x; split; [done|by left]).
  all: match goal with |- context [<[?k := ?y]> _] => destruct (decide (e = k)) as [->|];
    [rewrite list_lookup_insert_eq by (by eapply lookup_lt_Some); eexists; split; [done|]; simplify_eq; cbn
    |rewrite list_lookup_insert_ne by done; exists x; split; [done|by left]] end; auto.
  all: try (left; first [apply law_stop|rewrite (proj2 (law_post _ _)); done|done]).
  - congruence.
  - left. case_match; [apply law_stop|done].
  - right. intros h j Hj. unfold drop_jobs in Hj. rewrite list_lookup_fmap in Hj. apply fmap_Some in Hj as (j0 & _ & ->).
    destruct (st j0) eqn:Hst; rewrite ?Hst; try done. destruct (Nat.eqb_spec (target j0) e0); cbn; rewrite ?Hst; done.
Qed.

(** A thread in [f->get()] whose job will not be run: it was destroyed, or its service
    was stopped, or the only worker that could run it is the thread itself. *)
Definition hopeless (i h : nat) (s : state) : Prop :=
  exists (t : thread) (j : job), threads s !! i = Some t /\ at_ t = Waiting h /\ jobs s !! h = Some j /\ (st j = Dropped \/ st j = Queued /\
       ((exists x, executors s !! target j = Some x /\ io_stopped (io x) = true) \/
        (forall k u, threads s !! k = Some u -> works_for u = Some (target j) -> k = i))).

Lemma step_hopeless s s' i h : step body s s' -> job_inv s -> hopeless i h s -> hopeless i h s'.
Proof.
  intros [k s0 s1 Hs] Hi (t & j & Ht & Hat & Hj & Hst).
  assert (Hk : k <> i).
  { intros ->. unfold step_thread in Hs. rewrite Ht in Hs. cbn [mbind option_bind] in Hs. rewrite Hat, Hj in Hs. cbn in Hs.
    destruct (st j); try done; destruct Hst as [|[]]; done. }
  destruct (step_others body k s0 s1 i t Hs Ht) as (t' & Ht' & _ & Et). rewrite (Et (not_eq_sym Hk)) in Ht'.
  destruct (step_job k s0 s1 h j Hs Hj) as (j' & Hj' & Hm). exists t, j'. split_and!; [done..|].
  assert (Hone : (forall k0 u, threads s0 !! k0 = Some u -> works_for u = Some (target j) -> k0 = i) ->
     forall k0 u, threads s1 !! k0 = Some u -> works_for u = Some (target j) -> k0 = i).
  { intros Ho k0 u Hu Hw. destruct (step_thread_of body k s0 s1 Hs) as (v & v' & Hv & Ev & Ewv & _). rewrite Ev in Hu.
    apply list_lookup_insert_Some in Hu as [(-> & <- & _)|[_ Hu]]; [|by apply (Ho k0 u)]. apply (Ho k0 v Hv). congruence. }
  destruct Hm as [->|[[Hq ->]|[(u & Hu & _ & Hc & ->)|(u & e & x & io' & Hu & _ & Hw & Hx & Hn & ->)]]].
  - destruct Hst as [Hd|[Hq [(x & Hx & Hstop)|Ho]]]; [by left| |right; split; [done|right; by apply Hone]].
    destruct (step_stopped k s0 s1 _ x Hs Hx Hstop) as (x' & Hx' & [Hstop'|Hno]); [right; split; [done|left; eauto]|].
    exfalso. by apply (Hno h j Hj' Hq).
  - by left.
  - pose proof (ji_current _ Hi h) as Hcur. rewrite (of_job_at _ _ _ _ Hj) in Hcur.
    assert (0 < occs h cur (threads s0)) by (eapply occs_in; [done|unfold cur; rewrite Hc; by left]).
    unfold taken in Hcur. destruct Hst as [Hd|[Hq _]]; rewrite ?Hd, ?Hq in Hcur; lia.
  - destruct (law_next _ _ _ Hn) as (Hns & _ & Hp).
    destruct (pending_queued s0 e x h j Hi Hx Hj) as [Hq Htg]; [rewrite Hp; by left|].
    destruct Hst as [Hd|[_ [(y & Hy & Hstop)|Ho]]]; [congruence|congruence|]. destruct Hk. apply (Ho k u Hu). congruence.
Qed.

(** C32: a thread in [executors::post] or [getId] waits forever when the job's service is stopped
    or destroyed before the job is begun, also when the call was made after
    [terminate_all] began, and when it runs on the only worker of the executor it posts to. *)
Theorem post_waits_forever programs es s s' i h : reachable body programs es s -> hopeless i h s ->
  rtc (step body) s s' -> exists t, threads s' !! i = Some t /\ at_ t = Waiting h.
Proof.
  intros Hr Hh Hs. assert (H : job_inv s' /\ hopeless i h s').
  { destruct (reachable_invs _ _ _ _ Hr) as [Hi _]. clear Hr. revert Hi Hh. induction Hs as [s|s s1 s2 Hstep _ IH]; [done|].
    intros Hi Hh. apply IH; [by eapply step_job_inv|by eapply step_hopeless]. }
  destruct H as [_ (t & _ & Ht & Hat & _)]. by exists t.
Qed.
End waiting.

(** *** Joining a worker nobody stops *)
Section joining.
Context (body : nat -> list call).

(** A destructor joins workers of a service that nobody can stop any more. *)
Definition joining_forever (i e : nat) (k : after) (w : nat) (s : state) : Prop :=
  exists (t u : thread) (x : executor), threads s !! i = Some t /\ at_ t = Joining e k /\
    threads s !! w = Some u /\ works_for u = Some e /\ at_ u <> Exited /\
    executors s !! e = Some x /\ owners x = 0 /\ io_stopped (io x) = false.

Lemma join_waits e w (u : thread) (l : list thread) : l !! w = Some u -> works_for u = Some e -> at_ u <> Exited ->
  forallb (fun t => negb (works_at e t) || is_exited t) l = false.
Proof.
  intros Hu Hw Ha. apply not_true_iff_false. rewrite forallb_forall. intros H.
  specialize (H u (proj1 (list_elem_of_In _ _) (list_elem_of_lookup_2 _ _ _ Hu))).
  unfold works_at, is_exited in H. rewrite Hw, Nat.eqb_refl in H. by destruct (at_ u).
Qed.

(** A worker only leaves [run()] when the service is stopped. *)
Lemma step_stays k s s' u e x : step_thread body k s = Some s' -> threads s !! k = Some u -> works_for u = Some e ->
  executors s !! e = Some x -> io_stopped (io x) = false -> exists u', threads s' !! k = Some u' /\ at_ u' <> Exited.
Proof.
  intros H Hu Hw Hx Hs. assert (Hlt : k < length (threads s)) by (by eapply lookup_lt_Some).
  step_cases H; simplify_eq; cbn; rewrite list_lookup_insert_eq by done; eexists; (split; [done|cbn]); try congruence.
  all: match goal with |- context [resume ?k] => by destruct k | |- context [match ?w with Some _ => _ | None => _ end] => by destruct w end.
Qed.

(** Nobody stops a service without owners. *)
Lemma step_unowned k s s' e x : step_thread body k s = Some s' -> executors s !! e = Some x -> owners x = 0 -> io_stopped (io x) = false ->
  forallb (fun t => negb (works_at e t) || is_exited t) (threads s) = false ->
  exists x', executors s' !! e = Some x' /\ owners x' = 0 /\ io_stopped (io x') = false.
Proof.
  intros H Hx Ho Hs Hj. step_cases H; cbn; try (exists x; done).
  all: match goal with |- context [<[?k := ?y]> _] => destruct (decide (e = k)) as [->|];
    [rewrite list_lookup_insert_eq by (by eapply lookup_lt_Some); eexists; split; [done|]; simplify_eq; cbn
    |rewrite list_lookup_insert_ne by done; exists x; done] end.
  all: try match goal with Ho : owners ?e = 0, E : context [owners ?e] |- _ => exfalso; rewrite Ho in E; discriminate E end.
  all: try (split; [done|]; by rewrite (proj2 (law_post _ _))).
  - split; [done|]. match goal with E : io_next _ = Some _ |- _ => by destruct (law_next _ _ _ E) as (_ & ? & _) end.
  - split; [done|]. apply law_new.
Qed.

Lemma step_joining s s' i e k w : step body s s' -> joining_forever i e k w s -> joining_forever i e k w s'.
Proof.
  intros [n s0 s1 H] (t & u & x & Ht & Hat & Hu & Hw & Ha & Hx & Ho & Hs).
  pose proof (join_waits e w u (threads s0) Hu Hw Ha) as Hj.
  destruct (step_others body n s0 s1 i t H Ht) as (t' & Ht' & _ & Et).
  destruct (step_others body n s0 s1 w u H Hu) as (u' & Hu' & Hw' & Eu).
  destruct (step_unowned n s0 s1 e x H Hx Ho Hs Hj) as (x' & Hx' & Ho' & Hs').
  exists t, u', x'. rewrite Hw'. split_and!; try done.
  - rewrite Ht', Et; [done|]. intros ->. unfold step_thread in H. rewrite Ht in H. cbn [mbind option_bind] in H.
    by rewrite Hat, Hj in H.
  - destruct (decide (n = w)) as [->|Hn]; [|by rewrite (Eu (not_eq_sym Hn))].
    destruct (step_stays w s0 s1 u e x H Hu Hw Hx Hs) as (v & Hv & Hne). by simplify_eq.
Qed.

(** A call that needs [mtx_]. *)
Definition registry_call (c : call) : bool :=
  match c with PostTask _ _ | Post _ _ | Add _ _ | TerminateAll => true | _ => false end.

(** C31: when the last [shared_ptr] of an [asio_executor] goes while its service runs, the thread
    that released it stays in the destructor's [join] forever; when that is the pointer that
    [post_task] or [terminate_all] took, it keeps [mtx_], and no call of the registry goes on. *)
Theorem destructor_joins_forever programs es s s1 s' i t e k x w u : reachable body programs es s ->
  threads s !! i = Some t -> at_ t = Dropping e k -> works_for t <> Some e ->
  executors s !! e = Some x -> owners x = 1 -> stops x = false -> io_stopped (io x) = false ->
  threads s !! w = Some u -> works_for u = Some e -> at_ u <> Exited ->
  step_thread body i s = Some s1 -> rtc (step body) s1 s' ->
  (exists t', threads s' !! i = Some t' /\ at_ t' = Joining e k) /\
  (after_lock k = true -> mtx s' = Some i /\ forall n v c cs, threads s' !! n = Some v -> at_ v = Go ->
     todo v = c :: cs -> registry_call c = true -> step_thread body n s' = None).
Proof.
  intros Hr Ht Hat Hne Hx Ho Hst Hs Hu Hw Ha Hstep Hrun.
  assert (Hj : joining_forever i e k w s1).
  { unfold step_thread in Hstep. rewrite Ht in Hstep. cbn [mbind option_bind] in Hstep. rewrite Hat, Hx in Hstep.
    cbn [mbind option_bind] in Hstep. rewrite Ho in Hstep. cbn [stops set_owners] in Hstep. rewrite Hst in Hstep. injection Hstep as <-.
    exists (set_at (Joining e k) t), u, (set_owners 0 x). cbn. assert (i <> w) by (intros ->; simplify_eq). 
    rewrite !list_lookup_insert_eq by (by eapply lookup_lt_Some). by rewrite list_lookup_insert_ne by done. }
  assert (H : joining_forever i e k w s' /\ lock_inv s').
  { destruct (reachable_invs _ _ _ _ Hr) as [_ Hl]. assert (Hl1 : lock_inv s1) by (eapply step_lock_inv; [by econstructor|done]).
    clear -Hj Hl1 Hrun IoLaws0. induction Hrun as [|s1 s2 s3 Hstep _ IH]; [done|].
    apply IH; [by eapply step_joining|by eapply step_lock_inv]. }
  destruct H as [(t' & _ & _ & Ht' & Hat' & _) Hl]. split; [by exists t'|]. intros Hk.
  assert (Hm : mtx s' = Some i) by (apply (Hl i t' Ht'); by rewrite Hat'). split; [done|].
  intros n v c cs Hv Hgo Hc Hreg. unfold step_thread, post_task. rewrite Hv. cbn [mbind option_bind]. rewrite Hgo, Hc, Hm.
  by destruct c.
Qed.
End joining.

Lemma take_turns_runs body order s s' : take_turns body order s = Some s' -> rtc (step body) s s'.
Proof.
  revert s. induction order as [|i order IH]; intros s; cbn; [by intros [= ->]|].
  destruct (step_thread body i s) as [s1|] eqn:Hs; [|done]. intros H. eapply rtc_l; [by econstructor|by apply IH].
Qed.
End executors.

(** ** Examples *)

(** Job 0 posts job 1 to executor 0 and waits for it; the others do nothing. *)
Definition jobs_of (j : nat) : list call := match j with 0 => [Post 0 1] | _ => [] end.
Definition after_turns (programs : list (list call)) (es : list (nat * nat * bool)) (order : list nat) : state (Io := fifo) :=
  default (start programs es) (take_turns jobs_of order (start programs es)).
Definition own_executor : state := after_turns [[Add 0 0; PostTask 0 0]] [((1, 1), false)] [0; 0; 0; 0; 1; 1; 1; 1].
Definition pool_of_two : state := after_turns [[AddTo 0 1; AddTo 0 2]; [AddTo 0 3]] [((2, 2), true)] [0; 2; 1; 3; 0; 3; 2; 3].
Definition last_pointer : state := after_turns [[Add 0 0; Release 0]; [PostTask 0 1]] [((1, 1), false)] [0; 1; 0; 0].

Lemma after_turns_reachable programs es order : is_Some (take_turns jobs_of order (start programs es)) ->
  reachable jobs_of programs es (after_turns programs es order).
Proof. intros [s Hs]. unfold after_turns. rewrite Hs. by eapply take_turns_runs. Qed.
Ltac turns := apply after_turns_reachable; vm_compute; eexists; reflexivity.

Lemma own_executor_reachable : reachable jobs_of [[Add 0 0; PostTask 0 0]] [((1, 1), false)] own_executor.
Proof. turns. Qed.
Lemma pool_of_two_reachable : reachable jobs_of [[AddTo 0 1; AddTo 0 2]; [AddTo 0 3]] [((2, 2), true)] pool_of_two.
Proof. turns. Qed.
Lemma last_pointer_reachable : reachable jobs_of [[Add 0 0; Release 0]; [PostTask 0 1]] [((1, 1), false)] last_pointer.
Proof. turns. Qed.

Lemma jobs_run_once_witness : (snd <$> started pool_of_two) = [0; 1; 2] /\ NoDup [0; 1; 2] /\
  exists i t, threads pool_of_two !! i = Some t /\ current t = Some 2.
Proof.
  destruct (jobs_run_once jobs_of _ _ _ pool_of_two_reachable) as (Hn & _ & Hj). split; [vm_compute; reflexivity|]. split.
  - exact Hn.
  - destruct (Hj 2 (mk_job 0 2 Taken) ltac:(vm_compute; reflexivity)) as (x & _ & _ & i & t & Hi & Hc & _). by exists i, t.
Defined.

(** Job 0 runs on the only worker of executor 0 and waits for job 1 there. *)
Lemma post_waits_forever_witness : exists s', rtc (step jobs_of) own_executor s' /\ s' <> own_executor /\
  exists t, threads s' !! 1 = Some t /\ at_ t = Waiting 1.
Proof.
  assert (H : rtc (step jobs_of) own_executor (default own_executor (step_thread jobs_of 0 own_executor))).
  { apply rtc_once, (step_by jobs_of 0). vm_compute. reflexivity. }
  eexists. split; [exact H|]. split; [vm_compute; discriminate|].
  apply (post_waits_forever jobs_of _ _ _ _ _ _ own_executor_reachable); [|exact H].
  eexists _, _. split; [vm_compute; reflexivity|]. split; [reflexivity|]. split; [vm_compute; reflexivity|].
  right. split; [reflexivity|]. right. intros [|[|k]] u; vm_compute; [by intros [= <-]|done|done].
Defined.

(** The caller of [post_task] is left with the last pointer, and joins under [mtx_]. *)
Lemma destructor_joins_forever_witness : exists s1, step_thread jobs_of 1 last_pointer = Some s1 /\
  forall s', rtc (step jobs_of) s1 s' -> (exists t, threads s' !! 1 = Some t /\ at_ t = Joining 0 (ThenUnlock None)) /\ mtx s' = Some 1.
Proof.
  eexists. split; [vm_compute; reflexivity|]. intros s' Hr.
  destruct (fun H => destructor_joins_forever jobs_of _ _ _ _ s' 1 _ 0 (ThenUnlock None) _ 2 _ last_pointer_reachable
    eq_refl eq_refl H eq_refl eq_refl eq_refl eq_refl eq_refl eq_refl ltac:(discriminate) eq_refl Hr) as [Hj Hm];
    [vm_compute; discriminate|].
  split; [exact Hj|by apply Hm].
Defined.
