(* ===== verification/SerialQueue.v ===== *)
(** * The serial queue

    Model of [serial_instance_t] ([stlab]'s [serial_queue.hpp], kept in
    [deps/clean_stlab_trash]): tasks enqueued from any thread are run one after
    the other on an executor, one task per turn ([Single]) or all the queued ones
    ([All]). The members the mutex protects are touched only inside [scope<lock_t>],
    so a critical section is one step; everything else interleaves. The executor
    is the environment: it runs each closure it was given once, at any time, on
    any thread. Tasks are told apart by a number; a task that throws is not
    modelled (the futures library wraps its tasks). *)

From S2P Require Import Prelude.

(** ** The object and its critical sections *)

Inductive schedule_mode := Single | All.

(** [_running] and [_queue]. *)
Record serial_instance := mk_instance { running : bool; queue : list nat }.

(** The scope of [enqueue]: the answer is the old [_running]. *)
Definition enqueue (f : nat) (q : serial_instance) : bool * serial_instance :=
  (running q, mk_instance true (queue q ++ [f])).

(** [empty()]. *)
Definition empty (q : serial_instance) : bool * serial_instance :=
  match queue q with
  | [] => (true, mk_instance false [])
  | _ => (false, q)
  end.

(** The scopes at the start of [single()], which takes the first task ([None]: the
    front of an empty deque), and of [all()], which takes the whole queue. *)
Definition take (mode : schedule_mode) (q : serial_instance) : option (list nat * serial_instance) :=
  match mode, queue q with
  | Single, [] => None
  | Single, f :: l => Some ([f], mk_instance (running q) l)
  | All, l => Some (l, mk_instance (running q) [])
  end.

(** ** The threads

    A caller is before the scope of [enqueue], or after it with the kickstart to
    hand to the executor. A pump is a closure the executor has begun to run: at
    its start, with tasks taken and not called yet, inside a task, at the call
    of [empty()], or about to hand itself to the executor again. *)
Inductive caller := Calling (f : nat) | Kickstarting.
Inductive pump :=
  | Entered | Taken (l : list nat) | Running (f : nat) (l : list nat) | AtEmpty | Again | Broken.

(** [posted]: closures handed to the executor that it has not begun. *)
Record state := mk_state {
  object : serial_instance;
  callers : list caller;
  posted : nat;
  pumps : list pump
}.

Inductive event := Push (f : nat) | Begin (f : nat) | End (f : nat).

(** One step of a pump: what is seen of it, the pump after it ([None]: returned),
    the object, and whether it handed itself to the executor. *)
Definition step_pump (mode : schedule_mode) (p : pump) (q : serial_instance)
    : option event * option pump * serial_instance * nat :=
  match p with
  | Entered =>
      match take mode q with
      | Some (l, q') => (None, Some (Taken l), q', 0)
      | None => (None, Some Broken, q, 0)
      end
  | Taken [] => (None, Some AtEmpty, q, 0)
  | Taken (f :: l) => (Some (Begin f), Some (Running f l), q, 0)
  | Running f l => (Some (End f), Some (Taken l), q, 0)
  | AtEmpty => let (e, q') := empty q in (None, if e then None else Some Again, q', 0)
  | Again => (None, None, q, 1)
  | Broken => (None, Some Broken, q, 0)
  end.

(** One step of a caller: the caller after it, the object, what it posted. *)
Definition step_caller (c : caller) (q : serial_instance)
    : option event * option caller * serial_instance * nat :=
  match c with
  | Calling f =>
      let (was_running, q') := enqueue f q in
      (Some (Push f), if was_running then None else Some Kickstarting, q', 0)
  | Kickstarting => (None, None, q, 1)
  end.

(** Somebody calls [enqueue]; a thread moves; the executor begins a closure. *)
Inductive step (mode : schedule_mode) : option event -> state -> state -> Prop :=
  | step_by_caller l1 c l2 e c' q q' n k ps :
      step_caller c q = (e, c', q', k) ->
      step mode e (mk_state q (l1 ++ c :: l2) n ps)
                  (mk_state q' (l1 ++ option_list c' ++ l2) (n + k) ps)
  | step_executor q cs n ps :
      step mode None (mk_state q cs (S n) ps) (mk_state q cs n (Entered :: ps))
  | step_by_pump l1 p l2 e p' q q' n k cs :
      p <> Broken -> step_pump mode p q = (e, p', q', k) ->
      step mode e (mk_state q cs n (l1 ++ p :: l2))
                  (mk_state q' cs (n + k) (l1 ++ option_list p' ++ l2)).
Definition call (f : nat) (s : state) : state :=
  mk_state (object s) (Calling f :: callers s) (posted s) (pumps s).

(** An execution and what is seen of it. *)
Inductive exec (mode : schedule_mode) : state -> list event -> state -> Prop :=
  | exec_nil s : exec mode s [] s
  | exec_call f s s' tr : exec mode (call f s) tr s' -> exec mode s tr s'
  | exec_silent s s1 s' tr : step mode None s s1 -> exec mode s1 tr s' -> exec mode s tr s'
  | exec_event e s s1 s' tr : step mode (Some e) s s1 -> exec mode s1 tr s' -> exec mode s (e :: tr) s'.

Definition start : state := mk_state (mk_instance false []) [] 0 [].
Definition internal (mode : schedule_mode) (s s' : state) : Prop := exists e, step mode e s s'.

(** ** Specification: one server that takes the tasks in the order of the pushes. *)
Record server := mk_server { waiting : list nat; current : option nat }.
Definition serve (v : server) (e : event) : option server :=
  match e, current v, waiting v with
  | Push f, c, w => Some (mk_server (w ++ [f]) c)
  | Begin f, None, g :: w => if decide (f = g) then Some (mk_server w (Some f)) else None
  | End f, Some g, w => if decide (f = g) then Some (mk_server w None) else None
  | _, _, _ => None
  end.
Fixpoint serves (v : server) (tr : list event) : option server :=
  match tr with
  | [] => Some v
  | e :: tr' => v' ← serve v e; serves v' tr'
  end.

(** What was pushed and what has been run, in order. *)
Definition pushed (tr : list event) : list nat := omap (fun e => match e with Push f => Some f | _ => None end) tr.
Definition ended (tr : list event) : list nat := omap (fun e => match e with End f => Some f | _ => None end) tr.

(** The server an object and its pumps stand for. *)
Definition taken (p : pump) : list nat :=
  match p with Taken l | Running _ l => l | _ => [] end.
Definition running_task (p : pump) : option nat :=
  match p with Running f _ => Some f | _ => None end.
Definition server_of (s : state) : server :=
  mk_server (concat (taken <$> pumps s) ++ queue (object s)) (head (omap running_task (pumps s))).

(** ** Lemmas *)

Definition is_kick (c : caller) : nat := match c with Kickstarting => 1 | _ => 0 end.
Definition kicks (cs : list caller) : nat := sum_list_with is_kick cs.
#[local] Arguments kicks : simpl never.
Definition before_turn (p : pump) : bool := match p with Entered | Again => true | _ => false end.

(** One closure in flight, on its way to the executor, waiting there, or running,
    exactly when [_running]; and a turn only begins with something to do. *)
Record inv (s : state) : Prop := mk_inv {
  inv_token : kicks (callers s) + posted s + length (pumps s) = if running (object s) then 1 else 0;
  inv_idle : running (object s) = false -> queue (object s) = [];
  inv_posted : kicks (callers s) + posted s <> 0 -> queue (object s) <> [];
  inv_pumps : Forall (fun p => p <> Broken /\ (before_turn p = true -> queue (object s) <> [])) (pumps s)
}.

Lemma kicks_app l1 l2 : kicks (l1 ++ l2) = kicks l1 + kicks l2.
Proof. unfold kicks. apply sum_list_with_app. Qed.
Lemma kicks_cons c l : kicks (c :: l) = is_kick c + kicks l.
Proof. done. Qed.

Lemma serial_inv_start : inv start.
Proof. by constructor. Qed.

Lemma inv_call f s : inv s -> inv (call f s).
Proof. by intros []. Qed.

Lemma alone {A} (l1 l2 : list A) x : length (l1 ++ x :: l2) <= 1 -> l1 = [] /\ l2 = [].
Proof. rewrite length_app. cbn. destruct l1, l2; cbn; auto with lia. Qed.

Lemma snoc_not_nil {A} (l : list A) x : l ++ [x] <> [].
Proof. by destruct l. Qed.

Definition follows (s s' : state) (e : option event) : Prop :=
  match e with
  | None => server_of s' = server_of s
  | Some e => serve (server_of s) e = Some (server_of s')
  end.

Lemma caller_step q l1 c l2 n ps e c' q' k :
  step_caller c q = (e, c', q', k) -> inv (mk_state q (l1 ++ c :: l2) n ps) ->
  let s' := mk_state q' (l1 ++ option_list c' ++ l2) (n + k) ps in
  inv s' /\ follows (mk_state q (l1 ++ c :: l2) n ps) s' e.
Proof.
  intros Hs [Ht Hi Hp Hf]. cbn in *. rewrite kicks_app, kicks_cons in Ht, Hp.
  destruct c as [f|]; cbn in Hs; simplify_eq/=.
  - split_and!; [constructor; cbn|..]; try done.
    + rewrite !kicks_app. destruct (running q); cbn in *; rewrite ?kicks_cons; change (kicks []) with 0; cbn; lia.
    + intros _. apply snoc_not_nil.
    + eapply Forall_impl; [exact Hf|]. intros p [Hb _]. split; [done|]. intros _. apply snoc_not_nil.
    + cbn. unfold server_of. cbn. by rewrite <- app_assoc.
  - split_and!; [constructor; cbn|..]; try done; rewrite ?kicks_app in *; cbn in *.
    + lia.
    + intros _. apply Hp. lia.
Qed.

Lemma pump_step mode q l1 p l2 n cs e p' q' k :
  p <> Broken -> step_pump mode p q = (e, p', q', k) -> inv (mk_state q cs n (l1 ++ p :: l2)) ->
  let s' := mk_state q' cs (n + k) (l1 ++ option_list p' ++ l2) in
  inv s' /\ follows (mk_state q cs n (l1 ++ p :: l2)) s' e.
Proof.
  intros Hb Hs [Ht Hi Hp Hf]. cbn in *.
  assert (Hone : length (l1 ++ p :: l2) <= 1) by (destruct (running q); lia).
  destruct (alone _ _ _ Hone) as [-> ->]. cbn in *.
  assert (Hr : running q = true) by (destruct (running q); [done|lia]). rewrite Hr in *.
  apply Forall_cons_1 in Hf as [[_ Hq] _].
  assert (kicks cs = 0 /\ n = 0) as [Hk ->] by lia.
  destruct p as [|[|f l]|f l| | |]; cbn in Hs, Hq; try done.
  - destruct (queue q) as [|f l] eqn:E; [by destruct Hq|].
    destruct mode; cbn in Hs; rewrite E in Hs; simplify_eq/=;
      (split; [constructor; cbn; rewrite ?Hr; try done; try lia; by repeat constructor|]);
      unfold follows, server_of; cbn; by rewrite E, ?app_nil_r.
  - simplify_eq/=. split; [constructor; cbn; rewrite ?Hr; try done; by repeat constructor|].
    unfold follows, server_of. by cbn.
  - simplify_eq/=. split; [constructor; cbn; rewrite ?Hr; try done; by repeat constructor|].
    unfold follows, server_of. cbn. by rewrite decide_True.
  - simplify_eq/=. split; [constructor; cbn; rewrite ?Hr; try done; by repeat constructor|].
    unfold follows, server_of. cbn. by rewrite decide_True.
  - unfold empty in Hs. destruct (queue q) as [|f l] eqn:E; simplify_eq/=.
    + split; [by constructor; cbn; rewrite ?Hk|]. unfold follows, server_of. cbn. by rewrite E.
    + split; [constructor; cbn; rewrite ?Hr, ?E; try done; by repeat constructor|].
      unfold follows, server_of. cbn. by rewrite E.
  - simplify_eq/=. split; [constructor; cbn; rewrite ?Hr; try done; auto; lia|].
    unfold follows, server_of. by cbn.
Qed.

Lemma serial_step mode e s s' : step mode e s s' -> inv s -> inv s' /\ follows s s' e.
Proof.
  intros [l1 c l2 e' c' q q' n k ps Hs|q cs n ps|l1 p l2 e' p' q q' n k cs Hb Hs] Hi.
  - exact (caller_step _ _ _ _ _ _ _ _ _ _ Hs Hi).
  - destruct Hi as [Ht Hid Hp Hf]. cbn in *. split; [|done].
    assert (ps = []) as -> by (destruct ps; [done|]; destruct (running q); cbn in *; lia).
    constructor; cbn in *; [lia|done|intros ?; apply Hp; lia|].
    constructor; [split; [done|]|done]. intros _. apply Hp. lia.
  - by apply (pump_step mode).
Qed.

Lemma exec_serves mode s tr s' : exec mode s tr s' -> inv s ->
  inv s' /\ serves (server_of s) tr = Some (server_of s').
Proof.
  induction 1 as [s|f s s' tr _ IH|s s1 s' tr Hs _ IH|e s s1 s' tr Hs _ IH]; intros Hi.
  - done.
  - by apply IH, inv_call.
  - destruct (serial_step _ _ _ _ Hs Hi) as [Hi1 Hf]. cbn in Hf. rewrite <- Hf. by apply IH.
  - destruct (serial_step _ _ _ _ Hs Hi) as [Hi1 Hf]. cbn in Hf |- *. rewrite Hf. by apply IH.
Qed.

Lemma exec_app mode s1 tr1 s2 tr2 s3 : exec mode s1 tr1 s2 -> exec mode s2 tr2 s3 -> exec mode s1 (tr1 ++ tr2) s3.
Proof. induction 1; intros; cbn; eauto using exec. Qed.

(** *** Termination *)

(** Upper bound on the steps left: what each thread has still to do, and for a
    queued task at most one turn of its own. *)
Definition caller_weight (c : caller) : nat := match c with Calling _ => 10 | Kickstarting => 2 end.
Definition pump_weight (p : pump) : nat :=
  match p with
  | Entered | Broken => 0
  | Taken l => 2 * length l + 4
  | Running _ l => 2 * length l + 5
  | AtEmpty => 3
  | Again => 2
  end.
Definition weight (s : state) : nat :=
  sum_list_with caller_weight (callers s) + posted s + sum_list_with pump_weight (pumps s)
  + 7 * length (queue (object s)).

Lemma step_lighter mode e s s' : step mode e s s' -> inv s -> weight s' < weight s.
Proof.
  intros [l1 c l2 e' c' q q' n k ps Hs|q cs n ps|l1 p l2 e' p' q q' n k cs Hb Hs] Hi; unfold weight; cbn.
  - rewrite !sum_list_with_app. cbn.
    destruct c as [f|]; cbn in Hs; simplify_eq/=; [|lia].
    rewrite length_app. destruct (running q); cbn; lia.
  - lia.
  - pose proof (inv_pumps _ Hi) as Hf. cbn in Hf. apply Forall_app in Hf as [_ [[_ Hq] _]%Forall_cons_1].
    rewrite !sum_list_with_app. cbn.
    destruct p as [|[|f l]|f l| | |]; cbn in Hs, Hq; simplify_eq/=; try lia.
    + destruct (queue q) as [|f l] eqn:E; [by destruct Hq|].
      destruct mode; cbn in Hs; rewrite E in Hs; simplify_eq/=; lia.
    + unfold empty in Hs. destruct (queue q) as [|f l] eqn:E; simplify_eq/=; rewrite ?E; cbn; lia.
Qed.

Lemma internal_bounded mode n s s' : nsteps (internal mode) n s s' -> inv s ->
  inv s' /\ n + weight s' <= weight s.
Proof.
  induction 1 as [s|n s1 s2 s3 [e Hs] _ IH]; intros Hi; [split; [done|lia]|].
  destruct (serial_step _ _ _ _ Hs Hi) as [Hi2 _]. destruct (IH Hi2).
  pose proof (step_lighter _ _ _ _ Hs Hi). split; [done|lia].
Qed.

Lemma serial_stuck mode s : inv s -> (forall s', ~ internal mode s s') ->
  s = mk_state (mk_instance false []) [] 0 [].
Proof.
  intros [Ht Hi Hp Hf] Hstuck. destruct s as [[r q] cs n ps]. cbn in *.
  assert (cs = []) as ->.
  { destruct cs as [|c cs]; [done|]. destruct (step_caller c (mk_instance r q)) as [[[e c'] q'] k] eqn:E.
    exfalso. eapply Hstuck. exists e. by eapply (step_by_caller mode []). }
  assert (n = 0) as ->.
  { destruct n; [done|]. exfalso. eapply Hstuck. exists None. apply step_executor. }
  assert (ps = []) as ->.
  { destruct ps as [|p ps]; [done|]. apply Forall_cons_1 in Hf as [[Hb _] _].
    destruct (step_pump mode p (mk_instance r q)) as [[[e p'] q'] k] eqn:E.
    exfalso. eapply Hstuck. exists e. by eapply (step_by_pump mode []). }
  destruct r; [done|]. by rewrite (Hi eq_refl).
Qed.

(** *** Whatever the server may do next, the queue may *)

Lemma kick_among cs : kicks cs <> 0 -> exists l1 l2, cs = l1 ++ Kickstarting :: l2.
Proof.
  induction cs as [|[f|] cs IH]; intros H; [done|..].
  - destruct (IH H) as (l1 & l2 & ->). by exists (Calling f :: l1), l2.
  - by exists [], cs.
Qed.

Lemma turn_or_silent mode s : inv s -> current (server_of s) = None -> waiting (server_of s) <> [] ->
  (exists f l, pumps s = [Taken (f :: l)]) \/ exists s', step mode None s s'.
Proof.
  intros [Ht Hi Hp Hf] Hc Hw. destruct s as [[r q] cs n ps]. cbn in *.
  assert (r = true) as ->.
  { destruct r; [done|]. destruct ps; [|cbn in *; lia]. by rewrite Hi in Hw. }
  destruct (decide (kicks cs = 0)) as [Hk|(l1 & l2 & ->)%kick_among].
  - destruct n as [|n]; [|right; eexists; apply step_executor].
    destruct ps as [|p [|p2 ps]]; cbn in Ht; try lia. apply Forall_cons_1 in Hf as [[Hb _] _].
    destruct p as [|[|f l]|f l| | |]; try done; cbn in Hw;
      try (left; by eauto); right; (destruct q as [|g q]; [done|]);
      destruct mode; eexists; by eapply (step_by_pump _ [] _ []).
  - right. eexists. by eapply step_by_caller.
Qed.

Lemma reach_turn mode f w : forall k s, weight s = k -> inv s -> server_of s = mk_server (f :: w) None ->
  exists s' l, exec mode s [] s' /\ inv s' /\ server_of s' = mk_server (f :: w) None /\ pumps s' = [Taken (f :: l)].
Proof.
  induction k as [k IH] using lt_wf_ind. intros s <- Hi Hv.
  destruct (turn_or_silent mode s Hi) as [(g & l & Hp)|[s1 Hs]]; [by rewrite Hv..| |].
  - exists s, l. split_and!; [constructor|done|done|]. unfold server_of in Hv. rewrite Hp in Hv. cbn in Hv.
    injection Hv as -> _. done.
  - destruct (serial_step _ _ _ _ Hs Hi) as [Hi1 Hf]. cbn in Hf.
    destruct (IH _ (step_lighter _ _ _ _ Hs Hi) s1 eq_refl Hi1 (eq_trans Hf Hv)) as (s' & l & Hx & H).
    exists s', l. split; [by eapply exec_silent|done].
Qed.

Lemma can_follow mode s e v : inv s -> serve (server_of s) e = Some v -> exists s', exec mode s [e] s'.
Proof.
  intros Hi Hv. destruct e as [f|f|f].
  - destruct s as [q cs n ps]. eexists. eapply exec_call, exec_event; [|apply exec_nil].
    by eapply (step_by_caller mode []).
  - unfold serve in Hv. destruct (current (server_of s)) eqn:Hc; [done|].
    destruct (waiting (server_of s)) as [|g w] eqn:Hw; [done|]. case_decide; [subst g|done].
    destruct (reach_turn mode f w _ s eq_refl Hi) as (s' & l & Hx & _ & _ & Hp).
    { destruct (server_of s). cbn in *. by subst. }
    destruct s' as [q cs n ps]. cbn in Hp. subst. eexists. apply (exec_app mode s [] _ [Begin f] _ Hx).
    eapply exec_event; [|apply exec_nil]. by eapply (step_by_pump mode [] _ []).
  - destruct s as [q cs n ps]. pose proof (inv_token _ Hi) as Ht. cbn in *.
    destruct (omap running_task ps) as [|g r] eqn:E; [done|]. cbn in Hv. case_decide; [subst g|done].
    destruct ps as [|p [|p2 ps]]; [done| |destruct (running q); cbn in *; lia].
    destruct p as [|l|g l| | |]; cbn in E; simplify_eq/=.
    eexists. eapply exec_event; [|apply exec_nil]. by eapply (step_by_pump mode [] _ []).
Qed.

Lemma serves_exec mode tr : forall s v, inv s -> serves (server_of s) tr = Some v -> exists s', exec mode s tr s'.
Proof.
  induction tr as [|e tr IH]; intros s v Hi Hv; [eexists; apply exec_nil|]. cbn in Hv.
  destruct (serve (server_of s) e) as [v1|] eqn:E; [|done]. cbn in Hv.
  destruct (can_follow mode s e v1 Hi E) as [s1 Hx].
  destruct (exec_serves _ _ _ _ Hx Hi) as [Hi1 H1]. cbn in H1. rewrite E in H1. cbn in H1. injection H1 as ->.
  destruct (IH s1 v Hi1 Hv) as [s' Hx']. exists s'. exact (exec_app _ _ [e] _ _ _ Hx Hx').
Qed.

Lemma serves_fifo tr : forall v v', serves v tr = Some v' ->
  (option_list (current v) ++ waiting v ++ pushed tr = ended tr ++ option_list (current v') ++ waiting v')%list.
Proof.
  induction tr as [|e tr IH]; intros [w c] v' H; cbn in H.
  - simplify_eq/=. by rewrite app_nil_r.
  - destruct e as [f|f|f]; cbn in H.
    + specialize (IH _ _ H). cbn in *. by rewrite <- !app_assoc in IH.
    + destruct c; [done|]. destruct w as [|g w]; [done|]. case_decide; [subst g|done]. by apply (IH _ _ H).
    + destruct c as [g|]; [|done]. case_decide; [subst g|done]. cbn. f_equal. by apply (IH _ _ H).
Qed.

Lemma internal_exec mode n s s' : nsteps (internal mode) n s s' -> exists tr, exec mode s tr s'.
Proof.
  induction 1 as [s|n s1 s2 s3 [[e|] Hs] _ [tr IH]]; [eexists; apply exec_nil|..];
    eexists; [by eapply exec_event|by eapply exec_silent].
Qed.

(** A run: a task enqueued, run, and another enqueued while it runs. *)
Definition demo_trace : list event := [Push 1; Begin 1; Push 2; End 1].
Lemma demo_exec mode : exists s, exec mode start demo_trace s.
Proof. by apply (serves_exec mode demo_trace start (mk_server [2] None)); [apply serial_inv_start|]. Qed.

(** ** Properties *)

(** C20: the serial queue runs its tasks one at a time, in the order in which
    they were enqueued: in any interleaving of callers and executor threads, in
    both modes, every execution is one of the one-server specification, and
    no turn takes the front of an empty queue. *)
Theorem serial_queue_refines (mode : schedule_mode) (tr : list event) (s : state) :
  exec mode start tr s ->
  serves (mk_server [] None) tr = Some (server_of s) /\
  pushed tr = ended tr ++ option_list (current (server_of s)) ++ waiting (server_of s) /\
  (Broken ∉ pumps s) /\ (length (pumps s) <= 1)%nat.
Proof.
  intros Hx. destruct (exec_serves _ _ _ _ Hx serial_inv_start) as [Hi Hs]. split_and!; [exact Hs|..].
  - by apply (serves_fifo _ _ _ Hs).
  - intros Hin. by destruct (proj1 (Forall_forall _ _) (inv_pumps _ Hi) Broken Hin).
  - pose proof (inv_token _ Hi). destruct (running (object s)); lia.
Qed.

Lemma serial_queue_refines_witness : exists s,
  serves (mk_server [] None) demo_trace = Some (server_of s) /\
  pushed demo_trace = ended demo_trace ++ option_list (current (server_of s)) ++ waiting (server_of s) /\
  (Broken ∉ pumps s) /\ (length (pumps s) <= 1)%nat.
Proof.
  destruct (demo_exec All) as [s Hs]. exists s. exact (serial_queue_refines All demo_trace s Hs).
Defined.

(** C37: the two modes cannot be told apart by who is called when: an order of
    enqueues, task starts and task ends is possible in one if and only if it is
    in the other, namely if the one-server specification allows it. *)
Theorem serial_modes_equivalent (tr : list event) :
  ((exists s, exec Single start tr s) <-> (exists s, exec All start tr s)) /\
  ((exists s, exec Single start tr s) <-> is_Some (serves (mk_server [] None) tr)).
Proof.
  assert (H : forall mode, (exists s, exec mode start tr s) <-> is_Some (serves (mk_server [] None) tr)).
  { intros mode. split.
    - intros [s Hx]. destruct (exec_serves _ _ _ _ Hx serial_inv_start) as [_ H]. by exists (server_of s).
    - intros [v Hv]. by apply (serves_exec mode tr start v serial_inv_start). }
  split; [by rewrite !H|by apply H].
Qed.

(** Nothing enqueued is forgotten: if nobody calls any more, the callers
    under way and the executor make a bounded number of steps, and where they
    stop every task ever enqueued has been run, in order, and the queue is not
    running, so that the next [enqueue] starts it again. *)
Theorem serial_queue_drains (mode : schedule_mode) (tr : list event) (s s' : state) (n : nat) :
  exec mode start tr s -> nsteps (internal mode) n s s' ->
  n <= weight s /\
  ((forall s'', ~ internal mode s' s'') ->
     exists tr', exec mode s tr' s' /\ ended (tr ++ tr') = pushed (tr ++ tr') /\
       running (object s') = false /\ callers s' = []).
Proof.
  intros Hx Hn. destruct (exec_serves _ _ _ _ Hx serial_inv_start) as [Hi _].
  destruct (internal_bounded _ _ _ _ Hn Hi) as [Hi' Hb]. split; [lia|]. intros Hstuck.
  destruct (internal_exec _ _ _ _ Hn) as [tr' Hx']. exists tr'.
  pose proof (serial_stuck _ _ Hi' Hstuck) as ->. split_and!; [done| |done..].
  destruct (exec_serves _ _ _ _ (exec_app _ _ _ _ _ _ Hx Hx') serial_inv_start) as [_ Hs].
  pose proof (serves_fifo _ _ _ Hs) as H. cbn in H. by rewrite app_nil_r in H.
Qed.

Lemma serial_queue_drains_witness : exists s,
  0 <= weight s /\
  ((forall s'', ~ internal Single s s'') ->
     exists tr', exec Single s tr' s /\ ended (demo_trace ++ tr') = pushed (demo_trace ++ tr') /\
       running (object s) = false /\ callers s = []).
Proof.
  destruct (demo_exec Single) as [s Hs]. exists s.
  apply (serial_queue_drains Single demo_trace s s 0 Hs). apply nsteps_O.
Defined.
