(* ===== verification/TaskSystem.v ===== *)
(** * The priority task system

    Model of the portable task system of [stlab]'s [default_executor.hpp]
    ([deps/clean_stlab]): [notification_queue], a deque under a mutex, and
    [priority_task_system], one worker thread per processor over three rows of
    such queues, workers taking tasks from their neighbours' queues too. The
    critical sections of a queue touch nothing else and are one step each; an
    attempt to lock may fail, for contention or for no reason. Everything else
    interleaves: the calls of [execute], the workers, the destructor. Only
    worker [i] locks the mutex of its context, so the lock is not modelled; that
    nobody else does is what makes wake-ups get lost. *)

From S2P Require Import Prelude.
Local Open Scope nat_scope.

(** ** The queues *)

(** [try_pop] with the mutex obtained, and [pop]. *)
Definition pop (q : list nat) : option (nat * list nat) :=
  match q with
  | [] => None
  | x :: q' => Some (x, q')
  end.
Definition try_pop (locked : bool) (q : list nat) : option (nat * list nat) :=
  if locked then pop q else None.

(** [push], and [try_push], whose answer is whether it pushed. *)
Definition push (f : nat) (q : list nat) : list nat := q ++ [f].
Definition try_push (locked : bool) (f : nat) (q : list nat) : option (list nat) :=
  if locked then Some (push f q) else None.

(** ** The threads

    A worker: about to try queue [n] places after its own in row [p]; holding a
    task it will call; at the lock of its context after a sweep that found
    nothing; past the test of [_done], before the wait; waiting; at the last test
    of [_done]; returned. *)
Inductive worker :=
  | Scanning (p n : nat) | Got (f : nat) | Locking | BeforeWait | Waiting | AtDone | Exited.

(** A call of [execute<p>(f)]: before [_index++]; with ticket [i], about to try the
    [n]-th queue; about to notify context [k]; returned; divided by zero. *)
Inductive client :=
  | Execute (p f : nat) | Trying (p f : nat) (i : Z) (n : nat) | Notifying (k : nat) | Returned | Crashed.

(** The destructor: not called; about to notify context [k]; joining thread [k]
    (past the last: returned). *)
Inductive destructor := Alive | NotifyAll (k : nat) | Join (k : nat).

#[global] Instance worker_eq_dec : EqDecision worker.
Proof. solve_decision. Defined.
#[global] Instance client_eq_dec : EqDecision client.
Proof. solve_decision. Defined.
#[global] Instance destructor_eq_dec : EqDecision destructor.
Proof. solve_decision. Defined.

(** [_q] row by row in one list, [_index], [_done], the threads, and what the
    workers have executed. *)
Record state := mk_state {
  queues : list (list nat);
  index : Z;
  done : bool;
  workers : list worker;
  clients : list client;
  dtor : destructor;
  executed : list nat
}.
#[global] Instance state_eq_dec : EqDecision state.
Proof. solve_decision. Defined.

(** [notify_all] on a context only its own worker waits on; a wake-up for no
    reason is the same. *)
Definition notify (w : worker) : worker := match w with Waiting => Scanning 0 0 | _ => w end.

Section task_system.
(** [std::thread::hardware_concurrency()]. *)
Context (count : nat).

Definition spin : nat := if count <? 64 then 64 else count.
(** [_spin / _count]: how many queues of a row a sweep looks at. *)
Definition reach : nat := spin / count.
(** The place of [_q[p][n]]. *)
Definition slot (p n : nat) : nat := p * count + n.

(** The head of the inner loop of [run]: the next queue to try after [n] places
    in row [p], or the end of the sweep. *)
Definition scan_from (p n : nat) : worker :=
  if n <? reach then Scanning p n else if p <? 2 then Scanning (S p) 0 else Locking.

(** One step of [run(i)]. *)
Definition step_worker (i : nat) (lucky : bool) (s : state) : option state :=
  let moves w := mk_state (queues s) (index s) (done s) (<[i := w]> (workers s)) (clients s) (dtor s) (executed s) in
  match workers s !! i with
  | Some (Scanning p n) =>
      let k := slot p ((i + n) mod count) in
      match queues s !! k with
      | Some q =>
          match try_pop lucky q with
          | Some (f, q') =>
              Some (mk_state (<[k := q']> (queues s)) (index s) (done s) (<[i := Got f]> (workers s))
                      (clients s) (dtor s) (executed s))
          | None => Some (moves (scan_from p (S n)))
          end
      | None => None
      end
  | Some (Got f) =>
      Some (mk_state (queues s) (index s) (done s) (<[i := Scanning 0 0]> (workers s)) (clients s) (dtor s)
              (executed s ++ [f]))
  | Some Locking => Some (moves (if done s then AtDone else BeforeWait))
  | Some BeforeWait => Some (moves Waiting)
  | Some AtDone => Some (moves (if done s then Exited else Scanning 0 0))
  | Some Waiting | Some Exited | None => None
  end.

(** The queue of a row that a call with ticket [i] uses in its [n]-th attempt; the last one waits for the lock. *)
Definition last_try (n : nat) : bool := negb (n <? reach).
Definition ticket (i : Z) (n : nat) : nat :=
  Z.to_nat ((if last_try n then i else u32 (i + Z.of_nat n)) mod Z.of_nat count).

(** One step of a call of [execute]. *)
Definition step_client (c : nat) (lucky : bool) (s : state) : option state :=
  let moves x := mk_state (queues s) (index s) (done s) (workers s) (<[c := x]> (clients s)) (dtor s) (executed s) in
  match clients s !! c with
  | Some (Execute p f) =>
      Some (mk_state (queues s) (u32 (index s + 1)) (done s) (workers s)
              (<[c := if count =? 0 then Crashed else Trying p f (index s) 0]> (clients s)) (dtor s) (executed s))
  | Some (Trying p f i n) =>
      let m := ticket i n in
      match queues s !! slot p m with
      | Some q =>
          match (if last_try n then Some (push f q) else try_push lucky f q) with
          | Some q' =>
              Some (mk_state (<[slot p m := q']> (queues s)) (index s) (done s) (workers s)
                      (<[c := Notifying m]> (clients s)) (dtor s) (executed s))
          | None => Some (moves (Trying p f i (S n)))
          end
      | None => None
      end
  | Some (Notifying k) =>
      Some (mk_state (queues s) (index s) (done s) (alter notify k (workers s)) (<[c := Returned]> (clients s))
              (dtor s) (executed s))
  | Some Returned | Some Crashed | None => None
  end.

(** One step of [~priority_task_system()]. *)
Definition step_dtor (s : state) : option state :=
  match dtor s with
  | Alive => None
  | NotifyAll k =>
      Some (mk_state (queues s) (index s) (done s) (alter notify k (workers s)) (clients s)
              (if S k <? count then NotifyAll (S k) else Join 0) (executed s))
  | Join k =>
      match workers s !! k with
      | Some Exited => Some (mk_state (queues s) (index s) (done s) (workers s) (clients s) (Join (S k)) (executed s))
      | _ => None
      end
  end.

Inductive step : state -> state -> Prop :=
  | step_by_worker i lucky s s' : step_worker i lucky s = Some s' -> step s s'
  | step_by_client c lucky s s' : step_client c lucky s = Some s' -> step s s'
  | step_by_dtor s s' : step_dtor s = Some s' -> step s s'.

(** The destructor is called, its first act being [_done = true]; a wait ends for
    no reason. *)
Definition destroy (s : state) : state :=
  match dtor s with
  | Alive => mk_state (queues s) (index s) true (workers s) (clients s)
               (if 0 <? count then NotifyAll 0 else Join 0) (executed s)
  | _ => s
  end.
Definition wake (i : nat) (s : state) : state :=
  mk_state (queues s) (index s) (done s) (alter notify i (workers s)) (clients s) (dtor s) (executed s).
Inductive any_step : state -> state -> Prop :=
  | any_thread s s' : step s s' -> any_step s s'
  | any_destroy s : any_step s (destroy s)
  | any_wake i s : any_step s (wake i s).

(** The constructor, and the calls that will be made: row and task. *)
Definition start (calls : list (nat * nat)) : state :=
  mk_state (replicate (3 * count) []) 0 false (replicate count (Scanning 0 0))
    ((fun '(p, f) => Execute p f) <$> calls) Alive [].

(** ** Specification *)

(** The queues a sweep of worker [i] looks at, in order, from place [n] of row [p]. *)
Definition row (i p n : nat) : list nat := (fun m => slot p ((i + m) mod count)) <$> seq n (reach - n).
Definition order_from (i p n : nat) : list nat :=
  row i p n ++ concat ((fun r => row i r 0) <$> seq (S p) (2 - p)).

(** The first of these that holds a task. *)
Fixpoint first_task (ks : list nat) (qs : list (list nat)) : option (nat * nat * list nat) :=
  match ks with
  | [] => None
  | k :: ks' =>
      match qs !! k with
      | Some (f :: q') => Some (k, f, q')
      | _ => first_task ks' qs
      end
  end.

(** What the threads hold: a worker's task, the task of a call not pushed yet. *)
Definition in_hand (w : worker) : list nat := match w with Got f => [f] | _ => [] end.
Definition pending (c : client) : list nat :=
  match c with Execute _ f | Trying _ f _ _ => [f] | _ => [] end.

Definition worker_ok (d : bool) (w : worker) : Prop :=
  match w with
  | Scanning p n => p < 3 /\ n < reach
  | AtDone | Exited => d = true
  | _ => True
  end.
Definition client_ok (c : client) : Prop :=
  match c with
  | Execute p _ => p < 3
  | Trying p _ i n => p < 3 /\ (0 <= i)%Z /\ n <= reach
  | Notifying k => k < count
  | Returned => True
  | Crashed => count = 0
  end.
Definition dtor_ok (s : state) : Prop :=
  match dtor s with
  | Alive => done s = false
  | NotifyAll k => done s = true /\ k < count
  | Join k => done s = true /\ k <= count
  end.

Record inv (calls : list (nat * nat)) (s : state) : Prop := mk_inv {
  inv_queues : length (queues s) = 3 * count;
  inv_workers : length (workers s) = count;
  inv_index : (0 <= index s)%Z;
  inv_worker_ok : Forall (worker_ok (done s)) (workers s);
  inv_client_ok : Forall client_ok (clients s);
  inv_dtor : dtor_ok s;
  inv_tasks : forall f, occ f (executed s) + occs f in_hand (workers s) + occs f (fun q => q) (queues s)
                        + occs f pending (clients s) = occ f (snd <$> calls)
}.

(** At rest: every call has returned, and every worker waits or has left. *)
Definition at_rest (s : state) : Prop :=
  Forall (fun c => c = Returned) (clients s) /\
  Forall (fun w => w = Waiting \/ w = Exited) (workers s) /\
  (dtor s = Alive \/ dtor s = Join count \/
   exists k, dtor s = Join k /\ workers s !! k = Some Waiting).

(** ** Lemmas *)

Context (count_pos : 0 < count).

Lemma reach_pos : 0 < reach.
Proof.
  unfold reach, spin. apply Nat.div_str_pos. destruct (Nat.ltb_spec count 64); lia.
Qed.

Lemma slot_range p n : p < 3 -> n < count -> slot p n < 3 * count.
Proof. unfold slot. nia. Qed.

Lemma scan_ok d p n : p < 3 -> worker_ok d (scan_from p n).
Proof.
  intros Hp. unfold scan_from. pose proof reach_pos.
  destruct (Nat.ltb_spec n reach); [done|]. destruct (Nat.ltb_spec p 2); [|done]. split; lia.
Qed.

Lemma notify_ok d w : worker_ok d w -> worker_ok d (notify w).
Proof. destruct w; try done. split; [lia|apply reach_pos]. Qed.

Lemma alter_notify (k : nat) (ws : list worker) : alter notify k ws = ws \/ (ws !! k = Some Waiting /\ alter notify k ws = <[k := Scanning 0 0]> ws).
Proof.
  destruct (ws !! k) as [w|] eqn:E.
  - rewrite (alter_at notify k ws w E). destruct (decide (w = Waiting)) as [->|Hn]; [by right|left].
    replace (notify w) with w by (by destruct w). by apply list_insert_id.
  - left. apply list_eq. intros j. destruct (decide (j = k)) as [->|Hj].
    + by rewrite list_lookup_alter_eq, E.
    + by rewrite list_lookup_alter_ne by done.
Qed.

Lemma tasks_inv_start calls : Forall (fun c => c.1 < 3) calls -> inv calls (start calls).
Proof.
  intros Hp. pose proof reach_pos. constructor; cbn; try lia.
  - by rewrite length_replicate.
  - by rewrite length_replicate.
  - apply Forall_replicate. split; lia.
  - apply Forall_fmap. by eapply Forall_impl; [exact Hp|intros []].
  - intros f. assert (Hw : forall n, occs f in_hand (replicate n (Scanning 0 0)) = 0) by (by induction n).
    assert (Hq : forall n, occs f (fun q => q) (replicate n []) = 0) by (by induction n).
    rewrite Hw. change (count + (count + (count + 0))) with (3 * count). rewrite Hq. cbn.
    clear Hp Hw Hq. induction calls as [|[p g] cs IH]; [done|].
    rewrite !fmap_cons, occs_cons. cbn [pending snd].
    rewrite (occ_cons f g cs.*2), occ_nil in *. lia.
Qed.

Section steps.
Context (calls : list (nat * nat)).

(** Only thread states change, and no task changes hands. *)
Lemma inv_move_worker s i w w' : inv calls s -> workers s !! i = Some w -> in_hand w' = in_hand w ->
  worker_ok (done s) w' ->
  inv calls (mk_state (queues s) (index s) (done s) (<[i := w']> (workers s)) (clients s) (dtor s) (executed s)).
Proof.
  intros [] Hi Hh Hok. constructor; cbn; try done.
  - by rewrite length_insert.
  - by apply Forall_set.
  - intros f. pose proof (occs_insert f in_hand _ _ _ w' Hi). rewrite Hh in *. specialize (inv_tasks0 f). lia.
Qed.

Lemma inv_move_client s c x x' i' : inv calls s -> clients s !! c = Some x -> pending x' = pending x ->
  client_ok x' -> (0 <= i')%Z ->
  inv calls (mk_state (queues s) i' (done s) (workers s) (<[c := x']> (clients s)) (dtor s) (executed s)).
Proof.
  intros [] Hi Hh Hok Hi'. constructor; cbn; try done.
  - by apply Forall_set.
  - intros f. pose proof (occs_insert f pending _ _ _ x' Hi). rewrite Hh in *. specialize (inv_tasks0 f). lia.
Qed.

Lemma inv_notify s k : inv calls s -> inv calls (wake k s).
Proof.
  intros Hi. unfold wake. destruct (alter_notify k (workers s)) as [->|[Hk ->]]; [by destruct s|].
  apply (inv_move_worker s k Waiting); [done..|]. split; [lia|apply reach_pos].
Qed.

Lemma inv_dtor_move s d : inv calls s -> dtor_ok (mk_state (queues s) (index s) (done s) (workers s) (clients s) d (executed s)) ->
  inv calls (mk_state (queues s) (index s) (done s) (workers s) (clients s) d (executed s)).
Proof. by intros [] Hd. Qed.

Lemma worker_ok_at s i w : inv calls s -> workers s !! i = Some w -> worker_ok (done s) w.
Proof. intros Hi Hw. by apply (Forall_lookup_1 _ _ _ _ (inv_worker_ok _ _ Hi) Hw). Qed.
Lemma client_ok_at s c x : inv calls s -> clients s !! c = Some x -> client_ok x.
Proof. intros Hi Hx. by apply (Forall_lookup_1 _ _ _ _ (inv_client_ok _ _ Hi) Hx). Qed.

Lemma inv_step_worker s s' i lucky : inv calls s -> step_worker i lucky s = Some s' -> inv calls s'.
Proof.
  intros Hi Hs. unfold step_worker in Hs.
  destruct (workers s !! i) as [w|] eqn:Hw; [|done]. pose proof (worker_ok_at s i w Hi Hw) as Hok.
  destruct w as [p n|f| | | | |]; try done.
  - destruct (queues s !! _) as [q|] eqn:Hq; [|done].
    assert (Hskip : inv calls (mk_state (queues s) (index s) (done s) (<[i:=scan_from p (S n)]> (workers s)) (clients s) (dtor s) (executed s))).
    { apply (inv_move_worker s i _ _ Hi Hw); [|by apply scan_ok, Hok]. unfold scan_from.
      destruct (S n <? reach); [done|]. by destruct (p <? 2). }
    destruct lucky; cbn in Hs; [|by simplify_eq]. destruct q as [|f q]; cbn in Hs; simplify_eq; [done|].
    clear Hskip. destruct Hi. constructor; cbn; try done; rewrite ?length_insert; try done.
    + by apply Forall_set.
    + intros g. pose proof (occs_insert g in_hand _ _ _ (Got f) Hw). pose proof (occs_insert g (fun q => q) _ _ _ q Hq) as H2.
      cbn beta in H2. rewrite (occ_cons g f q) in H2. cbn [in_hand] in *. specialize (inv_tasks0 g).
      rewrite ?occ_nil in *. lia.
  - simplify_eq. destruct Hi. constructor; cbn; try done; rewrite ?length_insert; try done.
    + apply Forall_set; [done|]. split; [lia|apply reach_pos].
    + intros g. pose proof (occs_insert g in_hand _ _ _ (Scanning 0 0) Hw). specialize (inv_tasks0 g).
      rewrite occ_app. cbn [in_hand] in *. rewrite ?occ_nil in *. lia.
  - simplify_eq. apply (inv_move_worker s i _ _ Hi Hw); destruct (done s); done.
  - simplify_eq. by apply (inv_move_worker s i _ _ Hi Hw).
  - simplify_eq. cbn in Hok. by apply (inv_move_worker s i _ _ Hi Hw); destruct (done s).
Qed.

Lemma ticket_range i n : ticket i n < count.
Proof. unfold ticket. pose proof (Z.mod_pos_bound (if last_try n then i else u32 (i + Z.of_nat n)) (Z.of_nat count)). lia. Qed.

Lemma inv_step_client s s' c lucky : inv calls s -> step_client c lucky s = Some s' -> inv calls s'.
Proof.
  intros Hi Hs. unfold step_client in Hs.
  destruct (clients s !! c) as [x|] eqn:Hx; [|done]. pose proof (client_ok_at s c x Hi Hx) as Hok.
  destruct x as [p f|p f i n|k| |]; try done.
  - simplify_eq. replace (count =? 0) with false by (symmetry; apply Nat.eqb_neq; lia).
    apply (inv_move_client s c _ _ _ Hi Hx); [done| |apply u32_range]. cbn. pose proof (inv_index _ _ Hi). pose proof reach_pos. split_and!; [done|done|lia].
  - destruct Hok as (Hp & Hz & Hn). pose proof (ticket_range i n) as Hm.
    set (m := ticket i n) in *. clearbody m. unfold last_try in Hs. destruct (queues s !! slot p m) as [q|] eqn:Hq; [|done].
    destruct (if negb (n <? reach) then _ else _) as [q'|] eqn:E; simplify_eq.
    + assert (q' = q ++ [f]) as ->.
      { destruct (negb (n <? reach)), lucky; cbn in E; by simplify_eq. }
      destruct Hi. constructor; cbn; try done; rewrite ?length_insert; try done.
      * by apply Forall_set.
      * intros g. pose proof (occs_insert g pending _ _ _ (Notifying m) Hx).
        pose proof (occs_insert g (fun q => q) _ _ _ (q ++ [f]) Hq) as H2. cbn beta in H2. rewrite occ_app in H2.
        cbn [pending] in *. specialize (inv_tasks0 g). rewrite ?occ_nil in *. lia.
    + apply (inv_move_client s c _ _ _ Hi Hx); [done| |apply Hi]. split_and!; [done..|].
      destruct (Nat.ltb_spec n reach); [lia|done].
  - simplify_eq. pose proof (inv_notify s k Hi) as Hi'.
    by apply (inv_move_client (wake k s) c (Notifying k) Returned (index s) Hi' Hx); [..|apply Hi].
Qed.

Lemma inv_step_dtor s s' : inv calls s -> step_dtor s = Some s' -> inv calls s'.
Proof.
  intros Hi Hs. unfold step_dtor in Hs. pose proof (inv_dtor _ _ Hi) as Hd. unfold dtor_ok in Hd.
  destruct (dtor s) as [|k|k] eqn:E; [done|..].
  - simplify_eq. destruct Hd as [Hd Hk]. apply (inv_dtor_move (wake k s)); [by apply inv_notify|].
    unfold dtor_ok. cbn [dtor done]. destruct (Nat.ltb_spec (S k) count); split; done || lia.
  - destruct Hd as [Hd _]. destruct (workers s !! k) as [[]|] eqn:Hw; simplify_eq.
    apply inv_dtor_move; [done|]. split; [done|].
    apply lookup_lt_Some in Hw. rewrite (inv_workers _ _ Hi) in Hw. lia.
Qed.

Lemma worker_ok_done d w : worker_ok d w -> worker_ok true w.
Proof. by destruct w. Qed.

Lemma inv_destroy s : inv calls s -> inv calls (destroy s).
Proof.
  intros Hi. unfold destroy. destruct (dtor s) eqn:E; try done. destruct Hi.
  constructor; cbn [queues workers index done clients dtor executed]; try done.
  - eapply Forall_impl; [exact inv_worker_ok0|]. intros w. apply worker_ok_done.
  - unfold dtor_ok. cbn [dtor done]. destruct (Nat.ltb_spec 0 count); split; done || lia.
Qed.

Lemma tasks_inv_step s s' : inv calls s -> step s s' -> inv calls s'.
Proof. intros Hi Hs. destruct Hs; eauto using inv_step_worker, inv_step_client, inv_step_dtor. Qed.

Lemma tasks_inv_reachable s : Forall (fun c => c.1 < 3) calls -> rtc any_step (start calls) s -> inv calls s.
Proof.
  intros Hp Hr. pose proof (tasks_inv_start calls Hp) as H0. revert H0.
  induction Hr as [|s1 s2 s3 Hs _ IH]; intros H0; [done|]. apply IH.
  destruct Hs as [s1 s2 Hs|s1|i s1]; [by apply (tasks_inv_step s1)|by apply inv_destroy|by apply inv_notify].
Qed.
End steps.

(** *** Termination without spurious wake-ups *)

(** Upper bound on the steps left: the rest of a sweep, a further sweep for every
    task and for every notification to come. *)
Definition worker_weight (w : worker) : nat :=
  match w with
  | Scanning p n => (3 - p) * reach - n + 3
  | Got _ => 3 * reach + 4
  | Locking => 3
  | BeforeWait | AtDone => 2
  | Waiting | Exited => 0
  end.
Definition client_weight (c : client) : nat :=
  match c with
  | Execute _ _ => 7 * reach + 7
  | Trying _ _ _ n => 6 * reach + 6 + (reach - n)
  | Notifying _ => 3 * reach + 4
  | Returned | Crashed => 0
  end.
Definition dtor_weight (d : destructor) : nat :=
  match d with
  | Alive => 0
  | NotifyAll k => (count - k) * (3 * reach + 4) + count + 1
  | Join k => count - k
  end.
Definition steps_left (s : state) : nat :=
  sum_list_with worker_weight (workers s) + sum_list_with client_weight (clients s)
  + sum_list_with (fun q => length q * (3 * reach + 1)) (queues s) + dtor_weight (dtor s).

Lemma scan_weight p n : p < 3 -> n < reach -> worker_weight (scan_from p (S n)) < worker_weight (Scanning p n).
Proof.
  intros Hp Hn. unfold scan_from. destruct (Nat.ltb_spec (S n) reach); [cbn; nia|].
  destruct (Nat.ltb_spec p 2); cbn; nia.
Qed.

Lemma tasks_notify_weight k ws :
  sum_list_with worker_weight (alter notify k ws) <= sum_list_with worker_weight ws + (3 * reach + 3).
Proof.
  destruct (alter_notify k ws) as [->|[Hk ->]]; [lia|].
  pose proof (sum_with_insert worker_weight _ _ _ (Scanning 0 0) Hk). cbn in *. lia.
Qed.

Lemma tasks_step_decreases calls s s' : inv calls s -> step s s' -> steps_left s' < steps_left s.
Proof.
  intros Hi Hs. unfold steps_left. destruct Hs as [i lucky s s' Hs|c lucky s s' Hs|s s' Hs].
  - unfold step_worker in Hs. destruct (workers s !! i) as [w|] eqn:Hw; [|done].
    pose proof (worker_ok_at calls s i w Hi Hw) as Hok.
    pose proof (fun w' => sum_with_insert worker_weight _ _ _ w' Hw) as Hsum.
    destruct w as [p n|f| | | | |]; try done.
    + destruct Hok as [Hp Hn]. destruct (queues s !! _) as [q|] eqn:Hq; [|done].
      pose proof (scan_weight p n Hp Hn). pose proof (Hsum (scan_from p (S n))).
      destruct (try_pop lucky q) as [[f q']|] eqn:E; simplify_eq; cbn [workers clients queues dtor]; [|lia].
      destruct lucky, q as [|g q2]; cbn in E; simplify_eq.
      pose proof (sum_with_insert (fun q => length q * (3 * reach + 1)) _ _ _ q' Hq) as H2.
      pose proof (Hsum (Got f)). cbn [length worker_weight] in *. nia.
    + simplify_eq. cbn [workers clients queues dtor]. specialize (Hsum (Scanning 0 0)). cbn [worker_weight] in *. lia.
    + simplify_eq. cbn [workers clients queues dtor]. destruct (done s); [pose proof (Hsum AtDone)|pose proof (Hsum BeforeWait)];
        cbn [worker_weight] in *; lia.
    + simplify_eq. cbn [workers clients queues dtor]. specialize (Hsum Waiting). cbn [worker_weight] in *. lia.
    + cbn in Hok. rewrite Hok in Hs. simplify_eq. cbn [workers clients queues dtor]. specialize (Hsum Exited).
      cbn [worker_weight] in *. lia.
  - unfold step_client in Hs. destruct (clients s !! c) as [x|] eqn:Hx; [|done].
    pose proof (client_ok_at calls s c x Hi Hx) as Hok.
    pose proof (fun x' => sum_with_insert client_weight _ _ _ x' Hx) as Hsum.
    destruct x as [p f|p f i n|k| |]; try done.
    + simplify_eq. cbn [workers clients queues dtor]. destruct (count =? 0).
      * pose proof (Hsum Crashed). cbn [client_weight] in *. lia.
      * specialize (Hsum (Trying p f (index s) 0)). cbn [client_weight] in *. lia.
    + destruct (queues s !! slot p _) as [q|] eqn:Hq; [|done]. destruct Hok as (_ & _ & Hn).
      unfold last_try in Hs. destruct (Nat.ltb_spec n reach) as [Hlt|Hge]; cbn [negb] in *;
        [destruct lucky; cbn in Hs|]; simplify_eq; cbn [workers clients queues dtor];
        try (pose proof (Hsum (Trying p f i (S n))); cbn [client_weight] in *; lia);
        pose proof (sum_with_insert (fun q => length q * (3 * reach + 1)) _ _ _ (push f q) Hq) as H2;
        cbn beta in H2; unfold push in *; rewrite length_app in H2; cbn [length] in H2;
        (match goal with |- context [Notifying ?m] => specialize (Hsum (Notifying m)) end);
        cbn [client_weight] in *; nia.
    + simplify_eq. cbn [workers clients queues dtor]. pose proof (tasks_notify_weight k (workers s)).
      specialize (Hsum Returned). cbn [client_weight] in *. lia.
  - unfold step_dtor in Hs. pose proof (inv_dtor _ _ Hi) as Hd. unfold dtor_ok in Hd.
    destruct (dtor s) as [|k|k]; [done|..].
    + simplify_eq. cbn [workers clients queues dtor]. pose proof (tasks_notify_weight k (workers s)). destruct Hd as [_ Hk].
      destruct (Nat.ltb_spec (S k) count); cbn [dtor_weight]; nia.
    + destruct (workers s !! k) as [[]|] eqn:Hw; simplify_eq. cbn [workers clients queues dtor dtor_weight].
      apply lookup_lt_Some in Hw. rewrite (inv_workers _ _ Hi) in Hw. lia.
Qed.

Lemma tasks_steps_bounded calls n s s' : inv calls s -> nsteps step n s s' ->
  inv calls s' /\ n + steps_left s' <= steps_left s.
Proof.
  intros Hi Hn. induction Hn as [s|n s1 s2 s3 Hs _ IH]; [split; [done|lia]|].
  destruct (IH (tasks_inv_step _ _ _ Hi Hs)). pose proof (tasks_step_decreases _ _ _ Hi Hs). split; [done|lia].
Qed.

Lemma queue_at calls s p m : inv calls s -> p < 3 -> m < count -> exists q, queues s !! slot p m = Some q.
Proof. intros Hi Hp Hm. apply lookup_lt_is_Some_2. rewrite (inv_queues _ _ Hi). by apply slot_range. Qed.

Lemma slot_row p m : p < 3 -> m < count -> slot p 0 <= slot p m < slot (S p) 0 /\ slot p m < 3 * count.
Proof. unfold slot. nia. Qed.
Lemma worker_steps calls s i w lucky : inv calls s -> workers s !! i = Some w -> w <> Waiting -> w <> Exited -> is_Some (step_worker i lucky s).
Proof.
  intros Hi Hw H1 H2. pose proof (worker_ok_at calls s i w Hi Hw) as Hok. unfold step_worker. rewrite Hw. destruct w as [p n|f| | | | |]; try done.
  destruct Hok as [Hp Hn]. destruct (queue_at _ _ p ((i + n) mod count) Hi Hp) as [q ->]; [apply Nat.mod_upper_bound; lia|]. by destruct (try_pop lucky q) as [[]|].
Qed.
Lemma client_steps calls s c x lucky : inv calls s -> clients s !! c = Some x -> x <> Returned -> is_Some (step_client c lucky s).
Proof.
  intros Hi Hx Hr. pose proof (client_ok_at calls s c x Hi Hx) as Hok. unfold step_client. rewrite Hx. destruct x as [p f|p f i n|k| |]; try done; [|cbn in Hok; lia].
  destruct Hok as [Hp _]. destruct (queue_at _ _ p (ticket i n) Hi Hp (ticket_range i n)) as [q ->]. by destruct (last_try n); [|destruct (try_push lucky f q)].
Qed.

Lemma worker_stuck calls s i w : inv calls s -> (forall s', ~ step s s') -> workers s !! i = Some w ->
  w = Waiting \/ w = Exited.
Proof.
  intros Hi Hstuck Hw. pose proof (worker_ok_at calls s i w Hi Hw) as Hok.
  assert (Hc : step_worker i true s = None).
  { destruct (step_worker i true s) eqn:E; [|done]. destruct (Hstuck s0). by apply (step_by_worker i true). }
  unfold step_worker in Hc. rewrite Hw in Hc. destruct w as [p n|f| | | | |]; try done; [|by left|by right].
  destruct Hok as [Hp Hn]. destruct (queue_at _ _ p ((i + n) mod count) Hi Hp) as [q Hq].
  { apply Nat.mod_upper_bound. lia. }
  rewrite Hq in Hc. by destruct (try_pop true q) as [[]|].
Qed.

Lemma tasks_stuck calls s : inv calls s -> (forall s', ~ step s s') -> at_rest s.
Proof.
  intros Hi Hstuck. split_and!.
  - apply Forall_lookup. intros c x Hx. pose proof (client_ok_at calls s c x Hi Hx) as Hok.
    assert (Hc : step_client c true s = None).
    { destruct (step_client c true s) eqn:E; [|done]. destruct (Hstuck s0). by apply (step_by_client c true). }
    unfold step_client in Hc. rewrite Hx in Hc. destruct x as [p f|p f i n|k| |]; try done; [|cbn in Hok; lia].
    destruct Hok as (Hp & Hz & Hn). pose proof (ticket_range i n) as Hm.
    destruct (queue_at _ _ p _ Hi Hp Hm) as [q Hq]. rewrite Hq in Hc. by destruct (last_try n).
  - apply Forall_lookup. intros i w. by apply (worker_stuck calls).
  - assert (Hc : step_dtor s = None).
    { destruct (step_dtor s) eqn:E; [|done]. destruct (Hstuck s0). by apply step_by_dtor. }
    pose proof (inv_dtor _ _ Hi) as Hd. unfold dtor_ok in Hd. unfold step_dtor in Hc.
    destruct (dtor s) as [|k|k]; [by left|done|]. right. destruct Hd as [_ Hk].
    destruct (decide (k = count)) as [->|Hne]; [by left|right]. exists k. split; [done|].
    destruct (lookup_lt_is_Some_2 (workers s) k) as [w Hw]; [rewrite (inv_workers _ _ Hi); lia|].
    rewrite Hw in Hc |- *. by destruct (worker_stuck _ _ _ _ Hi Hstuck Hw) as [-> | ->].
Qed.

(** *** A sweep *)

Definition set_worker (i : nat) (w : worker) (s : state) : state :=
  mk_state (queues s) (index s) (done s) (<[i := w]> (workers s)) (clients s) (dtor s) (executed s).
Definition take_task (i k f : nat) (q : list nat) (s : state) : state :=
  mk_state (<[k := q]> (queues s)) (index s) (done s) (<[i := Got f]> (workers s)) (clients s) (dtor s) (executed s).
Definition undisturbed (i : nat) (s s' : state) : Prop := step_worker i true s = Some s'.

Lemma set_set_worker i w w' s : set_worker i w' (set_worker i w s) = set_worker i w' s.
Proof. unfold set_worker. cbn. by rewrite list_insert_insert_eq. Qed.
Lemma take_set_worker i w k f q s : take_task i k f q (set_worker i w s) = take_task i k f q s.
Proof. unfold take_task, set_worker. cbn. by rewrite list_insert_insert_eq. Qed.

Lemma order_cons i p n : n < reach -> order_from i p n = slot p ((i + n) mod count) :: order_from i p (S n).
Proof.
  intros Hn. unfold order_from, row. replace (reach - n) with (S (reach - S n)) by lia. done.
Qed.
Lemma order_next i p n : p < 3 -> n = reach ->
  order_from i p n = if p <? 2 then order_from i (S p) 0 else [].
Proof.
  intros Hp ->. unfold order_from, row. rewrite Nat.sub_diag. cbn [seq fmap list_fmap app].
  destruct (Nat.ltb_spec p 2); [|by replace (2 - p) with 0 by lia].
  by replace (2 - p) with (S (2 - S p)) by lia.
Qed.

Definition after_sweep (i : nat) (ks : list nat) (s : state) : state :=
  match first_task ks (queues s) with
  | Some (k, f, q) => take_task i k f q s
  | None => set_worker i Locking s
  end.

Lemma after_sweep_set i w ks s : after_sweep i ks (set_worker i w s) = after_sweep i ks s.
Proof.
  unfold after_sweep. change (queues (set_worker i w s)) with (queues s).
  destruct (first_task ks (queues s)) as [[[k f] q]|]; [apply take_set_worker|apply set_set_worker].
Qed.

Lemma sweep_from i (Hi : i < count) : forall k p n s, (3 - p) * reach - n = k ->
  length (queues s) = 3 * count -> length (workers s) = count -> p < 3 -> n < reach ->
  workers s !! i = Some (Scanning p n) -> rtc (undisturbed i) s (after_sweep i (order_from i p n) s).
Proof.
  induction k as [k IH] using lt_wf_ind. intros p n s <- Hq Hl Hp Hn Hw.
  rewrite order_cons by done. unfold after_sweep. cbn [first_task].
  destruct (lookup_lt_is_Some_2 (queues s) (slot p ((i + n) mod count))) as [q E].
  { rewrite Hq. apply slot_range; [done|]. apply Nat.mod_upper_bound. lia. }
  rewrite E. destruct q as [|f q].
  - assert (Hstep : undisturbed i s (set_worker i (scan_from p (S n)) s)).
    { unfold undisturbed, step_worker. by rewrite Hw, E. }
    eapply rtc_l; [exact Hstep|]. fold (after_sweep i (order_from i p (S n)) s).
    rewrite <- (after_sweep_set i (scan_from p (S n))).
    assert (Hw' : workers (set_worker i (scan_from p (S n)) s) !! i = Some (scan_from p (S n))).
    { cbn. apply list_lookup_insert_eq. by rewrite Hl. }
    assert (Hl' : length (workers (set_worker i (scan_from p (S n)) s)) = count) by (cbn; by rewrite length_insert).
    pose proof reach_pos. revert Hw' Hl'. unfold scan_from.
    destruct (Nat.ltb_spec (S n) reach) as [Hlt|Hge].
    + intros Hw' Hl'. apply (IH ((3 - p) * reach - S n)); done || nia.
    + rewrite (order_next i p (S n)) by lia. destruct (Nat.ltb_spec p 2) as [Hp2|Hp2].
      * intros Hw' Hl'. apply (IH ((3 - S p) * reach - 0)); done || nia.
      * intros _ _. rewrite after_sweep_set. apply rtc_refl.
  - apply rtc_once. unfold undisturbed, step_worker. by rewrite Hw, E.
Qed.

(** Every worker reaches every queue of a row only if there are at most eight. *)
Lemma reach_all : (forall i j, i < count -> j < count -> exists n, n < reach /\ (i + n) mod count = j) <-> count <= 8.
Proof.
  assert (Hr : count <= reach <-> count <= 8).
  { unfold reach, spin. pose proof (Nat.div_mod_eq (if count <? 64 then 64 else count) count).
    pose proof (Nat.mod_upper_bound (if count <? 64 then 64 else count) count).
    destruct (Nat.ltb_spec count 64); [split; nia|]. rewrite Nat.div_same by lia. lia. }
  rewrite <- Hr. split.
  - intros H. destruct (H 0 (count - 1)) as (n & Hn & E); [lia..|].
    destruct (Nat.lt_ge_cases n count) as [Hlt|]; [|lia]. rewrite Nat.mod_small in E by lia. lia.
  - intros Hc i j Hi Hj. destruct (Nat.le_gt_cases i j).
    + exists (j - i). split; [lia|]. replace (i + (j - i)) with j by lia. by apply Nat.mod_small.
    + exists (count + j - i). split; [lia|]. replace (i + (count + j - i)) with (j + 1 * count) by lia.
      rewrite Nat.Div0.mod_add. by apply Nat.mod_small.
Qed.

(** *** Lost wake-ups *)

Definition set_workers (ws : list worker) (s : state) : state :=
  mk_state (queues s) (index s) (done s) ws (clients s) (dtor s) (executed s).

(** The workers, one after the other, all make the same move. *)
Lemma workers_all w w' s :
  (forall i ws, i < count -> length ws = count -> ws !! i = Some w ->
     rtc step (set_workers ws s) (set_workers (<[i := w']> ws) s)) ->
  rtc step (set_workers (replicate count w) s) (set_workers (replicate count w') s).
Proof.
  intros H.
  assert (forall k, k <= count -> rtc step (set_workers (replicate count w) s)
    (set_workers (replicate k w' ++ replicate (count - k) w) s)) as Hk.
  { induction k as [|k IH]; intros Hk; [rewrite Nat.sub_0_r; apply rtc_refl|].
    etrans; [apply IH; lia|]. replace (count - k) with (S (count - S k)) by lia.
    rewrite (replicate_S_end k w'), <- app_assoc. cbn [replicate app].
    replace (replicate k w' ++ w' :: replicate (count - S k) w)
      with (<[k := w']> (replicate k w' ++ w :: replicate (count - S k) w)).
    - apply H; [lia|rewrite length_app; cbn; rewrite !length_replicate; lia|].
      by rewrite lookup_app_r, length_replicate, Nat.sub_diag by (rewrite length_replicate; lia).
    - rewrite insert_app_r_alt by (rewrite length_replicate; lia). by rewrite length_replicate, Nat.sub_diag. }
  specialize (Hk count (le_n _)). by rewrite Nat.sub_diag, app_nil_r in Hk.
Qed.

Lemma no_task ks n : first_task ks (replicate n []) = None.
Proof.
  induction ks as [|k ks IH]; [done|]. cbn. destruct (replicate n [] !! k) as [q|] eqn:E; [|done].
  apply lookup_replicate in E as [-> _]. done.
Qed.

(** With nothing queued every worker ends its sweep and is about to wait. *)
Lemma all_before_wait s : queues s = replicate (3 * count) [] -> done s = false ->
  rtc step (set_workers (replicate count (Scanning 0 0)) s) (set_workers (replicate count BeforeWait) s).
Proof.
  intros Hq Hd. apply workers_all. intros i ws Hi Hl Hw. pose proof reach_pos as Hr.
  assert (Hs : rtc (undisturbed i) (set_workers ws s) (set_workers (<[i := Locking]> ws) s)).
  { pose proof (sweep_from i Hi _ 0 0 (set_workers ws s) eq_refl) as H. unfold after_sweep in H. cbn in H.
    rewrite Hq, no_task in H. rewrite <- Hq in H. apply H; done || lia || by rewrite Hq, length_replicate. }
  etrans; [eapply rtc_subrel; [|exact Hs]; intros s1 s2 H; by apply (step_by_worker i true)|].
  apply rtc_once, (step_by_worker i true). unfold step_worker. cbn.
  rewrite list_lookup_insert_eq by lia. unfold set_workers. by rewrite Hd, list_insert_insert_eq.
Qed.

Lemma all_wait s : rtc step (set_workers (replicate count BeforeWait) s) (set_workers (replicate count Waiting) s).
Proof.
  apply workers_all. intros i ws Hi Hl Hw. apply rtc_once, (step_by_worker i true).
  unfold step_worker. cbn. by rewrite Hw.
Qed.

Lemma notify_replicate k n : alter notify k (replicate n BeforeWait) = replicate n BeforeWait.
Proof.
  destruct (alter_notify k (replicate n BeforeWait)) as [E|[E _]]; [done|].
  by apply lookup_replicate in E as [? _].
Qed.

Lemma all_waiting_stuck s : workers s = replicate count Waiting -> Forall (fun c => c = Returned) (clients s) ->
  dtor s = Alive \/ dtor s = Join 0 -> forall s', ~ step s s'.
Proof.
  intros Hw Hc Hd s' Hs. destruct Hs as [i lucky s s' Hs|c lucky s s' Hs|s s' Hs].
  - unfold step_worker in Hs. rewrite Hw in Hs. destruct (replicate count Waiting !! i) as [w|] eqn:E; [|done].
    by apply lookup_replicate in E as [-> _].
  - unfold step_client in Hs. destruct (clients s !! c) as [x|] eqn:E; [|done].
    by rewrite (Forall_lookup_1 _ _ _ _ Hc E) in Hs.
  - unfold step_dtor in Hs. destruct Hd as [Hd|Hd]; rewrite Hd in Hs; [done|]. rewrite Hw in Hs.
    destruct (replicate count Waiting !! 0) as [w|] eqn:E; [|done]. by apply lookup_replicate in E as [-> _].
Qed.

Lemma start_set_workers calls : start calls = set_workers (replicate count (Scanning 0 0)) (start calls).
Proof. done. Qed.

Lemma push_unnoticed p f : p < 3 -> exists s, rtc step (start [(p, f)]) s /\
  workers s = replicate count Waiting /\ clients s = [Returned] /\ dtor s = Alive /\
  queues s = <[slot p 0 := [f]]> (replicate (3 * count) []) /\ executed s = [].
Proof.
  intros Hp. pose proof reach_pos as Hr.
  set (s1 := set_workers (replicate count BeforeWait) (start [(p, f)])).
  set (qs := <[slot p 0 := [f]]> (replicate (3 * count) [])).
  set (s2 x q := mk_state q 1 false (replicate count BeforeWait) [x] Alive []).
  assert (H0 : rtc step (start [(p, f)]) s1) by (rewrite start_set_workers; by apply all_before_wait).
  assert (Hz : u32 (0 + Z.of_nat 0) = 0%Z) by done.
  assert (Hm : Z.to_nat (0 mod Z.of_nat count) = 0) by (by rewrite Zmod_0_l).
  assert (H1 : step s1 (s2 (Trying p f 0 0) (replicate (3 * count) []))).
  { apply (step_by_client 0 true). unfold step_client, s1, s2. cbn [set_workers clients lookup list_lookup start].
    replace (count =? 0) with false by (symmetry; apply Nat.eqb_neq; lia). done. }
  assert (H2 : step (s2 (Trying p f 0 0) (replicate (3 * count) [])) (s2 (Notifying 0) qs)).
  { apply (step_by_client 0 true). unfold step_client, s2. cbn [clients lookup list_lookup queues].
    unfold ticket, last_try. destruct (Nat.ltb_spec 0 reach); [|lia]. cbn [negb]. rewrite Hz, Hm.
    rewrite lookup_replicate_2 by (apply slot_range; lia). done. }
  assert (H3 : step (s2 (Notifying 0) qs) (s2 Returned qs)).
  { apply (step_by_client 0 true). unfold step_client, s2. cbn [clients lookup list_lookup workers].
    by rewrite notify_replicate. }
  exists (set_workers (replicate count Waiting) (s2 Returned qs)). split; [|done].
  etrans; [exact H0|]. eapply rtc_l; [exact H1|]. eapply rtc_l; [exact H2|].
  eapply rtc_l; [exact H3|]. apply (all_wait (s2 Returned qs)).
Qed.

Lemma destructor_unnoticed : exists s, rtc any_step (start []) s /\
  workers s = replicate count Waiting /\ clients s = [] /\ dtor s = Join 0.
Proof.
  set (s1 := set_workers (replicate count BeforeWait) (start [])).
  set (s2 d := mk_state (replicate (3 * count) []) 0 true (replicate count BeforeWait) [] d []).
  assert (H0 : rtc step (start []) s1) by (rewrite start_set_workers; by apply all_before_wait).
  assert (H1 : destroy s1 = s2 (NotifyAll 0)).
  { unfold destroy, s1. cbn [dtor set_workers start]. by destruct (Nat.ltb_spec 0 count); [|lia]. }
  assert (H2 : forall k j, count - j = k -> j < count -> rtc step (s2 (NotifyAll j)) (s2 (Join 0))).
  { induction k as [|k IH]; intros j Hk Hj; [lia|].
    assert (Hs : step (s2 (NotifyAll j)) (s2 (if S j <? count then NotifyAll (S j) else Join 0))).
    { apply step_by_dtor. unfold step_dtor, s2. cbn [dtor workers]. by rewrite notify_replicate. }
    eapply rtc_l; [exact Hs|]. destruct (Nat.ltb_spec (S j) count); [apply IH; lia|apply rtc_refl]. }
  assert (Hsub : forall s s', rtc step s s' -> rtc any_step s s') by (intros s s' H; by eapply rtc_subrel; [apply any_thread|]).
  exists (set_workers (replicate count Waiting) (s2 (Join 0))). split; [|done].
  etrans; [by apply Hsub, H0|]. eapply rtc_l; [apply any_destroy|]. rewrite H1.
  etrans; [apply Hsub, (H2 count 0); lia|]. apply Hsub, (all_wait (s2 (Join 0))).
Qed.
End task_system.

(** Two processors, three calls. *)
Definition demo_calls : list (nat * nat) := [(1, 10); (0, 20); (1, 30)].
Lemma demo_rows : Forall (fun c => c.1 < 3) demo_calls.
Proof. unfold demo_calls. repeat constructor. Qed.

(** ** Properties *)


(** Three calls; worker 1 takes a task of worker 0. *)
Inductive turn := Worker (i : nat) (lucky : bool) | Client (c : nat) (lucky : bool).
Definition take_turn (count : nat) (t : turn) (s : state) : option state :=
  match t with Worker i l => step_worker count i l s | Client c l => step_client count c l s end.
Fixpoint take_turns (count : nat) (ts : list turn) (s : state) : option state :=
  match ts with [] => Some s | t :: ts => s' ← take_turn count t s; take_turns count ts s' end.
Lemma tasks_turns_steps count ts : forall s s', take_turns count ts s = Some s' -> rtc (any_step count) s s'.
Proof.
  induction ts as [|t ts IH]; intros s s' H; cbn in H; [injection H as ->; apply rtc_refl|].
  destruct (take_turn count t s) as [s1|] eqn:Ht; [|done]. eapply rtc_l; [|by apply IH]. apply any_thread.
  destruct t; [by eapply step_by_worker|by eapply step_by_client].
Qed.
Definition demo_turns : list turn :=
  [Client 0 true; Client 0 true; Client 1 true; Client 1 false; Client 1 true; Worker 1 true; Worker 1 true; Worker 1 true].
Definition demo_state : state := default (start 2 demo_calls) (take_turns 2 demo_turns (start 2 demo_calls)).


(** Without spurious wake-ups every execution of the task system is finite,
    with an explicit bound. Where it stops every call has returned, every worker
    waits or has left, the destructor was not called, has returned, or waits for
    a worker that sleeps; and what was not executed is in the queues. *)
Theorem task_system_quiesces (count : nat) (calls : list (nat * nat)) (s s' : state) (n : nat) :
  0 < count -> Forall (fun c => c.1 < 3) calls -> rtc (any_step count) (start count calls) s ->
  nsteps (step count) n s s' ->
  n <= steps_left count s /\
  ((forall s'', ~ step count s' s'') ->
     at_rest count s' /\ executed s' ++ concat (queues s') ≡ₚ snd <$> calls).
Proof.
  intros Hc Hp Hr Hn. pose proof (tasks_inv_reachable count Hc calls s Hp Hr) as Hi.
  destruct (tasks_steps_bounded count Hc calls n s s' Hi Hn) as [Hi' Hb]. split; [lia|]. intros Hstuck.
  pose proof (tasks_stuck count Hc calls s' Hi' Hstuck) as Hrest. split; [done|].
  destruct Hrest as (Hcl & Hw & _). apply occ_permutation. intros f. pose proof (inv_tasks _ _ _ Hi' f) as H.
  assert (occs f in_hand (workers s') = 0) as E1.
  { clear -Hw. induction Hw as [|w ws [-> | ->] _ IH]; [done|..]; by rewrite occs_cons, IH. }
  assert (occs f pending (clients s') = 0) as E2.
  { clear -Hcl. induction Hcl as [|x xs -> _ IH]; [done|]. by rewrite occs_cons, IH. }
  pose proof (occ_concat f (fun q => q) (queues s')) as Hq. rewrite list_fmap_id in Hq.
  rewrite occ_app. lia.
Qed.

Lemma task_system_quiesces_witness :
  let s := start 2 demo_calls in
  0 <= steps_left 2 s /\
  ((forall s'', ~ step 2 s s'') -> at_rest 2 s /\ executed s ++ concat (queues s) ≡ₚ snd <$> demo_calls).
Proof.
  apply (task_system_quiesces 2 demo_calls (start 2 demo_calls) (start 2 demo_calls) 0);
    [lia|apply demo_rows|apply rtc_refl|apply nsteps_O].
Defined.

(** Wake-ups get lost, on any number of processors, because [push] and the
    destructor notify without the mutex the worker holds between its last look
    and its wait. A task pushed in that window stays in its queue while every
    worker sleeps and nothing but a spurious wake-up can happen; and a destructor
    that notifies in that window waits for ever for its first thread. *)
Theorem wakeups_get_lost (count p f : nat) :
  0 < count -> p < 3 ->
  (exists s, rtc (step count) (start count [(p, f)]) s /\
     clients s = [Returned] /\ executed s = [] /\ queues s !! slot count p 0 = Some [f] /\
     Forall (fun w => w = Waiting) (workers s) /\ (forall s', ~ step count s s')) /\
  (exists s, rtc (any_step count) (start count []) s /\
     dtor s = Join 0 /\ workers s !! 0 = Some Waiting /\ (forall s', ~ step count s s')).
Proof.
  intros Hc Hp. split.
  - destruct (push_unnoticed count Hc p f Hp) as (s & Hr & Hw & Hcl & Hd & Hq & He). exists s.
    split_and!; [done..| | |].
    + rewrite Hq. apply list_lookup_insert_eq. rewrite length_replicate. unfold slot. nia.
    + rewrite Hw. by apply Forall_replicate.
    + apply all_waiting_stuck; [done|rewrite Hcl; by constructor|by left].
  - destruct (destructor_unnoticed count Hc) as (s & Hr & Hw & Hcl & Hd). exists s. split_and!; [done..| |].
    + rewrite Hw. by apply lookup_replicate_2.
    + apply all_waiting_stuck; [done|rewrite Hcl; by constructor|by right].
Qed.

Lemma wakeups_get_lost_witness :
  (exists s, rtc (step 4) (start 4 [(1, 7)]) s /\
     clients s = [Returned] /\ executed s = [] /\ queues s !! slot 4 1 0 = Some [7] /\
     Forall (fun w => w = Waiting) (workers s) /\ (forall s', ~ step 4 s s')) /\
  (exists s, rtc (any_step 4) (start 4 []) s /\
     dtor s = Join 0 /\ workers s !! 0 = Some Waiting /\ (forall s', ~ step 4 s s')).
Proof. apply (wakeups_get_lost 4 1 7); lia. Defined.

(** A worker that nobody disturbs and whose attempts to lock succeed takes
    the first task, if there is one, in the order high, medium and low priority
    and, within a row, from its own queue on; if there is none in its reach it
    turns to its wait. *)
Theorem sweep_takes_first (count : nat) (s : state) (i : nat) :
  i < count -> length (queues s) = 3 * count -> length (workers s) = count ->
  workers s !! i = Some (Scanning 0 0) ->
  rtc (undisturbed count i) s
    (match first_task (order_from count i 0 0) (queues s) with
     | Some (k, f, q) => take_task i k f q s
     | None => set_worker i Locking s
     end).
Proof.
  intros Hi Hq Hl Hw. assert (Hc : 0 < count) by lia.
  apply (sweep_from count Hc i Hi _ 0 0 s eq_refl Hq Hl); [lia|by apply reach_pos|done].
Qed.

(** Worker 1 of two: medium priority in queue 0, low priority in its own queue. *)
Definition demo_queues : state :=
  mk_state [[]; []; [5]; []; []; [6]] 0 false [Waiting; Scanning 0 0] [] Alive [].
Lemma sweep_takes_first_witness :
  rtc (undisturbed 2 1) demo_queues (take_task 1 2 5 [] demo_queues).
Proof. apply (sweep_takes_first 2 demo_queues 1); [lia|done..]. Defined.

(** The bounds of a sweep: a worker looks at [_spin / _count] queues of each
    row, which are all of them exactly up to eight processors; and where the
    number of processors is unknown ([hardware_concurrency] answers 0) the first
    call divides by zero. *)
Theorem sweep_bounds (count : nat) :
  0 < count ->
  ((forall i j, i < count -> j < count -> exists n, n < reach count /\ (i + n) mod count = j) <-> count <= 8) /\
  (forall p f, step_client 0 0 true (start 0 [(p, f)])
     = Some (mk_state [] 1 false [] [Crashed] Alive [])).
Proof. intros Hc. split; [by apply reach_all|done]. Qed.

Lemma sweep_bounds_witness :
  ((forall i j, i < 16 -> j < 16 -> exists n, n < reach 16 /\ (i + n) mod 16 = j) <-> 16 <= 8) /\
  (forall p f, step_client 0 0 true (start 0 [(p, f)]) = Some (mk_state [] 1 false [] [Crashed] Alive [])).
Proof. apply (sweep_bounds 16). lia. Defined.
