(* ===== verification/SystemTimer.v ===== *)
(** * The system timer

    Model of the portable [system_timer] of [stlab]'s [system_timer.hpp]
    ([deps/clean_stlab]): a heap of tasks with their times under a mutex, one
    thread that sleeps until the first is due and runs it, callers that add to
    the heap, and the destructor. What is done between a lock (or the return of
    a wait) and the unlock (or the next wait) is one step; waits end by
    notification, by timeout, or for no reason; the clock never goes back. *)

From Stdlib Require Import Sorted.
From S2P Require Import Prelude.
Local Open Scope Z_scope.

(** ** The heap

    [element_t]: the time, in ticks of [steady_clock], and the task. *)
Definition element_t : Type := Z * nat.

(** What the C++ standard says of [std::push_heap] and [std::pop_heap] with
    [greater_first]: a heap has an element with the least time in front;
    [push_heap] takes in the last element; [pop_heap] moves the front to the back. *)
Class StdHeap := {
  is_heap : list element_t -> Prop;
  push_heap : list element_t -> list element_t;
  pop_heap : list element_t -> list element_t;
  is_heap_nil : is_heap [];
  is_heap_front x l : is_heap (x :: l) -> Forall (fun y => x.1 <= y.1) l;
  push_heap_perm l : push_heap l ≡ₚ l;
  push_heap_heap l x : is_heap l -> is_heap (push_heap (l ++ [x]));
  pop_heap_back x l : is_heap (x :: l) -> exists l', pop_heap (x :: l) = l' ++ [x] /\ l' ≡ₚ l /\ is_heap l'
}.

(** ** The threads

    The timer's thread: at the top of its loop; in the first wait; in the second,
    with its deadline; after either, wanting the lock; about to run a task; gone. *)
Inductive runner :=
  | Top | WaitEmpty | WaitUntil (t : Z) | WokenEmpty | WokenUntil | Run (e : element_t) | Exited.
(** A call of [operator()(duration, f)]: before it, after it; [Overflowed]: the sum
    of the clock and the duration left its type. *)
Inductive caller := Schedule (duration : Z) (f : nat) | Scheduled | Overflowed.
(** The destructor: not called; [_stop] set; having notified; after the join. *)
Inductive destructor := Alive | Stopped | Joining | Destroyed.

Record state := mk_state {
  timed_queue : list element_t;
  stop : bool;
  now : Z;
  thread : runner;
  callers : list caller;
  dtor : destructor;
  scheduled : list element_t;
  ran : list (Z * element_t)
}.

(** [_condition.notify_one()]: only the timer's thread waits. *)
Definition notify (r : runner) : runner :=
  match r with WaitEmpty => WokenEmpty | WaitUntil _ => WokenUntil | _ => r end.

Section timer.
Context `{StdHeap}.

Definition set_thread (q : list element_t) (r : runner) (s : state) : state :=
  mk_state q (stop s) (now s) r (callers s) (dtor s) (scheduled s) (ran s).

(** From the test of the clock to the next wait or to the unlock: [None] when
    the front or the back of an empty vector is taken. *)
Definition test_clock (s : state) : option state :=
  match timed_queue s with
  | [] => None
  | e :: _ =>
      if now s <? e.1 then Some (set_thread (timed_queue s) (WaitUntil e.1) s)
      else match last (pop_heap (timed_queue s)) with
           | None => None
           | Some task => Some (set_thread (removelast (pop_heap (timed_queue s))) (Run task) s)
           end
  end.

(** One step of [timed_queue_run]. *)
Definition step_thread (s : state) : option state :=
  match thread s with
  | Top | WokenEmpty =>
      match timed_queue s with
      | [] => Some (set_thread [] (if stop s then Exited else WaitEmpty) s)
      | _ => if stop s then Some (set_thread (timed_queue s) Exited s) else test_clock s
      end
  | WokenUntil => if stop s then Some (set_thread (timed_queue s) Exited s) else test_clock s
  | WaitUntil t => if t <=? now s then Some (set_thread (timed_queue s) WokenUntil s) else None
  | Run e =>
      Some (mk_state (timed_queue s) (stop s) (now s) Top (callers s) (dtor s) (scheduled s)
              (ran s ++ [(now s, e)]))
  | WaitEmpty | Exited => None
  end.

(** One step of a call of [operator()], all of it under the lock. *)
Definition step_caller (c : nat) (s : state) : option state :=
  match callers s !! c with
  | Some (Schedule duration f) =>
      if in_i64 (now s + duration) then
        let e := (now s + duration, f) in
        Some (mk_state (push_heap (timed_queue s ++ [e])) (stop s) (now s) (notify (thread s))
                (<[c := Scheduled]> (callers s)) (dtor s) (scheduled s ++ [e]) (ran s))
      else Some (mk_state (timed_queue s) (stop s) (now s) (thread s)
                   (<[c := Overflowed]> (callers s)) (dtor s) (scheduled s) (ran s))
  | _ => None
  end.

(** One step of [~system_timer()] after its first. *)
Definition step_dtor (s : state) : option state :=
  let moves r d := mk_state (timed_queue s) (stop s) (now s) r (callers s) d (scheduled s) (ran s) in
  match dtor s, thread s with
  | Stopped, r => Some (moves (notify r) Joining)
  | Joining, Exited => Some (moves Exited Destroyed)
  | _, _ => None
  end.

Inductive step : state -> state -> Prop :=
  | step_by_thread s s' : step_thread s = Some s' -> step s s'
  | step_by_caller c s s' : step_caller c s = Some s' -> step s s'
  | step_by_dtor s s' : step_dtor s = Some s' -> step s s'.

(** What happens around: time passes, a wait ends for no reason, the destructor
    is called and sets [_stop]. *)
Definition pass (d : Z) (s : state) : state :=
  mk_state (timed_queue s) (stop s) (now s + Z.max 0 d) (thread s) (callers s) (dtor s) (scheduled s) (ran s).
Definition wake (s : state) : state := set_thread (timed_queue s) (notify (thread s)) s.
Definition destroy (s : state) : state :=
  match dtor s with
  | Alive => mk_state (timed_queue s) true (now s) (thread s) (callers s) Stopped (scheduled s) (ran s)
  | _ => s
  end.
Inductive any_step : state -> state -> Prop :=
  | any_thread s s' : step s s' -> any_step s s'
  | any_time d s : any_step s (pass d s)
  | any_wake s : any_step s (wake s)
  | any_destroy s : any_step s (destroy s).

Definition start (t : Z) (calls : list caller) : state := mk_state [] false t Top calls Alive [] [].

(** ** Specification *)

Definition in_hand (r : runner) : list element_t := match r with Run e => [e] | _ => [] end.
Definition waiting (r : runner) : bool := match r with WaitEmpty | WaitUntil _ => true | _ => false end.

Record inv (s : state) : Prop := mk_inv {
  inv_heap : is_heap (timed_queue s);
  inv_tasks : (ran s).*2 ++ in_hand (thread s) ++ timed_queue s ≡ₚ scheduled s;
  inv_due : Forall (fun r => r.2.1 <= r.1) (ran s);
  inv_hand : Forall (fun e => e.1 <= now s) (in_hand (thread s));
  inv_empty : thread s = WaitEmpty -> timed_queue s = [];
  inv_until t : thread s = WaitUntil t -> exists f l, timed_queue s = (t, f) :: l;
  inv_woken : thread s = WokenUntil -> timed_queue s <> [];
  inv_stop : stop s = true <-> dtor s <> Alive;
  inv_notify : stop s = true -> waiting (thread s) = true -> dtor s = Stopped;
  inv_exited : thread s = Exited -> stop s = true;
  inv_joined : dtor s = Destroyed -> thread s = Exited
}.

(** At rest: the calls are done, and the thread is gone, waits for a first task,
    or waits for its time; if the destructor was called it has returned. *)
Definition at_rest (s : state) : Prop :=
  Forall (fun c => match c with Schedule _ _ => False | _ => True end) (callers s) /\
  match thread s with
  | Exited => dtor s = Destroyed
  | WaitEmpty => dtor s = Alive /\ timed_queue s = []
  | WaitUntil t => dtor s = Alive /\ now s < t /\ Forall (fun e => t <= e.1) (timed_queue s)
  | _ => False
  end.

(** Upper bound on the steps left before more time passes. *)
Definition thread_weight (t : Z) (r : runner) : nat :=
  match r with
  | Top | WokenEmpty | WokenUntil => 2
  | Run _ => 3
  | WaitUntil d => if d <=? t then 3 else 0
  | WaitEmpty | Exited => 0
  end.
Definition caller_weight (c : caller) : nat := match c with Schedule _ _ => 7 | _ => 0 end.
Definition dtor_weight (d : destructor) : nat :=
  match d with Stopped => 4 | Joining => 1 | Alive | Destroyed => 0 end.
Definition steps_left (s : state) : nat :=
  thread_weight (now s) (thread s) + sum_list_with caller_weight (callers s)
  + 4 * length (timed_queue s) + dtor_weight (dtor s).

(** ** Lemmas *)

Lemma heap_min e l : is_heap (e :: l) -> Forall (fun x => e.1 <= x.1) (e :: l).
Proof. intros Hh. constructor; [lia|by apply is_heap_front]. Qed.

(** The test of the clock on a non-empty heap. *)
Lemma test_clock_spec s e l : timed_queue s = e :: l -> is_heap (e :: l) ->
  (now s < e.1 /\ test_clock s = Some (set_thread (e :: l) (WaitUntil e.1) s)) \/
  (e.1 <= now s /\ exists l', l' ≡ₚ l /\ is_heap l' /\ test_clock s = Some (set_thread l' (Run e) s)).
Proof.
  intros Hq Hh. unfold test_clock. rewrite Hq. destruct (Z.ltb_spec (now s) e.1) as [Hlt|Hge]; [by left|right].
  split; [done|]. destruct (pop_heap_back e l Hh) as (l' & -> & Hp & Hh'). exists l'.
  rewrite last_snoc, removelast_last. done.
Qed.

Lemma inv_test_clock s s' : inv s -> in_hand (thread s) = [] -> thread s <> Exited -> stop s = false ->
  timed_queue s <> [] -> test_clock s = Some s' -> inv s'.
Proof.
  intros Hi Hh He Hst Hne Ht. destruct (timed_queue s) as [|e l] eqn:Hq; [done|].
  pose proof Hi as [Hheap Htasks]. rewrite Hq in Hheap, Htasks. rewrite Hh in Htasks. clear inv_due0 inv_hand0.
  destruct (test_clock_spec s e l Hq Hheap) as [[Hlt E]|(Hle & l' & Hp & Hh' & E)];
    rewrite E in Ht; injection Ht as <-; destruct Hi; constructor; cbn; try done.
  - intros t [= <-]. exists e.2, l. by destruct e.
  - by rewrite Hst.
  - intros Hd. by rewrite (inv_joined0 Hd) in He.
  - by rewrite Hp.
  - repeat constructor. done.
  - intros Hd. by rewrite (inv_joined0 Hd) in He.
Qed.

Lemma timer_inv_start t calls : inv (start t calls).
Proof. constructor; cbn; try done. apply is_heap_nil. Qed.

(** A step that only moves the thread to a place where it holds nothing. *)
Lemma inv_set_thread s r : inv s -> in_hand r = [] -> in_hand (thread s) = [] ->
  (r = WaitEmpty -> timed_queue s = []) -> (forall t, r <> WaitUntil t) ->
  (r = WokenUntil -> timed_queue s <> []) -> (waiting r = true -> stop s = false) ->
  (r = Exited -> stop s = true) -> (thread s = Exited -> r = Exited) ->
  inv (set_thread (timed_queue s) r s).
Proof.
  intros [] Hh Hh0 He Hu Hw Hs Hx Hxx. constructor; cbn; try done.
  - by rewrite Hh, <- Hh0.
  - by rewrite Hh.
  - intros t E. by destruct (Hu t).
  - intros Hst Hwt. by rewrite (Hs Hwt) in Hst.
  - intros Hd. by apply Hxx, inv_joined0.
Qed.

Lemma timer_inv_step_thread s s' : inv s -> step_thread s = Some s' -> inv s'.
Proof.
  intros Hi Hs. unfold step_thread in Hs. destruct (thread s) as [| |t| | |e|] eqn:Ht; try done.
  - destruct (stop s) eqn:Hst.
    + assert (s' = set_thread (timed_queue s) Exited s) as -> by (destruct (timed_queue s); by simplify_eq).
      apply inv_set_thread; rewrite ?Ht; done.
    + destruct (timed_queue s) eqn:Hq.
      * simplify_eq. rewrite <- Hq. apply inv_set_thread; rewrite ?Ht; done.
      * apply (inv_test_clock s); rewrite ?Ht, ?Hq; done.
  - destruct (Z.leb_spec t (now s)); simplify_eq. destruct (inv_until _ Hi _ Ht) as (f & l & Hq).
    apply inv_set_thread; rewrite ?Ht, ?Hq; done.
  - destruct (stop s) eqn:Hst.
    + assert (s' = set_thread (timed_queue s) Exited s) as -> by (destruct (timed_queue s); by simplify_eq).
      apply inv_set_thread; rewrite ?Ht; done.
    + destruct (timed_queue s) eqn:Hq.
      * simplify_eq. rewrite <- Hq. apply inv_set_thread; rewrite ?Ht; done.
      * apply (inv_test_clock s); rewrite ?Ht, ?Hq; done.
  - pose proof (inv_woken _ Hi Ht) as Hne. destruct (stop s) eqn:Hst.
    + simplify_eq. apply inv_set_thread; rewrite ?Ht; done.
    + apply (inv_test_clock s); rewrite ?Ht; done.
  - simplify_eq. destruct Hi. rewrite Ht in *. constructor; cbn; try done.
    + by rewrite fmap_app, <- app_assoc.
    + apply Forall_app. split; [done|]. constructor; [|done]. cbn. by apply Forall_cons_1 in inv_hand0 as [? _].
    + intros Hd. by specialize (inv_joined0 Hd).
Qed.

Lemma notify_hand r : in_hand (notify r) = in_hand r.
Proof. by destruct r. Qed.
Lemma notify_not_waiting r : waiting (notify r) = false.
Proof. by destruct r. Qed.
Lemma notify_exited r : notify r = Exited -> r = Exited.
Proof. by destruct r. Qed.
Lemma notify_cases r : notify r <> WaitEmpty /\ (forall t, notify r <> WaitUntil t) /\
  (notify r = WokenUntil -> r = WokenUntil \/ exists t, r = WaitUntil t).
Proof. destruct r; split_and!; try done; eauto. Qed.

Lemma push_heap_nonempty l x : push_heap (l ++ [x]) <> [].
Proof. intros E. pose proof (push_heap_perm (l ++ [x])) as Hp. rewrite E in Hp. by apply Permutation_nil_l in Hp; destruct l. Qed.

Lemma timer_inv_step_caller s s' c : inv s -> step_caller c s = Some s' -> inv s'.
Proof.
  intros Hi Hs. unfold step_caller in Hs. destruct (callers s !! c) as [[d f| |]|]; try done.
  destruct (in_i64 _); simplify_eq; [|by destruct Hi].
  destruct (notify_cases (thread s)) as (H1 & H2 & H3). destruct Hi. constructor; cbn; try done.
  - by apply push_heap_heap.
  - rewrite notify_hand, push_heap_perm, <- inv_tasks0. by rewrite <- !app_assoc.
  - by rewrite notify_hand.
  - intros t E. by destruct (H2 t).
  - intros _. apply push_heap_nonempty.
  - by rewrite notify_not_waiting.
  - intros E. by apply inv_exited0, notify_exited.
  - intros E. by rewrite (inv_joined0 E).
Qed.

Lemma timer_inv_wake s : inv s -> inv (wake s).
Proof.
  intros Hi. unfold wake. destruct (notify_cases (thread s)) as (H1 & H2 & H3). destruct Hi. constructor; cbn; try done.
  - by rewrite notify_hand.
  - by rewrite notify_hand.
  - intros t E. by destruct (H2 t).
  - intros [E|[t E]]%H3; [by apply inv_woken0|]. destruct (inv_until0 t E) as (f & l & ->). done.
  - by rewrite notify_not_waiting.
  - intros E. by apply inv_exited0, notify_exited.
  - intros E. by rewrite (inv_joined0 E).
Qed.

Lemma timer_inv_step_dtor s s' : inv s -> step_dtor s = Some s' -> inv s'.
Proof.
  intros Hi Hs. unfold step_dtor in Hs. destruct (dtor s) eqn:Hd; try done.
  - simplify_eq. pose proof (timer_inv_wake s Hi) as []. cbn in *. rewrite Hd in *. constructor; cbn; try done.
    + rewrite inv_stop0. done.
    + by rewrite notify_not_waiting.
  - destruct (thread s) eqn:Ht; simplify_eq. destruct Hi. rewrite Ht, Hd in *. constructor; cbn; try done.
    rewrite inv_stop0. done.
Qed.

Lemma timer_inv_any_step s s' : inv s -> any_step s s' -> inv s'.
Proof.
  intros Hi Hs. destruct Hs as [s s' Hs|d s|s|s].
  - destruct Hs; eauto using timer_inv_step_thread, timer_inv_step_caller, timer_inv_step_dtor.
  - destruct Hi. constructor; cbn; try done. eapply Forall_impl; [exact inv_hand0|]. cbn. lia.
  - by apply timer_inv_wake.
  - unfold destroy. destruct (dtor s) eqn:E; try done. destruct Hi. constructor; cbn; done.
Qed.

Lemma timer_inv_reachable t calls s : rtc any_step (start t calls) s -> inv s.
Proof.
  intros Hr. pose proof (timer_inv_start t calls) as H0. revert H0.
  induction Hr as [|s1 s2 s3 Hs _ IH]; intros H0; [done|]. apply IH. by apply (timer_inv_any_step s1).
Qed.

(** *** Termination, and what is left at rest *)

Lemma timer_notify_weight t r : (thread_weight t (notify r) <= thread_weight t r + 2)%nat.
Proof. destruct r; cbn; lia. Qed.

Lemma test_clock_lighter s s' : inv s -> timed_queue s <> [] -> test_clock s = Some s' ->
  (thread_weight (now s) (thread s) = 2)%nat -> (steps_left s' < steps_left s)%nat.
Proof.
  intros Hi Hne Ht Hw. destruct (timed_queue s) as [|e l] eqn:Hq; [done|].
  pose proof (inv_heap _ Hi) as Hh. rewrite Hq in Hh.
  destruct (test_clock_spec s e l Hq Hh) as [[Hlt E]|(Hle & l' & Hp & Hh' & E)];
    rewrite E in Ht; injection Ht as <-; unfold steps_left; cbn [set_thread timed_queue thread callers dtor now];
    rewrite Hw, Hq.
  - cbn [thread_weight]. destruct (Z.leb_spec e.1 (now s)); [lia|]. lia.
  - cbn [thread_weight length]. rewrite (Permutation_length Hp). lia.
Qed.

Lemma thread_step_lighter s s' : inv s -> step_thread s = Some s' -> (steps_left s' < steps_left s)%nat.
Proof.
  intros Hi Hs. unfold step_thread in Hs.
  assert (Hset : forall r, (thread_weight (now s) r < thread_weight (now s) (thread s))%nat ->
    (steps_left (set_thread (timed_queue s) r s) < steps_left s)%nat) by (intros r Hr; unfold steps_left; cbn; lia).
  destruct (thread s) as [| |t| | |e|] eqn:Ht; try done.
  - destruct (timed_queue s) eqn:Hq, (stop s) eqn:Hst; simplify_eq.
    + apply Hset. cbn. lia.
    + apply Hset. cbn. lia.
    + apply Hset. cbn. lia.
    + apply test_clock_lighter; [done|by rewrite Hq|done|by rewrite Ht].
  - destruct (Z.leb_spec t (now s)); simplify_eq. apply Hset. cbn. destruct (Z.leb_spec t (now s)); lia.
  - destruct (timed_queue s) eqn:Hq, (stop s) eqn:Hst; simplify_eq.
    + apply Hset. cbn. lia.
    + apply Hset. cbn. lia.
    + apply Hset. cbn. lia.
    + apply test_clock_lighter; [done|by rewrite Hq|done|by rewrite Ht].
  - destruct (stop s) eqn:Hst; simplify_eq; [apply Hset; cbn; lia|].
    apply test_clock_lighter; [done|by apply inv_woken|done|by rewrite Ht].
  - simplify_eq. unfold steps_left. cbn. rewrite Ht. cbn. lia.
Qed.

Lemma timer_step_lighter s s' : inv s -> step s s' -> (steps_left s' < steps_left s)%nat.
Proof.
  intros Hi Hs. destruct Hs as [s s' Hs|c s s' Hs|s s' Hs].
  - by apply thread_step_lighter.
  - unfold step_caller in Hs. destruct (callers s !! c) as [[d f| |]|] eqn:Hc; try done.
    pose proof (fun x => sum_with_insert caller_weight _ _ _ x Hc) as Hsum. pose proof (timer_notify_weight (now s) (thread s)).
    unfold steps_left. destruct (in_i64 _); simplify_eq; cbn [timed_queue thread callers dtor now].
    + rewrite (Permutation_length (push_heap_perm _)), length_app. specialize (Hsum Scheduled). cbn in *. lia.
    + specialize (Hsum Overflowed). cbn in *. lia.
  - unfold step_dtor in Hs. pose proof (timer_notify_weight (now s) (thread s)). unfold steps_left.
    destruct (dtor s) eqn:Hd; try done; [|destruct (thread s) eqn:Ht]; simplify_eq; cbn in *; lia.
Qed.

Lemma timer_steps_bounded n s s' : inv s -> nsteps step n s s' -> inv s' /\ (n + steps_left s' <= steps_left s)%nat.
Proof.
  intros Hi Hn. induction Hn as [s|n s1 s2 s3 Hs _ IH]; [split; [done|lia]|].
  assert (Hi2 : inv s2) by (apply (timer_inv_any_step s1); [done|by apply any_thread]).
  destruct (IH Hi2). pose proof (timer_step_lighter _ _ Hi Hs). split; [done|lia].
Qed.

Lemma thread_stuck s : inv s -> step_thread s = None ->
  match thread s with Exited => True | WaitEmpty => True | WaitUntil t => now s < t | _ => False end.
Proof.
  intros Hi Hs. unfold step_thread in Hs. pose proof (inv_heap _ Hi) as Hh.
  assert (Hclock : timed_queue s <> [] -> test_clock s = None -> False).
  { destruct (timed_queue s) as [|e l] eqn:Hq; [done|]. intros _ Ht.
    destruct (test_clock_spec s e l Hq Hh) as [[_ E]|(_ & l' & _ & _ & E)]; by rewrite E in Ht. }
  destruct (thread s) as [| |t| | |e|] eqn:Ht; try done.
  - destruct (timed_queue s) eqn:Hq; [done|]. destruct (stop s); [done|]. by apply Hclock.
  - by destruct (Z.leb_spec t (now s)).
  - destruct (timed_queue s) eqn:Hq; [done|]. destruct (stop s); [done|]. by apply Hclock.
  - destruct (stop s); [done|]. apply Hclock; [by apply inv_woken|done].
Qed.

Lemma timer_stuck s : inv s -> (forall s', ~ step s s') -> at_rest s.
Proof.
  intros Hi Hstuck.
  assert (Hth : step_thread s = None).
  { destruct (step_thread s) eqn:E; [|done]. by destruct (Hstuck _ (step_by_thread _ _ E)). }
  assert (Hdt : step_dtor s = None).
  { destruct (step_dtor s) eqn:E; [|done]. by destruct (Hstuck _ (step_by_dtor _ _ E)). }
  pose proof (thread_stuck s Hi Hth) as Hcase. unfold step_dtor in Hdt. split.
  - apply Forall_lookup. intros c x Hx. destruct x as [d f| |]; [|done|done].
    destruct (step_caller c s) eqn:E; [by destruct (Hstuck _ (step_by_caller c _ _ E))|].
    unfold step_caller in E. rewrite Hx in E. by destruct (in_i64 _).
  - assert (Hw : waiting (thread s) = true -> dtor s = Alive).
    { intros Hw. destruct (stop s) eqn:Hst.
      - by rewrite (inv_notify _ Hi Hst Hw) in Hdt.
      - destruct (dtor s) eqn:E; [done|..]; rewrite (proj2 (inv_stop _ Hi)) in Hst; by rewrite ?E. }
    destruct (thread s) as [| |t| | |e|] eqn:Ht; try done.
    + split; [by apply Hw|by apply inv_empty].
    + split_and!; [by apply Hw|done|]. destruct (inv_until _ Hi t Ht) as (f & l & Hq). rewrite Hq.
      apply (heap_min (t, f) l). pose proof (inv_heap _ Hi) as Hh. by rewrite Hq in Hh.
    + pose proof (inv_exited _ Hi Ht) as Hst. apply (inv_stop _ Hi) in Hst. by destruct (dtor s).
Qed.
End timer.

(** ** A heap kept sorted *)

Fixpoint insert_by_time (x : element_t) (l : list element_t) : list element_t :=
  match l with
  | [] => [x]
  | y :: l' => if x.1 <=? y.1 then x :: l else y :: insert_by_time x l'
  end.
Definition sorted_by_time (l : list element_t) : Prop := StronglySorted (fun x y => x.1 <= y.1) l.

Lemma insert_by_time_perm x l : insert_by_time x l ≡ₚ x :: l.
Proof.
  induction l as [|y l IH]; [done|]. cbn. destruct (x.1 <=? y.1); [done|]. rewrite IH. constructor.
Qed.
Lemma insert_by_time_sorted x l : sorted_by_time l -> sorted_by_time (insert_by_time x l).
Proof.
  induction 1 as [|y l Hs IH Hy]; [repeat constructor|]. cbn. destruct (Z.leb_spec x.1 y.1).
  - constructor; [by constructor|]. constructor; [done|]. eapply Forall_impl; [exact Hy|]. cbn. lia.
  - constructor; [done|]. rewrite insert_by_time_perm. constructor; [lia|done].
Qed.

Definition push_sorted (l : list element_t) : list element_t :=
  match last l with Some x => insert_by_time x (removelast l) | None => l end.
Definition pop_sorted (l : list element_t) : list element_t :=
  match l with x :: l' => l' ++ [x] | [] => [] end.

Lemma push_sorted_snoc l x : push_sorted (l ++ [x]) = insert_by_time x l.
Proof. unfold push_sorted. by rewrite last_snoc, removelast_last. Qed.
Lemma push_sorted_perm l : push_sorted l ≡ₚ l.
Proof.
  destruct l as [|x l _] using rev_ind; [done|]. rewrite push_sorted_snoc, insert_by_time_perm.
  apply Permutation_cons_append.
Qed.
Lemma push_sorted_sorted l x : sorted_by_time l -> sorted_by_time (push_sorted (l ++ [x])).
Proof. intros Hs. rewrite push_sorted_snoc. by apply insert_by_time_sorted. Qed.
Lemma sorted_front x l : sorted_by_time (x :: l) -> Forall (fun y => x.1 <= y.1) l.
Proof. by intros [_ ?]%StronglySorted_inv. Qed.
Lemma pop_sorted_back x l : sorted_by_time (x :: l) ->
  exists l', pop_sorted (x :: l) = l' ++ [x] /\ l' ≡ₚ l /\ sorted_by_time l'.
Proof. intros [? _]%StronglySorted_inv. by exists l. Qed.

#[global] Instance sorted_heap : StdHeap := {|
  is_heap := sorted_by_time; push_heap := push_sorted; pop_heap := pop_sorted;
  is_heap_nil := SSorted_nil _; is_heap_front := sorted_front;
  push_heap_perm := push_sorted_perm; push_heap_heap := push_sorted_sorted; pop_heap_back := pop_sorted_back
|}.

(** Two calls, the second for an earlier time: the thread waits for the first, is woken,
    waits for the second, runs it, late, and waits for the first again. *)
Definition demo_calls : list caller := [Schedule 50 1; Schedule 20 2].
Inductive turn := Thread | Caller (c : nat) | Time (d : Z).
Definition take_turn `{StdHeap} (t : turn) (s : state) : option state :=
  match t with Thread => step_thread s | Caller c => step_caller c s | Time d => Some (pass d s) end.
Fixpoint take_turns `{StdHeap} (ts : list turn) (s : state) : option state :=
  match ts with [] => Some s | t :: ts => s' ← take_turn t s; take_turns ts s' end.
Lemma timer_turns_steps `{StdHeap} ts : forall s s', take_turns ts s = Some s' -> rtc any_step s s'.
Proof.
  induction ts as [|t ts IH]; intros s s' Hs; cbn in Hs; [injection Hs as ->; apply rtc_refl|].
  destruct (take_turn t s) as [s1|] eqn:Ht; [|done]. eapply rtc_l; [|by apply IH].
  destruct t; [by eapply any_thread, step_by_thread|by eapply any_thread, step_by_caller|]. injection Ht as <-. apply any_time.
Qed.
Definition demo_turns : list turn := [Thread; Caller 0; Thread; Caller 1; Thread; Time 30; Thread; Thread; Thread; Thread].
Definition demo_state : state :=
  mk_state [(50, 1%nat)] false 30 (WaitUntil 50) [Scheduled; Scheduled] Alive [(50, 1%nat); (20, 2%nat)] [(30, (20, 2%nat))].
Lemma demo_reachable : rtc any_step (start 0 demo_calls) demo_state.
Proof. apply (timer_turns_steps demo_turns). vm_compute. reflexivity. Qed.

(** ** Properties *)

(** C26: the timer runs a task only once its time has come, runs none twice and
    loses none: the tasks it ran, holds and has queued are those scheduled, in any
    interleaving, with any clock and any spurious wake-ups. While its thread
    sleeps, nothing is queued that is due before the end of its sleep. *)
Theorem timer_never_early `{StdHeap} (t : Z) (calls : list caller) (s : state) :
  rtc any_step (start t calls) s ->
  Forall (fun r => r.2.1 <= r.1) (ran s) /\
  (ran s).*2 ++ in_hand (thread s) ++ timed_queue s ≡ₚ scheduled s /\
  (forall w, thread s = WaitUntil w -> Forall (fun e => w <= e.1) (timed_queue s)) /\
  (thread s = WaitEmpty -> timed_queue s = []).
Proof.
  intros Hr. pose proof (timer_inv_reachable t calls s Hr) as Hi. split_and!; [apply Hi|apply Hi| |apply Hi].
  intros w Hw. destruct (inv_until _ Hi w Hw) as (f & l & Hq). rewrite Hq. apply (heap_min (w, f) l).
  pose proof (inv_heap _ Hi) as Hh. by rewrite Hq in Hh.
Qed.

Lemma timer_never_early_witness : ran demo_state = [(30, (20, 2%nat))] /\ thread demo_state = WaitUntil 50 /\
  Forall (fun r => r.2.1 <= r.1) (ran demo_state) /\
  (ran demo_state).*2 ++ in_hand (thread demo_state) ++ timed_queue demo_state ≡ₚ scheduled demo_state /\
  (forall w, thread demo_state = WaitUntil w -> Forall (fun e => w <= e.1) (timed_queue demo_state)) /\
  (thread demo_state = WaitEmpty -> timed_queue demo_state = []).
Proof. split; [done|]. split; [done|]. apply (timer_never_early 0 demo_calls). exact demo_reachable. Defined.

(** The timer keeps going and its destructor returns: at any moment the
    threads can make only a bounded number of steps before more time passes,
    never taking the front of an empty heap, and where they stop all calls are
    done and the thread has left and the destructor has returned, or nobody
    destroys the timer and nothing queued is due. *)
Theorem timer_comes_to_rest `{StdHeap} (t : Z) (calls : list caller) (s s' : state) (n : nat) :
  rtc any_step (start t calls) s -> nsteps step n s s' ->
  (n <= steps_left s)%nat /\
  ((forall s'', ~ step s' s'') -> at_rest s' /\
     (dtor s' = Alive -> Forall (fun e => now s' < e.1) (timed_queue s'))).
Proof.
  intros Hr Hn. pose proof (timer_inv_reachable t calls s Hr) as Hi.
  destruct (timer_steps_bounded n s s' Hi Hn) as [Hi' Hb]. split; [lia|]. intros Hstuck.
  pose proof (timer_stuck s' Hi' Hstuck) as Hrest. split; [done|]. intros Hd. destruct Hrest as [_ Hrest].
  destruct (thread s') as [| |w| | |e|] eqn:Ht; try done.
  - by destruct Hrest as [_ ->].
  - destruct Hrest as (_ & Hlt & Hq). eapply Forall_impl; [exact Hq|]. cbn. lia.
  - by rewrite Hrest in Hd.
Qed.

Lemma timer_comes_to_rest_witness : dtor demo_state = Alive /\
  (0 <= steps_left demo_state)%nat /\
  ((forall s'', ~ step demo_state s'') -> at_rest demo_state /\
     (dtor demo_state = Alive -> Forall (fun e => now demo_state < e.1) (timed_queue demo_state))).
Proof. split; [done|]. apply (timer_comes_to_rest 0 demo_calls demo_state demo_state 0); [exact demo_reachable|apply nsteps_O]. Defined.
