(* ===== verification/DelayedExecutors.v ===== *)
(** * Delayed executors

    Model of [execute_at] and [execute_delayed] of [stlab]'s [executor_base.hpp]
    ([deps/clean_stlab]): an executor that gives its tasks to another one after a
    delay, by way of the system timer. Executors are values of type
    [std::function]: clients copy, wrap and call them in any order, and the timer
    calls what is due. Of the timer this uses what [SystemTimer] proves: a task runs
    once, not before its time. *)

From S2P Require Import Prelude.
Local Open Scope Z_scope.

(** ** Executors

    A function of the client; the closure of [execute_at]; a [std::function] that
    was moved from, which is empty in the implementations of the standard library. *)
Inductive executor :=
  | Base (b : nat)
  | At (duration : Z) (e : executor)
  | Empty.

(** What a call comes to: the task is given to a client's function, or to the timer
    with its time and the executor to call then, or [bad_function_call] is thrown. *)
Inductive effect := Given (b : nat) | Timer (due : Z) (e : executor) | BadCall.

(** A call at time [t]: the closure moves [_executor] into the timer's task. *)
Fixpoint invoke (t : Z) (e : executor) : executor * effect :=
  match e with
  | Base b => (Base b, Given b)
  | Empty => (Empty, BadCall)
  | At duration e' =>
      if negb (duration =? 0) then (At duration Empty, Timer (t + duration) e')
      else let '(e'', r) := invoke t e' in (At duration e'', r)
  end.

(** Variables of type [executor_t], the calls made (when, and on what value), what is
    with the timer, what was given to functions and when, calls that threw, and
    whether the process is gone: the timer's thread does not catch. *)
Record state := mk_state {
  vars : list executor;
  clock : Z;
  calls : list (Z * executor);
  pending : list (Z * executor * nat);
  given : list (Z * nat * nat);
  threw : list nat;
  terminated : bool
}.

Definition start : state := mk_state [] 0 [] [] [] [] false.

Definition add_var (e : executor) (t : Z) (s : state) : state :=
  mk_state (vars s ++ [e]) t (calls s) (pending s) (given s) (threw s) (terminated s).

(** The task of call [k] meets [r] at time [t]. *)
Definition settle (t : Z) (k : nat) (r : effect) (s : state) : state :=
  match r with
  | Given b => mk_state (vars s) t (calls s) (pending s) (given s ++ [(t, b, k)]) (threw s) (terminated s)
  | Timer due e => mk_state (vars s) t (calls s) (pending s ++ [(due, e, k)]) (given s) (threw s) (terminated s)
  | BadCall => mk_state (vars s) t (calls s) (pending s) (given s) (threw s ++ [k]) (terminated s)
  end.

Definition log_call (t : Z) (x : nat) (e e' : executor) (s : state) : state :=
  mk_state (<[x := e']> (vars s)) t (calls s ++ [(t, e)]) (pending s) (given s) (threw s) (terminated s).
Definition unqueue (i : nat) (s : state) : state :=
  mk_state (vars s) (clock s) (calls s) (delete i (pending s)) (given s) (threw s) (terminated s).
Definition terminate (s : state) : state :=
  mk_state (vars s) (clock s) (calls s) (pending s) (given s) (threw s) true.

(** What clients do: a function as an executor, a copy, [execute_at(d, x)] (and
    [execute_delayed]), a call of variable [x] with a new task. *)
Inductive op := New (b : nat) | Copy (x : nat) | ExecuteAt (d : Z) (x : nat) | Call (x : nat).

Definition exec_op (o : op) (t : Z) (s : state) : option state :=
  if terminated s || (t <? clock s) then None else
  match o with
  | New b => Some (add_var (Base b) t s)
  | Copy x => e ← vars s !! x; Some (add_var e t s)
  | ExecuteAt d x => e ← vars s !! x; Some (add_var (At d e) t s)
  | Call x =>
      e ← vars s !! x;
      let '(e', r) := invoke t e in
      Some (settle t (length (calls s)) r (log_call t x e e' s))
  end.

(** The timer's thread calls what is due. *)
Definition fire (i : nat) (t : Z) (s : state) : option state :=
  if terminated s || (t <? clock s) then None else
  match pending s !! i with
  | Some (due, e, k) =>
      if due <=? t then
        let s' := settle t k (snd (invoke t e)) (unqueue i s) in
        Some (match snd (invoke t e) with BadCall => terminate s' | _ => s' end)
      else None
  | None => None
  end.

Inductive step : state -> state -> Prop :=
  | by_client o t s s' : exec_op o t s = Some s' -> step s s'
  | by_timer i t s s' : fire i t s = Some s' -> step s s'.

(** ** What an executor promises *)

(** The function at the end, the delays on the way to it, and whether there are any. *)
Fixpoint base_of (e : executor) : option nat :=
  match e with Base b => Some b | At _ e => base_of e | Empty => None end.
Fixpoint delay (e : executor) : Z := match e with At d e => d + delay e | _ => 0 end.
Fixpoint delayed (e : executor) : bool := match e with At d e => negb (d =? 0) || delayed e | _ => false end.

(** Every call is in one place, with the function and the time it was promised. *)
Record ledger (s : state) : Prop := mk_ledger {
  led_places : (snd <$> pending s) ++ (snd <$> given s) ++ threw s ≡ₚ seq 0 (length (calls s));
  led_pending : forall due e k, (due, e, k) ∈ pending s -> exists t e0, calls s !! k = Some (t, e0) /\
    base_of e0 = base_of e /\ t + delay e0 <= due + delay e;
  led_given : forall t' b k, (t', b, k) ∈ given s -> exists t e0, calls s !! k = Some (t, e0) /\
    base_of e0 = Some b /\ t + delay e0 <= t';
  led_threw : forall k, k ∈ threw s -> exists t e0, calls s !! k = Some (t, e0) /\ base_of e0 = None
}.

(** ** Lemmas *)

Lemma invoke_leaves t e : base_of (fst (invoke t e)) = if delayed e then None else base_of e.
Proof.
  induction e as [b|d e IH|]; cbn; [done| |done]. destruct (d =? 0); [|done]. cbn.
  destruct (invoke t e) as [e' r]. done.
Qed.

Lemma invoke_same t e : delayed e = false -> fst (invoke t e) = e.
Proof.
  induction e as [b|d e IH|]; cbn; [done| |done]. destruct (Z.eqb_spec d 0) as [->|]; [|done]. cbn. intros Hd. specialize (IH Hd).
  destruct (invoke t e) as [e' r]. cbn in *. by rewrite IH.
Qed.

(** What a call at [t] promises is kept by its effect. *)
Lemma invoke_effect t e : match snd (invoke t e) with
  | Given b => base_of e = Some b /\ t + delay e <= t
  | Timer due e' => base_of e = base_of e' /\ t + delay e <= due + delay e'
  | BadCall => base_of e = None
  end.
Proof.
  induction e as [b|d e IH|]; cbn; [split; [done|lia]| |done]. destruct (Z.eqb_spec d 0) as [->|]; cbn.
  - destruct (invoke t e) as [e' []]; cbn in *; intuition lia.
  - split; [done|lia].
Qed.

(** All calls but [k] have their place. *)
Record ledger_but (k : nat) (s : state) : Prop := mk_ledger_but {
  but_places : k :: (snd <$> pending s) ++ (snd <$> given s) ++ threw s ≡ₚ seq 0 (length (calls s));
  but_pending : forall due e h, (due, e, h) ∈ pending s -> exists t e0, calls s !! h = Some (t, e0) /\
    base_of e0 = base_of e /\ t + delay e0 <= due + delay e;
  but_given : forall t' b h, (t', b, h) ∈ given s -> exists t e0, calls s !! h = Some (t, e0) /\
    base_of e0 = Some b /\ t + delay e0 <= t';
  but_threw : forall h, h ∈ threw s -> exists t e0, calls s !! h = Some (t, e0) /\ base_of e0 = None
}.

Lemma settle_ledger k t e t0 e0 s : ledger_but k s -> calls s !! k = Some (t0, e0) -> base_of e0 = base_of e ->
  t0 + delay e0 <= t + delay e -> ledger (settle t k (snd (invoke t e)) s).
Proof.
  intros [H1 H2 H3 H4] Hk Hb Hd. pose proof (invoke_effect t e) as He.
  destruct (snd (invoke t e)) as [b|due e'|]; constructor; cbn [settle calls pending given threw]; try done; try (rewrite <- H1).
  - rewrite !fmap_app. cbn. solve_Permutation.
  - intros t' b' h [Hin|[= -> -> ->]%list_elem_of_singleton]%elem_of_app; [by apply H3|].
    exists t0, e0. destruct He as [He ?]. split_and!; [done|congruence|lia].
  - rewrite !fmap_app. cbn. solve_Permutation.
  - intros due' e1 h [Hin|[= -> -> ->]%list_elem_of_singleton]%elem_of_app; [by apply H2|].
    exists t0, e0. destruct He as [He ?]. split_and!; [done|congruence|lia].
  - solve_Permutation.
  - intros h [Hin| ->%list_elem_of_singleton]%elem_of_app; [by apply H4|]. exists t0, e0. split; [done|congruence].
Qed.

Lemma log_call_ledger t x e e' s : ledger s -> ledger_but (length (calls s)) (log_call t x e e' s).
Proof.
  intros [H1 H2 H3 H4].
  assert (Hk : forall h p, calls s !! h = Some p -> (calls s ++ [(t, e)]) !! h = Some p) by (intros h p Hh; by apply lookup_app_l_Some).
  constructor; cbn [log_call calls pending given threw].
  - rewrite length_app, Nat.add_1_r, seq_S, H1. by rewrite Permutation_app_comm.
  - intros due e1 h Hin. destruct (H2 due e1 h Hin) as (t1 & e0 & ? & ? & ?). exists t1, e0. auto.
  - intros t' b h Hin. destruct (H3 t' b h Hin) as (t1 & e0 & ? & ? & ?). exists t1, e0. auto.
  - intros h Hin. destruct (H4 h Hin) as (t1 & e0 & ? & ?). exists t1, e0. auto.
Qed.

Lemma unqueue_ledger i s due e k : ledger s -> pending s !! i = Some (due, e, k) -> ledger_but k (unqueue i s).
Proof.
  intros [H1 H2 H3 H4] Hi. pose proof (delete_Permutation _ _ _ Hi) as Hp.
  constructor; cbn [unqueue calls pending given threw]; [|..]; try done.
  - rewrite <- H1. apply (fmap_Permutation snd) in Hp. cbn in Hp. by rewrite Hp.
  - intros d1 e1 h Hin. apply H2. rewrite Hp. by right.
Qed.

Lemma step_ledger s s' : step s s' -> ledger s -> ledger s'.
Proof.
  intros [o t s0 s1 H|i t s0 s1 H] Hl.
  - unfold exec_op in H. destruct (terminated s0 || (t <? clock s0)); [done|].
    assert (Hadd : forall e, ledger (add_var e t s0)) by (intros e; by destruct Hl).
    destruct o as [b|x|d x|x]; [injection H as <-; apply Hadd|destruct (vars s0 !! x) as [e|]; [|done]; cbn in H..].
    1-2: injection H as <-; apply Hadd.
    destruct (invoke t e) as [e' r] eqn:Hr. injection H as <-. replace r with (snd (invoke t e)) by by rewrite Hr.
    apply (settle_ledger _ t e t e); [by apply log_call_ledger|cbn; by rewrite list_lookup_middle|done|lia].
  - unfold fire in H. destruct (terminated s0 || (t <? clock s0)); [done|].
    destruct (pending s0 !! i) as [[[due e] k]|] eqn:Hi; [|done]. destruct (Z.leb_spec due t); [|done].
    destruct (led_pending s0 Hl due e k (list_elem_of_lookup_2 _ _ _ Hi)) as (t0 & e0 & Hk & Hb & Hd).
    assert (Hs : ledger (settle t k (snd (invoke t e)) (unqueue i s0))).
    { apply (settle_ledger _ _ _ t0 e0); [by eapply unqueue_ledger|done|done|lia]. }
    injection H as <-. destruct (snd (invoke t e)); try done. by destruct Hs.
Qed.

Definition reachable : state -> Prop := rtc step start.

Lemma reachable_ledger s : reachable s -> ledger s.
Proof.
  intros Hr. eapply (rtc_ind_r ledger); [|..|exact Hr].
  - by constructor; cbn; [|intros * []%not_elem_of_nil..].
  - intros y z _ Hs. by apply step_ledger.
Qed.

(** *** A variable that was called *)

Lemma step_calls s s' k p : step s s' -> calls s !! k = Some p -> calls s' !! k = Some p.
Proof.
  intros [o t s0 s1 H|i t s0 s1 H] Hk.
  - unfold exec_op in H. destruct (_ || _); [done|]. destruct o as [b|x|d x|x]; [by injection H as <-|destruct (vars s0 !! x); [|done]; cbn in H..].
    1-2: by injection H as <-. destruct (invoke t _) as [e' r]. injection H as <-. destruct r; cbn; by apply lookup_app_l_Some.
  - unfold fire in H. destruct (_ || _); [done|]. destruct (pending s0 !! i) as [[[due e] h]|]; [|done]. destruct (due <=? t); [|done].
    injection H as <-. by destruct (snd _).
Qed.

Lemma settle_vars t k r s : vars (settle t k r s) = vars s.
Proof. by destruct r. Qed.
Lemma call_vars x t e s s' : vars s !! x = Some e -> exec_op (Call x) t s = Some s' ->
  vars s' = <[x := fst (invoke t e)]> (vars s) /\ calls s' = calls s ++ [(t, e)].
Proof.
  intros Hx. unfold exec_op. destruct (_ || _); [done|]. rewrite Hx. cbn. destruct (invoke t e) as [e' r]. intros [= <-]. by destruct r.
Qed.

(** A variable whose executor is gone stays so, whatever is done. *)
Definition spent (x : nat) (s : state) : Prop := exists e, vars s !! x = Some e /\ base_of e = None.
Lemma step_spent x s s' : step s s' -> spent x s -> spent x s'.
Proof.
  intros [o t s0 s1 H|i t s0 s1 H] (e & Hx & He).
  - assert (Hadd : forall e0, spent x (add_var e0 t s0)) by (intros e0; exists e; cbn; by rewrite (lookup_app_l_Some _ _ _ _ Hx)).
    destruct o as [b|y|d y|y]; [unfold exec_op in H; destruct (_ || _); [done|]..|].
    + injection H as <-. apply Hadd.
    + destruct (vars s0 !! y); [|done]. injection H as <-. apply Hadd.
    + destruct (vars s0 !! y); [|done]. injection H as <-. apply Hadd.
    + destruct (vars s0 !! y) as [e0|] eqn:Hy; [|by unfold exec_op in H; rewrite Hy in H; destruct (_ || _)].
      destruct (call_vars y t e0 s0 s1 Hy H) as [Ev _]. unfold spent. rewrite Ev. destruct (decide (y = x)) as [->|Hne].
      * rewrite list_lookup_insert_eq by (by eapply lookup_lt_Some). eexists. split; [done|]. rewrite Hx in Hy. injection Hy as <-.
        rewrite invoke_leaves. by destruct (delayed e).
      * exists e. by rewrite list_lookup_insert_ne.
  - unfold fire in H. destruct (_ || _); [done|]. destruct (pending s0 !! i) as [[[due e0] k]|]; [|done]. destruct (due <=? t); [|done].
    injection H as <-. exists e. split; [|done]. by destruct (snd (invoke t e0)).
Qed.
Lemma steps_spent x s s' : rtc step s s' -> spent x s -> spent x s'.
Proof. induction 1 as [|s1 s2 s3 Hs _ IH]; [done|]. intros Hx. by apply IH, (step_spent x s1). Qed.
Lemma steps_calls s s' k p : rtc step s s' -> calls s !! k = Some p -> calls s' !! k = Some p.
Proof. induction 1 as [|s1 s2 s3 Hs _ IH]; [done|]. intros Hk. by apply IH, (step_calls s1). Qed.

(** ** Properties *)

(** The task of every call is with the timer, was given to a function, or made its call
    throw, and only one of these. It is given to the function at the end of the
    executor it was called on, not before all delays on the way are over; a call
    throws only if the executor was moved from. So once the timer has no more, every task
    called on an executor that was not moved from has been given. *)
Theorem delayed_tasks_given (s : state) : reachable s ->
  (snd <$> pending s) ++ (snd <$> given s) ++ threw s ≡ₚ seq 0 (length (calls s)) /\
  (forall t' b k, (t', b, k) ∈ given s -> exists t e, calls s !! k = Some (t, e) /\ base_of e = Some b /\ t + delay e <= t') /\
  (forall k, k ∈ threw s -> exists t e, calls s !! k = Some (t, e) /\ base_of e = None) /\
  (pending s = [] -> forall k t e b, calls s !! k = Some (t, e) -> base_of e = Some b -> exists t', (t', b, k) ∈ given s).
Proof.
  intros [H1 H2 H3 H4]%reachable_ledger. split_and!; [done..|]. intros Hp k t e b Hk Hb.
  assert (Hin : k ∈ (snd <$> pending s) ++ (snd <$> given s) ++ threw s).
  { rewrite H1. apply elem_of_seq. apply lookup_lt_Some in Hk. lia. }
  rewrite Hp in Hin. apply elem_of_app in Hin as [Hin|[Hin|Hin]%elem_of_app]; [by apply not_elem_of_nil in Hin|..].
  - apply list_elem_of_fmap in Hin as ([[t' b'] h] & -> & Hin). destruct (H3 t' b' h Hin) as (t1 & e1 & Hk' & Hb' & _).
    cbn in Hk. simplify_eq. by exists t'.
  - destruct (H4 k Hin) as (t1 & e1 & Hk' & Hb'). congruence.
Qed.


(** ** Examples *)

Fixpoint run (os : list (op * Z)) (s : state) : option state :=
  match os with [] => Some s | (o, t) :: os => s ← exec_op o t s; run os s end.
Lemma run_reachable os s s' : reachable s -> run os s = Some s' -> reachable s'.
Proof.
  revert s. induction os as [|[o t] os IH]; intros s Hr; cbn; [by intros [= <-]|].
  destruct (exec_op o t s) as [s1|] eqn:H; [|done]. apply IH. eapply rtc_r; [exact Hr|by eapply by_client].
Qed.

(** Variable 1 is variable 0 with a delay of 5; at time 1 a task is called on it. *)
Definition before_call : state := default start (run [(New 7, 0); (ExecuteAt 5 0, 0)] start).
Definition after_call : state := default start (exec_op (Call 1) 1 before_call).
Definition after_two : state := default start (exec_op (Call 1) 2 after_call).
Definition fired : state := default start (fire 0 6 after_call).

Lemma before_call_reachable : reachable before_call.
Proof. apply (run_reachable [(New 7, 0); (ExecuteAt 5 0, 0)] start); [apply rtc_refl|reflexivity]. Qed.
Lemma fired_reachable : reachable fired.
Proof.
  eapply rtc_r; [eapply rtc_r; [apply before_call_reachable|]|].
  - by apply (by_client (Call 1) 1 before_call after_call).
  - by apply (by_timer 0 6 after_call fired).
Qed.

Lemma delayed_tasks_given_witness : given fired = [(6, 7%nat, 0%nat)] /\ exists t', (t', 7%nat, 0%nat) ∈ given fired.
Proof.
  split; [reflexivity|]. destruct (delayed_tasks_given fired fired_reachable) as (_ & _ & _ & H).
  by apply (H eq_refl 0%nat 1 (At 5 (Base 7)) 7%nat).
Defined.

(** In between the timer gives the first task, and variable 0 is called, which has no delay. *)
Definition between : state := default start (exec_op (Call 0) 7 fired).
Definition late_call : state := default start (exec_op (Call 1) 8 between).
Lemma after_between : rtc step after_call between.
Proof. eapply rtc_l; [by apply (by_timer 0 6 after_call fired)|]. by apply rtc_once, (by_client (Call 0) 7). Qed.

(** Its second task ends the process when the timer calls it. *)
Example second_task_terminates : exists s s', fire 0 6 after_two = Some s /\ fire 0 7 s = Some s' /\ terminated s' = true.
Proof. eexists _, _. split; [reflexivity|]. split; reflexivity. Qed.
