(* ===== verification/CopyOnWrite.v ===== *)
(** * Copy on write

    Model of [stlab]'s [copy_on_write<T>] ([deps/clean_stlab_trash]): handles to
    shared, reference-counted values that are duplicated when a shared one is
    written. Handles are the variables of a program, with the temporaries the
    members make; models live in a heap and are deleted explicitly. An assertion
    on [_self] and a use of a deleted model are undefined behaviour. One thread;
    the count does not overflow. *)

From stdpp Require Import gmap.
From S2P Require Import Prelude.
Local Open Scope c_scope.

(** The program's variables, and the temporaries inside the members. *)
Inductive var := Var (n : nat) | Tmp (n : nat).
#[global] Instance var_eq_dec : EqDecision var.
Proof. solve_decision. Defined.
#[global] Instance var_countable : Countable var.
Proof.
  refine (inj_countable' (fun v => match v with Var n => inl n | Tmp n => inr n end)
    (fun s => match s with inl n => Var n | inr n => Tmp n end) _). by intros [].
Defined.

Section copy_on_write.
(** The element type: its default, its [operator==] and its [operator<]. *)
Context {T : Type} (T_default : T) (T_eq T_less : T -> T -> bool).

(** ** Data: [model], and the heap, the handles ([_self], [None] for [nullptr]) and
    the next address. Address 0 is the static [default_s]. *)
Record model := mk_model { count : nat; value : T }.
Record state := mk_state { heap : gmap nat model; vars : gmap var (option nat); next : nat }.

Definition default_s : nat := 0.
Definition start : state := mk_state {[ default_s := mk_model 1 T_default ]} ∅ 1.

(** ** Access *)

Definition self (x : var) : C state (option nat) :=
  let* s := c_get in
  match vars s !! x with
  | Some p => c_ret p
  | None => c_undefined Uninitialised
  end.
Definition set_self (x : var) (p : option nat) : C state unit :=
  c_modify (fun s => mk_state (heap s) (<[x := p]> (vars s)) (next s)).
Definition deref (l : nat) : C state model :=
  let* s := c_get in
  match heap s !! l with
  | Some m => c_ret m
  | None => c_undefined UseAfterFree
  end.
Definition store (l : nat) (m : model) : C state unit :=
  c_modify (fun s => mk_state (<[l := m]> (heap s)) (vars s) (next s)).
(** [assert(_self)]. *)
Definition asserted (p : option nat) : C state nat :=
  match p with Some l => c_ret l | None => c_undefined NullCall end.

(** [new model(v)]. *)
Definition new_model (v : T) : C state nat :=
  let* s := c_get in
  c_modify (fun s => mk_state (<[next s := mk_model 1 v]> (heap s)) (vars s) (S (next s))) ;;
  c_ret (next s).
(** [++_self->_count]. *)
Definition increment (l : nat) : C state unit :=
  let* m := deref l in store l (mk_model (S (count m)) (value m)).
(** [if (--_self->_count == 0) delete _self]. *)
Definition decrement (l : nat) : C state unit :=
  let* m := deref l in
  store l (mk_model (pred (count m)) (value m)) ;;
  c_when (pred (count m) =? 0) (c_modify (fun s => mk_state (delete l (heap s)) (vars s) (next s))).

(** ** Construction and destruction *)

Definition ctor_default (x : var) : C state unit := set_self x (Some default_s) ;; increment default_s.
Definition ctor_value (x : var) (v : T) : C state unit :=
  let* l := new_model v in set_self x (Some l).
Definition ctor_copy (x y : var) : C state unit :=
  let* p := self y in
  set_self x p ;;
  let* l := asserted p in increment l.
Definition ctor_move (x y : var) : C state unit :=
  let* p := self y in
  set_self x p ;;
  let* l := asserted p in set_self y None.
Definition dtor (x : var) : C state unit :=
  let* p := self x in
  match p with Some l => decrement l | None => c_ret tt end ;;
  c_modify (fun s => mk_state (heap s) (delete x (vars s)) (next s)).

(** ** Access to the value *)

Definition read (x : var) : C state T :=
  let* p := self x in let* l := asserted p in let* m := deref l in c_ret (value m).
Definition unique (x : var) : C state bool :=
  let* p := self x in let* l := asserted p in let* m := deref l in c_ret (count m =? 1).
Definition identity (x y : var) : C state bool :=
  let* p := self x in let* l := asserted p in
  let* q := self y in let* k := asserted q in c_ret (l =? k).

(** ** Assignment *)

Definition swap (x y : var) : C state unit :=
  let* p := self x in let* q := self y in set_self x q ;; set_self y p.
Definition assign_move (x y : var) : C state unit :=
  ctor_move (Tmp 0) y ;; swap x (Tmp 0) ;; dtor (Tmp 0).
(** [*this = copy_on_write(...)], a temporary that is moved from and destroyed. *)
Definition assign_copy (x y : var) : C state unit :=
  ctor_copy (Tmp 1) y ;; assign_move x (Tmp 1) ;; dtor (Tmp 1).
Definition assign_value (x : var) (v : T) : C state unit :=
  let* p := self x in
  let* u := match p with Some _ => unique x | None => c_ret false end in
  if (u : bool) then
    let* l := asserted p in let* m := deref l in store l (mk_model (count m) v)
  else ctor_value (Tmp 1) v ;; assign_move x (Tmp 1) ;; dtor (Tmp 1).

(** [write()]: the place the reference it returns refers to. *)
Definition write (x : var) : C state nat :=
  let* u := unique x in
  (if (u : bool) then c_ret tt
   else let* v := read x in ctor_value (Tmp 1) v ;; assign_move x (Tmp 1) ;; dtor (Tmp 1)) ;;
  let* p := self x in asserted p.
(** What a client does with it: [x.write() = f(x.write())]. *)
Definition modify (x : var) (f : T -> T) : C state unit :=
  let* l := write x in let* m := deref l in store l (mk_model (count m) (f (value m))).

(** ** Comparison, of two handles or of a handle and an element *)

Inductive operand := Handle (x : var) | Element (v : T).
Definition operand_value (a : operand) : C state T :=
  match a with Handle x => read x | Element v => c_ret v end.
Definition less (a b : operand) : C state bool :=
  match a, b with
  | Handle x, Handle y =>
      let* same := identity x y in
      if (same : bool) then c_ret false
      else let* v := read x in let* w := read y in c_ret (T_less v w)
  | _, _ => let* v := operand_value a in let* w := operand_value b in c_ret (T_less v w)
  end.
Definition greater (a b : operand) : C state bool := less b a.
Definition less_equal (a b : operand) : C state bool := let* r := less b a in c_ret (negb r).
Definition greater_equal (a b : operand) : C state bool := let* r := less a b in c_ret (negb r).
Definition equal (a b : operand) : C state bool :=
  match a, b with
  | Handle x, Handle y =>
      let* same := identity x y in
      if (same : bool) then c_ret true
      else let* v := read x in let* w := read y in c_ret (T_eq v w)
  | _, _ => let* v := operand_value a in let* w := operand_value b in c_ret (T_eq v w)
  end.
Definition not_equal (a b : operand) : C state bool := let* r := equal a b in c_ret (negb r).

(** ** Specification: variables hold values; [None] is a moved-from handle. *)

Inductive op :=
  | Default (x : var) | Value (x : var) (v : T) | Copy (x y : var) | Move (x y : var) | Destroy (x : var)
  | AssignCopy (x y : var) | AssignMove (x y : var) | AssignValue (x : var) (v : T)
  | Modify (x : var) (f : T -> T) | Swap (x y : var).

Definition run_op (o : op) : C state unit :=
  match o with
  | Default x => ctor_default x
  | Value x v => ctor_value x v
  | Copy x y => ctor_copy x y
  | Move x y => ctor_move x y
  | Destroy x => dtor x
  | AssignCopy x y => assign_copy x y
  | AssignMove x y => assign_move x y
  | AssignValue x v => assign_value x v
  | Modify x f => modify x f
  | Swap x y => swap x y
  end.

(** A variable of the program that is not, or is, in scope. *)
Definition fresh (x : var) (a : gmap var (option T)) : option unit :=
  match x, a !! x with Var _, None => Some tt | _, _ => None end.
Definition value_of (x : var) (a : gmap var (option T)) : option T := match x with Var _ => mjoin (a !! x) | Tmp _ => None end.
Definition scope_of (x : var) (a : gmap var (option T)) : option (option T) := match x with Var _ => a !! x | Tmp _ => None end.

(** [None]: the program is not allowed to. *)
Definition op_spec (o : op) (a : gmap var (option T)) : option (gmap var (option T)) :=
  match o with
  | Default x => _ ← fresh x a; Some (<[x := Some T_default]> a)
  | Value x v => _ ← fresh x a; Some (<[x := Some v]> a)
  | Copy x y => _ ← fresh x a; v ← value_of y a; Some (<[x := Some v]> a)
  | Move x y => _ ← fresh x a; v ← value_of y a; Some (<[x := Some v]> (<[y := None]> a))
  | Destroy x => _ ← scope_of x a; Some (delete x a)
  | AssignCopy x y => _ ← scope_of x a; v ← value_of y a; Some (<[x := Some v]> a)
  | AssignMove x y => _ ← scope_of x a; v ← value_of y a; Some (<[x := Some v]> (if decide (x = y) then a else <[y := None]> a))
  | AssignValue x v => _ ← scope_of x a; Some (<[x := Some v]> a)
  | Modify x f => v ← value_of x a; Some (<[x := Some (f v)]> a)
  | Swap x y => v ← scope_of x a; w ← scope_of y a; Some (<[x := w]> (<[y := v]> a))
  end.
Fixpoint run_ops (os : list op) : C state unit :=
  match os with [] => c_ret tt | o :: os' => run_op o ;; run_ops os' end.
Fixpoint ops_spec (os : list op) (a : gmap var (option T)) : option (gmap var (option T)) :=
  match os with [] => Some a | o :: os' => a' ← op_spec o a; ops_spec os' a' end.

(** What the handles of a state stand for. *)
Definition contents (h : gmap nat model) (p : option nat) : option T := l ← p; value <$> h !! l.
Definition abstract (s : state) : gmap var (option T) := contents (heap s) <$> vars s.

Definition refs (l : nat) (vs : gmap var (option nat)) : nat := size (filter (fun p => p.2 = Some l) vs).
(** Who counts: the handles, and the program itself for [default_s]. *)
Definition owners (l : nat) (vs : gmap var (option nat)) : nat := refs l vs + if decide (l = default_s) then 1 else 0.

(** Every model in the heap is counted right and wanted, every handle leads to
    one, and only addresses already given out are used. *)
Record wf (s : state) : Prop := mk_wf {
  wf_count : forall l m, heap s !! l = Some m -> count m = owners l (vars s) /\ count m <> 0;
  wf_vars : forall x l, vars s !! x = Some (Some l) -> is_Some (heap s !! l);
  wf_next : forall l, is_Some (heap s !! l) -> l < next s;
  wf_default : value <$> heap s !! default_s = Some T_default
}.

(** ** Lemmas *)

Definition points (p : option nat) (l : nat) : nat := if decide (p = Some l) then 1 else 0.
Lemma points_eq l : points (Some l) l = 1.
Proof. unfold points. by rewrite decide_True. Qed.
Lemma points_ne p l : p <> Some l -> points p l = 0.
Proof. intros H. unfold points. by rewrite decide_False. Qed.

(** *** Counting handles *)

Lemma refs_new l x p vs : vs !! x = None -> refs l (<[x := p]> vs) = refs l vs + points p l.
Proof.
  intros Hx. unfold refs. assert (Hf : filter (fun q : var * option nat => q.2 = Some l) vs !! x = None).
  { apply map_lookup_filter_None. by left. }
  unfold points. case_decide as E.
  - rewrite map_filter_insert_True by done. rewrite map_size_insert_None by done. lia.
  - rewrite map_filter_insert_not' by (cbn; try done; intros q Hq; by rewrite Hq in Hx). lia.
Qed.

Lemma refs_set l x p q vs : vs !! x = Some p -> refs l (<[x := q]> vs) + points p l = refs l vs + points q l.
Proof.
  intros Hx. rewrite <- (insert_id vs x p Hx) at 2. rewrite <- !(insert_delete_eq vs x).
  rewrite !refs_new by apply lookup_delete_eq. lia.
Qed.

Lemma refs_delete l x p vs : vs !! x = Some p -> refs l (delete x vs) + points p l = refs l vs.
Proof.
  intros Hx. rewrite <- (insert_id vs x p Hx) at 2. rewrite <- (insert_delete_eq vs x).
  by rewrite refs_new by apply lookup_delete_eq.
Qed.

Lemma refs_pos l x vs : vs !! x = Some (Some l) -> 0 < refs l vs.
Proof. intros Hx. pose proof (refs_delete l x _ vs Hx) as H. rewrite points_eq in H. lia. Qed.

(** The only handle to a model. *)
Lemma refs_one l x y vs : refs l vs = 1 -> vs !! x = Some (Some l) -> vs !! y = Some (Some l) -> x = y.
Proof.
  intros H1 Hx Hy. destruct (decide (x = y)) as [|Hne]; [done|]. pose proof (refs_delete l x _ vs Hx) as H.
  rewrite points_eq in H.
  assert (Hd : delete x vs !! y = Some (Some l)) by (by rewrite lookup_delete_ne).
  pose proof (refs_pos l y _ Hd). lia.
Qed.

(** *** Reading the handles *)

Lemma abstract_lookup s x : abstract s !! x = contents (heap s) <$> vars s !! x.
Proof. apply lookup_fmap. Qed.

Lemma abstract_none s x : abstract s !! x = None <-> vars s !! x = None.
Proof. rewrite abstract_lookup. by destruct (vars s !! x). Qed.

Lemma value_lookup s x v : abstract s !! x = Some (Some v) -> exists l m,
  vars s !! x = Some (Some l) /\ heap s !! l = Some m /\ value m = v.
Proof.
  rewrite abstract_lookup. destruct (vars s !! x) as [[l|]|] eqn:Hx; cbn; try done.
  destruct (heap s !! l) as [m|] eqn:Hm; cbn; [|done]. intros [= <-]. eauto.
Qed.

Lemma runs_self s x p : vars s !! x = Some p -> runs (self x) s p s.
Proof. intros H. unfold runs, self, c_bind, c_get. by rewrite H. Qed.
Lemma runs_deref s l m : heap s !! l = Some m -> runs (deref l) s m s.
Proof. intros H. unfold runs, deref, c_bind, c_get. by rewrite H. Qed.
Lemma runs_read s x v : abstract s !! x = Some (Some v) -> runs (read x) s v s.
Proof.
  intros (l & m & Hx & Hm & <-)%value_lookup. unfold read.
  eapply runs_bind; [by apply runs_self|]. eapply runs_bind; [done|]. by eapply runs_bind; [apply runs_deref|].
Qed.
Lemma runs_unique s x l m : vars s !! x = Some (Some l) -> heap s !! l = Some m ->
  runs (unique x) s (count m =? 1) s.
Proof.
  intros Hx Hm. unfold unique.
  eapply runs_bind; [by apply runs_self|]. eapply runs_bind; [done|]. by eapply runs_bind; [apply runs_deref|].
Qed.

(** *** The constructors, the destructor and [swap] *)

(** Returning in a state that is right and stands for [a]. *)
Definition yields (m : C state unit) (s : state) (a : gmap var (option T)) : Prop :=
  exists s', runs m s tt s' /\ wf s' /\ abstract s' = a.

Lemma yields_bind m k s a b : yields m s a -> (forall s', wf s' -> abstract s' = a -> yields k s' b) -> yields (m ;; k) s b.
Proof.
  intros (s1 & Hr & Hw & Ha) Hk. destruct (Hk s1 Hw Ha) as (s2 & Hr2 & Hw2 & Ha2).
  exists s2. split; [by eapply runs_bind|done].
Qed.

Lemma wf_owned s l m : wf s -> heap s !! l = Some m -> count m = owners l (vars s) /\ count m <> 0.
Proof. intros Hw. apply (wf_count _ Hw). Qed.

Lemma fresh_address s : wf s -> heap s !! next s = None.
Proof.
  intros Hw. destruct (heap s !! next s) eqn:E; [|done].
  assert (H : next s < next s) by (apply (wf_next _ Hw); by rewrite E). lia.
Qed.

Lemma unused_refs s l : wf s -> heap s !! l = None -> refs l (vars s) = 0.
Proof.
  intros Hw Hl. unfold refs. apply map_size_empty_iff, map_empty. intros x. apply map_lookup_filter_None. right.
  intros p Hp. cbn. intros ->. destruct (wf_vars _ Hw x l Hp) as [m Hm]. by rewrite Hm in Hl.
Qed.

Lemma yields_ctor_value s x v : wf s -> abstract s !! x = None ->
  yields (ctor_value x v) s (<[x := Some v]> (abstract s)).
Proof.
  intros Hw Hx. rewrite abstract_none in Hx. pose proof (fresh_address s Hw) as Hn.
  assert (Hd : next s <> default_s).
  { intros E. pose proof (wf_default _ Hw) as H. by rewrite <- E, Hn in H. }
  eexists. split; [done|]. split.
  - constructor; cbn.
    + intros l m. destruct (decide (l = next s)) as [->|Hne].
      * rewrite lookup_insert_eq. intros [= <-]. cbn. unfold owners. rewrite refs_new by done.
        rewrite (unused_refs s), points_eq, decide_False by done. lia.
      * rewrite lookup_insert_ne by done. intros Hm. unfold owners. rewrite refs_new by done.
        rewrite points_ne by congruence. rewrite Nat.add_0_r. by apply (wf_owned s).
    + intros y l. destruct (decide (y = x)) as [->|Hne].
      * rewrite lookup_insert_eq. intros [= <-]. by rewrite lookup_insert_eq.
      * rewrite lookup_insert_ne by done. intros Hy. destruct (wf_vars _ Hw y l Hy) as [m Hm].
        destruct (decide (l = next s)) as [->|]; [by rewrite lookup_insert_eq|]. by rewrite lookup_insert_ne.
    + intros l. destruct (decide (l = next s)) as [->|]; [lia|]. rewrite lookup_insert_ne by done.
      intros Hl. apply (wf_next _ Hw) in Hl. lia.
    + rewrite lookup_insert_ne by done. apply (wf_default _ Hw).
  - apply map_eq. intros y. rewrite abstract_lookup. cbn. destruct (decide (y = x)) as [->|Hne].
    + rewrite !lookup_insert_eq. cbn. by rewrite lookup_insert_eq.
    + rewrite !lookup_insert_ne, abstract_lookup by done. destruct (vars s !! y) as [[l|]|] eqn:Hy; try done. cbn.
      destruct (decide (l = next s)) as [->|]; [|by rewrite lookup_insert_ne].
      destruct (wf_vars _ Hw y _ Hy) as [m Hm]. by rewrite Hm in Hn.
Qed.

(** The heap after a count changed: the same values behind the handles. *)
Lemma contents_store h l m n p : h !! l = Some m ->
  contents (<[l := mk_model n (value m)]> h) p = contents h p.
Proof.
  intros Hm. destruct p as [k|]; [|done]. cbn. destruct (decide (k = l)) as [->|].
  - by rewrite lookup_insert_eq, Hm.
  - by rewrite lookup_insert_ne.
Qed.

(** One more handle, [x], to a model. *)
Lemma yields_share s x l m : wf s -> abstract s !! x = None -> heap s !! l = Some m ->
  yields (set_self x (Some l) ;; increment l) s (<[x := Some (value m)]> (abstract s)).
Proof.
  intros Hw Hx Hm. rewrite abstract_none in Hx. eexists. split.
  { eapply runs_bind; [done|]. by eapply runs_bind; [apply runs_deref|]. }
  split.
  - constructor; cbn.
    + intros k m'. destruct (decide (k = l)) as [->|Hne].
      * rewrite lookup_insert_eq. intros [= <-]. cbn. destruct (wf_owned s l m Hw Hm) as [-> _].
        unfold owners. rewrite refs_new, points_eq by done. lia.
      * rewrite lookup_insert_ne by done. intros Hk. unfold owners. rewrite refs_new, points_ne by congruence.
        rewrite Nat.add_0_r. by apply (wf_owned s).
    + intros y k Hy. destruct (decide (k = l)) as [->|Hne]; [by rewrite lookup_insert_eq|].
      rewrite lookup_insert_ne by done. destruct (decide (y = x)) as [->|Hyx].
      * rewrite lookup_insert_eq in Hy. congruence.
      * rewrite lookup_insert_ne in Hy by done. by apply (wf_vars _ Hw y).
    + intros k Hk. apply (wf_next _ Hw). destruct (decide (k = l)) as [->|]; [by rewrite Hm|].
      by rewrite lookup_insert_ne in Hk.
    + rewrite <- (wf_default _ Hw). apply (contents_store (heap s) l m _ (Some default_s) Hm).
  - apply map_eq. intros y. rewrite abstract_lookup. cbn [vars heap].
    destruct (decide (y = x)) as [->|Hne].
    + rewrite !lookup_insert_eq. cbn. by rewrite lookup_insert_eq.
    + rewrite !lookup_insert_ne, abstract_lookup by done. destruct (vars s !! y) as [p|] eqn:Hy; [|done]. cbn [fmap option_fmap option_map].
      f_equal. by apply contents_store.
Qed.

Lemma yields_ctor_default s x : wf s -> abstract s !! x = None ->
  yields (ctor_default x) s (<[x := Some T_default]> (abstract s)).
Proof.
  intros Hw Hx. destruct (heap s !! default_s) as [m|] eqn:Hm.
  - pose proof (wf_default _ Hw) as Hd. rewrite Hm in Hd. injection Hd as <-. by apply yields_share.
  - pose proof (wf_default _ Hw) as Hd. by rewrite Hm in Hd.
Qed.

Lemma yields_ctor_copy s x y v : wf s -> abstract s !! x = None -> abstract s !! y = Some (Some v) ->
  yields (ctor_copy x y) s (<[x := Some v]> (abstract s)).
Proof.
  intros Hw Hx (l & m & Hy & Hm & <-)%value_lookup. destruct (yields_share s x l m Hw Hx Hm) as (s' & Hr & H).
  exists s'. split; [|done]. eapply runs_bind; [by apply runs_self|]. exact Hr.
Qed.

(** The handles change hands; the heap does not. *)
Lemma wf_same_heap s vs : wf s -> (forall l, refs l vs = refs l (vars s)) ->
  (forall x l, vs !! x = Some (Some l) -> exists y, vars s !! y = Some (Some l)) ->
  wf (mk_state (heap s) vs (next s)).
Proof.
  intros [] Hr Hv. constructor; cbn; try done.
  - intros l m Hm. unfold owners. rewrite Hr. by apply wf_count0.
  - intros x l Hx. destruct (Hv x l Hx) as [y Hy]. by apply (wf_vars0 y).
Qed.

Lemma abstract_insert s x p : abstract (mk_state (heap s) (<[x := p]> (vars s)) (next s)) = <[x := contents (heap s) p]> (abstract s).
Proof. unfold abstract. cbn. by rewrite fmap_insert. Qed.

Lemma yields_ctor_move s x y v : wf s -> abstract s !! x = None -> abstract s !! y = Some (Some v) ->
  yields (ctor_move x y) s (<[x := Some v]> (<[y := None]> (abstract s))).
Proof.
  intros Hw Hx Hv. pose proof (value_lookup s y v Hv) as (l & m & Hy & Hm & Hmv). rewrite abstract_none in Hx.
  assert (Hne : x <> y) by (intros ->; by rewrite Hx in Hy).
  assert (Hy' : <[x := Some l]> (vars s) !! y = Some (Some l)) by (by rewrite lookup_insert_ne).
  eexists. split; [eapply runs_bind; [by apply runs_self|]; eapply runs_bind; [done|]; by eapply runs_bind|].
  split.
  - apply (wf_same_heap s); [done|..]; cbn.
    + intros k. pose proof (refs_set k y _ None _ Hy') as H1. pose proof (refs_new k x (Some l) _ Hx).
      rewrite (points_ne None) in H1 by done. lia.
    + intros z k. destruct (decide (z = y)) as [->|]; [by rewrite lookup_insert_eq|]. rewrite lookup_insert_ne by done.
      destruct (decide (z = x)) as [->|].
      * rewrite lookup_insert_eq. intros [= <-]. by exists y.
      * rewrite lookup_insert_ne by done. eauto.
  - unfold abstract. cbn. rewrite !fmap_insert. rewrite insert_insert_ne by done. cbn. by rewrite Hm, <- Hmv.
Qed.

Lemma yields_swap s x y v w : wf s -> abstract s !! x = Some v -> abstract s !! y = Some w ->
  yields (swap x y) s (<[x := w]> (<[y := v]> (abstract s))).
Proof.
  intros Hw Hv Hy. rewrite abstract_lookup in Hv, Hy.
  destruct (vars s !! x) as [p|] eqn:Ep; [|done]. destruct (vars s !! y) as [q|] eqn:Eq; [|done]. cbn in Hv, Hy.
  injection Hv as <-. injection Hy as <-.
  assert (Hy' : <[x := q]> (vars s) !! y = Some q).
  { destruct (decide (x = y)) as [->|]; [by rewrite lookup_insert_eq|by rewrite lookup_insert_ne]. }
  eexists. split.
  { eapply runs_bind; [by apply runs_self|]. eapply runs_bind; [by apply runs_self|]. by eapply runs_bind. }
  split.
  - apply (wf_same_heap s); [done|..]; cbn.
    + intros l. pose proof (refs_set l x p q _ Ep). pose proof (refs_set l y q p _ Hy'). lia.
    + intros z l. destruct (decide (z = y)) as [->|]; [rewrite lookup_insert_eq; intros [= ->]; by exists x|].
      rewrite lookup_insert_ne by done. destruct (decide (z = x)) as [->|].
      * rewrite lookup_insert_eq. intros [= ->]. by exists y.
      * rewrite lookup_insert_ne by done. eauto.
  - unfold abstract. cbn. rewrite !fmap_insert. destruct (decide (x = y)) as [->|].
    + rewrite !insert_insert_eq. rewrite Ep in Eq. by injection Eq as ->.
    + by rewrite insert_insert_ne.
Qed.

Lemma yields_dtor s x v : wf s -> abstract s !! x = Some v -> yields (dtor x) s (delete x (abstract s)).
Proof.
  intros Hw Hv. rewrite abstract_lookup in Hv. destruct (vars s !! x) as [[l|]|] eqn:Hx; [..|done].
  - destruct (wf_vars _ Hw x l Hx) as [m Hm]. destruct (wf_owned s l m Hw Hm) as [Hc Hc0].
    pose proof (refs_delete l x _ _ Hx) as Hr. rewrite points_eq in Hr.
    assert (Hothers : forall k, k <> l -> refs k (delete x (vars s)) = refs k (vars s)).
    { intros k Hk. pose proof (refs_delete k x _ _ Hx) as H. rewrite points_ne in H by congruence. lia. }
    set (n := pred (count m)). assert (Hn : n = owners l (delete x (vars s))) by (unfold n, owners in *; lia).
    assert (Hrun : forall h, runs (c_when (n =? 0) (c_modify (fun s => mk_state (delete l (heap s)) (vars s) (next s))))
        (mk_state (<[l := mk_model n (value m)]> (heap s)) (vars s) (next s)) tt (mk_state h (vars s) (next s)) ->
      runs (dtor x) s tt (mk_state h (delete x (vars s)) (next s))).
    { intros h Hh. eapply runs_bind; [by apply runs_self|].
      apply (runs_bind _ _ _ tt (mk_state h (vars s) (next s))); [|done].
      eapply runs_bind; [by apply runs_deref|]. by eapply runs_bind. }
    destruct (Nat.eqb_spec n 0) as [E|E].
    + eexists. split; [by apply Hrun|].
      assert (Hgone : forall y, delete x (vars s) !! y <> Some (Some l)).
      { intros y Hy. pose proof (refs_pos l y _ Hy). unfold owners in Hn. lia. }
      assert (Hl : l <> default_s) by (intros ->; unfold owners in Hn; rewrite decide_True in Hn by done; lia).
      split.
      * constructor; cbn.
        -- intros k m' Hk. rewrite delete_insert_eq in Hk. apply lookup_delete_Some in Hk as [Hne Hk].
           unfold owners. rewrite Hothers by done. by apply (wf_owned s).
        -- intros y k Hy. assert (k <> l) by (intros ->; by apply (Hgone y)). rewrite delete_insert_eq, lookup_delete_ne by congruence.
           apply lookup_delete_Some in Hy as [_ Hy]. by apply (wf_vars _ Hw y).
        -- intros k [m' Hk]. rewrite delete_insert_eq in Hk. apply lookup_delete_Some in Hk as [_ Hk]. apply (wf_next _ Hw). by rewrite Hk.
        -- rewrite delete_insert_eq, lookup_delete_ne by congruence. apply (wf_default _ Hw).
      * apply map_eq. intros y. rewrite abstract_lookup. cbn [vars heap]. rewrite delete_insert_eq.
        destruct (decide (y = x)) as [->|]; [by rewrite !lookup_delete_eq|].
        pose proof (Hgone y) as Hy. rewrite lookup_delete_ne in Hy by congruence. rewrite !lookup_delete_ne, abstract_lookup by congruence.
        destruct (vars s !! y) as [[k|]|] eqn:Ey; try done. cbn. by rewrite lookup_delete_ne by congruence.
    + eexists. split; [by apply Hrun|]. split.
      * constructor; cbn.
        -- intros k m'. destruct (decide (k = l)) as [->|].
           ++ rewrite lookup_insert_eq. intros [= <-]. by split.
           ++ rewrite lookup_insert_ne by congruence. intros Hk. unfold owners. rewrite Hothers by done. by apply (wf_owned s).
        -- intros y k Hy. apply lookup_delete_Some in Hy as [_ Hy]. destruct (decide (k = l)) as [->|]; [by rewrite lookup_insert_eq|].
           rewrite lookup_insert_ne by congruence. by apply (wf_vars _ Hw y).
        -- intros k Hk. apply (wf_next _ Hw). destruct (decide (k = l)) as [->|]; [by rewrite Hm|]. by rewrite lookup_insert_ne in Hk.
        -- rewrite <- (wf_default _ Hw). apply (contents_store (heap s) l m _ (Some default_s) Hm).
      * apply map_eq. intros y. rewrite abstract_lookup. cbn [vars heap]. destruct (decide (y = x)) as [->|]; [by rewrite !lookup_delete_eq|].
        rewrite !lookup_delete_ne, abstract_lookup by congruence. destruct (vars s !! y) as [p|]; [|done].
        cbn [fmap option_fmap option_map]. f_equal. by apply contents_store.
  - eexists. split; [eapply runs_bind; [by apply runs_self|]; by eapply runs_bind|]. split.
    + apply (wf_same_heap s); [done|..].
      * intros l. pose proof (refs_delete l x _ _ Hx) as H. rewrite points_ne in H by done. lia.
      * intros y l Hy. apply lookup_delete_Some in Hy as [_ Hy]. eauto.
    + unfold abstract. cbn. by rewrite fmap_delete.
Qed.

(** *** The members made of these *)

Ltac lookups := repeat first
  [ rewrite lookup_insert_eq | rewrite lookup_delete_eq
  | rewrite lookup_insert_ne by congruence | rewrite lookup_delete_ne by congruence ].

Lemma yields_assign_move s x y p v : wf s -> abstract s !! x = Some p -> abstract s !! y = Some (Some v) ->
  abstract s !! Tmp 0 = None ->
  yields (assign_move x y) s (<[x := Some v]> (if decide (x = y) then abstract s else <[y := None]> (abstract s))).
Proof.
  intros Hw Hx Hy Ht. assert (x <> Tmp 0) by congruence. assert (y <> Tmp 0) by congruence.
  eapply yields_bind; [by apply yields_ctor_move|]. intros s1 Hw1 E1.
  assert (Ht1 : abstract s1 !! Tmp 0 = Some (Some v)) by (rewrite E1; by lookups).
  assert (Hx1 : abstract s1 !! x = Some (if decide (x = y) then None else p)).
  { rewrite E1. destruct (decide (x = y)) as [->|]; by lookups. }
  eapply yields_bind; [by apply yields_swap|]. intros s2 Hw2 E2.
  assert (Ht2 : abstract s2 !! Tmp 0 = Some (if decide (x = y) then None else p)) by (rewrite E2; by lookups).
  destruct (yields_dtor s2 (Tmp 0) _ Hw2 Ht2) as (s3 & Hr & Hw3 & E3). exists s3. split_and!; [done..|].
  rewrite E3, E2, E1. apply map_eq. intros z.
  destruct (decide (z = Tmp 0)), (decide (z = x)), (decide (x = y)), (decide (z = y)); subst; by lookups.
Qed.

(** Making a temporary, assigning it by moving, and destroying it. *)
Lemma yields_by_temporary m s x p v : yields m s (<[Tmp 1 := Some v]> (abstract s)) ->
  abstract s !! x = Some p -> abstract s !! Tmp 0 = None -> abstract s !! Tmp 1 = None ->
  yields (m ;; assign_move x (Tmp 1) ;; dtor (Tmp 1)) s (<[x := Some v]> (abstract s)).
Proof.
  intros Hm Hx Ht0 Ht1. assert (x <> Tmp 1) by congruence.
  eapply yields_bind; [exact Hm|]. intros s1 Hw1 E1.
  eapply yields_bind; [apply (yields_assign_move s1 x (Tmp 1) p v); [done|rewrite E1; by lookups..]|].
  intros s2 Hw2 E2. rewrite decide_False in E2 by done.
  assert (H2 : abstract s2 !! Tmp 1 = Some None) by (rewrite E2; by lookups).
  destruct (yields_dtor s2 (Tmp 1) _ Hw2 H2) as (s3 & Hr & Hw3 & E3). exists s3. split_and!; [done..|].
  rewrite E3, E2, E1. apply map_eq. intros z.
  destruct (decide (z = Tmp 1)), (decide (z = x)); subst; by lookups.
Qed.

(** The value behind the only handle to it. *)
Lemma yields_store s x l m v : wf s -> vars s !! x = Some (Some l) -> heap s !! l = Some m -> count m = 1 ->
  yields (store l (mk_model (count m) v)) s (<[x := Some v]> (abstract s)).
Proof.
  intros Hw Hx Hm H1. destruct (wf_owned s l m Hw Hm) as [Hc _]. pose proof (refs_pos l x _ Hx) as Hp.
  assert (Hl : l <> default_s) by (intros ->; unfold owners in Hc; rewrite decide_True in Hc by done; lia).
  assert (Hr : refs l (vars s) = 1) by (unfold owners in Hc; rewrite decide_False in Hc by done; lia).
  eexists. split; [done|]. split.
  - constructor; cbn.
    + intros k m'. destruct (decide (k = l)) as [->|]; lookups; [|by apply (wf_owned s)]. intros [= <-]. cbn.
      split; [done|lia].
    + intros y k Hy. destruct (decide (k = l)) as [->|]; lookups; [done|by apply (wf_vars _ Hw y)].
    + intros k Hk. apply (wf_next _ Hw). destruct (decide (k = l)) as [->|]; [by rewrite Hm|].
      by rewrite lookup_insert_ne in Hk.
    + lookups. apply (wf_default _ Hw).
  - apply map_eq. intros y. rewrite abstract_lookup. cbn [vars heap]. destruct (decide (y = x)) as [->|Hne].
    + rewrite Hx. lookups. cbn. by lookups.
    + lookups. rewrite abstract_lookup. destruct (vars s !! y) as [[k|]|] eqn:Hy; try done. cbn.
      destruct (decide (k = l)) as [->|]; [by rewrite (refs_one l y x _ Hr Hy Hx) in Hne|]. by lookups.
Qed.

Lemma yields_assign_value s x p v : wf s -> abstract s !! x = Some p ->
  abstract s !! Tmp 0 = None -> abstract s !! Tmp 1 = None ->
  yields (assign_value x v) s (<[x := Some v]> (abstract s)).
Proof.
  intros Hw Hx Ht0 Ht1.
  pose proof (yields_by_temporary _ s x p v (yields_ctor_value s (Tmp 1) v Hw Ht1) Hx Ht0 Ht1) as Hslow.
  pose proof Hx as Hx'. rewrite abstract_lookup in Hx'. destruct (vars s !! x) as [[l|]|] eqn:Ex; [..|done].
  - destruct (wf_vars _ Hw x l Ex) as [m Hm]. destruct (Nat.eqb_spec (count m) 1) as [E|E].
    + destruct (yields_store s x l m v Hw Ex Hm E) as (s' & Hr & H). exists s'. split; [|done].
      eapply runs_bind; [by apply runs_self|]. eapply runs_bind; [by apply (runs_unique s x l m)|].
      rewrite (proj2 (Nat.eqb_eq _ _) E). eapply runs_bind; [done|]. by eapply runs_bind; [apply runs_deref|].
    + destruct Hslow as (s' & Hr & H). exists s'. split; [|done].
      eapply runs_bind; [by apply runs_self|]. eapply runs_bind; [by apply (runs_unique s x l m)|].
      by rewrite (proj2 (Nat.eqb_neq _ _) E).
  - destruct Hslow as (s' & Hr & H). exists s'. split; [|done].
    eapply runs_bind; [by apply runs_self|]. by eapply runs_bind.
Qed.

(** *** [write] *)

Lemma vars_self s x p s' : runs (self x) s p s' -> s' = s /\ vars s !! x = Some p.
Proof. unfold runs, self, c_bind, c_get. destruct (vars s !! x); [|done]. by intros [= <- <-]. Qed.

Lemma vars_ctor_move s x y s' : runs (ctor_move x y) s tt s' ->
  exists p : option nat, vars s !! y = Some p /\ vars s' = <[y := None]> (<[x := p]> (vars s)).
Proof.
  intros (p & s1 & (-> & Hp)%vars_self & Hr)%runs_bind_inv. exists p. split; [done|].
  apply runs_bind_inv in Hr as ([] & s2 & [= <-] & Hr). apply runs_bind_inv in Hr as (l & s3 & Hl & Hr).
  destruct p; [|done]. injection Hl as <- <-. by injection Hr as <-.
Qed.

Lemma vars_swap s x y s' : runs (swap x y) s tt s' ->
  exists p q, vars s !! x = Some p /\ vars s !! y = Some q /\ vars s' = <[y := p]> (<[x := q]> (vars s)).
Proof.
  intros (p & s1 & (-> & Hp)%vars_self & Hr)%runs_bind_inv.
  apply runs_bind_inv in Hr as (q & s1 & (-> & Hq)%vars_self & Hr). exists p, q. split_and!; [done..|].
  apply runs_bind_inv in Hr as ([] & s2 & [= <-] & Hr). by injection Hr as <-.
Qed.

Lemma vars_modify (f : state -> state) s s' : runs (c_modify f) s tt s' -> s' = f s.
Proof. by intros [= <-]. Qed.

Lemma vars_decrement l s s' : runs (decrement l) s tt s' -> vars s' = vars s.
Proof.
  intros (m & s1 & Hm & Hr)%runs_bind_inv. assert (s1 = s) as ->.
  { unfold runs, deref, c_bind, c_get in Hm. destruct (heap s !! l); [|done]. by injection Hm. }
  apply runs_bind_inv in Hr as ([] & s2 & [= <-] & Hr). unfold c_when in Hr.
  destruct (pred (count m) =? 0); by injection Hr as <-.
Qed.

Lemma vars_dtor s x s' : runs (dtor x) s tt s' -> vars s' = delete x (vars s).
Proof.
  intros (p & s1 & (-> & Hp)%vars_self & Hr)%runs_bind_inv. apply runs_bind_inv in Hr as ([] & s2 & Hd & Hr).
  apply vars_modify in Hr as ->. cbn. destruct p; [by rewrite (vars_decrement _ _ _ Hd)|by injection Hd as <-].
Qed.

(** After a write through a temporary the handle leads to the new model alone. *)
Lemma vars_by_temporary s x v s' : x <> Tmp 0 -> x <> Tmp 1 ->
  runs (ctor_value (Tmp 1) v ;; assign_move x (Tmp 1) ;; dtor (Tmp 1)) s tt s' ->
  vars s' = delete (Tmp 1) (delete (Tmp 0) (<[x := Some (next s)]> (vars s))).
Proof.
  intros H0 H1 ([] & s1 & [= <-] & Hr)%runs_bind_inv. apply runs_bind_inv in Hr as ([] & s2 & Ha & Hd).
  apply vars_dtor in Hd as ->. apply runs_bind_inv in Ha as ([] & s3 & Hm & Ha).
  apply vars_ctor_move in Hm as (p & Hp & Hv3). apply runs_bind_inv in Ha as ([] & s4 & Hs & Hd).
  apply vars_dtor in Hd as ->. apply vars_swap in Hs as (q & r & Hq & Hr & ->). cbn in Hp, Hv3.
  rewrite lookup_insert_eq in Hp. injection Hp as <-. rewrite Hv3 in Hr |- *.
  rewrite lookup_insert_ne, lookup_insert_eq in Hr by done. injection Hr as <-.
  apply map_eq. intros z. destruct (decide (z = Tmp 1)), (decide (z = Tmp 0)), (decide (z = x)); subst; by lookups.
Qed.

Lemma yields_modify s x v f : wf s -> abstract s !! x = Some (Some v) ->
  abstract s !! Tmp 0 = None -> abstract s !! Tmp 1 = None ->
  yields (modify x f) s (<[x := Some (f v)]> (abstract s)).
Proof.
  intros Hw Hx Ht0 Ht1. pose proof (value_lookup s x v Hx) as (l & m & Ex & Hm & Hv).
  assert (Hstore : forall s1 l1 m1, wf s1 -> abstract s1 = abstract s -> vars s1 !! x = Some (Some l1) ->
    heap s1 !! l1 = Some m1 -> count m1 = 1 -> runs (write x) s l1 s1 -> yields (modify x f) s (<[x := Some (f v)]> (abstract s))).
  { intros s1 l1 m1 Hw1 Ha1 E1 Hm1 Hc1 Hr1. assert (value m1 = v) as <-.
    { rewrite <- Ha1, abstract_lookup, E1 in Hx. cbn in Hx. rewrite Hm1 in Hx. by injection Hx. }
    destruct (yields_store s1 x l1 m1 (f (value m1)) Hw1 E1 Hm1 Hc1) as (s2 & Hr2 & Hw2 & Ha2). exists s2.
    rewrite <- Ha1. split; [|done]. eapply runs_bind; [exact Hr1|]. by eapply runs_bind; [apply runs_deref|]. }
  destruct (Nat.eqb_spec (count m) 1) as [E|E].
  - apply (Hstore s l m); try done. eapply runs_bind; [by apply (runs_unique s x l m)|].
    rewrite (proj2 (Nat.eqb_eq _ _) E). eapply runs_bind; [done|]. by eapply runs_bind; [apply runs_self|].
  - destruct (yields_by_temporary _ s x (Some v) v (yields_ctor_value s (Tmp 1) v Hw Ht1) Hx Ht0 Ht1) as (s1 & Hr & Hw1 & Ha1).
    assert (Hne : x <> Tmp 0 /\ x <> Tmp 1) by (split; congruence). destruct Hne as [Hne0 Hne1].
    pose proof (vars_by_temporary s x v s1 Hne0 Hne1 Hr) as Hvars. rewrite insert_id in Ha1 by done.
    rewrite abstract_none in Ht0, Ht1. rewrite (delete_id _ (Tmp 0)), (delete_id _ (Tmp 1)) in Hvars by (by lookups).
    assert (E1 : vars s1 !! x = Some (Some (next s))) by (rewrite Hvars; by lookups).
    destruct (wf_vars _ Hw1 x _ E1) as [m1 Hm1]. apply (Hstore s1 (next s) m1); try done.
    + destruct (wf_owned s1 _ m1 Hw1 Hm1) as [-> _]. unfold owners. rewrite Hvars.
      pose proof (refs_set (next s) x _ (Some (next s)) _ Ex) as H. rewrite points_eq in H.
      rewrite (unused_refs s) in H by (done || by apply fresh_address). rewrite points_ne in H.
      * rewrite decide_False; [lia|]. intros E2. pose proof (wf_default _ Hw) as Hd.
        by rewrite <- E2, (fresh_address s Hw) in Hd.
      * intros [= ->]. by rewrite (fresh_address s Hw) in Hm.
    + eapply runs_bind; [by apply (runs_unique s x l m)|]. rewrite (proj2 (Nat.eqb_neq _ _) E).
      eapply runs_bind; [eapply runs_bind; [by apply runs_read|exact Hr]|].
      by eapply runs_bind; [apply runs_self|].
Qed.

(** *** Programs *)

Definition no_temporaries (a : gmap var (option T)) : Prop := forall n, a !! Tmp n = None.

Lemma fresh_spec x a : is_Some (fresh x a) -> a !! x = None /\ exists n, x = Var n.
Proof. unfold fresh. intros [u Hu]. destruct x as [n|n], (a !! _) eqn:E; try done. split; [done|by exists n]. Qed.
Lemma value_of_spec x a v : value_of x a = Some v -> a !! x = Some (Some v) /\ exists n, x = Var n.
Proof. destruct x as [n|n]; cbn; [|done]. destruct (a !! Var n) as [[w|]|]; cbn; try done. intros [= ->]. eauto. Qed.
Lemma scope_of_spec x a p : scope_of x a = Some p -> a !! x = Some p /\ exists n, x = Var n.
Proof. destruct x as [n|n]; cbn; [|done]. eauto. Qed.

Lemma op_runs o s a : wf s -> no_temporaries (abstract s) -> op_spec o (abstract s) = Some a ->
  yields (run_op o) s a /\ no_temporaries a.
Proof.
  intros Hw Ht Ho. pose proof (Ht 0) as Ht0. pose proof (Ht 1) as Ht1.
  destruct o as [x|x v|x y|x y|x|x y|x y|x v|x f|x y]; cbn in Ho;
    repeat match type of Ho with
    | context [fresh ?x ?a] => destruct (fresh x a) eqn:E1; cbn in Ho; [|done];
        destruct (fresh_spec x a) as [Hf [? ->]]; [by rewrite E1|]
    | context [scope_of ?x ?a] => destruct (scope_of x a) eqn:?; cbn in Ho; [|done]
    | context [value_of ?x ?a] => destruct (value_of x a) eqn:?; cbn in Ho; [|done]
    end; injection Ho as <-;
    repeat match goal with
    | H : scope_of _ _ = Some _ |- _ => apply scope_of_spec in H as [? [? ->]]
    | H : value_of _ _ = Some _ |- _ => apply value_of_spec in H as [? [? ->]]
    end;
    (split; [|intros n; repeat case_decide; lookups; apply Ht]).
  - by apply yields_ctor_default.
  - by apply yields_ctor_value.
  - by apply yields_ctor_copy.
  - by apply yields_ctor_move.
  - by eapply yields_dtor.
  - eapply yields_by_temporary; [|done..]. by apply yields_ctor_copy.
  - by eapply yields_assign_move.
  - by eapply yields_assign_value.
  - by apply yields_modify.
  - by apply yields_swap.
Qed.

Lemma ops_run os : forall s a, wf s -> no_temporaries (abstract s) -> ops_spec os (abstract s) = Some a ->
  yields (run_ops os) s a.
Proof.
  induction os as [|o os IH]; intros s a Hw Ht Ho; cbn in Ho; [by injection Ho as <-; exists s|].
  destruct (op_spec o (abstract s)) as [a1|] eqn:E; [|done]. cbn in Ho.
  destruct (op_runs o s a1 Hw Ht E) as [Hy Ht1]. eapply yields_bind; [exact Hy|]. intros s1 Hw1 E1.
  apply IH; [done|..]; by rewrite E1.
Qed.

Lemma wf_start : wf start.
Proof.
  constructor; cbn; try done.
  - intros l m [<- <-]%lookup_singleton_Some. done.
  - intros l [m [<- _]%lookup_singleton_Some]. unfold default_s. lia.
Qed.

(** With no handle left only the static model is. *)
Lemma no_leak s : wf s -> abstract s = ∅ -> heap s = {[ default_s := mk_model 1 T_default ]}.
Proof.
  intros Hw Ha. assert (Hr : forall l, refs l (vars s) = 0).
  { intros l. unfold refs. apply map_size_empty_iff, map_empty. intros x. apply map_lookup_filter_None. left.
    by rewrite <- abstract_none, Ha. }
  apply map_eq. intros l. pose proof (wf_default _ Hw) as Hd. destruct (decide (l = default_s)) as [->|Hl].
  - rewrite lookup_singleton_eq. destruct (heap s !! default_s) as [m|] eqn:Hm; [|done]. injection Hd as Hd.
    destruct (wf_owned s _ m Hw Hm) as [Hc _]. unfold owners in Hc. rewrite Hr, decide_True in Hc by done.
    destruct m. cbn in *. by subst.
  - rewrite lookup_singleton_ne by done. destruct (heap s !! l) as [m|] eqn:Hm; [|done].
    destruct (wf_owned s l m Hw Hm) as [Hc Hn]. unfold owners in Hc. rewrite Hr, decide_False in Hc by done. by rewrite Hc in Hn.
Qed.

(** *** Comparison *)

Definition operand_spec (s : state) (a : operand) : option T :=
  match a with Handle x => mjoin (abstract s !! x) | Element v => Some v end.

Lemma mjoin_value {A} (o : option (option A)) v : mjoin o = Some v -> o = Some (Some v).
Proof. destruct o as [[]|]; cbn; congruence. Qed.

Lemma runs_operand s a v : operand_spec s a = Some v -> runs (operand_value a) s v s.
Proof. destruct a as [x|w]; cbn; [intros H%mjoin_value; by apply runs_read|by intros [= ->]]. Qed.

Lemma runs_identity s x y v w : abstract s !! x = Some (Some v) -> abstract s !! y = Some (Some w) ->
  exists b, runs (identity x y) s b s /\ (b = true -> v = w).
Proof.
  intros (l & m & Hx & Hm & <-)%value_lookup (k & m' & Hy & Hm' & <-)%value_lookup. exists (l =? k). split.
  - eapply runs_bind; [by apply runs_self|]. eapply runs_bind; [done|].
    eapply runs_bind; [by apply runs_self|]. by eapply runs_bind.
  - intros ->%Nat.eqb_eq. congruence.
Qed.

Section compare.
Context (T_eq_refl : forall v, T_eq v v = true) (T_less_irrefl : forall v, T_less v v = false).

Lemma runs_less s a b v w : operand_spec s a = Some v -> operand_spec s b = Some w -> runs (less a b) s (T_less v w) s.
Proof.
  intros Ha Hb. destruct a as [x|v'], b as [y|w'];
    try (eapply runs_bind; [by apply (runs_operand s _ v)|]; eapply runs_bind; [by apply (runs_operand s _ w)|done]).
  apply mjoin_value in Ha, Hb. destruct (runs_identity s x y v w Ha Hb) as (b & Hr & Hi).
  eapply runs_bind; [exact Hr|]. destruct b.
  - rewrite (Hi eq_refl), T_less_irrefl. done.
  - eapply runs_bind; [by apply runs_read|]. by eapply runs_bind; [apply runs_read|].
Qed.

Lemma runs_equal s a b v w : operand_spec s a = Some v -> operand_spec s b = Some w -> runs (equal a b) s (T_eq v w) s.
Proof.
  intros Ha Hb. destruct a as [x|v'], b as [y|w'];
    try (eapply runs_bind; [by apply (runs_operand s _ v)|]; eapply runs_bind; [by apply (runs_operand s _ w)|done]).
  apply mjoin_value in Ha, Hb. destruct (runs_identity s x y v w Ha Hb) as (b & Hr & Hi).
  eapply runs_bind; [exact Hr|]. destruct b.
  - rewrite (Hi eq_refl), T_eq_refl. done.
  - eapply runs_bind; [by apply runs_read|]. by eapply runs_bind; [apply runs_read|].
Qed.
End compare.
End copy_on_write.

(** Two handles share a value, one is written, one is moved from and destroyed. *)
Definition demo_ops : list (op (T := nat)) :=
  [Value (Var 0) 7; Copy (Var 1) (Var 0); Modify (Var 1) S; Default (Var 2);
   AssignMove (Var 2) (Var 0); AssignMove (Var 1) (Var 1); AssignValue (Var 0) 3; Swap (Var 0) (Var 2); Destroy (Var 0)].
Definition demo_values : gmap var (option nat) := {[ Var 1 := Some 8; Var 2 := Some 3 ]}.

(** ** Properties *)

(** C21: handles behave as values: whatever a program does with them within the
    rules (no use of a variable out of scope, no use of a moved-from handle but
    assignment, swap and destruction), it meets no null pointer and no deleted
    model, and each handle stands for what it would stand for if every variable
    held its own value; a write through one is not seen through another. Where no
    handle is left every model but the static default has been deleted. *)
Theorem copy_on_write_refines {T : Type} (T_default : T) (os : list op) (a : gmap var (option T)) :
  ops_spec T_default os ∅ = Some a ->
  exists s, runs (run_ops os) (start T_default) tt s /\ abstract s = a /\
    (a = ∅ -> heap s = {[ default_s := mk_model 1 T_default ]}).
Proof.
  intros Ho. destruct (ops_run T_default os (start T_default) a (wf_start T_default)) as (s & Hr & Hw & Ha).
  - intros n. done.
  - exact Ho.
  - exists s. split_and!; [done..|]. intros ->. by apply no_leak.
Qed.

Lemma copy_on_write_refines_witness :
  exists s, runs (run_ops demo_ops) (start 0) tt s /\ abstract s = demo_values /\
    (demo_values = ∅ -> heap s = {[ default_s := mk_model 1 0 ]}).
Proof. apply (copy_on_write_refines 0 demo_ops demo_values). vm_compute. reflexivity. Defined.

(** The shortcuts of the comparisons by identity are sound: on handles and
    elements the six operators answer what the element type's own answer on the
    values, if its equality is reflexive and its order irreflexive. *)
Theorem copy_on_write_compares {T : Type} (T_eq T_less : T -> T -> bool) (s : state) (a b : operand) (v w : T) :
  (forall v, T_eq v v = true) -> (forall v, T_less v v = false) ->
  operand_spec s a = Some v -> operand_spec s b = Some w ->
  runs (equal T_eq a b) s (T_eq v w) s /\ runs (not_equal T_eq a b) s (negb (T_eq v w)) s /\
  runs (less T_less a b) s (T_less v w) s /\ runs (greater T_less a b) s (T_less w v) s /\
  runs (less_equal T_less a b) s (negb (T_less w v)) s /\ runs (greater_equal T_less a b) s (negb (T_less v w)) s.
Proof.
  intros He Hl Ha Hb.
  pose proof (runs_equal T_eq He s a b v w Ha Hb) as H1. pose proof (runs_less T_less Hl s a b v w Ha Hb) as H2.
  pose proof (runs_less T_less Hl s b a w v Hb Ha) as H3.
  split_and!; try done; by eapply runs_bind.
Qed.

Lemma copy_on_write_compares_witness :
  let s := mk_state {[ 0 := mk_model 1 5; 1 := mk_model 2 6 ]} {[ Var 0 := Some 1; Var 1 := Some 1 ]} 2 in
  runs (equal Nat.eqb (Handle (Var 0)) (Handle (Var 1))) s true s /\
  runs (not_equal Nat.eqb (Handle (Var 0)) (Handle (Var 1))) s false s /\
  runs (less Nat.ltb (Handle (Var 0)) (Handle (Var 1))) s false s /\
  runs (greater Nat.ltb (Handle (Var 0)) (Handle (Var 1))) s false s /\
  runs (less_equal Nat.ltb (Handle (Var 0)) (Handle (Var 1))) s true s /\
  runs (greater_equal Nat.ltb (Handle (Var 0)) (Handle (Var 1))) s true s.
Proof.
  apply (copy_on_write_compares Nat.eqb Nat.ltb _ (Handle (Var 0)) (Handle (Var 1)) 6 6);
    [apply Nat.eqb_refl|apply Nat.ltb_irrefl|vm_compute; reflexivity..].
Defined.
