(* ===== verification/StlabTask.v ===== *)
(** * Type-erased tasks

    Model of [stlab]'s [task<R(Args...)>] ([deps/clean_stlab], [task.hpp]): a move-only
    function object that keeps its functor in a buffer of its own if it fits, and
    on the free store otherwise, behind a table of functions. Objects are the
    variables of a program and the temporaries of the members, so that an object
    can be moved onto itself. Reading a buffer through the table of another type,
    or after its content was destroyed, is undefined behaviour. *)

From stdpp Require Import gmap.
From S2P Require Import Prelude.
Local Open Scope c_scope.

Inductive var := Var (n : nat) | Tmp (n : nat).
#[global] Instance var_eq_dec : EqDecision var.
Proof. solve_decision. Defined.
#[global] Instance var_countable : Countable var.
Proof.
  refine (inj_countable' (fun v => match v with Var n => inl n | Tmp n => inr n end)
    (fun s => match s with inl n => Var n | inr n => Tmp n end) _). by intros [].
Defined.

Section task.
(** The function objects: their types with the size of [model<F, true>], the
    states of an object of a type, which of these are empty ([is_empty]: null
    pointers, empty [std::function]s), what is left after a move, and a call with
    the arguments [A]. *)
Context {F : Type} `{EqDecision F} {V A R : Type}.
Context (size : F -> Z) (is_empty : F -> V -> bool) (moved : F -> V -> V) (call : F -> V -> A -> R * V).

(** ** Data *)

(** [256 - sizeof(void* )], 64-bit pointers. *)
Definition small_object_size : Z := 256 - 8.
Definition small (t : F) : bool := (size t <=? small_object_size)%Z.

(** Which [concept_t] the object points to, and what its buffer holds: nothing
    yet, a functor, a [unique_ptr] ([None]: null), the remains of either. *)
Inductive vtable := EmptyTable | SmallTable (t : F) | LargeTable (t : F).
Inductive buffer := Raw | InPlace (t : F) (v : V) | OnHeap (t : F) (p : option V) | Destroyed.
Record task := mk_task { vtable_ptr : vtable; model : buffer }.
#[local] Abbreviation state := (gmap var task).

(** ** The functions of the tables *)

(** [static_cast<model*>(self)] to the small and the large model of a type. *)
Definition as_small (t : F) (b : buffer) : C state V :=
  match b with
  | InPlace u v => if decide (u = t) then c_ret v else c_undefined BadConversion
  | Destroyed => c_undefined UseAfterFree
  | _ => c_undefined BadConversion
  end.
Definition as_large (t : F) (b : buffer) : C state (option V) :=
  match b with
  | OnHeap u p => if decide (u = t) then c_ret p else c_undefined BadConversion
  | Destroyed => c_undefined UseAfterFree
  | _ => c_undefined BadConversion
  end.

(** [dtor(&_model)]: the buffer after it. *)
Definition table_dtor (k : vtable) (b : buffer) : C state buffer :=
  match k with
  | EmptyTable => c_ret b
  | SmallTable t => let* v := as_small t b in c_ret Destroyed
  | LargeTable t => let* p := as_large t b in c_ret Destroyed
  end.

(** [move_ctor(self, p)]: the buffers [self] and [p] after it. *)
Definition table_move (k : vtable) (self p : buffer) : C state (buffer * buffer) :=
  match k with
  | EmptyTable => c_ret (self, p)
  | SmallTable t => let* v := as_small t self in c_ret (InPlace t (moved t v), InPlace t v)
  | LargeTable t => let* q := as_large t self in c_ret (OnHeap t None, OnHeap t q)
  end.

(** [invoke]: the result, [None] for [bad_function_call], and the buffer. *)
Definition table_invoke (k : vtable) (b : buffer) (args : A) : C state (option R * buffer) :=
  match k with
  | EmptyTable => c_ret (None, b)
  | SmallTable t =>
      let* v := as_small t b in
      c_ret (Some (call t v args).1, InPlace t (call t v args).2)
  | LargeTable t =>
      let* p := as_large t b in
      match p with
      | Some v => c_ret (Some (call t v args).1, OnHeap t (Some (call t v args).2))
      | None => c_undefined NullCall
      end
  end.

(** [target_type], [None] for [typeid(void)]; and [pointer] and [const_pointer]. *)
Definition table_target_type (k : vtable) : option F :=
  match k with EmptyTable => None | SmallTable t | LargeTable t => Some t end.
Definition table_pointer (k : vtable) (b : buffer) : C state (option V) :=
  match k with
  | EmptyTable => c_ret None
  | SmallTable t => let* v := as_small t b in c_ret (Some v)
  | LargeTable t => as_large t b
  end.

(** ** The members *)

Definition get (x : var) : C state task :=
  let* s := c_get in match s !! x with Some o => c_ret o | None => c_undefined Uninitialised end.
Definition put (x : var) (o : task) : C state unit := c_modify (fun s => <[x := o]> s).
Definition set_model (x : var) (b : buffer) : C state unit :=
  let* o := get x in put x (mk_task (vtable_ptr o) b).

Definition ctor_default (x : var) : C state unit := put x (mk_task EmptyTable Raw).

(** [move_ctor(&y._model, &x._model)]; the two buffers may be one. *)
Definition move_buffer (k : vtable) (x y : var) : C state unit :=
  let* from := get y in let* to := get x in
  let* bs := table_move k (model from) (model to) in
  set_model y bs.1 ;; set_model x bs.2.
Definition ctor_move (x y : var) : C state unit :=
  let* o := get y in
  put x (mk_task (vtable_ptr o) Raw) ;;
  move_buffer (vtable_ptr o) x y.
Definition ctor_functor (x : var) (t : F) (v : V) : C state unit :=
  put x (mk_task EmptyTable Raw) ;;
  if is_empty t v then c_ret tt
  else if small t then put x (mk_task (SmallTable t) (InPlace t v))
  else put x (mk_task (LargeTable t) (OnHeap t (Some v))).
Definition dtor (x : var) : C state unit :=
  let* o := get x in
  let* b := table_dtor (vtable_ptr o) (model o) in
  c_modify (fun s => delete x s).
Definition assign_move (x y : var) : C state unit :=
  let* o := get x in
  let* b := table_dtor (vtable_ptr o) (model o) in
  set_model x b ;;
  let* o' := get y in let* o := get x in
  put x (mk_task (vtable_ptr o') (model o)) ;;
  move_buffer (vtable_ptr o') x y.
Definition assign_null (x : var) : C state unit :=
  ctor_default (Tmp 1) ;; assign_move x (Tmp 1) ;; dtor (Tmp 1).
Definition assign_functor (x : var) (t : F) (v : V) : C state unit :=
  ctor_functor (Tmp 1) t v ;; assign_move x (Tmp 1) ;; dtor (Tmp 1).
(** [std::swap]. *)
Definition swap (x y : var) : C state unit :=
  ctor_move (Tmp 0) x ;; assign_move x y ;; assign_move y (Tmp 0) ;; dtor (Tmp 0).

(** [operator bool], the comparisons with [nullptr], [target_type], [target] and
    the call operator. *)
Definition as_bool (x : var) : C state bool :=
  let* o := get x in let* p := table_pointer (vtable_ptr o) (model o) in
  c_ret (match p with Some _ => true | None => false end).
Definition is_null (x : var) : C state bool := let* b := as_bool x in c_ret (negb b).
Definition target_type (x : var) : C state (option F) :=
  let* o := get x in c_ret (table_target_type (vtable_ptr o)).
Definition target (x : var) (t : F) : C state (option V) :=
  let* u := target_type x in
  if decide (u = Some t) then let* o := get x in table_pointer (vtable_ptr o) (model o) else c_ret None.
Definition invoke (x : var) (args : A) : C state (option R) :=
  let* o := get x in
  let* r := table_invoke (vtable_ptr o) (model o) args in
  set_model x r.2 ;; c_ret r.1.

(** ** Specification: a task holds nothing, a functor, or the place of one that
    was moved away. *)
Inductive content := Nothing | Holds (t : F) (v : V) | Gone (t : F).

(** The object that holds it: by the size of the type. *)
Definition represent (c : content) (o : task) : Prop :=
  match c with
  | Nothing => vtable_ptr o = EmptyTable
  | Holds t v => o = if small t then mk_task (SmallTable t) (InPlace t v) else mk_task (LargeTable t) (OnHeap t (Some v))
  | Gone t => small t = false /\ o = mk_task (LargeTable t) (OnHeap t None)
  end.
Definition represents (cs : gmap var content) (s : state) : Prop :=
  forall x, match cs !! x, s !! x with
            | Some c, Some o => represent c o
            | None, None => True
            | _, _ => False
            end.

(** What a move leaves behind. *)
Definition left_behind (c : content) : content :=
  match c with
  | Holds t v => if small t then Holds t (moved t v) else Gone t
  | c => c
  end.
Definition made_of (t : F) (v : V) : content := if is_empty t v then Nothing else Holds t v.

Inductive op :=
  | Default (x : var) | Functor (x : var) (t : F) (v : V) | Move (x y : var) | Destroy (x : var)
  | AssignMove (x y : var) | AssignNull (x : var) | AssignFunctor (x : var) (t : F) (v : V) | Swap (x y : var)
  | Call (x : var) (args : A).

Definition run_op (o : op) : C state unit :=
  match o with
  | Default x => ctor_default x
  | Functor x t v => ctor_functor x t v
  | Move x y => ctor_move x y
  | Destroy x => dtor x
  | AssignMove x y => assign_move x y
  | AssignNull x => assign_null x
  | AssignFunctor x t v => assign_functor x t v
  | Swap x y => swap x y
  | Call x args => let* r := invoke x args in c_ret tt
  end.
Fixpoint run_ops (os : list op) : C state unit :=
  match os with [] => c_ret tt | o :: os' => run_op o ;; run_ops os' end.

Definition fresh (x : var) (cs : gmap var content) : option unit :=
  match x, cs !! x with Var _, None => Some tt | _, _ => None end.
Definition scope_of (x : var) (cs : gmap var content) : option content :=
  match x with Var _ => cs !! x | Tmp _ => None end.

(** [None]: the program is not allowed to; assigning or swapping an object with
    itself, and calling one whose functor was moved away, are not. *)
Definition op_spec (o : op) (cs : gmap var content) : option (gmap var content) :=
  match o with
  | Default x => _ ← fresh x cs; Some (<[x := Nothing]> cs)
  | Functor x t v => _ ← fresh x cs; Some (<[x := made_of t v]> cs)
  | Move x y => _ ← fresh x cs; c ← scope_of y cs; Some (<[x := c]> (<[y := left_behind c]> cs))
  | Destroy x => _ ← scope_of x cs; Some (delete x cs)
  | AssignMove x y =>
      _ ← scope_of x cs; c ← scope_of y cs;
      if decide (x = y) then None else Some (<[x := c]> (<[y := left_behind c]> cs))
  | AssignNull x => _ ← scope_of x cs; Some (<[x := Nothing]> cs)
  | AssignFunctor x t v => _ ← scope_of x cs; Some (<[x := made_of t v]> cs)
  | Swap x y =>
      c ← scope_of x cs; d ← scope_of y cs;
      if decide (x = y) then None else Some (<[x := d]> (<[y := c]> cs))
  | Call x args =>
      c ← scope_of x cs;
      match c with
      | Nothing => Some cs
      | Holds t v => Some (<[x := Holds t (call t v args).2]> cs)
      | Gone _ => None
      end
  end.
Fixpoint ops_spec (os : list op) (cs : gmap var content) : option (gmap var content) :=
  match os with [] => Some cs | o :: os' => cs' ← op_spec o cs; ops_spec os' cs' end.

(** ** Lemmas *)

Ltac lookups := repeat first
  [ rewrite lookup_insert_eq | rewrite lookup_delete_eq
  | rewrite lookup_insert_ne by congruence | rewrite lookup_delete_ne by congruence ].

Lemma rep_lookup cs s x c : represents cs s -> cs !! x = Some c -> exists o, s !! x = Some o /\ represent c o.
Proof. intros H Hx. specialize (H x). rewrite Hx in H. destruct (s !! x) as [o|]; [by exists o|done]. Qed.

Lemma rep_insert cs s x c o : represents cs s -> represent c o -> represents (<[x := c]> cs) (<[x := o]> s).
Proof. intros H Hc y. destruct (decide (y = x)) as [->|]; lookups; [done|apply H]. Qed.

Lemma rep_delete cs s x : represents cs s -> represents (delete x cs) (delete x s).
Proof. intros H y. destruct (decide (y = x)) as [->|]; lookups; [done|apply H]. Qed.

Lemma runs_get_task s x o : s !! x = Some o -> runs (get x) s o s.
Proof. intros H. unfold runs, get, c_bind, c_get. by rewrite H. Qed.

Lemma runs_put (s : state) x o : runs (put x o) s tt (<[x := o]> s).
Proof. done. Qed.

Lemma runs_set_model s x o b : s !! x = Some o -> runs (set_model x b) s tt (<[x := mk_task (vtable_ptr o) b]> s).
Proof. intros H. by eapply runs_bind; [apply runs_get_task|]. Qed.

Lemma runs_as_small (s : state) t v : runs (as_small t (InPlace t v)) s v s.
Proof. unfold as_small. by rewrite decide_True. Qed.
Lemma runs_as_large (s : state) t p : runs (as_large t (OnHeap t p)) s p s.
Proof. unfold as_large. by rewrite decide_True. Qed.

(** The table of an object fits its buffer. *)
Lemma runs_table_dtor s c o : represent c o -> exists b,
  runs (table_dtor (vtable_ptr o) (model o)) s b s /\ (c <> Nothing -> b = Destroyed /\ vtable_ptr o <> EmptyTable).
Proof.
  destruct o as [k b]. destruct c as [|t v|t]; cbn.
  - intros ->. by exists b.
  - destruct (small t); intros [= -> ->]; exists Destroyed;
      (split; [eapply runs_bind; [apply runs_as_small || apply runs_as_large|done]|done]).
  - intros [_ [= -> ->]]. exists Destroyed. split; [eapply runs_bind; [apply runs_as_large|done]|done].
Qed.

Lemma runs_table_move s c o p : represent c o -> exists b1 b2,
  runs (table_move (vtable_ptr o) (model o) p) s (b1, b2) s /\
  represent (left_behind c) (mk_task (vtable_ptr o) b1) /\ represent c (mk_task (vtable_ptr o) b2).
Proof.
  destruct o as [k b]. destruct c as [|t v|t]; cbn.
  - intros ->. by exists b, p.
  - destruct (small t) eqn:E; intros [= -> ->]; do 2 eexists.
    + split; [by eapply runs_bind; [apply runs_as_small|]|]. cbn. by rewrite E.
    + split; [by eapply runs_bind; [apply runs_as_large|]|]. done.
  - intros [Hs [= -> ->]]. do 2 eexists. by split; [eapply runs_bind; [apply runs_as_large|]|].
Qed.

Definition yields (m : C state unit) (s : state) (cs : gmap var content) : Prop :=
  exists s', runs m s tt s' /\ represents cs s'.

Lemma task_yields_bind m k s a b : yields m s a -> (forall s', represents a s' -> yields k s' b) -> yields (m ;; k) s b.
Proof.
  intros (s1 & Hr & Ha) Hk. destruct (Hk s1 Ha) as (s2 & Hr2 & Ha2).
  exists s2. split; [by eapply runs_bind|done].
Qed.

Lemma task_yields_ctor_default s cs x : represents cs s -> yields (ctor_default x) s (<[x := Nothing]> cs).
Proof. intros H. eexists. split; [done|]. by apply rep_insert. Qed.

Lemma yields_ctor_functor s cs x t v : represents cs s -> yields (ctor_functor x t v) s (<[x := made_of t v]> cs).
Proof.
  intros H. unfold made_of, ctor_functor. set (s1 := <[x := mk_task EmptyTable Raw]> s).
  assert (Hset : forall o, <[x := o]> s1 = <[x := o]> s) by (intros o; apply insert_insert_eq).
  destruct (is_empty t v); [|destruct (small t) eqn:E]; eexists; (split; [by eapply runs_bind|]);
    cbn [fst snd]; fold s1; rewrite ?Hset; apply rep_insert; try done; cbn; by rewrite E.
Qed.

Lemma task_yields_dtor s cs x c : represents cs s -> cs !! x = Some c -> yields (dtor x) s (delete x cs).
Proof.
  intros H Hx. destruct (rep_lookup _ _ _ _ H Hx) as (o & Ho & Hc). destruct (runs_table_dtor s c o Hc) as (b & Hb & _).
  eexists. split; [|by apply rep_delete]. eapply runs_bind; [by apply runs_get_task|]. by eapply runs_bind.
Qed.

(** Moving the buffer of [y] into that of [x], which has the table already. *)
Lemma yields_move_buffer s cs x y c o b : represents cs s -> cs !! y = Some c -> s !! y = Some o -> represent c o -> x <> y ->
  yields (move_buffer (vtable_ptr o) x y) (<[x := mk_task (vtable_ptr o) b]> s) (<[x := c]> (<[y := left_behind c]> cs)).
Proof.
  intros H Hy Ho Hc Hne. set (s1 := <[x := mk_task (vtable_ptr o) b]> s).
  destruct (runs_table_move s1 c o b Hc) as (b1 & b2 & Hm & Hl & Hr).
  assert (Hy1 : s1 !! y = Some o) by (unfold s1; by lookups).
  assert (Hx1 : s1 !! x = Some (mk_task (vtable_ptr o) b)) by (unfold s1; by lookups).
  exists (<[x := mk_task (vtable_ptr o) b2]> (<[y := mk_task (vtable_ptr o) b1]> s)). split.
  - eapply runs_bind; [by apply runs_get_task|]. eapply runs_bind; [by apply runs_get_task|].
    eapply runs_bind; [exact Hm|]. eapply runs_bind; [by apply (runs_set_model _ _ o)|].
    unfold runs. rewrite (runs_set_model _ x (mk_task (vtable_ptr o) b)) by (by lookups). cbn [vtable_ptr snd].
    cbn [fst]. unfold s1. rewrite (insert_insert_ne _ y x) by done. by rewrite insert_insert_eq.
  - apply rep_insert; [|done]. by apply rep_insert.
Qed.

Lemma task_yields_ctor_move s cs x y c : represents cs s -> cs !! y = Some c -> x <> y ->
  yields (ctor_move x y) s (<[x := c]> (<[y := left_behind c]> cs)).
Proof.
  intros H Hy Hne. destruct (rep_lookup _ _ _ _ H Hy) as (o & Ho & Hc).
  destruct (yields_move_buffer s cs x y c o Raw H Hy Ho Hc Hne) as (s' & Hr & H'). exists s'. split; [|done].
  eapply runs_bind; [by apply runs_get_task|]. by eapply runs_bind.
Qed.

Lemma task_yields_assign_move s cs x y c d : represents cs s -> cs !! x = Some d -> cs !! y = Some c -> x <> y ->
  yields (assign_move x y) s (<[x := c]> (<[y := left_behind c]> cs)).
Proof.
  intros H Hx Hy Hne. destruct (rep_lookup _ _ _ _ H Hy) as (o & Ho & Hc).
  destruct (rep_lookup _ _ _ _ H Hx) as (ox & Hox & Hd). destruct (runs_table_dtor s d ox Hd) as (b & Hb & _).
  destruct (yields_move_buffer s cs x y c o b H Hy Ho Hc Hne) as (s' & Hr & H'). exists s'. split; [|done].
  eapply runs_bind; [by apply runs_get_task|]. eapply runs_bind; [exact Hb|].
  eapply runs_bind; [by apply (runs_set_model _ _ ox)|].
  eapply runs_bind; [apply runs_get_task; by lookups|]. eapply runs_bind; [apply runs_get_task; by lookups|].
  eapply runs_bind; [apply runs_modify|]. cbn [model]. by rewrite insert_insert_eq.
Qed.

(** Assigning a temporary that is then destroyed. *)
Lemma task_yields_by_temporary m s cs x c d : yields m s (<[Tmp 1 := c]> cs) -> cs !! x = Some d ->
  cs !! Tmp 1 = None -> yields (m ;; assign_move x (Tmp 1) ;; dtor (Tmp 1)) s (<[x := c]> cs).
Proof.
  intros Hm Hx Ht. assert (Hne : x <> Tmp 1) by congruence. eapply task_yields_bind; [exact Hm|]. intros s1 H1.
  eapply task_yields_bind; [apply (task_yields_assign_move s1 _ x (Tmp 1) c d H1); by lookups|]. intros s2 H2.
  destruct (task_yields_dtor s2 _ (Tmp 1) (left_behind c) H2) as (s3 & Hr & H3); [by lookups|].
  exists s3. split; [done|]. assert (E : delete (Tmp 1) (<[x:=c]> (<[Tmp 1:=left_behind c]> (<[Tmp 1:=c]> cs))) = <[x := c]> cs).
  { apply map_eq. intros z. destruct (decide (z = Tmp 1)), (decide (z = x)); subst; by lookups. }
  by rewrite <- E.
Qed.

Lemma task_yields_swap s cs x y c d : represents cs s -> cs !! x = Some c -> cs !! y = Some d -> x <> y ->
  cs !! Tmp 0 = None -> yields (swap x y) s (<[x := d]> (<[y := c]> cs)).
Proof.
  intros H Hx Hy Hne Ht. assert (Hx0 : x <> Tmp 0) by congruence. assert (Hy0 : y <> Tmp 0) by congruence.
  eapply task_yields_bind; [by apply (task_yields_ctor_move s cs (Tmp 0) x c)|]. intros s1 H1.
  eapply task_yields_bind; [apply (task_yields_assign_move s1 _ x y d (left_behind c) H1); [by lookups..|done]|]. intros s2 H2.
  eapply task_yields_bind; [apply (task_yields_assign_move s2 _ y (Tmp 0) c (left_behind d) H2); by lookups|]. intros s3 H3.
  destruct (task_yields_dtor s3 _ (Tmp 0) (left_behind c) H3) as (s4 & Hr & H4); [by lookups|].
  exists s4. split; [done|].
  match type of H4 with represents ?m _ => replace m with (<[x := d]> (<[y := c]> cs)) in H4; [done|] end.
  apply map_eq. intros z. destruct (decide (z = Tmp 0)), (decide (z = x)), (decide (z = y)); subst; by lookups.
Qed.

Lemma runs_call s cs x c args : represents cs s -> cs !! x = Some c -> (forall t, c <> Gone t) ->
  exists s', runs (invoke x args) s (match c with Holds t v => Some (call t v args).1 | _ => None end) s' /\
    represents (<[x := match c with Holds t v => Holds t (call t v args).2 | c => c end]> cs) s'.
Proof.
  intros H Hx Hg. destruct (rep_lookup _ _ _ _ H Hx) as (o & Ho & Hc). destruct o as [k b].
  assert (Hinv : forall r b', runs (table_invoke k b args) s (r, b') s ->
    runs (invoke x args) s r (<[x := mk_task k b']> s)).
  { intros r b' Hr. eapply runs_bind; [by apply runs_get_task|]. eapply runs_bind; [exact Hr|].
    eapply runs_bind; [by apply (runs_set_model s x (mk_task k b))|]. done. }
  destruct c as [|t v|t]; [| |by destruct (Hg t)]; cbn in Hc.
  - subst k. eexists. split; [by apply Hinv|]. by apply rep_insert.
  - destruct (small t) eqn:E; injection Hc as -> ->; eexists;
      (split; [apply Hinv; eapply runs_bind; [apply runs_as_small || apply runs_as_large|done]|]);
      apply rep_insert; try done; cbn; by rewrite E.
Qed.

(** *** Programs *)

Definition no_temporaries (cs : gmap var content) : Prop := forall n, cs !! Tmp n = None.

Lemma task_fresh_spec x cs : is_Some (fresh x cs) -> cs !! x = None /\ exists n, x = Var n.
Proof. unfold fresh. intros [u Hu]. destruct x as [n|n], (cs !! _) eqn:E; try done. split; [done|by exists n]. Qed.
Lemma task_scope_of_spec x cs c : scope_of x cs = Some c -> cs !! x = Some c /\ exists n, x = Var n.
Proof. destruct x as [n|n]; cbn; [|done]. eauto. Qed.

Lemma task_op_runs o s cs cs' : represents cs s -> no_temporaries cs -> op_spec o cs = Some cs' ->
  yields (run_op o) s cs' /\ no_temporaries cs'.
Proof.
  intros H Ht Ho. pose proof (Ht 0) as Ht0. pose proof (Ht 1) as Ht1.
  destruct o as [x|x t v|x y|x|x y|x|x t v|x y|x args]; cbn in Ho;
    repeat match type of Ho with
    | context [fresh ?x ?a] => destruct (fresh x a) eqn:E1; cbn in Ho; [|done];
        destruct (task_fresh_spec x a) as [Hf [? ->]]; [by rewrite E1|]
    | context [scope_of ?x ?a] => destruct (scope_of x a) eqn:?; cbn in Ho; [|done]
    end;
    repeat match goal with
    | H : scope_of _ _ = Some _ |- _ => apply task_scope_of_spec in H as [? [? ->]]
    end; try case_decide; try (match type of Ho with context [match ?c with _ => _ end] => destruct c end);
    try discriminate Ho; injection Ho as <-;
    (split; [|intros k; lookups; apply Ht]).
  - by apply task_yields_ctor_default.
  - by apply yields_ctor_functor.
  - apply task_yields_ctor_move; [done..|congruence].
  - by eapply task_yields_dtor.
  - by eapply task_yields_assign_move.
  - eapply task_yields_by_temporary; [|done..]. by apply task_yields_ctor_default.
  - eapply task_yields_by_temporary; [|done..]. by apply yields_ctor_functor.
  - by apply task_yields_swap.
  - match goal with Hc : _ !! ?x = Some ?c |- _ => destruct (runs_call s _ x c args H Hc) as (s' & Hr & H') end; [done|].
    exists s'. split; [by eapply runs_bind|]. by rewrite insert_id in H'.
  - match goal with Hc : _ !! ?x = Some ?c |- _ => destruct (runs_call s _ x c args H Hc) as (s' & Hr & H') end; [done|].
    exists s'. split; [by eapply runs_bind|done].
Qed.

Lemma task_ops_run os : forall s cs cs', represents cs s -> no_temporaries cs -> ops_spec os cs = Some cs' ->
  yields (run_ops os) s cs'.
Proof.
  induction os as [|o os IH]; intros s cs cs' H Ht Ho; cbn in Ho; [by injection Ho as <-; exists s|].
  destruct (op_spec o cs) as [cs1|] eqn:E; [|done]. cbn in Ho.
  destruct (task_op_runs o s cs cs1 H Ht E) as [Hy Ht1]. eapply task_yields_bind; [exact Hy|]. intros s1 H1. by eapply IH.
Qed.

(** *** What can be seen of a task, and moving one onto itself *)

Definition functor (c : content) : option V := match c with Holds _ v => Some v | _ => None end.
Definition type_of (c : content) : option F := match c with Holds t _ | Gone t => Some t | Nothing => None end.

Lemma runs_pointer s c o : represent c o -> runs (table_pointer (vtable_ptr o) (model o)) s (functor c) s.
Proof.
  destruct o as [k b]. destruct c as [|t v|t]; cbn.
  - by intros ->.
  - destruct (small t); intros [= -> ->]; [by eapply runs_bind; [apply runs_as_small|]|apply runs_as_large].
  - intros [_ [= -> ->]]. apply runs_as_large.
Qed.

Lemma represent_type c o : represent c o -> table_target_type (vtable_ptr o) = type_of c.
Proof.
  destruct o as [k b]. destruct c as [|t v|t]; cbn; [by intros ->|by destruct (small t); intros [= -> _]|by intros [_ [= -> _]]].
Qed.

(** The destruction of the target of a self-move leaves nothing to move. *)
Lemma self_move s x c o : represent c o -> s !! x = Some o -> c <> Nothing ->
  (assign_move x x s).1 = Undefined UseAfterFree.
Proof.
  intros Hc Ho Hn. destruct (runs_table_dtor s c o Hc) as (b & Hb & Hd).
  destruct (Hd Hn) as [-> Hk]. unfold assign_move.
  rewrite (bind_runs _ _ _ _ _ (runs_get_task s x o Ho)), (bind_runs _ _ _ _ _ Hb).
  rewrite (bind_runs _ _ _ _ _ (runs_set_model s x o Destroyed Ho)).
  set (o1 := mk_task (vtable_ptr o) Destroyed). set (s1 := <[x := o1]> s).
  assert (H1 : runs (get x) s1 o1 s1) by (apply runs_get_task; unfold s1; by lookups).
  rewrite (bind_runs _ _ _ _ _ H1), (bind_runs _ _ _ _ _ H1). rewrite (bind_runs _ _ _ _ _ (runs_put s1 x _)).
  assert (E : <[x := mk_task (vtable_ptr o1) (model o1)]> s1 = s1) by (unfold s1, o1; by rewrite insert_insert_eq).
  rewrite E. unfold move_buffer. rewrite (bind_runs _ _ _ _ _ H1), (bind_runs _ _ _ _ _ H1).
  unfold c_bind. cbn [vtable_ptr model o1]. by destruct (vtable_ptr o).
Qed.

Lemma self_swap cs s x c : represents cs s -> cs !! x = Some c -> x <> Tmp 0 -> c <> Nothing ->
  (swap x x s).1 = Undefined UseAfterFree.
Proof.
  intros H Hx Hne Hn. assert (Hxt : Tmp 0 <> x) by congruence.
  destruct (task_yields_ctor_move s cs (Tmp 0) x c H Hx Hxt) as (s1 & Hr & H1).
  unfold swap. rewrite (bind_runs _ _ _ _ _ Hr).
  destruct (rep_lookup _ _ x (left_behind c) H1) as (o & Ho & Hc); [by lookups|].
  pose proof (self_move s1 x (left_behind c) o Hc Ho) as Hu.
  assert (Hl : left_behind c <> Nothing) by (destruct c; cbn; try done; by destruct (small t)).
  specialize (Hu Hl). unfold c_bind. destruct (assign_move x x s1) as [[] s2]; cbn in Hu; done.
Qed.

(** A call of a task whose functor was moved away. *)
Lemma call_gone cs s x t args : represents cs s -> cs !! x = Some (Gone t) -> (invoke x args s).1 = Undefined NullCall.
Proof.
  intros H Hx. destruct (rep_lookup _ _ _ _ H Hx) as (o & Ho & Hs & ->). unfold invoke.
  rewrite (bind_runs _ _ _ _ _ (runs_get_task s x _ Ho)). cbn [vtable_ptr model table_invoke].
  unfold c_bind at 1. by rewrite (bind_runs _ _ _ _ _ (runs_as_large s t None)).
Qed.
End task.

(** Functors that are numbers, of a small type ([true]) and of a large one; a
    move leaves 0 behind; a call adds its argument and counts up. *)
Definition demo_size (t : bool) : Z := if t then 16 else 400.
Definition demo_call (t : bool) (v a : nat) : nat * nat := (v + a, S v)%nat.
Definition demo_ops : list (op (F := bool) (V := nat) (A := nat)) :=
  [Functor (Var 0) true 5; Functor (Var 1) false 7; Call (Var 1) 1; Move (Var 2) (Var 1); Swap (Var 0) (Var 2);
   AssignFunctor (Var 2) true 9; AssignMove (Var 2) (Var 1); AssignNull (Var 1); Call (Var 0) 2].
Definition demo_contents : gmap var (content (F := bool) (V := nat)) :=
  {[ Var 0 := Holds false 9; Var 1 := Nothing; Var 2 := Gone false ]}.
Lemma demo_spec : ops_spec demo_size (fun _ _ => false) (fun _ _ => 0%nat) demo_call demo_ops ∅ = Some demo_contents.
Proof. vm_compute. reflexivity. Qed.

Section properties.
Context {F : Type} `{EqDecision F} {V A R : Type}.
Context (size : F -> Z) (is_empty : F -> V -> bool) (moved : F -> V -> V) (call : F -> V -> A -> R * V).

(** ** Properties *)

(** C25: the type erasure is type safe: in any program that does not move or swap
    an object with itself and does not call one whose functor was moved away, no
    buffer is read through the table of another type, before a functor was put
    there or after it was destroyed; every object's table fits its buffer, in
    place or on the heap by the size of the type, and objects hold what the
    specification says: moving and swapping carry functors over unchanged. *)
Theorem task_type_safe (os : list op) (cs : gmap var content) :
  ops_spec size is_empty moved call os ∅ = Some cs ->
  exists s, runs (run_ops size is_empty moved call os) ∅ tt s /\ represents size cs s.
Proof. apply task_ops_run; intros x; done. Qed.

(** What a task answers. It converts to [true] and compares different from
    [nullptr] exactly if it holds a functor; its type is that of the functor it
    holds or, after a move, held; [target] gives the functor at its type and null
    at any other; a call runs the functor and keeps its new state, throws
    [bad_function_call] on an empty task, and dereferences a null pointer on one
    whose large functor was moved away. *)
Theorem task_observers (cs : gmap var content) (s : gmap var task) (x : var) (c : content) :
  represents size cs s -> cs !! x = Some c ->
  runs (as_bool x) s (match c with Holds _ _ => true | _ => false end) s /\
  runs (is_null x) s (match c with Holds _ _ => false | _ => true end) s /\
  runs (target_type x) s (type_of c) s /\
  (forall t, runs (target x t) s (if decide (type_of c = Some t) then functor c else None) s) /\
  (forall args, match c with
     | Nothing => exists s', runs (invoke call x args) s None s' /\ represents size cs s'
     | Holds t v => exists s', runs (invoke call x args) s (Some (call t v args).1) s' /\
                      represents size (<[x := Holds t (call t v args).2]> cs) s'
     | Gone t => (invoke call x args s).1 = Undefined NullCall
     end).
Proof.
  intros H Hx. destruct (rep_lookup _ _ _ _ _ H Hx) as (o & Ho & Hc).
  pose proof (runs_get_task s x o Ho) as Hg. pose proof (runs_pointer size s c o Hc) as Hp.
  pose proof (represent_type size c o Hc) as Ht.
  assert (Hb : runs (as_bool x) s (match c with Holds _ _ => true | _ => false end) s).
  { eapply runs_bind; [exact Hg|]. eapply runs_bind; [exact Hp|]. by destruct c. }
  assert (Htt : runs (target_type x) s (type_of c) s) by (rewrite <- Ht; by eapply runs_bind; [exact Hg|]).
  split_and!; [done| |done|..].
  - eapply runs_bind; [exact Hb|]. by destruct c.
  - intros t. eapply runs_bind; [exact Htt|]. case_decide; [|done]. by eapply runs_bind; [exact Hg|].
  - intros args. destruct c as [|t v|t].
    + destruct (runs_call size call s cs x Nothing args H Hx) as (s' & Hr & H'); [done|].
      exists s'. split; [done|]. by rewrite insert_id in H'.
    + by apply (runs_call size call s cs x (Holds t v) args H Hx).
    + by apply (call_gone size call cs s x t args).
Qed.

(** Moving a task that holds or held a functor onto itself, and swapping it
    with itself, use the functor after its destruction: the assignment destroys
    its target before it looks at its source, and [swap] assigns. *)
Theorem task_self_move (cs : gmap var content) (s : gmap var task) (x : var) (c : content) :
  represents size cs s -> cs !! x = Some c -> x <> Tmp 0 -> c <> Nothing ->
  (assign_move moved x x s).1 = Undefined UseAfterFree /\ (swap moved x x s).1 = Undefined UseAfterFree.
Proof.
  intros H Hx Hne Hn. split; [|by apply (self_swap size moved cs s x c)].
  destruct (rep_lookup _ _ _ _ _ H Hx) as (o & Ho & Hc). by apply (self_move size moved s x c o).
Qed.
End properties.

Lemma task_type_safe_witness :
  exists s, runs (run_ops demo_size (fun _ _ => false) (fun _ _ => 0%nat) demo_call demo_ops) ∅ tt s /\
    represents demo_size demo_contents s.
Proof. exact (task_type_safe demo_size (fun _ _ => false) (fun _ _ => 0%nat) demo_call demo_ops demo_contents demo_spec). Defined.

(** One task with a large functor. *)
Definition demo_state : gmap var (task (F := bool) (V := nat)) :=
  {[ Var 0 := mk_task (LargeTable false) (OnHeap false (Some 7%nat)) ]}.
Lemma demo_represents : represents demo_size {[ Var 0 := Holds false 7%nat ]} demo_state.
Proof.
  intros y. unfold demo_state. destruct (decide (y = Var 0)) as [->|Hne].
  - by rewrite !lookup_singleton_eq.
  - by rewrite !lookup_singleton_ne by congruence.
Qed.

Lemma task_observers_witness :
  runs (as_bool (Var 0)) demo_state true demo_state /\
  runs (is_null (Var 0)) demo_state false demo_state /\
  runs (target_type (Var 0)) demo_state (Some false) demo_state /\
  (forall t, runs (target (Var 0) t) demo_state (if decide (Some false = Some t) then Some 7%nat else None) demo_state) /\
  (forall args, exists s', runs (invoke demo_call (Var 0) args) demo_state (Some (7 + args)%nat) s' /\
     represents demo_size (<[Var 0 := Holds false 8%nat]> {[ Var 0 := Holds false 7%nat ]}) s').
Proof.
  exact (task_observers demo_size demo_call _ demo_state (Var 0) (Holds false 7%nat) demo_represents (lookup_singleton_eq _ _)).
Defined.

Lemma task_self_move_witness :
  (assign_move (fun _ _ => 0%nat) (Var 0) (Var 0) demo_state).1 = Undefined UseAfterFree /\
  (swap (fun _ _ => 0%nat) (Var 0) (Var 0) demo_state).1 = Undefined UseAfterFree.
Proof.
  apply (task_self_move demo_size (fun _ _ => 0%nat) _ demo_state (Var 0) (Holds false 7%nat) demo_represents (lookup_singleton_eq _ _)); done.
Defined.
