(* ===== verification/SharedFuture.v ===== *)
(** * The state behind a future

    Model of the shared state of [stlab]'s futures ([deps/clean_stlab], [future.hpp]):
    [shared_base] with its list of continuations, [shared] with the function and the
    count of promises, [packaged_task] and [get_try]. One thread uses the packaged
    task: it calls it, sets exceptions, copies it and at last destroys it; others
    destroy the copies, attach continuations and ask for the result. A step is a
    critical section, an atomic operation or an access outside of both, and
    everything interleaves. What the function answers is given with the call.
    The state is kept alive by a future throughout. *)

From S2P Require Import Prelude.
Local Open Scope nat_scope.

(** The specialisations: [T] copyable or [void], and [T] move-only. *)
Inductive kind := Copyable | MoveOnly.

Section future.
Context {V E : Type} (broken_promise : E).

(** ** [shared_base], [shared] *)

(** [_result], [_exception], [_ready], [_then] (numbers of continuations; at most
    one in the move-only case), [_promise_count], whether [_f] holds a function. *)
Record shared := mk_shared {
  result : option V;
  exception : option E;
  ready : bool;
  then_ : list nat;
  promise_count : nat;
  has_f : bool
}.
Definition make_shared : shared := mk_shared None None false [] 1 true.

Definition set_result (v : V) (s : shared) : shared :=
  mk_shared (Some v) (exception s) (ready s) (then_ s) (promise_count s) (has_f s).
Definition set_error (e : E) (s : shared) : shared :=
  mk_shared (result s) (Some e) (ready s) (then_ s) (promise_count s) (has_f s).

(** The critical section of [recover] and [recover_r]: whether the state was ready,
    the continuations it destroys, and the state. *)
Definition recover (kd : kind) (k : nat) (s : shared) : bool * list nat * shared :=
  if ready s then (true, [], s)
  else match kd with
  | Copyable => (false, [], mk_shared (result s) (exception s) false (then_ s ++ [k]) (promise_count s) (has_f s))
  | MoveOnly => (false, then_ s, mk_shared (result s) (exception s) false [k] (promise_count s) (has_f s))
  end.

(** The critical section of [proceed] and of [set_exception]. *)
Definition proceed (s : shared) : list nat * shared :=
  (then_ s, mk_shared (result s) (exception s) true [] (promise_count s) (has_f s)).

(** [remove_promise]: the count, whether it was the last, and its critical section. *)
Definition decrement (s : shared) : bool * shared :=
  (promise_count s - 1 =? 0,
   mk_shared (result s) (exception s) (ready s) (then_ s) (promise_count s - 1) (has_f s)).
Definition break (s : shared) : list nat * shared :=
  if ready s then ([], s)
  else (then_ s, mk_shared (result s) (Some broken_promise) true [] (promise_count s) false).
Definition add_promise (s : shared) : shared :=
  mk_shared (result s) (exception s) (ready s) (then_ s) (promise_count s + 1) (has_f s).
Definition reset_f (s : shared) : shared :=
  mk_shared (result s) (exception s) (ready s) (then_ s) (promise_count s) false.

(** What [get_try] answers on a ready state: [None] is an empty [_result]. *)
Definition answer (s : shared) : option (V + E) :=
  match exception s with Some e => Some (inr e) | None => inl <$> result s end.

(** ** The threads *)

(** What is done with the packaged task: a call with what the function answers
    or throws, [set_exception], a copy. *)
Inductive act := Call (o : V + E) | SetException (e : E) | Copy.

(** The thread with the packaged task: before an action; with a result or an
    exception to store; before the critical section ([calling]: inside
    [operator()]; [failed]: in [set_exception]); with continuations in hand; about to
    reset [_f]; the last promise, before the critical section; gone. *)
Inductive user :=
  | Next (acts : list act)
  | Store (o : V + E) (calling : bool) (acts : list act)
  | Lock (failed calling : bool) (acts : list act)
  | Resume (l : list nat) (failed calling : bool) (acts : list act)
  | ResetF (acts : list act)
  | LastPromise
  | Gone.
Inductive holder := Holding | Last | Dead.
Inductive attacher := Attach (k : nat) | WasReady (k : nat) | Attached.
Inductive reader := Asking | Saw (b : bool) | Answered (a : option (V + E)).

(** A continuation is handed to its executor, called in place, or destroyed. *)
Inductive event := Scheduled (k : nat) | Called (k : nat) | Destroyed (k : nat).
Definition subject (e : event) : nat := match e with Scheduled k | Called k | Destroyed k => k end.

Record state := mk_state {
  sh : shared;
  owner : user;
  holders : list holder;
  attachers : list attacher;
  readers : list reader;
  trace : list event
}.

Section steps.
Context (kd : kind).

(** The executors of the move-only case are by-passed by [set_exception]. *)
Definition resume (failed : bool) (k : nat) : event :=
  match kd with MoveOnly => if failed then Called k else Scheduled k | Copyable => Scheduled k end.

Definition set_owner (s : shared) (u : user) (t : list event) (st : state) : state :=
  mk_state s u (holders st) (attachers st) (readers st) (trace st ++ t).

(** [operator()], [set_exception], the copy constructor and the destructor. *)
Definition step_owner (st : state) : option state :=
  let s := sh st in
  match owner st with
  | Next (Call o :: acts) => Some (set_owner s (if has_f s then Store o true acts else ResetF acts) [] st)
  | Next (SetException e :: acts) => Some (set_owner s (Store (inr e) false acts) [] st)
  | Next (Copy :: acts) =>
      Some (mk_state (add_promise s) (Next acts) (holders st ++ [Holding]) (attachers st) (readers st) (trace st))
  | Next [] => Some (set_owner (decrement s).2 (if (decrement s).1 then LastPromise else Gone) [] st)
  | Store (inl v) c acts => Some (set_owner (set_result v s) (Lock false c acts) [] st)
  | Store (inr e) c acts => Some (set_owner (set_error e s) (Lock true c acts) [] st)
  | Lock failed c acts => Some (set_owner (proceed s).2 (Resume (proceed s).1 failed c acts) [] st)
  | Resume (k :: l) failed c acts => Some (set_owner s (Resume l failed c acts) [resume failed k] st)
  | Resume [] _ c acts => Some (set_owner s (if c then ResetF acts else Next acts) [] st)
  | ResetF acts => Some (set_owner (reset_f s) (Next acts) [] st)
  | LastPromise => Some (set_owner (break s).2 Gone (Destroyed <$> (break s).1) st)
  | Gone => None
  end.

(** A copy of the packaged task is destroyed. *)
Definition step_holder (i : nat) (st : state) : option state :=
  let s := sh st in
  match holders st !! i with
  | Some Holding =>
      Some (mk_state (decrement s).2 (owner st) (<[i := if (decrement s).1 then Last else Dead]> (holders st))
              (attachers st) (readers st) (trace st))
  | Some Last =>
      Some (mk_state (break s).2 (owner st) (<[i := Dead]> (holders st)) (attachers st) (readers st)
              (trace st ++ (Destroyed <$> (break s).1)))
  | Some Dead | None => None
  end.

(** [recover]: the critical section, then the executor if the state was ready. *)
Definition step_attacher (i : nat) (st : state) : option state :=
  let s := sh st in
  match attachers st !! i with
  | Some (Attach k) =>
      let '(was_ready, gone, s') := recover kd k s in
      Some (mk_state s' (owner st) (holders st) (<[i := if was_ready : bool then WasReady k else Attached]> (attachers st))
              (readers st) (trace st ++ (Destroyed <$> gone)))
  | Some (WasReady k) =>
      Some (mk_state s (owner st) (holders st) (<[i := Attached]> (attachers st)) (readers st) (trace st ++ [Scheduled k]))
  | Some Attached | None => None
  end.

(** [get_try] of a copyable future: [_ready] under the lock, the rest after it. *)
Definition step_reader (i : nat) (st : state) : option state :=
  let s := sh st in
  let moves r := Some (mk_state s (owner st) (holders st) (attachers st) (<[i := r]> (readers st)) (trace st)) in
  match readers st !! i with
  | Some Asking => moves (Saw (ready s))
  | Some (Saw b) => moves (Answered (if b then answer s else None))
  | Some (Answered _) | None => None
  end.

Inductive step : state -> state -> Prop :=
  | step_by_owner st st' : step_owner st = Some st' -> step st st'
  | step_by_holder i st st' : step_holder i st = Some st' -> step st st'
  | step_by_attacher i st st' : step_attacher i st = Some st' -> step st st'
  | step_by_reader i st st' : step_reader i st = Some st' -> step st st'.
End steps.

(** [package] with its two halves given away: continuations [ks] to be attached,
    [n] askers. *)
Definition start (acts : list act) (ks : list nat) (n : nat) : state :=
  mk_state make_shared (Next acts) [] (Attach <$> ks) (replicate n Asking) [].

(** ** Specification *)

(** The first action that resolves the future, or the broken promise. *)
Fixpoint outcome (acts : list act) : V + E :=
  match acts with
  | [] => inr broken_promise
  | Call o :: _ => o
  | SetException e :: _ => inr e
  | Copy :: acts => outcome acts
  end.

(** No exception is set after the future was resolved, and nothing is called
    after an exception was set. *)
Fixpoint only_copies (acts : list act) : bool :=
  match acts with [] => true | Copy :: acts => only_copies acts | _ => false end.
Fixpoint no_exception (acts : list act) : bool :=
  match acts with [] => true | SetException _ :: _ => false | _ :: acts => no_exception acts end.
Fixpoint resolved_once (acts : list act) : bool :=
  match acts with
  | [] => true
  | Call _ :: acts => no_exception acts
  | SetException _ :: acts => only_copies acts
  | Copy :: acts => resolved_once acts
  end.

(** A call or an exception. *)
Definition resolving (a : act) : bool := match a with Copy => false | _ => true end.
Definition resolves (acts : list act) : bool := existsb resolving acts.
Definition is_destroyed (e : event) : bool := match e with Destroyed _ => true | _ => false end.

(** ** No continuation is lost *)

Definition pending (a : attacher) : list nat := match a with Attach k | WasReady k => [k] | Attached => [] end.
Definition in_hand (u : user) : list nat := match u with Resume l _ _ _ => l | _ => [] end.
Definition owner_holds (u : user) : nat := match u with LastPromise | Gone => 0 | _ => 1 end.
Definition holds (h : holder) : nat := match h with Holding => 1 | _ => 0 end.

Record inv (ks : list nat) (st : state) : Prop := mk_inv {
  inv_once : forall k, occs k pending (attachers st) + occ k (then_ (sh st)) + occ k (in_hand (owner st))
    + occ k (subject <$> trace st) = occ k ks;
  inv_then : ready (sh st) = true -> then_ (sh st) = [];
  inv_count : promise_count (sh st) = owner_holds (owner st) + sum_list_with holds (holders st);
  inv_broken : promise_count (sh st) = 0 -> ready (sh st) = true \/ owner st = LastPromise \/ Last ∈ holders st;
  inv_lasts : Last ∈ holders st -> promise_count (sh st) = 0
}.

Lemma inv_start_future acts ks n : inv ks (start acts ks n).
Proof.
  constructor; cbn; try done; [|by intros H%not_elem_of_nil].
  intros k. rewrite !occ_nil, !Nat.add_0_r. unfold occs. rewrite sum_with_fmap.
  induction ks as [|k' ks IH]; [done|]. rewrite (occ_cons k k'), <- IH. done.
Qed.

Lemma subject_destroyed (l : list nat) : subject <$> (Destroyed <$> l) = l.
Proof. rewrite <- list_fmap_compose. by apply list_fmap_id. Qed.

Lemma holder_insert_last (hs : list holder) (i : nat) (h : holder) : Last ∈ <[i := h]> hs -> h = Last \/ Last ∈ hs.
Proof.
  intros (j & Hj)%list_elem_of_lookup_1. destruct (decide (j = i)) as [->|Hne].
  - destruct (decide (i < length hs)) as [Hl|Hl].
    + rewrite list_lookup_insert_eq in Hj by done. injection Hj as ->. by left.
    + rewrite list_insert_ge in Hj by lia. right. by eapply list_elem_of_lookup_2.
  - rewrite list_lookup_insert_ne in Hj by done. right. by eapply list_elem_of_lookup_2.
Qed.

(** What the locked sections do to the bookkeeping. *)
Lemma break_inv (s : shared) :
  (ready s = true -> then_ s = []) ->
  ready (break s).2 = true /\ then_ (break s).2 = [] /\ promise_count (break s).2 = promise_count s /\
  (break s).1 = then_ s.
Proof. intros Ht. unfold break. destruct (ready s) eqn:Hr; cbn; [by rewrite Ht|done]. Qed.

Lemma subject_resume kd f k : subject (resume kd f k) = k.
Proof. unfold resume. by destruct kd, f. Qed.

Ltac future_inv Ho := constructor; cbn;
  [ let k := fresh in intros k; specialize (Ho k);
    rewrite ?app_nil_r, ?fmap_app, ?occ_app, ?subject_destroyed in *; cbn; rewrite ?subject_resume, ?occ_nil in *; try lia
  | first [done | by auto]
  | rewrite ?sum_list_with_app; cbn; try lia
  | try lia; try done
  | try done ].

Lemma inv_step_owner kd ks st st' : inv ks st -> step_owner kd st = Some st' -> inv ks st'.
Proof.
  intros [Ho Ht Hc Hb Hl] Hs. unfold step_owner in Hs.
  destruct (owner st) as [[|[o|e|] acts]|[v|e] c acts|f c acts|[|k l] f c acts|acts| |] eqn:Hu; try done;
    injection Hs as <-; cbn in *; try (by future_inv Ho).
  - destruct (Nat.eqb_spec (promise_count (sh st) - 1) 0); future_inv Ho; auto; intros H; specialize (Hl H); lia.
  - destruct (has_f (sh st)); by future_inv Ho.
  - future_inv Ho. intros [H|H%list_elem_of_singleton]%elem_of_app; [|done]. specialize (Hl H). lia.
  - destruct c; by future_inv Ho.
  - future_inv Ho. rewrite (occ_cons _ k l) in Ho. lia.
  - destruct (break_inv (sh st) Ht) as (Hr & Hn & Hp & Hd).
    constructor; cbn; rewrite ?Hr, ?Hn, ?Hp, ?Hd; auto. intros k. specialize (Ho k).
    rewrite fmap_app, subject_destroyed, occ_app, !occ_nil in *. lia.
Qed.

Lemma inv_step_holder ks st st' i : inv ks st -> step_holder i st = Some st' -> inv ks st'.
Proof.
  intros [Ho Ht Hc Hb Hl] Hs. unfold step_holder in Hs.
  destruct (holders st !! i) as [[]|] eqn:Hi; try done; injection Hs as <-; cbn in *;
    pose proof (fun h => sum_with_insert holds _ _ _ h Hi) as Hsum; cbn in Hsum;
    pose proof (proj2 (list_elem_of_lookup (holders st) _) (ex_intro _ i Hi)) as Hin.
  - destruct (Nat.eqb_spec (promise_count (sh st) - 1) 0); future_inv Ho.
    + specialize (Hsum Last). cbn in Hsum. lia.
    + intros _. right. right. apply list_elem_of_lookup. exists i. rewrite list_lookup_insert_eq; [done|by eapply lookup_lt_Some].
    + specialize (Hsum Dead). cbn in Hsum. lia.
    + intros [|H]%holder_insert_last; [done|]. specialize (Hl H). lia.
  - destruct (break_inv (sh st) Ht) as (Hr & Hn & Hp & Hd).
    constructor; cbn; rewrite ?Hr, ?Hn, ?Hp, ?Hd; auto.
    + intros k. specialize (Ho k). rewrite fmap_app, subject_destroyed, occ_app, occ_nil in *. lia.
    + specialize (Hsum Dead). cbn in Hsum. lia.
Qed.

Lemma inv_step_attacher kd ks st st' i : inv ks st -> step_attacher kd i st = Some st' -> inv ks st'.
Proof.
  intros [Ho Ht Hc Hb Hl] Hs. unfold step_attacher in Hs.
  destruct (attachers st !! i) as [[k|k|]|] eqn:Hi; try done.
  - unfold recover in Hs. pose proof (fun x b => occs_insert x pending _ _ _ b Hi) as Hx. cbn in Hx.
    destruct (ready (sh st)) eqn:Hr; [|destruct kd]; injection Hs as <-; cbn in *;
      [specialize (fun x => Hx x (WasReady k)) as Hx'|specialize (fun x => Hx x Attached) as Hx'..]; cbn in Hx';
      (constructor; cbn; rewrite ?Hr; auto; try done; intros k'; specialize (Ho k'); specialize (Hx' k');
        rewrite ?app_nil_r, ?fmap_app, ?subject_destroyed, ?occ_app, ?occ_nil in *; lia).
  - pose proof (fun x => occs_insert x pending _ _ _ Attached Hi) as Hx. cbn in Hx.
    injection Hs as <-; cbn in *; constructor; cbn; auto. intros k'. specialize (Ho k'). specialize (Hx k').
    rewrite fmap_app, occ_app, occ_nil in *. cbn. lia.
Qed.

Lemma future_inv_step kd ks st st' : inv ks st -> step kd st st' -> inv ks st'.
Proof.
  intros Hi Hs. destruct Hs as [st st' Hs|i st st' Hs|i st st' Hs|i st st' Hs];
    eauto using inv_step_owner, inv_step_holder, inv_step_attacher.
  unfold step_reader in Hs. destruct (readers st !! i) as [[]|]; try done; injection Hs as <-; by destruct Hi.
Qed.

Lemma future_inv_reachable kd acts ks n st : rtc (step kd) (start acts ks n) st -> inv ks st.
Proof.
  intros Hr. pose proof (inv_start_future acts ks n) as H0. revert H0.
  induction Hr as [|s1 s2 s3 Hs _ IH]; [done|]. intros Hi. apply IH. by eapply future_inv_step.
Qed.

(** When nothing can move. *)
Lemma future_stuck kd st : (forall st', ~ step kd st st') ->
  owner st = Gone /\ Forall (fun h => h = Dead) (holders st) /\ Forall (fun a => a = Attached) (attachers st) /\
  Forall (fun r => exists a, r = Answered a) (readers st).
Proof.
  intros Hs. split_and!.
  - assert (H : step_owner kd st = None).
    { destruct (step_owner kd st) as [st'|] eqn:H; [|done]. by destruct (Hs _ (step_by_owner _ _ _ H)). }
    unfold step_owner in H. destruct (owner st) as [[|[o|e|] acts]|[v|e] c acts|f c acts|[|k l] f c acts|acts| |]; done.
  - apply Forall_lookup. intros i h Hi. assert (H : step_holder i st = None).
    { destruct (step_holder i st) as [st'|] eqn:H; [|done]. by destruct (Hs _ (step_by_holder _ _ _ _ H)). }
    unfold step_holder in H. rewrite Hi in H. by destruct h.
  - apply Forall_lookup. intros i a Hi. assert (H : step_attacher kd i st = None).
    { destruct (step_attacher kd i st) as [st'|] eqn:H; [|done]. by destruct (Hs _ (step_by_attacher _ _ _ _ H)). }
    unfold step_attacher in H. rewrite Hi in H. destruct a; try done. by destruct (recover kd k (sh st)) as [[] ?].
  - apply Forall_lookup. intros i r Hi. assert (H : step_reader i st = None).
    { destruct (step_reader i st) as [st'|] eqn:H; [|done]. by destruct (Hs _ (step_by_reader _ _ _ _ H)). }
    unfold step_reader in H. rewrite Hi in H. destruct r; try done. by eexists.
Qed.

Lemma future_at_rest ks st : inv ks st -> owner st = Gone ->
  Forall (fun h => h = Dead) (holders st) -> Forall (fun a => a = Attached) (attachers st) ->
  ready (sh st) = true /\ subject <$> trace st ≡ₚ ks.
Proof.
  intros [Ho Ht Hc Hb Hl] Hu Hh Ha. rewrite Hu in *. assert (Hr : ready (sh st) = true).
  { destruct Hb as [|[|Hin]]; try done.
    - rewrite Hc. cbn. apply sum_zero. eapply Forall_impl; [exact Hh|]. by intros ? ->.
    - rewrite Forall_forall in Hh. by apply Hh in Hin. }
  split; [done|]. apply occ_permutation. intros k. rewrite <- (Ho k), Ht by done. cbn.
  enough (occs k pending (attachers st) = 0) as -> by (rewrite !occ_nil; lia).
  apply sum_zero. eapply Forall_impl; [exact Ha|]. by intros ? ->.
Qed.

(** ** Every run is finite *)

Definition user_weight (u : user) : nat :=
  match u with
  | Next acts => 2 + 6 * length acts
  | Store _ _ acts => 7 + 6 * length acts
  | Lock _ _ acts => 6 + 6 * length acts
  | Resume l _ _ acts => 5 + 6 * length acts + 2 * length l
  | ResetF acts => 3 + 6 * length acts
  | LastPromise => 1
  | Gone => 0
  end.
Definition holder_weight (h : holder) : nat := match h with Holding => 2 | Last => 1 | Dead => 0 end.
Definition attacher_weight (a : attacher) : nat := match a with Attach _ => 4 | WasReady _ => 1 | Attached => 0 end.
Definition reader_weight (r : reader) : nat := match r with Asking => 2 | Saw _ => 1 | Answered _ => 0 end.
Definition future_steps_left (st : state) : nat :=
  user_weight (owner st) + 2 * length (then_ (sh st)) + sum_list_with holder_weight (holders st)
  + sum_list_with attacher_weight (attachers st) + sum_list_with reader_weight (readers st).

Lemma break_then (s : shared) : length (then_ (break s).2) <= length (then_ s).
Proof. unfold break. destruct (ready s); cbn; lia. Qed.

Lemma future_step_decreases kd st st' : step kd st st' -> future_steps_left st' < future_steps_left st.
Proof.
  unfold future_steps_left. intros [st1 st2 Hs|i st1 st2 Hs|i st1 st2 Hs|i st1 st2 Hs].
  - unfold step_owner in Hs. pose proof (break_then (sh st1)) as Hbr.
    destruct (owner st1) as [[|[o|e|] acts]|[v|e] c acts|f c acts|[|k l] f c acts|acts| |]; try done; injection Hs as <-; cbn;
      rewrite ?sum_list_with_app; cbn; try lia; repeat case_match; cbn; lia.
  - unfold step_holder in Hs. destruct (holders st1 !! i) as [h|] eqn:Hi; [|done].
    pose proof (fun h' => sum_with_insert holder_weight _ _ _ h' Hi) as Hw. pose proof (break_then (sh st1)) as Hbr.
    destruct h; try done; injection Hs as <-; cbn in *; [destruct (promise_count (sh st1) - 1 =? 0)|];
      [pose proof (Hw Last)|pose proof (Hw Dead)|pose proof (Hw Dead)]; cbn in *; lia.
  - unfold step_attacher in Hs. destruct (attachers st1 !! i) as [a|] eqn:Hi; [|done].
    pose proof (fun a' => sum_with_insert attacher_weight _ _ _ a' Hi) as Hw.
    destruct a as [k|k|]; try done.
    + unfold recover in Hs. destruct (ready (sh st1)); [|destruct kd]; injection Hs as <-; cbn;
        [pose proof (Hw (WasReady k))|pose proof (Hw Attached)|pose proof (Hw Attached)]; cbn in *; rewrite ?length_app; cbn; lia.
    + injection Hs as <-. pose proof (Hw Attached). cbn in *. lia.
  - unfold step_reader in Hs. destruct (readers st1 !! i) as [r|] eqn:Hi; [|done].
    pose proof (fun r' => sum_with_insert reader_weight _ _ _ r' Hi) as Hw.
    destruct r as [|b|]; try done; injection Hs as <-; cbn;
      [pose proof (Hw (Saw (ready (sh st1))))|pose proof (Hw (Answered (if b then answer (sh st1) else None)))]; cbn in *; lia.
Qed.

Lemma future_steps_bounded kd n st st' : nsteps (step kd) n st st' -> n + future_steps_left st' <= future_steps_left st.
Proof. induction 1 as [|n s1 s2 s3 Hs _ IH]; [lia|]. pose proof (future_step_decreases _ _ _ Hs). lia. Qed.

(** ** What is resolved destroys no continuation

    But in the move-only case, where one that is attached replaces the one before:
    there somebody is left to be resumed. *)

Definition kept (st : state) : Prop :=
  ready (sh st) = true \/
  has_f (sh st) = true /\ match owner st with Next acts => resolves acts = true | Store _ _ _ | Lock _ _ _ => True | _ => False end.
Definition somebody (st : state) : Prop :=
  then_ (sh st) <> [] \/ in_hand (owner st) <> [] \/ Exists (fun e => is_destroyed e = false) (trace st).
Record saved (kd : kind) (st : state) : Prop := mk_saved {
  s_kept : kept st;
  s_copyable : kd = Copyable -> Forall (fun e => e = Scheduled (subject e)) (trace st);
  s_left : Exists (fun e => is_destroyed e = true) (trace st) -> somebody st
}.

(** The trace and those who wait, as before or with an event that is not a destruction. *)
Lemma saved_same kd st st' : saved kd st -> kept st' -> trace st' = trace st -> (somebody st -> somebody st') -> saved kd st'.
Proof. intros [Hk Hc Hl] Hk' Et Hs. constructor; rewrite ?Et; auto. Qed.
Lemma saved_event kd st st' e : saved kd st -> kept st' -> trace st' = trace st ++ [e] -> is_destroyed e = false ->
  (kd = Copyable -> e = Scheduled (subject e)) -> saved kd st'.
Proof.
  intros [Hk Hc Hl] Hk' Et He Hs. constructor; rewrite ?Et; [done| |].
  - intros E1. apply Forall_app. split; [by auto|]. apply Forall_singleton. auto.
  - intros _. right. right. rewrite Et. apply Exists_app. right. by constructor.
Qed.

Lemma saved_start kd acts ks n : resolves acts = true -> saved kd (start acts ks n).
Proof. intros Ha. constructor; cbn; [by right|done|by intros ?%Exists_nil]. Qed.

Lemma saved_break kd st st' : saved kd st -> ready (sh st) = true -> ready (sh st') = true -> then_ (sh st') = then_ (sh st) ->
  in_hand (owner st') = in_hand (owner st) -> trace st' = trace st ++ (Destroyed <$> (break (sh st)).1) -> saved kd st'.
Proof.
  intros Hs Hr Hr' Et Eh Etr. unfold break in Etr. rewrite Hr in Etr. cbn in Etr. rewrite app_nil_r in Etr.
  apply (saved_same kd st); [done|by left|done|]. unfold somebody. by rewrite Et, Eh, Etr.
Qed.

Lemma saved_step_owner kd ks st st' : inv ks st -> saved kd st -> step_owner kd st = Some st' -> saved kd st'.
Proof.
  intros Hi Hs H. pose proof (s_kept _ _ Hs) as Hk. unfold kept in Hk. unfold step_owner in H.
  destruct (owner st) as [[|[o|e|] acts]|[v|e] c acts|f c acts|[|k l] f c acts|acts| |] eqn:Hu; try done; injection H as <-.
  all: try (apply (saved_same kd st); [done|unfold kept; cbn; intuition|by cbn; rewrite ?app_nil_r|unfold somebody; cbn; rewrite Hu, ?app_nil_r; cbn; intuition]).
  - done.
  - right. by rewrite H0.
  - apply (saved_event kd st _ (resume kd f k)); [done|unfold kept; cbn; intuition|done|..]; unfold resume; [by destruct kd, f|by intros ->].
  - destruct Hk as [Hk|[_ Hk]]; [|done]. apply (saved_break kd st); unfold break; rewrite ?Hk, ?Hu; done.
Qed.

Lemma saved_step kd ks st st' : inv ks st -> saved kd st -> step kd st st' -> saved kd st'.
Proof.
  intros Hi Hs Hst. destruct Hst as [st1 st2 H|i st1 st2 H|i st1 st2 H|i st1 st2 H]; [exact (saved_step_owner kd ks st1 st2 Hi Hs H)|..]; pose proof (s_kept _ _ Hs) as Hk; unfold kept in Hk.
  - unfold step_holder in H. destruct (holders st1 !! i) as [[]|] eqn:Hx; try done; injection H as <-.
    + by apply (saved_same kd st1).
    + assert (Hr : ready (sh st1) = true).
      { destruct Hk as [|[_ Hk]]; [done|]. pose proof (inv_count _ _ Hi) as Hc. rewrite (inv_lasts _ _ Hi) in Hc by (apply list_elem_of_lookup; by eexists).
        by destruct (owner st1). }
      apply (saved_break kd st1); unfold break; rewrite ?Hr; done.
  - unfold step_attacher in H. destruct (attachers st1 !! i) as [[k|k|]|] eqn:Hx; try done.
    + unfold recover in H. destruct (ready (sh st1)) eqn:Hr; [|destruct kd]; injection H as <-.
      * apply (saved_same kd st1); [done|by left|by cbn; rewrite app_nil_r|]. unfold somebody. cbn. by rewrite app_nil_r.
      * apply (saved_same Copyable st1); [done|right; cbn; intuition congruence|by cbn; rewrite app_nil_r|]. intros _. left. cbn. by destruct (then_ (sh st1)).
      * constructor; [right; cbn; intuition congruence|done|]. intros _. by left.
    + injection H as <-. by apply (saved_event kd st1 _ (Scheduled k)).
  - unfold step_reader in H. destruct (readers st1 !! i) as [[]|]; try done; injection H as <-; by apply (saved_same kd st1).
Qed.
Lemma saved_reachable kd acts ks n st : resolves acts = true -> rtc (step kd) (start acts ks n) st -> saved kd st.
Proof.
  intros Ha Hr. enough (H : forall s, rtc (step kd) s st -> inv ks s -> saved kd s -> saved kd st).
  { apply (H _ Hr); [apply inv_start_future|by apply saved_start]. }
  clear Hr. induction 1 as [|s1 s2 s3 Hs _ IH]; [done|]. intros Hi Hv. apply IH; [by eapply future_inv_step|by eapply saved_step].
Qed.

Lemma all_scheduled (l : list event) : Forall (fun e => e = Scheduled (subject e)) l -> l ≡ₚ Scheduled <$> (subject <$> l).
Proof. induction 1 as [|e l He _ IH]; [done|]. cbn. by rewrite <- He, <- IH. Qed.
Lemma somebody_resumed (l : list event) : l <> [] ->
  (Exists (fun e => is_destroyed e = true) l -> Exists (fun e => is_destroyed e = false) l) -> exists k, Scheduled k ∈ l \/ Called k ∈ l.
Proof.
  intros Hne Hl. assert (H : Exists (fun e => is_destroyed e = false) l).
  { destruct l as [|e l]; [done|]. destruct (is_destroyed e) eqn:He; [apply Hl|]; by constructor. }
  apply Exists_exists in H as (e & Hin & He). exists (subject e). destruct e; [by left|by right|done].
Qed.
Lemma future_run_bounded kd acts ks n m st : nsteps (step kd) n (start acts ks m) st -> n <= 2 + 6 * length acts + 4 * length ks + 2 * m.
Proof.
  intros Hn. pose proof (future_steps_bounded _ _ _ _ Hn) as Hw. unfold future_steps_left in Hw. cbn in Hw.
  rewrite sum_with_fmap in Hw. assert (H4 : sum_list_with (fun _ : nat => 4) ks = 4 * length ks) by (clear; induction ks; cbn in *; lia).
  assert (H2 : sum_list_with reader_weight (replicate m Asking) = 2 * m) by (clear; induction m; cbn in *; lia).
  cbn [attacher_weight] in Hw. lia.
Qed.

(** ** Everybody sees the same outcome *)

Section outcome.
Context (o : V + E).

Definition unset (s : shared) : Prop := result s = None /\ exception s = None /\ ready s = false.
Definition resolved (s : shared) : Prop := ready s = true /\ answer s = Some o.
(** What may still be done after the future was resolved by a call, or not. *)
Definition rest_ok (calling : bool) (acts : list act) : Prop :=
  if calling then no_exception acts = true else only_copies acts = true.

Definition owner_ok (s : shared) (u : user) : Prop :=
  match u with
  | Next acts =>
      unset s /\ has_f s = true /\ outcome acts = o /\ resolved_once acts = true \/
      resolved s /\ rest_ok (negb (has_f s)) acts
  | Store o' calling acts => unset s /\ o' = o /\ rest_ok calling acts /\ (calling = false -> has_f s = true)
  | Lock _ calling acts => ready s = false /\ answer s = Some o /\ rest_ok calling acts /\ (calling = false -> has_f s = true)
  | Resume _ _ calling acts => resolved s /\ rest_ok calling acts /\ (calling = false -> has_f s = true)
  | ResetF acts => resolved s /\ no_exception acts = true
  | LastPromise | Gone => resolved s \/ unset s /\ o = inr broken_promise
  end.
Definition event_ok (s : shared) (e : event) : Prop :=
  match e with
  | Scheduled _ => resolved s
  | Called _ => False
  | Destroyed _ => resolved s /\ o = inr broken_promise
  end.
Definition reader_ok (s : shared) (r : reader) : Prop :=
  match r with
  | Asking | Saw false => True
  | Saw true => resolved s
  | Answered a => a = None \/ a = Some o /\ resolved s
  end.
Definition attacher_ok (s : shared) (a : attacher) : Prop := match a with WasReady _ => resolved s | _ => True end.

Record data (st : state) : Prop := mk_data {
  data_owner : owner_ok (sh st) (owner st);
  data_ready : ready (sh st) = true -> answer (sh st) = Some o;
  data_trace : Forall (event_ok (sh st)) (trace st);
  data_readers : Forall (reader_ok (sh st)) (readers st);
  data_attachers : Forall (attacher_ok (sh st)) (attachers st);
  data_lasts : Last ∈ holders st -> owner_holds (owner st) = 0
}.

(** The state keeps its outcome once it is ready. *)
Definition grows (s s' : shared) : Prop := resolved s -> resolved s'.
Lemma events_grow s s' t : grows s s' -> Forall (event_ok s) t -> Forall (event_ok s') t.
Proof. intros Hg Hall. eapply Forall_impl; [exact Hall|]. unfold grows in Hg. intros [k|k|k]; cbn; intuition. Qed.
Lemma readers_grow s s' l : grows s s' -> Forall (reader_ok s) l -> Forall (reader_ok s') l.
Proof. intros Hg Hall. eapply Forall_impl; [exact Hall|]. unfold grows in Hg. intros [|[]|a]; cbn; intuition. Qed.
Lemma attachers_grow s s' l : grows s s' -> Forall (attacher_ok s) l -> Forall (attacher_ok s') l.
Proof. intros Hg Hall. eapply Forall_impl; [exact Hall|]. unfold grows in Hg. intros [k|k|]; cbn; intuition. Qed.

Lemma data_owner_move st s' u t : data st -> grows (sh st) s' -> owner_ok s' u ->
  (ready s' = true -> answer s' = Some o) -> Forall (event_ok s') t ->
  (owner_holds (owner st) = 0 -> owner_holds u = 0) -> data (set_owner s' u t st).
Proof.
  intros [] Hg Hu Hr Ht Hh. constructor; cbn; auto.
  - apply Forall_app. split; [by eapply events_grow|done].
  - by eapply readers_grow.
  - by eapply attachers_grow.
Qed.

Lemma break_resolved s : unset s -> o = inr broken_promise -> resolved (break s).2.
Proof. intros (_ & _ & Hr) Ho. unfold break, resolved. rewrite Hr, Ho. done. Qed.
Lemma break_grows s : grows s (break s).2.
Proof. intros H. unfold break. by rewrite (proj1 H). Qed.
Lemma break_events s : unset s /\ o = inr broken_promise \/ resolved s ->
  Forall (event_ok (break s).2) (Destroyed <$> (break s).1).
Proof.
  intros [[Hu Ho]|[Hr _]].
  - pose proof (break_resolved s Hu Ho). apply Forall_fmap, Forall_true. by intros k.
  - unfold break. by rewrite Hr.
Qed.

Lemma data_start acts ks n : outcome acts = o -> resolved_once acts = true -> data (start acts ks n).
Proof.
  intros Ho Hr. constructor; cbn; try done.
  - left. by split_and!.
  - by apply Forall_replicate.
  - by apply Forall_fmap, Forall_true.
  - by intros H%not_elem_of_nil.
Qed.

Lemma unresolved_grows s s' : ready s = false -> grows s s'.
Proof. intros Hr [Hr' _]. by rewrite Hr in Hr'. Qed.
Lemma same_grows s s' : ready s' = ready s -> answer s' = answer s -> grows s s'.
Proof. unfold grows, resolved. by intros -> ->. Qed.

Lemma data_copy st acts : data st -> owner_ok (add_promise (sh st)) (Next acts) -> owner_holds (owner st) = 1 ->
  data (mk_state (add_promise (sh st)) (Next acts) (holders st ++ [Holding]) (attachers st) (readers st) (trace st)).
Proof.
  intros [] Hu Hh. assert (Hg : grows (sh st) (add_promise (sh st))) by (by apply same_grows). constructor; cbn; auto.
  intros [H|H%list_elem_of_singleton]%elem_of_app; [|done]. specialize (data_lasts0 H). lia.
Qed.

Ltac owner_moves Ho :=
  apply data_owner_move; cbn; try done; try (by apply same_grows); try (by apply unresolved_grows); try (by rewrite Ho).

Lemma data_step_owner st st' : data st -> step_owner Copyable st = Some st' -> data st'.
Proof.
  intros Hd Hs. pose proof (data_owner _ Hd) as Hu. pose proof (data_ready _ Hd) as Hr. unfold step_owner in Hs.
  destruct (owner st) as [[|[o'|e|] acts]|[v|e] c acts|f c acts|[|k l] f c acts|acts| |] eqn:Ho; try done;
    injection Hs as <-; cbn in Hu.
  - assert (Hg : resolved (sh st) \/ unset (sh st) /\ o = inr broken_promise) by intuition.
    destruct (promise_count (sh st) - 1 =? 0); owner_moves Ho.
  - destruct Hu as [(Hn & Hf & Hoe & Ho')|[Hv Hc]].
    + rewrite Hf. owner_moves Ho.
    + destruct (has_f (sh st)); cbn in Hc; [done|]. owner_moves Ho.
  - destruct Hu as [(Hn & Hf & Hoe & Ho')|[Hv Hc]]; [|by destruct (has_f (sh st))]. owner_moves Ho.
  - apply data_copy; [done| |by rewrite Ho]. cbn. destruct Hu as [(Hn & Hf & Ho')|[Hv Hc]]; [by left|right].
    split; [done|]. by destruct (has_f (sh st)).
  - destruct Hu as ((Hres & Hex & Hrd) & Hoe & Hc & Hf). owner_moves Ho; [|by rewrite Hrd].
    split_and!; [done| |done..]. unfold answer. cbn. by rewrite Hex, <- Hoe.
  - destruct Hu as ((Hres & Hex & Hrd) & Hoe & Hc & Hf). owner_moves Ho; [|by rewrite Hrd].
    split_and!; [done| |done..]. unfold answer. cbn. by rewrite <- Hoe.
  - destruct Hu as (Hrd & Ha & Hc & Hf). owner_moves Ho.
  - destruct Hu as (Hv & Hc & Hf). destruct c; owner_moves Ho. right. split; [done|]. by rewrite Hf.
  - destruct Hu as (Hv & Hc & Hf). owner_moves Ho. by apply Forall_singleton.
  - destruct Hu as (Hv & Hc). owner_moves Ho. by right.
  - assert (Hv : resolved (break (sh st)).2).
    { destruct Hu as [Hv|[Hn Hb]]; [by apply break_grows|by apply break_resolved]. }
    owner_moves Ho; [apply break_grows|by left|by destruct Hv|apply break_events; intuition].
Qed.

(** The last holder finds the owner gone. *)
Lemma data_step_holder ks st st' i : inv ks st -> data st -> step_holder i st = Some st' -> data st'.
Proof.
  intros Hi Hd Hs. unfold step_holder in Hs. destruct (holders st !! i) as [[]|] eqn:Hx; try done; injection Hs as <-.
  - pose proof (sum_with_insert holds _ _ _ Dead Hx) as Hsum. cbn in Hsum. pose proof (inv_count _ _ Hi) as Hc.
    destruct Hd. cbn. constructor; cbn; try done.
    intros [Hl|Hl]%holder_insert_last; [|by auto]. destruct (Nat.eqb_spec (promise_count (sh st) - 1) 0); [lia|done].
  - assert (Hg : owner_holds (owner st) = 0) by (apply (data_lasts _ Hd), list_elem_of_lookup; by eexists).
    assert (Hu : resolved (sh st) \/ unset (sh st) /\ o = inr broken_promise).
    { pose proof (data_owner _ Hd) as Hu. by destruct (owner st). }
    assert (Hv : resolved (break (sh st)).2).
    { destruct Hu as [Hv|[Hn Hb]]; [by apply break_grows|by apply break_resolved]. }
    pose proof (break_grows (sh st)) as Hgr. destruct Hd. constructor; cbn.
    + destruct (owner st); try done; by left.
    + by destruct Hv.
    + apply Forall_app. split; [by eapply events_grow|]. apply break_events. intuition.
    + by eapply readers_grow.
    + by eapply attachers_grow.
    + done.
Qed.

Lemma data_step_attacher st st' i : data st -> step_attacher Copyable i st = Some st' -> data st'.
Proof.
  intros [] Hs. unfold step_attacher in Hs. destruct (attachers st !! i) as [[k|k|]|] eqn:Hx; try done.
  - unfold recover in Hs. destruct (ready (sh st)) eqn:Hr; injection Hs as <-; cbn.
    + constructor; cbn; try done; [by auto|by rewrite app_nil_r|]. apply Forall_set; [done|]. split; auto.
    + set (s' := mk_shared _ _ _ _ _ _). assert (Hg : grows (sh st) s') by (by apply unresolved_grows).
      constructor; cbn; try done.
      * destruct (owner st); cbn in *; unfold resolved, unset in *; rewrite Hr in *; intuition congruence.
      * rewrite app_nil_r. by eapply events_grow.
      * by eapply readers_grow.
      * apply Forall_set; [by eapply attachers_grow|done].
  - pose proof (Forall_lookup_1 _ _ _ _ data_attachers0 Hx) as Hv. injection Hs as <-. constructor; cbn; try done.
    + apply Forall_app. split; [done|by apply Forall_singleton].
    + by apply Forall_set.
Qed.

Lemma data_step_reader st st' i : data st -> step_reader i st = Some st' -> data st'.
Proof.
  intros [] Hs. unfold step_reader in Hs. destruct (readers st !! i) as [[|b|]|] eqn:Hx; try done; injection Hs as <-;
    constructor; cbn; try done; (apply Forall_set; [done|]).
  - destruct (ready (sh st)) eqn:Hr; cbn; [|done]. split; auto.
  - pose proof (Forall_lookup_1 _ _ _ _ data_readers0 Hx) as Hb. destruct b; [right|by left]. by destruct Hb.
Qed.

Lemma future_data_reachable acts ks n st : outcome acts = o -> resolved_once acts = true ->
  rtc (step Copyable) (start acts ks n) st -> inv ks st /\ data st.
Proof.
  intros Ho Hr Hs. enough (H : forall s, rtc (step Copyable) s st -> inv ks s -> data s -> inv ks st /\ data st).
  { apply (H _ Hs); [apply inv_start_future|by apply data_start]. }
  clear Hs. induction 1 as [|s1 s2 s3 Hs _ IH]; [done|]. intros Hi Hd. apply IH; [by eapply future_inv_step|].
  destruct Hs; eauto using data_step_owner, data_step_holder, data_step_attacher, data_step_reader.
Qed.
End outcome.

(** Runs of threads in a given order. *)
Inductive turn := Owner | Holder (i : nat) | Attacher (i : nat) | Reader (i : nat).
Definition take_turn (kd : kind) (t : turn) : state -> option state :=
  match t with
  | Owner => step_owner kd | Holder i => step_holder i | Attacher i => step_attacher kd i | Reader i => step_reader i
  end.
Fixpoint take_turns (kd : kind) (ts : list turn) (st : state) : option state :=
  match ts with
  | [] => Some st
  | t :: ts => match take_turn kd t st with Some st' => take_turns kd ts st' | None => None end
  end.
Lemma turns_steps kd ts : forall st st', take_turns kd ts st = Some st' -> nsteps (step kd) (length ts) st st'.
Proof.
  induction ts as [|t ts IH]; intros st st' H; cbn in H; [injection H as ->; constructor|].
  destruct (take_turn kd t st) as [st1|] eqn:H1; [|done]. econstructor; [|by apply IH].
  destruct t; [by eapply step_by_owner|by eapply step_by_holder|by eapply step_by_attacher|by eapply step_by_reader].
Qed.

(** ** Properties *)

(** C11: every run of the threads around a future ends after a bounded number of
    steps, and no continuation is lost or resumed twice, wherever it is attached
    between the calls, exceptions and broken promises: at any moment it has been
    resumed or destroyed at most as often as it was to be attached, and at the end
    exactly so, with the future ready. If there is a call or an exception, no continuation of a
    copyable future is destroyed, at the end all are with their executors; in the move-only
    case, where the next to be attached destroys the one before, one at least is resumed. *)
Theorem continuations_resumed (kd : kind) (acts : list act) (ks : list nat) (n m : nat) (st : state) :
  nsteps (step kd) n (start acts ks m) st ->
  n <= 2 + 6 * length acts + 4 * length ks + 2 * m /\
  (forall k, occ k (subject <$> trace st) <= occ k ks) /\
  (resolves acts = true -> kd = Copyable -> Forall (fun e => e = Scheduled (subject e)) (trace st)) /\
  ((forall st', ~ step kd st st') -> ready (sh st) = true /\ subject <$> trace st ≡ₚ ks /\
    (resolves acts = true -> kd = Copyable -> trace st ≡ₚ Scheduled <$> ks) /\
    (resolves acts = true -> ks <> [] -> exists k, Scheduled k ∈ trace st \/ Called k ∈ trace st)).
Proof.
  intros Hn. assert (Hr : rtc (step kd) (start acts ks m) st) by (eapply rtc_nsteps_2, Hn). pose proof (future_inv_reachable _ _ _ _ _ Hr) as Hi. split_and!.
  - by eapply future_run_bounded.
  - intros k. pose proof (inv_once _ _ Hi k). lia.
  - intros Ha Hc. by apply (saved_reachable kd acts ks m st Ha Hr).
  - intros Hs. destruct (future_stuck kd st Hs) as (Hu & Hh & Ha & _). destruct (future_at_rest _ _ Hi Hu Hh Ha) as [Hrd Hp]. split_and!; [done..| |].
    + intros Hres Hc. rewrite <- Hp. by apply all_scheduled, (saved_reachable kd acts ks m st Hres Hr).
    + intros Hres Hk. destruct (saved_reachable kd acts ks m st Hres Hr) as [_ _ Hl]. apply somebody_resumed.
      * intros Ht. rewrite Ht in Hp. by apply Permutation_nil in Hp.
      * intros Hd. destruct (Hl Hd) as [Ht|[Ht|Ht]]; [by rewrite (inv_then _ _ Hi Hrd) in Ht|by rewrite Hu in Ht|done].
Qed.

(** C12: a future of a copyable type, or of [void], that is resolved once has one outcome: whoever asks is told nothing
    or the first resolution, continuations are resumed only when the future holds
    it, and are destroyed only if it is the broken promise. *)
Theorem future_outcome (acts : list act) (ks : list nat) (n : nat) (st : state) :
  resolved_once acts = true -> rtc (step Copyable) (start acts ks n) st ->
  (forall a, Answered (Some a) ∈ readers st -> a = outcome acts) /\
  (forall k, Scheduled k ∈ trace st -> ready (sh st) = true /\ answer (sh st) = Some (outcome acts)) /\
  (forall k, Called k ∉ trace st) /\
  (forall k, Destroyed k ∈ trace st -> outcome acts = inr broken_promise) /\
  (ready (sh st) = true -> answer (sh st) = Some (outcome acts)).
Proof.
  intros Hr Hs. destruct (future_data_reachable (outcome acts) acts ks n st eq_refl Hr Hs) as [Hi Hd].
  pose proof (proj1 (Forall_forall _ _) (data_readers _ _ Hd)) as Hrd.
  pose proof (proj1 (Forall_forall _ _) (data_trace _ _ Hd)) as Ht. split_and!.
  - intros a Ha. destruct (Hrd _ Ha) as [|[[= ->] _]]; done.
  - intros k Hk. apply (Ht _ Hk).
  - intros k Hk. apply (Ht _ Hk).
  - intros k Hk. apply (Ht _ Hk).
  - apply (data_ready _ _ Hd).
Qed.

(** What a future holds can change. [set_exception] does not look whether the
    future is ready: after a call with a value it replaces the outcome, and two
    askers are told different things; a continuation attached in between and one
    attached later are both resumed. *)
Theorem late_exception_replaces (v : V) (e : E) :
  exists st, rtc (step Copyable) (start [Call (inl v); SetException e] [0; 1] 2) st /\ (forall st', ~ step Copyable st st') /\
  readers st = [Answered (Some (inl v)); Answered (Some (inr e))] /\ trace st = [Scheduled 0; Scheduled 1].
Proof.
  set (st := mk_state (mk_shared (Some v) (Some e) true [] 0 false) Gone [] [Attached; Attached]
    [Answered (Some (inl v)); Answered (Some (inr e))] [Scheduled 0; Scheduled 1]).
  assert (Hr : take_turns Copyable
    ([Attacher 0] ++ replicate 5 Owner ++ [Reader 0; Reader 0] ++ replicate 5 Owner
      ++ [Reader 1; Reader 1; Attacher 1; Attacher 1; Owner; Owner])
    (start [Call (inl v); SetException e] [0; 1] 2) = Some st) by (vm_compute; reflexivity).
  exists st. split_and!; [by eapply rtc_nsteps_2, turns_steps| |done..].
  intros st' Hs. inversion Hs as [? ? H|i ? ? H|i ? ? H|i ? ? H]; subst; revert H;
    [done|by destruct i|by destruct i as [|[|i]]..].
Qed.
End future.

(** A continuation attached before the promise is broken, one attached after it, a
    copy of the packaged task that is the last to go, and somebody who asks. *)
Definition demo_state : state (V := nat) (E := nat) :=
  mk_state (mk_shared None (Some 404) true [] 0 false) Gone [Dead] [Attached; Attached] [Answered (Some (inr 404))]
    [Destroyed 7; Scheduled 8].
Definition demo_turns : list turn :=
  [Attacher 0; Owner; Owner; Holder 0; Holder 0; Attacher 1; Attacher 1; Reader 0; Reader 0].
Lemma demo_run kd : take_turns 404 kd demo_turns (start [Copy] [7; 8] 1) = Some demo_state.
Proof. destruct kd; vm_compute; reflexivity. Qed.

(** A call between the two. *)
Definition call_state : state (V := nat) (E := nat) :=
  mk_state (mk_shared (Some 5) None true [] 0 false) Gone [Dead] [Attached; Attached] [Answered (Some (inl 5))] [Scheduled 7; Scheduled 8].
Definition call_turns : list turn :=
  [Attacher 0] ++ replicate 7 Owner ++ [Attacher 1; Attacher 1; Reader 0; Reader 0; Owner; Holder 0; Holder 0].
Lemma call_run : take_turns 404 Copyable call_turns (start [Copy; Call (inl 5)] [7; 8] 1) = Some call_state.
Proof. vm_compute. reflexivity. Qed.

Lemma continuations_resumed_witness : resolves (V := nat) (E := nat) [Copy; Call (inl 5)] = true /\
  15 <= 2 + 6 * 2 + 4 * 2 + 2 * 1 /\
  (forall k, occ k (subject <$> trace call_state) <= occ k [7; 8]) /\
  (resolves (V := nat) (E := nat) [Copy; Call (inl 5)] = true -> Copyable = Copyable -> Forall (fun e => e = Scheduled (subject e)) (trace call_state)) /\
  ((forall st', ~ step 404 Copyable call_state st') -> ready (sh call_state) = true /\ subject <$> trace call_state ≡ₚ [7; 8] /\
    (resolves (V := nat) (E := nat) [Copy; Call (inl 5)] = true -> Copyable = Copyable -> trace call_state ≡ₚ Scheduled <$> [7; 8]) /\
    (resolves (V := nat) (E := nat) [Copy; Call (inl 5)] = true -> [7; 8] <> [] -> exists k, Scheduled k ∈ trace call_state \/ Called k ∈ trace call_state)).
Proof.
  split; [reflexivity|].
  exact (continuations_resumed 404 Copyable [Copy; Call (inl 5)] [7; 8] 15 1 call_state (turns_steps 404 Copyable call_turns _ _ call_run)).
Defined.

Lemma future_outcome_witness :
  (forall a, Answered (Some a) ∈ readers demo_state -> a = inr 404) /\
  (forall k, Scheduled k ∈ trace demo_state -> ready (sh demo_state) = true /\ answer (sh demo_state) = Some (inr 404)) /\
  (forall k, Called k ∉ trace demo_state) /\
  (forall k, Destroyed k ∈ trace demo_state -> inr 404 = inr 404 :> nat + nat) /\
  (ready (sh demo_state) = true -> answer (sh demo_state) = Some (inr 404)).
Proof.
  exact (future_outcome 404 [Copy] [7; 8] 1 demo_state eq_refl
    (rtc_nsteps_2 _ _ _ (turns_steps 404 Copyable demo_turns _ _ (demo_run Copyable)))).
Defined.
