(* ===== verification/FutureValues.v ===== *)
(** * Where the value of a future goes

    Futures of copyable types, of types that only move, and of [void]
    ([deps/clean_stlab], [future.hpp]: the three specialisations of [shared_base] and
    of [future]): what [get_try], [then] and [recover] give to each handle and each
    continuation. An rvalue [get_try] moves the value out of the shared state when
    its handle is the only user, and for a type that only moves every access does;
    a moved-from value is left in [_result], which stays engaged. The model is one
    shared state with its users; an operation is one step, as it has one critical
    section ([SharedFuture] has the finer steps and late exceptions). A handle that
    is moved to another place is the same handle. *)

From S2P Require Import Prelude.
Local Open Scope nat_scope.

Inductive kind := Copyable | MoveOnly | Void.

Section values.
Context {V E : Type} (broken_promise : E).

(** What a user gets: a value ([Value None] is moved-from), the end of a [void]
    future, nothing, or an exception. *)
Inductive observation := Value (v : option V) | Done | Nothing | Threw (e : E).
Inductive user := Handle (h : nat) | Continuation (k : nat).

(** A continuation holds the state while it is in [_then], and while it is with its
    executor. *)
Inductive continuation := Waiting | Scheduled | Over.

(** [moved] is a remark of the model: the handle has been given up by its user. *)
Record handle := mk_handle { alive : bool; moved : bool }.

(** [_result] (an optional with a value that may be moved-from), [_exception],
    [_ready], whether a [packaged_task] has locked the state, the users, and what they
    have got. *)
Record state := mk_state {
  result : option (option V);
  exception : option E;
  ready : bool;
  calling : bool;
  handles : list handle;
  conts : list continuation;
  seen : list (user * observation)
}.

Definition set_handles (hs : list handle) (s : state) : state :=
  mk_state (result s) (exception s) (ready s) (calling s) hs (conts s) (seen s).
Definition set_conts (cs : list continuation) (s : state) : state :=
  mk_state (result s) (exception s) (ready s) (calling s) (handles s) cs (seen s).
Definition set_calling (b : bool) (s : state) : state :=
  mk_state (result s) (exception s) (ready s) b (handles s) (conts s) (seen s).
Definition see (u : user) (o : observation) (s : state) : state :=
  mk_state (result s) (exception s) (ready s) (calling s) (handles s) (conts s) (seen s ++ [(u, o)]).
Definition relinquish (h : nat) (s : state) : state :=
  set_handles (alter (fun x => mk_handle (alive x) true) h (handles s)) s.

(** *** [use_count] *)
Definition holds_handle (x : handle) : nat := if alive x then 1 else 0.
Definition holds_cont (c : continuation) : nat := match c with Over => 0 | _ => 1 end.
Definition use_count (s : state) : nat :=
  sum_list_with holds_handle (handles s) + sum_list_with holds_cont (conts s) + if calling s then 1 else 0.
Definition unique_usage (s : state) : bool := use_count s =? 1.

Section operations.
Context (kd : kind).

(** *** [get_try], [get_try_r] *)
Definition try (s : state) : observation :=
  if ready s then
    match exception s with
    | Some e => Threw e
    | None =>
        match kd with
        | Void => Done
        | _ => match result s with Some v => Value v | None => Nothing end
        end
    end
  else Nothing.

(** [std::move(_result)]: the optional stays engaged. *)
Definition move_result (s : state) : state :=
  match ready s, exception s, result s with
  | true, None, Some _ =>
      mk_state (Some None) None true (calling s) (handles s) (conts s) (seen s)
  | _, _, _ => s
  end.

Definition get_try_r (unique : bool) (s : state) : observation * state :=
  match kd with
  | Copyable => if unique then (try s, move_result s) else (try s, s)
  | MoveOnly => (try s, move_result s)
  | Void => (try s, s)
  end.
Definition get_try (s : state) : observation * state :=
  match kd with MoveOnly => get_try_r true s | _ => (try s, s) end.

(** *** [recover], [recover_r]: the critical section. A state of a type that only
    moves has room for one continuation: another one replaces it. *)
Definition attach (s : state) : state :=
  if ready s then set_conts (conts s ++ [Scheduled]) s
  else match kd with
  | MoveOnly => set_conts (((fun c => match c with Waiting => Over | _ => c end) <$> conts s) ++ [Waiting]) s
  | _ => set_conts (conts s ++ [Waiting]) s
  end.

(** *** [set_value], [set_exception], and the last [remove_promise] *)
Definition schedule (c : continuation) : continuation := match c with Waiting => Scheduled | _ => c end.
Definition cancel (c : continuation) : continuation := match c with Waiting => Over | _ => c end.

Definition resolve (o : V + E) (s : state) : state :=
  match o with
  | inl v => mk_state (match kd with Void => result s | _ => Some (Some v) end) (exception s) true (calling s)
               (handles s) (schedule <$> conts s) (seen s)
  | inr e => mk_state (result s) (Some e) true (calling s) (handles s) (schedule <$> conts s) (seen s)
  end.
Definition break (s : state) : state :=
  mk_state (result s) (Some broken_promise) true (calling s) (handles s) (cancel <$> conts s) (seen s).

(** ** Steps

    [GetTryR] and [ThenR] are the calls on an rvalue; [Run] is a continuation that
    asks its future for the value ([then] and [recover] both do, and they hold it in
    a lambda that is not mutable, so that the rvalue calls copy from it as well). *)
Inductive op :=
  | Copy (h : nat) | Drop (h : nat)
  | GetTry (h : nat) | GetTryR (h : nat)
  | Then (h : nat) | ThenR (h : nat)
  | Enter | Resolve (o : V + E) | Leave | Break
  | Run (k : nat) | DropCont (k : nat).

Definition gives (o : observation) : bool := match o with Nothing => false | _ => true end.

(** A handle is given up by [then] on an rvalue, and by a call that moved. *)
Definition observe (h : nat) (given_up : bool) (r : observation * state) : state :=
  see (Handle h) r.1 (if given_up && gives r.1 then relinquish h r.2 else r.2).

Definition is_alive (h : nat) (s : state) : bool :=
  match handles s !! h with Some x => alive x | None => false end.

Definition step (o : op) (s : state) : option state :=
  match o with
  | Copy h =>
      if is_alive h s then
        match kd with MoveOnly => None | _ => Some (set_handles (handles s ++ [mk_handle true false]) s) end
      else None
  | Drop h => if is_alive h s then Some (set_handles (<[h := mk_handle false true]> (handles s)) s) else None
  | GetTry h =>
      if is_alive h s then Some (observe h (match kd with MoveOnly => true | _ => false end) (get_try s)) else None
  | GetTryR h => if is_alive h s then Some (observe h true (get_try_r (unique_usage s) s)) else None
  | Then h => if is_alive h s then match kd with MoveOnly => None | _ => Some (attach s) end else None
  | ThenR h => if is_alive h s then Some (relinquish h (attach s)) else None
  | Enter => if (use_count s =? 0) || calling s then None else Some (set_calling true s)
  | Resolve r => if calling s && negb (ready s) then Some (resolve r s) else None
  | Leave => if calling s then Some (set_calling false s) else None
  | Break => if calling s || ready s || (use_count s =? 0) then None else Some (break s)
  | Run k =>
      match conts s !! k with
      | Some Scheduled =>
          let r := get_try s in
          Some (see (Continuation k) r.1 (set_conts (<[k := Over]> (conts s)) r.2))
      | _ => None
      end
  | DropCont k =>
      match conts s !! k with
      | Some Waiting | Some Scheduled => Some (set_conts (<[k := Over]> (conts s)) s)
      | _ => None
      end
  end.

Definition run (ops : list op) (s : state) : option state := fold_opt (fun s o => step o s) ops s.
End operations.

(** [package]: one handle, nothing attached. *)
Definition start : state := mk_state None None false false [mk_handle true false] [] [].

(** ** Specification *)

(** The handle an operation uses; a polite user leaves a handle alone once it is
    given up. *)
Definition uses (o : op) : option nat :=
  match o with Copy h | GetTry h | GetTryR h | Then h | ThenR h => Some h | _ => None end.
Definition polite_op (o : op) (s : state) : bool :=
  match uses o with
  | Some h => match handles s !! h with Some x => negb (moved x) | None => true end
  | None => true
  end.
Fixpoint polite (kd : kind) (ops : list op) (s : state) : bool :=
  match ops with
  | [] => true
  | o :: ops => polite_op o s && match step kd o s with Some s => polite kd ops s | None => true end
  end.

(** What the future was resolved with. *)
Definition given (g : option (V + E)) (o : op) : option (V + E) :=
  match g, o with
  | None, Resolve r => Some r
  | None, Break => Some (inr broken_promise)
  | _, _ => g
  end.
Definition outcome (ops : list op) : option (V + E) := foldl given None ops.
Definition expected (kd : kind) (r : V + E) : observation :=
  match r with inr e => Threw e | inl v => match kd with Void => Done | _ => Value (Some v) end end.

Definition is_value (x : user * observation) : bool := match x.2 with Value _ => true | _ => false end.
Definition values_seen (s : state) : nat := sum_list_with (fun x => if is_value x then 1 else 0) (seen s).

(** The users that may still ask. *)
Definition asks (x : handle) : nat := if alive x && negb (moved x) then 1 else 0.
Definition observers (s : state) : nat :=
  sum_list_with asks (handles s) + sum_list_with holds_cont (conts s).

Record inv (kd : kind) (g : option (V + E)) (s : state) : Prop := mk_inv {
  i_open : ready s = false -> g = None /\ result s = None /\ exception s = None /\ Scheduled ∉ conts s;
  i_resolved : ready s = true -> exists r, g = Some r /\ (Waiting ∉ conts s) /\
    match r with
    | inr e => exception s = Some e
    | inl v => exception s = None /\
        (kd = Void \/ result s = Some (Some v) \/ (result s = Some None /\ observers s = 0))
    end;
  i_seen : Forall (fun x => (exists r, g = Some r /\ x.2 = expected kd r) \/
                            (x.2 = Nothing /\ exists h, x.1 = Handle h)) (seen s);
  i_once : kd = MoveOnly -> values_seen s + observers s <= 1
}.

(** ** Lemmas *)

Lemma asks_holds x : asks x <= holds_handle x.
Proof. destruct x as [[] []]; cbn; lia. Qed.

Lemma observers_use_count s : observers s <= use_count s.
Proof.
  unfold observers, use_count. assert (sum_list_with asks (handles s) <= sum_list_with holds_handle (handles s)).
  { induction (handles s) as [|x l IH]; [done|]. cbn. pose proof (asks_holds x). lia. }
  lia.
Qed.

Lemma values_seen_snoc s u o : values_seen (see u o s) = values_seen s + match o with Value _ => 1 | _ => 0 end.
Proof. unfold values_seen. cbn. rewrite sum_list_with_app. cbn. destruct o; cbn; lia. Qed.

Lemma relinquish_observers h s x : handles s !! h = Some x ->
  observers (relinquish h s) + asks x = observers s.
Proof.
  intros Hx. unfold observers, relinquish. cbn [handles conts set_handles].
  pose proof (sum_with_insert asks (handles s) h x (mk_handle (alive x) true) Hx) as H.
  rewrite (alter_at _ _ _ x Hx). assert (E0 : asks (mk_handle (alive x) true) = 0) by (unfold asks; cbn; by rewrite andb_false_r).
  lia.
Qed.

Lemma asks_of x : alive x = true -> moved x = false -> asks x = 1.
Proof. unfold asks. by intros -> ->. Qed.

Lemma asks_observers h s x : handles s !! h = Some x -> asks x <= observers s.
Proof. intros Hx. rewrite <- (relinquish_observers h s x Hx). lia. Qed.

Lemma observers_ext s s' : handles s' = handles s -> conts s' = conts s -> observers s' = observers s.
Proof. unfold observers. by intros -> ->. Qed.

Lemma conts_observers k s c : conts s !! k = Some c ->
  observers (set_conts (<[k := Over]> (conts s)) s) + holds_cont c = observers s.
Proof.
  intros Hc. unfold observers. cbn [handles conts set_conts].
  pose proof (sum_with_insert holds_cont (conts s) k c Over Hc). cbn in *. lia.
Qed.

Lemma over_elem (c : continuation) (k : nat) (cs : list continuation) : c <> Over -> c ∈ <[k := Over]> cs -> c ∈ cs.
Proof.
  intros Hc (i & Hi)%list_elem_of_lookup. apply list_lookup_insert_Some in Hi as [(_ & <- & _)|[_ Hi]]; [done|].
  apply list_elem_of_lookup. by exists i.
Qed.

Lemma sum_holds_map (f : continuation -> continuation) cs :
  (forall c, holds_cont (f c) <= holds_cont c) -> sum_list_with holds_cont (f <$> cs) <= sum_list_with holds_cont cs.
Proof. intros Hf. induction cs as [|c cs IH]; [done|]. cbn. specialize (Hf c). lia. Qed.

Section invariants.
Context (kd : kind).
Implicit Types (g : option (V + E)) (s : state).

(** Nothing but the users changes. *)
Lemma inv_frame g s s' : inv kd g s ->
  result s' = result s -> exception s' = exception s -> ready s' = ready s -> seen s' = seen s ->
  (ready s = false -> Scheduled ∈ conts s' -> Scheduled ∈ conts s) ->
  (ready s = true -> Waiting ∈ conts s' -> Waiting ∈ conts s) ->
  (observers s = 0 -> observers s' = 0) -> (kd = MoveOnly -> observers s' <= observers s) ->
  inv kd g s'.
Proof.
  intros [Ho Hr Hs H1] E1 E2 E3 E4 Hc1 Hc2 Hz Hm. constructor.
  - rewrite E1, E2, E3. intros Hf. destruct (Ho Hf) as (? & ? & ? & ?). split_and!; auto.
  - rewrite E1, E2, E3. intros Ht. destruct (Hr Ht) as (r & ? & ? & H). exists r. split_and!; [done|auto|].
    destruct r; [|done]. destruct H as (? & [?|[?|[? ?]]]); auto 10.
  - by rewrite E4.
  - intros Hk. unfold values_seen in *. rewrite E4. specialize (H1 Hk). specialize (Hm Hk). lia.
Qed.

(** Who may still ask gets what the future was resolved with. *)
Lemma try_expected g s : inv kd g s -> ready s = true -> 0 < observers s ->
  exists r, g = Some r /\ try kd s = expected kd r.
Proof.
  intros [_ Hr _ _] Ht Hobs. destruct (Hr Ht) as (r & Hg & _ & H). exists r. split; [done|].
  unfold try. rewrite Ht. destruct r as [v|e]; cbn; [|by rewrite H].
  destruct H as (-> & [->|[->|[_ ?]]]); [done| |lia]. by destruct kd.
Qed.

Lemma try_not_ready s : ready s = false -> try kd s = Nothing.
Proof. intros H. unfold try. by rewrite H. Qed.

Lemma move_not_ready s : ready s = false -> move_result s = s.
Proof. intros H. unfold move_result. by rewrite H. Qed.

Lemma expected_gives r : gives (expected kd r) = true.
Proof. destruct r; cbn; [by destruct kd|done]. Qed.

(** A user that asks and is gone then, with or without moving the value out. *)
Lemma inv_last_look g s s' u r : inv kd g s -> g = Some r -> ready s = true ->
  (result s' = result s \/ result s' = Some None /\ observers s' = 0 /\ exception s = None) ->
  exception s' = exception s -> ready s' = true -> seen s' = seen s ->
  (Waiting ∈ conts s' -> Waiting ∈ conts s) ->
  (observers s = 0 -> observers s' = 0) -> (kd = MoveOnly -> observers s' < observers s) ->
  inv kd g (see u (expected kd r) s').
Proof.
  intros [Ho Hr Hs H1] Hg Ht Hres E2 E3 E4 Hc Hz Hm. constructor; cbn [ready result exception conts seen see].
  - by rewrite E3.
  - intros _. destruct (Hr Ht) as (r' & Hg' & Hw & H). exists r'. split_and!; [done|auto|].
    rewrite E2. change (observers (see u (expected kd r) s')) with (observers s').
    destruct r' as [v|e]; [|done]. destruct H as (? & H). split; [done|].
    destruct Hres as [->|(-> & ? & _)]; [|auto]. destruct H as [?|[?|[? ?]]]; auto 10.
  - rewrite E4. apply Forall_app. split; [done|]. constructor; [|done]. left. by exists r.
  - intros Hk. rewrite values_seen_snoc. specialize (H1 Hk). specialize (Hm Hk). unfold values_seen in *.
    rewrite E4. change (observers (see u (expected kd r) s')) with (observers s').
    destruct (expected kd r); lia.
Qed.

Lemma inv_start_values : inv kd None start.
Proof.
  constructor; cbn; try done. intros _. split_and!; try done. by intros ?%elem_of_nil.
Qed.

Lemma is_alive_lookup h s : is_alive h s = true -> exists x, handles s !! h = Some x /\ alive x = true.
Proof. unfold is_alive. destruct (handles s !! h) as [x|]; [by exists x|done]. Qed.

(** A handle that asks: it is there, and was not given up. *)
Lemma asking o h s : uses o = Some h -> polite_op o s = true -> is_alive h s = true ->
  exists x, handles s !! h = Some x /\ asks x = 1.
Proof.
  intros Hu Hp (x & Hx & Ha)%is_alive_lookup. exists x. split; [done|]. unfold polite_op in Hp.
  rewrite Hu, Hx in Hp. apply asks_of; [done|]. by apply negb_true_iff.
Qed.

Lemma move_fields s : exception (move_result s) = exception s /\ ready (move_result s) = ready s /\
  handles (move_result s) = handles s /\ conts (move_result s) = conts s /\ seen (move_result s) = seen s /\
  calling (move_result s) = calling s.
Proof. unfold move_result. by destruct (ready s) eqn:E1, (exception s) eqn:E2, (result s) eqn:E3. Qed.

Lemma move_result_result s : result (move_result s) = result s \/
  result (move_result s) = Some None /\ exception s = None.
Proof. unfold move_result. destruct (ready s), (exception s), (result s) eqn:?; cbn; auto. Qed.

(** What [get_try] and [get_try_r] may do to the state. *)
Definition looks (r : observation * state) (s : state) : Prop :=
  r = (try kd s, s) \/ r = (try kd s, move_result s) /\ observers s <= 1.

Lemma get_try_looks g s : inv kd g s -> looks (get_try kd s) s.
Proof.
  intros Hi. unfold get_try, get_try_r, looks. pose proof (i_once _ _ _ Hi) as H. destruct kd; auto.
  right. split; [done|]. specialize (H eq_refl). lia.
Qed.

Lemma get_try_r_looks g s : inv kd g s -> looks (get_try_r kd (unique_usage s) s) s.
Proof.
  intros Hi. unfold get_try_r, looks. pose proof (i_once _ _ _ Hi) as H.
  pose proof (observers_use_count s) as Hu. destruct kd; auto.
  - unfold unique_usage. destruct (Nat.eqb_spec (use_count s) 1); [right; split; [done|lia]|by left].
  - right. split; [done|]. specialize (H eq_refl). lia.
Qed.

Lemma uses_frame g s s' : inv kd g s -> result s' = result s -> exception s' = exception s ->
  ready s' = ready s -> seen s' = seen s -> conts s' = conts s -> observers s' <= observers s -> inv kd g s'.
Proof.
  intros Hi E1 E2 E3 E4 E5 Ho. apply (inv_frame g s); try done; rewrite ?E5; try done; lia.
Qed.

(** An answer while the future is open. *)
Lemma see_nothing g s h : inv kd g s -> inv kd g (see (Handle h) Nothing s).
Proof.
  intros [Ho Hr Hs H1]. constructor; try done.
  - cbn. apply Forall_app. split; [done|]. constructor; [|done]. right. cbn. eauto.
  - intros Hk. rewrite (values_seen_snoc s (Handle h) Nothing : _ = values_seen s + 0).
    change (observers (see (Handle h) Nothing s)) with (observers s). specialize (H1 Hk). lia.
Qed.

Lemma observe_inv g s h x b r : inv kd g s -> handles s !! h = Some x -> asks x = 1 -> looks r s ->
  (b = false -> r = (try kd s, s) /\ kd <> MoveOnly) -> inv kd g (observe h b r).
Proof.
  intros Hi Hx Ha Hl Hb. pose proof (asks_observers h s x Hx) as Hobs. unfold observe.
  pose proof (relinquish_observers h s x Hx) as Hgive. destruct (move_fields s) as (F1 & F2 & F3 & F4 & F5 & F6).
  destruct (ready s) eqn:Hready.
  - destruct (try_expected g s Hi Hready ltac:(lia)) as (out & Hg & Htry).
    assert (Er : r.1 = expected kd out) by (destruct Hl as [->|[-> _]]; done).
    rewrite Er, expected_gives, andb_true_r. destruct b.
    + assert (Eo : observers (relinquish h r.2) = observers (relinquish h s)).
      { destruct Hl as [->|[-> _]]; [done|]. apply observers_ext; cbn; [by rewrite F3|done]. }
      apply (inv_last_look g s); try done; try (destruct Hl as [->|[-> _]]; cbn; congruence).
      * destruct Hl as [->|[-> H1]]; [by left|]. destruct (move_result_result s) as [H|[H H']]; [by left|right].
        split_and!; [done| |done]. lia.
      * lia.
      * lia.
    + destruct (Hb eq_refl) as [-> Hk]. apply (inv_last_look g s); try done. by left.
  - assert (Er : r = (Nothing, s)) by (destruct Hl as [->|[-> _]]; by rewrite ?move_not_ready, try_not_ready).
    rewrite Er, andb_false_r. by apply see_nothing.
Qed.

Lemma attach_conts s : exists cs c, conts (attach kd s) = cs ++ [c] /\ c = (if ready s then Scheduled else Waiting) /\
  (forall c', c' <> Over -> c' ∈ cs -> c' ∈ conts s) /\
  sum_list_with holds_cont cs <= sum_list_with holds_cont (conts s).
Proof.
  unfold attach. destruct (ready s); [by exists (conts s), Scheduled|].
  destruct kd; [by exists (conts s), Waiting| |by exists (conts s), Waiting].
  eexists _, Waiting. split_and!; [done|done| |].
  - intros c' Hc (c & -> & Hin)%list_elem_of_fmap. by destruct c.
  - apply sum_holds_map. intros []; cbn; lia.
Qed.

Lemma attach_inv g s s' h x : inv kd g s -> handles s !! h = Some x -> asks x = 1 ->
  (s' = attach kd s /\ kd <> MoveOnly \/ s' = relinquish h (attach kd s)) -> inv kd g s'.
Proof.
  intros Hi Hx Ha Hs'. destruct (attach_conts s) as (cs & c & Hc & Ec & Hin & Hsum).
  assert (Hf : result (attach kd s) = result s /\ exception (attach kd s) = exception s /\
    ready (attach kd s) = ready s /\ seen (attach kd s) = seen s /\ handles (attach kd s) = handles s).
  { unfold attach. destruct (ready s) eqn:Hr; [by rewrite <- Hr|]. destruct kd; by rewrite <- Hr. }
  destruct Hf as (F1 & F2 & F3 & F4 & F5). pose proof (asks_observers h s x Hx) as Hobs.
  assert (Ho : observers (attach kd s) <= S (observers s)).
  { unfold observers. rewrite F5, Hc, sum_list_with_app. cbn. destruct c; cbn; lia. }
  assert (Hel : forall c', c' <> Over -> c' <> c -> c' ∈ conts (attach kd s) -> c' ∈ conts s).
  { intros c' H1 H2. rewrite Hc. intros [?|?%list_elem_of_singleton]%elem_of_app; [by apply Hin|done]. }
  assert (Hg : observers (relinquish h (attach kd s)) + 1 = observers (attach kd s)).
  { rewrite <- Ha. apply relinquish_observers. by rewrite F5. }
  apply (inv_frame g s); [done|..].
  1-4: destruct Hs' as [[-> _]| ->]; cbn; congruence.
  1-2: intros Hr Hs; rewrite Hr in Ec; apply Hel; [done|by rewrite Ec|by destruct Hs' as [[-> _]| ->]].
  - lia.
  - intros Hk. destruct Hs' as [[-> ?]| ->]; [done|]. lia.
Qed.

(** The task gives its outcome, or its last promise goes. *)
Lemma settle_inv g s s' r (f : continuation -> continuation) : inv kd g s -> ready s = false ->
  s' = mk_state (match r with inl v => match kd with Void => result s | _ => Some (Some v) end | inr _ => result s end)
         (match r with inl _ => exception s | inr e => Some e end) true (calling s) (handles s)
         (f <$> conts s) (seen s) ->
  (forall c, f c <> Waiting) -> (forall c, holds_cont (f c) <= holds_cont c) -> inv kd (Some r) s'.
Proof.
  intros [Ho _ Hs H1] Hr -> Hf Hh. destruct (Ho Hr) as (-> & Hres & Hex & Hsch). constructor; cbn; [done|..].
  - intros _. exists r. split_and!; [done| |].
    + intros (c & Hc & _)%list_elem_of_fmap. by apply (Hf c).
    + destruct r as [v|e]; [|done]. split; [done|]. destruct kd; auto.
  - eapply Forall_impl; [exact Hs|]. intros x [(r' & ? & _)|?]; [done|auto].
  - intros Hk. specialize (H1 Hk). unfold values_seen, observers in *. cbn.
    pose proof (sum_holds_map f (conts s) Hh). lia.
Qed.

Lemma run_cont_inv g s k : inv kd g s -> conts s !! k = Some Scheduled ->
  inv kd g (see (Continuation k) (get_try kd s).1 (set_conts (<[k := Over]> (conts s)) (get_try kd s).2)).
Proof.
  intros Hi Hk. pose proof (conts_observers k s _ Hk : _ + 1 = _) as Hobs.
  destruct (ready s) eqn:Hready.
  2:{ destruct (i_open _ _ _ Hi Hready) as (_ & _ & _ & []). apply list_elem_of_lookup. by exists k. }
  destruct (try_expected g s Hi Hready ltac:(lia)) as (out & Hg & Htry).
  pose proof (get_try_looks g s Hi) as Hl. destruct (move_fields s) as (F1 & F2 & F3 & F4 & F5 & F6).
  assert (Er : (get_try kd s).1 = expected kd out) by (destruct Hl as [->|[-> _]]; done). rewrite Er.
  assert (Eo : observers (set_conts (<[k:=Over]> (conts s)) (get_try kd s).2) =
    observers (set_conts (<[k:=Over]> (conts s)) s)).
  { apply observers_ext; [|done]. by destruct Hl as [->|[-> _]]. }
  apply (inv_last_look g s); try done; try (destruct Hl as [->|[-> _]]; cbn; congruence).
  - rewrite Eo. destruct Hl as [->|[-> H1]]; [by left|].
    destruct (move_result_result s) as [H|[H H']]; [by left|right]. split_and!; [done|lia|done].
  - cbn. by apply over_elem.
  - lia.
  - lia.
Qed.

Lemma copy_inv g s h x : inv kd g s -> handles s !! h = Some x -> asks x = 1 -> kd <> MoveOnly ->
  inv kd g (set_handles (handles s ++ [mk_handle true false]) s).
Proof.
  intros Hi Hx Ha Hk. pose proof (asks_observers h s x Hx). apply (inv_frame g s); try done. lia.
Qed.

Lemma drop_inv g s h x : inv kd g s -> handles s !! h = Some x ->
  inv kd g (set_handles (<[h := mk_handle false true]> (handles s)) s).
Proof.
  intros Hi Hx. apply (uses_frame g s); try done. unfold observers. cbn [handles conts set_handles].
  pose proof (sum_with_insert asks _ _ _ (mk_handle false true) Hx) as H. cbn in H. lia.
Qed.

Lemma step_inv g s o s' : inv kd g s -> polite_op o s = true -> step kd o s = Some s' -> inv kd (given g o) s'.
Proof.
  intros Hi Hp. assert (Hg : match o with Resolve _ | Break => True | _ => given g o = g end) by (by destruct o, g).
  pose proof (fun h Hu Ha => asking o h s Hu Hp Ha) as Hask.
  destruct o as [h|h|h|h|h|h| |r| | |k|k]; cbn [step]; rewrite ?Hg; clear Hg;
    try (destruct (is_alive h s) eqn:Ha; [|done]).
  - destruct (Hask h eq_refl Ha) as (x & Hx & H1). pose proof (copy_inv g s h x Hi Hx H1) as Hc.
    destruct kd; intros [= <-]; by apply Hc.
  - intros [= <-]. apply is_alive_lookup in Ha as (x & Hx & _). by apply (drop_inv g s h x).
  - destruct (Hask h eq_refl Ha) as (x & Hx & H1). intros [= <-]. apply (observe_inv g s h x); try done.
    + by apply (get_try_looks g).
    + by destruct kd.
  - destruct (Hask h eq_refl Ha) as (x & Hx & H1). intros [= <-]. apply (observe_inv g s h x); try done.
    by apply (get_try_r_looks g).
  - destruct (Hask h eq_refl Ha) as (x & Hx & H1). intros Hs. apply (attach_inv g s s' h x); try done.
    left. destruct kd; by simplify_eq.
  - destruct (Hask h eq_refl Ha) as (x & Hx & H1). intros [= <-]. apply (attach_inv g s _ h x); auto.
  - destruct (_ || _); [done|]. intros [= <-]. by apply (uses_frame g s).
  - destruct (calling s); [|done]. destruct (ready s) eqn:Hr; [done|]. intros [= <-].
    destruct (i_open _ _ _ Hi Hr) as (-> & _). apply (settle_inv None s _ r schedule); try done.
    + by destruct r.
    + by intros [].
    + intros []; cbn; lia.
  - destruct (calling s); [|done]. intros [= <-]. by apply (uses_frame g s).
  - destruct (calling s); [done|]. destruct (ready s) eqn:Hr; [done|]. destruct (use_count s =? 0); [done|].
    intros [= <-]. destruct (i_open _ _ _ Hi Hr) as (-> & _).
    apply (settle_inv None s _ (inr broken_promise) cancel); try done; [by intros []|intros []; cbn; lia].
  - destruct (conts s !! k) as [[]|] eqn:Hk; try done. intros [= <-]. by apply run_cont_inv.
  - assert (Hd : forall c, conts s !! k = Some c -> inv kd g (set_conts (<[k := Over]> (conts s)) s)).
    { intros c Hk. pose proof (conts_observers k s c Hk) as Ho. apply (inv_frame g s); try done; try lia.
      - intros _. by apply over_elem.
      - intros _. by apply over_elem. }
    destruct (conts s !! k) as [[]|] eqn:Hk; try done; intros [= <-]; by eapply Hd.
Qed.

Lemma run_inv_values ops : forall g s s', inv kd g s -> polite kd ops s = true -> run kd ops s = Some s' ->
  inv kd (foldl given g ops) s'.
Proof.
  induction ops as [|o ops IH]; intros g s s' Hi; [by intros _ [= <-]|]. cbn [polite run fold_opt foldl].
  intros [Hp1 Hp2]%andb_true_iff. destruct (step kd o s) as [s1|] eqn:Hs; [|done]. cbn.
  apply IH; [by eapply step_inv|done].
Qed.
End invariants.
End values.

Arguments Value {V E}. Arguments Done {V E}. Arguments Nothing {V E}. Arguments Threw {V E}.
Arguments Copy {V E}. Arguments Drop {V E}. Arguments GetTry {V E}. Arguments GetTryR {V E}.
Arguments Then {V E}. Arguments ThenR {V E}. Arguments Enter {V E}. Arguments Resolve {V E}.
Arguments Leave {V E}. Arguments Break {V E}. Arguments Run {V E}. Arguments DropCont {V E}.

(** ** Properties *)

(** C16: as long as no handle is used after it was given up, nobody gets a
    moved-from value: whatever a handle or a continuation gets is what the future
    was resolved with (or nothing, for a handle that asks too early), for copyable
    types in any number of handles and continuations, for [void], and for types that
    only move, where the value is given once in all. *)
Theorem values_intact {V E} (broken_promise : E) (kd : kind) (ops : list (op (V := V) (E := E))) (s : state) :
  polite broken_promise kd ops start = true -> run broken_promise kd ops start = Some s ->
  (forall u o, (u, o) ∈ seen s ->
     (exists r, outcome broken_promise ops = Some r /\ o = expected kd r) \/
     (o = Nothing /\ exists h, u = Handle h)) /\
  (kd = MoveOnly -> values_seen s <= 1).
Proof.
  intros Hp Hr. pose proof (run_inv_values broken_promise kd ops None start s
    (inv_start_values kd) Hp Hr) as [_ _ Hs H1]. split.
  - intros u o Hin. by apply (proj1 (Forall_forall _ _) Hs _) in Hin.
  - intros Hk. specialize (H1 Hk). lia.
Qed.

(** Two handles and a continuation; the last handle moves the value out. *)
Definition demo_copies : list (op (V := nat) (E := nat)) :=
  [Copy 0; ThenR 1; Drop 1; GetTry 0; Enter; Resolve (inl 7); GetTryR 0; Leave; Run 0].
Definition demo_moves : list (op (V := nat) (E := nat)) :=
  [GetTry 0; Enter; Resolve (inl 7); Leave; GetTryR 0].

Lemma values_intact_witness :
  exists s, run 99 Copyable demo_copies start = Some s /\
    (forall u o, (u, o) ∈ seen s -> (exists r, outcome 99 demo_copies = Some r /\ o = expected Copyable r) \/
       (o = Nothing /\ exists h, u = Handle h)) /\
    (Copyable = MoveOnly -> values_seen s <= 1).
Proof.
  destruct (run 99 Copyable demo_copies start) as [s|] eqn:Hs; [|done]. exists s. split; [done|].
  apply (values_intact 99 Copyable demo_copies s); [done|exact Hs].
Defined.

(** A handle that is asked again after the call on an rvalue gets a moved-from
    value; so does a future of a type that only moves, asked twice: [get_try] does not
    empty [_result], and the answer is an optional that is not empty. *)
Lemma moved_values_are_seen :
  (exists s, run 99 Copyable [Enter; Resolve (inl 7); Leave; GetTryR 0; GetTry 0] start = Some s /\
     seen s = [(Handle 0, Value (Some 7)); (Handle 0, Value None)]) /\
  (exists s, run 99 MoveOnly (demo_moves ++ [GetTry 0]) start = Some s /\
     seen s = [(Handle 0, Nothing); (Handle 0, Value (Some 7)); (Handle 0, Value None)]).
Proof. split; eexists; split; reflexivity. Qed.
