(* ===== verification/ChannelQueues.v ===== *)
(** * The queues of channel processes

    Model of the queue strategies of [stlab]'s [channel.hpp] ([deps/clean_stlab_trash]):
    one sender, zipped senders, senders in turn, senders in no order; of the tuple
    algorithms they use ([tuple_algorithm.hpp]); and of the critical section that
    takes a message from a queue and decides who may send again. A tuple of deques
    is a list of lists; a message is a value or an exception. *)

From S2P Require Import Prelude.
Local Open Scope nat_scope.

(** ** Tuple algorithms *)

Fixpoint tuple_find_impl {A} (i : nat) (t : list A) (op : A -> bool) : nat :=
  match t with
  | [] => i
  | x :: t => if op x then i else tuple_find_impl (S i) t op
  end.
Definition tuple_find {A} (t : list A) (op : A -> bool) : nat :=
  if length t =? 0 then 1 else tuple_find_impl 0 t op.
Fixpoint get_i {A B} (t : list A) (index : nat) (f : A -> B) (default_v : B) : B :=
  match t, index with
  | [], _ => default_v
  | x :: _, 0 => f x
  | _ :: t, S i => get_i t i f default_v
  end.
Fixpoint void_i {A} (t : list A) (index : nat) (f : A -> A) : list A :=
  match t, index with
  | [], _ => []
  | x :: t, 0 => f x :: t
  | x :: t, S i => x :: void_i t i f
  end.

Section queues.
Context {M : Type}.

Definition is_nil (l : list M) : bool := match l with [] => true | _ => false end.
(** The largest [size_t]; sizes are far below it. *)
Definition size_max : Z := 2 ^ 64 - 1.

(** ** The interface

    [q_front] and [q_pop_front] are [None] where they would use an empty deque.
    [q_taken] are the senders whose messages the next [front] takes. *)
Class Strategy (Q : Type) := {
  q_senders : nat;
  q_deques : Q -> list (list M);
  q_empty : Q -> bool;
  q_front : Q -> option (list M);
  q_pop_front : Q -> option Q;
  q_sizes : Q -> list Z;
  q_append : nat -> M -> Q -> Q;
  q_taken : Q -> list nat
}.

(** ** [default_queue_strategy] *)

Record default_queue := mk_default { d_queue : list M }.
#[global] Instance default_queue_strategy : Strategy default_queue := {|
  q_senders := 1;
  q_deques q := [d_queue q];
  q_empty q := is_nil (d_queue q);
  q_front q := match d_queue q with [] => None | m :: _ => Some [m] end;
  q_pop_front q := match d_queue q with [] => None | _ :: l => Some (mk_default l) end;
  q_sizes q := [Z.of_nat (length (d_queue q))];
  q_append _ m q := mk_default (d_queue q ++ [m]);
  q_taken _ := [0]
|}.

(** ** [zip_with_queue_strategy] *)

Section strategies.
Context (Size : nat).

Record zip_queue := mk_zip { z_queue : list (list M) }.
Fixpoint fronts (u : list (list M)) : option (list M) :=
  match u with
  | [] => Some []
  | [] :: _ => None
  | (m :: _) :: u => ms ← fronts u; Some (m :: ms)
  end.
Fixpoint pops (u : list (list M)) : option (list (list M)) :=
  match u with
  | [] => Some []
  | [] :: _ => None
  | (_ :: l) :: u => ls ← pops u; Some (l :: ls)
  end.
#[global] Instance zip_with_queue_strategy : Strategy zip_queue := {|
  q_senders := Size;
  q_deques q := z_queue q;
  q_empty q := negb (tuple_find (z_queue q) is_nil =? Size);
  q_front q := fronts (z_queue q);
  q_pop_front q := mk_zip <$> pops (z_queue q);
  q_sizes q := (fun c => Z.of_nat (length c)) <$> z_queue q;
  q_append i m q := mk_zip (void_i (z_queue q) i (fun c => c ++ [m]));
  q_taken q := seq 0 Size
|}.

(** ** [round_robin_queue_strategy], [unordered_queue_strategy] *)

Record indexed_queue := mk_indexed { index : nat; popped_index : nat; i_queue : list (list M) }.

Definition front_at (i : nat) (q : list (list M)) : option (list M) :=
  get_i q i (fun c => match c with [] => None | m :: _ => Some [m] end) None.
Definition pop_at (i : nat) (q : list (list M)) : option (list (list M)) :=
  if get_i q i is_nil true then None else Some (void_i q i (fun c => match c with [] => [] | _ :: l => l end)).
(** [size()] of both: the others count as full. *)
Definition indexed_sizes (q : indexed_queue) : list Z :=
  imap (fun i c => if i =? popped_index q then Z.of_nat (length c) else size_max) (i_queue q).
Definition indexed_append (i : nat) (m : M) (q : indexed_queue) : indexed_queue :=
  mk_indexed (index q) (popped_index q) (void_i (i_queue q) i (fun c => c ++ [m])).

Definition round_robin_queue_strategy : Strategy indexed_queue := {|
  q_senders := Size;
  q_deques q := i_queue q;
  q_empty q := get_i (i_queue q) (index q) is_nil true;
  q_front q := front_at (index q) (i_queue q);
  q_pop_front q :=
    l ← pop_at (index q) (i_queue q);
    Some (mk_indexed (if S (index q) =? Size then 0 else S (index q)) (index q) l);
  q_sizes := indexed_sizes;
  q_append := indexed_append;
  q_taken q := [index q]
|}.

(** [front] sets [_index], which [pop_front] uses. *)
Definition unordered_index (q : indexed_queue) : nat := tuple_find (i_queue q) (fun c => negb (is_nil c)).
Definition unordered_queue_strategy : Strategy indexed_queue := {|
  q_senders := Size;
  q_deques q := i_queue q;
  q_empty q := tuple_find (i_queue q) (fun c => negb (is_nil c)) =? Size;
  q_front q := front_at (unordered_index q) (i_queue q);
  q_pop_front q :=
    l ← pop_at (unordered_index q) (i_queue q);
    Some (mk_indexed (unordered_index q) (unordered_index q) l);
  q_sizes := indexed_sizes;
  q_append := indexed_append;
  q_taken q := [unordered_index q]
|}.
End strategies.

(** ** [pop_from_queue]

    The message, which upstream processes are clear to send, whether the process
    closes, the queue and [_process_close_queue]; [None] if an empty deque is used.
    [buffer_size] is [_process_buffer_size]. *)
Definition pop_from_queue `{St : Strategy Q} (buffer_size : Z) (q : Q) (close_queue : bool)
  : option (option (list M) * list bool * bool * Q * bool) :=
  if q_empty q then Some (None, replicate q_senders false, close_queue, q, false)
  else
    message ← q_front q;
    q' ← q_pop_front q;
    Some (Some message, (fun n => n <=? u64 (buffer_size - 1))%Z <$> q_sizes q', false, q', close_queue).

(** Operations on a queue in the order of its mutex: a sender appends, or the process
    takes; what was taken, with its senders. *)
Inductive op := Append (i : nat) (m : M) | Take.
Fixpoint run_ops `{St : Strategy Q} (b : Z) (q : Q) (ops : list op) : option (list (list (nat * M)) * Q) :=
  match ops with
  | [] => Some ([], q)
  | Append i m :: ops => run_ops b (q_append i m q) ops
  | Take :: ops =>
      '(message, _, _, q', _) ← pop_from_queue b q false;
      '(outs, q'') ← run_ops b q' ops;
      Some (match message with Some ms => zip (q_taken q) ms :: outs | None => outs end, q'')
  end.
End queues.
Arguments Strategy : clear implicits.
Arguments op : clear implicits.
Arguments default_queue : clear implicits.
Arguments zip_queue : clear implicits.
Arguments indexed_queue : clear implicits.

(** ** What the strategies promise to a process *)

Section laws.
Context {M : Type}.

Definition nonempty (ds : list (list M)) (i : nat) : bool := match ds !! i with Some (_ :: _) => true | _ => false end.

(** Message [m] is the first of sender [i], or the sender is not taken from. *)
Definition takes_front (ds : list (list M)) (i : nat) (m : M) : Prop := exists l, ds !! i = Some (m :: l).

Class StrategyLaws (Q : Type) `{!Strategy M Q} (wf : Q -> Prop) := {
  law_length q : wf q -> length (q_deques q) = q_senders;
  law_append q i m : wf q -> i < q_senders -> wf (q_append i m q) /\ q_deques (q_append i m q) = alter (fun l => l ++ [m]) i (q_deques q);
  law_distinct q : wf q -> NoDup (q_taken q);
  law_empty q : wf q -> q_empty q = negb (forallb (nonempty (q_deques q)) (q_taken q));
  law_take q : wf q -> q_empty q = false -> exists ms q',
    q_front q = Some ms /\ q_pop_front q = Some q' /\ wf q' /\ Forall2 (takes_front (q_deques q)) (q_taken q) ms /\
    forall i, q_deques q' !! i = (if decide (i ∈ q_taken q) then @tail M else id) <$> q_deques q !! i;
  law_taken q : wf q -> q_taken q <> [];
  law_sizes q : wf q -> length (q_sizes q) = q_senders
}.

(** *** Tuple algorithms on lists *)

Lemma get_i_lookup {A B} (f : A -> B) (d : B) t : forall i, get_i t i f d = match t !! i with Some x => f x | None => d end.
Proof. induction t as [|x t IH]; intros [|i]; cbn; auto. Qed.

Lemma void_i_alter {A} (f : A -> A) t : forall i, void_i t i f = alter f i t.
Proof. induction t as [|x t IH]; intros [|i]; cbn; try done. by rewrite IH. Qed.

(** The first index that satisfies the predicate. *)
Lemma tuple_find_impl_spec {A} (op : A -> bool) t : forall i, exists j,
  tuple_find_impl i t op = i + j /\ j <= length t /\
  (forall k x, k < j -> t !! k = Some x -> op x = false) /\
  (forall x, t !! j = Some x -> op x = true).
Proof.
  induction t as [|x t IH]; intros i; cbn; [exists 0; split_and!; [lia|done|lia|done]|]. destruct (op x) eqn:Hx.
  - exists 0. split_and!; [lia|lia|lia|]. by intros y [= ->].
  - destruct (IH (S i)) as (j & -> & Hj & Hb & Ha). exists (S j). split_and!; [lia|lia| |done].
    intros [|k] y Hk Hy; [by injection Hy as <-|]. by apply (Hb k); [lia|].
Qed.
Lemma tuple_find_spec {A} (op : A -> bool) t : t <> [] ->
  tuple_find t op <= length t /\
  (forall k x, k < tuple_find t op -> t !! k = Some x -> op x = false) /\
  (forall x, t !! tuple_find t op = Some x -> op x = true).
Proof.
  intros Ht. unfold tuple_find. destruct (Nat.eqb_spec (length t) 0); [by destruct t|].
  by destruct (tuple_find_impl_spec op t 0) as (j & -> & ?).
Qed.
Lemma tuple_find_none {A} (op : A -> bool) t : t <> [] ->
  (tuple_find t op =? length t) = forallb (fun x => negb (op x)) t.
Proof.
  intros Ht. destruct (tuple_find_spec op t Ht) as (Hle & Hb & Ha).
  destruct (Nat.eqb_spec (tuple_find t op) (length t)) as [He|He]; symmetry.
  - apply forallb_forall. intros x (k & Hk)%list_elem_of_In%list_elem_of_lookup_1.
    rewrite (Hb k x); [done| |done]. rewrite He. by eapply lookup_lt_Some.
  - assert (Hl : tuple_find t op < length t) by lia. apply lookup_lt_is_Some in Hl as (x & Hx).
    apply not_true_is_false. rewrite forallb_forall. intros Hall.
    specialize (Hall x (proj1 (list_elem_of_In _ _) (list_elem_of_lookup_2 _ _ _ Hx))). by rewrite (Ha x Hx) in Hall.
Qed.

(** *** The strategies keep the promise *)

Lemma pop_tail (ds : list (list M)) i : get_i ds i is_nil true = false ->
  exists m l, ds !! i = Some (m :: l) /\ front_at i ds = Some [m] /\ pop_at i ds = Some (alter tail i ds).
Proof.
  rewrite get_i_lookup. destruct (ds !! i) as [[|m l]|] eqn:Hi; try done. intros _. exists m, l. split_and!; [done| |].
  - unfold front_at. by rewrite get_i_lookup, Hi.
  - unfold pop_at. rewrite get_i_lookup, Hi. cbn. by rewrite void_i_alter.
Qed.

Lemma deques_alter (ds : list (list M)) i j :
  alter tail i ds !! j = (if decide (j ∈ [i]) then @tail M else id) <$> ds !! j.
Proof.
  destruct (decide (j ∈ [i])) as [->%list_elem_of_singleton|Hj].
  - by rewrite list_lookup_alter_eq.
  - rewrite list_lookup_alter_ne by (by rewrite list_elem_of_singleton in Hj). by rewrite option_fmap_id.
Qed.

Lemma nonempty_front ds i : nonempty ds i = true <-> get_i ds i is_nil true = false.
Proof. rewrite get_i_lookup. unfold nonempty. by destruct (ds !! i) as [[|m l]|]. Qed.

#[global] Instance default_laws : StrategyLaws (default_queue M) (fun _ => True).
Proof.
  constructor.
  - done.
  - intros q i m _ Hi. split; [done|]. cbn in *. by replace i with 0 by lia.
  - intros q _. apply NoDup_singleton.
  - intros [q] _. cbn. by destruct q.
  - intros [[|m l]] _; [done|]. intros _. exists [m], (mk_default l). split_and!; try done.
    + apply Forall2_cons; split; [by exists l|done].
    + intros [|i]; [done|]. cbn. done.
  - done.
  - done.
Qed.

Lemma fronts_pops (ds : list (list M)) : (forall i, i < length ds -> nonempty ds i = true) ->
  exists ms, fronts ds = Some ms /\ pops ds = Some (tail <$> ds) /\ length ms = length ds /\
  forall i m, ms !! i = Some m -> takes_front ds i m.
Proof.
  induction ds as [|d ds IH]; intros Hn; [by exists []|].
  destruct IH as (ms & Hf & Hp & Hl & Ht); [intros i Hi; apply (Hn (S i)); cbn; lia|].
  destruct d as [|m l]; [by discriminate (Hn 0 (Nat.lt_0_succ _))|].
  exists (m :: ms). cbn. rewrite Hf, Hp. split_and!; [done..|by cbn; lia|]. intros [|i] m' Hm; [injection Hm as <-; by exists l|].
  by apply Ht.
Qed.

#[global] Instance zip_laws n : 0 < n -> StrategyLaws (Strategy0 := zip_with_queue_strategy n) (zip_queue M) (fun q => length (z_queue q) = n).
Proof.
  intros Hn. assert (Hempty : forall q : zip_queue M, length (z_queue q) = n ->
    negb (tuple_find (z_queue q) is_nil =? n) = negb (forallb (nonempty (z_queue q)) (seq 0 n))).
  { intros q Hq. f_equal. rewrite <- Hq, tuple_find_none by (intros Hz; rewrite Hz in Hq; cbn in Hq; lia).
    apply eq_true_iff_eq. rewrite !forallb_forall. split.
    - intros H i Hi%in_seq. destruct (lookup_lt_is_Some_2 (z_queue q) i) as [l Hl]; [lia|].
      specialize (H l (proj1 (list_elem_of_In _ _) (list_elem_of_lookup_2 _ _ _ Hl))). unfold nonempty. rewrite Hl. by destruct l.
    - intros H l (i & Hi)%list_elem_of_In%list_elem_of_lookup_1.
      assert (Hn' : nonempty (z_queue q) i = true) by (apply H, in_seq; pose proof (lookup_lt_Some _ _ _ Hi); lia).
      unfold nonempty in Hn'. rewrite Hi in Hn'. by destruct l. }
  constructor; cbn.
  - done.
  - intros q i m Hq Hi. rewrite void_i_alter, length_alter. done.
  - intros q _. apply NoDup_seq.
  - intros q Hq. by apply Hempty.
  - intros q Hq He. rewrite Hempty in He by done. apply negb_false_iff in He. rewrite forallb_forall in He.
    destruct (fronts_pops (z_queue q)) as (ms & Hf & Hp & Hl & Ht); [intros i Hi; apply He, in_seq; lia|].
    exists ms, (mk_zip (tail <$> z_queue q)). rewrite Hp. split_and!; try done; cbn.
    + by rewrite length_fmap.
    + apply Forall2_same_length_lookup. split; [rewrite length_seq; lia|]. intros i k m Hk Hm.
      apply lookup_seq in Hk as [-> _]. by apply Ht.
    + intros i. rewrite list_lookup_fmap. case_decide as Hin; [done|].
      rewrite elem_of_seq in Hin. rewrite lookup_ge_None_2 by lia. done.
  - intros q _. by destruct n; [lia|].
  - intros q Hq. by rewrite length_fmap.
Qed.

Definition round_robin_wf (n : nat) (q : indexed_queue M) : Prop := length (i_queue q) = n /\ index q < n.
Lemma round_robin_laws n : StrategyLaws (Strategy0 := round_robin_queue_strategy n) (indexed_queue M) (round_robin_wf n).
Proof.
  constructor; cbn.
  - by intros q [].
  - intros q i m [Hl Hi] _. unfold round_robin_wf. cbn. by rewrite void_i_alter, length_alter.
  - intros q _. apply NoDup_singleton.
  - intros q _. rewrite andb_true_r. pose proof (nonempty_front (i_queue q) (index q)) as Hn.
    destruct (nonempty (i_queue q) (index q)), (get_i (i_queue q) (index q) is_nil true); cbn; intuition congruence.
  - intros q [Hl Hi] He. destruct (pop_tail _ _ He) as (m & l & Hm & Hf & Hp). rewrite Hf, Hp. cbn.
    eexists [m], _. split; [done|]. split; [reflexivity|]. unfold round_robin_wf. cbn. split_and!.
    + by rewrite length_alter.
    + destruct n as [|n]; [lia|]. destruct (Nat.eqb_spec (index q) n); lia.
    + apply Forall2_cons; split; [by exists l|done].
    + intros j. apply deques_alter.
  - done.
  - intros q []. unfold indexed_sizes. by rewrite length_imap.
Qed.

Definition unordered_wf (n : nat) (q : indexed_queue M) : Prop := length (i_queue q) = n /\ 0 < n.
Lemma unordered_empty n (q : indexed_queue M) : unordered_wf n q ->
  (tuple_find (i_queue q) (fun c => negb (is_nil c)) =? n) = negb (nonempty (i_queue q) (unordered_index q)).
Proof.
  intros [Hl Hn]. assert (Hne : i_queue q <> []) by (intros Hz; rewrite Hz in Hl; cbn in Hl; lia).
  destruct (tuple_find_spec (fun c : list M => negb (is_nil c)) _ Hne) as (Hle & _ & Ha).
  unfold nonempty, unordered_index. destruct (Nat.eqb_spec (tuple_find (i_queue q) (fun c => negb (is_nil c))) n) as [He|He].
  - rewrite lookup_ge_None_2 by lia. done.
  - destruct (lookup_lt_is_Some_2 (i_queue q) (tuple_find (i_queue q) (fun c => negb (is_nil c)))) as [l Hi]; [lia|].
    specialize (Ha l Hi). rewrite Hi. by destruct l.
Qed.
Lemma unordered_laws n : StrategyLaws (Strategy0 := unordered_queue_strategy n) (indexed_queue M) (unordered_wf n).
Proof.
  constructor; cbn.
  - by intros q [].
  - intros q i m [Hl Hi] _. unfold unordered_wf. cbn. by rewrite void_i_alter, length_alter.
  - intros q _. apply NoDup_singleton.
  - intros q Hq. rewrite andb_true_r. by apply unordered_empty.
  - intros q Hq He. rewrite (unordered_empty n q Hq) in He. apply negb_false_iff, nonempty_front in He.
    destruct (pop_tail _ _ He) as (m & l & Hm & Hf & Hp). rewrite Hf, Hp. cbn.
    eexists [m], _. split; [done|]. split; [reflexivity|]. destruct Hq. unfold unordered_wf. cbn. split_and!.
    + by rewrite length_alter.
    + done.
    + apply Forall2_cons; split; [by exists l|done].
    + intros j. apply deques_alter.
  - done.
  - intros q []. unfold indexed_sizes. by rewrite length_imap.
Qed.

(** *** Every strategy is first in, first out for each sender *)

Definition from (i : nat) (outs : list (list (nat * M))) : list M :=
  snd <$> filter (fun p => p.1 = i) (concat outs).
Definition appended (i : nat) (ops : list (op M)) : list M :=
  omap (fun o => match o with Append j m => if decide (j = i) then Some m else None | Take => None end) ops.
Definition in_range (n : nat) (o : op M) : Prop := match o with Append i _ => i < n | Take => True end.

Lemma from_cons i out outs : from i (out :: outs) = (snd <$> filter (fun p => p.1 = i) out) ++ from i outs.
Proof. unfold from. cbn. by rewrite filter_app, fmap_app. Qed.

Lemma taken_front (ds : list (list M)) ks ms i l : NoDup ks -> Forall2 (takes_front ds) ks ms -> ds !! i = Some l ->
  (snd <$> filter (fun p => p.1 = i) (zip ks ms)) ++ (if decide (i ∈ ks) then tail l else l) = l.
Proof.
  intros Hnd Hf Hl. revert Hnd. induction Hf as [|j m ks' ms' (l' & Hj) Hf IH]; intros Hnd; [done|].
  apply NoDup_cons in Hnd as [Hj' Hnd]. specialize (IH Hnd). cbn [zip]. rewrite filter_cons. cbn [fst].
  destruct (decide (j = i)) as [->|Hne].
  - rewrite decide_True by set_solver. rewrite decide_False in IH by done. rewrite Hl in Hj. injection Hj as ->. cbn.
    assert (Hz : snd <$> filter (fun p => p.1 = i) (zip ks' ms') = []) by (by apply (app_inv_tail (m :: l')); rewrite IH).
    by rewrite Hz.
  - rewrite (decide_ext _ (i ∈ ks')) by (split; [by intros [->|]%elem_of_cons|by right]). done.
Qed.

Section fifo.
Context {Q : Type} {St : Strategy M Q} {wf : Q -> Prop} {Laws : StrategyLaws Q wf}.

(** Taking never uses an empty deque. *)
Lemma pop_spec b q c : wf q -> exists message cts cl q' c', pop_from_queue b q c = Some (message, cts, cl, q', c') /\
  wf q' /\
  match message with
  | None => q_empty q = true /\ q' = q /\ cl = c /\ c' = false /\ cts = replicate q_senders false
  | Some ms => q_empty q = false /\ cl = false /\ c' = c /\ Forall2 (takes_front (q_deques q)) (q_taken q) ms /\
      (forall i, q_deques q' !! i = (if decide (i ∈ q_taken q) then @tail M else id) <$> q_deques q !! i) /\
      cts = ((fun n => n <=? u64 (b - 1))%Z <$> q_sizes q')
  end.
Proof.
  intros Hq. unfold pop_from_queue. destruct (q_empty q) eqn:He; [by eexists _, _, _, _, _|].
  destruct (law_take q Hq He) as (ms & q' & -> & -> & Hw & Hf & Hd). cbn.
  by eexists _, _, _, _, _.
Qed.

Lemma run_ops_spec b ops : forall q, wf q -> Forall (in_range q_senders) ops ->
  exists outs q', run_ops b q ops = Some (outs, q') /\ wf q' /\
  forall i l, q_deques q !! i = Some l -> exists l', q_deques q' !! i = Some l' /\ l ++ appended i ops = from i outs ++ l'.
Proof.
  induction ops as [|[i m|] ops IH]; intros q Hq Ho; [|apply Forall_cons in Ho as [Hi Ho]..].
  - exists [], q. split_and!; try done. intros i l Hl. exists l. by rewrite app_nil_r.
  - destruct (law_append q i m Hq Hi) as [Hw Hd]. destruct (IH _ Hw Ho) as (outs & q' & Hr & Hw' & Hf).
    exists outs, q'. split_and!; try done. intros j l Hl. cbn. destruct (decide (i = j)) as [->|Hne].
    + destruct (Hf j (l ++ [m])) as (l' & Hl' & Heq); [by rewrite Hd, list_lookup_alter_eq, Hl|].
      exists l'. split; [done|]. by rewrite <- Heq, <- app_assoc.
    + destruct (Hf j l) as (l' & Hl' & Heq); [by rewrite Hd, list_lookup_alter_ne|]. by exists l'.
  - destruct (pop_spec b q false Hq) as (message & cts & cl & q' & c' & Hp & Hw & Hm).
    destruct (IH q' Hw Ho) as (outs & q'' & Hr & Hw' & Hf). cbn. rewrite Hp. cbn. rewrite Hr. cbn.
    destruct message as [ms|].
    + destruct Hm as (He & _ & _ & Ht & Hd & _). eexists _, _. split_and!; [done..|].
      intros j l Hl. destruct (Hf j (if decide (j ∈ q_taken q) then tail l else l)) as (l' & Hl' & Heq).
      { rewrite Hd, Hl. cbn. by case_decide. }
      exists l'. split; [done|]. rewrite from_cons, <- app_assoc, <- Heq, app_assoc.
      by rewrite (taken_front _ _ _ _ _ (law_distinct q Hq) Ht Hl).
    + destruct Hm as (_ & -> & _). by eexists _, _.
Qed.
End fifo.

(** *** Whose turn it is *)

Lemma run_take `{St : Strategy M Q} b (q q' : Q) ops outs : run_ops b q (Take :: ops) = Some (outs, q') ->
  exists message cts cl q1 c1 outs1, pop_from_queue b q false = Some (message, cts, cl, q1, c1) /\
    run_ops b q1 ops = Some (outs1, q') /\
    outs = match message with Some ms => zip (q_taken q) ms :: outs1 | None => outs1 end.
Proof.
  cbn. destruct (pop_from_queue b q false) as [[[[[message cts] cl] q1] c1]|]; [|done]. cbn.
  destruct (run_ops b q1 ops) as [[outs1 q2]|] eqn:Hr; [|done]. cbn. intros [= <- <-]. by eexists _, _, _, _, _, _.
Qed.

Lemma fst_zip_same (ks : list nat) (ms : list M) : length ms = length ks -> (zip ks ms).*1 = ks.
Proof. intros H. apply fst_zip. lia. Qed.

Lemma round_robin_turns n b ops : forall q outs q', 0 < n -> round_robin_wf n q -> Forall (in_range n) ops ->
  run_ops (St := round_robin_queue_strategy n) b q ops = Some (outs, q') ->
  forall k out, outs !! k = Some out -> out.*1 = [(index q + k) mod n].
Proof.
  induction ops as [|[i m|] ops IH]; intros q outs q' Hn Hq Ho Hr k out Hk.
  - injection Hr as <- <-. done.
  - apply Forall_cons in Ho as [Hi Ho]. cbn in Hr.
    by apply (IH (indexed_append i m q) outs q' Hn (proj1 (law_append (StrategyLaws := round_robin_laws n) q i m Hq Hi)) Ho Hr k).
  - apply Forall_cons in Ho as [_ Ho]. apply run_take in Hr as (message & cts & cl & q1 & c1 & outs1 & Hp & Hr & ->).
    destruct (pop_spec (Laws := round_robin_laws n) b q false Hq) as (? & ? & ? & ? & ? & Hp' & Hw & Hm).
    rewrite Hp in Hp'. injection Hp' as <- <- <- <- <-. destruct message as [ms|].
    + destruct Hm as (He & _ & _ & Ht & _). apply Forall2_length in Ht as Hlen.
      destruct k as [|k]; [injection Hk as <-|].
      * destruct ms as [|m0 [|]]; try discriminate Hlen. cbn. rewrite Nat.add_0_r, Nat.mod_small by apply Hq. done.
      * cbn in Hk. rewrite (IH q1 outs1 q' Hn Hw Ho Hr k out Hk). f_equal.
        assert (Hi : index q1 = (index q + 1) mod n).
        { unfold pop_from_queue in Hp. rewrite He in Hp. destruct (pop_tail _ _ He) as (m & l & _ & Hf & Hpop).
          cbn in Hp. rewrite Hf, Hpop in Hp. cbn in Hp. injection Hp as _ _ _ <- _. cbn.
          destruct Hq as [_ Hq]. destruct n as [|n]; [lia|]. destruct (Nat.eqb_spec (index q) n) as [->|Hne].
          - by rewrite Nat.add_1_r, Nat.Div0.mod_same.
          - rewrite Nat.mod_small; lia. }
        rewrite Hi, Nat.Div0.add_mod_idemp_l. f_equal. lia.
    + destruct Hm as (_ & -> & _). by apply (IH q outs1 q' Hn Hq Ho Hr k).
Qed.

Lemma zip_turns n b ops : forall q outs q', 0 < n -> length (z_queue q) = n -> Forall (in_range n) ops ->
  run_ops (St := zip_with_queue_strategy n) b q ops = Some (outs, q') -> Forall (fun out => out.*1 = seq 0 n) outs.
Proof.
  induction ops as [|[i m|] ops IH]; intros q outs q' Hn Hq Ho Hr.
  - by injection Hr as <- <-.
  - apply Forall_cons in Ho as [Hi Ho]. apply (IH (q_append (Strategy := zip_with_queue_strategy n) i m q) outs q'); try done.
    cbn. by rewrite void_i_alter, length_alter.
  - apply Forall_cons in Ho as [_ Ho]. apply run_take in Hr as (message & cts & cl & q1 & c1 & outs1 & Hp & Hr & ->).
    destruct (pop_spec (Laws := zip_laws n Hn) b q false Hq) as (? & ? & ? & ? & ? & Hp' & Hw & Hm).
    rewrite Hp in Hp'. injection Hp' as <- <- <- <- <-. specialize (IH q1 outs1 q' Hn Hw Ho Hr). destruct message as [ms|]; [|done].
    destruct Hm as (_ & _ & _ & Ht & _). apply Forall2_length in Ht as Hlen.
    apply Forall_cons. split; [|done]. rewrite fst_zip_same; done.
Qed.

Lemma single_turns {Q : Type} {St : Strategy M Q} {wf : Q -> Prop} {Laws : StrategyLaws Q wf} (P : nat -> Prop) b ops :
  (forall q, wf q -> q_empty q = false -> exists i, q_taken q = [i] /\ P i) ->
  forall q outs q', wf q -> Forall (in_range q_senders) ops -> run_ops b q ops = Some (outs, q') -> Forall (fun out => exists i, out.*1 = [i] /\ P i) outs.
Proof.
  intros Ht. induction ops as [|[i m|] ops IH]; intros q outs q' Hq Ho Hr.
  - by injection Hr as <- <-.
  - apply Forall_cons in Ho as [Hi Ho]. apply (IH (q_append i m q) outs q'); [apply (law_append q i m Hq Hi)|done|done].
  - apply Forall_cons in Ho as [_ Ho]. apply run_take in Hr as (message & cts & cl & q1 & c1 & outs1 & Hp & Hr & ->).
    destruct (pop_spec b q false Hq) as (? & ? & ? & ? & ? & Hp' & Hw & Hm). rewrite Hp in Hp'. injection Hp' as <- <- <- <- <-.
    specialize (IH q1 outs1 q' Hw Ho Hr). destruct message as [ms|]; [|done]. destruct Hm as (He & _ & _ & Hf & _).
    apply Forall2_length in Hf. apply Forall_cons. split; [|done]. rewrite fst_zip_same by done. by apply Ht.
Qed.
Lemma default_turns b ops (q q' : default_queue M) outs : Forall (in_range 1) ops ->
  run_ops b q ops = Some (outs, q') -> Forall (fun out => out.*1 = [0]) outs.
Proof.
  intros Ho Hr. eapply Forall_impl; [by apply (single_turns (Laws := default_laws) (fun i => i = 0) b ops (fun q _ _ => ex_intro _ 0 (conj eq_refl eq_refl)) q outs q')|].
  by intros out (i & H & ->).
Qed.
Lemma unordered_turns n b ops (q q' : indexed_queue M) outs : unordered_wf n q -> Forall (in_range n) ops ->
  run_ops (St := unordered_queue_strategy n) b q ops = Some (outs, q') -> Forall (fun out => exists i, out.*1 = [i]) outs.
Proof.
  intros Hq Ho Hr. eapply Forall_impl.
  - by apply (single_turns (Laws := unordered_laws n) (fun _ => True) b ops (fun q _ _ => ex_intro _ _ (conj eq_refl I)) q outs q').
  - intros out (i & H & _). by exists i.
Qed.

(** *** When there is nothing to take *)

Lemma zip_empty n (q : zip_queue M) : 0 < n -> length (z_queue q) = n ->
  q_empty (Strategy := zip_with_queue_strategy n) q = true <-> Exists (fun l => l = []) (z_queue q).
Proof.
  intros Hn Hq. cbn. assert (Hne : z_queue q <> []) by (intros Hz; rewrite Hz in Hq; cbn in Hq; lia).
  rewrite <- Hq, tuple_find_none by done. clear. induction (z_queue q) as [|l ds IH]; cbn; [by rewrite Exists_nil|].
  rewrite Exists_cons, <- IH. destruct l; cbn; intuition congruence.
Qed.
Lemma round_robin_empty n (q : indexed_queue M) : round_robin_wf n q ->
  q_empty (Strategy := round_robin_queue_strategy n) q = true <-> i_queue q !! index q = Some [].
Proof.
  intros [Hl Hi]. cbn. rewrite get_i_lookup. destruct (lookup_lt_is_Some_2 (i_queue q) (index q)) as [l ->]; [lia|]. by destruct l.
Qed.
Lemma all_empty n (q : indexed_queue M) : unordered_wf n q ->
  q_empty (Strategy := unordered_queue_strategy n) q = true <-> Forall (fun l => l = []) (i_queue q).
Proof.
  intros [Hq Hn]. assert (Hne : i_queue q <> []) by (intros Hz; rewrite Hz in Hq; cbn in Hq; lia).
  cbn. rewrite <- Hq, tuple_find_none by done. rewrite forallb_forall, Forall_forall. setoid_rewrite <- list_elem_of_In.
  split; intros H l Hl; specialize (H l Hl); [by destruct l|by rewrite H].
Qed.

(** *** Who may send again *)

Definition few (ds : list (list M)) : Prop := Forall (fun l => (Z.of_nat (length l) < size_max)%Z) ds.

Lemma flag_size b (l : list M) : (0 <= b < 2 ^ 64)%Z -> (Z.of_nat (length l) < size_max)%Z ->
  (Z.of_nat (length l) <=? u64 (b - 1))%Z = ((b =? 0) || (Z.of_nat (length l) <? b))%Z.
Proof.
  unfold size_max. intros Hb Hl. destruct (Z.eqb_spec b 0) as [->|Hne].
  - change (u64 (0 - 1)) with (2 ^ 64 - 1)%Z. cbn [orb]. lia.
  - rewrite u64_small by (unfold is_u64; lia). cbn [orb]. lia.
Qed.
Lemma flag_full b : (0 <= b < 2 ^ 64)%Z -> (size_max <=? u64 (b - 1))%Z = (b =? 0)%Z.
Proof.
  unfold size_max. intros Hb. destruct (Z.eqb_spec b 0) as [->|Hne]; [done|].
  rewrite u64_small by (unfold is_u64; lia). lia.
Qed.

Lemma indexed_flags b (q : indexed_queue M) i l : (0 <= b < 2 ^ 64)%Z -> few (i_queue q) -> i_queue q !! i = Some l ->
  ((fun n => n <=? u64 (b - 1))%Z <$> indexed_sizes q) !! i
    = Some ((b =? 0)%Z || ((i =? popped_index q) && (Z.of_nat (length l) <? b)%Z)).
Proof.
  intros Hb Hf Hl. pose proof (Forall_lookup_1 _ _ _ _ Hf Hl) as Hs. cbn in Hs. unfold indexed_sizes.
  rewrite list_lookup_fmap, list_lookup_imap, Hl. cbn. f_equal.
  destruct (i =? popped_index q); cbn [andb]; [by apply flag_size|]. by rewrite flag_full, orb_false_r.
Qed.

(** The sender that was taken from is remembered. *)
Lemma indexed_pops (St : Strategy M (indexed_queue M)) i b q q' c ms cts cl c' :
  (forall q1, q_pop_front q = Some q1 -> popped_index q1 = i) ->
  q_sizes = indexed_sizes -> pop_from_queue b q c = Some (Some ms, cts, cl, q', c') ->
  popped_index q' = i /\ cts = ((fun n => n <=? u64 (b - 1))%Z <$> indexed_sizes q').
Proof.
  intros Hp Hs H. unfold pop_from_queue in H. destruct (q_empty q); [done|]. destruct (q_front q); [|done]. cbn in H.
  destruct (q_pop_front q) as [q1|] eqn:H1; [|done]. cbn in H. injection H as _ <- _ <- _. rewrite Hs. split; [by apply Hp|done].
Qed.
Lemma round_robin_pops n b (q q' : indexed_queue M) c ms cts cl c' :
  pop_from_queue (St := round_robin_queue_strategy n) b q c = Some (Some ms, cts, cl, q', c') ->
  popped_index q' = index q /\ cts = ((fun n => n <=? u64 (b - 1))%Z <$> indexed_sizes q').
Proof. apply indexed_pops; [|done]. cbn. intros q1. destruct (pop_at _ _); [|done]. by intros [= <-]. Qed.
Lemma unordered_pops n b (q q' : indexed_queue M) c ms cts cl c' :
  pop_from_queue (St := unordered_queue_strategy n) b q c = Some (Some ms, cts, cl, q', c') ->
  popped_index q' = unordered_index q /\ cts = ((fun n => n <=? u64 (b - 1))%Z <$> indexed_sizes q').
Proof. apply indexed_pops; [|done]. cbn. intros q1. destruct (pop_at _ _); [|done]. by intros [= <-]. Qed.
Lemma zip_pops n b (q q' : zip_queue M) c ms cts cl c' :
  pop_from_queue (St := zip_with_queue_strategy n) b q c = Some (Some ms, cts, cl, q', c') ->
  cts = ((fun n => n <=? u64 (b - 1))%Z <$> ((fun c => Z.of_nat (length c)) <$> z_queue q')).
Proof.
  intros H. unfold pop_from_queue in H. destruct (q_empty q); [done|]. destruct (q_front q); [|done]. cbn in H.
  destruct (pops (z_queue q)); [|done]. by injection H as _ <- _ <- _.
Qed.
End laws.

(** ** Properties *)

(** Operations [ops] on queue [q], whose deques are [ds q], use no empty deque; what
    each sender had there and appended is, in order, what was taken from it and what
    its deque has now; [turns] holds of what was taken. *)
Definition fifo {M Q : Type} (St : Strategy M Q) (ds : Q -> list (list M)) (turns : list (list (nat * M)) -> Prop)
  (b : Z) (q : Q) (ops : list (op M)) : Prop :=
  exists outs q', run_ops b q ops = Some (outs, q') /\ turns outs /\
  forall i l, ds q !! i = Some l -> exists l', ds q' !! i = Some l' /\ l ++ appended i ops = from i outs ++ l'.

Lemma fifo_laws {M Q : Type} {St : Strategy M Q} {wf : Q -> Prop} {Laws : StrategyLaws Q wf} (turns : list (list (nat * M)) -> Prop) b q ops :
  wf q -> Forall (in_range q_senders) ops -> (forall outs q', run_ops b q ops = Some (outs, q') -> turns outs) -> fifo St q_deques turns b q ops.
Proof. intros Hq Ho Ht. destruct (run_ops_spec b ops q Hq Ho) as (outs & q' & Hr & _ & Hf). exists outs, q'. eauto. Qed.

(** C7: each of the four strategies gives the process the messages of each sender in
    the order they were sent, none lost or repeated, whatever the senders and the process
    do and whatever the buffer size, and uses no deque while it is empty. With zipped senders
    a message is one of each and is there when all have one; in turn, the senders
    follow each other, and the queue is empty when the next one has
    nothing; in no order, it is empty when nobody has anything. *)
Theorem queues_fifo {M : Type} (n : nat) (b : Z) (ops : list (op M)) : 0 < n -> Forall (in_range n) ops ->
  (forall q : default_queue M, (q_empty q = true <-> d_queue q = []) /\
     (n = 1 -> fifo default_queue_strategy (fun q => [d_queue q]) (Forall (fun out => out.*1 = [0])) b q ops)) /\
  (forall q : zip_queue M, length (z_queue q) = n ->
     (q_empty (Strategy := zip_with_queue_strategy n) q = true <-> Exists (fun l => l = []) (z_queue q)) /\
     fifo (zip_with_queue_strategy n) z_queue (Forall (fun out => out.*1 = seq 0 n)) b q ops) /\
  (forall q : indexed_queue M, length (i_queue q) = n -> index q < n ->
     (q_empty (Strategy := round_robin_queue_strategy n) q = true <-> i_queue q !! index q = Some []) /\
     fifo (round_robin_queue_strategy n) i_queue (fun outs => forall k out, outs !! k = Some out -> out.*1 = [(index q + k) mod n]) b q ops) /\
  (forall q : indexed_queue M, length (i_queue q) = n ->
     (q_empty (Strategy := unordered_queue_strategy n) q = true <-> Forall (fun l => l = []) (i_queue q)) /\
     fifo (unordered_queue_strategy n) i_queue (Forall (fun out => exists i, out.*1 = [i])) b q ops).
Proof.
  intros Hn Ho. split_and!; intros q.
  - split; [cbn; by destruct (d_queue q)|]. intros ->. apply (fifo_laws (Laws := default_laws)); [done..|]. intros outs q'. by apply default_turns.
  - intros Hq. split; [by apply zip_empty|]. apply (fifo_laws (Laws := zip_laws n Hn)); [done..|]. intros outs q'. by apply zip_turns.
  - intros Hq Hi. assert (Hw : round_robin_wf n q) by done. split; [by apply (round_robin_empty n)|].
    apply (fifo_laws (Laws := round_robin_laws n)); [done..|]. intros outs q' Hr. by apply (round_robin_turns n b ops q outs q').
  - intros Hq. assert (Hw : unordered_wf n q) by done. split; [by apply all_empty|].
    apply (fifo_laws (Laws := unordered_laws n)); [done..|]. intros outs q'. by apply unordered_turns.
Qed.

(** Whose messages the process gets: with zipped senders one of each, in their
    order; in turn, one sender after the other, starting with the first; in no
    order, of the first sender that has one, and nothing only if nobody has. *)
Theorem strategies_turns {M : Type} (n : nat) (b : Z) (ops : list (op M)) :
  0 < n -> Forall (in_range n) ops ->
  (forall outs q', run_ops (St := zip_with_queue_strategy n) b (mk_zip (replicate n [])) ops = Some (outs, q') ->
     Forall (fun out => out.*1 = seq 0 n) outs) /\
  (forall outs q', run_ops (St := round_robin_queue_strategy n) b (mk_indexed 0 0 (replicate n [])) ops = Some (outs, q') ->
     forall k out, outs !! k = Some out -> out.*1 = [k mod n]) /\
  (forall q : indexed_queue M, length (i_queue q) = n ->
     (q_empty (Strategy := unordered_queue_strategy n) q = true <-> Forall (fun l => l = []) (i_queue q)) /\
     (forall j, j < unordered_index q -> nonempty (i_queue q) j = false)).
Proof.
  intros Hn Ho. split_and!.
  - intros outs q'. apply zip_turns; try done. cbn. apply length_replicate.
  - intros outs q' Hr k out Hk.
    assert (Hw : round_robin_wf n (mk_indexed 0 0 (replicate n (@nil M)))) by (split; [apply length_replicate|done]).
    by rewrite (round_robin_turns n b ops _ outs q' Hn Hw Ho Hr k out Hk).
  - intros q Hq. assert (Hne : i_queue q <> []) by (intros Hz; rewrite Hz in Hq; cbn in Hq; lia). split; [by apply all_empty|].
    intros j Hj. destruct (tuple_find_spec (fun c : list M => negb (is_nil c)) _ Hne) as (_ & Hb & _).
    unfold nonempty. destruct (i_queue q !! j) as [l|] eqn:Hl; [|done]. specialize (Hb j l Hj Hl). by destruct l.
Qed.

(** C40: who may send again after a message was taken: a process without a bound
    ([buffer_size] 0, where [_process_buffer_size - 1] wraps) clears everybody; with
    zipped senders those are cleared whose queues are below the bound; with senders
    in turn or in no order only the one that was taken from, if it is. *)
Theorem clear_to_send_flags {M : Type} (n : nat) (b : Z) (c : bool) :
  (0 <= b < 2 ^ 64)%Z ->
  (forall (q q' : zip_queue M) ms cts cl c', few (z_queue q') ->
     pop_from_queue (St := zip_with_queue_strategy n) b q c = Some (Some ms, cts, cl, q', c') ->
     forall i l, z_queue q' !! i = Some l -> cts !! i = Some ((b =? 0)%Z || (Z.of_nat (length l) <? b)%Z)) /\
  (forall (q q' : indexed_queue M) ms cts cl c', few (i_queue q') ->
     pop_from_queue (St := round_robin_queue_strategy n) b q c = Some (Some ms, cts, cl, q', c') ->
     forall i l, i_queue q' !! i = Some l -> cts !! i = Some ((b =? 0)%Z || ((i =? index q) && (Z.of_nat (length l) <? b)%Z))) /\
  (forall (q q' : indexed_queue M) ms cts cl c', few (i_queue q') ->
     pop_from_queue (St := unordered_queue_strategy n) b q c = Some (Some ms, cts, cl, q', c') ->
     forall i l, i_queue q' !! i = Some l -> cts !! i = Some ((b =? 0)%Z || ((i =? unordered_index q) && (Z.of_nat (length l) <? b)%Z))).
Proof.
  intros Hb. split_and!; intros q q' ms cts cl c' Hf Hp i l Hl.
  - rewrite (zip_pops _ _ _ _ _ _ _ _ _ Hp), !list_lookup_fmap, Hl. cbn. f_equal. apply flag_size; [done|].
    exact (Forall_lookup_1 _ _ _ _ Hf Hl).
  - destruct (round_robin_pops _ _ _ _ _ _ _ _ _ Hp) as [<- ->]. by apply indexed_flags.
  - destruct (unordered_pops _ _ _ _ _ _ _ _ _ Hp) as [<- ->]. by apply indexed_flags.
Qed.

(** Two senders in turn. *)
Definition demo_ops : list (op nat) := [Append 1 20; Take; Append 0 10; Append 0 11; Take; Take; Take].
Lemma demo_in_range : Forall (in_range 2) demo_ops.
Proof. repeat constructor. Qed.

Lemma queues_fifo_witness :
  run_ops (St := unordered_queue_strategy 2) 1 (mk_indexed 0 0 [[]; []]) demo_ops = Some ([[(1, 20)]; [(0, 10)]; [(0, 11)]], mk_indexed 0 0 [[]; []]) /\
  fifo (zip_with_queue_strategy 2) z_queue (Forall (fun out => out.*1 = seq 0 2)) 1 (mk_zip [[]; []]) demo_ops /\
  fifo (round_robin_queue_strategy 2) i_queue (fun outs => forall k out, outs !! k = Some out -> out.*1 = [(0 + k) mod 2]) 1 (mk_indexed 0 0 [[]; []]) demo_ops /\
  fifo (unordered_queue_strategy 2) i_queue (Forall (fun out => exists i, out.*1 = [i])) 1 (mk_indexed 0 0 [[]; []]) demo_ops.
Proof.
  split; [reflexivity|]. destruct (queues_fifo 2 1 demo_ops (Nat.lt_0_succ 1) demo_in_range) as (_ & Hz & Hr & Hu). split_and!.
  - by apply Hz.
  - apply (Hr (mk_indexed 0 0 [[]; []])); cbn; lia.
  - by apply Hu.
Defined.

Lemma strategies_turns_witness :
  run_ops (St := round_robin_queue_strategy 2) 1 (mk_indexed 0 0 [[]; []]) demo_ops
    = Some ([[(0, 10)]; [(1, 20)]; [(0, 11)]], mk_indexed 1 0 [[]; []]) /\
  (forall k out, [[(0, 10)]; [(1, 20)]; [(0, 11)]] !! k = Some out -> out.*1 = [k mod 2]).
Proof.
  split; [reflexivity|].
  apply (proj1 (proj2 (strategies_turns 2 1 demo_ops (Nat.lt_0_succ 1) demo_in_range)) _ (mk_indexed 1 0 [[]; []])). reflexivity.
Defined.

Lemma clear_to_send_flags_witness :
  pop_from_queue (St := round_robin_queue_strategy 2) 1 (mk_indexed 0 1 [[10]; [20; 21]]) false
    = Some (Some [10], [true; false], false, mk_indexed 1 0 [[]; [20; 21]], false) /\
  (forall i l, [[]; [20; 21]] !! i = Some l -> [true; false] !! i = Some ((1 =? 0)%Z || ((i =? 0) && (Z.of_nat (length l) <? 1)%Z))).
Proof.
  split; [reflexivity|].
  apply (proj1 (proj2 (clear_to_send_flags (M := nat) 2 1 false (conj (Z.le_0_1) eq_refl)))
    (mk_indexed 0 1 [[10]; [20; 21]]) (mk_indexed 1 0 [[]; [20; 21]]) [10] [true; false] false false); [|reflexivity].
  repeat constructor.
Defined.
