(* ===== verification/Channels.v ===== *)
(** * Channels

    Model of the processes of [stlab]'s [channel.hpp] ([deps/clean_stlab_trash]) that
    are functions of one argument (no [yield], so that [_timeout_function_active] stays
    false), in a chain: senders feed the first,
    each broadcasts to the next. Closures handed to the executor run on any threads;
    their steps are cut at their critical sections and atomics, and everything
    interleaves: back-pressure ([_process_suspend_count], [clear_to_send]), closing,
    and [set_ready]. The queues are those of [ChannelQueues]. *)

From S2P Require Import Prelude ChannelQueues.
Local Open Scope nat_scope.

Section channels.
Context {V E : Type}.

(** A message is an argument or an exception. *)
Inductive msg := Arg (v : V) | Err (e : E).

(** ** [shared_process] *)

(** [_queue], [_process_running], [_process_suspend_count], [_process_close_queue],
    [_process_final], whether [_process] is engaged, [_sender_count],
    [_receiver_count]; and the arguments the process was called with so far. *)
Record proc := mk_proc {
  queue : list msg;
  running : bool;
  suspend_count : nat;
  close_queue : bool;
  final : bool;
  engaged : bool;
  sender_count : nat;
  receiver_count : nat;
  called : list V
}.

Definition set_queue (q : list msg) (p : proc) : proc :=
  mk_proc q (running p) (suspend_count p) (close_queue p) (final p) (engaged p) (sender_count p) (receiver_count p) (called p).
Definition set_running (b : bool) (p : proc) : proc :=
  mk_proc (queue p) b (suspend_count p) (close_queue p) (final p) (engaged p) (sender_count p) (receiver_count p) (called p).
Definition set_suspend (n : nat) (p : proc) : proc :=
  mk_proc (queue p) (running p) n (close_queue p) (final p) (engaged p) (sender_count p) (receiver_count p) (called p).
Definition set_close (c f : bool) (p : proc) : proc :=
  mk_proc (queue p) (running p) (suspend_count p) c f (engaged p) (sender_count p) (receiver_count p) (called p).
Definition set_engaged (b : bool) (p : proc) : proc :=
  mk_proc (queue p) (running p) (suspend_count p) (close_queue p) (final p) b (sender_count p) (receiver_count p) (called p).
Definition set_counts (n m : nat) (p : proc) : proc :=
  mk_proc (queue p) (running p) (suspend_count p) (close_queue p) (final p) (engaged p) n m (called p).
Definition log_call (v : V) (p : proc) : proc :=
  mk_proc (queue p) (running p) (suspend_count p) (close_queue p) (final p) (engaged p) (sender_count p) (receiver_count p) (called p ++ [v]).

Definition idle (p : proc) : bool := is_nil (queue p) && negb (close_queue p).

(** The critical sections; a [bool] is [do_run]. *)
Definition enqueue (m : msg) (p : proc) : bool * proc :=
  let do_run := (receiver_count p =? 0) && negb (running p) in
  (do_run, set_running (running p || do_run) (set_queue (queue p ++ [m]) p)).
Definition close_sender (p : proc) : bool * proc :=
  let do_run := (receiver_count p =? 0) && negb (running p) in
  (do_run, set_running (running p || do_run) (set_close true (final p) p)).
Definition receivers_gone (p : proc) : bool * proc :=
  let do_run := negb (idle p) && negb (running p) in
  (do_run, set_running (running p || do_run) p).
Definition task_done (p : proc) : bool * proc := (negb (idle p), set_running (negb (idle p)) p).
Definition clear_to_send (p : proc) : bool * proc :=
  let p := set_suspend (suspend_count p - 1) p in
  if suspend_count p =? 0 then if idle p then (false, set_running false p) else (true, p)
  else (false, p).
Definition free_buffer (b : Z) (p : proc) : Z :=
  if (b =? 0)%Z then size_max else u64 (b - Z.of_nat (length (queue p))).
Definition take (b : Z) (p : proc) : option (option msg * bool * proc) :=
  '(message, cts, do_close, q, c) ← pop_from_queue b (mk_default (queue p)) (close_queue p);
  match message with
  | None => Some (None, false, set_close c do_close p)
  | Some ms => m ← head ms; Some (Some m, get_i cts 0 id false, set_close c (final p) (set_queue (d_queue q) p))
  end.

(** ** The threads

    A closure of a process: not begun; with a message (none: closing), and whether
    the upstream process is cleared; in the upstream process's [clear_to_send];
    about to act on the message; inside the function; with its result; with the
    suspend count to set; about to send; in its own [clear_to_send], before and after the test
    of [_process_final]; closing the downstream; resetting the process; at its
    end; at its end with the exception it met and the process still marked as running; at a failed
    assertion. *)
Inductive pc :=
  | Run
  | Popped (m : option msg) (cts : bool)
  | Upstream (m : option msg)
  | Took (m : option msg)
  | Calling (v : V)
  | Broadcast (r : msg)
  | Suspend (n : nat) (full : bool) (r : msg)
  | Sending (n : nat) (r : msg)
  | OwnCheck
  | OwnClear
  | Clear
  | ClearLock
  | ClearEnd
  | Ended
  | Stuck (e : E)
  | Asserted.

(** A sender of the first process, with what it will send; a thread that makes
    process [i] ready. *)
Inductive user := Sends (ms : list msg) | LastSender | Closed.
Inductive setter := SetReady (i : nat) | LastReceiver (i : nat) | Ready.

Record state := mk_state {
  procs : list proc;
  closures : list (nat * pc);
  users : list user;
  setters : list setter
}.

Section steps.
(** What process [i] answers, and [_process_buffer_size] of all of them. *)
Context (f : nat -> V -> msg) (b : Z).

(** [run()] *)
Definition runs_of (i : nat) (do_run : bool) : list (nat * pc) := if do_run then [(i, Run)] else [].

(** Closure [k], of process [i], goes on at [p], after a section on process [j]. *)
Definition section (k i : nat) (p : pc) (j : nat) (g : proc -> bool * proc) (s : state) : option state :=
  q ← procs s !! j;
  Some (mk_state (<[j := (g q).2]> (procs s)) (<[k := (i, p)]> (closures s) ++ runs_of j (g q).1) (users s) (setters s)).
Definition goto (k i : nat) (p : pc) (s : state) : option state :=
  Some (mk_state (procs s) (<[k := (i, p)]> (closures s)) (users s) (setters s)).

Definition downstream_size (i : nat) (s : state) : nat := if S i <? length (procs s) then 1 else 0.
Definition minimum_free_buffer (i : nat) (s : state) : Z :=
  if downstream_size i s =? 0 then 0
  else match procs s !! S i with Some q => Z.min size_max (free_buffer b q) | None => 0 end.

(** [pop_from_queue], [step], [broadcast], [clear_to_send], [task_done]. *)
Definition step_closure (k : nat) (s : state) : option state :=
  match closures s !! k with
  | Some (i, Run) =>
      q ← procs s !! i;
      '(m, cts, q') ← take b q;
      Some (mk_state (<[i := q']> (procs s)) (<[k := (i, Popped m cts)]> (closures s)) (users s) (setters s))
  | Some (i, Popped m cts) =>
      match cts, i with
      | true, S j => u ← procs s !! j; goto k i (if final u then Took m else Upstream m) s
      | _, _ => goto k i (Took m) s
      end
  | Some (i, Upstream m) => match i with S j => section k i (Took m) j clear_to_send s | 0 => None end
  | Some (i, Took None) =>
      q ← procs s !! i;
      section k i (if final q then if (task_done q).1 then Asserted else Clear else Ended) i task_done s
  | Some (i, Took (Some (Err e))) => goto k i (Stuck e) s
  | Some (i, Took (Some (Arg v))) => section k i (Calling v) i (fun q => (false, log_call v q)) s
  | Some (i, Calling v) => goto k i (Broadcast (f i v)) s
  | Some (i, Broadcast r) => goto k i (Suspend (downstream_size i s) (minimum_free_buffer i s <=? 1)%Z r) s
  | Some (i, Suspend n full r) => section k i (Sending n r) i (fun q => (false, set_suspend (if full then n + 1 else 1) q)) s
  | Some (i, Sending 0 r) => goto k i OwnCheck s
  | Some (i, Sending (S _) r) => section k i OwnCheck (S i) (enqueue r) s
  | Some (i, OwnCheck) => q ← procs s !! i; goto k i (if final q then Ended else OwnClear) s
  | Some (i, OwnClear) => section k i Ended i clear_to_send s
  | Some (i, Clear) =>
      if downstream_size i s =? 0 then goto k i ClearEnd s
      else q ← procs s !! S i;
        section k i (if sender_count q - 1 =? 0 then ClearLock else ClearEnd) (S i)
          (fun q => (false, set_counts (sender_count q - 1) (receiver_count q) q)) s
  | Some (i, ClearLock) => section k i ClearEnd (S i) close_sender s
  | Some (i, ClearEnd) => section k i Ended i (fun q => (false, set_engaged false q)) s
  | _ => None
  end.

(** [enqueue] and [remove_sender] by the holders of senders. *)
Definition step_user (c : nat) (s : state) : option state :=
  let moves u (g : proc -> bool * proc) :=
    q ← procs s !! 0;
    Some (mk_state (<[0 := (g q).2]> (procs s)) (closures s ++ runs_of 0 (g q).1) (<[c := u]> (users s)) (setters s)) in
  match users s !! c with
  | Some (Sends (m :: ms)) => moves (Sends ms) (enqueue m)
  | Some (Sends []) =>
      q ← procs s !! 0;
      moves (if sender_count q - 1 =? 0 then LastSender else Closed)
        (fun q => (false, set_counts (sender_count q - 1) (receiver_count q) q))
  | Some LastSender => moves Closed close_sender
  | Some Closed | None => None
  end.

(** [remove_receiver]: the count, then the critical section. *)
Definition step_setter (c : nat) (s : state) : option state :=
  let moves t j (g : proc -> bool * proc) :=
    q ← procs s !! j;
    Some (mk_state (<[j := (g q).2]> (procs s)) (closures s ++ runs_of j (g q).1) (users s) (<[c := t]> (setters s))) in
  match setters s !! c with
  | Some (SetReady i) =>
      q ← procs s !! i;
      moves (if receiver_count q - 1 =? 0 then LastReceiver i else Ready) i
        (fun q => (false, set_counts (sender_count q) (receiver_count q - 1) q))
  | Some (LastReceiver i) => moves Ready i receivers_gone
  | Some Ready | None => None
  end.

Inductive step : state -> state -> Prop :=
  | step_by_closure k s s' : step_closure k s = Some s' -> step s s'
  | step_by_user c s s' : step_user c s = Some s' -> step s s'
  | step_by_setter c s s' : step_setter c s = Some s' -> step s s'.
End steps.

(** A chain of [n] processes; the senders of the first with their messages; each
    receiver is made ready by a thread of its own (the last one too: it returns
    nothing, so nobody waits for it). *)
Definition new_proc (senders receivers : nat) : proc := mk_proc [] false 0 false false true senders receivers [].
Definition start (n : nat) (us : list (list msg)) : state :=
  mk_state (imap (fun i _ => new_proc (if i =? 0 then length us else 1) (if S i =? n then 0 else 1)) (replicate n tt)) []
    (Sends <$> us) ((fun i => SetReady i) <$> seq 0 (n - 1)).

(** Runs in a given order. *)
Inductive turn := Closure (k : nat) | User (c : nat) | Setter (c : nat).
Definition take_turn (f : nat -> V -> msg) (b : Z) (t : turn) : state -> option state :=
  match t with Closure k => step_closure f b k | User c => step_user c | Setter c => step_setter c end.
Fixpoint take_turns (f : nat -> V -> msg) (b : Z) (ts : list turn) (s : state) : option state :=
  match ts with
  | [] => Some s
  | t :: ts => match take_turn f b t s with Some s' => take_turns f b ts s' | None => None end
  end.
Lemma turns_run f b ts : forall s s', take_turns f b ts s = Some s' -> rtc (step f b) s s'.
Proof.
  induction ts as [|t ts IH]; intros s s' H; cbn in H; [by injection H as ->|].
  destruct (take_turn f b t s) as [s1|] eqn:H1; [|done]. eapply rtc_l; [|by apply IH].
  destruct t; [by eapply step_by_closure|by eapply step_by_user|by eapply step_by_setter].
Qed.


(** Nobody has anything left to do. *)
Definition at_rest (s : state) : Prop :=
  Forall (fun c => c.2 = Ended \/ (exists e, c.2 = Stuck e) \/ c.2 = Asserted) (closures s) /\
  Forall (fun u => u = Closed) (users s) /\ Forall (fun t => t = Ready) (setters s).
Lemma at_rest_blocked f b s s' : at_rest s -> ~ step f b s s'.
Proof.
  intros (Hc & Hu & Ht) Hs. inversion Hs as [k ? ? H|c ? ? H|c ? ? H]; subst.
  - unfold step_closure in H. destruct (closures s !! k) as [[i p]|] eqn:Hk; [|done].
    pose proof (Forall_lookup_1 _ _ _ _ Hc Hk) as Hp. cbn in Hp. by destruct Hp as [->|[[e ->]| ->]].
  - unfold step_user in H. destruct (users s !! c) as [u|] eqn:Hk; [|done]. by rewrite (Forall_lookup_1 _ _ _ _ Hu Hk) in H.
  - unfold step_setter in H. destruct (setters s !! c) as [t|] eqn:Hk; [|done]. by rewrite (Forall_lookup_1 _ _ _ _ Ht Hk) in H.
Qed.
End channels.

(** ** Properties *)

(** Two processes that return their argument, with one sender. *)
Definition same (i v : nat) : @msg nat nat := Arg v.
Definition one_sender (ms : list (@msg nat nat)) : @state nat nat := start 2 [ms].
(** One sender of three values, and one whose first message is an exception. *)
Definition overlap_turns : list turn :=
  [Setter 0; Setter 0; User 0] ++ replicate 7 (Closure 0) ++ [User 0; User 0; Closure 0; Closure 0]
  ++ replicate 3 (Closure 2) ++ replicate 3 (Closure 1) ++ replicate 3 (Closure 3).
Definition failing_turns : list turn := [Setter 0; Setter 0; User 0] ++ replicate 3 (Closure 0) ++ [User 0; User 0; User 0].

(** With a buffer of two messages, or one without bound, two calls of the
    function of one process can run at the same time: the process lets itself be run
    again by [clear_to_send] of the next one while it has still to pass its own. *)
Theorem larger_buffers_overlap b : b = 0%Z \/ b = 2%Z ->
  exists s : @state nat nat, rtc (step same b) (one_sender [Arg 1; Arg 2; Arg 3]) s /\
  exists k l v w, k <> l /\ closures s !! k = Some (0, Calling v) /\ closures s !! l = Some (0, Calling w).
Proof.
  intros Hb. destruct (take_turns same b overlap_turns (one_sender [Arg 1; Arg 2; Arg 3])) as [s|] eqn:Hs;
    [pose proof (turns_run _ _ _ _ _ Hs) as Hr|]; destruct Hb as [-> | ->]; vm_compute in Hs; try discriminate Hs;
    exists s; (split; [done|]); injection Hs as <-; by exists 2, 3, 2, 3.
Qed.

(** A message that is an exception ends a process that cannot take one in
    its tracks: nothing is called, later messages stay in the queue, the closing of
    the senders is not noticed, the next process is never closed, and nobody is left
    to do anything about it. *)
Theorem exception_hangs :
  exists s : @state nat nat, rtc (step same 1) (one_sender [Err 7; Arg 1]) s /\
  (forall s', ~ step same 1 s s') /\
  exists p q, procs s = [p; q] /\ running p = true /\ queue p = [Arg 1] /\ close_queue p = true /\ called p = [] /\
    final p = false /\ sender_count q = 1 /\ called q = [].
Proof.
  destruct (take_turns same 1 failing_turns (one_sender [Err 7; Arg 1])) as [s|] eqn:Hs;
    [pose proof (turns_run _ _ _ _ _ Hs) as Hr|]; vm_compute in Hs; [|discriminate Hs].
  exists s. split; [done|]. injection Hs as <-. split.
  - intros s'. apply at_rest_blocked. split_and!; repeat apply Forall_cons_2; try apply Forall_nil_2; cbn; eauto.
  - by eexists _, _.
Qed.

Lemma larger_buffers_overlap_witness :
  exists s : @state nat nat, rtc (step same 2) (one_sender [Arg 1; Arg 2; Arg 3]) s /\
  exists k l v w, k <> l /\ closures s !! k = Some (0, Calling v) /\ closures s !! l = Some (0, Calling w).
Proof. apply (larger_buffers_overlap 2). by right. Defined.
