(* ===== verification/ChannelSafety.v ===== *)
(** * Safety of channels

    What holds in every reachable state of the chains of [Channels] when the buffers
    hold one message (the default of [shared_process]). *)

From S2P Require Import Prelude ChannelQueues Channels.
Local Open Scope nat_scope.

Section safety.
Context {V E : Type}.
Abbreviation msg := (@msg V E).
Abbreviation proc := (@proc V E).
Abbreviation pc := (@pc V E).
Abbreviation user := (@user V E).
Abbreviation setter := Channels.setter.
Abbreviation state := (@state V E).

(** ** Counting closures *)

Definition at_proc (g : pc -> nat) (x : nat) (c : nat * pc) : nat := Nat.b2n (c.1 =? x) * g c.2.
Definition counts (g : pc -> nat) (x : nat) (cs : list (nat * pc)) : nat := sum_list_with (at_proc g x) cs.

(** Closures that own the right to run the process, with something to do or to end
    it; that have still to pass the
    process's own [clear_to_send]; that have a message for the next process; that
    have taken a message and not yet cleared the process before; that left the
    process marked as running; that will close the next process. *)
Definition works (p : pc) : nat :=
  match p with
  | Run | Popped (Some _) _ | Upstream _ | Took (Some _) | Calling _ | Broadcast _ | Suspend _ _ _ => 1
  | _ => 0
  end.
Definition ends (p : pc) : nat := match p with Popped None _ | Took None => 1 | _ => 0 end.
Definition owes (p : pc) : nat := match p with Sending _ _ | OwnCheck | OwnClear => 1 | _ => 0 end.
Definition carries (p : pc) : nat := match p with Sending (S _) _ => 1 | _ => 0 end.
Definition clears (p : pc) : nat := match p with Popped (Some _) true | Upstream _ => 1 | _ => 0 end.
Definition sticks (p : pc) : nat := match p with Stuck _ | Asserted => 1 | _ => 0 end.
Definition begins (p : pc) : nat := match p with Run => 1 | _ => 0 end.
Definition closes (p : pc) : nat := match p with Clear => 1 | _ => 0 end.
Definition locks (p : pc) : nat := match p with ClearLock => 1 | _ => 0 end.
Definition resets (p : pc) : nat := match p with ClearEnd => 1 | _ => 0 end.

Lemma at_proc_eq g x p : at_proc g x (x, p) = g p.
Proof. unfold at_proc. cbn [fst snd]. rewrite Nat.eqb_refl. cbn. lia. Qed.
Lemma at_proc_ne g x y p : y <> x -> at_proc g x (y, p) = 0.
Proof. intros H. unfold at_proc. cbn [fst snd]. by apply Nat.eqb_neq in H as ->. Qed.
Lemma counts_eq g x cs k p p' : cs !! k = Some (x, p) -> counts g x (<[k := (x, p')]> cs) + g p = counts g x cs + g p'.
Proof. intros Hk. rewrite <- (at_proc_eq g x p), <- (at_proc_eq g x p'). apply (sum_with_insert (at_proc g x) cs k _ _ Hk). Qed.
Lemma counts_ne g x i cs k p p' : i <> x -> cs !! k = Some (i, p) -> counts g x (<[k := (i, p')]> cs) = counts g x cs.
Proof.
  intros Hne Hk. pose proof (sum_with_insert (at_proc g x) cs k _ (i, p') Hk) as H. rewrite !at_proc_ne in H by done. unfold counts. lia.
Qed.
Lemma counts_same g x i cs k p p' : g p' = g p -> cs !! k = Some (i, p) -> counts g x (<[k := (i, p')]> cs) = counts g x cs.
Proof.
  intros Hg Hk. destruct (decide (i = x)) as [->|]; [|by apply (counts_ne g x i cs k p p')].
  pose proof (counts_eq g x cs k p p' Hk). lia.
Qed.
Lemma counts_runs g x cs j d : counts g x (cs ++ runs_of j d) = counts g x cs + (if d then at_proc g x (j, Run) else 0).
Proof. unfold counts. rewrite sum_list_with_app. destruct d; cbn; lia. Qed.
Lemma at_proc_none g x j : g Run = 0 -> forall d m, m + (if d : bool then at_proc g x (j, Run) else 0) = m.
Proof. intros Hg d m. unfold at_proc. cbn [fst snd]. rewrite Hg. destruct d; lia. Qed.
Lemma counts_in g x cs k p : cs !! k = Some (x, p) -> g p <= counts g x cs.
Proof.
  intros Hk. pose proof (counts_eq g x cs k p Ended Hk) as H. unfold counts.
  rewrite <- (at_proc_eq g x p).
  apply (sum_list_with_in (x, p) (at_proc g x)). by eapply list_elem_of_lookup_2.
Qed.

Lemma counts_le g h x cs : (forall p, g p <= h p) -> counts g x cs <= counts h x cs.
Proof.
  intros H. unfold counts. induction cs as [|[i p] cs IH]; cbn; [lia|]. unfold at_proc at 1 3. cbn [fst snd].
  specialize (H p). destruct (i =? x); cbn; lia.
Qed.
Lemma begins_works x cs : counts begins x cs <= counts works x cs.
Proof. apply counts_le. intros []; cbn; lia. Qed.

(** The length of the queue of process [x], and whether it is closed. *)
Definition qlen (x : nat) (ps : list proc) : nat := match ps !! x with Some p => length (queue p) | None => 0 end.
Definition final_at (x : nat) (ps : list proc) : bool := match ps !! x with Some p => final p | None => false end.
Lemma at_lookup ps j q : ps !! j = Some q -> qlen j ps = length (queue q) /\ final_at j ps = final q.
Proof. intros Hj. unfold qlen, final_at. by rewrite Hj. Qed.
Lemma at_ne ps j q x : j <> x -> qlen x (<[j := q]> ps) = qlen x ps /\ final_at x (<[j := q]> ps) = final_at x ps.
Proof. intros Hne. unfold qlen, final_at. by rewrite list_lookup_insert_ne. Qed.
Lemma at_eq ps j p q : ps !! j = Some p -> qlen j (<[j := q]> ps) = length (queue q) /\ final_at j (<[j := q]> ps) = final q.
Proof. intros Hj. unfold qlen, final_at. by rewrite list_lookup_insert_eq by (by eapply lookup_lt_Some). Qed.

(** ** Invariant, for a buffer of one message *)

Definition user_sends (u : user) : nat := match u with Sends _ => 1 | _ => 0 end.
Definition user_last (u : user) : nat := match u with LastSender => 1 | _ => 0 end.

(** The senders process [x] counts, and those about to close it. *)
Definition senders_ok (s : state) (x : nat) (m : nat) : Prop :=
  match x with
  | 0 => m = sum_list_with user_sends (users s)
  | S y => (final_at y (procs s) = true -> m = counts ends y (closures s) + counts closes y (closures s)) /\
           (final_at y (procs s) = false -> m = 1)
  end.
Definition lasts_of (s : state) (x : nat) : nat :=
  match x with 0 => sum_list_with user_last (users s) | S y => counts locks y (closures s) end.

(** The threads that have to make process [x] ready, and those that are about to run it. *)
Definition setter_waits (x : nat) (t : setter) : nat := match t with SetReady i => Nat.b2n (i =? x) | _ => 0 end.
Definition setter_late (x : nat) (t : setter) : nat := match t with LastReceiver i => Nat.b2n (i =? x) | _ => 0 end.
Definition waits_of (x : nat) (s : state) : nat := sum_list_with (setter_waits x) (setters s).
Definition late_of (x : nat) (s : state) : nat := sum_list_with (setter_late x) (setters s).

Record proc_inv (s : state) (x : nat) (p : proc) : Prop := mk_proc_inv {
  pi_running : counts works x (closures s) + counts ends x (closures s) + Nat.min 1 (suspend_count p) + counts sticks x (closures s) = Nat.b2n (running p);
  pi_suspend : suspend_count p = counts owes x (closures s) + counts carries x (closures s)
    + counts clears (S x) (closures s) + qlen (S x) (procs s);
  pi_owes : counts owes x (closures s) <= 1;
  pi_one : counts carries x (closures s) + counts clears (S x) (closures s) + qlen (S x) (procs s) <= 1;
  pi_senders : senders_ok s x (sender_count p);
  pi_lasts : lasts_of s x + Nat.b2n (close_queue p) + Nat.b2n (final p) + Nat.min 1 (sender_count p) = 1;
  pi_final : final p = true -> suspend_count p = 0 /\ length (queue p) = 0 /\
    counts works x (closures s) = 0;
  pi_open : final p = false -> counts closes x (closures s) + counts locks x (closures s) + counts resets x (closures s) = 0;
  pi_engaged : engaged p = false -> final p = true;
  pi_reset : final p = true -> Nat.b2n (engaged p) <= counts ends x (closures s) + counts closes x (closures s)
    + counts locks x (closures s) + counts resets x (closures s);
  pi_receivers : receiver_count p = waits_of x s;
  pi_idle : running p = false -> receiver_count p + late_of x s = 0 -> length (queue p) + Nat.b2n (close_queue p) = 0;
  pi_begins : counts begins x (closures s) <= length (queue p) + Nat.b2n (close_queue p)
}.

Definition next_size (n i : nat) : nat := if S i <? n then 1 else 0.
Lemma next_size_cases n i : next_size n i = 0 \/ next_size n i = 1.
Proof. unfold next_size. case_match; auto. Qed.
Definition closure_ok (n : nat) (c : nat * pc) : Prop :=
  c.1 < n /\
  match c.2 with
  | Popped None cts => cts = false
  | Popped (Some _) cts => c.1 <> 0 -> cts = true
  | Upstream m => c.1 <> 0 /\ m <> None
  | Suspend d full _ => full = true /\ d = next_size n c.1
  | Sending d _ => d = next_size n c.1
  | ClearLock => S c.1 < n
  | Asserted => False
  | _ => True
  end.

Record inv (n : nat) (s : state) : Prop := mk_inv {
  inv_length : length (procs s) = n;
  inv_procs : forall x p, procs s !! x = Some p -> proc_inv s x p;
  inv_closures : Forall (closure_ok n) (closures s)
}.

Lemma take_nil b (p : proc) : queue p = [] -> take b p = Some (None, false, set_close false (close_queue p) p).
Proof. intros Hq. unfold take, pop_from_queue. cbn. by rewrite Hq. Qed.
Lemma take_cons b (p : proc) m l : queue p = m :: l ->
  take b p = Some (Some m, (Z.of_nat (length l) <=? u64 (b - 1))%Z, set_close (close_queue p) (final p) (set_queue l p)).
Proof. intros Hq. unfold take, pop_from_queue. cbn. by rewrite Hq. Qed.

(** A step of closure [k], of process [i], that changes a neighbour [j] or [i]
    itself: only [i] and its neighbours have to be looked at. *)
Lemma proc_inv_same s s' x p : proc_inv s x p -> (x = 0 -> users s' = users s) ->
  (forall y, y = x \/ y = S x \/ x = S y -> forall g, y = x \/ g Run = 0 -> counts g y (closures s') = counts g y (closures s)) ->
  qlen (S x) (procs s') = qlen (S x) (procs s) -> (forall y, x = S y -> final_at y (procs s') = final_at y (procs s)) ->
  waits_of x s' = waits_of x s /\ late_of x s' = late_of x s -> proc_inv s' x p.
Proof.
  intros [] Hu Hc Hq Hp [Hw Hla]. pose proof (fun g => Hc x ltac:(auto) g ltac:(auto)) as Hx. pose proof (Hc (S x) ltac:(auto) clears ltac:(auto)) as HS.
  constructor; unfold senders_ok, lasts_of in *; rewrite ?Hx, ?HS, ?Hq, ?Hw, ?Hla; try done; destruct x as [|x]; rewrite ?(Hc x) by auto;
    rewrite ?Hu by done; try done. by rewrite Hp.
Qed.
Lemma inv_moves n s k i p p' j q q' d : inv n s -> closures s !! k = Some (i, p) -> procs s !! j = Some q ->
  j = i \/ (final q' = final q /\ (j = S i \/ (i = S j /\ queue q' = queue q))) -> closure_ok n (i, p') ->
  let s' := mk_state (<[j := q']> (procs s)) (<[k := (i, p')]> (closures s) ++ runs_of j d) (users s) (setters s) in
  (forall x px px', x = i \/ x = S i \/ i = S x -> procs s !! x = Some px -> procs s' !! x = Some px' -> proc_inv s x px -> proc_inv s' x px') ->
  inv n s'.
Proof.
  intros [Hl Hp Hc] Hk Hj Hji Hok s' Hx. assert (Hjl : j < length (procs s)) by (by eapply lookup_lt_Some). constructor; subst s'; cbn [procs closures users setters] in *.
  - by rewrite length_insert.
  - intros x px' Hpx. destruct (lookup_lt_is_Some_2 (procs s) x) as [px Hpx0].
    { apply lookup_lt_Some in Hpx. by rewrite length_insert in Hpx. }
    destruct (decide (x = i)) as [->|]; [eauto|]. destruct (decide (x = S i)) as [->|]; [eauto|].
    destruct (decide (i = S x)) as [->|]; [eauto 7|].
    rewrite list_lookup_insert_ne, Hpx0 in Hpx by lia. injection Hpx as <-. apply (proc_inv_same s); cbn [procs closures users]; [auto|done|..|done].
    + intros y Hy g Hg. rewrite counts_runs, (counts_ne g y i _ _ p) by (done || lia).
      destruct d; [|lia]. unfold at_proc; cbn [fst]. cbn [snd]. destruct (Nat.eqb_spec j y); cbn; destruct Hg; lia.
    + destruct (decide (j = S x)) as [->|]; [|by apply at_ne].
      destruct (at_eq _ _ _ q' Hj) as [-> _], (at_lookup _ _ _ Hj) as [-> _]. destruct Hji as [|[_ [|[_ ->]]]]; [lia|lia|done].
    + intros y ->. destruct (decide (j = y)) as [<-|]; [|by apply at_ne].
      destruct (at_eq _ _ _ q' Hj) as [_ ->], (at_lookup _ _ _ Hj) as [_ ->]. destruct Hji as [|[-> _]]; [lia|done].
  - apply Forall_app. split; [by apply Forall_set|]. destruct d; [|done]. apply Forall_singleton. split; [cbn; lia|done].
Qed.

(** What a closure at [p] says of its process. *)
Lemma counts_of s k i p : closures s !! k = Some (i, p) ->
  works p <= counts works i (closures s) /\ ends p <= counts ends i (closures s) /\ owes p <= counts owes i (closures s) /\
  carries p <= counts carries i (closures s) /\ clears p <= counts clears i (closures s) /\
  closes p <= counts closes i (closures s) /\ locks p <= counts locks i (closures s) /\ resets p <= counts resets i (closures s) /\ begins p <= counts begins i (closures s).
Proof. intros Hk. split_and!; by eapply counts_in. Qed.

(** What has to be shown of a neighbour, by counting. *)
Ltac count_step Hi Hq Hj Hk :=
  try (change (runs_of _ false) with (@nil (nat * pc)); rewrite !app_nil_r);
  repeat match goal with
  | |- context [counts ?g ?y (_ ++ runs_of ?j ?d)] => rewrite (counts_runs g y); try rewrite (at_proc_none g y j eq_refl d)
  | |- context [at_proc ?g ?y (?j, Run)] => first [rewrite (at_proc_ne g y j) by (clear; lia)|rewrite (at_proc_eq g y)]
  | |- context [counts ?g ?y (<[?k := (?i, ?p')]> ?cs)] =>
      first [rewrite (counts_same g y i cs k _ p' eq_refl Hk)|rewrite (counts_ne g y i cs k _ p' ltac:(clear; lia) Hk)
            |let H := fresh in pose proof (counts_eq g y cs k _ p' Hk) as H; cbn [works ends owes carries clears sticks closes locks resets begins] in H; generalize dependent (counts g y (<[k := (i, p')]> cs)); intros]
  | |- context [qlen ?y (<[?j := ?q]> ?ps)] => first [rewrite (proj1 (at_ne ps j q y ltac:(clear; lia)))|rewrite (proj1 (at_eq ps j _ q Hj))]
  | |- context [final_at ?y (<[?j := ?q]> ?ps)] => first [rewrite (proj2 (at_ne ps j q y ltac:(clear; lia)))|rewrite (proj2 (at_eq ps j _ q Hj))]
  end.
(** Cases on the flags; what is left is arithmetic. *)
Lemma b2n_le b : Nat.b2n b <= 1.
Proof. destruct b; cbn; lia. Qed.
Ltac simp := cbn [fst snd works ends owes carries clears sticks closes locks resets begins length app is_nil Nat.b2n negb andb orb
  queue running suspend_count close_queue final engaged sender_count receiver_count called
  set_queue set_running set_suspend set_close set_engaged set_counts log_call] in *.
Ltac count_lia :=
  repeat match goal with
  | H : context [Nat.b2n ?c] |- _ => is_var c; lazymatch goal with _ : Nat.b2n c <= 1 |- _ => fail | _ => pose proof (b2n_le c) end
  end; lia.
Ltac flags :=
  repeat match goal with p : proc |- _ => destruct p end; simp;
  try (match goal with |- _ = _ => idtac | |- _ <= _ => idtac end;
    solve [repeat match goal with H : @eq bool _ _ -> _ |- _ => clear H end; count_lia]);
  repeat match goal with
  | |- context [is_nil ?l] => is_var l; destruct l; simp
  | H : context [is_nil ?l] |- _ => is_var l; destruct l; simp
  | |- context [negb ?c] => is_var c; destruct c; simp; rewrite ?andb_true_r, ?andb_false_r; try discriminate
  | H : context [negb ?c] |- _ => is_var c; destruct c; simp; try discriminate
  | |- context [if ?c then _ else _] => destruct c
  | |- context [Nat.b2n ?c] => is_var c; destruct c; simp
  | H : ?c = true -> _ |- _ => is_var c; destruct c; simp
  | |- context [final_at ?y ?ps = _] => destruct (final_at y ps) eqn:?
  end; split_and?; intros;
  repeat match goal with
  | H : _ /\ _ |- _ => destruct H
  | H : @eq bool _ _ -> _ |- _ => first [specialize (H eq_refl)|specialize (H ltac:(congruence))|clear H]
  end; split_and?; intros; try done; rewrite ?orb_true_r, ?orb_false_r, ?length_app; cbn [length];
  rewrite ?Nat.eqb_eq, ?Nat.eqb_neq in *;
  try count_lia.
Ltac proc_case Hi Hq Hj Hk :=
  repeat match goal with H : section _ _ _ _ _ _ = _ |- _ => clear H | H : goto _ _ _ _ = _ |- _ => clear H end;
  let x := fresh "x" in let px := fresh "px" in let px' := fresh "px'" in
  let Hx := fresh "Hx" in let Hx' := fresh "Hx'" in let Hv := fresh "Hv" in let Hp := fresh "Hp" in
  pose proof (counts_of _ _ _ _ Hk) as Hp; cbn in Hp; destruct Hp as (? & ? & ? & ? & ? & ? & ? & ? & ?);
  repeat match goal with H : 0 <= _ |- _ => clear H end;
  unfold clear_to_send, task_done, enqueue, close_sender, idle in *; cbv zeta;
  repeat match goal with
  | |- context [if ?a =? ?b then _ else _] => destruct (Nat.eqb_spec a b)
  | |- context [if ?c then _ else _] => destruct c eqn:?
  end;
  cbn [procs fst snd]; intros x px px' Hp Hx Hx' Hv; pose proof (lookup_lt_Some _ _ _ Hx); pose proof (inv_length _ _ Hi);
  (destruct Hp as [->|[->|Hp]]; [|..|first [discriminate Hp|apply Nat.succ_inj in Hp; subst x|subst]]);
  (first [rewrite list_lookup_insert_eq in Hx' by (by eapply lookup_lt_Some)|rewrite list_lookup_insert_ne in Hx' by (clear; lia)]);
  try rewrite Hj in Hx; try rewrite Hq in Hx; try rewrite Hx in Hx'; simplify_eq;
  pose proof (inv_procs _ _ Hi _ _ Hj); pose proof (inv_procs _ _ Hi _ _ Hq);
  repeat match goal with H : _ !! _ = Some _ |- _ => first [pose proof (at_lookup _ _ _ H) as [? ?]; revert H|revert H] end; intros;
  repeat match goal with H : proc_inv ?s ?y ?p, H' : proc_inv ?s ?y ?p |- _ => clear H' end;
  repeat match goal with H : proc_inv _ _ _ |- _ => destruct H end;
  (constructor; unfold senders_ok, lasts_of, waits_of, late_of in *; cbn [procs closures users setters] in *;
    try (match goal with |- match ?i with _ => _ end => destruct i | |- context [match ?i with 0 => _ | S _ => _ end] => destruct i end);
    try (match goal with |- context [counts begins ?x (?cs ++ _)] => match type of Hk with ?cs0 !! _ = _ => pose proof (begins_works x cs0) end end);
    count_step Hi Hq Hj Hk; try assumption;
    repeat match goal with H : _ !! _ = _ |- _ => clear H end; clear Hi; simp; flags).

Lemma inv_section_step n s s' k i p p' j q g : inv n s -> closures s !! k = Some (i, p) -> procs s !! j = Some q ->
  section k i p' j g s = Some s' ->
  j = i \/ (final (g q).2 = final q /\ (j = S i \/ (i = S j /\ queue (g q).2 = queue q))) -> closure_ok n (i, p') ->
  (let s1 := mk_state (<[j := (g q).2]> (procs s)) (<[k := (i, p')]> (closures s) ++ runs_of j (g q).1) (users s) (setters s) in
   forall x px px', x = i \/ x = S i \/ i = S x -> procs s !! x = Some px -> procs s1 !! x = Some px' -> proc_inv s x px -> proc_inv s1 x px') ->
  inv n s'.
Proof. intros Hi Hk Hj Hs. unfold section in Hs. rewrite Hj in Hs. injection Hs as <-. by apply inv_moves with (p := p). Qed.
Lemma inv_move_step n s k i p p' q q' : inv n s -> closures s !! k = Some (i, p) -> procs s !! i = Some q ->
  closure_ok n (i, p') ->
  (let s1 := mk_state (<[i := q']> (procs s)) (<[k := (i, p')]> (closures s) ++ runs_of i false) (users s) (setters s) in
   forall x px px', x = i \/ x = S i \/ i = S x -> procs s !! x = Some px -> procs s1 !! x = Some px' -> proc_inv s x px -> proc_inv s1 x px') ->
  inv n (mk_state (<[i := q']> (procs s)) (<[k := (i, p')]> (closures s)) (users s) (setters s)).
Proof.
  intros Hi Hk Hj Hok H. rewrite <- (app_nil_r (<[k := _]> _)). apply (inv_moves n s k i p p' i q q' false); auto.
Qed.
Lemma inv_goto_step n s s' k i p p' q : inv n s -> closures s !! k = Some (i, p) -> procs s !! i = Some q ->
  goto k i p' s = Some s' -> closure_ok n (i, p') ->
  (let s1 := mk_state (<[i := q]> (procs s)) (<[k := (i, p')]> (closures s) ++ runs_of i false) (users s) (setters s) in
   forall x px px', x = i \/ x = S i \/ i = S x -> procs s !! x = Some px -> procs s1 !! x = Some px' -> proc_inv s x px -> proc_inv s1 x px') ->
  inv n s'.
Proof.
  intros Hi Hk Hj Hs Hok H. injection Hs as <-. rewrite <- (list_insert_id (procs s) i q Hj) at 1.
  by apply (inv_move_step n s k i p p' q q).
Qed.

Lemma final_idle s x p : proc_inv s x p -> final p = true -> idle p = true.
Proof.
  intros [] Hf. destruct (pi_final0 Hf) as (_ & Hq & _). rewrite Hf in pi_lasts0. unfold idle. apply nil_length_inv in Hq as ->.
  destruct (close_queue p); [cbn in pi_lasts0; lia|done].
Qed.
Lemma take_clears n s i q (l : list msg) : inv n s -> procs s !! i = Some q -> i <> 0 -> length (queue q) = S (length l) ->
  (Z.of_nat (length l) <=? u64 (1 - 1))%Z = true.
Proof.
  intros Hi Hq Hi0 Hl. destruct i as [|j]; [done|]. destruct (lookup_lt_is_Some_2 (procs s) j) as [u Hu].
  { apply lookup_lt_Some in Hq. lia. }
  pose proof (pi_one _ _ _ (inv_procs _ _ Hi _ _ Hu)) as H. destruct (at_lookup _ _ _ Hq) as [Hlen _].
  apply Z.leb_le. change (u64 (1 - 1)) with 0%Z. lia.
Qed.
Lemma downstream_next n s i : inv n s -> downstream_size i s = next_size n i.
Proof. intros Hi. unfold downstream_size, next_size. by rewrite (inv_length _ _ Hi). Qed.
Lemma minimum_full n s i q : inv n s -> procs s !! i = Some q -> (minimum_free_buffer 1 i s <=? 1)%Z = true.
Proof.
  intros Hi Hq. unfold minimum_free_buffer. case_match; [done|]. destruct (procs s !! S i) as [u|] eqn:Hu; [|done].
  pose proof (pi_one _ _ _ (inv_procs _ _ Hi _ _ Hq)) as H1. destruct (at_lookup _ _ _ Hu) as [Hlen _].
  assert (length (queue u) = 0 \/ length (queue u) = 1) as [Hl|Hl] by lia; unfold free_buffer; rewrite Hl; done.
Qed.
Lemma inv_step_run n f s s' k i q : inv n s -> closures s !! k = Some (i, Run) -> procs s !! i = Some q ->
  step_closure f 1 k s = Some s' -> inv n s'.
Proof.
  intros Hi Hk Hq Hs. unfold step_closure in Hs. rewrite Hk in Hs.
  pose proof (Forall_lookup_1 _ _ _ _ (inv_closures _ _ Hi) Hk) as [Hin Hok]. cbn in Hin, Hok.
  pose proof (lookup_lt_Some _ _ _ Hq) as Hil.
  rewrite Hq in Hs. cbn in Hs. destruct (queue q) as [|m l] eqn:Hqu; pose proof (f_equal length Hqu) as Hlen; cbn in Hlen.
  + rewrite (take_nil 1 q Hqu) in Hs. injection Hs as <-. apply (inv_move_step n s k i Run _ q); try done. proc_case Hi Hq Hq Hk.
  + rewrite (take_cons 1 q m l Hqu) in Hs. injection Hs as <-. pose proof (take_clears n s i q l Hi Hq) as Hcl.
    destruct (Z.of_nat (length l) <=? u64 (1 - 1))%Z; [|destruct i; [|by discriminate Hcl]];
      (eapply (inv_move_step n s k _ Run _ q); [done|done|done|split; cbn; done|]); clear Hcl; proc_case Hi Hq Hq Hk.
Qed.
Lemma inv_step_popped n f s s' k i m cts q : inv n s -> closures s !! k = Some (i, Popped m cts) -> procs s !! i = Some q ->
  step_closure f 1 k s = Some s' -> inv n s'.
Proof.
  intros Hi Hk Hq Hs. unfold step_closure in Hs. rewrite Hk in Hs.
  pose proof (Forall_lookup_1 _ _ _ _ (inv_closures _ _ Hi) Hk) as [Hin Hok]. cbn in Hin, Hok.
  pose proof (lookup_lt_Some _ _ _ Hq) as Hil.
  destruct m as [m|]; [|rewrite Hok in *; clear Hok]; (destruct cts; [destruct i as [|j]|]).
  2: destruct (lookup_lt_is_Some_2 (procs s) j) as [u Hu]; [lia|]; rewrite Hu in Hs; cbn in Hs; destruct (final u) eqn:Hf.
  3: refine (inv_goto_step n s s' k (S j) _ _ q Hi Hk Hq Hs _ _); [done|proc_case Hi Hq Hq Hk].
  2: { destruct (inv_procs _ _ Hi _ _ Hu). pose proof (counts_in clears _ _ _ _ Hk) as H. cbn in H. destruct (pi_final0 Hf) as [? _]. lia. }
  all: refine (inv_goto_step n s s' k _ _ _ q Hi Hk Hq Hs _ _); [done|proc_case Hi Hq Hq Hk].
Qed.
Lemma inv_step_took n f s s' k i q : inv n s -> closures s !! k = Some (i, Took None) -> procs s !! i = Some q ->
  step_closure f 1 k s = Some s' -> inv n s'.
Proof.
  intros Hi Hk Hq Hs. unfold step_closure in Hs. rewrite Hk in Hs.
  pose proof (Forall_lookup_1 _ _ _ _ (inv_closures _ _ Hi) Hk) as [Hin Hok]. cbn in Hin, Hok.
  pose proof (lookup_lt_Some _ _ _ Hq) as Hil.
  rewrite Hq in Hs. cbn in Hs. assert (Ht : task_done q = (negb (idle q), set_running (negb (idle q)) q)) by done.
  destruct (final q) eqn:Hf; [rewrite (final_idle s i q) in * by (done || by apply Hi); cbn in Hs|].
  + refine (inv_section_step n s s' k i _ _ i q _ Hi Hk Hq Hs _ _ _); [by left|done|]. rewrite Ht. proc_case Hi Hq Hq Hk.
  + refine (inv_section_step n s s' k i _ _ i q _ Hi Hk Hq Hs _ _ _); [by left|done|]. proc_case Hi Hq Hq Hk.
Qed.
Lemma inv_step_clear n f s s' k i q : inv n s -> closures s !! k = Some (i, Clear) -> procs s !! i = Some q ->
  step_closure f 1 k s = Some s' -> inv n s'.
Proof.
  intros Hi Hk Hq Hs. unfold step_closure in Hs. rewrite Hk in Hs.
  pose proof (Forall_lookup_1 _ _ _ _ (inv_closures _ _ Hi) Hk) as [Hin Hok]. cbn in Hin, Hok.
  pose proof (lookup_lt_Some _ _ _ Hq) as Hil.
  rewrite (downstream_next n s i Hi) in Hs. unfold next_size in Hs. destruct (Nat.ltb_spec (S i) n) as [Hn|Hn]; cbn in Hs.
  2: by (refine (inv_goto_step n s s' k i _ _ q Hi Hk Hq Hs _ _); [done|proc_case Hi Hq Hq Hk]).
  pose proof Hn as Hnl. rewrite <- (inv_length _ _ Hi) in Hnl. destruct (lookup_lt_is_Some_2 _ _ Hnl) as [u Hu].
  rewrite Hu in Hs. cbn in Hs. destruct (Nat.eqb_spec (sender_count u - 1) 0).
  all: by (refine (inv_section_step n s s' k i _ _ (S i) u _ Hi Hk Hu Hs _ _ _); [auto|done|proc_case Hi Hq Hu Hk]).
Qed.
Lemma inv_step_closure n f s s' k : inv n s -> step_closure f 1 k s = Some s' -> inv n s'.
Proof.
  intros Hi Hs. pose proof Hs as Hstep. unfold step_closure in Hs. destruct (closures s !! k) as [[i p]|] eqn:Hk; [|done].
  pose proof (Forall_lookup_1 _ _ _ _ (inv_closures _ _ Hi) Hk) as [Hin Hok]. cbn in Hin, Hok.
  pose proof Hin as Hil. rewrite <- (inv_length _ _ Hi) in Hil. destruct (lookup_lt_is_Some_2 _ _ Hil) as [q Hq].
  destruct p as [|m cts|m|[[v|e]|]|v|r|d full r|[|d] r| | | | | | |e|]; try done.
  1: by eapply inv_step_run. 1: by eapply inv_step_popped. 4: by eapply inv_step_took. 11: by eapply inv_step_clear. all: clear Hstep.
  - destruct i as [|j]; [done|]. destruct m as [m|]; [|by destruct Hok]. destruct (lookup_lt_is_Some_2 (procs s) j) as [u Hu]; [lia|].
    refine (inv_section_step n s s' k (S j) _ _ j u _ Hi Hk Hu Hs _ _ _);
      [right; unfold clear_to_send; by repeat case_match; auto|done|].
    proc_case Hi Hq Hu Hk.
  - refine (inv_section_step n s s' k i _ _ i q _ Hi Hk Hq Hs _ _ _); [by left|done|]. proc_case Hi Hq Hq Hk.
  - refine (inv_goto_step n s s' k i _ _ q Hi Hk Hq Hs _ _); [done|]. proc_case Hi Hq Hq Hk.
  - refine (inv_goto_step n s s' k i _ _ q Hi Hk Hq Hs _ _); [done|]. proc_case Hi Hq Hq Hk.
  - rewrite (minimum_full n s i q Hi Hq), (downstream_next n s i Hi) in Hs.
    refine (inv_goto_step n s s' k i _ _ q Hi Hk Hq Hs _ _); [done|proc_case Hi Hq Hq Hk].
  - destruct Hok as [-> ->]. pose proof (next_size_cases n i) as [Hn|Hn]; rewrite Hn in *.
    all: refine (inv_section_step n s s' k i _ _ i q _ Hi Hk Hq Hs _ _ _); [by left|done|proc_case Hi Hq Hq Hk].
  - refine (inv_goto_step n s s' k i _ _ q Hi Hk Hq Hs _ _); [done|]. proc_case Hi Hq Hq Hk.
  - assert (Hn : S i < n) by (revert Hok; unfold next_size; case_match; intros; [by apply Nat.ltb_lt|done]).
    pose proof Hn as Hnl. rewrite <- (inv_length _ _ Hi) in Hnl. destruct (lookup_lt_is_Some_2 _ _ Hnl) as [u Hu].
    refine (inv_section_step n s s' k i _ _ (S i) u _ Hi Hk Hu Hs _ _ _); [by auto|done|]. proc_case Hi Hq Hu Hk.
  - rewrite Hq in Hs. cbn in Hs. destruct (final q) eqn:Hf.
    + refine (inv_goto_step n s s' k i _ _ q Hi Hk Hq Hs _ _); [done|]. proc_case Hi Hq Hq Hk.
    + refine (inv_goto_step n s s' k i _ _ q Hi Hk Hq Hs _ _); [done|]. proc_case Hi Hq Hq Hk.
  - refine (inv_section_step n s s' k i _ _ i q _ Hi Hk Hq Hs _ _ _); [by left|done|]. proc_case Hi Hq Hq Hk.
  - pose proof Hok as Hnl. rewrite <- (inv_length _ _ Hi) in Hnl. destruct (lookup_lt_is_Some_2 _ _ Hnl) as [u Hu].
    refine (inv_section_step n s s' k i _ _ (S i) u _ Hi Hk Hu Hs _ _ _); [by auto|done|]. proc_case Hi Hq Hu Hk.
  - refine (inv_section_step n s s' k i _ _ i q _ Hi Hk Hq Hs _ _ _); [by left|done|]. proc_case Hi Hq Hq Hk.
Qed.

(** A step of a thread outside the closures changes process [j] only. *)
Lemma inv_outside n s j q q' d us ts : inv n s -> procs s !! j = Some q -> final q' = final q ->
  j = 0 \/ (us = users s /\ queue q' = queue q) ->
  let s' := mk_state (<[j := q']> (procs s)) (closures s ++ runs_of j d) us ts in
  (forall x, x <> j -> waits_of x s' = waits_of x s /\ late_of x s' = late_of x s) ->
  (proc_inv s j q -> proc_inv s' j q') -> inv n s'.
Proof.
  intros [Hl Hp Hc] Hj Hf Hor s' Hts Hx. assert (Hjl : j < length (procs s)) by (by eapply lookup_lt_Some).
  constructor; subst s'; cbn [procs closures users setters] in *.
  - by rewrite length_insert.
  - intros x px Hpx. destruct (decide (j = x)) as [<-|].
    { rewrite list_lookup_insert_eq in Hpx by done. injection Hpx as <-. auto. }
    rewrite list_lookup_insert_ne in Hpx by done. apply (proc_inv_same s); cbn [procs closures users]; [auto|..].
    + intros ->. by destruct Hor as [->|[-> _]].
    + intros y Hy g Hg. rewrite counts_runs. unfold at_proc. cbn [fst snd]. destruct d; [|lia].
      destruct (Nat.eqb_spec j y); cbn; destruct Hg; lia.
    + destruct (decide (j = S x)) as [->|]; [|by apply at_ne].
      destruct (at_eq _ _ _ q' Hj) as [-> _], (at_lookup _ _ _ Hj) as [-> _]. by destruct Hor as [|[_ ->]].
    + intros y ->. destruct (decide (j = y)) as [<-|]; [|by apply at_ne].
      destruct (at_eq _ _ _ q' Hj) as [_ ->], (at_lookup _ _ _ Hj) as [_ ->]. done.
    + auto.
  - apply Forall_app. split; [done|]. destruct d; [|done]. apply Forall_singleton. split; [cbn; lia|done].
Qed.

Ltac outside_case Hi Hj :=
  pose proof (at_lookup _ _ _ Hj) as [? ?]; intros []; match type of Hj with procs ?s !! ?j = _ => pose proof (begins_works j (closures s)) end; unfold enqueue, close_sender, receivers_gone in *;
  constructor; unfold senders_ok, lasts_of, waits_of, late_of in *; cbn [procs closures users setters fst snd] in *;
  try (match goal with |- match ?i with _ => _ end => destruct i | |- context [match ?i with 0 => _ | S _ => _ end] => destruct i end);
  rewrite ?app_nil_r, ?counts_runs; rewrite ?at_proc_eq, ?at_proc_ne by lia;
  repeat match goal with |- context [qlen (S ?y) (<[?y := ?q]> ?ps)] => rewrite (proj1 (at_ne ps y q (S y) ltac:(clear; lia)))
  | |- context [final_at ?y (<[S ?y := ?q]> ?ps)] => rewrite (proj2 (at_ne ps (S y) q y ltac:(clear; lia))) end;
  try assumption; repeat match goal with H : _ !! _ = _ |- _ => clear H end; clear Hi; simp; flags.

Ltac sums Hc u := pose proof (sum_with_insert user_sends _ _ _ u Hc); pose proof (sum_with_insert user_last _ _ _ u Hc).

Lemma inv_step_user n s s' c : inv n s -> step_user c s = Some s' -> inv n s'.
Proof.
  intros Hi Hs. unfold step_user in Hs. destruct (users s !! c) as [[[|m ms]| |]|] eqn:Hc; [..|done|done];
    destruct (procs s !! 0) as [q|] eqn:Hj; try done; cbn in Hs; injection Hs as <-.
  - destruct (Nat.eqb_spec (sender_count q - 1) 0); (eapply (inv_outside n s 0 q _ false); [done|done|done|by left|done|]);
      sums Hc (LastSender : user); sums Hc (Closed : user); cbn in *; outside_case Hi Hj.
  - eapply (inv_outside n s 0 q _ _); [done|done|done|by left|done|]. sums Hc (Sends ms); sums Hc (Closed : user). cbn in *. outside_case Hi Hj.
  - eapply (inv_outside n s 0 q _ _); [done|done|done|by left|done|]. sums Hc (Closed : user). cbn in *. outside_case Hi Hj.
Qed.
Ltac setter_sums Hc t x :=
  pose proof (sum_with_insert (setter_waits x) _ _ _ t Hc); pose proof (sum_with_insert (setter_late x) _ _ _ t Hc);
  unfold waits_of, late_of; cbn [setters setter_waits setter_late] in *.
Lemma inv_step_setter n s s' c : inv n s -> step_setter c s = Some s' -> inv n s'.
Proof.
  intros Hi Hs. unfold step_setter in Hs. destruct (setters s !! c) as [[j|j|]|] eqn:Hc; [..|done|done];
    destruct (procs s !! j) as [q|] eqn:Hj; try done; cbn in Hs; injection Hs as <-.
  - destruct (Nat.eqb_spec (receiver_count q - 1) 0); (eapply (inv_outside n s j q _ false); [done|done|done|by right|intros x Hx|]).
    + setter_sums Hc (LastReceiver j : setter) x. apply not_eq_sym, Nat.eqb_neq in Hx. rewrite Hx in *. cbn in *. lia.
    + setter_sums Hc (LastReceiver j : setter) j. rewrite Nat.eqb_refl in *. cbn in *. outside_case Hi Hj.
    + setter_sums Hc (Ready : setter) x. apply not_eq_sym, Nat.eqb_neq in Hx. rewrite Hx in *. cbn in *. lia.
    + setter_sums Hc (Ready : setter) j. rewrite Nat.eqb_refl in *. cbn in *. outside_case Hi Hj.
  - eapply (inv_outside n s j q _ _); [done|done|done|by right|intros x Hx|].
    + setter_sums Hc (Ready : setter) x. apply not_eq_sym, Nat.eqb_neq in Hx. rewrite Hx in *. cbn in *. lia.
    + setter_sums Hc (Ready : setter) j. pose proof (inv_procs _ _ Hi _ _ Hj) as Hv. rewrite Nat.eqb_refl in *. cbn in *.
      destruct (final q) eqn:Hf; [rewrite (final_idle s j q Hv Hf) in *|unfold idle in *]; outside_case Hi Hj.
Qed.

(** ** The start *)

Lemma start_lookup n (us : list (list msg)) x p : procs (start n us) !! x = Some p ->
  p = new_proc (if x =? 0 then length us else 1) (if S x =? n then 0 else 1) /\ x < n.
Proof.
  cbn. rewrite list_lookup_imap. intros H. apply fmap_Some in H as (u & Hu & ->). by apply lookup_replicate in Hu as [_ ?].
Qed.
Lemma sum_fmap_const {A B} (f : A -> nat) (g : B -> A) c l : (forall b, f (g b) = c) -> sum_list_with f (g <$> l) = c * length l.
Proof. intros H. induction l as [|b l IH]; cbn; [lia|]. rewrite H, IH. lia. Qed.
Lemma sum_setters x l m : sum_list_with (setter_waits x) ((fun i => SetReady i) <$> seq l m) = Nat.b2n ((l <=? x) && (x <? l + m)).
Proof.
  revert l. induction m as [|m IH]; intros l; cbn [seq fmap list_fmap sum_list_with setter_waits].
  - destruct (Nat.leb_spec l x), (Nat.ltb_spec x (l + 0)); cbn; lia.
  - rewrite (IH (S l)). destruct (Nat.eqb_spec l x), (Nat.leb_spec (S l) x), (Nat.leb_spec l x), (Nat.ltb_spec x (S l + m)), (Nat.ltb_spec x (l + S m)); cbn; lia.
Qed.
Lemma chain_inv_start n u (us : list (list msg)) : inv n (start n (u :: us)).
Proof.
  constructor; [cbn; by rewrite length_imap, length_replicate| |by constructor].
  intros x p Hp. apply start_lookup in Hp as [-> Hx].
  assert (Hq : forall y, qlen y (procs (start n (u :: us))) = 0 /\ final_at y (procs (start n (u :: us))) = false).
  { intros y. destruct (procs (start n (u :: us)) !! y) as [q|] eqn:Hq; [|unfold qlen, final_at; by rewrite Hq].
    destruct (at_lookup _ _ _ Hq) as [-> ->]. by apply start_lookup in Hq as [-> _]. }
  constructor; cbn [queue running suspend_count close_queue final engaged sender_count receiver_count new_proc]; try done.
  - rewrite (proj1 (Hq (S x))). done.
  - cbn. lia.
  - rewrite (proj1 (Hq (S x))). cbn. lia.
  - destruct x as [|x]; cbn [senders_ok Nat.eqb]; [|by rewrite (proj2 (Hq x))]. cbn [start users]. rewrite (sum_fmap_const _ _ 1) by done. lia.
  - unfold lasts_of. destruct x as [|x]; [|done]. cbn [start users]. by rewrite (sum_fmap_const _ _ 0).
  - unfold waits_of. cbn [start setters]. rewrite sum_setters. cbn [Nat.add Nat.leb].
    destruct (Nat.eqb_spec (S x) n), (Nat.ltb_spec x (n - 1)); cbn; lia.
Qed.
Lemma inv_reached f n u us s : rtc (step f 1) (start n (u :: us)) s -> inv n s.
Proof.
  intros Hr. pose proof (chain_inv_start n u us) as Hi. revert Hi. induction Hr as [|s1 s2 s3 Hs Hr IH]; [done|].
  intros Hi. apply IH. destruct Hs as [k ? ? H|c ? ? H|c ? ? H]; [by eapply inv_step_closure|by eapply inv_step_user|by eapply inv_step_setter].
Qed.

(** ** Safety *)

Lemma counts_two g x cs k1 k2 p1 p2 : k1 <> k2 -> cs !! k1 = Some (x, p1) -> cs !! k2 = Some (x, p2) -> g p1 + g p2 <= counts g x cs + g Ended.
Proof.
  intros Hne H1 H2. pose proof (counts_eq g x cs k1 p1 Ended H1).
  pose proof (counts_in g x (<[k1 := (x, Ended)]> cs) k2 p2). rewrite list_lookup_insert_ne in * by done. specialize (H0 H2). lia.
Qed.

(** What a chain promises. *)
Definition one_call_at_a_time (s : state) : Prop := forall i k l v w,
  closures s !! k = Some (i, Calling v) -> closures s !! l = Some (i, Calling w) -> k = l.
Definition calls_engaged (s : state) : Prop := forall i k v p,
  closures s !! k = Some (i, Calling v) -> procs s !! i = Some p -> engaged p = true /\ final p = false.
Definition back_pressure (s : state) : Prop := forall i p, procs s !! S i = Some p -> length (queue p) <= 1.
Definition assertions_hold (s : state) : Prop := forall i k, closures s !! k <> Some (i, Asserted).

(** C3: chains of processes whose buffers hold one message: in every state that can be
    reached, no process function is running twice at once or after [_process] was
    reset; no queue but the first holds more than one message; and the assertion of
    [task_done] after the end of a process holds. *)
Theorem chain_safe (f : nat -> V -> msg) n u us (s : state) : rtc (step f 1) (start n (u :: us)) s ->
  one_call_at_a_time s /\ calls_engaged s /\ back_pressure s /\ assertions_hold s.
Proof.
  intros Hr. apply inv_reached in Hr as Hi. clear Hr.
  assert (Hw : forall i k p, closures s !! k = Some (i, p) -> exists q, procs s !! i = Some q /\ proc_inv s i q).
  { intros i k p Hk. destruct (Forall_lookup_1 _ _ _ _ (inv_closures _ _ Hi) Hk) as [Hin _]. cbn in Hin.
    rewrite <- (inv_length _ _ Hi) in Hin. destruct (lookup_lt_is_Some_2 _ _ Hin) as [q Hq]. exists q. split; [done|by apply (inv_procs _ _ Hi)]. }
  split_and!.
  - intros i k l v w Hk Hl. destruct (decide (k = l)) as [|Hne]; [done|].
    pose proof (counts_two works i (closures s) k l _ _ Hne Hk Hl) as H. destruct (Hw _ _ _ Hk) as (q & _ & []).
    cbn in H. pose proof (b2n_le (running q)). lia.
  - intros i k v p Hk Hp. pose proof (inv_procs _ _ Hi _ _ Hp) as []. pose proof (counts_in works _ _ _ _ Hk) as H. cbn in H.
    destruct (final p); [destruct pi_final0; [done|lia]|]. destruct (engaged p); [done|by discriminate pi_engaged0].
  - intros i p Hp. destruct (lookup_lt_is_Some_2 (procs s) i) as [q Hq]; [apply lookup_lt_Some in Hp; lia|].
    pose proof (pi_one _ _ _ (inv_procs _ _ Hi _ _ Hq)). destruct (at_lookup _ _ _ Hp) as [Hl _]. lia.
  - intros i k Hk. by destruct (Forall_lookup_1 _ _ _ _ (inv_closures _ _ Hi) Hk).
Qed.
End safety.

(** One message on its way through the function of the first process. *)
Definition safe_turns : list turn := [Setter 0; Setter 0; User 0; Closure 0; Closure 0; Closure 0].
Definition safe_state : @state nat nat :=
  default (one_sender [Arg 1; Arg 2]) (take_turns same 1 safe_turns (one_sender [Arg 1; Arg 2])).
Lemma safe_run : rtc (step same 1) (start 2 [[Arg 1; Arg 2]]) safe_state.
Proof. apply turns_run with safe_turns. by vm_compute. Qed.
Lemma chain_safe_witness :
  closures safe_state !! 0 = Some (0, Calling 1) /\
  one_call_at_a_time safe_state /\ calls_engaged safe_state /\ back_pressure safe_state /\ assertions_hold safe_state.
Proof.
  split; [reflexivity|]. apply (chain_safe same 2 [Arg 1; Arg 2] [] safe_state safe_run).
Defined.
