(* ===== verification/ChannelFlow.v ===== *)
(** * Delivery through channels

    The chains of [Channels] with buffers of one message deliver: what a process was
    called with, what is under way to the next one and what that one was called
    with fit together in every reachable state; without exceptions a chain that has
    nothing left to do has processed every message, and it gets there. *)

From S2P Require Import Prelude ChannelQueues Channels ChannelSafety.
Local Open Scope nat_scope.

Section flow.
Context {V E : Type} (f : nat -> V -> @msg V E).
Abbreviation msg := (@msg V E).
Abbreviation proc := (@proc V E).
Abbreviation pc := (@pc V E).
Abbreviation user := (@user V E).
Abbreviation state := (@state V E).

(** ** Messages under way *)

(** The message a closure took from the queue of its process, until the process is
    called with it, and the one it has for the next process. *)
Definition held (p : pc) : list msg :=
  match p with Popped (Some m) _ | Upstream (Some m) | Took (Some m) => [m] | Stuck e => [Err e] | _ => [] end.
Definition going (i : nat) (p : pc) : list msg :=
  match p with Calling v => [f i v] | Broadcast r | Suspend _ _ r | Sending (S _) r => [r] | _ => [] end.
Definition gather (h : pc -> list msg) (x : nat) (cs : list (nat * pc)) : list msg :=
  concat ((fun c => if c.1 =? x then h c.2 else []) <$> cs).

Lemma gather_length h x cs : length (gather h x cs) = counts (fun p => length (h p)) x cs.
Proof.
  unfold gather, counts. induction cs as [|[i p] cs IH]; cbn; [done|]. rewrite length_app, IH. f_equal. unfold at_proc. cbn.
  destruct (i =? x); cbn; lia.
Qed.
Lemma gather_app h x cs cs' : gather h x (cs ++ cs') = gather h x cs ++ gather h x cs'.
Proof. unfold gather. by rewrite fmap_app, concat_app. Qed.
Lemma gather_cons h x p cs : gather h x ((x, p) :: cs) = h p ++ gather h x cs.
Proof. unfold gather. cbn. by rewrite Nat.eqb_refl. Qed.
Lemma gather_runs h x cs j d : h Run = [] -> gather h x (cs ++ runs_of j d) = gather h x cs.
Proof. intros Hr. rewrite gather_app. destruct d; cbn; [|by rewrite app_nil_r]. unfold gather. cbn. rewrite Hr. destruct (j =? x); cbn; by rewrite app_nil_r. Qed.
Lemma gather_same h x cs k i p p' : cs !! k = Some (i, p) -> i <> x \/ h p' = h p -> gather h x (<[k := (i, p')]> cs) = gather h x cs.
Proof.
  intros Hk Hor. unfold gather. rewrite list_fmap_insert. f_equal. apply list_insert_id. rewrite list_lookup_fmap, Hk. cbn. f_equal.
  destruct (Nat.eqb_spec i x); [|done]. by destruct Hor as [| ->].
Qed.
Lemma gather_one h x cs k p m : cs !! k = Some (x, p) -> h p = [m] -> counts (fun p => length (h p)) x cs <= 1 -> gather h x cs = [m].
Proof.
  intros Hk Hm. rewrite <- gather_length. rewrite <- (take_drop_middle cs k _ Hk), !gather_app, !gather_cons, Hm, !length_app.
  cbn [length]. intros Hl. assert (length (gather h x (firstn k cs)) = 0) as ->%nil_length_inv by lia.
  assert (length (gather h x (drop (S k) cs)) = 0) as ->%nil_length_inv by lia. done.
Qed.
Lemma gather_none h x cs : counts (fun p => length (h p)) x cs = 0 -> gather h x cs = [].
Proof. rewrite <- gather_length. apply nil_length_inv. Qed.
Lemma gather_gain h x cs k p p' m : cs !! k = Some (x, p) -> h p = [] -> h p' = [m] ->
  counts (fun p => length (h p)) x (<[k := (x, p')]> cs) <= 1 -> gather h x cs = [] /\ gather h x (<[k := (x, p')]> cs) = [m].
Proof.
  intros Hk Hp Hp' Hl. pose proof (counts_eq (fun p => length (h p)) x cs k p p' Hk) as H. cbn beta in H. rewrite Hp, Hp' in H. cbn in H.
  split; [apply gather_none; lia|]. apply (gather_one h x _ k p'); try done. apply list_lookup_insert_eq. by eapply lookup_lt_Some.
Qed.
Lemma gather_lose h x cs k p p' m : cs !! k = Some (x, p) -> h p = [m] -> h p' = [] ->
  counts (fun p => length (h p)) x cs <= 1 -> gather h x cs = [m] /\ gather h x (<[k := (x, p')]> cs) = [].
Proof.
  intros Hk Hp Hp' Hl. pose proof (counts_eq (fun p => length (h p)) x cs k p p' Hk) as H. cbn beta in H. rewrite Hp, Hp' in H. cbn in H.
  split; [by apply (gather_one h x _ k p)|apply gather_none; lia].
Qed.

(** There is one of each kind at most. *)
Lemma counts_add g h x (cs : list (nat * pc)) : counts (fun p => g p + h p) x cs = counts g x cs + counts h x cs.
Proof. unfold counts. induction cs as [|[i p] cs IH]; cbn; [done|]. rewrite IH. unfold at_proc. cbn. destruct (i =? x); cbn; lia. Qed.
Lemma held_one n s x : inv n s -> x < n -> counts (fun p => length (held p)) x (closures s) <= 1.
Proof.
  intros Hi Hx. rewrite <- (inv_length _ _ Hi) in Hx. destruct (lookup_lt_is_Some_2 _ _ Hx) as [q Hq]. destruct (inv_procs _ _ Hi _ _ Hq).
  assert (counts (fun p => length (held p)) x (closures s) <= counts (fun p => works p + sticks p) x (closures s)).
  { apply counts_le. intros [|[] ?|[]|[]| | | | | | | | | | | |]; cbn; lia. }
  rewrite counts_add in H. pose proof (b2n_le (running q)). lia.
Qed.
Lemma going_one n s x : inv n s -> x < n -> counts (fun p => length (going x p)) x (closures s) <= 1.
Proof.
  intros Hi Hx. rewrite <- (inv_length _ _ Hi) in Hx. destruct (lookup_lt_is_Some_2 _ _ Hx) as [q Hq]. destruct (inv_procs _ _ Hi _ _ Hq).
  assert (counts (fun p => length (going x p)) x (closures s) <= counts (fun p => works p + carries p) x (closures s)).
  { apply counts_le. intros [| | | | | | |[] ?| | | | | | | |]; cbn; lia. }
  rewrite counts_add in H. pose proof (b2n_le (running q)). lia.
Qed.

(** ** Links *)

Definition called_at (x : nat) (ps : list proc) : list V := match ps !! x with Some p => called p | None => [] end.
Definition queue_at (x : nat) (ps : list proc) : list msg := match ps !! x with Some p => queue p | None => [] end.
(** What process [x] got, in order: what it was called with, what it took, its queue. *)
Definition arrived (s : state) (x : nat) : list msg :=
  (Arg <$> called_at x (procs s)) ++ gather held x (closures s) ++ queue_at x (procs s).
(** The results of a process are what the next one got, and what is under way. *)
Definition in_order (s : state) : Prop := forall x, S x < length (procs s) ->
  f x <$> called_at x (procs s) = arrived s (S x) ++ gather (going x) x (closures s).

Lemma at_lookups ps j q : ps !! j = Some q -> called_at j ps = called q /\ queue_at j ps = queue q.
Proof. intros Hj. unfold called_at, queue_at. by rewrite Hj. Qed.
Lemma ats_ne ps j q x : j <> x -> called_at x (<[j := q]> ps) = called_at x ps /\ queue_at x (<[j := q]> ps) = queue_at x ps.
Proof. intros Hne. unfold called_at, queue_at. by rewrite list_lookup_insert_ne. Qed.
Lemma ats_eq ps j p q : ps !! j = Some p -> called_at j (<[j := q]> ps) = called q /\ queue_at j (<[j := q]> ps) = queue q.
Proof. intros Hj. unfold called_at, queue_at. by rewrite list_lookup_insert_eq by (by eapply lookup_lt_Some). Qed.
Lemma called_same ps j p q x : ps !! j = Some p -> called q = called p -> called_at x (<[j := q]> ps) = called_at x ps.
Proof.
  intros Hj Hc. destruct (decide (j = x)) as [<-|]; [|by apply ats_ne].
  by rewrite (proj1 (ats_eq _ _ _ q Hj)), (proj1 (at_lookups _ _ _ Hj)).
Qed.
Lemma queue_same ps j p q x : ps !! j = Some p -> queue q = queue p -> queue_at x (<[j := q]> ps) = queue_at x ps.
Proof.
  intros Hj Hc. destruct (decide (j = x)) as [<-|]; [|by apply ats_ne].
  by rewrite (proj2 (ats_eq _ _ _ q Hj)), (proj2 (at_lookups _ _ _ Hj)).
Qed.

(** Steps that only pass messages on do not change what arrived, nor what is going. *)
Definition calm (s s' : state) : Prop :=
  length (procs s') = length (procs s) /\
  (forall x, called_at x (procs s') = called_at x (procs s)) /\
  (forall x, arrived s' x = arrived s x) /\
  (forall x, S x < length (procs s) -> gather (going x) x (closures s') = gather (going x) x (closures s)).
Lemma calm_in_order s s' : calm s s' -> in_order s -> in_order s'.
Proof. intros (Hl & Hc & Ha & Hg) Ho x Hx. rewrite Hl in Hx. by rewrite Hc, Ha, Hg, (Ho x Hx). Qed.

Lemma calm_moves s k i p p' j q q' d us ts : closures s !! k = Some (i, p) -> procs s !! j = Some q ->
  called q' = called q -> queue q' = queue q -> held p' = held p -> (S i < length (procs s) -> going i p' = going i p) ->
  calm s (mk_state (<[j := q']> (procs s)) (<[k := (i, p')]> (closures s) ++ runs_of j d) us ts).
Proof.
  intros Hk Hj Hc Hq Hh Hg. split_and!; cbn [procs closures].
  - by rewrite length_insert.
  - intros x. by apply (called_same _ _ q).
  - intros x. unfold arrived. cbn [procs closures]. rewrite (called_same _ _ q), (queue_same _ _ q), gather_runs by done.
    by rewrite (gather_same _ _ _ _ i p) by auto.
  - intros x Hx. rewrite gather_runs by done. destruct (decide (i = x)) as [->|]; by apply (gather_same _ _ _ _ _ p); auto.
Qed.
Lemma calm_section s s' k i p p' j q g : closures s !! k = Some (i, p) -> procs s !! j = Some q -> section k i p' j g s = Some s' ->
  called (g q).2 = called q -> queue (g q).2 = queue q -> held p' = held p -> (S i < length (procs s) -> going i p' = going i p) ->
  calm s s'.
Proof. intros Hk Hj Hs. unfold section in Hs. rewrite Hj in Hs. injection Hs as <-. by apply calm_moves. Qed.
Lemma calm_goto s s' k i p p' : closures s !! k = Some (i, p) -> i < length (procs s) -> goto k i p' s = Some s' ->
  held p' = held p -> (S i < length (procs s) -> going i p' = going i p) -> calm s s'.
Proof.
  intros Hk Hl Hs Hh Hg. injection Hs as <-. destruct (lookup_lt_is_Some_2 _ _ Hl) as [q Hq].
  rewrite <- (list_insert_id (procs s) i q Hq) at 1. rewrite <- (app_nil_r (<[k := _]> _)).
  by apply (calm_moves s k i p p' i q q false).
Qed.

(** The three steps that do. *)
Lemma calm_take n s k i q q' m l cts : inv n (mk_state (<[i := q']> (procs s)) (<[k := (i, Popped (Some m) cts)]> (closures s)) (users s) (setters s)) ->
  closures s !! k = Some (i, Run) -> procs s !! i = Some q -> queue q = m :: l -> queue q' = l -> called q' = called q ->
  calm s (mk_state (<[i := q']> (procs s)) (<[k := (i, Popped (Some m) cts)]> (closures s)) (users s) (setters s)).
Proof.
  intros Hi Hk Hq Hm Hl Hc. pose proof (lookup_lt_Some _ _ _ Hq) as Hil. pose proof (inv_length _ _ Hi) as Hn. cbn in Hn. rewrite length_insert in Hn.
  split_and!; cbn [procs closures].
  - by rewrite length_insert.
  - intros x. by apply (called_same _ _ q).
  - intros x. unfold arrived. cbn [procs closures]. rewrite (called_same _ _ q) by done. f_equal. destruct (decide (i = x)) as [<-|].
    + destruct (gather_gain held i (closures s) k Run (Popped (Some m) cts) m) as [-> ->]; [done..|apply (held_one n _ i Hi); lia|].
      by rewrite (proj2 (ats_eq _ _ _ q' Hq)), (proj2 (at_lookups _ _ _ Hq)), Hm, Hl.
    + rewrite (proj2 (ats_ne _ i q' x ltac:(done))). f_equal. apply (gather_same _ _ _ _ _ Run); auto.
  - intros x Hx. apply (gather_same _ _ _ _ i Run); auto.
Qed.
Lemma called_in_order n s k i v q : inv n s ->
  inv n (mk_state (<[i := log_call v q]> (procs s)) (<[k := (i, Calling v)]> (closures s) ++ []) (users s) (setters s)) ->
  closures s !! k = Some (i, Took (Some (Arg v))) -> procs s !! i = Some q ->
  let s' := mk_state (<[i := log_call v q]> (procs s)) (<[k := (i, Calling v)]> (closures s) ++ []) (users s) (setters s) in
  (forall x, arrived s' x = arrived s x) /\ (in_order s -> in_order s').
Proof.
  intros Hi Hi' Hk Hq s'. pose proof (lookup_lt_Some _ _ _ Hq) as Hil. pose proof (inv_length _ _ Hi) as Hn.
  assert (Ha : forall x, arrived s' x = arrived s x).
  { intros x. unfold arrived, s'. cbn [procs closures]. rewrite app_nil_r, (queue_same _ _ q) by done. destruct (decide (i = x)) as [<-|].
    - rewrite (proj1 (ats_eq _ _ _ (log_call v q) Hq)), (proj1 (at_lookups _ _ _ Hq)). cbn [called log_call]. rewrite fmap_app.
      destruct (gather_lose held i (closures s) k (Took (Some (Arg v))) (Calling v) (Arg v)) as [-> ->]; [done..|apply (held_one n _ i Hi); lia|].
      by rewrite <- app_assoc.
    - rewrite (proj1 (ats_ne _ i _ x ltac:(done))). do 2 f_equal. apply (gather_same _ _ _ _ _ (Took (Some (Arg v)))); auto. }
  split; [done|]. intros Ho x Hx. rewrite Ha. revert Hx. unfold s'. cbn [procs closures]. rewrite length_insert, app_nil_r. intros Hx.
  destruct (decide (i = x)) as [<-|].
  - rewrite (proj1 (ats_eq _ _ _ (log_call v q) Hq)). cbn [called log_call]. specialize (Ho i Hx).
    rewrite (proj1 (at_lookups _ _ _ Hq)) in Ho. rewrite fmap_app, Ho.
    destruct (gather_gain (going i) i (closures s) k (Took (Some (Arg v))) (Calling v) (f i v)) as [-> ->]; [done..| |by rewrite app_nil_r].
    pose proof (going_one n _ i Hi' ltac:(lia)) as H. cbn [closures] in H. by rewrite app_nil_r in H.
  - rewrite (proj1 (ats_ne _ i _ x ltac:(done))). rewrite (gather_same _ _ _ _ i (Took (Some (Arg v)))) by auto. by apply Ho.
Qed.
Lemma sent_in_order n s k i d r u : inv n s -> closures s !! k = Some (i, Sending (S d) r) -> procs s !! S i = Some u ->
  let s' := mk_state (<[S i := (enqueue r u).2]> (procs s)) (<[k := (i, OwnCheck)]> (closures s) ++ runs_of (S i) (enqueue r u).1)
    (users s) (setters s) in
  (forall x, x <> S i -> arrived s' x = arrived s x) /\ (in_order s -> in_order s').
Proof.
  intros Hi Hk Hu s'. pose proof (lookup_lt_Some _ _ _ Hu) as Hil. pose proof (inv_length _ _ Hi) as Hn.
  assert (Hh : forall x, gather held x (closures s') = gather held x (closures s)).
  { intros x. unfold s'. cbn [closures]. rewrite gather_runs by done. apply (gather_same _ _ _ _ _ (Sending (S d) r)); auto. }
  assert (Ha : forall x, x <> S i -> arrived s' x = arrived s x).
  { intros x Hx. unfold arrived. rewrite Hh. unfold s'. cbn [procs]. rewrite (called_same _ _ u) by done.
    by rewrite (proj2 (ats_ne _ (S i) _ x ltac:(done))). }
  split; [done|]. intros Ho x Hx. unfold s' in Hx. cbn [procs] in Hx. rewrite length_insert in Hx. specialize (Ho x Hx).
  unfold s' at 1. cbn [procs]. rewrite (called_same _ _ u), Ho by done. destruct (decide (x = i)) as [->|].
  - unfold arrived. rewrite Hh. unfold s'. cbn [procs closures]. rewrite (called_same _ _ u) by done.
    rewrite (proj2 (ats_eq _ _ _ (enqueue r u).2 Hu)), (proj2 (at_lookups _ _ _ Hu)), gather_runs by done. cbn [enqueue snd queue set_queue set_running].
    destruct (gather_lose (going i) i (closures s) k (Sending (S d) r) OwnCheck r) as [-> ->]; [done..|apply (going_one n _ i Hi); lia|].
    by rewrite app_nil_r, <- !app_assoc.
  - rewrite Ha by lia. f_equal. unfold s'. cbn [closures]. rewrite gather_runs by done.
    rewrite (gather_same _ _ _ _ i (Sending (S d) r)); auto.
Qed.

Lemma delivery_step_closure n s s' k : inv n s -> step_closure f 1 k s = Some s' ->
  arrived s' 0 = arrived s 0 /\ (in_order s -> in_order s').
Proof.
  intros Hi Hs. pose proof (inv_step_closure _ _ _ _ _ Hi Hs) as Hi'.
  assert (Hcalm : calm s s' -> arrived s' 0 = arrived s 0 /\ (in_order s -> in_order s')).
  { intros Hc. split; [apply Hc|by apply calm_in_order]. }
  unfold step_closure in Hs. destruct (closures s !! k) as [[i p]|] eqn:Hk; [|done].
  pose proof (Forall_lookup_1 _ _ _ _ (inv_closures _ _ Hi) Hk) as [Hin Hok]. cbn in Hin, Hok.
  pose proof Hin as Hil. rewrite <- (inv_length _ _ Hi) in Hil. destruct (lookup_lt_is_Some_2 _ _ Hil) as [q Hq].
  destruct p as [|m cts|m|[[v|e]|]|v|r|d full r|[|d] r| | | | | | |e|]; try done.
  - rewrite Hq in Hs. cbn in Hs. destruct (queue q) as [|m l] eqn:Hqu.
    + rewrite (take_nil 1 q Hqu) in Hs. injection Hs as <-. apply Hcalm. rewrite <- (app_nil_r (<[k := _]> _)).
      by apply (calm_moves s k i Run _ i q _ false).
    + rewrite (take_cons 1 q m l Hqu) in Hs. injection Hs as <-. apply Hcalm. by apply (calm_take n s k i q _ m l).
  - apply Hcalm. destruct cts; [destruct i as [|j]|].
    + by apply (calm_goto s s' k 0 (Popped m true) (Took m)).
    + destruct (procs s !! j) as [u|]; [|done]. cbn in Hs. destruct (final u).
      * by apply (calm_goto s s' k (S j) (Popped m true) (Took m)).
      * by apply (calm_goto s s' k (S j) (Popped m true) (Upstream m)).
    + by apply (calm_goto s s' k i (Popped m false) (Took m)).
  - apply Hcalm. destruct i as [|j]; [done|]. destruct (procs s !! j) as [u|] eqn:Hu; [|unfold section in Hs; by rewrite Hu in Hs].
    eapply (calm_section s s' k (S j) (Upstream m) (Took m) j u); try done; unfold clear_to_send; by repeat case_match.
  - unfold section in Hs. rewrite Hq in Hs. injection Hs as <-. destruct (called_in_order n s k i v q Hi Hi' Hk Hq) as [Ha Ho]. split; [apply Ha|done].
  - apply Hcalm. by apply (calm_goto s s' k i (Took (Some (Err e))) (Stuck e)).
  - apply Hcalm. rewrite Hq in Hs. cbn in Hs. eapply (calm_section s s' k i (Took None) _ i q); try done; by repeat case_match.
  - apply Hcalm. by apply (calm_goto s s' k i (Calling v) (Broadcast (f i v))).
  - apply Hcalm. by eapply (calm_goto s s' k i (Broadcast r)).
  - apply Hcalm. destruct Hok as [-> ->]. eapply (calm_section s s' k i (Suspend (next_size n i) true r) _ i q); try done.
    unfold next_size. intros Hn. rewrite (inv_length _ _ Hi) in Hn. by rewrite (proj2 (Nat.ltb_lt _ _) Hn).
  - apply Hcalm. apply (calm_goto s s' k i (Sending 0 r) OwnCheck); try done.
  - unfold section in Hs. destruct (procs s !! S i) as [u|] eqn:Hu; [|done]. injection Hs as <-.
    destruct (sent_in_order n s k i d r u Hi Hk Hu) as [Ha Ho]. split; [by apply Ha|done].
  - apply Hcalm. rewrite Hq in Hs. cbn in Hs. destruct (final q); by eapply (calm_goto s s' k i OwnCheck).
  - apply Hcalm. eapply (calm_section s s' k i OwnClear Ended i q); try done; unfold clear_to_send; by repeat case_match.
  - apply Hcalm. destruct (downstream_size i s =? 0); [by eapply (calm_goto s s' k i Clear)|].
    destruct (procs s !! S i) as [u|] eqn:Hu; [|done]. cbn in Hs. eapply (calm_section s s' k i Clear _ (S i) u); try done; by repeat case_match.
  - apply Hcalm. destruct (procs s !! S i) as [u|] eqn:Hu; [|unfold section in Hs; by rewrite Hu in Hs].
    by eapply (calm_section s s' k i ClearLock _ (S i) u).
  - apply Hcalm. by eapply (calm_section s s' k i ClearEnd _ i q).
Qed.

(** ** What the senders sent *)

Definition rest_of (u : user) : list msg := match u with Sends ms => ms | _ => [] end.
(** Every message sent arrives at the first process, once, each sender's in its order. *)
Definition sent_arrives (us : list (list msg)) (s : state) : Prop :=
  Permutation (concat us) (arrived s 0 ++ concat (rest_of <$> users s)) /\
  Forall2 (fun ms u => exists sent, ms = sent ++ rest_of u /\ sublist sent (arrived s 0)) us (users s).

Lemma outside_moves s j q q' d us ts : procs s !! j = Some q -> called q' = called q ->
  let s' := mk_state (<[j := q']> (procs s)) (closures s ++ runs_of j d) us ts in
  (forall x, x <> j \/ queue q' = queue q -> arrived s' x = arrived s x) /\
  (j = 0 \/ queue q' = queue q -> in_order s -> in_order s').
Proof.
  intros Hj Hc s'.
  assert (Ha : forall x, x <> j \/ queue q' = queue q -> arrived s' x = arrived s x).
  { intros x Hx. unfold arrived, s'. cbn [procs closures]. rewrite (called_same _ _ q), gather_runs by done. do 2 f_equal.
    destruct Hx as [Hx|Hx]; [by apply ats_ne|by apply (queue_same _ _ q)]. }
  split; [done|]. intros Hor Ho x Hx. rewrite Ha by (destruct Hor as [-> |]; auto). unfold s' in *. cbn [procs closures] in *.
  rewrite length_insert in Hx. rewrite (called_same _ _ q), gather_runs by done. by apply Ho.
Qed.

Lemma arrives_insert us s s' c u u' extra : sent_arrives us s -> users s !! c = Some u -> users s' = <[c := u']> (users s) ->
  rest_of u = extra ++ rest_of u' -> arrived s' 0 = arrived s 0 ++ extra -> sent_arrives us s'.
Proof.
  intros [Hp Hf] Hc Hu Hr Ha. unfold sent_arrives. rewrite Hu, Ha. split.
  - rewrite Hp. rewrite <- (take_drop_middle (users s) c u Hc) at 1. rewrite insert_take_drop by (by eapply lookup_lt_Some).
    rewrite !fmap_app, !fmap_cons, !concat_app. cbn [concat]. rewrite Hr, <- !app_assoc. apply Permutation_app_head.
    rewrite !(Permutation_app_comm (concat (rest_of <$> firstn c (users s)))), <- !app_assoc. done.
  - apply Forall2_same_length_lookup_2; [rewrite length_insert; by eapply Forall2_length|]. intros i ms v Hi Hv.
    destruct (decide (c = i)) as [<-|].
    + rewrite list_lookup_insert_eq in Hv by (by eapply lookup_lt_Some). injection Hv as <-.
      destruct (Forall2_lookup_lr _ _ _ _ _ _ Hf Hi Hc) as (sent & -> & Hs). exists (sent ++ extra). rewrite Hr, app_assoc.
      split; [done|by apply sublist_app].
    + rewrite list_lookup_insert_ne in Hv by done. destruct (Forall2_lookup_lr _ _ _ _ _ _ Hf Hi Hv) as (sent & -> & Hs).
      exists sent. split; [done|]. by apply sublist_inserts_r.
Qed.

Lemma delivery_step_user us s s' c : step_user c s = Some s' -> in_order s -> sent_arrives us s -> in_order s' /\ sent_arrives us s'.
Proof.
  intros Hs Ho Ha. unfold step_user in Hs. destruct (users s !! c) as [u|] eqn:Hc; [|done].
  destruct u as [[|m ms]| |]; [..|done]; destruct (procs s !! 0) as [q|] eqn:Hq; try done; cbn in Hs; injection Hs as <-.
  - destruct (outside_moves s 0 q (set_counts (sender_count q - 1) (receiver_count q) q) false
      (<[c := if sender_count q - 1 =? 0 then LastSender else Closed]> (users s)) (setters s) Hq eq_refl) as [Hx Hio].
    split; [apply Hio; auto|]. eapply (arrives_insert us s _ c _ _ []); [done|done|done|by case_match|rewrite (app_nil_r (arrived s 0)); apply Hx; auto].
  - destruct (outside_moves s 0 q (enqueue m q).2 (enqueue m q).1 (<[c := Sends ms]> (users s)) (setters s) Hq eq_refl) as [Hx Hio].
    split; [apply Hio; auto|]. eapply (arrives_insert us s _ c _ _ [m]); [done|done|done|done|]. unfold arrived. cbn [procs closures].
    rewrite (called_same _ _ q), gather_runs, (proj2 (ats_eq _ _ _ _ Hq)), (proj2 (at_lookups _ _ _ Hq)) by done.
    cbn [queue set_queue set_running]. by rewrite <- !app_assoc.
  - destruct (outside_moves s 0 q (close_sender q).2 (close_sender q).1 (<[c := Closed]> (users s)) (setters s) Hq eq_refl) as [Hx Hio].
    split; [apply Hio; auto|]. eapply (arrives_insert us s _ c _ _ []); [done|done|done|done|rewrite (app_nil_r (arrived s 0)); apply Hx; auto].
Qed.
Lemma delivery_step_setter us s s' c : step_setter c s = Some s' -> in_order s -> sent_arrives us s -> in_order s' /\ sent_arrives us s'.
Proof.
  intros Hs Ho Ha.
  assert (Hk : forall j q q' d ts, procs s !! j = Some q -> called q' = called q -> queue q' = queue q ->
    let s1 := mk_state (<[j := q']> (procs s)) (closures s ++ runs_of j d) (users s) ts in in_order s1 /\ sent_arrives us s1).
  { intros j q q' d ts Hj Hc Hq. destruct (outside_moves s j q q' d (users s) ts Hj Hc) as [Hx Hio]. split; [apply Hio; auto|].
    unfold sent_arrives. cbn [users]. rewrite Hx by auto. done. }
  unfold step_setter in Hs. destruct (setters s !! c) as [[j|j|]|]; [..|done|done];
    destruct (procs s !! j) as [q|] eqn:Hj; try done; cbn in Hs; injection Hs as <-.
  - by apply (Hk j q _ false).
  - by apply (Hk j q).
Qed.

Lemma step_closure_users b k s s' : step_closure f b k s = Some s' -> users s' = users s.
Proof.
  unfold step_closure, section, goto. intros H.
  repeat first [discriminate H|injection H as <-|apply bind_Some in H as (? & _ & H)|case_match]; done.
Qed.
Lemma delivery_start n us : in_order (start n us) /\ sent_arrives us (start n us).
Proof.
  assert (Hc : forall x, called_at x (procs (start n us)) = [] /\ queue_at x (procs (start n us)) = []).
  { intros x. destruct (procs (start n us) !! x) as [p|] eqn:Hp; [|unfold called_at, queue_at; by rewrite Hp].
    destruct (at_lookups _ _ _ Hp) as [-> ->]. by apply start_lookup in Hp as [-> _]. }
  assert (Ha : forall x, arrived (start n us) x = []).
  { intros x. unfold arrived. by rewrite (proj1 (Hc x)), (proj2 (Hc x)). }
  split; [intros x _; by rewrite Ha, (proj1 (Hc x))|]. unfold sent_arrives. rewrite Ha. cbn [start users]. split.
  - rewrite <- list_fmap_compose. cbn [app]. by rewrite list_fmap_id.
  - apply Forall2_fmap_r, Forall_Forall2_diag, Forall_true. intros ms. exists []. split; [done|constructor].
Qed.
Lemma delivery_reached n u us s : rtc (step f 1) (start n (u :: us)) s -> inv n s /\ in_order s /\ sent_arrives (u :: us) s.
Proof.
  intros Hr. assert (Hi : inv n (start n (u :: us))) by apply chain_inv_start.
  destruct (delivery_start n (u :: us)) as [Ho Ha]. revert Hi Ho Ha. induction Hr as [|s1 s2 s3 Hs Hr IH]; [done|]. intros Hi Ho Ha.
  destruct Hs as [k s s' H|c s s' H|c s s' H].
  - destruct (delivery_step_closure n s s' k Hi H) as [Hz Ho']. apply IH; [by eapply inv_step_closure|auto|].
    unfold sent_arrives. rewrite Hz. by rewrite (step_closure_users 1 k s s' H).
  - destruct (delivery_step_user _ s s' c H Ho Ha). apply IH; [by eapply inv_step_user|done|done].
  - destruct (delivery_step_setter _ s s' c H Ho Ha). apply IH; [by eapply inv_step_setter|done|done].
Qed.

(** ** Nothing is left behind *)

Lemma closure_moves n s k i p : inv n s -> closures s !! k = Some (i, p) ->
  p = Ended \/ (exists e, p = Stuck e) \/ is_Some (step_closure f 1 k s).
Proof.
  intros Hi Hk. pose proof (Forall_lookup_1 _ _ _ _ (inv_closures _ _ Hi) Hk) as [Hin Hok]. cbn in Hin, Hok.
  pose proof Hin as Hil. rewrite <- (inv_length _ _ Hi) in Hil. destruct (lookup_lt_is_Some_2 _ _ Hil) as [q Hq].
  assert (Hdown : S i < n -> exists u, procs s !! S i = Some u).
  { intros H. rewrite <- (inv_length _ _ Hi) in H. by destruct (lookup_lt_is_Some_2 _ _ H) as [u Hu]; exists u. }
  assert (Hup : forall j, i = S j -> exists u, procs s !! j = Some u).
  { intros j ->. destruct (lookup_lt_is_Some_2 (procs s) j) as [u Hu]; [lia|by exists u]. }
  unfold step_closure, section, goto. rewrite Hk.
  destruct p as [|m cts|m|[[v|e]|]|v|r|d full r|[|d] r| | | | | | |e|]; try (rewrite Hq; cbn); eauto.
  - destruct (queue q) as [|m l] eqn:Hqu; [rewrite (take_nil 1 q Hqu)|rewrite (take_cons 1 q m l Hqu)]; cbn; eauto.
  - destruct cts; [destruct i as [|j]; [eauto|]|eauto]. destruct (Hup j eq_refl) as [u ->]. cbn. eauto.
  - destruct i as [|j]; [by destruct Hok|]. destruct (Hup j eq_refl) as [u ->]. cbn. eauto.
  - destruct Hdown as [u ->]; [|cbn; eauto]. revert Hok. unfold next_size. case_match; intros; [by apply Nat.ltb_lt|done].
  - rewrite (downstream_next n s i Hi). unfold next_size. destruct (Nat.ltb_spec (S i) n); cbn; [|eauto].
    destruct Hdown as [u ->]; [done|cbn; eauto].
  - destruct Hdown as [u ->]; [done|cbn; eauto].
  - done.
Qed.

(** No function throws, and no sender sends an exception. *)
Definition no_exceptions (us : list (list msg)) : Prop :=
  (forall i v, exists w, f i v = Arg w) /\ Forall (Forall (fun m : msg => exists v, m = Arg v)) us.

Lemma in_gather h cs k i p m : cs !! k = Some (i, p) -> m ∈ h p -> m ∈ gather h i cs.
Proof.
  intros Hk Hm. rewrite <- (take_drop_middle cs k _ Hk), gather_app, gather_cons, !elem_of_app. auto.
Qed.
Lemma never_stuck us s k i e : no_exceptions us -> in_order s -> sent_arrives us s -> i < length (procs s) ->
  closures s !! k <> Some (i, Stuck e).
Proof.
  intros [Hf Hu] Ho [Hp _] Hi Hk.
  assert (Hin : Err e ∈ arrived s i).
  { unfold arrived. rewrite !elem_of_app. right; left. apply (in_gather held _ k _ (Stuck e)); [done|by left]. }
  destruct i as [|x].
  - assert (Hin' : Err e ∈ concat us) by (rewrite Hp, elem_of_app; by left).
    apply list_elem_of_In, in_concat in Hin' as (ms & Hms & Hin'). apply list_elem_of_In in Hms, Hin'.
    pose proof (proj1 (Forall_forall _ _) (proj1 (Forall_forall _ _) Hu ms Hms) _ Hin') as [v Hv]. done.
  - assert (Hin' : Err e ∈ f x <$> called_at x (procs s)) by (rewrite (Ho x Hi), elem_of_app; by left).
    apply list_elem_of_fmap in Hin' as (v & Hv & _). destruct (Hf x v) as [w Hw]. by rewrite Hw in Hv.
Qed.

(** Where nothing moves: the closures have ended, the senders are closed, the receivers ready. *)
Record rested (n : nat) (s : state) : Prop := mk_rested {
  rest_inv : inv n s;
  rest_closures : forall g x, g Ended = 0 -> counts g x (closures s) = 0;
  rest_users : n <> 0 -> Forall (fun u => u = Closed) (users s);
  rest_setters : forall x, x < n -> waits_of x s = 0 /\ late_of x s = 0
}.
Lemma counts_zero g x (cs : list (nat * pc)) : (forall k i p, cs !! k = Some (i, p) -> g p = 0) -> counts g x cs = 0.
Proof.
  intros H. unfold counts. induction cs as [|[i p] cs IH]; cbn; [done|]. rewrite IH by (intros k; apply (H (S k))).
  unfold at_proc. cbn. rewrite (H 0 i p) by done. lia.
Qed.
Lemma rested_state n us s : inv n s -> in_order s -> sent_arrives us s -> no_exceptions us -> (forall s', ~ step f 1 s s') -> rested n s.
Proof.
  intros Hi Ho Ha Hne Hs. constructor; [done|..].
  - intros g x Hg. apply counts_zero. intros k i p Hk. destruct (closure_moves n s k i p Hi Hk) as [->|[[e ->]|[s' Hs']]]; [done|exfalso..].
    + pose proof (Forall_lookup_1 _ _ _ _ (inv_closures _ _ Hi) Hk) as [Hin _]. cbn in Hin. rewrite <- (inv_length _ _ Hi) in Hin.
      by apply (never_stuck us s k i e).
    + by apply (Hs s'), (step_by_closure f 1 k).
  - intros Hn. destruct (lookup_lt_is_Some_2 (procs s) 0) as [q Hq]; [rewrite (inv_length _ _ Hi); lia|].
    apply Forall_lookup_2. intros c u Hc. destruct u as [[|m ms]| |]; [exfalso..|done];
      (eapply Hs, (step_by_user f 1 c)); unfold step_user; rewrite Hc, Hq; cbn; reflexivity.
  - intros x Hx. rewrite <- (inv_length _ _ Hi) in Hx. destruct (lookup_lt_is_Some_2 _ _ Hx) as [q Hq].
    split; apply sum_zero, Forall_lookup_2; intros c [y|y|] Hc; cbn; try done; destruct (Nat.eqb_spec y x) as [->|]; try done; exfalso;
      (eapply Hs, (step_by_setter f 1 c)); unfold step_setter; rewrite Hc, Hq; cbn; reflexivity.
Qed.

Lemma rested_queues n s : rested n s -> forall d x p, n - x = d -> procs s !! x = Some p ->
  queue p = [] /\ close_queue p = false.
Proof.
  intros [Hi Hc _ Ht]. induction d as [d IH] using lt_wf_ind. intros x p Hd Hp. pose proof (lookup_lt_Some _ _ _ Hp) as Hx.
  rewrite (inv_length _ _ Hi) in Hx. destruct (inv_procs _ _ Hi _ _ Hp).
  assert (Hq : qlen (S x) (procs s) = 0).
  { unfold qlen. destruct (procs s !! S x) as [q|] eqn:Hq; [|done]. pose proof (lookup_lt_Some _ _ _ Hq).
    rewrite (inv_length _ _ Hi) in *. by destruct (IH (n - S x) ltac:(lia) (S x) q eq_refl Hq) as [-> _]. }
  rewrite !Hc, Hq in pi_suspend by done. rewrite !Hc, pi_suspend in pi_running by done.
  destruct (Ht x Hx) as [Hw Hl]. destruct (running p); [cbn in pi_running; lia|]. specialize (pi_idle eq_refl ltac:(lia)).
  split; [apply nil_length_inv; lia|]. destruct (close_queue p); [cbn in pi_idle; lia|done].
Qed.
Lemma rested_final n s : rested n s -> forall x p, procs s !! x = Some p -> final p = true /\ engaged p = false.
Proof.
  intros Hr. pose proof Hr as [Hi Hc Hu Ht]. assert (Hn : forall x p, procs s !! x = Some p -> final p = true).
  { induction x as [|x IH]; intros p Hp; pose proof (lookup_lt_Some _ _ _ Hp) as Hx; rewrite (inv_length _ _ Hi) in Hx;
      destruct (inv_procs _ _ Hi _ _ Hp), (rested_queues n s Hr _ _ p eq_refl Hp) as [_ Hcl]; cbn in *; rewrite Hcl in pi_lasts.
    - assert (Hz : forall g, g Closed = 0 -> sum_list_with g (users s) = 0).
      { intros g Hg. apply sum_zero. eapply Forall_impl; [apply Hu; lia|]. by intros u ->. }
      rewrite Hz in pi_lasts by done. rewrite Hz in pi_senders by done. rewrite pi_senders in pi_lasts.
      destruct (final p); [done|by cbn in pi_lasts].
    - destruct (lookup_lt_is_Some_2 (procs s) x) as [q Hq]; [rewrite (inv_length _ _ Hi); lia|].
      destruct pi_senders as [Hs _]. rewrite (proj2 (at_lookup _ _ _ Hq)) in Hs. rewrite Hs, !Hc in pi_lasts by (done || by apply (IH q)).
      destruct (final p); [done|by cbn in pi_lasts]. }
  intros x p Hp. split; [by eapply Hn|]. pose proof (pi_reset _ _ _ (inv_procs _ _ Hi _ _ Hp) (Hn _ _ Hp)) as H.
  rewrite !Hc in H by done. destruct (engaged p); [cbn in H; lia|done].
Qed.

(** ** Every run ends

    A message in the queue of process [x] costs [message_cost x] steps at most, the
    end of the process [end_cost x], and a started closure one more than it finds. *)
Section ends.
Context (n : nat).

Definition message_cost (x : nat) : nat := 12 * (n - x).
Definition end_cost (x : nat) : nat := 7 * (n - x).
Definition pc_cost (i : nat) (p : pc) : nat :=
  match p with
  | Run => 1
  | Popped None _ => end_cost (S i) + 7
  | Took None => end_cost (S i) + 6
  | Clear => end_cost (S i) + 4
  | ClearLock => end_cost (S i) + 3
  | ClearEnd => 1
  | Popped _ _ => message_cost (S i) + 12
  | Upstream _ => message_cost (S i) + 11
  | Took _ => message_cost (S i) + 9
  | Calling _ => message_cost (S i) + 8
  | Broadcast _ => message_cost (S i) + 7
  | Suspend _ _ _ => message_cost (S i) + 6
  | Sending _ _ => message_cost (S i) + 5
  | OwnCheck => 3
  | OwnClear => 2
  | Ended | Stuck _ | Asserted => 0
  end.
Definition proc_cost (x : nat) (p : proc) : nat := length (queue p) * message_cost x + Nat.b2n (close_queue p) * end_cost x.
Fixpoint procs_cost (x : nat) (ps : list proc) : nat := match ps with [] => 0 | p :: ps => proc_cost x p + procs_cost (S x) ps end.
Definition user_cost (u : user) : nat :=
  match u with Sends ms => length ms * (message_cost 0 + 2) + end_cost 0 + 3 | LastSender => end_cost 0 + 2 | Closed => 0 end.
(** The length of the longest run, at most. *)
Definition longest_run (us : list (list msg)) : nat :=
  sum_list_with (fun ms => length ms * (12 * n + 2) + 7 * n + 3) us + 3 * (n - 1).
Definition setter_cost (t : setter) : nat := match t with SetReady _ => 3 | LastReceiver _ => 2 | Ready => 0 end.
Definition steps_left (s : state) : nat :=
  sum_list_with (fun c => pc_cost c.1 c.2) (closures s) + procs_cost 0 (procs s)
  + sum_list_with user_cost (users s) + sum_list_with setter_cost (setters s).

Lemma procs_cost_insert ps : forall x j p q, ps !! j = Some p ->
  procs_cost x (<[j := q]> ps) + proc_cost (x + j) p = procs_cost x ps + proc_cost (x + j) q.
Proof.
  induction ps as [|p0 ps IH]; intros x [|j] p q Hj; [done..| |].
  - injection Hj as ->. rewrite Nat.add_0_r. cbn [insert list_insert procs_cost]. lia.
  - specialize (IH (S x) j p q Hj). change (<[S j := q]> (p0 :: ps)) with (p0 :: <[j := q]> ps). cbn [procs_cost]. rewrite !Nat.add_succ_r, !Nat.add_succ_l in *. lia.
Qed.
Lemma closures_cost_move cs k i p p' j d : cs !! k = Some (i, p) ->
  sum_list_with (fun c => pc_cost c.1 c.2) (<[k := (i, p')]> cs ++ runs_of j d) + pc_cost i p
    = sum_list_with (fun c => pc_cost c.1 c.2) cs + pc_cost i p' + Nat.b2n d.
Proof.
  intros Hk. rewrite sum_list_with_app. pose proof (sum_with_insert (fun c => pc_cost c.1 c.2) cs k _ (i, p') Hk) as H. cbn in H.
  destruct d; cbn; lia.
Qed.
Lemma next_costs x : x < n -> message_cost x = message_cost (S x) + 12 /\ end_cost x = end_cost (S x) + 7.
Proof. unfold message_cost, end_cost. lia. Qed.
Lemma proc_cost_enqueue x m p : proc_cost x (enqueue m p).2 = proc_cost x p + message_cost x.
Proof. unfold proc_cost. cbn. rewrite length_app. cbn. lia. Qed.
Lemma proc_cost_close x p : proc_cost x (close_sender p).2 <= proc_cost x p + end_cost x.
Proof. unfold proc_cost. cbn. destruct (close_queue p); cbn; lia. Qed.

Lemma cheaper_section s s' k i p p' j q g : closures s !! k = Some (i, p) -> procs s !! j = Some q -> section k i p' j g s = Some s' ->
  pc_cost i p' + proc_cost j (g q).2 + Nat.b2n (g q).1 < pc_cost i p + proc_cost j q -> steps_left s' < steps_left s.
Proof.
  intros Hk Hj Hs Hlt. unfold section in Hs. rewrite Hj in Hs. injection Hs as <-. unfold steps_left. cbn [closures procs users setters].
  pose proof (closures_cost_move (closures s) k i p p' j (g q).1 Hk). pose proof (procs_cost_insert (procs s) 0 j q (g q).2 Hj). cbn in *. lia.
Qed.
Lemma cheaper_move s k i p p' q q' : closures s !! k = Some (i, p) -> procs s !! i = Some q ->
  pc_cost i p' + proc_cost i q' < pc_cost i p + proc_cost i q ->
  steps_left (mk_state (<[i := q']> (procs s)) (<[k := (i, p')]> (closures s)) (users s) (setters s)) < steps_left s.
Proof.
  intros Hk Hq Hlt. unfold steps_left. cbn [closures procs users setters].
  pose proof (closures_cost_move (closures s) k i p p' i false Hk) as H. rewrite app_nil_r in H.
  pose proof (procs_cost_insert (procs s) 0 i q q' Hq). cbn in *. lia.
Qed.
Lemma cheaper_goto s s' k i p p' : closures s !! k = Some (i, p) -> goto k i p' s = Some s' -> pc_cost i p' < pc_cost i p ->
  steps_left s' < steps_left s.
Proof.
  intros Hk Hs Hlt. injection Hs as <-. unfold steps_left. cbn [closures procs users setters].
  pose proof (closures_cost_move (closures s) k i p p' 0 false Hk) as H. rewrite app_nil_r in H. cbn in H. lia.
Qed.

Ltac cheap := cbn [pc_cost fst snd]; try lia.
Lemma cheaper_step_closure s s' k : inv n s -> step_closure f 1 k s = Some s' -> steps_left s' < steps_left s.
Proof.
  intros Hi Hs. unfold step_closure in Hs. destruct (closures s !! k) as [[i p]|] eqn:Hk; [|done].
  pose proof (Forall_lookup_1 _ _ _ _ (inv_closures _ _ Hi) Hk) as [Hin Hok]. cbn in Hin, Hok.
  pose proof Hin as Hil. rewrite <- (inv_length _ _ Hi) in Hil. destruct (lookup_lt_is_Some_2 _ _ Hil) as [q Hq].
  destruct (next_costs i Hin) as [Hm He].
  assert (Hclear : forall j u, proc_cost j (clear_to_send u).2 = proc_cost j u /\ Nat.b2n (clear_to_send u).1 <= 1).
  { intros j u. unfold clear_to_send. repeat case_match; cbn; auto. }
  destruct p as [|m cts|m|[[v|e]|]|v|r|d full r|[|d] r| | | | | | |e|]; try done.
  - rewrite Hq in Hs. cbn in Hs. destruct (queue q) as [|m l] eqn:Hqu.
    + rewrite (take_nil 1 q Hqu) in Hs. injection Hs as <-. pose proof (pi_begins _ _ _ (inv_procs _ _ Hi _ _ Hq)) as Hb.
      pose proof (counts_in begins _ _ _ _ Hk) as H1. rewrite Hqu in Hb. cbn in Hb, H1. destruct (close_queue q) eqn:Hc; [|cbn in Hb; lia].
      apply (cheaper_move s k i Run (Popped None false) q (set_close false true q) Hk Hq). unfold proc_cost. cbn. rewrite Hqu, Hc. cbn. lia.
    + rewrite (take_cons 1 q m l Hqu) in Hs. injection Hs as <-. apply (cheaper_move s k i Run _ q _ Hk Hq).
      unfold proc_cost. cbn. rewrite Hqu. cbn. lia.
  - destruct m as [m|]; (destruct cts; [destruct i as [|j]; [|destruct (procs s !! j) as [u|]; [|done]; cbn in Hs; destruct (final u)]|]);
      (eapply cheaper_goto; [done|done|cheap]).
  - destruct i as [|j]; [done|]. destruct m as [m|]; [|by destruct Hok].
    destruct (procs s !! j) as [u|] eqn:Hu; [|unfold section in Hs; by rewrite Hu in Hs].
    eapply (cheaper_section s s' k (S j) _ _ j u); [done|done|done|]. destruct (Hclear j u) as [-> ?]. cheap.
  - eapply cheaper_section; [done|done|done|]. change (proc_cost i (log_call v q)) with (proc_cost i q). unfold proc_cost. cbn. lia.
  - eapply cheaper_goto; [done|done|cheap].
  - rewrite Hq in Hs. cbn in Hs. eapply cheaper_section; [done|done|done|]. change (proc_cost i (task_done q).2) with (proc_cost i q).
    pose proof (b2n_le (task_done q).1). destruct (final q); [destruct (negb (idle q))|]; cheap.
  - eapply cheaper_goto; [done|done|cheap].
  - eapply cheaper_goto; [done|done|cheap].
  - eapply cheaper_section; [done|done|done|]. unfold proc_cost. cbn. lia.
  - eapply cheaper_goto; [done|done|cheap].
  - destruct (procs s !! S i) as [u|] eqn:Hu; [|unfold section in Hs; by rewrite Hu in Hs].
    eapply (cheaper_section s s' k i _ _ (S i) u); [done|done|done|]. rewrite proc_cost_enqueue. pose proof (b2n_le (enqueue r u).1). cheap.
  - rewrite Hq in Hs. cbn in Hs. destruct (final q); (eapply cheaper_goto; [done|done|cheap]).
  - eapply cheaper_section; [done|done|done|]. destruct (Hclear i q) as [-> ?]. cheap.
  - destruct (downstream_size i s =? 0); [eapply cheaper_goto; [done|done|cheap]|].
    destruct (procs s !! S i) as [u|] eqn:Hu; [|done]. cbn in Hs. eapply (cheaper_section s s' k i Clear _ (S i) u); [done|done|done|].
    unfold proc_cost. cbn. case_match; cbn; lia.
  - destruct (procs s !! S i) as [u|] eqn:Hu; [|unfold section in Hs; by rewrite Hu in Hs].
    eapply (cheaper_section s s' k i ClearLock _ (S i) u); [done|done|done|]. pose proof (proc_cost_close (S i) u). pose proof (b2n_le (close_sender u).1). cheap.
  - eapply cheaper_section; [done|done|done|]. unfold proc_cost. cbn. lia.
Qed.

Lemma outside_cost s j q q' d us ts : procs s !! j = Some q ->
  steps_left (mk_state (<[j := q']> (procs s)) (closures s ++ runs_of j d) us ts) + proc_cost j q
    + sum_list_with user_cost (users s) + sum_list_with setter_cost (setters s)
  = steps_left s + proc_cost j q' + Nat.b2n d + sum_list_with user_cost us + sum_list_with setter_cost ts.
Proof.
  intros Hj. unfold steps_left. cbn [closures procs users setters]. rewrite sum_list_with_app.
  pose proof (procs_cost_insert (procs s) 0 j q q' Hj) as H. cbn [Nat.add] in H. destruct d; cbn; lia.
Qed.
Ltac as_outside H := match type of H with ?X + _ + _ + _ = _ => match goal with |- _ < ?Y => change (X < Y) end; lia end.
Lemma cheaper_step_user s s' c : step_user c s = Some s' -> steps_left s' < steps_left s.
Proof.
  intros Hs. unfold step_user in Hs. destruct (users s !! c) as [u|] eqn:Hc; [|done].
  destruct u as [[|m ms]| |]; [..|done]; destruct (procs s !! 0) as [q|] eqn:Hq; try done; cbn [mbind option_bind] in Hs; injection Hs as <-.
  - pose proof (fun u' => outside_cost s 0 q (set_counts (sender_count q - 1) (receiver_count q) q) false (<[c := u']> (users s)) (setters s) Hq) as H.
    pose proof (fun u' => sum_with_insert user_cost (users s) c _ u' Hc) as Hu.
    change (proc_cost 0 (set_counts _ _ q)) with (proc_cost 0 q) in H. cbn [fst snd].
    destruct (sender_count q - 1 =? 0); [specialize (H LastSender); specialize (Hu LastSender)|specialize (H Closed); specialize (Hu Closed)];
      cbn [user_cost length Nat.b2n runs_of] in *; lia.
  - pose proof (outside_cost s 0 q (enqueue m q).2 (enqueue m q).1 (<[c := Sends ms]> (users s)) (setters s) Hq) as H.
    pose proof (sum_with_insert user_cost (users s) c _ (Sends ms) Hc) as Hu. rewrite proc_cost_enqueue in H. cbn [user_cost length] in Hu.
    pose proof (b2n_le (enqueue m q).1). rewrite Nat.mul_succ_l in Hu. as_outside H.
  - pose proof (outside_cost s 0 q (close_sender q).2 (close_sender q).1 (<[c := Closed]> (users s)) (setters s) Hq) as H.
    pose proof (sum_with_insert user_cost (users s) c _ Closed Hc) as Hu. pose proof (proc_cost_close 0 q). pose proof (b2n_le (close_sender q).1).
    cbn [user_cost] in Hu. as_outside H.
Qed.
Lemma cheaper_step_setter s s' c : step_setter c s = Some s' -> steps_left s' < steps_left s.
Proof.
  intros Hs. unfold step_setter in Hs. destruct (setters s !! c) as [t|] eqn:Hc; [|done].
  destruct t as [j|j|]; [..|done]; destruct (procs s !! j) as [q|] eqn:Hq; try done; cbn [mbind option_bind] in Hs; injection Hs as <-.
  - pose proof (fun t => outside_cost s j q (set_counts (sender_count q) (receiver_count q - 1) q) false (users s) (<[c := t]> (setters s)) Hq) as H.
    pose proof (fun t => sum_with_insert setter_cost (setters s) c _ t Hc) as Ht.
    change (proc_cost j (set_counts _ _ q)) with (proc_cost j q) in H. cbn [fst snd].
    destruct (receiver_count q - 1 =? 0); [specialize (H (LastReceiver j)); specialize (Ht (LastReceiver j))|specialize (H Ready); specialize (Ht Ready)];
      cbn [setter_cost Nat.b2n runs_of] in *; lia.
  - pose proof (outside_cost s j q (receivers_gone q).2 (receivers_gone q).1 (users s) (<[c := Ready]> (setters s)) Hq) as H.
    pose proof (sum_with_insert setter_cost (setters s) c _ Ready Hc) as Ht. pose proof (b2n_le (receivers_gone q).1).
    change (proc_cost j (receivers_gone q).2) with (proc_cost j q) in H. cbn [setter_cost] in *. as_outside H.
Qed.

Lemma cheaper_step s s' : inv n s -> step f 1 s s' -> steps_left s' < steps_left s.
Proof. intros Hi Hs. destruct Hs as [k ? ? H|c ? ? H|c ? ? H]; [by eapply cheaper_step_closure|by eapply cheaper_step_user|by eapply cheaper_step_setter]. Qed.
Lemma inv_step s s' : inv n s -> step f 1 s s' -> inv n s'.
Proof. intros Hi Hs. destruct Hs as [k ? ? H|c ? ? H|c ? ? H]; [by eapply inv_step_closure|by eapply inv_step_user|by eapply inv_step_setter]. Qed.
Lemma nsteps_cost k s s' : inv n s -> nsteps (step f 1) k s s' -> k + steps_left s' <= steps_left s.
Proof.
  intros Hi Hn. revert Hi. induction Hn as [|k s1 s2 s3 Hs Hn IH]; intros Hi; [lia|].
  pose proof (cheaper_step _ _ Hi Hs). specialize (IH (inv_step _ _ Hi Hs)). lia.
Qed.
Lemma procs_cost_fresh ps : forall x, Forall (fun p => queue p = [] /\ close_queue p = false) ps -> procs_cost x ps = 0.
Proof.
  induction ps as [|p ps IH]; intros x Hf; [done|]. apply Forall_cons in Hf as [[Hq Hc] Hf]. cbn. rewrite IH by done.
  unfold proc_cost. by rewrite Hq, Hc.
Qed.
Lemma sum_list_const {A} (g : A -> nat) c l : (forall a, g a = c) -> sum_list_with g l = c * length l.
Proof. intros H. induction l as [|a l IH]; cbn; [|rewrite IH, H]; lia. Qed.
Lemma chain_cost_start us : steps_left (start n us) = longest_run us.
Proof.
  unfold steps_left, longest_run. assert (procs_cost 0 (procs (start n us)) = 0) as ->.
  { apply procs_cost_fresh, Forall_lookup_2. intros x p Hp. apply start_lookup in Hp as [-> _]. done. }
  cbn [start closures users setters]. rewrite !sum_with_fmap. cbn [user_cost setter_cost]. unfold message_cost, end_cost. rewrite !Nat.sub_0_r.
  rewrite (sum_list_const (fun _ : nat => 3) 3) by done. rewrite length_seq. cbn. lia.
Qed.

(** Whether somebody can move. *)
Lemma step_dec s : (exists s', step f 1 s s') \/ forall s', ~ step f 1 s s'.
Proof.
  destruct (decide (Exists (fun k => is_Some (step_closure f 1 k s)) (seq 0 (length (closures s))))) as [H|Hc].
  { apply Exists_exists in H as (k & _ & s' & H). left. exists s'. by eapply step_by_closure. }
  destruct (decide (Exists (fun k => is_Some (step_user k s)) (seq 0 (length (users s))))) as [H|Hu].
  { apply Exists_exists in H as (k & _ & s' & H). left. exists s'. by eapply step_by_user. }
  destruct (decide (Exists (fun k => is_Some (step_setter k s)) (seq 0 (length (setters s))))) as [H|Ht].
  { apply Exists_exists in H as (k & _ & s' & H). left. exists s'. by eapply step_by_setter. }
  right. intros s' Hs. destruct Hs as [k ? ? H|k ? ? H|k ? ? H]; [apply Hc|apply Hu|apply Ht]; apply Exists_exists; exists k;
    (split; [|by eexists]); apply elem_of_seq; (split; [lia|]); cbn; apply lookup_lt_is_Some_1.
  - unfold step_closure in H. destruct (closures _ !! k); [by eexists|done].
  - unfold step_user in H. destruct (users _ !! k); [by eexists|done].
  - unfold step_setter in H. destruct (setters _ !! k); [by eexists|done].
Qed.
Lemma chain_comes_to_rest m : forall s, inv n s -> steps_left s <= m -> exists s', rtc (step f 1) s s' /\ forall s'', ~ step f 1 s' s''.
Proof.
  induction m as [|m IH]; intros s Hi Hm; (destruct (step_dec s) as [[s1 H1]|Hs]; [|by exists s]); pose proof (cheaper_step _ _ Hi H1); [lia|].
  destruct (IH s1 (inv_step _ _ Hi H1) ltac:(lia)) as (s' & Hr & Hs'). exists s'. split; [by eapply rtc_l|done].
Qed.
End ends.

(** ** Properties *)

(** C4: in every reachable state of a chain whose processes buffer one message each (the
    default; with more it does not hold) the results of each process, in the order of its
    calls, are what the next process was called with, then what it has taken, then
    what its queue holds, then what is on its way there; what the senders have sent is
    in the same way at the first process, nothing lost or repeated, and the messages
    of each sender in the order it sent them. *)
Theorem chain_fifo n u us s : rtc (step f 1) (start n (u :: us)) s -> in_order s /\ sent_arrives (u :: us) s.
Proof. intros Hr. by apply delivery_reached in Hr as (_ & ? & ?). Qed.

Lemma arrived_rested n s x : rested n s -> arrived s x = Arg <$> called_at x (procs s).
Proof.
  intros Hr. unfold arrived. rewrite gather_none by by apply (rest_closures _ _ Hr). unfold queue_at.
  destruct (procs s !! x) as [p|] eqn:Hp; [|by rewrite app_nil_r]. destruct (rested_queues n s Hr _ x p eq_refl Hp) as [-> _]. by rewrite app_nil_r.
Qed.

(** C2: a chain without exceptions whose processes buffer one message each, in which nobody
    can do anything any more, has done everything: each process was called with the results of the one before it, in
    order, the first with all messages of all senders, those of each sender in order;
    the queues are empty, every process has seen its end and was reset. *)
Theorem chain_delivers n u us s : 0 < n -> no_exceptions (u :: us) -> rtc (step f 1) (start n (u :: us)) s -> (forall s', ~ step f 1 s s') ->
  (forall x, S x < n -> f x <$> called_at x (procs s) = Arg <$> called_at (S x) (procs s)) /\
  Permutation (concat (u :: us)) (Arg <$> called_at 0 (procs s)) /\
  Forall (fun ms => sublist ms (Arg <$> called_at 0 (procs s))) (u :: us) /\
  forall x p, procs s !! x = Some p -> queue p = [] /\ close_queue p = false /\ final p = true /\ engaged p = false.
Proof.
  intros Hn Hne Hr Hs. apply delivery_reached in Hr as (Hi & Ho & Ha).
  pose proof (rested_state n _ s Hi Ho Ha Hne Hs) as Hrest. pose proof (rest_users _ _ Hrest ltac:(lia)) as Hu.
  destruct Ha as [Hp Hsub]. rewrite (arrived_rested n s 0 Hrest) in Hp, Hsub. split_and!.
  - intros x Hx. rewrite (Ho x) by by rewrite (inv_length _ _ Hi). rewrite (arrived_rested n s _ Hrest), gather_none, app_nil_r; [done|].
    by apply (rest_closures _ _ Hrest).
  - rewrite Hp. assert (concat (rest_of <$> users s) = []) as ->; [|by rewrite app_nil_r].
    clear -Hu. induction Hu as [|w l -> _ IH]; [done|by cbn].
  - clear -Hu Hsub. induction Hsub as [|ms w l l' (sent & -> & H) _ IH]; constructor; apply Forall_cons in Hu as [-> Hu]; [by rewrite app_nil_r|auto].
  - intros x p Hx. destruct (rested_queues n s Hrest _ x p eq_refl Hx), (rested_final n s Hrest x p Hx). done.
Qed.

(** Every run of a chain is at most as long as this number of steps, linear in the
    messages and in the length of the chain, whatever the order of the steps, and can be
    continued until nobody can do anything any more. *)
Theorem chain_terminates n u us k s : nsteps (step f 1) k (start n (u :: us)) s ->
  k <= longest_run n (u :: us) /\
  exists s', rtc (step f 1) s s' /\ forall s'', ~ step f 1 s' s''.
Proof.
  intros Hk. assert (Hi : inv n (start n (u :: us))) by apply chain_inv_start. split.
  - rewrite <- (chain_cost_start n). pose proof (nsteps_cost n k _ _ Hi Hk). lia.
  - apply (chain_comes_to_rest n (steps_left n s)); [|done]. revert Hi. clear -Hk. induction Hk; eauto using inv_step.
Qed.
End flow.

(** Two values sent through two processes: on their way, and arrived. *)
Definition flow_state (ts : list turn) : @state nat nat :=
  default (one_sender [Arg 1; Arg 2]) (take_turns same 1 ts (one_sender [Arg 1; Arg 2])).
Definition flow_turns : list turn :=
  replicate 2 (Setter 0) ++ replicate 4 (User 0) ++ replicate 9 (Closure 0) ++ replicate 10 (Closure 1) ++ replicate 9 (Closure 2)
  ++ replicate 10 (Closure 3) ++ replicate 6 (Closure 4) ++ replicate 5 (Closure 5).
Lemma flow_run ts : is_Some (take_turns same 1 ts (one_sender [Arg 1; Arg 2])) -> rtc (step same 1) (start 2 [[Arg 1; Arg 2]]) (flow_state ts).
Proof. intros [s Hs]. apply turns_run with ts. unfold flow_state. by rewrite Hs. Qed.
Lemma turns_nsteps ts : forall s s', take_turns same 1 ts s = Some s' -> nsteps (step same 1) (length ts) s s'.
Proof.
  induction ts as [|t ts IH]; intros s s' H; cbn in H; [injection H as ->; constructor|].
  destruct (take_turn same 1 t s) as [s1|] eqn:H1; [|done]. eapply nsteps_l; [|by apply IH].
  destruct t; [by eapply step_by_closure|by eapply step_by_user|by eapply step_by_setter].
Qed.

Lemma chain_fifo_witness :
  let s := flow_state (firstn 20 flow_turns) in
  called_at 0 (procs s) = [1] /\ queue_at 0 (procs s) = [Arg 2] /\ in_order same s /\ sent_arrives [[Arg 1; Arg 2]] s.
Proof.
  cbv zeta. split; [vm_compute; reflexivity|]. split; [vm_compute; reflexivity|].
  apply (chain_fifo same 2 [Arg 1; Arg 2] []). apply flow_run. vm_compute. by eexists.
Defined.
Lemma chain_delivers_witness :
  let s := flow_state flow_turns in
  called_at 1 (procs s) = [1; 2] /\ same 0 <$> called_at 0 (procs s) = Arg <$> called_at 1 (procs s).
Proof.
  cbv zeta. split; [vm_compute; reflexivity|].
  apply (chain_delivers same 2 [Arg 1; Arg 2] [] (flow_state flow_turns)); [lia|..|lia].
  - split; [intros i v; by exists v|]. repeat constructor; by eexists.
  - apply flow_run. vm_compute. by eexists.
  - intros s'. apply at_rest_blocked. vm_compute. split_and!; repeat constructor.
Defined.
Lemma chain_terminates_witness : length flow_turns <= longest_run 2 [[@Arg nat nat 1; Arg 2]] /\ exists s', rtc (step same 1) (flow_state flow_turns) s' /\ forall s'', ~ step same 1 s' s''.
Proof.
  apply (chain_terminates same 2 [Arg 1; Arg 2] [] (length flow_turns) (flow_state flow_turns)).
  apply turns_nsteps. vm_compute. reflexivity.
Defined.
