(* ===== verification/ChannelYield.v ===== *)
(** * Processes that yield

    Model of the processes of [channel.hpp] ([deps/clean_stlab_trash]) that have
    [await], [yield] and [state], and may have [close] and [set_error]: one process
    with its senders (it has no upstream) and any number of downstreams, whose
    acknowledgements ([clear_to_send]) come at any time. The closures given to the
    executor and the timers run on any threads; their steps are cut at their
    critical sections, accesses to atomics and calls of the process, and everything
    interleaves. The queue is the one of [ChannelQueues]. *)

From S2P Require Import Prelude ChannelQueues.
Local Open Scope nat_scope.

Inductive process_state := await_state | yield_state.
#[export] Instance process_state_eq_dec : EqDecision process_state.
Proof. solve_decision. Defined.

(** [std::chrono::nanoseconds::max()] and [min()]; a state with a duration. *)
Definition ns_max : Z := 2 ^ 63 - 1.
Definition ns_min : Z := - 2 ^ 63.
Definition process_state_scheduled : Type := process_state * Z.
Definition await_forever : process_state_scheduled := (await_state, ns_max).
Definition yield_immediate : process_state_scheduled := (yield_state, ns_min).

(** What a process gets or gives: a value or an exception. *)
Inductive item (T E : Type) := Val (v : T) | Exn (e : E).
Arguments Val {T E}. Arguments Exn {T E}.

(** The members of a process type; [await] may throw, and so may [yield]. *)
Record process (P V R E : Type) := mk_process {
  state_of : P -> process_state_scheduled;
  await : option (P -> V -> P * option E);
  yield : P -> P * item R E;
  close : option (P -> P);
  set_error : option (P -> E -> P)
}.
Arguments state_of {P V R E}. Arguments await {P V R E}. Arguments yield {P V R E}.
Arguments close {P V R E}. Arguments set_error {P V R E}.

(** ** [shared_process] *)

Section yielding.
Context {P V R E : Type}.
Abbreviation msg := (item V E).
Abbreviation res := (item R E).

(** A call of a member of the process. *)
Inductive call := CAwait (v : V) | CError (e : E) | CClose | CYield.

(** Who runs: [step], a delayed [yield], an expired timeout, a downstream in
    [clear_to_send]. *)
Inductive who := Step | Delayed | Expiry | Ack.
(** Where: [step] from its [try_lock] on; with a message (none: nothing there), about
    to act on it; in a member of the process; in [broadcast] with a result, in
    [clear_to_send], in [task_done]; setting up a timeout; in what a timer runs; the
    end of the lock. [Undefined]: an access to a process that is not there. *)
Inductive pc :=
  | Run | Locked | Loop | Deq | Got (m : option msg)
  | Awaiting (v : V) | Erring (e : E) | Closing (error : option E) | Yielding
  | Act
  | Broadcast (r : res) | Suspend (n : nat) (small : bool) (r : res) | Sending (j n : nat) (r : res)
  | OwnCheck | OwnState | OwnClear (ps : process_state)
  | TaskDone | Reset
  | Arm (d : Z) | Schedule (d : Z)
  | Fire | Spin | Expired | Disarm
  | Unlock | Ended | Undefined | Asserted.

(** A sender with what it will send; the receivers becoming ready. *)
Inductive user := Sends (ms : list msg) | LastSender | Closed.
Inductive setter := SetReady | LastReceiver | Ready.

(** [_queue], [_process_running], [_process_suspend_count], [_process_close_queue],
    [_process_final], [_process], whether [_timeout_function_control] is locked,
    [_timeout_function_active], [_sender_count], [_receiver_count]; the calls made. *)
Record shared := mk_shared {
  queue : list msg;
  running : bool;
  suspend_count : nat;
  close_queue : bool;
  final : bool;
  the_process : option P;
  control : bool;
  active : bool;
  sender_count : nat;
  receiver_count : nat;
  calls : list call
}.
(** Also: the time; the timers, with what they will run; the threads; the senders;
    who makes receivers ready; all that was enqueued; what each downstream was sent. *)
Record state := mk_state {
  member : shared;
  now : Z;
  timers : list (Z * who);
  threads : list (who * pc);
  users : list user;
  setters : list setter;
  arrived : list msg;
  sent : list (list res)
}.

Definition set_queue (q : list msg) (x : shared) : shared :=
  mk_shared q (running x) (suspend_count x) (close_queue x) (final x) (the_process x) (control x) (active x) (sender_count x) (receiver_count x) (calls x).
Definition set_running (b : bool) (x : shared) : shared :=
  mk_shared (queue x) b (suspend_count x) (close_queue x) (final x) (the_process x) (control x) (active x) (sender_count x) (receiver_count x) (calls x).
Definition set_suspend (n : nat) (x : shared) : shared :=
  mk_shared (queue x) (running x) n (close_queue x) (final x) (the_process x) (control x) (active x) (sender_count x) (receiver_count x) (calls x).
Definition set_close (c f : bool) (x : shared) : shared :=
  mk_shared (queue x) (running x) (suspend_count x) c f (the_process x) (control x) (active x) (sender_count x) (receiver_count x) (calls x).
Definition set_process (p : option P) (x : shared) : shared :=
  mk_shared (queue x) (running x) (suspend_count x) (close_queue x) (final x) p (control x) (active x) (sender_count x) (receiver_count x) (calls x).
Definition set_control (b : bool) (x : shared) : shared :=
  mk_shared (queue x) (running x) (suspend_count x) (close_queue x) (final x) (the_process x) b (active x) (sender_count x) (receiver_count x) (calls x).
Definition set_active (b : bool) (x : shared) : shared :=
  mk_shared (queue x) (running x) (suspend_count x) (close_queue x) (final x) (the_process x) (control x) b (sender_count x) (receiver_count x) (calls x).
Definition set_counts (n m : nat) (x : shared) : shared :=
  mk_shared (queue x) (running x) (suspend_count x) (close_queue x) (final x) (the_process x) (control x) (active x) n m (calls x).
Definition called (c : call) (p : P) (x : shared) : shared :=
  mk_shared (queue x) (running x) (suspend_count x) (close_queue x) (final x) (Some p) (control x) (active x) (sender_count x) (receiver_count x) (calls x ++ [c]).

Definition idle (x : shared) : bool := is_nil (queue x) && negb (close_queue x).

(** The critical sections; a [bool] is [do_run]. *)
Definition enqueue (m : msg) (x : shared) : bool * shared :=
  let do_run := (receiver_count x =? 0) && (negb (running x) || active x) in
  (do_run, set_running (running x || do_run) (set_queue (queue x ++ [m]) x)).
Definition close_sender (x : shared) : bool * shared :=
  let do_run := (receiver_count x =? 0) && negb (running x) in
  (do_run, set_running (running x || do_run) (set_close true (final x) x)).
Definition receivers_gone (x : shared) : bool * shared :=
  let do_run := negb (idle x) && negb (running x) in
  (do_run, set_running (running x || do_run) x).
Definition task_done (x : shared) : bool * shared := (negb (idle x), set_running (negb (idle x)) x).
Definition clear_to_send (ps : process_state) (x : shared) : bool * shared :=
  let x := set_suspend (suspend_count x - 1) x in
  if suspend_count x =? 0 then
    if bool_decide (ps = yield_state) || negb (idle x) then (true, x) else (false, set_running false x)
  else (false, x).
(** [pop_from_queue]; the flags are for an upstream. *)
Definition take (b : Z) (x : shared) : option (option msg * shared) :=
  '(message, _, do_close, q, c) ← pop_from_queue b (mk_default (queue x)) (close_queue x);
  match message with
  | None => Some (None, set_close c do_close x)
  | Some ms => m ← head ms; Some (Some m, set_close c (final x) (set_queue (d_queue q) x))
  end.

Section steps.
(** The process type; whether the downstreams have room for one message at most
    ([minimum_free_buffer() <= 1]); [_process_buffer_size]. *)
Context (pr : process P V R E) (small : bool) (b : Z).

(** Thread [k] goes on at [p]; a section on the members may start [run()]. *)
Definition runs_of (do_run : bool) : list (who * pc) := if do_run then [(Step, Run)] else [].
Definition section (k : nat) (w : who) (p : pc) (g : shared -> bool * shared) (s : state) : state :=
  mk_state (g (member s)).2 (now s) (timers s) (<[k := (w, p)]> (threads s) ++ runs_of (g (member s)).1) (users s) (setters s) (arrived s) (sent s).
Definition sets (k : nat) (w : who) (p : pc) (x : shared) (s : state) : state := section k w p (fun _ => (false, x)) s.
Definition goto (k : nat) (w : who) (p : pc) (s : state) : state := sets k w p (member s) s.
Definition execute_at (d : Z) (w : who) (s : state) : state :=
  mk_state (member s) (now s) (timers s ++ [(now s + d, w)%Z]) (threads s) (users s) (setters s) (arrived s) (sent s).
Definition send (j : nat) (r : res) (s : state) : state :=
  mk_state (member s) (now s) (timers s) (threads s ++ [(Ack, OwnCheck)]) (users s) (setters s) (arrived s) (alter (fun l => l ++ [r]) j (sent s)).

(** What follows [broadcast] or a [yield] that is not made. *)
Definition finish (w : who) : pc := match w with Step => Unlock | Expiry => Disarm | Delayed | Ack => Ended end.
Definition on_process (k : nat) (w : who) (s : state) (f : P -> state) : state :=
  match the_process (member s) with Some p => f p | None => goto k w Undefined s end.

(** Where [step] goes from the state of the process. *)
Definition after_state (st : process_state_scheduled) : pc + Z :=
  match st with
  | (yield_state, d) => if (d <=? ns_min)%Z then inl Yielding else inr d
  | (await_state, d) => if (d =? ns_max)%Z then inl TaskDone else if (d <=? ns_min)%Z then inl Yielding else inl (Arm d)
  end.

(** [broadcast]. *)
Definition step_broadcast (k : nat) (w : who) (p : pc) (s : state) : option state :=
  let x := member s in
  match p with
  | Broadcast r => Some (goto k w (Suspend (length (sent s)) small r) s)
  | Suspend n full r => Some (sets k w (Sending 0 n r) (set_suspend (if full then n + 1 else 1) x) s)
  | Sending j n r => Some (if j <? n then send j r (goto k w (Sending (S j) n r) s) else goto k w OwnCheck s)
  | OwnCheck => Some (goto k w (if final x then finish w else OwnState) s)
  | OwnState => Some (on_process k w s (fun p => goto k w (OwnClear (state_of pr p).1) s))
  | OwnClear ps => Some (section k w (finish w) (clear_to_send ps) s)
  | _ => None
  end.
(** [try_broadcast], and what an expired timeout runs. *)
Definition step_expiry (spurious : bool) (k : nat) (w : who) (p : pc) (s : state) : option state :=
  let x := member s in
  match p with
  | Fire => Some (goto k w (match the_process x with Some _ => Yielding | None => finish w end) s)
  | Spin => Some (if spurious || control x then s else sets k w Expired (set_control true x) s)
  | Expired => Some (on_process k w s (fun p =>
      goto k w (match (state_of pr p).1 with yield_state => Unlock | await_state => Fire end) s))
  | Disarm => Some (sets k w Unlock (set_active false x) s)
  | _ => None
  end.

(** One step of thread [k]; [spurious]: a [try_lock] fails without reason. *)
Definition step_thread (spurious : bool) (k : nat) (s : state) : option state :=
  let x := member s in
  match threads s !! k with
  | Some (w, Run) =>
      Some (if spurious || control x then section k w Ended (fun x => (true, x)) s else sets k w Locked (set_control true x) s)
  | Some (w, Locked) => Some (sets k w Loop (set_active false x) s)
  | Some (w, Loop) => Some (on_process k w s (fun p =>
      goto k w (match (state_of pr p).1, await pr with await_state, Some _ => Deq | await_state, None => finish w | yield_state, _ => Act end) s))
  | Some (w, Deq) => '(m, x') ← take b x; Some (sets k w (Got m) x' s)
  | Some (w, Got m) =>
      Some (goto k w (match m with
        | None => Closing None
        | Some (Val v) => Awaiting v
        | Some (Exn e) => match set_error pr with Some _ => Erring e | None => Closing (Some e) end
        end) s)
  | Some (w, Awaiting v) => aw ← await pr; Some (on_process k w s (fun p =>
      sets k w (match (aw p v).2 with None => Loop | Some e => Broadcast (Exn e) end) (called (CAwait v) (aw p v).1 x) s))
  | Some (w, Erring e) => se ← set_error pr; Some (on_process k w s (fun p => sets k w Loop (called (CError e) (se p e) x) s))
  | Some (w, Closing error) =>
      Some (sets k w (match error with Some _ => Loop | None => Act end)
        (match close pr, the_process x with Some c, Some p => called CClose (c p) x | _, _ => x end) s)
  | Some (w, Act) => Some (on_process k w s (fun p =>
      match after_state (state_of pr p) with inl q => goto k w q s | inr d => execute_at d Delayed (goto k w (finish w) s) end))
  | Some (w, Arm d) => Some (sets k w (Schedule d) (set_active true x) s)
  | Some (w, Schedule d) => Some (execute_at d Expiry (goto k w (finish w) s))
  | Some (w, Yielding) => Some (on_process k w s (fun p => sets k w (Broadcast (yield pr p).2) (called CYield (yield pr p).1 x) s))
  | Some (w, (Broadcast _ | Suspend _ _ _ | Sending _ _ _ | OwnCheck | OwnState | OwnClear _) as p) => step_broadcast k w p s
  | Some (w, TaskDone) =>
      Some (section k w (if final x then if (task_done x).1 then Asserted else Reset else finish w) task_done s)
  | Some (w, Reset) => Some (sets k w (finish w) (set_process None x) s)
  | Some (w, (Fire | Spin | Expired | Disarm) as p) => step_expiry spurious k w p s
  | Some (w, Unlock) => Some (sets k w Ended (set_control false x) s)
  | Some (_, (Ended | Undefined | Asserted)) | None => None
  end.
End steps.

(** [enqueue] and [remove_sender] by the holders of senders; [remove_receiver]. *)
Definition outside (g : shared -> bool * shared) (us : list user) (ts : list setter) (s : state) : state :=
  mk_state (g (member s)).2 (now s) (timers s) (threads s ++ runs_of (g (member s)).1) us ts (arrived s) (sent s).
Definition arrive (m : msg) (s : state) : state :=
  mk_state (member s) (now s) (timers s) (threads s) (users s) (setters s) (arrived s ++ [m]) (sent s).
Definition step_user (c : nat) (s : state) : option state :=
  match users s !! c with
  | Some (Sends (m :: ms)) => Some (arrive m (outside (enqueue m) (<[c := Sends ms]> (users s)) (setters s) s))
  | Some (Sends []) =>
      let n := sender_count (member s) - 1 in
      Some (outside (fun x => (false, set_counts n (receiver_count x) x)) (<[c := if n =? 0 then LastSender else Closed]> (users s)) (setters s) s)
  | Some LastSender => Some (outside close_sender (<[c := Closed]> (users s)) (setters s) s)
  | Some Closed | None => None
  end.
Definition step_setter (c : nat) (s : state) : option state :=
  match setters s !! c with
  | Some SetReady =>
      let n := receiver_count (member s) - 1 in
      Some (outside (fun x => (false, set_counts (sender_count x) n x)) (users s) (<[c := if n =? 0 then LastReceiver else Ready]> (setters s)) s)
  | Some LastReceiver => Some (outside receivers_gone (users s) (<[c := Ready]> (setters s)) s)
  | Some Ready | None => None
  end.

(** The clock, and a timer that is due. *)
Definition tick (s : state) : state :=
  mk_state (member s) (now s + 1) (timers s) (threads s) (users s) (setters s) (arrived s) (sent s).
Definition step_timer (t : nat) (s : state) : option state :=
  match timers s !! t with
  | Some (due, w) =>
      if (due <=? now s)%Z then
        Some (mk_state (member s) (now s) (list_delete t (timers s))
          (threads s ++ [(w, match w with Expiry => Spin | _ => Fire end)]) (users s) (setters s) (arrived s) (sent s))
      else None
  | None => None
  end.

Section runs.
Context (pr : process P V R E) (small : bool) (b : Z).

Inductive turn := Thread (k : nat) | Unlucky (k : nat) | User (c : nat) | Setter (c : nat) | Tick | Timer (t : nat).
Definition take_turn (t : turn) (s : state) : option state :=
  match t with
  | Thread k => step_thread pr small b false k s
  | Unlucky k => step_thread pr small b true k s
  | User c => step_user c s
  | Setter c => step_setter c s
  | Tick => Some (tick s)
  | Timer t => step_timer t s
  end.
Definition step (s s' : state) : Prop := exists t, take_turn t s = Some s'.
Fixpoint take_turns (ts : list turn) (s : state) : option state :=
  match ts with
  | [] => Some s
  | t :: ts => match take_turn t s with Some s' => take_turns ts s' | None => None end
  end.
Lemma yield_turns_run ts : forall s s', take_turns ts s = Some s' -> rtc step s s'.
Proof.
  induction ts as [|t ts IH]; intros s s' H; cbn in H; [by injection H as ->|].
  destruct (take_turn t s) as [s1|] eqn:H1; [|done]. eapply rtc_l; [by exists t|by apply IH].
Qed.
End runs.

(** A process with senders of [us], [n] receivers to be made ready and [d] downstreams. *)
Definition start (p : P) (us : list (list msg)) (n d : nat) : state :=
  mk_state (mk_shared [] false 0 false false (Some p) false false (length us) n []) 0 [] []
    (Sends <$> us) (replicate n SetReady) [] (replicate d []).
End yielding.

(** ** How it goes wrong *)

(** A process that sums what it gets, until it is closed; one that collects it and,
    once closed, yields it again one by one; one that counts and yields when [f] says so. *)
Definition summing : process (nat * bool) nat nat nat :=
  mk_process (nat * bool) nat nat nat (fun p => if p.2 then yield_immediate else await_forever)
    (Some (fun p v => ((p.1 + v, p.2), None))) (fun p => ((p.1, false), Val p.1)) (Some (fun p => (p.1, true))) None.
Definition collecting : process (list nat * bool) nat nat nat :=
  mk_process (list nat * bool) nat nat nat (fun p => if p.2 && negb (is_nil p.1) then yield_immediate else await_forever)
    (Some (fun p v => ((p.1 ++ [v], p.2), None))) (fun p => ((tail p.1, p.2), Val (hd 0 p.1))) (Some (fun p => (p.1, true))) None.
Definition counting (f : nat -> process_state_scheduled) : process nat nat nat nat :=
  mk_process nat nat nat nat f (Some (fun p _ => (S p, None))) (fun p => (p, Val p)) None None.
(** Each waits ten nanoseconds for more: up to three values, then it takes ten to
    yield; the other gives up waiting after two values. *)
Definition slowly (p : nat) : process_state_scheduled := if p <? 3 then (await_state, 10%Z) else (yield_state, 10%Z).
Definition twice (p : nat) : process_state_scheduled := if p <? 2 then (await_state, 10%Z) else await_forever.

Definition after {P} (pr : process P nat nat nat) (ts : list turn) (s : state) : state := default s (take_turns pr true 1 ts s).
Lemma after_run {P} (pr : process P nat nat nat) ts s : is_Some (take_turns pr true 1 ts s) -> rtc (step pr true 1) s (after pr ts s).
Proof. intros [s' H]. apply yield_turns_run with ts. unfold after. by rewrite H. Qed.

Definition ready_turns : list turn := [Setter 0; Setter 0; User 0].
Definition early_turns : list turn := ready_turns ++ replicate 20 (Thread 0) ++ replicate 3 (Thread 1).
Definition collect_turns : list turn := replicate 4 (User 0) ++ replicate 2 (Setter 0) ++ replicate 22 (Thread 0) ++ [Thread 1].
Definition waiting_turns : list turn := ready_turns ++ replicate 14 (Thread 0).
Definition delayed_turns : list turn :=
  waiting_turns ++ [User 0; User 0] ++ replicate 13 (Thread 1) ++ replicate 5 (Thread 2) ++ replicate 10 Tick
  ++ [Timer 1; Timer 1; Thread 3; Thread 4].
Definition late_turns : list turn := waiting_turns ++ replicate 9 Tick ++ [User 0] ++ replicate 5 (Thread 1).
Definition stale_turns : list turn := replicate 9 (Thread 1) ++ [Tick; Timer 0] ++ replicate 4 (Thread 2).
Definition reset_turns : list turn :=
  waiting_turns ++ [User 0] ++ replicate 13 (Thread 1) ++ replicate 2 (User 0) ++ replicate 10 (Thread 2)
  ++ replicate 10 Tick ++ [Timer 0; Thread 3; Thread 3].

(** [close] is called whenever the queue runs empty: a process that sums what it
    gets is closed after the first value, and yields, although the sender is still
    there with another one; and the end of a process that does not yield at once
    everything it has is not the end of the loop: [clear_to_send] does nothing
    any more once [_process_final] is set, so the second of two collected values is
    never yielded, the process never reset, and nobody left to do it. *)
Theorem closing_goes_wrong :
  (exists s, rtc (step summing true 1) (start (0, false) [[Val 1; Val 2]] 1 1) s /\
    users s = [Sends [Val 2]] /\ close_queue (member s) = false /\ final (member s) = false /\
    calls (member s) = [CAwait 1; CClose; CYield] /\ sent s = [[Val 1]]) /\
  exists s, rtc (step collecting true 1) (start ([], false) [[Val 1; Val 2]] 1 1) s /\
    (forall t, t <> Tick -> take_turn collecting true 1 t s = None) /\
    users s = [Closed] /\ sent s = [[Val 1]] /\ the_process (member s) = Some ([2], true) /\ running (member s) = true.
Proof.
  split.
  - exists (after summing early_turns (start (0, false) [[Val 1; Val 2]] 1 1)). split; [apply after_run; vm_compute; by eexists|].
    by vm_compute.
  - exists (after collecting collect_turns (start ([], false) [[Val 1; Val 2]] 1 1)). split; [apply after_run; vm_compute; by eexists|].
    split; [|by vm_compute]. intros t Ht. destruct t as [[|[|k]]|[|[|k]]|[|c]|[|c]| |t]; try done; by vm_compute.
Qed.

(** A message that comes while a timeout runs starts the process again without
    stopping the timeout. Then two threads can be in [yield] at the same time; the
    process can be made to yield one nanosecond after it asked to wait for ten; and
    the timeout can ask a process for its state that has been reset. *)
Theorem timeouts_go_wrong :
  (exists s, rtc (step (counting slowly) true 1) (start 0 [[Val 1; Val 2; Val 3]] 1 1) s /\
    threads s !! 3 = Some (Delayed, Yielding) /\ threads s !! 4 = Some (Delayed, Yielding)) /\
  (exists s s', rtc (step (counting slowly) true 1) (start 0 [[Val 1; Val 2]] 1 1) s /\ rtc (step (counting slowly) true 1) s s' /\
    threads s !! 1 = Some (Step, Awaiting 2) /\ now s = 9%Z /\ slowly 2 = (await_state, 10%Z) /\
    now s' = 10%Z /\ calls (member s') = [CAwait 1; CAwait 2; CYield]) /\
  exists s, rtc (step (counting twice) true 1) (start 0 [[Val 1; Val 2]] 1 1) s /\ threads s !! 3 = Some (Expiry, Undefined).
Proof.
  split_and!.
  - exists (after (counting slowly) delayed_turns (start 0 [[Val 1; Val 2; Val 3]] 1 1)). split; [apply after_run; vm_compute; by eexists|by vm_compute].
  - exists (after (counting slowly) late_turns (start 0 [[Val 1; Val 2]] 1 1)).
    exists (after (counting slowly) (late_turns ++ stale_turns) (start 0 [[Val 1; Val 2]] 1 1)).
    split; [apply after_run; vm_compute; by eexists|]. split; [|by vm_compute].
    apply (yield_turns_run _ _ _ stale_turns). by vm_compute.
  - exists (after (counting twice) reset_turns (start 0 [[Val 1; Val 2]] 1 1)). split; [apply after_run; vm_compute; by eexists|by vm_compute].
Qed.
