(* ===== verification/YieldSafety.v ===== *)
(** * Processes that yield at once

    Safety and delivery of the processes of [ChannelYield] that never ask for time: their
    states are without duration ([await_forever], [yield_immediate]), and the
    downstreams have buffers of one message. One thread at a time works on such a
    process, and it is driven as a sequential program would drive it. *)

From S2P Require Import Prelude ChannelQueues ChannelYield.
Local Open Scope nat_scope.

Section safety.
Context {P V R E : Type} (pr : process P V R E) (b : Z).
Abbreviation msg := (item V E).
Abbreviation res := (item R E).
Abbreviation pc := (@pc V R E).
Abbreviation state := (@state P V R E).
Abbreviation shared := (@shared P V E).

(** The state never asks for a time to come. *)
Definition untimed : Prop := forall p, ((state_of pr p).2 <= ns_min)%Z \/ state_of pr p = await_forever.

(** ** Counting threads *)

(** At work on the process; the calls of [clear_to_send] to come; sending; where the
    process has not seen its end; resetting. *)
Definition works (p : pc) : nat :=
  match p with
  | Run | Locked | Loop | Deq | Got _ | Awaiting _ | Erring _ | Closing _ | Yielding | Act | Broadcast _ | Suspend _ _ _ | TaskDone => 1
  | _ => 0
  end.
Definition clears (p : pc) : nat := match p with Sending j n _ => n - j + 1 | OwnCheck | OwnState | OwnClear _ => 1 | _ => 0 end.
Definition sends (p : pc) : nat := match p with Sending _ _ _ => 1 | _ => 0 end.
Definition early (p : pc) : nat :=
  match p with
  | Run | Locked | Loop | Deq | Got (Some _) | Awaiting _ | Erring _ | Closing (Some _) | OwnState | OwnClear _ => 1
  | _ => 0
  end.
Definition resets (p : pc) : nat := match p with Reset => 1 | _ => 0 end.
Definition total (g : pc -> nat) (ts : list (who * pc)) : nat := sum_list_with (fun t => g t.2) ts.
#[global] Arguments total : simpl never.

Lemma total_app g ts ts' : total g (ts ++ ts') = total g ts + total g ts'.
Proof. apply sum_list_with_app. Qed.
Lemma total_in g ts k w p : ts !! k = Some (w, p) -> g p <= total g ts.
Proof. intros Hk. rewrite <- (take_drop_middle ts k _ Hk), total_app. unfold total. cbn. lia. Qed.
Lemma total_move g ts k w p p' d : ts !! k = Some (w, p) ->
  total g (<[k := (w, p')]> ts ++ runs_of d) + g p = total g ts + g p' + (if d then g Run else 0).
Proof.
  intros Hk. rewrite total_app. pose proof (sum_with_insert (fun t => g t.2) ts k _ (w, p') Hk) as H. cbn in H. unfold total.
  destruct d; cbn; lia.
Qed.
Lemma total_le g h ts : (forall p, g p <= h p) -> total g ts <= total h ts.
Proof. intros H. unfold total. induction ts as [|[w p] ts IH]; cbn; [done|]. specialize (H p). lia. Qed.
Lemma total_add g h ts : total (fun p => g p + h p) ts = total g ts + total h ts.
Proof. unfold total. induction ts as [|[w p] ts IH]; cbn; [done|]. lia. Qed.
Lemma sends_clears ts : total sends ts <= total clears ts.
Proof. apply total_le. intros []; cbn; lia. Qed.
Lemma early_busy ts : total early ts <= total works ts + total clears ts.
Proof. rewrite <- total_add. apply total_le. intros [| | | |[]| | |[]| | | | | | | | | | | | | | | | | | | |]; cbn; lia. Qed.

(** ** The invariant *)

Definition opens (u : @user V E) : nat := match u with Sends _ => 1 | _ => 0 end.
Definition lasts (u : @user V E) : nat := match u with LastSender => 1 | _ => 0 end.
Definition thread_ok (d : nat) (t : who * pc) : Prop :=
  match t with
  | (Step, (Arm _ | Schedule _ | Fire | Spin | Expired | Disarm | Undefined | Asserted)) => False
  | (Step, Suspend n full _) => n = d /\ full = true
  | (Step, Sending j n _) => j <= n /\ n = d
  | (Step, _) | (Ack, (OwnCheck | OwnState | OwnClear _ | Ended)) => True
  | _ => False
  end.
(** What a thread in or before a call of the process relies on. *)
Definition ready (op : option P) (p : pc) : Prop :=
  match p with
  | Deq | Got _ | Awaiting _ | Erring _ | Closing _ => exists x, op = Some x /\ (state_of pr x).1 = await_state
  | Yielding => exists x, op = Some x /\ ((state_of pr x).2 <= ns_min)%Z
  | _ => True
  end.
Record inv (s : state) : Prop := mk_inv {
  i_one : total works (threads s) + total sends (threads s) <= 1;
  i_apart : total works (threads s) = 0 \/ total clears (threads s) = 0;
  i_suspend : total clears (threads s) <= suspend_count (member s);
  i_running : running (member s) = false -> total works (threads s) + total clears (threads s) = 0;
  i_final : final (member s) = true -> total early (threads s) = 0 /\ idle (member s) = true /\
    sum_list_with opens (users s) + sum_list_with lasts (users s) = 0;
  i_senders : sum_list_with opens (users s) = sender_count (member s);
  i_last : sum_list_with lasts (users s) + Nat.b2n (close_queue (member s)) + Nat.b2n (final (member s)) <= 1;
  i_open : 0 < sender_count (member s) -> sum_list_with lasts (users s) + Nat.b2n (close_queue (member s)) = 0;
  i_reset : the_process (member s) = None \/ 0 < total resets (threads s) ->
    final (member s) = true /\ total works (threads s) + total clears (threads s) = 0;
  i_active : active (member s) = false;
  i_timers : timers s = [];
  i_threads : Forall (thread_ok (length (sent s))) (threads s);
  i_ready : Forall (fun t => ready (the_process (member s)) t.2) (threads s)
}.

Lemma yield_inv_start p us n d : inv (start p us n d).
Proof.
  assert (Ho : sum_list_with opens (Sends <$> us) = length us) by (rewrite sum_with_fmap; induction us; cbn in *; lia).
  assert (Hl : sum_list_with lasts (Sends <$> us) = 0) by (rewrite sum_with_fmap; induction us; cbn in *; lia).
  constructor; unfold total; cbn; try done; try lia. by intros [H|H]; [discriminate H|lia].
Qed.

Lemma ready_idle op p : works p = 0 -> ready op p.
Proof. by destruct p. Qed.
Lemma works_other ts k j w p v q : ts !! k = Some (w, p) -> ts !! j = Some (v, q) -> k <> j -> works p + works q <= total works ts.
Proof.
  intros Hk Hj Hne. pose proof (total_move works ts k w p Ended false Hk) as H. cbn in H. rewrite app_nil_r in H.
  pose proof (total_in works (<[k := (w, Ended)]> ts) j v q). rewrite list_lookup_insert_ne in * by done. specialize (H0 Hj). lia.
Qed.
Lemma ready_move ts k w p p' d op op' : ts !! k = Some (w, p) -> Forall (fun t => ready op t.2) ts -> ready op' p' ->
  op' = op \/ total works ts <= works p -> Forall (fun t => ready op' t.2) (<[k := (w, p')]> ts ++ runs_of d).
Proof.
  intros Hk Hf Hp Hor. apply Forall_app. split; [|by destruct d; repeat constructor]. apply Forall_lookup_2. intros j [v q] Hj. cbn.
  destruct (decide (k = j)) as [<-|Hne].
  - rewrite list_lookup_insert_eq in Hj by by eapply lookup_lt_Some. by injection Hj as <- <-.
  - rewrite list_lookup_insert_ne in Hj by done. pose proof (Forall_lookup_1 _ _ _ _ Hf Hj) as Hq. cbn in Hq.
    destruct Hor as [->|Hle]; [done|]. apply ready_idle. pose proof (works_other ts k j w p v q Hk Hj Hne). lia.
Qed.
Lemma ok_move ts n k w p d : Forall (thread_ok n) ts -> thread_ok n (w, p) -> Forall (thread_ok n) (<[k := (w, p)]> ts ++ runs_of d).
Proof. intros Hf Hp. apply Forall_app. split; [by apply Forall_insert|by destruct d; repeat constructor]. Qed.

(** A move of thread [k] that changes the members: the conditions on the numbers are
    left to [lia]. *)
Ltac counted Hi Hk p' d :=
  match type of Hk with threads ?s !! ?k = Some (?w, ?p) =>
    pose proof (total_move works _ _ _ _ p' d Hk); pose proof (total_move clears _ _ _ _ p' d Hk);
    pose proof (total_move sends _ _ _ _ p' d Hk); pose proof (total_move early _ _ _ _ p' d Hk);
    pose proof (total_move resets _ _ _ _ p' d Hk);
    pose proof (total_in works _ _ _ _ Hk); pose proof (total_in clears _ _ _ _ Hk); pose proof (total_in sends _ _ _ _ Hk);
    pose proof (total_in early _ _ _ _ Hk); pose proof (total_in resets _ _ _ _ Hk);
    pose proof (sends_clears (threads s)); pose proof (early_busy (threads s));
    pose proof (sends_clears (<[k := (w, p')]> (threads s) ++ runs_of d)); pose proof (early_busy (<[k := (w, p')]> (threads s) ++ runs_of d));
    destruct Hi as [I1 I2 I3 I4 I5 I6 I7 I8 I9 I10 I11 I12 I13]
  end.

(** What a step leaves alone, unless it is about closing, running or suspending. *)
Definition alike (x x' : shared) : Prop :=
  running x' = running x /\ suspend_count x' = suspend_count x /\ close_queue x' = close_queue x /\ final x' = final x /\
  idle x' = idle x /\ sender_count x' = sender_count x /\ active x' = false.
Definition put (s : state) (k : nat) (w : who) (p : pc) (d : bool) (x : shared) : state :=
  mk_state x (now s) (timers s) (<[k := (w, p)]> (threads s) ++ runs_of d) (users s) (setters s) (arrived s) (sent s).
Lemma inv_calm s k w p p' d x : inv s -> threads s !! k = Some (w, p) -> alike (member s) x ->
  the_process x = the_process (member s) \/ is_Some (the_process x) /\ works p = 1 ->
  thread_ok (length (sent s)) (w, p') -> ready (the_process x) p' ->
  works p' + Nat.b2n d <= works p -> clears p' <= clears p -> sends p' <= sends p ->
  (final (member s) = true -> early p' + Nat.b2n d <= early p) -> resets p' <= resets p -> inv (put s k w p' d x).
Proof.
  intros Hi Hk (Er & Es & Ec & Ef & Ei & En & Ea) Hx Hok Hr Hw Hc Hs He Hz. counted Hi Hk p' d.
  assert (Hd : (if d then 1 else 0) = Nat.b2n d) by by destruct d.
  assert (Hd0 : (if d then 0 else 0) = 0) by by destruct d.
  constructor; cbn in *; rewrite ?Er, ?Es, ?Ec, ?Ef, ?Ei, ?En; [lia|lia|lia|intros Hru; specialize (I4 Hru); lia| |lia|lia|lia| |done|done| |].
  - intros Hf. specialize (I5 Hf) as (? & ? & ?). split_and!; [|done|done]. specialize (He Hf). lia.
  - intros Ho. destruct I9 as [? ?]; [|split; [done|lia]]. destruct Ho as [Ho|Ho]; [left|right; lia].
    destruct Hx as [<-|[Hx _]]; [done|rewrite Ho in Hx; by destruct Hx].
  - by apply ok_move.
  - apply (ready_move _ k w p p' d (the_process (member s))); [done|done|done|]. destruct Hx as [->|[_ Hx]]; [by left|right; lia].
Qed.

(** ** The steps *)

Lemma works_engaged s k w p : inv s -> threads s !! k = Some (w, p) -> 0 < works p + clears p -> exists x, the_process (member s) = Some x.
Proof.
  intros Hi Hk Hw. destruct (the_process (member s)) as [x|] eqn:Hx; [by exists x|]. destruct (i_reset _ Hi) as [_ Hz]; [by left|].
  pose proof (total_in works _ _ _ _ Hk). pose proof (total_in clears _ _ _ _ Hk). lia.
Qed.
Lemma take_empty c (x : shared) : queue x = [] -> take c x = Some (None, set_close false (close_queue x) x).
Proof. intros Hq. unfold take, pop_from_queue. cbn. by rewrite Hq. Qed.
Lemma take_first c (x : shared) m l : queue x = m :: l -> take c x = Some (Some m, set_close (close_queue x) (final x) (set_queue l x)).
Proof. intros Hq. unfold take, pop_from_queue. cbn. by rewrite Hq. Qed.

Lemma inv_deq s s' spurious k w : inv s -> threads s !! k = Some (w, Deq) -> step_thread pr true b spurious k s = Some s' -> inv s'.
Proof.
  intros Hi Hk Hs. pose proof (Forall_lookup_1 _ _ _ _ (i_threads _ Hi) Hk) as Hok. pose proof (Forall_lookup_1 _ _ _ _ (i_ready _ Hi) Hk) as Hr.
  unfold step_thread, step_broadcast, step_expiry in Hs. rewrite Hk in Hs. destruct (queue (member s)) as [|m l] eqn:Hq.
  - rewrite (take_empty b _ Hq) in Hs. injection Hs as <-. counted Hi Hk (Got (V := V) (R := R) (E := E) None) false.
    constructor; cbn in *; [lia|lia|lia|intros Hru; specialize (I4 Hru); lia| |lia|lia|lia| |done|done| |].
    + intros Hc. rewrite Hc in *. cbn in *. split_and!; [lia|by unfold idle; cbn; rewrite Hq|lia].
    + intros Ho. destruct I9; [|lia]. destruct Ho; [by left|right; lia].
    + by apply (ok_move _ _ k w _ false).
    + by apply (ready_move _ k w Deq _ false (the_process (member s))); auto.
  - rewrite (take_first b _ m l Hq) in Hs. injection Hs as <-.
    assert (Hf : final (member s) = false).
    { destruct (final (member s)) eqn:Hf; [|done]. destruct (i_final _ Hi Hf) as (_ & Hid & _). unfold idle in Hid. by rewrite Hq in Hid. }
    counted Hi Hk (Got (V := V) (R := R) (E := E) (Some m)) false.
    constructor; cbn in *; [lia|lia|lia|intros Hru; specialize (I4 Hru); lia|by rewrite Hf|lia|lia|lia| |done|done| |].
    + intros Ho. destruct I9; [|lia]. destruct Ho; [by left|right; lia].
    + by apply (ok_move _ _ k w _ false).
    + by apply (ready_move _ k w Deq _ false (the_process (member s))); auto.
Qed.

Lemma inv_suspended s k w n r : inv s -> threads s !! k = Some (w, Suspend n true r) -> inv (sets k w (Sending 0 n r) (set_suspend (n + 1) (member s)) s).
Proof.
  intros Hi Hk. pose proof (Forall_lookup_1 _ _ _ _ (i_threads _ Hi) Hk) as Hok. cbn in Hok.
  counted Hi Hk (Sending (V := V) (E := E) 0 n r) false.
  constructor; cbn in *; [lia|lia|lia|intros Hru; specialize (I4 Hru); lia| |lia|lia|lia| |done|done| |].
  - intros Hf. specialize (I5 Hf) as (? & ? & ?). split_and!; [lia|done|done].
  - intros Ho. destruct I9; [|lia]. destruct Ho; [by left|right; lia].
  - apply (ok_move _ _ k w _ false); [done|]. destruct w; destruct Hok; split; auto with lia.
  - by apply (ready_move _ k w (Suspend n true r) _ false (the_process (member s))); auto.
Qed.
Lemma inv_sends s k w j n r : inv s -> threads s !! k = Some (w, Sending j n r) -> j < n -> inv (send j r (goto k w (Sending (S j) n r) s)).
Proof.
  intros Hi Hk Hj. pose proof (Forall_lookup_1 _ _ _ _ (i_threads _ Hi) Hk) as Hok. cbn in Hok.
  counted Hi Hk (Sending (V := V) (E := E) (S j) n r) false.
  assert (Ht : forall g : pc -> nat, total g [(Ack, OwnCheck)] = g OwnCheck) by (intros; unfold total; cbn; lia).
  constructor; cbn [member threads users timers sent send goto sets section runs_of] in *; rewrite ?total_app, ?Ht in *; cbn in *;
    [lia|lia|lia|intros Hru; specialize (I4 Hru); lia| |lia|lia|lia| |done|done| |].
  - intros Hf. specialize (I5 Hf) as (? & ? & ?). split_and!; [lia|done|done].
  - intros Ho. destruct I9; [|lia]. destruct Ho; [by left|right; lia].
  - rewrite length_alter. apply Forall_app. split; [|by repeat constructor].
    apply (ok_move _ _ k w _ false); [done|]. destruct w; destruct Hok; split; auto with lia.
  - apply Forall_app. split; [|by repeat constructor]. by apply (ready_move _ k w (Sending j n r) _ false (the_process (member s))); auto.
Qed.
Lemma inv_cleared s k w ps : inv s -> threads s !! k = Some (w, OwnClear ps) -> inv (section k w (finish w) (clear_to_send ps) s).
Proof.
  intros Hi Hk. pose proof (Forall_lookup_1 _ _ _ _ (i_threads _ Hi) Hk) as Hok. 
  assert (Hf : final (member s) = false).
  { destruct (final (member s)) eqn:Hf; [|done]. destruct (i_final _ Hi Hf) as [He _]. pose proof (total_in early _ _ _ _ Hk). cbn in *. lia. }
  unfold section. set (d := (clear_to_send ps (member s)).1). set (x := (clear_to_send ps (member s)).2).
  assert (Hd : suspend_count x = suspend_count (member s) - 1 /\
    (d = true /\ suspend_count x = 0 /\ running x = running (member s) \/ d = false /\ (suspend_count x = 0 \/ running x = running (member s))) /\
    idle x = idle (member s) /\ close_queue x = close_queue (member s) /\ final x = final (member s) /\ sender_count x = sender_count (member s) /\
    active x = active (member s) /\ the_process x = the_process (member s)).
  { unfold d, x, clear_to_send. cbn. destruct (Nat.eqb_spec (suspend_count (member s) - 1) 0); [case_match|]; cbn; split_and!; auto. }
  clearbody d x. destruct Hd as (Es & Hd & Ei & Ec & Ef & En & Ea & Ep).
  counted Hi Hk (finish (V := V) (R := R) (E := E) w) d.
  assert (Hw : works (finish (V := V) (R := R) (E := E) w) = 0 /\ clears (finish (V := V) (R := R) (E := E) w) = 0 /\ sends (finish (V := V) (R := R) (E := E) w) = 0
    /\ early (finish (V := V) (R := R) (E := E) w) = 0 /\ resets (finish (V := V) (R := R) (E := E) w) = 0) by by destruct w.
  destruct Hw as (W1 & W2 & W3 & W4 & W5). rewrite W1, W2, W3, W4, W5 in *.
  constructor; cbn in *; rewrite ?Es, ?Ec, ?Ef, ?Ei, ?En, ?Ep, ?Ea; [..|done|done| |].
  all: try (destruct d; lia).
  - intros Hru. destruct Hd as [(_ & Hz & Hr)|[-> [Hz|Hr]]]; [rewrite Hru in Hr; specialize (I4 (eq_sym Hr)); destruct d; lia|lia|].
    rewrite Hr in Hru. specialize (I4 Hru). lia.
  - by rewrite Hf.
  - intros Ho. rewrite Hf in I9. destruct I9; [|done]. destruct Ho; [by left|right; destruct d; lia].
  - apply ok_move; [done|]. by destruct w.
  - apply (ready_move _ k w (OwnClear ps) _ d (the_process (member s))); auto. by destruct w.
Qed.

Lemma inv_task_done s k w : inv s -> threads s !! k = Some (w, TaskDone) ->
  inv (section k w (if final (member s) then if (task_done (member s)).1 then Asserted else Reset else finish w) task_done s).
Proof.
  intros Hi Hk. pose proof (Forall_lookup_1 _ _ _ _ (i_threads _ Hi) Hk) as Hok. destruct w; try done.
  destruct (works_engaged s k Step TaskDone Hi Hk) as [p Hp]; [cbn; lia|]. unfold section, task_done. cbn [fst snd].
  set (q := if final (member s) then _ else _).
  assert (Hq : q = if final (member s) then Reset else Unlock).
  { unfold q. destruct (final (member s)) eqn:Hf; [|done]. destruct (i_final _ Hi Hf) as (_ & -> & _). done. }
  assert (Hn : works q = 0 /\ clears q = 0 /\ sends q = 0 /\ early q = 0 /\ resets q = Nat.b2n (final (member s))
    /\ thread_ok (length (sent s)) (Step, q) /\ ready (the_process (member s)) q) by by rewrite Hq; destruct (final (member s)).
  clearbody q. clear Hq. destruct Hn as (N1 & N2 & N3 & N4 & N5 & Hq & Hr).
  counted Hi Hk q (negb (idle (member s))). rewrite N1, N2, N3, N4, N5 in *. cbn [works clears sends early resets] in *.
  assert (Hid : idle (set_running (negb (idle (member s))) (member s)) = idle (member s)) by done.
  constructor; cbn [member threads users timers sent running suspend_count final close_queue sender_count the_process active set_running];
    rewrite ?Hid; [..|done|done|by apply ok_move|by apply (ready_move _ k Step TaskDone _ _ (the_process (member s))); auto].
  all: try (destruct (idle (member s)); cbn in *; lia).
  - intros Hf. specialize (I5 Hf) as (? & Hidle & ?). rewrite Hidle in *. cbn in *. split_and!; [lia|done|done].
  - intros [Ho|Ho]; [by rewrite Hp in Ho|]. destruct (final (member s)) eqn:Hf; cbn in *.
    + specialize (I5 eq_refl) as (? & Hidle & ?). rewrite Hidle in *. cbn in *. split; [done|lia].
    + destruct I9 as [? _]; [right; destruct (idle (member s)); cbn in *; lia|done].
Qed.
Lemma inv_resets s k w : inv s -> threads s !! k = Some (w, Reset) -> inv (sets k w (finish w) (set_process None (member s)) s).
Proof.
  intros Hi Hk. pose proof (Forall_lookup_1 _ _ _ _ (i_threads _ Hi) Hk) as Hok. destruct w; try done.
  counted Hi Hk (finish (V := V) (R := R) (E := E) Step) false. cbn in *.
  destruct I9 as [Hf Hz]; [right; lia|].
  constructor; cbn in *; [lia|lia|lia|intros Hru; specialize (I4 Hru); lia| |lia|lia|lia| |done|done| |].
  - intros _. destruct (I5 Hf) as (? & ? & ?). split_and!; [lia|done|done].
  - intros _. split; [done|lia].
  - by apply (ok_move _ _ k Step _ false).
  - apply (ready_move _ k Step Reset _ false (the_process (member s))); [done|done|done|right; cbn; lia].
Qed.

Hypothesis Huntimed : untimed.
Lemma after_untimed p : after_state (V := V) (R := R) (E := E) (state_of pr p) = inl Yielding /\ ((state_of pr p).2 <= ns_min)%Z \/ after_state (V := V) (R := R) (E := E) (state_of pr p) = inl TaskDone.
Proof.
  destruct (Huntimed p) as [H|H].
  - left. split; [|done]. unfold after_state. destruct (state_of pr p) as [[] d]; cbn in H.
    + destruct (Z.eqb_spec d ns_max) as [->|_]; [done|]. by rewrite (proj2 (Z.leb_le _ _) H).
    + by rewrite (proj2 (Z.leb_le _ _) H).
  - right. by rewrite H.
Qed.
Lemma same_alike (x : shared) : active x = false -> alike x x.
Proof. by intros Ha. Qed.


Ltac calmly Hi Hk p d x := refine (inv_calm _ _ _ _ p d x Hi Hk _ _ _ _ _ _ _ _ _); [by split_and!|cbn; auto|..]; cbn; try done; try lia.
Lemma inv_step_thread s s' spurious k : inv s -> step_thread pr true b spurious k s = Some s' -> inv s'.
Proof.
  intros Hi Hs. destruct (threads s !! k) as [[w p]|] eqn:Hk; [|unfold step_thread, step_broadcast, step_expiry in Hs; by rewrite Hk in Hs].
  pose proof (Forall_lookup_1 _ _ _ _ (i_threads _ Hi) Hk) as Hok. pose proof (Forall_lookup_1 _ _ _ _ (i_ready _ Hi) Hk) as Hr. cbn in Hr.
  pose proof (i_active _ Hi) as Ha. pose proof (works_engaged s k w p Hi Hk) as He.
  assert (Hf : early p = 1 -> final (member s) = false).
  { intros H. destruct (final (member s)) eqn:Hf; [|done]. destruct (i_final _ Hi Hf) as [Hz _]. pose proof (total_in early _ _ _ _ Hk). lia. }
  destruct p; try (by unfold step_thread, step_broadcast, step_expiry in Hs; rewrite Hk in Hs); try (by destruct w).
  all: try (by eapply inv_deq).
  all: unfold step_thread, step_broadcast, step_expiry in Hs; rewrite Hk in Hs; cbn [mbind option_bind] in Hs.
  all: try (destruct He as [q Hq]; [cbn; lia|]; unfold on_process in Hs; rewrite Hq in Hs).
  all: try (injection Hs as <-).
  - destruct (spurious || control (member s)).
    + calmly Hi Hk (Ended : pc) true (member s). by destruct w.
    + calmly Hi Hk (Locked : pc) false (set_control true (member s)).
  - calmly Hi Hk (Loop : pc) false (set_active false (member s)).
  - destruct (state_of pr q) as [[] d] eqn:Hst; cbn; [destruct (await pr)|].
    + calmly Hi Hk (Deq : pc) false (member s). exists q. by rewrite Hst.
    + destruct w; try done. calmly Hi Hk (Unlock : pc) false (member s).
    + calmly Hi Hk (Act : pc) false (member s).
  - destruct m as [[v|e]|]; [|destruct (set_error pr)|].
    + calmly Hi Hk (Awaiting v : pc) false (member s).
    + calmly Hi Hk (Erring e : pc) false (member s).
    + calmly Hi Hk (Closing (Some e) : pc) false (member s).
    + calmly Hi Hk (Closing None : pc) false (member s).
  - destruct (await pr) as [aw|]; [|done]. injection Hs as <-. destruct (aw q v).2 as [e|].
    + calmly Hi Hk (Broadcast (Exn e) : pc) false (called (CAwait v) (aw q v).1 (member s)); by destruct w.
    + calmly Hi Hk (Loop : pc) false (called (CAwait v) (aw q v).1 (member s)); by destruct w.
  - destruct (set_error pr) as [se|]; [|done]. injection Hs as <-. calmly Hi Hk (Loop : pc) false (called (CError e) (se q e) (member s)).
  - destruct error as [e|], (close pr) as [c|].
    + calmly Hi Hk (Loop : pc) false (called CClose (c q) (member s)).
    + calmly Hi Hk (Loop : pc) false (member s).
    + calmly Hi Hk (Act : pc) false (called CClose (c q) (member s)).
    + calmly Hi Hk (Act : pc) false (member s).
  - calmly Hi Hk (Broadcast (yield pr q).2 : pc) false (called CYield (yield pr q).1 (member s)).
  - destruct (after_untimed q) as [[-> Hd]| ->].
    + calmly Hi Hk (Yielding : pc) false (member s). by exists q.
    + calmly Hi Hk (TaskDone : pc) false (member s).
  - calmly Hi Hk (Suspend (length (sent s)) true r : pc) false (member s). by destruct w.
  - destruct w; try done. destruct Hok as [_ ->]. by apply inv_suspended.
  - destruct (Nat.ltb_spec j n); [by apply inv_sends|]. destruct w; try done. calmly Hi Hk (OwnCheck : pc) false (member s).
  - destruct (final (member s)) eqn:Hfin.
    + destruct w; try done; [calmly Hi Hk (Unlock : pc) false (member s)|calmly Hi Hk (Ended : pc) false (member s)].
    + calmly Hi Hk (OwnState : pc) false (member s). by intros H; rewrite H in Hfin.
  - calmly Hi Hk (OwnClear (state_of pr q).1 : pc) false (member s).
  - by apply inv_cleared.
  - by apply inv_task_done.
  - by apply inv_resets.
  - calmly Hi Hk (Ended : pc) false (set_control false (member s)). by destruct w.
Qed.

Lemma yield_inv_outside s x d us ts ar : inv s ->
  running x = running (member s) || d -> (d = true -> running (member s) = false) -> suspend_count x = suspend_count (member s) ->
  final x = final (member s) -> the_process x = the_process (member s) -> active x = active (member s) ->
  (final x = true -> d = false /\ idle x = true /\ sum_list_with opens us + sum_list_with lasts us = 0) ->
  sum_list_with opens us = sender_count x -> sum_list_with lasts us + Nat.b2n (close_queue x) + Nat.b2n (final x) <= 1 ->
  (0 < sender_count x -> sum_list_with lasts us + Nat.b2n (close_queue x) = 0) ->
  inv (mk_state x (now s) (timers s) (threads s ++ runs_of d) us ts ar (sent s)).
Proof.
  intros [I1 I2 I3 I4 I5 I6 I7 I8 I9 I10 I11 I12 I13] Hr Hd Es Ef Ep Ea Hf Ho Hl Hz.
  assert (Ht : forall g : pc -> nat, total g (threads s ++ runs_of d) = total g (threads s) + (if d then g Run else 0)).
  { intros g. rewrite total_app. destruct d; unfold total; cbn; lia. }
  constructor; cbn [member threads users timers sent]; rewrite ?Ht, ?Es, ?Ep, ?Ea; try done.
  - destruct d; cbn; [specialize (I4 (Hd eq_refl))|]; pose proof (sends_clears (threads s)); lia.
  - destruct d; cbn; [specialize (I4 (Hd eq_refl))|]; lia.
  - destruct d; cbn; lia.
  - rewrite Hr. intros H. apply orb_false_iff in H as [H ->]. specialize (I4 H). lia.
  - intros H. destruct (Hf H) as (-> & ? & ?). rewrite Ef in H. destruct (I5 H) as (? & _ & _). split_and!; [lia|done|done].
  - intros H. rewrite Ef. destruct I9 as [H1 H2]; [destruct H; [by left|right; destruct d; cbn in *; lia]|].
    split; [done|]. rewrite <- Ef in H1. destruct (Hf H1) as [-> _]. lia.
  - apply Forall_app. split; [done|]. by destruct d; repeat constructor.
  - apply Forall_app. split; [done|]. by destruct d; repeat constructor.
Qed.
Lemma opens_in us c u : us !! c = Some u -> opens u <= sum_list_with opens us /\ lasts u <= sum_list_with lasts us.
Proof.
  intros Hc. pose proof (sum_with_insert opens us c _ Closed Hc). pose proof (sum_with_insert lasts us c _ Closed Hc). cbn in *. lia.
Qed.
Lemma yield_inv_step_user s s' c : inv s -> step_user c s = Some s' -> inv s'.
Proof.
  intros Hi Hs. pose proof (i_active _ Hi) as Ha. pose proof (i_senders _ Hi) as Hn. pose proof (i_last _ Hi) as Hla. pose proof (i_open _ Hi) as Hop.
  unfold step_user in Hs. destruct (users s !! c) as [u|] eqn:Hc; [|done]. destruct (opens_in _ _ _ Hc) as [Ho Hl].
  assert (Hf : 0 < opens u + lasts u -> final (member s) = false).
  { intros H. destruct (final (member s)) eqn:Hf; [|done]. destruct (i_final _ Hi Hf) as (_ & _ & Hz). lia. }
  pose proof (fun u' => sum_with_insert opens (users s) c _ u' Hc) as Ho'. pose proof (fun u' => sum_with_insert lasts (users s) c _ u' Hc) as Hl'.
  destruct u as [[|m ms]| |]; try done; injection Hs as <-; cbn [opens lasts] in *; pose proof (Hf ltac:(lia)) as Hfin; clear Hf; rewrite Hfin in *.
  - specialize (Ho' (if sender_count (member s) - 1 =? 0 then LastSender else Closed)). specialize (Hl' (if sender_count (member s) - 1 =? 0 then LastSender else Closed)).
    apply (yield_inv_outside s _ false); cbn; try done; rewrite ?orb_false_r, ?Hfin; try done;
      destruct (Nat.eqb_spec (sender_count (member s) - 1) 0); cbn in *; lia.
  - specialize (Ho' (Sends ms)). specialize (Hl' (Sends ms)).
    apply (yield_inv_outside s (enqueue m (member s)).2 (enqueue m (member s)).1); cbn in *; try done; rewrite ?Ha, ?orb_false_r, ?Hfin; try done; try (cbn; lia).
    by intros [_ H%negb_true_iff]%andb_true_iff.
  - specialize (Ho' Closed). specialize (Hl' Closed).
    apply (yield_inv_outside s (close_sender (member s)).2 (close_sender (member s)).1); cbn in *; try done; rewrite ?Hfin; try done; try (cbn; lia).
    by intros [_ H%negb_true_iff]%andb_true_iff.
Qed.
Lemma yield_inv_step_setter s s' c : inv s -> step_setter c s = Some s' -> inv s'.
Proof.
  intros Hi Hs. pose proof Hi as [I1 I2 I3 I4 I5 I6 I7 I8 I9 I10 I11 I12 I13].
  unfold step_setter in Hs. destruct (setters s !! c) as [[| |]|] eqn:Hc; try done; injection Hs as <-.
  - apply (yield_inv_outside s _ false); cbn; try done; rewrite ?orb_false_r; try done. intros H. by destruct (I5 H) as (_ & ? & ?).
  - apply (yield_inv_outside s (receivers_gone (member s)).2 (receivers_gone (member s)).1); cbn; try done.
    + by intros [_ H%negb_true_iff]%andb_true_iff.
    + intros H. destruct (I5 H) as (_ & Hid & ?). rewrite Hid. done.
Qed.
Lemma inv_turn s s' t : inv s -> take_turn pr true b t s = Some s' -> inv s'.
Proof.
  intros Hi Ht. destruct t; cbn in Ht; [by eapply inv_step_thread|by eapply inv_step_thread|by eapply yield_inv_step_user|by eapply yield_inv_step_setter|..].
  - injection Ht as <-. by destruct Hi.
  - unfold step_timer in Ht. by rewrite (i_timers _ Hi) in Ht.
Qed.
(** ** What the process sees *)

(** The calls a sequential program makes that gives [p] the items it takes one by one
    while [p] awaits, and takes its results: the calls, the items taken, the results
    and [p] in the end. An exception it cannot be told closes it. *)
Inductive drives (p0 : P) : list (@call V E) -> list msg -> list res -> P -> Prop :=
  | drives_nil : drives p0 [] [] [] p0
  | drives_await l ins outs p aw v : drives p0 l ins outs p -> (state_of pr p).1 = await_state -> await pr = Some aw ->
      drives p0 (l ++ [CAwait v]) (ins ++ [Val v]) (outs ++ match (aw p v).2 with Some e => [Exn e] | None => [] end) (aw p v).1
  | drives_error l ins outs p se e : drives p0 l ins outs p -> (state_of pr p).1 = await_state -> set_error pr = Some se ->
      drives p0 (l ++ [CError e]) (ins ++ [Exn e]) outs (se p e)
  | drives_broken l ins outs p c e : drives p0 l ins outs p -> (state_of pr p).1 = await_state -> close pr = Some c ->
      drives p0 (l ++ [CClose]) (ins ++ [Exn e]) outs (c p)
  | drives_dropped l ins outs p e : drives p0 l ins outs p -> (state_of pr p).1 = await_state -> close pr = None ->
      drives p0 l (ins ++ [Exn e]) outs p
  | drives_close l ins outs p c : drives p0 l ins outs p -> (state_of pr p).1 = await_state -> close pr = Some c ->
      drives p0 (l ++ [CClose]) ins outs (c p)
  | drives_yield l ins outs p : drives p0 l ins outs p -> ((state_of pr p).2 <= ns_min)%Z ->
      drives p0 (l ++ [CYield]) ins (outs ++ [(yield pr p).2]) (yield pr p).1.

(** The item a thread took, and what it has for downstream [j]. *)
Definition held (p : pc) : list msg :=
  match p with Got (Some m) => [m] | Awaiting v => [Val v] | Erring e | Closing (Some e) => [Exn e] | _ => [] end.
Definition going (j : nat) (p : pc) : list res :=
  match p with Broadcast r | Suspend _ _ r => [r] | Sending i _ r => if i <=? j then [r] else [] | _ => [] end.
Definition collect {A} (h : pc -> list A) (ts : list (who * pc)) : list A := concat ((fun t => h t.2) <$> ts).
Definition driven (p0 : P) (s : state) : Prop := exists ins outs p,
  drives p0 (calls (member s)) ins outs p /\ (forall x, the_process (member s) = Some x -> x = p) /\
  arrived s = ins ++ collect held (threads s) ++ queue (member s) /\
  forall j l, sent s !! j = Some l -> outs = l ++ collect (going j) (threads s).

Definition carries (p : pc) : nat := works p + sends p.
Lemma collect_app {A} (h : pc -> list A) ts ts' : collect h (ts ++ ts') = collect h ts ++ collect h ts'.
Proof. unfold collect. by rewrite fmap_app, concat_app. Qed.
Lemma collect_runs {A} (h : pc -> list A) d : h Run = [] -> collect h (runs_of d) = [].
Proof. intros Hr. destruct d; unfold collect; cbn; by rewrite ?Hr. Qed.
Lemma collect_same {A} (h : pc -> list A) ts k w p p' d : ts !! k = Some (w, p) -> h p' = h p -> h Run = [] ->
  collect h (<[k := (w, p')]> ts ++ runs_of d) = collect h ts.
Proof.
  intros Hk Hp Hr. rewrite collect_app, collect_runs, app_nil_r by done. unfold collect. rewrite list_fmap_insert. f_equal.
  apply list_insert_id. by rewrite list_lookup_fmap, Hk; cbn; rewrite Hp.
Qed.
Lemma collect_none {A} (h : pc -> list A) ts : (forall p, carries p = 0 -> h p = []) -> total carries ts = 0 -> collect h ts = [].
Proof.
  intros Hh. unfold collect, total. induction ts as [|[w p] ts IH]; cbn; [done|]. intros Ht. by rewrite IH, Hh by lia.
Qed.
Lemma collect_sole {A} (h : pc -> list A) ts k w p : (forall p, carries p = 0 -> h p = []) -> ts !! k = Some (w, p) -> carries p = 1 -> total carries ts <= 1 ->
  collect h ts = h p /\ forall p' d, h Run = [] -> collect h (<[k := (w, p')]> ts ++ runs_of d) = h p'.
Proof.
  intros Hh Hk Hp Ht. pose proof (take_drop_middle ts k _ Hk) as Hts.
  assert (Hz : total carries (firstn k ts) = 0 /\ total carries (drop (S k) ts) = 0).
  { rewrite <- Hts in Ht. rewrite !total_app in Ht. unfold total in *. cbn in Ht. lia. }
  destruct Hz as [Z1 Z2]. split.
  - rewrite <- Hts, collect_app, (collect_none h (firstn k ts)) by done. unfold collect at 1. cbn. fold (collect h (drop (S k) ts)).
    by rewrite (collect_none h), app_nil_r.
  - intros p' d Hr. rewrite collect_app, collect_runs, app_nil_r by done. rewrite insert_take_drop by by eapply lookup_lt_Some.
    rewrite collect_app, (collect_none h (firstn k ts)) by done. unfold collect at 1. cbn. fold (collect h (drop (S k) ts)).
    by rewrite (collect_none h), app_nil_r.
Qed.
Lemma held_carried p : carries p = 0 -> held p = [].
Proof. by destruct p. Qed.
Lemma going_carried j p : carries p = 0 -> going j p = [].
Proof. by destruct p. Qed.
Lemma carries_one s : inv s -> total carries (threads s) <= 1.
Proof. intros Hi. pose proof (i_one _ Hi). by rewrite <- total_add in H. Qed.

Lemma driven_put p0 s k w p p' d x : driven p0 s -> threads s !! k = Some (w, p) -> held p' = held p -> (forall j, going j p' = going j p) ->
  calls x = calls (member s) -> (forall y, the_process x = Some y -> the_process (member s) = Some y) -> queue x = queue (member s) ->
  driven p0 (put s k w p' d x).
Proof.
  intros (ins & outs & y & Hd & Hy & Ha & Ho) Hk Hh Hg Hc Hx Hq. exists ins, outs, y. cbn [put member threads arrived sent]. rewrite Hc, Hq, (collect_same held _ _ _ _ _ _ Hk Hh) by done.
  split_and!; [done|auto|done|]. intros j l Hj. by rewrite (collect_same (going j) _ _ _ _ _ _ Hk (Hg j)); auto.
Qed.
Lemma driven_work p0 s k w p : inv s -> driven p0 s -> threads s !! k = Some (w, p) -> carries p = 1 -> exists ins outs y,
  drives p0 (calls (member s)) ins outs y /\ (forall x, the_process (member s) = Some x -> x = y) /\
  arrived s = ins ++ held p ++ queue (member s) /\ (forall j l, sent s !! j = Some l -> outs = l ++ going j p) /\
  forall p' d x ins' outs' y', drives p0 (calls x) ins' outs' y' -> (forall z, the_process x = Some z -> z = y') ->
    arrived s = ins' ++ held p' ++ queue x -> (forall j l, sent s !! j = Some l -> outs' = l ++ going j p') -> driven p0 (put s k w p' d x).
Proof.
  intros Hi (ins & outs & y & Hd & Hy & Ha & Ho) Hk Hp. pose proof (carries_one _ Hi) as H1.
  destruct (collect_sole held _ _ _ _ held_carried Hk Hp H1) as [Hh Hh']. exists ins, outs, y. rewrite Hh in Ha. split_and!; try done.
  - intros j l Hj. by rewrite (Ho j l Hj), (proj1 (collect_sole (going j) _ _ _ _ (going_carried j) Hk Hp H1)).
  - intros p' d x ins' outs' y' Hd' Hy' Ha' Ho'. exists ins', outs', y'. cbn [put member threads arrived sent]. rewrite Hh' by done. split_and!; [done..|].
    intros j l Hj. rewrite (proj2 (collect_sole (going j) _ _ _ _ (going_carried j) Hk Hp H1)) by done. auto.
Qed.

Lemma driven_sends p0 s k w j n r : inv s -> driven p0 s -> threads s !! k = Some (w, Sending j n r) -> j < length (sent s) ->
  driven p0 (send j r (goto k w (Sending (S j) n r) s)).
Proof.
  intros Hi (ins & outs & y & Hd & Hy & Ha & Ho) Hk Hj. pose proof (carries_one _ Hi) as H1.
  destruct (collect_sole held _ _ _ _ held_carried Hk eq_refl H1) as [Hh Hh'].
  assert (Hack : forall A (h : pc -> list A), h OwnCheck = [] -> collect h [(Ack, OwnCheck)] = []) by (intros A h Hn; unfold collect; cbn; by rewrite Hn).
  exists ins, outs, y. cbn [send goto sets section member threads arrived sent queue fst snd].
  rewrite collect_app, Hack, app_nil_r, (Hh' (Sending (S j) n r) false) by done. rewrite Hh in Ha. split_and!; [done..|].
  intros i l Hl. destruct (collect_sole (going i) _ _ _ _ (going_carried i) Hk eq_refl H1) as [Hg Hg'].
  rewrite collect_app, Hack, app_nil_r, (Hg' (Sending (S j) n r) false) by done. cbn [going] in *. destruct (decide (j = i)) as [<-|Hne].
  - rewrite list_lookup_alter_eq in Hl. destruct (sent s !! j) as [l'|] eqn:Hl'; [|done]. injection Hl as <-.
    rewrite (Ho j l' Hl'), Hg, Nat.leb_refl. by rewrite (proj2 (Nat.leb_gt _ _)), app_nil_r by lia.
  - rewrite list_lookup_alter_ne in Hl by done. rewrite (Ho i l Hl), Hg. f_equal.
    destruct (Nat.leb_spec j i), (Nat.leb_spec (S j) i); done || lia.
Qed.

Ltac calm_put Hdr Hk p d x := refine (driven_put _ _ _ _ _ p d x Hdr Hk _ _ _ _ _); cbn; auto.

(** The steps that call a member of the process. *)
Definition calls_process (p : pc) : bool :=
  match p with Awaiting _ | Erring _ | Closing _ | Yielding => true | _ => false end.
Lemma driven_step_call p0 s s' spurious k w p : inv s -> driven p0 s -> threads s !! k = Some (w, p) -> calls_process p = true -> step_thread pr true b spurious k s = Some s' -> driven p0 s'.
Proof.
  intros Hi Hdr Hk Hc Hs.
  pose proof (Forall_lookup_1 _ _ _ _ (i_ready _ Hi) Hk) as Hr. cbn in Hr.
  pose proof (works_engaged s k w p Hi Hk) as He. pose proof (driven_work p0 s k w p Hi Hdr Hk) as Hw.
  destruct p; try done.
  all: unfold step_thread, step_broadcast, step_expiry in Hs; rewrite Hk in Hs; cbn [mbind option_bind] in Hs.
  all: destruct He as [q Hq]; [cbn; lia|]; unfold on_process in Hs; rewrite Hq in Hs.
  all: destruct (Hw eq_refl) as (ins & outs & y & Hd & Hy & Harr & Hout & Hput).
  all: rewrite <- (Hy q Hq) in Hd; destruct Hr as (q' & Hq' & Hst); rewrite Hq in Hq'; injection Hq' as <-.
  all: try (injection Hs as <-).
  - destruct (await pr) as [aw|] eqn:Haw; [|done]. injection Hs as <-.
    apply (Hput (match (aw q v).2 with None => Loop | Some e => Broadcast (Exn e) end) false (called (CAwait v) (aw q v).1 (member s)) _ _ _ (drives_await p0 _ _ _ _ aw v Hd Hst Haw)); cbn.
    + intros z Hz. by injection Hz as <-.
    + rewrite Harr, <- app_assoc. by destruct (aw q v).2.
    + intros j l Hj. rewrite (Hout j l Hj). cbn. by destruct (aw q v).2; rewrite ?app_nil_r.
  - destruct (set_error pr) as [se|] eqn:Hse; [|done]. injection Hs as <-.
    apply (Hput Loop false (called (CError e) (se q e) (member s)) _ _ _ (drives_error p0 _ _ _ _ se e Hd Hst Hse)); cbn; [|by rewrite Harr, <- app_assoc|done].
    intros z Hz. by injection Hz as <-.
  - assert (Hz : forall x z : P, Some x = Some z -> z = x) by (intros x z Hz; by injection Hz).
    assert (Hz' : forall z : P, the_process (member s) = Some z -> z = q) by by rewrite Hq; apply Hz.
    destruct error as [e|], (close pr) as [c|] eqn:Hcl.
    + apply (Hput Loop false (called CClose (c q) (member s)) _ _ _ (drives_broken p0 _ _ _ _ c e Hd Hst Hcl)); [apply Hz|by rewrite Harr, <- app_assoc|done].
    + apply (Hput Loop false (member s) _ _ _ (drives_dropped p0 _ _ _ _ e Hd Hst Hcl)); [done|by rewrite Harr, <- app_assoc|done].
    + apply (Hput Act false (called CClose (c q) (member s)) _ _ _ (drives_close p0 _ _ _ _ c Hd Hst Hcl)); [apply Hz|done|done].
    + by apply (Hput Act false (member s) _ _ _ Hd).
  - apply (Hput (Broadcast (yield pr q).2) false (called CYield (yield pr q).1 (member s)) _ _ _ (drives_yield p0 _ _ _ _ Hd Hst)); cbn; [|done|].
    + intros z Hz. by injection Hz as <-.
    + intros j l Hj. rewrite (Hout j l Hj). cbn. by rewrite app_nil_r.
Qed.

Lemma driven_step_thread p0 s s' spurious k : inv s -> driven p0 s -> step_thread pr true b spurious k s = Some s' -> driven p0 s'.
Proof.
  intros Hi Hdr Hs. destruct (threads s !! k) as [[w p]|] eqn:Hk; [|unfold step_thread, step_broadcast, step_expiry in Hs; by rewrite Hk in Hs].
  pose proof (Forall_lookup_1 _ _ _ _ (i_threads _ Hi) Hk) as Hok. pose proof (Forall_lookup_1 _ _ _ _ (i_ready _ Hi) Hk) as Hr. cbn in Hr.
  pose proof (works_engaged s k w p Hi Hk) as He. pose proof (driven_work p0 s k w p Hi Hdr Hk) as Hw.
  destruct (calls_process p) eqn:Hc; [by eapply driven_step_call|].
  destruct p; try done; try (by unfold step_thread, step_broadcast, step_expiry in Hs; rewrite Hk in Hs); try (by destruct w).
  all: unfold step_thread, step_broadcast, step_expiry in Hs; rewrite Hk in Hs; cbn [mbind option_bind] in Hs.
  all: try (destruct He as [q Hq]; [cbn; lia|]; unfold on_process in Hs; rewrite Hq in Hs).
  all: try (injection Hs as <-).
  - destruct (spurious || control (member s)); [calm_put Hdr Hk (Ended : pc) true (member s)|calm_put Hdr Hk (Locked : pc) false (set_control true (member s))].
  - calm_put Hdr Hk (Loop : pc) false (set_active false (member s)).
  - match goal with |- driven _ (goto _ _ ?p _) => assert (Hn : held p = [] /\ forall j, going j p = []) end.
    { destruct (state_of pr q) as [[] d]; cbn; [destruct (await pr)|]; [done| |done]. by destruct w. }
    refine (driven_put _ _ _ _ _ _ false (member s) Hdr Hk _ _ _ _ _); cbn; auto; apply Hn.
  - destruct (Hw eq_refl) as (ins & outs & y & Hd & Hy & Harr & Hout & Hput). cbn in *. destruct (queue (member s)) as [|m l] eqn:Hqu.
    + rewrite (take_empty b _ Hqu) in Hs. injection Hs as <-. apply (Hput (Got None) false _ ins outs y); try done. by rewrite Harr; cbn; rewrite Hqu.
    + rewrite (take_first b _ m l Hqu) in Hs. injection Hs as <-. by apply (Hput (Got (Some m)) false _ ins outs y).
  - match goal with |- driven _ (goto _ _ ?p _) => assert (Hn : held p = held (Got m : pc) /\ forall j, going j p = []) end.
    { destruct m as [[v|e]|]; [|destruct (set_error pr)|]; done. }
    refine (driven_put _ _ _ _ _ _ false (member s) Hdr Hk _ _ _ _ _); cbn; auto; apply Hn.
  - destruct (after_untimed q) as [[-> Hd]| ->]; [calm_put Hdr Hk (Yielding : pc) false (member s)|calm_put Hdr Hk (TaskDone : pc) false (member s)].
  - calm_put Hdr Hk (Suspend (length (sent s)) true r : pc) false (member s).
  - calm_put Hdr Hk (Sending 0 n r : pc) false (set_suspend (if small then n + 1 else 1) (member s)).
  - destruct w; try done. destruct Hok as [Hjn ->]. destruct (Hw eq_refl) as (ins & outs & y & Hd & Hy & Harr & Hout & Hput). cbn in Hout.
    destruct (Nat.ltb_spec j (length (sent s))) as [Hlt|Hge].
    + by apply driven_sends.
    + apply (Hput OwnCheck false _ ins outs y); [done..|]. intros i l Hl. rewrite (Hout i l Hl). apply lookup_lt_Some in Hl.
      by rewrite (proj2 (Nat.leb_gt _ _)) by lia.
  - match goal with |- driven _ (goto _ _ ?p _) => assert (Hn : held p = [] /\ forall j, going j p = []) end.
    { destruct (final (member s)), w; done. }
    refine (driven_put _ _ _ _ _ _ false (member s) Hdr Hk _ _ _ _ _); cbn; auto; apply Hn.
  - calm_put Hdr Hk (OwnClear (state_of pr q).1 : pc) false (member s).
  - refine (driven_put _ _ _ _ _ (finish w) (clear_to_send ps (member s)).1 (clear_to_send ps (member s)).2 Hdr Hk _ _ _ _ _);
      unfold clear_to_send; [by destruct w|by destruct w|..]; repeat case_match; done.
  - match goal with |- driven _ (section _ _ ?p _ _) => assert (Hn : held p = [] /\ forall j, going j p = []) end.
    { destruct (final (member s)); [case_match|destruct w]; done. }
    refine (driven_put _ _ _ _ _ _ (task_done (member s)).1 (task_done (member s)).2 Hdr Hk _ _ _ _ _); cbn; auto; apply Hn.
  - refine (driven_put _ _ _ _ _ (finish w) false (set_process None (member s)) Hdr Hk _ _ _ _ _); cbn; auto; by destruct w.
  - calm_put Hdr Hk (Ended : pc) false (set_control false (member s)).
Qed.

Lemma driven_arrive p0 s x d us ts extra : driven p0 s -> calls x = calls (member s) -> the_process x = the_process (member s) ->
  queue x = queue (member s) ++ extra -> driven p0 (mk_state x (now s) (timers s) (threads s ++ runs_of d) us ts (arrived s ++ extra) (sent s)).
Proof.
  intros (ins & outs & y & Hd & Hy & Ha & Ho) Hc Hp Hq. exists ins, outs, y. cbn [member threads arrived sent]. rewrite Hc, Hp, Hq, Ha.
  rewrite collect_app, collect_runs, app_nil_r by done. split_and!; [done|done|by rewrite !app_assoc|].
  intros j l Hj. rewrite collect_app, collect_runs, app_nil_r by done. auto.
Qed.
Lemma driven_outside p0 s g us ts : driven p0 s -> calls (g (member s)).2 = calls (member s) -> the_process (g (member s)).2 = the_process (member s) ->
  queue (g (member s)).2 = queue (member s) -> driven p0 (outside g us ts s).
Proof.
  intros Hd Hc Hp Hq. unfold outside. rewrite <- (app_nil_r (arrived s)). apply (driven_arrive p0 s); [done..|by rewrite app_nil_r].
Qed.
Lemma driven_turn p0 s s' t : inv s -> driven p0 s -> take_turn pr true b t s = Some s' -> driven p0 s'.
Proof.
  intros Hi Hd Ht. destruct t as [k|k|c|c| |t]; cbn in Ht; [by eapply driven_step_thread|by eapply driven_step_thread|..].
  - unfold step_user in Ht. destruct (users s !! c) as [[[|m ms]| |]|]; try done; injection Ht as <-.
    + by apply driven_outside.
    + by apply (driven_arrive p0 s _ _ _ _ [m] Hd).
    + by apply driven_outside.
  - unfold step_setter in Ht. destruct (setters s !! c) as [[| |]|]; try done; injection Ht as <-; by apply driven_outside.
  - by injection Ht as <-.
  - unfold step_timer in Ht. by rewrite (i_timers _ Hi) in Ht.
Qed.
Lemma driven_start p us n d : driven p (start p us n d).
Proof.
  exists [], [], p. cbn. split_and!; [constructor|by intros x Hx; injection Hx|done|].
  intros j l Hj. by apply lookup_replicate in Hj as [-> _].
Qed.
Lemma yield_reached p us n d s : rtc (step pr true b) (start p us n d) s -> inv s /\ driven p s.
Proof.
  intros Hr. assert (Hid : inv (start p us n d) /\ driven p (start p us n d)) by (split; [apply yield_inv_start|apply driven_start]).
  induction Hr as [|s1 s2 s3 [t Ht] _ IH]; [done|]. destruct Hid as [Hi Hd]. apply IH. split; [by eapply inv_turn|by eapply driven_turn].
Qed.

(** ** Properties *)

(** In a member of the process that changes it; reading its state. *)
Definition in_call (p : pc) : Prop := match p with Awaiting _ | Erring _ | Closing _ | Yielding => True | _ => False end.
Definition reading (p : pc) : Prop := match p with Loop | Act | OwnState | Expired => True | _ => False end.
Definition exclusive_calls (s : state) : Prop := forall k l w v p q,
  threads s !! k = Some (w, p) -> threads s !! l = Some (v, q) -> in_call p -> in_call q \/ reading q -> k = l.
Definition process_there (s : state) : Prop := forall k w p, threads s !! k = Some (w, p) -> in_call p \/ reading p ->
  is_Some (the_process (member s)).
Definition no_failures (s : state) : Prop := forall k w, threads s !! k <> Some (w, Undefined) /\ threads s !! k <> Some (w, Asserted).

(** C8: a process that never asks for time, with downstreams that buffer one
    message: in every reachable state at most one thread is in a call that changes
    the process, and nobody reads its state meanwhile; [_process] is there whenever it
    is used; and the assertion of [task_done] holds. *)
Theorem yield_safe p us n d s : rtc (step pr true b) (start p us n d) s -> exclusive_calls s /\ process_there s /\ no_failures s.
Proof.
  intros Hr. destruct (yield_reached p us n d s Hr) as [Hi _]. split_and!.
  - intros k l w v x y Hk Hl Hx Hy. destruct (decide (k = l)) as [|Hne]; [done|exfalso].
    pose proof (works_other _ _ _ _ _ _ _ Hk Hl Hne) as Hw. pose proof (total_in clears _ _ _ _ Hl) as Hc.
    pose proof (Forall_lookup_1 _ _ _ _ (i_threads _ Hi) Hl) as Hok.
    destruct Hi. destruct x; try done; destruct y; cbn in *; try (by destruct Hy); try lia; by destruct v.
  - intros k w x Hk Hx. destruct (works_engaged s k w x Hi Hk) as [y Hy]; [|by exists y].
    pose proof (Forall_lookup_1 _ _ _ _ (i_threads _ Hi) Hk) as Hok. destruct x; cbn; try lia; destruct Hx; try done. by destruct w.
  - intros k w. split; intros Hk; pose proof (Forall_lookup_1 _ _ _ _ (i_threads _ Hi) Hk) as Hok; by destruct w.
Qed.

(** C6: whatever the threads do, a process that never asks for time, with downstreams that
    buffer one message, is driven as by a sequential program:
    there are items and results such that its calls take exactly these items and
    give these results; the items, then the one some thread has taken, then the
    queue are all that arrived, in order; and each downstream has been sent the
    results, in order, but for the one that is being sent. *)
Theorem yield_refines p us n d s : rtc (step pr true b) (start p us n d) s -> exists ins outs p',
  drives p (calls (member s)) ins outs p' /\ (forall x, the_process (member s) = Some x -> x = p') /\
  arrived s = ins ++ collect held (threads s) ++ queue (member s) /\
  forall j l, sent s !! j = Some l -> outs = l ++ collect (going j) (threads s).
Proof. intros Hr. apply (yield_reached p us n d s Hr). Qed.
End safety.

(** The collecting process, which never asks for time, on its way. *)
Lemma collecting_untimed : untimed collecting.
Proof. intros p. cbn. case_match; [by left|by right]. Qed.
Definition collect_state : state := after collecting (firstn 15 collect_turns) (start ([], false) [[Val 1; Val 2]] 1 1).
Lemma collected_run : rtc (step collecting true 1) (start ([], false) [[Val 1; Val 2]] 1 1) collect_state.
Proof. apply after_run. vm_compute. by eexists. Qed.
Lemma yield_safe_witness : calls (member collect_state) = [CAwait 1] /\ exclusive_calls collect_state /\ process_there collect_state /\ no_failures collect_state.
Proof. split; [vm_compute; reflexivity|]. apply (yield_safe collecting 1 collecting_untimed ([], false) [[Val 1; Val 2]] 1 1 _ collected_run). Defined.
Lemma yield_refines_witness : the_process (member collect_state) = Some ([1], false) /\ exists ins outs p',
  drives collecting ([], false) (calls (member collect_state)) ins outs p' /\ (forall x, the_process (member collect_state) = Some x -> x = p') /\
  arrived collect_state = ins ++ collect held (threads collect_state) ++ queue (member collect_state) /\
  forall j l, sent collect_state !! j = Some l -> outs = l ++ collect (going j) (threads collect_state).
Proof. split; [vm_compute; reflexivity|]. apply (yield_refines collecting 1 collecting_untimed ([], false) [[Val 1; Val 2]] 1 1 _ collected_run). Defined.
