(* ===== verification/FunctionProcess.v ===== *)
(** * Functions as processes

    Model of [function_process] of [stlab]'s [channel.hpp]: the process that [await]s
    the arguments of a function, binds them, and [yield]s its result. In the machine
    of [ChannelYield], in any interleaving, it maps the function over the values
    that arrive; exceptions that arrive it does not see. *)

From S2P Require Import Prelude ChannelQueues ChannelYield YieldSafety.
Local Open Scope nat_scope.

Section function.
Context {V R E : Type}.

(** [_bound] (empty before the first [await]) and [_done]. *)
Record bound_call := mk_bound { bound : option V; done_ : bool }.
Definition new_process : bound_call := mk_bound None true.

(** [_f], which may throw, and what calling an empty [_bound] throws. *)
Context (f : V -> item R E) (bad_function_call : E).

Definition function_process : process bound_call V R E :=
  mk_process bound_call V R E
    (fun p => if done_ p then await_forever else yield_immediate)
    (Some (fun p v => (mk_bound (Some v) false, None)))
    (fun p => (mk_bound (bound p) true, match bound p with Some v => f v | None => Exn bad_function_call end))
    None None.

Lemma function_untimed : untimed function_process.
Proof. intros [v []]; cbn; [by right|by left]. Qed.

(** The values among the items. *)
Definition values (ins : list (item V E)) : list V := omap (fun m => match m with Val v => Some v | Exn _ => None end) ins.
(** The result that is still to be asked for. *)
Definition owed (p : bound_call) : list (item R E) :=
  if done_ p then [] else match bound p with Some v => [f v] | None => [] end.

Lemma values_app l l' : values (l ++ l') = values l ++ values l'.
Proof. apply omap_app. Qed.

(** A program that drives the process gets the function's results, in order. *)
Lemma function_drives calls ins outs p : drives function_process new_process calls ins outs p ->
  f <$> values ins = outs ++ owed p /\ (done_ p = false -> bound p <> None).
Proof.
  induction 1 as [|l ins outs p aw v _ [IH Hb] Hst Haw|l ins outs p se e _ _ _ Hse|l ins outs p c e _ _ _ Hc|l ins outs p e _ [IH Hb] Hst _|l ins outs p c _ _ _ Hc|l ins outs p _ [IH Hb] Hst];
    try done.
  - injection Haw as <-. cbn in *. destruct (done_ p) eqn:Hd; [|done]. split; [|done].
    unfold owed in *. rewrite Hd, !app_nil_r in *. cbn. by rewrite values_app, fmap_app, IH.
  - split; [|done]. by rewrite values_app, app_nil_r.
  - cbn in *. destruct (done_ p) eqn:Hd; [cbn in Hst; unfold ns_min, ns_max in Hst; lia|]. split; [|done].
    unfold owed in *. cbn. rewrite Hd in IH. rewrite IH, app_nil_r. specialize (Hb eq_refl). by destruct (bound p).
Qed.

(** Each downstream of a function's process has been sent the results of the function on the
    values that arrived first, in the order of arrival; what a thread is sending, the
    result still owed, a value some thread has taken and what is queued are the rest. *)
Theorem function_process_maps (b : Z) us n d s : rtc (step function_process true b) (start new_process us n d) s ->
  exists p, (forall x, the_process (member s) = Some x -> x = p) /\
    forall j l, sent s !! j = Some l ->
      f <$> values (arrived s) =
        l ++ collect (going j) (threads s) ++ owed p ++ (f <$> values (collect held (threads s) ++ queue (member s))).
Proof.
  intros Hr. destruct (yield_refines function_process b function_untimed _ _ _ _ _ Hr) as (ins & outs & p & Hd & Hp & Ha & Hs).
  destruct (function_drives _ _ _ _ Hd) as [Hm _]. exists p. split; [done|]. intros j l Hl.
  rewrite Ha, values_app, fmap_app, Hm, (Hs j l Hl). by rewrite <- !app_assoc.
Qed.
End function.

(** A function that doubles, after the first of two values. *)
Definition double : process (bound_call (V := nat)) nat nat nat := function_process (fun v => Val (2 * v)) 0.
Definition doubled : state :=
  after double ([User 0; User 0; Setter 0; Setter 0] ++ replicate 14 (Thread 0)) (start new_process [[Val 1; Val 5]] 1 1).
Lemma function_process_maps_witness : sent doubled = [[Val 2]] /\ exists p rest, owed (fun v => Val (E := nat) (2 * v)) p = rest /\
  [Val 2; Val 10] = [Val 2] ++ collect (going 0) (threads doubled) ++ rest ++ [Val 10].
Proof.
  split; [vm_compute; reflexivity|].
  destruct (function_process_maps (fun v => Val (2 * v)) 0 1 [[Val 1; Val 5]] 1 1 doubled) as (p & _ & Hl).
  { apply after_run. vm_compute. by eexists. }
  exists p, (owed (fun v => Val (2 * v)) p). split; [reflexivity|]. apply (Hl 0 [Val 2]). vm_compute. reflexivity.
Defined.
