(* ===== verification/MergedProcess.v ===== *)
(** * Merged channels

    Model of the processes of [stlab]'s [channel.hpp] that [merge_channel], [zip_with],
    [zip] and [merge] make: a function of several senders behind one of the queue
    strategies of [ChannelQueues]. Senders, the closures given to the executor,
    the acknowledgements of the downstreams and the setting of receivers to ready
    interleave at their critical sections. A sender here sends when it likes; how
    often the process clears it to send is counted. *)

From S2P Require Import Prelude ChannelQueues ChannelYield.
Local Open Scope nat_scope.

Section merged.
Context {V R E Q : Type} {St : Strategy (item V E) Q}.
Abbreviation msg := (item V E).
Abbreviation res := (item R E).

(** ** The threads

    A closure or an acknowledgement: not begun; with a message (none: nothing there, or
    closing) and the upstream processes still to be cleared; with a result; with the
    number of downstreams; sending to downstream [j]; in [clear_to_send], before and
    after the test of [_process_final]; clearing the downstream; gone; gone with an
    exception in the message, the process still marked as running; at a failed assertion;
    at an access to an empty deque or a process that is not there. *)
Inductive pc :=
  | Run
  | Pop (m : option (list msg)) (cts : list nat)
  | Broadcast (r : res) | Suspend (n : nat) (r : res) | Sending (j n : nat) (r : res)
  | OwnCheck | OwnClear
  | Clear | Ended | Stuck | Asserted | Undefined.

(** The upstream of queue [i], with what it will send; the receivers becoming ready. *)
Inductive user := Sends (ms : list msg) | LastSender | Closed.
Inductive setter := SetReady | LastReceiver | Ready.

(** The fields of [shared_process], the threads, and what happened: the operations on the
    queue, what was taken with its senders, what each downstream was sent, how often
    each upstream was cleared, whether the downstreams were closed. *)
Record state := mk_state {
  queue : Q;
  running : bool;
  suspend_count : nat;
  close_queue : bool;
  final : bool;
  engaged : bool;
  sender_count : nat;
  receiver_count : nat;
  threads : list pc;
  users : list user;
  setters : list setter;
  ops : list (op msg);
  outs : list (list (nat * msg));
  sent : list (list res);
  cleared : list nat;
  closed : bool
}.

Definition set_threads (l : list pc) (s : state) : state :=
  mk_state (queue s) (running s) (suspend_count s) (close_queue s) (final s) (engaged s) (sender_count s) (receiver_count s)
    l (users s) (setters s) (ops s) (outs s) (sent s) (cleared s) (closed s).
Definition set_running (r : bool) (n : nat) (s : state) : state :=
  mk_state (queue s) r n (close_queue s) (final s) (engaged s) (sender_count s) (receiver_count s)
    (threads s) (users s) (setters s) (ops s) (outs s) (sent s) (cleared s) (closed s).
Definition set_queue (q : Q) (o : op msg) (s : state) : state :=
  mk_state q (running s) (suspend_count s) (close_queue s) (final s) (engaged s) (sender_count s) (receiver_count s)
    (threads s) (users s) (setters s) (ops s ++ [o]) (outs s) (sent s) (cleared s) (closed s).
Definition set_taken (l : list (list (nat * msg))) (c fin : bool) (s : state) : state :=
  mk_state (queue s) (running s) (suspend_count s) c fin (engaged s) (sender_count s) (receiver_count s)
    (threads s) (users s) (setters s) (ops s) (outs s ++ l) (sent s) (cleared s) (closed s).
Definition set_closed (s : state) : state :=
  mk_state (queue s) (running s) (suspend_count s) (close_queue s) (final s) false (sender_count s) (receiver_count s)
    (threads s) (users s) (setters s) (ops s) (outs s) (sent s) (cleared s) true.
Definition send (j : nat) (r : res) (s : state) : state :=
  mk_state (queue s) (running s) (suspend_count s) (close_queue s) (final s) (engaged s) (sender_count s) (receiver_count s)
    (threads s) (users s) (setters s) (ops s) (outs s) (alter (fun l => l ++ [r]) j (sent s)) (cleared s) (closed s).
Definition clear_upstream (i : nat) (s : state) : state :=
  mk_state (queue s) (running s) (suspend_count s) (close_queue s) (final s) (engaged s) (sender_count s) (receiver_count s)
    (threads s) (users s) (setters s) (ops s) (outs s) (sent s) (alter S i (cleared s)) (closed s).
Definition set_users (n : nat) (c : bool) (l : list user) (s : state) : state :=
  mk_state (queue s) (running s) (suspend_count s) c (final s) (engaged s) n (receiver_count s)
    (threads s) l (setters s) (ops s) (outs s) (sent s) (cleared s) (closed s).
Definition set_setters (n : nat) (l : list setter) (s : state) : state :=
  mk_state (queue s) (running s) (suspend_count s) (close_queue s) (final s) (engaged s) (sender_count s) n
    (threads s) (users s) l (ops s) (outs s) (sent s) (cleared s) (closed s).

Definition idle (s : state) : bool := q_empty (queue s) && negb (close_queue s).
(** [if (do_run) run();] *)
Definition runs_if (do_run : bool) (s : state) : state :=
  set_threads (threads s ++ (if do_run then [Run] else [])) s.
(** [do_run] is also the new [_process_running] when that is false. *)
Definition try_run (do_run : bool) (s : state) : state :=
  let go := do_run && negb (running s) in runs_if go (set_running (running s || go) (suspend_count s) s).

Section steps.
(** The function, [_process_buffer_size], and whether the downstreams' buffers have room for at
    most one message. *)
Context (f : list V -> res) (b : Z) (small : bool).

(** The arguments of a message without an exception ([find_argument_error]). *)
Fixpoint arguments (ms : list msg) : option (list V) :=
  match ms with
  | [] => Some []
  | Val v :: ms => vs ← arguments ms; Some (v :: vs)
  | Exn _ :: _ => None
  end.

Definition goto (k : nat) (p : pc) (s : state) : state := set_threads (<[k := p]> (threads s)) s.

(** The upstreams with [do_cts]. *)
Definition to_clear (cts : list bool) : list nat :=
  omap (fun p : nat * bool => if p.2 then Some p.1 else None) (imap pair cts).

Definition pop_section (k : nat) (s : state) : state :=
  match pop_from_queue b (queue s) (close_queue s) with
  | None => goto k Undefined s
  | Some (m, cts, do_close, q, c) =>
      goto k (Pop m (to_clear cts))
        (set_taken (match m with Some ms => [zip (q_taken (queue s)) ms] | None => [] end) c
           (match m with Some _ => final s | None => do_close end) (set_queue q Take s))
  end.

Definition task_done (k : nat) (s : state) : state :=
  let do_run := negb (idle s) in
  runs_if do_run (goto k (if final s then if do_run then Asserted else Clear else Ended) (set_running do_run (suspend_count s) s)).

(** The second section of [clear_to_send]. *)
Definition clear_to_send (s : state) : state :=
  let s := set_running (running s) (suspend_count s - 1) s in
  if suspend_count s =? 0 then if idle s then set_running false 0 s else runs_if true s else s.

Definition step_thread (k : nat) (s : state) : option state :=
  p ← threads s !! k;
  match p with
  | Run => Some (pop_section k s)
  | Pop m (i :: cts) => Some (goto k (Pop m cts) (clear_upstream i s))
  | Pop None [] => Some (task_done k s)
  | Pop (Some ms) [] =>
      Some (goto k (match arguments ms with
                    | None => Stuck
                    | Some vs => if engaged s then Broadcast (f vs) else Undefined
                    end) s)
  | Broadcast r => Some (goto k (Suspend (length (sent s)) r) s)
  | Suspend n r => Some (goto k (Sending 0 n r) (set_running (running s) (if small then n + 1 else 1) s))
  | Sending j n r =>
      if j <? n then Some (set_threads (<[k := Sending (S j) n r]> (threads s) ++ [OwnCheck]) (send j r s))
      else Some (goto k OwnCheck s)
  | OwnCheck => Some (goto k (if final s then Ended else OwnClear) s)
  | OwnClear => Some (clear_to_send (goto k Ended s))
  | Clear => Some (goto k Ended (set_closed s))
  | Ended | Stuck | Asserted | Undefined => None
  end.

(** [enqueue] and [remove_sender] by the upstream of queue [i]. *)
Definition step_user (i : nat) (s : state) : option state :=
  u ← users s !! i;
  match u with
  | Sends (m :: ms) =>
      Some (try_run (receiver_count s =? 0)
             (set_users (sender_count s) (close_queue s) (<[i := Sends ms]> (users s)) (set_queue (q_append i m (queue s)) (Append i m) s)))
  | Sends [] =>
      Some (set_users (sender_count s - 1) (close_queue s)
             (<[i := if sender_count s - 1 =? 0 then LastSender else Closed]> (users s)) s)
  | LastSender => Some (try_run (receiver_count s =? 0) (set_users (sender_count s) true (<[i := Closed]> (users s)) s))
  | Closed => None
  end.

Definition step_setter (c : nat) (s : state) : option state :=
  t ← setters s !! c;
  match t with
  | SetReady =>
      Some (set_setters (receiver_count s - 1) (<[c := if receiver_count s - 1 =? 0 then LastReceiver else Ready]> (setters s)) s)
  | LastReceiver => Some (try_run (negb (idle s)) (set_setters (receiver_count s) (<[c := Ready]> (setters s)) s))
  | Ready => None
  end.

Inductive turn := Thread (k : nat) | User (i : nat) | Setter (c : nat).
Definition take_turn (t : turn) (s : state) : option state :=
  match t with Thread k => step_thread k s | User i => step_user i s | Setter c => step_setter c s end.
Definition step (s s' : state) : Prop := exists t, take_turn t s = Some s'.
Fixpoint take_turns (ts : list turn) (s : state) : option state :=
  match ts with [] => Some s | t :: ts => s ← take_turn t s; take_turns ts s end.
End steps.

(** An empty queue [q], what the upstreams will send, [n] receivers, [d] downstreams. *)
Definition start (q : Q) (us : list (list msg)) (n d : nat) : state :=
  mk_state q false 0 false false true (length us) n [] (Sends <$> us) (replicate n SetReady) [] [] (replicate d [])
    (replicate (length us) 0) false.

(** ** Invariants *)

(** At work on the process; the calls of [clear_to_send] to come; sending. *)
Definition active (p : pc) : nat := match p with Run | Pop _ _ | Broadcast _ | Suspend _ _ | Stuck => 1 | _ => 0 end.
Definition debt (p : pc) : nat := match p with Sending j n _ => n - j + 1 | OwnCheck | OwnClear => 1 | _ => 0 end.
Definition sending (p : pc) : nat := match p with Sending _ _ _ => 1 | _ => 0 end.
Definition total (g : pc -> nat) (s : state) : nat := sum_list_with g (threads s).

Definition tokens (s : state) : Prop :=
  if running s then
    total active s = 1 /\ total debt s = 0 /\ total sending s = 0 \/
    total active s = 0 /\ 0 < total debt s /\ suspend_count s = total debt s /\ total sending s <= 1
  else total active s = 0 /\ total debt s = 0 /\ total sending s = 0.
Definition thread_ok (d : nat) (fin : bool) (p : pc) : Prop :=
  match p with
  | Suspend n _ => n = d
  | Sending j n _ => n = d /\ j <= n
  | Clear => fin = true
  | Asserted | Undefined => False
  | _ => True
  end.
(** What threads do once the process has seen its end. *)
Definition late (p : pc) : Prop := match p with Pop None _ | Clear | Ended => True | _ => False end.
Definition clearing (p : pc) : nat := match p with Pop None _ | Clear => 1 | _ => 0 end.
Definition opens (u : user) : nat := match u with Sends _ => 1 | _ => 0 end.
Definition lasts (u : user) : nat := match u with LastSender => 1 | _ => 0 end.
Definition unready (t : setter) : nat := match t with SetReady => 1 | _ => 0 end.
Definition last_receiver (t : setter) : nat := match t with LastReceiver => 1 | _ => 0 end.

Record control (wf : Q -> Prop) (s : state) : Prop := mk_control {
  c_tokens : tokens s;
  c_threads : Forall (thread_ok (length (sent s)) (final s)) (threads s);
  c_final : final s = true -> close_queue s = false /\ q_empty (queue s) = true /\ total debt s = 0 /\ Forall late (threads s) /\
    (closed s = true \/ 0 < total clearing s);
  c_engaged : engaged s = false -> final s = true;
  c_senders : sender_count s = sum_list_with opens (users s);
  c_close : sum_list_with lasts (users s) + Nat.b2n (close_queue s) + Nat.b2n (final s) = if sender_count s =? 0 then 1 else 0;
  c_queue : wf (queue s) /\ length (users s) = q_senders;
  c_receivers : receiver_count s = sum_list_with unready (setters s)
}.
(** A process that does not run has nothing to do, or a receiver will see to it. *)
Definition attended (s : state) : Prop :=
  running s = false -> idle s = true \/ 0 < receiver_count s \/ 0 < sum_list_with last_receiver (setters s).

(** ** Lemmas *)

Lemma total_goto g k p p' s : threads s !! k = Some p -> total g (goto k p' s) + g p = total g s + g p'.
Proof. apply sum_with_insert. Qed.
Lemma total_runs g c s : total g (runs_if c s) = total g s + (if c then g Run else 0).
Proof. unfold total, runs_if. cbn. rewrite sum_list_with_app. destruct c; cbn; lia. Qed.
Lemma thread_counts g k p s : threads s !! k = Some p -> g p <= total g s.
Proof.
  unfold total. generalize (threads s). intros l. revert k. induction l as [|x l IH]; intros [|k] Hk; cbn in *; simplify_eq; [lia|].
  specialize (IH k Hk). lia.
Qed.

Section control.
Context {wf : Q -> Prop} {Laws : StrategyLaws Q wf} (f : list V -> res) (b : Z).

Lemma threads_runs d fin (c : bool) l : Forall (thread_ok d fin) l -> Forall (thread_ok d fin) (l ++ if c then [Run] else []).
Proof. intros H. apply Forall_app. split; [done|]. destruct c; by repeat constructor. Qed.

(** A process that was not running starts, or is left alone. *)
Lemma try_run_control c s : control wf s -> (c = true -> final s = false) -> control wf (try_run c s).
Proof.
  intros [H1 H2 H3 H4 H5 H6 H7 H9] Hf. unfold try_run. set (go := c && negb (running s)).
  assert (Hgo : go = true -> running s = false /\ final s = false) by (unfold go; intros [Hc Hr%negb_true_iff]%andb_true_iff; auto).
  assert (Ht : forall g, total g (runs_if go (set_running (running s || go) (suspend_count s) s)) = total g s + if go then g Run else 0).
  { intros g. by rewrite total_runs. }
  constructor; try done.
  - unfold tokens in *. rewrite !Ht. cbn. destruct go eqn:Eg; [|by rewrite orb_false_r, !Nat.add_0_r].
    destruct (Hgo eq_refl) as [-> _]. cbn. rewrite (proj1 (Hgo eq_refl)) in H1. lia.
  - by apply threads_runs.
  - intros Hfin. cbn in Hfin. destruct (H3 Hfin) as (? & ? & ? & ? & ?). destruct go; [destruct (Hgo eq_refl); congruence|].
    rewrite !Ht. cbn. rewrite !app_nil_r, !Nat.add_0_r. done.
Qed.
Lemma try_run_attended c s : (running s = false -> c = false ->
  idle s = true \/ 0 < receiver_count s \/ 0 < sum_list_with last_receiver (setters s)) -> attended (try_run c s).
Proof.
  intros H. unfold attended, try_run. cbn. intros [Hr Hg]%orb_false_iff. rewrite Hr, andb_true_r in Hg. by apply H.
Qed.

(** A thread goes on. *)
Lemma goto_control k p p' s : control wf s -> threads s !! k = Some p -> active p' = active p -> debt p' = debt p -> sending p' <= sending p ->
  thread_ok (length (sent s)) (final s) p' -> (final s = true -> late p' /\ (closed s = true \/ clearing p <= clearing p')) -> control wf (goto k p' s).
Proof.
  intros [H1 H2 H3 H4 H5 H6 H7 H9] Hk Ha Hd Hs Hok Hl.
  pose proof (total_goto active k p p' s Hk) as Ea. pose proof (total_goto debt k p p' s Hk) as Ed.
  pose proof (total_goto sending k p p' s Hk) as Es. pose proof (total_goto clearing k p p' s Hk) as Ec.
  constructor; try done.
  - unfold tokens in *. cbn. destruct (running s); cbn in *; lia.
  - by apply Forall_insert.
  - intros Hf. cbn in Hf. destruct (H3 Hf) as (? & ? & ? & ? & Hcl). destruct (Hl Hf) as [Hp Hc]. split_and!; [done|done|lia|by apply Forall_insert|].
    destruct Hcl as [|Hcl]; [by left|]. destruct Hc as [|Hc]; [by left|]. right. lia.
Qed.

(** The thread that works on the process is alone. *)
Lemma worker_alone k p s : control wf s -> threads s !! k = Some p -> active p = 1 ->
  running s = true /\ total active s = 1 /\ total debt s = 0 /\ total sending s = 0.
Proof.
  intros Hc Hk Ha. pose proof (thread_counts active k p s Hk) as Hle. pose proof (c_tokens _ _ Hc) as Ht. unfold tokens in Ht.
  destruct (running s); [|lia]. destruct Ht as [?|(? & _)]; [done|lia].
Qed.
Lemma debt_owed k p s : control wf s -> threads s !! k = Some p -> 0 < debt p ->
  running s = true /\ total active s = 0 /\ suspend_count s = total debt s /\ total sending s <= 1 /\ final s = false.
Proof.
  intros Hc Hk Hd. pose proof (thread_counts debt k p s Hk) as Hle. pose proof (c_tokens _ _ Hc) as Ht. unfold tokens in Ht.
  destruct (running s); [|lia]. destruct Ht as [?|(? & ? & ? & ?)]; [lia|]. split_and!; try done.
  destruct (final s) eqn:Hf; [|done]. destruct (c_final _ _ Hc Hf) as (_ & _ & Hz & _). lia.
Qed.
Lemma not_final k p s : control wf s -> threads s !! k = Some p -> ~ late p -> final s = false.
Proof.
  intros Hc Hk Hl. destruct (final s) eqn:Hf; [|done]. destruct (c_final _ _ Hc Hf) as (_ & _ & _ & Hall & _).
  by destruct (Hl (Forall_lookup_1 _ _ _ _ Hall Hk)).
Qed.

Lemma alone_late k p j p' s : control wf s -> threads s !! k = Some p -> active p = 1 -> threads s !! j = Some p' -> j <> k -> late p'.
Proof.
  intros Hc Hk Ha Hj Hne. destruct (worker_alone k p s Hc Hk Ha) as (_ & Hta & Htd & _).
  pose proof (total_goto active k p Ended s Hk) as Ea. cbn in Ea.
  assert (Hj' : threads (goto k Ended s) !! j = Some p') by (cbn; by rewrite list_lookup_insert_ne).
  pose proof (thread_counts active j p' _ Hj'). pose proof (thread_counts debt j p' s Hj).
  pose proof (Forall_lookup_1 _ _ _ _ (c_threads _ _ Hc) Hj) as Hok. destruct p'; cbn in *; try done; lia.
Qed.

Lemma pop_control k s : control wf s -> threads s !! k = Some Run -> control wf (pop_section b k s).
Proof.
  intros Hc Hk. pose proof (not_final k Run s Hc Hk (fun H => H)) as Hf. destruct (worker_alone k Run s Hc Hk eq_refl) as (Hr & Ha & Hd & Hs).
  pose proof Hc as [H1 H2 H3 H4 H5 H6 [Hw Hl] H9].
  destruct (pop_spec b (queue s) (close_queue s) Hw) as (m & cts & cl & q' & c' & Hp & Hw' & Hm). unfold pop_section. rewrite Hp.
  set (p' := Pop m (to_clear cts)).
  pose proof (total_goto active k Run p' s Hk) as Ea. pose proof (total_goto debt k Run p' s Hk) as Ed.
  pose proof (total_goto sending k Run p' s Hk) as Es. cbn in Ea, Ed, Es.
  constructor; cbn; try done.
  - unfold tokens, total, goto in *. cbn in *. rewrite Hr. lia.
  - apply Forall_insert; [|done]. rewrite Hf in H2. eapply Forall_impl; [exact H2|]. by intros [].
  - destruct m as [ms|]; [by rewrite Hf|]. destruct Hm as (He & -> & -> & -> & _). intros Hcl. split_and!; [done|done| | |].
    + unfold total, goto in *. cbn in *. lia.
    + apply Forall_lookup. intros j p [(-> & <- & _)|[Hne Hj]]%list_lookup_insert_Some; [done|]. by eapply (alone_late k Run j).
    + right. change (0 < total clearing (goto k p' s)). eapply Nat.lt_le_trans; [|eapply (thread_counts clearing k p')]; [cbn; lia|].
      cbn. apply list_lookup_insert_eq. by eapply lookup_lt_Some.
  - intros He. by rewrite (H4 He) in Hf.
  - rewrite Hf in H6. destruct m as [ms|]; [destruct Hm as (_ & _ & -> & _); by rewrite Hf|]. destruct Hm as (_ & _ & -> & -> & _). cbn in *. lia.
Qed.

Lemma task_done_control k s : control wf s -> threads s !! k = Some (Pop None []) -> control wf (task_done k s) /\ attended (task_done k s).
Proof.
  intros Hc Hk. destruct (worker_alone k _ s Hc Hk eq_refl) as (Hr & Ha & Hd & Hs).
  pose proof Hc as [H1 H2 H3 H4 H5 H6 H7 H9]. unfold task_done.
  set (p' := if final s then if negb (idle s) then Asserted else Clear else Ended).
  assert (Hidle : final s = true -> idle s = true) by (intros Hf; destruct (H3 Hf) as (Hc1 & Hc2 & _); unfold idle; by rewrite Hc1, Hc2).
  assert (Hp : active p' = 0 /\ debt p' = 0 /\ sending p' = 0).
  { unfold p'. destruct (final s); [|done]. by destruct (negb (idle s)). }
  destruct Hp as (Hp1 & Hp2 & Hp3).
  pose proof (total_goto active k _ p' s Hk) as Ea. pose proof (total_goto debt k _ p' s Hk) as Ed.
  pose proof (total_goto sending k _ p' s Hk) as Es. cbn in Ea, Ed, Es.
  split; [|unfold attended; cbn; intros Hi%negb_false_iff; by left].
  constructor; try done.
  - unfold tokens. rewrite !total_runs. unfold total, goto in *. cbn in *. destruct (negb (idle s)); cbn; lia.
  - apply threads_runs. cbn. apply Forall_insert; [done|]. unfold p'. destruct (final s) eqn:Hf; [|done]. by rewrite Hidle.
  - cbn. intros Hf. destruct (H3 Hf) as (? & ? & ? & ? & ?). unfold p'. rewrite Hf, (Hidle Hf). cbn. rewrite app_nil_r.
    split_and!; [done|done| |by apply Forall_insert|].
    + unfold p' in Ed. rewrite Hf, (Hidle Hf) in Ed. cbn in Ed. lia.
    + right. pose proof (total_goto clearing k _ Clear s Hk) as Ec. pose proof (thread_counts clearing k _ s Hk) as Ei. cbn in Ec, Ei. lia.
Qed.

Lemma suspend_control k n r s : control wf s -> threads s !! k = Some (Suspend n r) ->
  control wf (goto k (Sending 0 n r) (set_running (running s) (n + 1) s)).
Proof.
  intros Hc Hk. destruct (worker_alone k _ s Hc Hk eq_refl) as (Hr & Ha & Hd & Hs). pose proof (not_final k _ s Hc Hk (fun H => H)) as Hf.
  pose proof Hc as [H1 H2 H3 H4 H5 H6 H7 H9]. pose proof (Forall_lookup_1 _ _ _ _ H2 Hk) as Hn. cbn in Hn.
  pose proof (total_goto active k _ (Sending 0 n r) s Hk) as Ea. pose proof (total_goto debt k _ (Sending 0 n r) s Hk) as Ed.
  pose proof (total_goto sending k _ (Sending 0 n r) s Hk) as Es. cbn in Ea, Ed, Es.
  constructor; try done.
  - unfold tokens, total, goto in *. cbn in *. rewrite Hr. right. lia.
  - cbn. apply Forall_insert; [done|]. split; [done|lia].
  - cbn. by rewrite Hf.
Qed.

Lemma sends_control k j n r s : control wf s -> threads s !! k = Some (Sending j n r) -> j < n ->
  control wf (set_threads (<[k := Sending (S j) n r]> (threads s) ++ [OwnCheck]) (send j r s)).
Proof.
  intros Hc Hk Hj. destruct (debt_owed k _ s Hc Hk) as (Hr & Ha & Hd & Hs & Hf); [cbn; lia|].
  pose proof Hc as [H1 H2 H3 H4 H5 H6 H7 H9]. pose proof (Forall_lookup_1 _ _ _ _ H2 Hk) as [Hn _].
  pose proof (total_goto active k _ (Sending (S j) n r) s Hk) as Ea. pose proof (total_goto debt k _ (Sending (S j) n r) s Hk) as Ed.
  pose proof (total_goto sending k _ (Sending (S j) n r) s Hk) as Es. cbn in Ea, Ed, Es.
  constructor; try done.
  - unfold tokens, total, goto in *. cbn in *. rewrite Hr in *. rewrite !sum_list_with_app. cbn. right. lia.
  - cbn. rewrite length_alter. apply Forall_app. split; [apply Forall_insert; [done|split; [done|lia]]|by repeat constructor].
  - cbn. by rewrite Hf.
Qed.

(** An acknowledgement, or the process's own. *)
Lemma clear_to_send_control k s : control wf s -> threads s !! k = Some OwnClear ->
  control wf (clear_to_send (goto k Ended s)) /\ attended (clear_to_send (goto k Ended s)).
Proof.
  intros Hc Hk. destruct (debt_owed k _ s Hc Hk) as (Hr & Ha & Hd & Hs & Hf); [cbn; lia|].
  pose proof Hc as [H1 H2 H3 H4 H5 H6 H7 H9].
  pose proof (total_goto active k _ Ended s Hk) as Ea. pose proof (total_goto debt k _ Ended s Hk) as Ed.
  pose proof (total_goto sending k _ Ended s Hk) as Es. cbn in Ea, Ed, Es.
  assert (Hsd : forall g l, (forall p, g p <= debt p) -> sum_list_with g l <= sum_list_with debt l).
  { intros g l Hg. induction l as [|x l IH]; cbn; [lia|]. specialize (Hg x). lia. }
  assert (Hsend : total sending (goto k Ended s) <= total debt (goto k Ended s)) by (apply Hsd; intros []; cbn; lia).
  assert (Hok : Forall (thread_ok (length (sent s)) (final s)) (<[k := Ended]> (threads s))) by by apply Forall_insert.
  unfold clear_to_send. cbn [goto set_threads set_running suspend_count]. change (idle (set_running ?r ?n ?x)) with (idle s).
  fold (goto k Ended s). destruct (Nat.eqb_spec (suspend_count s - 1) 0) as [Hz|Hz].
  - destruct (idle s) eqn:Hi.
    + split; [|by left]. constructor; try done; [|cbn; by rewrite Hf]. unfold tokens, total, goto in *. cbn in *. lia.
    + split; [|unfold attended; cbn; by rewrite Hr]. constructor; try done; [| |cbn; by rewrite Hf].
      * unfold tokens. rewrite !total_runs. unfold total, goto in *. cbn in *. rewrite Hr. lia.
      * by apply (threads_runs _ _ true).
  - split; [|unfold attended; cbn; by rewrite Hr]. constructor; try done; [|cbn; by rewrite Hf].
    unfold tokens, total, goto in *. cbn in *. rewrite Hr. lia.
Qed.

Lemma step_thread_control k s s' : control wf s -> attended s -> step_thread f b true k s = Some s' -> control wf s' /\ attended s'.
Proof.
  intros Hc Ha H. unfold step_thread in H. destruct (threads s !! k) as [p|] eqn:Hk; [|done]. cbn [mbind option_bind] in H.
  assert (Hnf : ~ late p -> final s = false) by (by apply (not_final k)).
  destruct p as [|[ms|] [|i cts]|r|n r|j n r| | | | | | |]; try done; try (injection H as <-).
  - split; [by apply pop_control|]. destruct (worker_alone k _ s Hc Hk eq_refl) as (Hr & _).
    unfold attended, pop_section. destruct (pop_from_queue _ _ _) as [[[[[? ?] ?] ?] ?]|]; cbn; by rewrite Hr.
  - split; [|done]. assert (He : engaged s = true).
    { destruct (engaged s) eqn:Heng; [done|]. pose proof (c_engaged _ _ Hc Heng) as Hf. rewrite Hnf in Hf; [done|]. by intros H. }
    rewrite He. apply (goto_control k _ _ s Hc Hk); destruct (arguments ms); try done; rewrite Hnf; done || by intros H.
  - split; [|done]. apply (goto_control k (Pop (Some ms) (i :: cts)) _ (clear_upstream i s)); try done; [by destruct Hc|]. cbn. rewrite Hnf; [done|by intros H].
  - by apply task_done_control.
  - split; [|done]. apply (goto_control k (Pop None (i :: cts)) _ (clear_upstream i s)); try done; [by destruct Hc|]. intros _. split; [done|by right].
  - split; [|done]. apply (goto_control k _ _ s Hc Hk); try done. rewrite Hnf; [done|by intros H].
  - split; [by apply suspend_control|]. done.
  - destruct (Nat.ltb_spec j n); injection H as <-.
    + split; [by apply sends_control|]. done.
    + split; [|done]. pose proof (Forall_lookup_1 _ _ _ _ (c_threads _ _ Hc) Hk) as [Hn Hj].
      apply (goto_control k _ _ s Hc Hk); try done; cbn; [lia|lia|]. rewrite Hnf; [done|by intros H'].
  - split; [|done]. destruct (debt_owed k _ s Hc Hk) as (_ & _ & _ & _ & Hf); [cbn; lia|]. rewrite Hf.
    apply (goto_control k _ _ s Hc Hk); try done. by rewrite Hf.
  - by apply clear_to_send_control.
  - split; [|done]. pose proof (Forall_lookup_1 _ _ _ _ (c_threads _ _ Hc) Hk) as Hf. cbn in Hf.
    assert (Hs : control wf (set_closed s)).
    { destruct Hc as [H1 H2 H3 H4 H5 H6 H7 H9]. constructor; try done. intros _. destruct (H3 Hf) as (? & ? & ? & ? & _). split_and!; try done. by left. }
    apply (goto_control k Clear _ (set_closed s)); try done. intros _. split; [done|by left].
Qed.

(** The queue and the users change, nothing else. *)
Lemma users_control n c us q o s : control wf s -> wf q -> length us = q_senders -> n = sum_list_with opens us ->
  sum_list_with lasts us + Nat.b2n c = (if n =? 0 then 1 else 0) -> final s = false -> control wf (set_users n c us (set_queue q o s)).
Proof.
  intros [H1 H2 H3 H4 H5 H6 H7 H9] Hq Hl Hn Hc Hf. constructor; try done; cbn; rewrite Hf; [done|cbn; lia].
Qed.

Lemma step_user_control i s s' : control wf s -> attended s -> step_user i s = Some s' -> control wf s' /\ attended s'.
Proof.
  intros Hc Ha H. pose proof Hc as [H1 H2 H3 H4 H5 H6 [Hw Hl] H9]. unfold step_user in H.
  destruct (users s !! i) as [u|] eqn:Hu; [|done]. cbn [mbind option_bind] in H. pose proof (lookup_lt_Some _ _ _ Hu) as Hlt.
  assert (Hop : forall u', sum_list_with opens (<[i := u']> (users s)) + opens u = sum_list_with opens (users s) + opens u').
  { intros u'. by apply sum_with_insert. }
  assert (Hla : forall u', sum_list_with lasts (<[i := u']> (users s)) + lasts u = sum_list_with lasts (users s) + lasts u').
  { intros u'. by apply sum_with_insert. }
  assert (Hfin : u <> Closed -> final s = false).
  { intros Hne. destruct (final s); [|done]. exfalso. specialize (Hop Closed). specialize (Hla Closed).
    destruct u; cbn in *; try done; destruct (Nat.eqb_spec (sender_count s) 0); lia. }
  destruct u as [[|m ms]| |]; [| | |done]; injection H as <-; specialize (Hfin ltac:(done)).
  - set (u' := if sender_count s - 1 =? 0 then LastSender else Closed). specialize (Hop u'). specialize (Hla u').
    assert (Hu' : opens u' = 0 /\ lasts u' = if sender_count s - 1 =? 0 then 1 else 0) by (unfold u'; destruct (sender_count s - 1 =? 0); by split).
    destruct Hu' as [Hu1 Hu2]. cbn [opens lasts] in Hop, Hla. split; [|done]. constructor; try done; cbn [set_users sender_count users close_queue final queue].
    + lia.
    + rewrite Hfin in *. destruct (Nat.eqb_spec (sender_count s) 0); [lia|]. cbn in *. lia.
    + by rewrite length_insert.
  - specialize (Hop (Sends ms)). specialize (Hla (Sends ms)). cbn [opens lasts] in Hop, Hla.
    destruct (law_append (queue s) i m Hw) as [Hw' _]; [rewrite <- Hl; done|].
    split; [|apply try_run_attended; cbn; intros _ Hz%Nat.eqb_neq; right; left; lia]. apply try_run_control; [|done].
    rewrite Hfin in H6. cbn in H6. apply users_control; try done; [by rewrite length_insert|lia|]. rewrite <- H6. lia.
  - specialize (Hop Closed). specialize (Hla Closed). cbn [opens lasts] in Hop, Hla.
    split; [|apply try_run_attended; cbn; intros _ Hz%Nat.eqb_neq; right; left; lia]. apply try_run_control; [|done].
    rewrite Hfin in H6. destruct (Nat.eqb_spec (sender_count s) 0); [|lia].
    constructor; try done; cbn [set_users sender_count users close_queue final queue]; rewrite ?Hfin; try done; [lia| |by rewrite length_insert].
    destruct (Nat.eqb_spec (sender_count s) 0); cbn in *; lia.
Qed.

Lemma step_setter_control c s s' : control wf s -> attended s -> step_setter c s = Some s' -> control wf s' /\ attended s'.
Proof.
  intros Hc Ha H. pose proof Hc as [H1 H2 H3 H4 H5 H6 H7 H9]. unfold step_setter in H.
  destruct (setters s !! c) as [t|] eqn:Ht; [|done]. cbn [mbind option_bind] in H.
  assert (Hun : forall t', sum_list_with unready (<[c := t']> (setters s)) + unready t = sum_list_with unready (setters s) + unready t').
  { intros t'. by apply sum_with_insert. }
  assert (Hla : forall t', sum_list_with last_receiver (<[c := t']> (setters s)) + last_receiver t = sum_list_with last_receiver (setters s) + last_receiver t').
  { intros t'. by apply sum_with_insert. }
  destruct t; [| |done]; injection H as <-.
  - set (t' := if receiver_count s - 1 =? 0 then LastReceiver else Ready). specialize (Hun t'). specialize (Hla t').
    assert (Hu' : unready t' = 0 /\ last_receiver t' = if receiver_count s - 1 =? 0 then 1 else 0) by (unfold t'; destruct (receiver_count s - 1 =? 0); by split).
    destruct Hu' as [Hu1 Hu2]. cbn [unready last_receiver] in Hun, Hla. split; [constructor; try done; cbn; lia|].
    intros Hr. cbn. right. destruct (Nat.eqb_spec (receiver_count s - 1) 0); lia.
  - specialize (Hun Ready). specialize (Hla Ready). cbn [unready last_receiver] in Hun, Hla.
    split; [|apply try_run_attended; cbn; intros _ Hz%negb_false_iff; by left]. apply try_run_control; [constructor; try done; cbn; lia|].
    intros Hi%negb_true_iff. cbn. destruct (final s); [|done]. destruct (H3 eq_refl) as (Hc1 & Hc2 & _). unfold idle in Hi. by rewrite Hc1, Hc2 in Hi.
Qed.
End control.

(** ** The order of messages and results *)

(** Results in the order in which the tuples were taken; those a thread still has for
    downstream [j]. *)
Section order.
Context {wf : Q -> Prop} {Laws : StrategyLaws Q wf} (f : list V -> res) (b : Z) (q0 : Q) (programs : list (list msg)).

Definition results (s : state) : list res := omap (fun o => f <$> arguments (snd <$> o)) (outs s).
Definition hand (j : nat) (p : pc) : list res :=
  match p with
  | Pop (Some ms) _ => match arguments ms with Some vs => [f vs] | None => [] end
  | Broadcast r | Suspend _ r => [r]
  | Sending i _ r => if i <=? j then [r] else []
  | _ => []
  end.
Definition carries (p : pc) : nat := match p with Pop (Some _) _ | Broadcast _ | Suspend _ _ | Sending _ _ _ => 1 | _ => 0 end.
Definition rest (u : user) : list msg := match u with Sends ms => ms | _ => [] end.

Record data (s : state) : Prop := mk_data {
  d_range : Forall (in_range q_senders) (ops s);
  d_ops : run_ops b q0 (ops s) = Some (outs s, queue s);
  d_users : forall i p u, programs !! i = Some p -> users s !! i = Some u -> appended i (ops s) ++ rest u = p;
  d_out : exists h : nat -> list res, (forall j l, sent s !! j = Some l -> results s = l ++ h j) /\
    (forall k p, threads s !! k = Some p -> carries p = 1 -> forall j, h j = hand j p) /\
    (total carries s = 0 -> forall j, h j = [])
}.
(** The part about results. *)
Definition delivered (s : state) : Prop := exists h : nat -> list res, (forall j l, sent s !! j = Some l -> results s = l ++ h j) /\
    (forall k p, threads s !! k = Some p -> carries p = 1 -> forall j, h j = hand j p) /\
    (total carries s = 0 -> forall j, h j = []).

Lemma carries_zero_hand p j : carries p = 0 -> hand j p = [].
Proof. by destruct p as [|[]| | | | | | | | | |]. Qed.
Lemma carries_cases p : carries p = 0 \/ carries p = 1.
Proof. destruct p as [|[]| | | | | | | | | |]; auto. Qed.
Lemma sum_zero_all (l : list pc) k p : sum_list_with carries l = 0 -> l !! k = Some p -> carries p = 0.
Proof. intros H Hk. apply sum_zero in H. by apply (Forall_lookup_1 _ _ _ _ H Hk). Qed.

(** Threads appear or go on that carry nothing. *)
Lemma delivered_keep s s' k p p' extra : delivered s -> threads s !! k = Some p -> threads s' = <[k := p']> (threads s) ++ extra ->
  sum_list_with carries extra = 0 -> carries p' = carries p -> (forall j, hand j p' = hand j p) -> sent s' = sent s -> outs s' = outs s -> delivered s'.
Proof.
  intros (h & H1 & H2 & H3) Hk Et Hx Hc Hh Es Eo. exists h. unfold results in *. rewrite Es, Eo. split_and!; [done|..].
  - intros k' p0 Hk' Hc0 j. rewrite Et in Hk'. apply lookup_app_Some in Hk' as [Hk'|[_ Hk']]; [|rewrite (sum_zero_all _ _ _ Hx Hk') in Hc0; lia].
    apply list_lookup_insert_Some in Hk' as [(-> & <- & _)|[_ Hk']]; [|by apply (H2 k' p0)]. rewrite Hh. apply (H2 _ p Hk). congruence.
  - intros Ht. apply H3. unfold total in *. rewrite Et, sum_list_with_app in Ht. pose proof (sum_with_insert carries _ _ _ p' Hk). lia.
Qed.
Lemma delivered_more s s' extra : delivered s -> threads s' = threads s ++ extra -> sum_list_with carries extra = 0 ->
  sent s' = sent s -> outs s' = outs s -> delivered s'.
Proof.
  intros (h & H1 & H2 & H3) Et Hx Es Eo. exists h. unfold results in *. rewrite Es, Eo. split_and!; [done|..].
  - intros k' p0 Hk' Hc0 j. rewrite Et in Hk'. apply lookup_app_Some in Hk' as [Hk'|[_ Hk']]; [by apply (H2 k' p0)|].
    rewrite (sum_zero_all _ _ _ Hx Hk') in Hc0. lia.
  - intros Ht. apply H3. unfold total in *. rewrite Et, sum_list_with_app in Ht. lia.
Qed.
(** The one thread that may carry a result goes on. *)
Lemma delivered_own s s' k p p' extra : threads s !! k = Some p -> threads s' = <[k := p']> (threads s) ++ extra ->
  sum_list_with carries extra = 0 -> total carries s = carries p ->
  (forall j l, sent s' !! j = Some l -> results s' = l ++ hand j p') -> delivered s'.
Proof.
  intros Hk Et Hx Ht Hr. assert (Hothers : sum_list_with carries (<[k := p']> (threads s)) = carries p').
  { unfold total in Ht. pose proof (sum_with_insert carries _ _ _ p' Hk). lia. }
  exists (fun j => hand j p'). split_and!; [done|..].
  - intros k' p0 Hk' Hc0 j. rewrite Et in Hk'. apply lookup_app_Some in Hk' as [Hk'|[_ Hk']]; [|rewrite (sum_zero_all _ _ _ Hx Hk') in Hc0; lia].
    destruct (decide (k' = k)) as [->|Hne].
    { rewrite list_lookup_insert_eq in Hk' by (by eapply lookup_lt_Some). by injection Hk' as ->. }
    exfalso. pose proof (sum_with_insert carries _ _ _ Ended Hk') as H1. cbn in H1.
    assert (Hk2 : <[k' := Ended]> (<[k := p']> (threads s)) !! k = Some p').
    { rewrite list_lookup_insert_ne by done. apply list_lookup_insert_eq. by eapply lookup_lt_Some. }
    pose proof (thread_counts carries k p' (set_threads (<[k' := Ended]> (<[k := p']> (threads s))) s) Hk2) as H2. unfold total in H2. cbn in H2. lia.
  - intros Hz j. apply carries_zero_hand. unfold total in Hz. rewrite Et, sum_list_with_app in Hz. lia.
Qed.

(** *** The queue as operations *)
Lemma run_ops_append l i m : forall q o q1, run_ops b q l = Some (o, q1) -> run_ops b q (l ++ [Append i m]) = Some (o, q_append i m q1).
Proof.
  induction l as [|[j m'|] l IH]; intros q o q1; cbn; [by intros [= <- <-]|by apply IH|].
  destruct (pop_from_queue b q false) as [[[[[ms ?] ?] q'] ?]|]; [|done]. cbn. destruct (run_ops b q' l) as [[o' q2]|] eqn:Hr; [|done]. cbn.
  intros [= <- <-]. rewrite (IH _ _ _ Hr). done.
Qed.
Lemma pop_any q c m cts cl q' c' : pop_from_queue b q c = Some (m, cts, cl, q', c') ->
  exists cl0 c0, pop_from_queue b q false = Some (m, cts, cl0, q', c0).
Proof.
  unfold pop_from_queue. destruct (q_empty q); [intros [= <- <- <- <- <-]; eauto|].
  destruct (q_front q); [|done]. cbn. destruct (q_pop_front q); [|done]. cbn. intros [= <- <- <- <- <-]. eauto.
Qed.
Lemma run_ops_take l c m cts cl q' c' : forall q o q1, run_ops b q l = Some (o, q1) -> pop_from_queue b q1 c = Some (m, cts, cl, q', c') ->
  run_ops b q (l ++ [Take]) = Some (o ++ match m with Some ms => [zip (q_taken q1) ms] | None => [] end, q').
Proof.
  induction l as [|[j m'|] l IH]; intros q o q1; cbn.
  - intros [= <- <-] Hp. destruct (pop_any _ _ _ _ _ _ _ Hp) as (cl0 & c0 & ->). cbn. by destruct m.
  - by apply IH.
  - destruct (pop_from_queue b q false) as [[[[[ms ?] ?] q2] ?]|]; [|done]. cbn. destruct (run_ops b q2 l) as [[o' q3]|] eqn:Hr; [|done]. cbn.
    intros [= <- <-] Hp. rewrite (IH _ _ _ Hr Hp). cbn. by destruct ms.
Qed.

Lemma data_same s s' : data s -> ops s' = ops s -> outs s' = outs s -> queue s' = queue s -> users s' = users s -> delivered s' -> data s'.
Proof. intros [H1 H2 H3 _] Eo Et Eq Eu Hd. constructor; rewrite ?Eo, ?Et, ?Eq, ?Eu; done. Qed.

Lemma carries_le s : total carries s <= total active s + total sending s.
Proof.
  unfold total. induction (threads s) as [|p l IH]; cbn; [lia|]. assert (carries p <= active p + sending p); [|lia].
  destruct p as [|[]| | | | | | | | | |]; cbn; lia.
Qed.
Lemma carrier_alone k p s : control wf s -> threads s !! k = Some p -> carries p = 1 -> total carries s = carries p.
Proof.
  intros Hc Hk Hp. pose proof (thread_counts carries k p s Hk). pose proof (carries_le s).
  assert (total active s + total sending s <= 1); [|lia]. assert (Hor : active p = 1 \/ 0 < debt p) by (destruct p as [|[]| | | | | | | | | |]; cbn in *; lia).
  destruct Hor as [Ha|Hd]; [destruct (worker_alone k p s Hc Hk Ha); lia|destruct (debt_owed k p s Hc Hk Hd); lia].
Qed.
Lemma run_alone k s : control wf s -> threads s !! k = Some Run -> total carries s = carries Run.
Proof.
  intros Hc Hk. destruct (worker_alone k Run s Hc Hk eq_refl) as (_ & Ha & _ & Hs). pose proof (carries_le (goto k Ended s)) as Hle.
  pose proof (total_goto active k Run Ended s Hk) as E1. pose proof (total_goto sending k Run Ended s Hk) as E2.
  pose proof (total_goto carries k Run Ended s Hk) as E3. cbn [active sending carries] in *. lia.
Qed.

(** What a carrying thread has is what its downstream lacks. *)
Lemma lacks k p s j l : data s -> threads s !! k = Some p -> carries p = 1 -> sent s !! j = Some l -> results s = l ++ hand j p.
Proof. intros [_ _ _ (h & H1 & H2 & _)] Hk Hc Hl. rewrite <- (H2 k p Hk Hc j). by apply H1. Qed.

Lemma pop_data k s : control wf s -> data s -> threads s !! k = Some Run -> data (pop_section b k s).
Proof.
  intros Hc Hd Hk. pose proof Hd as [H1 H2 H3 (h & Hh & _ & Hz)]. pose proof (run_alone k s Hc Hk) as Ht. destruct (c_queue _ _ Hc) as [Hw Hl].
  destruct (pop_spec b (queue s) (close_queue s) Hw) as (m & cts & cl & q' & c' & Hp & _ & Hm). unfold pop_section. rewrite Hp.
  constructor; cbn [ops outs queue users set_threads goto set_taken set_queue].
  - apply Forall_app. split; [done|by repeat constructor].
  - by apply (run_ops_take _ _ _ _ _ _ _ _ _ _ H2 Hp).
  - intros i p u Hpi Hu. rewrite <- (H3 i p u Hpi Hu). f_equal. unfold appended. rewrite omap_app. cbn. by rewrite app_nil_r.
  - apply (delivered_own s _ k Run (Pop m (to_clear cts)) []); cbn; try done; [by rewrite app_nil_r|].
    intros j l Hjl. unfold results. cbn. rewrite omap_app. fold (results s). rewrite (Hh j l Hjl), (Hz Ht), app_nil_r. f_equal.
    destruct m as [ms|]; [|done]. destruct Hm as (_ & _ & _ & Hf & _). cbn.
    rewrite snd_zip by (apply Forall2_length in Hf; lia). by destruct (arguments ms).
Qed.

Lemma step_thread_data k s s' : control wf s -> data s -> step_thread f b true k s = Some s' -> data s'.
Proof.
  intros Hc Hd H. unfold step_thread in H. destruct (threads s !! k) as [p|] eqn:Hk; [|done]. cbn [mbind option_bind] in H.
  assert (Hdel : delivered s) by apply Hd.
  assert (Hkeep : forall p' s2 extra, threads s2 = <[k := p']> (threads s) ++ extra -> sum_list_with carries extra = 0 -> carries p' = carries p ->
    (forall j, hand j p' = hand j p) -> sent s2 = sent s -> ops s2 = ops s -> outs s2 = outs s -> queue s2 = queue s -> users s2 = users s -> data s2).
  { intros p' s2 extra E1 E2 E3 E4 E5 E6 E7 E8 E9. apply (data_same s); try done. by apply (delivered_keep s s2 k p p' extra). }
  assert (Hone : forall p' s2, threads s2 = <[k := p']> (threads s) -> carries p = 1 -> (forall j l, sent s !! j = Some l -> hand j p' = hand j p) ->
    sent s2 = sent s -> ops s2 = ops s -> outs s2 = outs s -> queue s2 = queue s -> users s2 = users s -> data s2).
  { intros p' s2 E1 E2 E4 E5 E6 E7 E8 E9. apply (data_same s); try done. apply (delivered_own s s2 k p p' []); try done; [by rewrite app_nil_r|by apply (carrier_alone k)|].
    intros j l Hl. rewrite E5 in Hl. unfold results. rewrite E7. fold (results s). rewrite (E4 j l Hl). by apply (lacks k). }
  destruct p as [|[ms|] [|i cts]|r|n r|j n r| | | | | | |]; try done; try (injection H as <-).
  - by apply pop_data.
  - eapply Hone; try reflexivity. intros j l _. cbn. destruct (arguments ms) as [vs|]; [|done]. pose proof (not_final k _ s Hc Hk (fun H => H)) as Hf.
    destruct (engaged s) eqn:He; [done|]. by rewrite (c_engaged _ _ Hc He) in Hf.
  - by apply (Hkeep (Pop (Some ms) cts) _ []); rewrite ?app_nil_r.
  - by eapply (Hkeep _ _ (if negb (idle s) then [Run] else [])); try reflexivity; [destruct (negb (idle s))|destruct (final s), (negb (idle s))..].
  - by apply (Hkeep (Pop None cts) _ []); rewrite ?app_nil_r.
  - by apply (Hkeep (Suspend (length (sent s)) r) _ []); rewrite ?app_nil_r.
  - by apply (Hkeep (Sending 0 n r) _ []); rewrite ?app_nil_r.
  - pose proof (Forall_lookup_1 _ _ _ _ (c_threads _ _ Hc) Hk) as [Hn Hj]. destruct (Nat.ltb_spec j n); injection H as <-.
    + apply (data_same s); try done. apply (delivered_own s _ k (Sending j n r) (Sending (S j) n r) [OwnCheck]); try done; [by apply (carrier_alone k)|].
      cbn [sent set_threads send]. intros i l Hl. destruct (decide (i = j)) as [->|Hne].
      * rewrite list_lookup_alter_eq in Hl. apply fmap_Some in Hl as (l0 & Hl0 & ->).
        change (results (set_threads _ _)) with (results s). rewrite (lacks k _ s j l0 Hd Hk eq_refl Hl0). cbn [hand]. rewrite Nat.leb_refl, (proj2 (Nat.leb_gt (S j) j)) by lia. by rewrite app_nil_r.
      * rewrite list_lookup_alter_ne in Hl by done.
        change (results (set_threads _ _)) with (results s). rewrite (lacks k _ s i l Hd Hk eq_refl Hl). cbn [hand]. f_equal.
        destruct (Nat.leb_spec j i), (Nat.leb_spec (S j) i); done || lia.
    + eapply (Hone OwnCheck); try reflexivity. intros i l Hl%lookup_lt_Some. cbn. by rewrite (proj2 (Nat.leb_gt j i)) by lia.
  - by apply (Hkeep (if final s then Ended else OwnClear) _ []); rewrite ?app_nil_r; try done; destruct (final s).
  - unfold clear_to_send. cbn [goto set_threads set_running suspend_count]. change (idle (set_running ?r ?n ?x)) with (idle s).
    destruct (_ =? 0); [destruct (idle s)|]; [by apply (Hkeep Ended _ []); cbn; rewrite ?app_nil_r|by apply (Hkeep Ended _ [Run])|by apply (Hkeep Ended _ []); cbn; rewrite ?app_nil_r].
  - by apply (Hkeep Ended _ []); cbn; rewrite ?app_nil_r.
Qed.

Lemma try_run_data c s : data s -> data (try_run c s).
Proof.
  intros Hd. apply (data_same s); try done. apply (delivered_more s _ (if c && negb (running s) then [Run] else [])); try done; [apply Hd|].
  by destruct (c && negb (running s)).
Qed.

Lemma step_user_data i s s' : control wf s -> data s -> step_user i s = Some s' -> data s'.
Proof.
  intros Hc Hd H. unfold step_user in H. destruct (users s !! i) as [u|] eqn:Hu; [|done]. cbn [mbind option_bind] in H.
  destruct (c_queue _ _ Hc) as [_ Hl]. pose proof (lookup_lt_Some _ _ _ Hu) as Hlt. pose proof Hd as [H1 H2 H3 H4].
  assert (Hset : forall u' n c, rest u' = rest u -> data (set_users n c (<[i := u']> (users s)) s)).
  { intros u' n c Hr. constructor; try done. cbn. intros j p v Hp [(-> & <- & _)|[_ Hv]]%list_lookup_insert_Some; [rewrite Hr|]; by apply H3. }
  destruct u as [[|m ms]| |]; [| | |done]; injection H as <-.
  - apply Hset. by destruct (_ =? 0).
  - apply try_run_data. constructor; cbn.
    + apply Forall_app. split; [done|]. repeat constructor. cbn. lia.
    + by apply run_ops_append.
    + intros j p v Hp Hv. unfold appended. rewrite omap_app. cbn. apply list_lookup_insert_Some in Hv as [(-> & <- & _)|[Hne Hv]].
      * rewrite decide_True, <- app_assoc by done. by apply (H3 j p (Sends (m :: ms))).
      * rewrite decide_False, app_nil_r by done. by apply H3.
    + done.
  - apply try_run_data. by apply Hset.
Qed.

Lemma step_setter_data c s s' : data s -> step_setter c s = Some s' -> data s'.
Proof.
  intros Hd H. unfold step_setter in H. destruct (setters s !! c) as [[]|]; try done; injection H as <-; [|apply try_run_data]; apply (data_same s); try done; apply Hd.
Qed.

(** *** Reached states *)
Context (n d : nat) (Hq0 : wf q0) (Hlen : length programs = q_senders) (Hsome : 0 < q_senders).
Context (Hempty : Forall (fun l => l = []) (q_deques q0)).

Definition reachable : state -> Prop := rtc (step f b true) (start q0 programs n d).

Lemma start_control : control wf (start q0 programs n d) /\ attended (start q0 programs n d).
Proof.
  assert (Ho : forall l : list (list msg), sum_list_with opens (Sends <$> l) = length l /\ sum_list_with lasts (Sends <$> l) = 0).
  { induction l as [|p l [IH1 IH2]]; [done|]. cbn. by rewrite IH1, IH2. }
  destruct (Ho programs) as [H1 H2]. split; [constructor; try done|].
  - cbn. rewrite H2. destruct (Nat.eqb_spec (length programs) 0); [lia|done].
  - cbn. by rewrite length_fmap.
  - cbn. clear. induction n as [|m IH]; [done|]. cbn. by rewrite <- IH.
  - intros _. left. unfold idle. cbn. rewrite andb_true_r, (law_empty q0 Hq0). pose proof (law_taken q0 Hq0) as Hne.
    destruct (q_taken q0) as [|i l]; [done|]. cbn. unfold nonempty.
    destruct (q_deques q0 !! i) as [[|m ms]|] eqn:Hi; try done. by pose proof (Forall_lookup_1 _ _ _ _ Hempty Hi).
Qed.

Lemma start_data : data (start q0 programs n d).
Proof.
  constructor; try done.
  - intros i p u Hp Hu. cbn in Hu. rewrite list_lookup_fmap, Hp in Hu. by injection Hu as <-.
  - exists (fun _ => []). split_and!; try done. intros j l Hl. apply lookup_replicate in Hl as [-> _]. done.
Qed.

Lemma merged_reached s : reachable s -> control wf s /\ attended s /\ data s.
Proof.
  intros Hr. eapply (rtc_ind_r (fun s => control wf s /\ attended s /\ data s)); [|..|exact Hr].
  - destruct start_control. split_and!; [done..|]. apply start_data.
  - intros y z _ [[k|i|c] Hs] (Hc & Ha & Hd); cbn in Hs.
    + destruct (step_thread_control f b k y z Hc Ha Hs). split_and!; [done..|]. exact (step_thread_data k y z Hc Hd Hs).
    + destruct (step_user_control i y z Hc Ha Hs). split_and!; [done..|]. exact (step_user_data i y z Hc Hd Hs).
    + destruct (step_setter_control c y z Hc Ha Hs). split_and!; [done..|]. exact (step_setter_data c y z Hd Hs).
Qed.

(** The sequence of what was taken from sender [i], and its deque. *)
Lemma taken_in_order s i p u : data s -> programs !! i = Some p -> users s !! i = Some u ->
  exists l, q_deques (queue s) !! i = Some l /\ p = from i (outs s) ++ l ++ rest u.
Proof.
  intros [H1 H2 H3 _] Hp Hu. destruct (run_ops_spec b (ops s) q0 Hq0 H1) as (o & q & Hr & _ & Hf). rewrite H2 in Hr. injection Hr as <- <-.
  destruct (lookup_lt_is_Some_2 (q_deques q0) i) as [l0 Hl0].
  { rewrite (law_length q0 Hq0), <- Hlen. by eapply lookup_lt_Some. }
  destruct (Hf i l0 Hl0) as (l & Hl & Heq). exists l. split; [done|]. rewrite (Forall_lookup_1 _ _ _ _ Hempty Hl0) in Heq. cbn in Heq.
  rewrite <- (H3 i p u Hp Hu), Heq. by rewrite app_assoc.
Qed.

(** *** Termination

    What is left of a thread: a run that finds the queue empty comes to nothing, one that
    finds a message or the end is paid for by these. *)
Definition work (dn : nat) (idle : bool) (p : pc) : nat :=
  match p with
  | Run => if idle then 3 else 0
  | Pop None cts => length cts + (if idle then 2 else 1)
  | Pop (Some _) cts => length cts + 4 * dn + 7
  | Broadcast _ => 4 * dn + 6
  | Suspend _ _ => 4 * dn + 5
  | Sending j n _ => 4 * (n - j) + 4
  | OwnCheck => 3
  | OwnClear => 2
  | Clear => 1
  | _ => 0
  end.
Definition queued (s : state) : nat := sum_list_with length (q_deques (queue s)).
Definition message_cost (s : state) : nat := q_senders + 4 * length (sent s) + 11.
Definition user_work (c : nat) (u : user) : nat := match u with Sends ms => (c + 10) * length ms + 15 | LastSender => 13 | Closed => 0 end.
Definition setter_work (t : setter) : nat := match t with SetReady => 10 | LastReceiver => 5 | Ready => 0 end.
Definition steps_left (s : state) : nat :=
  sum_list_with (user_work (message_cost s)) (users s) + sum_list_with setter_work (setters s) + message_cost s * queued s
  + 6 * Nat.b2n (close_queue s) + sum_list_with (work (length (sent s)) (idle s)) (threads s).

(** Whether the queue is empty matters to the one thread that works on the process. *)
Lemma work_idle dn i i' l : sum_list_with (work dn i) l <= sum_list_with (work dn i') l + 3 * sum_list_with active l.
Proof.
  induction l as [|p l IH]; cbn; [lia|]. assert (work dn i p <= work dn i' p + 3 * active p); [|lia].
  destruct p as [|[ms|] cts| | | | | | | | | |], i, i'; cbn; lia.
Qed.
Lemma active_most s : control wf s -> total active s <= 1.
Proof. intros Hc. pose proof (c_tokens _ _ Hc) as Ht. unfold tokens in Ht. destruct (running s); lia. Qed.

(** Taking a message makes the deques shorter. *)
Lemma tail_shorter (ds ds' : list (list msg)) (P : nat -> bool) : length ds' = length ds ->
  (forall i, ds' !! i = (if P i then @tail msg else id) <$> ds !! i) -> sum_list_with length ds' <= sum_list_with length ds.
Proof.
  revert ds' P. induction ds as [|l ds IH]; intros [|l' ds'] P Hl H; try done; cbn in *. injection Hl as Hl.
  specialize (IH ds' (fun i => P (S i)) Hl (fun i => H (S i))). pose proof (H 0) as H0. cbn in H0. injection H0 as ->.
  destruct (P 0); cbn; [|lia]. destruct l; cbn; lia.
Qed.
Lemma tail_strictly (ds ds' : list (list msg)) (P : nat -> bool) k m l : length ds' = length ds ->
  (forall i, ds' !! i = (if P i then @tail msg else id) <$> ds !! i) -> P k = true -> ds !! k = Some (m :: l) ->
  sum_list_with length ds' < sum_list_with length ds.
Proof.
  revert ds' P k. induction ds as [|l0 ds IH]; intros [|l' ds'] P [|k] Hl H Hp Hk; try done; cbn in *; injection Hl as Hl; pose proof (H 0) as H0; cbn in H0.
  - injection Hk as ->. rewrite Hp in H0. injection H0 as ->. cbn.
    pose proof (tail_shorter ds ds' (fun i => P (S i)) Hl (fun i => H (S i))). lia.
  - specialize (IH ds' (fun i => P (S i)) k Hl (fun i => H (S i)) Hp Hk). injection H0 as ->. destruct (P 0); cbn; [destruct l0; cbn; lia|lia].
Qed.

Lemma pop_shorter q ms q' : wf q -> wf q' -> q_empty q = false -> Forall2 (takes_front (q_deques q)) (q_taken q) ms ->
  (forall i, q_deques q' !! i = (if decide (i ∈ q_taken q) then @tail msg else id) <$> q_deques q !! i) ->
  sum_list_with length (q_deques q') < sum_list_with length (q_deques q).
Proof.
  intros Hw Hw' He Hf Hd. pose proof (law_taken q Hw) as Hne. destruct (q_taken q) as [|k ks] eqn:Ht; [done|].
  apply Forall2_cons_inv_l in Hf as (m & ms' & (l & Hk) & _ & ->).
  apply (tail_strictly _ _ (fun i => bool_decide (i ∈ k :: ks)) k m l).
  - by rewrite (law_length q Hw), (law_length q' Hw').
  - intros i. rewrite Hd. by destruct (decide (i ∈ k :: ks)) as [H|H]; [rewrite bool_decide_true|rewrite bool_decide_false].
  - apply bool_decide_true. by left.
  - done.
Qed.

Lemma to_clear_length l : length (to_clear l) <= length l.
Proof.
  unfold to_clear. rewrite <- (length_imap pair l). induction (imap pair l) as [|[i []] x IH]; cbn; lia.
Qed.
Lemma to_clear_none m : to_clear (replicate m false) = [].
Proof.
  unfold to_clear. assert (H : forall g : nat -> nat, omap (fun p : nat * bool => if p.2 then Some p.1 else None) (imap (fun i c => (g i, c)) (replicate m false)) = []).
  { induction m as [|m IH]; intros g; [done|]. cbn. apply (IH (fun i => g (S i))). }
  apply (H id).
Qed.

Lemma idle_same s s' : queue s' = queue s -> close_queue s' = close_queue s -> idle s' = idle s.
Proof. intros E1 E2. unfold idle. by rewrite E1, E2. Qed.

(** Only the threads go on. *)
Lemma thread_less s s' k p p' extra : threads s !! k = Some p -> threads s' = <[k := p']> (threads s) ++ extra ->
  users s' = users s -> setters s' = setters s -> queue s' = queue s -> close_queue s' = close_queue s -> length (sent s') = length (sent s) ->
  work (length (sent s)) (idle s) p' + sum_list_with (work (length (sent s)) (idle s)) extra < work (length (sent s)) (idle s) p ->
  steps_left s' < steps_left s.
Proof.
  intros Hk Et Eu Es Eq Ec El Hw. unfold steps_left, message_cost, queued. rewrite Eu, Es, Eq, Ec, El, (idle_same s s' Eq Ec), Et, sum_list_with_app.
  pose proof (sum_with_insert (work (length (sent s)) (idle s)) _ _ _ p' Hk). lia.
Qed.

(** Everything but the users and the queue. *)
Lemma try_run_work c s : steps_left (try_run c s) <= steps_left s + (if c then if idle s then 3 else 0 else 0).
Proof.
  unfold steps_left, message_cost, queued, try_run. change (idle (runs_if _ _)) with (idle s). cbn [users setters queue close_queue sent threads runs_if set_threads set_running].
  rewrite sum_list_with_app. destruct c; cbn; [destruct (negb (running s))|]; cbn; destruct (idle s); lia.
Qed.

Lemma pop_less k s : control wf s -> threads s !! k = Some Run -> steps_left (pop_section b k s) < steps_left s.
Proof.
  intros Hc Hk. destruct (c_queue _ _ Hc) as [Hw _]. destruct (worker_alone k Run s Hc Hk eq_refl) as (_ & Ha & _).
  destruct (pop_spec b (queue s) (close_queue s) Hw) as (m & cts & cl & q' & c' & Hp & Hw' & Hm).
  unfold pop_section. rewrite Hp. set (p' := Pop m (to_clear cts)).
  unfold steps_left, message_cost, queued. cbn [users setters queue close_queue sent threads goto set_threads set_taken set_queue].
  match goal with |- context [idle ?x] => set (i' := idle x) end.
  pose proof (work_idle (length (sent s)) i' (idle s) (<[k := p']> (threads s))) as H1.
  pose proof (sum_with_insert (work (length (sent s)) (idle s)) _ _ _ p' Hk) as H2.
  pose proof (sum_with_insert active _ _ _ p' Hk) as H3. unfold total in Ha. cbn [active p'] in H3.
  destruct m as [ms|].
  - destruct Hm as (He & _ & -> & Hf & Hd & ->). pose proof (pop_shorter _ _ _ Hw Hw' He Hf Hd) as Hq.
    pose proof (to_clear_length ((fun n => n <=? u64 (b - 1))%Z <$> q_sizes q')) as Ht. rewrite length_fmap, (law_sizes q' Hw') in Ht.
    cbn [work p'] in H2. nia.
  - destruct Hm as (He & -> & -> & -> & ->). unfold p' in *. rewrite to_clear_none in *. cbn [work length] in H2.
    assert (Hi' : i' = true) by (unfold i', idle; cbn; by rewrite He). assert (Hi : idle s = negb (close_queue s)) by (unfold idle; by rewrite He).
    clearbody i'. subst i'. rewrite Hi in *. destruct (close_queue s); cbn [negb Nat.b2n] in *; lia.
Qed.

Lemma step_thread_less k s s' : control wf s -> step_thread f b true k s = Some s' -> steps_left s' < steps_left s.
Proof.
  intros Hc H. unfold step_thread in H. destruct (threads s !! k) as [p|] eqn:Hk; [|done]. cbn [mbind option_bind] in H.
  assert (Hless : forall p' s2 extra, threads s2 = <[k := p']> (threads s) ++ extra -> users s2 = users s -> setters s2 = setters s -> queue s2 = queue s ->
    close_queue s2 = close_queue s -> length (sent s2) = length (sent s) ->
    work (length (sent s)) (idle s) p' + sum_list_with (work (length (sent s)) (idle s)) extra < work (length (sent s)) (idle s) p -> steps_left s2 < steps_left s).
  { intros p' s2 extra. by apply thread_less. }
  pose proof (Forall_lookup_1 _ _ _ _ (c_threads _ _ Hc) Hk) as Hok.
  destruct p as [|[ms|] [|i cts]|r|n0 r|j n0 r| | | | | | |]; try done; try (injection H as <-).
  - by apply pop_less.
  - eapply (Hless _ _ []); rewrite ?app_nil_r; try reflexivity. destruct (arguments ms); [destruct (engaged s)|]; cbn; lia.
  - eapply (Hless _ _ []); rewrite ?app_nil_r; try reflexivity. cbn. lia.
  - eapply (Hless _ _ (if negb (idle s) then [Run] else [])); try reflexivity. destruct (final s), (idle s); cbn; lia.
  - eapply (Hless _ _ []); rewrite ?app_nil_r; try reflexivity. cbn. lia.
  - eapply (Hless _ _ []); rewrite ?app_nil_r; try reflexivity. cbn. lia.
  - eapply (Hless _ _ []); rewrite ?app_nil_r; try reflexivity. cbn in *. lia.
  - cbn in Hok. destruct (Nat.ltb_spec j n0); injection H as <-.
    + eapply (Hless _ _ [OwnCheck]); try reflexivity; [cbn; by rewrite length_alter|]. cbn [work sum_list_with]. lia.
    + eapply (Hless _ _ []); rewrite ?app_nil_r; try reflexivity. cbn [work sum_list_with]. lia.
  - eapply (Hless _ _ []); rewrite ?app_nil_r; try reflexivity. destruct (final s); cbn; lia.
  - unfold clear_to_send. cbn [goto set_threads set_running suspend_count]. change (idle (set_running ?r ?m ?x)) with (idle s).
    destruct (_ =? 0); [destruct (idle s) eqn:Hi|]; [apply (Hless Ended _ [])|apply (Hless Ended _ [Run])|apply (Hless Ended _ [])]; cbn; rewrite ?app_nil_r, ?Hi; try done; lia.
  - eapply (Hless _ _ []); rewrite ?app_nil_r; try reflexivity. cbn. lia.
Qed.

Lemma alter_longer (ds : list (list msg)) i m : i < length ds -> sum_list_with length (alter (fun l => l ++ [m]) i ds) = S (sum_list_with length ds).
Proof.
  revert i. induction ds as [|l ds IH]; intros [|i] Hi; cbn in *; [lia|lia|rewrite length_app; cbn; lia|]. rewrite IH by lia. lia.
Qed.

Lemma step_user_less i s s' : control wf s -> step_user i s = Some s' -> steps_left s' < steps_left s.
Proof.
  intros Hc H. unfold step_user in H. destruct (users s !! i) as [u|] eqn:Hu; [|done]. cbn [mbind option_bind] in H.
  destruct (c_queue _ _ Hc) as [Hw Hl]. pose proof (lookup_lt_Some _ _ _ Hu) as Hlt. pose proof (active_most s Hc) as Ha. unfold total in Ha.
  assert (Hus : forall u', sum_list_with (user_work (message_cost s)) (<[i := u']> (users s)) + user_work (message_cost s) u =
    sum_list_with (user_work (message_cost s)) (users s) + user_work (message_cost s) u') by (intros u'; by apply sum_with_insert).
  assert (Hrun : forall c s2, steps_left (try_run c s2) <= steps_left s2 + 3).
  { intros c s2. pose proof (try_run_work c s2). destruct c, (idle s2); lia. }
  destruct u as [[|m ms]| |]; [| | |done]; injection H as <-.
  - specialize (Hus (if sender_count s - 1 =? 0 then LastSender else Closed)). unfold steps_left, message_cost, queued in *. cbn [users setters queue close_queue sent threads set_users].
    change (idle (set_users _ _ _ _)) with (idle s). destruct (_ =? 0); cbn [user_work length] in Hus; lia.
  - eapply Nat.le_lt_trans; [apply Hrun|]. specialize (Hus (Sends ms)). unfold steps_left, message_cost, queued in *. cbn [users setters queue close_queue sent threads set_users set_queue].
    destruct (law_append (queue s) i m Hw) as [_ ->]; [by rewrite <- Hl|]. rewrite alter_longer by (rewrite (law_length _ Hw); lia).
    match goal with |- context [idle ?x] => pose proof (work_idle (length (sent s)) (idle x) (idle s) (threads s)) as H1; set (i' := idle x) in * end.
    cbn [user_work length] in Hus. nia.
  - eapply Nat.le_lt_trans; [apply Hrun|]. specialize (Hus Closed). unfold steps_left, message_cost, queued in *. cbn [users setters queue close_queue sent threads set_users].
    match goal with |- context [idle ?x] => pose proof (work_idle (length (sent s)) (idle x) (idle s) (threads s)) as H1; set (i' := idle x) in * end.
    cbn [user_work Nat.b2n] in *. destruct (close_queue s); cbn [Nat.b2n]; lia.
Qed.

Lemma step_setter_less c s s' : step_setter c s = Some s' -> steps_left s' < steps_left s.
Proof.
  intros H. unfold step_setter in H. destruct (setters s !! c) as [t|] eqn:Ht; [|done]. cbn [mbind option_bind] in H.
  assert (Hse : forall t', sum_list_with setter_work (<[c := t']> (setters s)) + setter_work t = sum_list_with setter_work (setters s) + setter_work t')
    by (intros t'; by apply sum_with_insert).
  destruct t; [| |done]; injection H as <-.
  - specialize (Hse (if receiver_count s - 1 =? 0 then LastReceiver else Ready)). unfold steps_left, message_cost, queued.
    cbn [users setters queue close_queue sent threads set_setters]. change (idle (set_setters _ _ _)) with (idle s). destruct (_ =? 0); cbn [setter_work] in Hse; lia.
  - specialize (Hse Ready). eapply Nat.le_lt_trans; [apply try_run_work|]. unfold steps_left, message_cost, queued.
    cbn [users setters queue close_queue sent threads set_setters]. change (idle (set_setters _ _ _)) with (idle s). cbn [setter_work] in Hse. destruct (negb (idle s)), (idle s); lia.
Qed.

Lemma less_turn t s s' : control wf s -> take_turn f b true t s = Some s' -> steps_left s' < steps_left s.
Proof. intros Hc. destruct t; cbn; [by apply step_thread_less|by apply step_user_less|by apply step_setter_less]. Qed.
Lemma less_steps m s s' : reachable s -> nsteps (step f b true) m s s' -> reachable s' /\ m + steps_left s' <= steps_left s.
Proof.
  intros Hr Hs. induction Hs as [s|m s s1 s2 H _ IH]; [by split; [|lia]|]. destruct (merged_reached s Hr) as (Hc & _ & _).
  assert (Hr1 : reachable s1) by (eapply rtc_r; [exact Hr|exact H]). destruct H as [t Ht]. pose proof (less_turn t s s1 Hc Ht).
  destruct (IH Hr1). split; [done|lia].
Qed.

(** *** Messages without exceptions *)
Definition is_val (m : msg) : Prop := match m with Val _ => True | Exn _ => False end.
Definition thread_clean (p : pc) : Prop := match p with Pop (Some ms) _ => Forall is_val ms | Stuck => False | _ => True end.
Record clean (s : state) : Prop := mk_clean {
  v_deques : Forall (Forall is_val) (q_deques (queue s));
  v_users : Forall (fun u => Forall is_val (rest u)) (users s);
  v_threads : Forall thread_clean (threads s)
}.

Lemma arguments_clean ms : Forall is_val ms -> exists vs, arguments ms = Some vs.
Proof. induction 1 as [|[v|] ms H _ [vs IH]]; [by eexists|cbn; rewrite IH; by eexists|done]. Qed.
Lemma clean_threads s s' : clean s -> queue s' = queue s -> users s' = users s -> Forall thread_clean (threads s') -> clean s'.
Proof. intros [H1 H2 H3] E1 E2 H. constructor; rewrite ?E1, ?E2; done. Qed.
Lemma clean_runs (c : bool) l : Forall thread_clean l -> Forall thread_clean (l ++ if c then [Run] else []).
Proof. intros H. apply Forall_app. split; [done|]. destruct c; by repeat constructor. Qed.
Lemma clean_try c s : clean s -> clean (try_run c s).
Proof. intros H. apply (clean_threads s); try done. apply clean_runs, H. Qed.

Lemma pop_clean k s : control wf s -> clean s -> clean (pop_section b k s).
Proof.
  intros Hc [H1 H2 H3]. destruct (c_queue _ _ Hc) as [Hw _].
  destruct (pop_spec b (queue s) (close_queue s) Hw) as (m & cts & cl & q' & c' & Hp & Hw' & Hm). unfold pop_section. rewrite Hp.
  constructor; cbn; [|done|].
  - destruct m as [ms|]; [|by destruct Hm as (_ & -> & _)]. destruct Hm as (_ & _ & _ & _ & Hd & _).
    apply Forall_lookup. intros i l Hl. rewrite Hd in Hl. apply fmap_Some in Hl as (l0 & Hl0 & ->). pose proof (Forall_lookup_1 _ _ _ _ H1 Hl0).
    destruct (decide _); [by apply Forall_tail|done].
  - apply Forall_insert; [done|]. destruct m as [ms|]; [|done]. destruct Hm as (_ & _ & _ & Hf & _). cbn.
    apply Forall_lookup. intros i m Hi. destruct (Forall2_lookup_r _ _ _ _ _ Hf Hi) as (j & _ & l & Hl).
    pose proof (Forall_lookup_1 _ _ _ _ H1 Hl) as Hv. by inversion Hv.
Qed.
Lemma turn_clean t s s' : control wf s -> clean s -> take_turn f b true t s = Some s' -> clean s'.
Proof.
  intros Hc Hv H. pose proof Hv as [H1 H2 H3]. destruct t as [k|i|c]; cbn in H.
  - unfold step_thread in H. destruct (threads s !! k) as [p|] eqn:Hk; [|done]. cbn [mbind option_bind] in H.
    pose proof (Forall_lookup_1 _ _ _ _ H3 Hk) as Hp.
    assert (Hgo : forall p' s2 extra, thread_clean p' -> Forall thread_clean extra -> threads s2 = <[k := p']> (threads s) ++ extra ->
      queue s2 = queue s -> users s2 = users s -> clean s2).
    { intros p' s2 extra Hp' He Et Eq Eu. apply (clean_threads s); try done. rewrite Et. apply Forall_app. split; [by apply Forall_insert|done]. }
    destruct p as [|[ms|] [|i cts]|r|n0 r|j n0 r| | | | | | |]; try done; try (injection H as <-).
    + by apply pop_clean.
    + destruct (arguments_clean ms Hp) as [vs ->]. by apply (Hgo (if engaged s then Broadcast (f vs) else Undefined) _ []); cbn; rewrite ?app_nil_r; try done; destruct (engaged s).
    + by apply (Hgo (Pop (Some ms) cts) _ []); rewrite ?app_nil_r.
    + eapply (Hgo _ _ (if negb (idle s) then [Run] else [])); try reflexivity; [by destruct (final s), (idle s)|by destruct (idle s); repeat constructor].
    + by apply (Hgo (Pop None cts) _ []); rewrite ?app_nil_r.
    + by apply (Hgo (Suspend (length (sent s)) r) _ []); cbn; rewrite ?app_nil_r.
    + by apply (Hgo (Sending 0 n0 r) _ []); cbn; rewrite ?app_nil_r.
    + destruct (j <? n0); injection H as <-; [by apply (Hgo (Sending (S j) n0 r) _ [OwnCheck]); [|repeat constructor|..]|by apply (Hgo OwnCheck _ []); rewrite ?app_nil_r].
    + by apply (Hgo (if final s then Ended else OwnClear) _ []); rewrite ?app_nil_r; try done; destruct (final s).
    + unfold clear_to_send. cbn [goto set_threads set_running suspend_count]. change (idle (set_running ?r ?n ?x)) with (idle s).
      destruct (_ =? 0); [destruct (idle s)|]; [apply (Hgo Ended _ [])|apply (Hgo Ended _ [Run])|apply (Hgo Ended _ [])]; cbn; rewrite ?app_nil_r; try done; by repeat constructor.
    + by apply (Hgo Ended _ []); cbn; rewrite ?app_nil_r.
  - unfold step_user in H. destruct (users s !! i) as [u|] eqn:Hu; [|done]. cbn [mbind option_bind] in H.
    pose proof (Forall_lookup_1 _ _ _ _ H2 Hu) as Hr. destruct (c_queue _ _ Hc) as [Hw Hl]. pose proof (lookup_lt_Some _ _ _ Hu) as Hlt.
    destruct u as [[|m ms]| |]; [| | |done]; injection H as <-; try apply clean_try; constructor; try done; cbn.
    + apply Forall_insert; [done|]. by destruct (_ =? 0).
    + destruct (law_append (queue s) i m Hw) as [_ ->]; [lia|]. inversion Hr. apply Forall_alter; [done|].
      intros l0 _ Hl2. apply Forall_app. by split; [|repeat constructor].
    + apply Forall_insert; [done|]. by inversion Hr.
    + by apply Forall_insert.
  - unfold step_setter in H. destruct (setters s !! c) as [[]|]; try done; injection H as <-; [|apply clean_try]; by apply (clean_threads s).
Qed.
Lemma reachable_clean s : Forall (Forall is_val) programs -> reachable s -> clean s.
Proof.
  intros Hp Hr. eapply (rtc_ind_r (fun s => reachable s /\ clean s)); [|..|exact Hr].
  - split; [apply rtc_refl|]. constructor; cbn; [|by apply Forall_fmap|done]. eapply Forall_impl; [exact Hempty|]. by intros l ->.
  - intros y z _ Hs [Hy Hv]. split; [eapply rtc_r; [exact Hy|exact Hs]|]. destruct Hs as [t Ht]. destruct (merged_reached y Hy) as (Hc & _). by apply (turn_clean t y).
Qed.

Lemma sum_nonzero (g : pc -> nat) l : sum_list_with g l <> 0 -> exists k p, l !! k = Some p /\ g p <> 0.
Proof.
  induction l as [|p l IH]; cbn; [done|]. intros H. destruct (decide (g p = 0)) as [H0|Hne]; [|by exists 0, p].
  destruct IH as (k & p' & Hk & Hp); [lia|]. by exists (S k), p'.
Qed.

(** ** Properties *)

(** C9: in every reachable state of merged channels whose downstreams buffer one
    message (with more, see [larger_buffers_go_wrong]) the message, or the result, that is
    on its way is in the hands of one thread; every access to the deques and to the process is well defined, the assertion of
    [task_done] holds. What was taken from each sender, its deque and what
    it has not sent are what it sends, in order; the tuples that were taken are what the
    strategy, as a sequential queue, gives; each downstream was sent the results of
    these, in order, but for the one on its way. *)
Theorem merged_refines s : reachable s ->
  total active s + total sending s <= 1 /\ Forall (fun p => p <> Asserted /\ p <> Undefined) (threads s) /\
  run_ops b q0 (ops s) = Some (outs s, queue s) /\
  (forall i p u, programs !! i = Some p -> users s !! i = Some u ->
    exists l, q_deques (queue s) !! i = Some l /\ p = from i (outs s) ++ l ++ rest u) /\
  (forall j l, sent s !! j = Some l -> exists h, results s = l ++ h /\ length h <= 1).
Proof.
  intros Hr. destruct (merged_reached s Hr) as (Hc & _ & Hd). pose proof Hd as [_ H2 _ (h & Hh & Hone & Hz)]. split_and!; [| |done|intros i p u Hp Hu; exact (taken_in_order s i p u Hd Hp Hu)|].
  - pose proof (c_tokens _ _ Hc) as Ht. unfold tokens in Ht. destruct (running s); lia.
  - eapply Forall_impl; [apply (c_threads _ _ Hc)|]. by intros [].
  - intros j l Hl. exists (h j). split; [by apply Hh|]. destruct (decide (total carries s = 0)) as [H0|Hne]; [rewrite (Hz H0); cbn; lia|].
    destruct (sum_nonzero carries _ Hne) as (k & p & Hk & Hp). destruct (carries_cases p) as [|Hp1]; [done|]. rewrite (Hone k p Hk Hp1 j).
    destruct p as [|[ms|]| | | | | | | | | |]; cbn; try lia; [destruct (arguments ms)|destruct (j0 <=? j)]; cbn; lia.
Qed.

End order.
End merged.

Lemma merged_turns_steps {V R E Q : Type} {St : Strategy (item V E) Q} (f : list V -> item R E) b small ts :
  forall s s', take_turns f b small ts s = Some s' -> nsteps (step f b small) (length ts) s s'.
Proof.
  induction ts as [|t ts IH]; intros s s' H; cbn in H; [injection H as ->; apply nsteps_O|].
  destruct (take_turn f b small t s) as [s1|] eqn:Ht; [|done]. eapply nsteps_l; [by exists t|]. by apply IH.
Qed.

(** ** Example: the sums of what two senders send, with [zip] *)
Definition sums (vs : list nat) : item nat nat := Val (sum_list vs).
Definition two_programs : list (list (item nat nat)) := [[Val 1; Val 2]; [Val 10]].
Definition two_queue : zip_queue (item nat nat) := mk_zip [[]; []].
Definition two_start : state (V := nat) (R := nat) (E := nat) (Q := zip_queue (item nat nat)) := start two_queue two_programs 1 1.
Definition two_steps := take_turns (V := nat) (R := nat) (E := nat) (St := zip_with_queue_strategy 2) sums 1 true.
Definition early_turns : list turn :=
  [Setter 0; Setter 0; User 0; Thread 0; Thread 0; User 0; Thread 1; Thread 1; User 0; User 1] ++ repeat (Thread 2) 5.
Definition late_turns : list turn :=
  repeat (Thread 2) 4 ++ [Thread 3; Thread 3; User 1; User 1; Thread 4; Thread 4; Thread 4].
Definition two_early := default two_start (two_steps early_turns two_start).
Definition two_late := default two_start (two_steps late_turns two_early).
Definition two_laws : StrategyLaws (Strategy0 := zip_with_queue_strategy 2) (zip_queue (item nat nat)) (fun q => length (z_queue q) = 2) :=
  zip_laws 2 Nat.lt_0_2.
Lemma two_early_steps : nsteps (step (St := zip_with_queue_strategy 2) sums 1 true) (length early_turns) two_start two_early.
Proof. apply merged_turns_steps. vm_compute. reflexivity. Qed.
Lemma two_late_steps : nsteps (step (St := zip_with_queue_strategy 2) sums 1 true) (length late_turns) two_early two_late.
Proof. apply merged_turns_steps. vm_compute. reflexivity. Qed.
Lemma two_early_reachable : reachable (St := zip_with_queue_strategy 2) sums 1 two_queue two_programs 1 1 two_early.
Proof. apply rtc_nsteps. eexists. exact two_early_steps. Qed.

(** The sum is about to be sent; at the end the message left over is never taken. *)
Example two_early_taken : sent two_early = [[]] /\ outs two_early = [[(0, Val 1); (1, Val 10)]] /\ threads two_early !! 2 = Some (Sending 0 1 (Val 11)).
Proof. vm_compute. done. Qed.
Example two_late_sent : sent two_late = [[Val 11]] /\ z_queue (queue two_late) = [[Val 2]; []] /\ closed two_late = true.
Proof. vm_compute. done. Qed.

Lemma merged_refines_witness : total active two_early + total sending two_early = 1 /\
  Forall (fun p => p <> Asserted /\ p <> Undefined) (threads two_early) /\
  run_ops (St := zip_with_queue_strategy 2) 1 two_queue (ops two_early) = Some (outs two_early, queue two_early) /\
  (forall j l, sent two_early !! j = Some l -> exists h, results sums two_early = l ++ h /\ length h <= 1).
Proof.
  split; [vm_compute; reflexivity|].
  destruct (merged_refines (St := zip_with_queue_strategy 2) (Laws := two_laws) sums 1 two_queue two_programs 1 1 eq_refl eq_refl ltac:(cbn; lia)
    ltac:(by repeat constructor) two_early two_early_reachable) as (_ & H1 & H2 & _ & H3). by split_and!.
Defined.
Lemma two_late_stuck s2 : ~ step (St := zip_with_queue_strategy 2) sums 1 true two_late s2.
Proof.
  intros [[k|i|c] H]; [do 5 (destruct k as [|k]; [by vm_compute in H|])|do 2 (destruct i as [|i]; [by vm_compute in H|])|destruct c as [|c]; [by vm_compute in H|]];
    by vm_compute in H.
Qed.

(** ** Downstreams that buffer more: results out of order, and lost

    Two messages, two downstreams with room for more than one: a downstream clears the
    process while it still sends the first result. Either the second overtakes it; or
    the process is run once more, sees its end and is reset while the second message
    is in hand. *)
Definition one_programs : list (list (item nat nat)) := [[Val 1; Val 2]].
Definition one_start : state (V := nat) (R := nat) (E := nat) (Q := default_queue (item nat nat)) := start (mk_default []) one_programs 1 2.
Definition overtaking : list turn :=
  [Setter 0; Setter 0; User 0; User 0] ++ replicate 5 (Thread 0) ++ [Thread 1; Thread 1] ++ replicate 7 (Thread 2) ++ [Thread 0].
Definition losing : list turn :=
  [Setter 0; Setter 0; User 0; User 0; User 0; User 0] ++ replicate 7 (Thread 0) ++
  [Thread 1; Thread 1; Thread 3; Thread 2; Thread 2; Thread 4; Thread 4; Thread 4; Thread 3; Thread 3].
Theorem larger_buffers_go_wrong :
  (exists s, nsteps (step (St := default_queue_strategy) sums 1 false) (length overtaking) one_start s /\ sent s = [[Val 1; Val 2]; [Val 2; Val 1]]) /\
  (exists s, nsteps (step (St := default_queue_strategy) sums 1 false) (length losing) one_start s /\
     outs s = [[(0, Val 1)]; [(0, Val 2)]] /\ sent s = [[Val 1]; [Val 1]] /\ closed s = true /\ Undefined ∈ threads s).
Proof.
  split; eexists; (split; [apply merged_turns_steps; vm_compute; reflexivity|]); [done|]. split_and!; [done..|].
  apply list_elem_of_In. cbn. tauto.
Qed.
