(* ===== verification/ChannelHandles.v ===== *)
(** * Handles of channels

    Model of [sender], [receiver], [channel], [operator|] and [merge_helper] of
    [channel.hpp] ([deps/clean_stlab_trash]): the processes behind the handles, with
    their counts, who keeps them alive, and how they close. Senders hold weak
    pointers, receivers and the processes downstream hold shared ones. What a process
    does with its messages is in [Channels]; here a running process takes them
    one by one, and ends after it was closed. *)

From S2P Require Import Prelude.
Local Open Scope nat_scope.

(** ** Processes

    A [shared_process], with the use count of the pointers to it. [sink], [generator]:
    the types of its result and of its argument are [void]. [held]: the senders its
    function has captured. *)
Record node := mk_node {
  strong : nat;
  sender_count : nat;
  receiver_count : nat;
  queued : nat;
  running : bool;
  close_queue : bool;
  final : bool;
  sink : bool;
  generator : bool;
  upstream : list nat;
  downstream : list nat;
  held : list nat
}.
Definition set_strong (k : nat) (n : node) : node :=
  mk_node k (sender_count n) (receiver_count n) (queued n) (running n) (close_queue n) (final n) (sink n) (generator n) (upstream n) (downstream n) (held n).
Definition set_counts (sc rc : nat) (n : node) : node :=
  mk_node (strong n) sc rc (queued n) (running n) (close_queue n) (final n) (sink n) (generator n) (upstream n) (downstream n) (held n).
Definition set_process (k : nat) (run cl fin : bool) (n : node) : node :=
  mk_node (strong n) (sender_count n) (receiver_count n) k run cl fin (sink n) (generator n) (upstream n) (downstream n) (held n).
Definition set_targets (down hold : list nat) (n : node) : node :=
  mk_node (strong n) (sender_count n) (receiver_count n) (queued n) (running n) (close_queue n) (final n) (sink n) (generator n) (upstream n) down hold.

(** The constructors of [shared_process]. *)
Definition new_process (gen snk : bool) (ups hold : list nat) : node :=
  mk_node 1 (match ups with [] => if snk then 0 else 1 | _ => length ups end) (if snk then 0 else 1) 0 false false false snk gen ups [] hold.

(** [None]: an assertion fails. *)
Definition add_sender (n : node) : option node := Some (set_counts (S (sender_count n)) (receiver_count n) n).
Definition remove_sender (n : node) : option node :=
  match sender_count n with
  | 0 => None
  | S c =>
      let n := set_counts c (receiver_count n) n in
      if c =? 0 then
        let do_run := (receiver_count n =? 0) && negb (running n) in
        Some (set_process (queued n) (running n || do_run) true (final n) n)
      else Some n
  end.
Definition add_receiver (n : node) : option node :=
  if sink n then Some n else Some (set_counts (sender_count n) (S (receiver_count n)) n).
Definition remove_receiver (n : node) : option node :=
  if sink n then Some n
  else
    match receiver_count n with
    | 0 => None
    | S c =>
        let n := set_counts (sender_count n) c n in
        if c =? 0 then
          let do_run := (negb (queued n =? 0) || generator n || close_queue n) && negb (running n) in
          Some (set_process (queued n) (running n || do_run) (close_queue n) (final n) n)
        else Some n
    end.
(** [enqueue] *)
Definition enqueue (n : node) : option node :=
  let do_run := (receiver_count n =? 0) && negb (running n) in
  Some (set_process (S (queued n)) (running n || do_run) (close_queue n) (final n) n).

(** ** Pointers *)
Abbreviation heap := (list node).
(** A call through a weak pointer, which does nothing if the object is gone; a call
    through a shared one, where it must not be. *)
Definition via (f : node -> option node) (p : nat) (h : heap) : option heap :=
  n ← h !! p; if strong n =? 0 then Some h else n' ← f n; Some (<[p := n']> h).
Definition call (f : node -> option node) (p : nat) (h : heap) : option heap :=
  n ← h !! p; if strong n =? 0 then None else n' ← f n; Some (<[p := n']> h).
(** Copies of a shared pointer. *)
Definition share : nat -> heap -> option heap := call (fun n => Some (set_strong (S (strong n)) n)).
(** Destructors of senders. *)
Definition drop_senders (l : list nat) (h : heap) : option heap := fold_opt (fun h p => via remove_sender p h) l h.
(** The destructor of a shared pointer. The last one destroys the process: the pointers
    upstream, the function, the senders downstream. *)
Fixpoint release (k p : nat) (h : heap) : option heap :=
  match k with
  | 0 => None
  | S k =>
      n ← h !! p;
      match strong n with
      | 0 => None
      | 1 => h ← fold_opt (fun h u => release k u h) (upstream n) (<[p := set_strong 0 n]> h); drop_senders (held n ++ downstream n) h
      | S c => Some (<[p := set_strong c n]> h)
      end
  end.
Definition reset (o : option nat) (h : heap) : option heap :=
  match o with Some p => release (length h) p h | None => Some h end.

(** ** Programs

    The processes, and the variables of a client: of senders, and of receivers with
    their [_ready]. *)
Record state := mk_state { procs : heap; senders : list (option nat); receivers : list (option nat * bool) }.
Inductive error := broken_channel | process_already_running.
Definition returns (s : state) : option (state * option error) := Some (s, None).

Definition sender_do (f : node -> option node) (o : option nat) (h : heap) : option heap :=
  match o with Some p => via f p h | None => Some h end.
(** The copy constructor, the move constructor, the assignments. *)
Definition copy_sender (v : nat) (s : state) : option state :=
  o ← senders s !! v; h ← sender_do add_sender o (procs s); Some (mk_state h (senders s ++ [o]) (receivers s)).
Definition move_sender (v : nat) (s : state) : option state :=
  o ← senders s !! v; Some (mk_state (procs s) (<[v := None]> (senders s) ++ [o]) (receivers s)).
Definition assign_move_sender (w v : nat) (s : state) : option state :=
  o ← senders s !! v; w' ← senders s !! w; Some (mk_state (procs s) (<[w := o]> (<[v := None]> (senders s))) (receivers s)).
Definition assign_copy_sender (w v : nat) (s : state) : option state :=
  s ← copy_sender v s;
  let tmp := length (senders s) - 1 in
  s ← assign_move_sender w tmp s;
  Some (mk_state (procs s) (take tmp (senders s)) (receivers s)).
(** [close]; the destructor does the same to a variable that is not used again. *)
Definition close (v : nat) (s : state) : option state :=
  o ← senders s !! v; h ← sender_do remove_sender o (procs s); Some (mk_state h (<[v := None]> (senders s)) (receivers s)).
Definition send (v : nat) (s : state) : option state :=
  o ← senders s !! v; h ← sender_do enqueue o (procs s); Some (mk_state h (senders s) (receivers s)).

Definition receiver_do (f : node -> option node) (o : option nat) (h : heap) : option heap :=
  match o with Some p => call f p h | None => Some h end.
Definition copy_receiver (r : nat) (s : state) : option state :=
  '(o, b) ← receivers s !! r;
  h ← match o with Some p => share p (procs s) | None => Some (procs s) end;
  h ← receiver_do add_receiver o h;
  Some (mk_state h (senders s) (receivers s ++ [(o, b)])).
Definition move_receiver (r : nat) (s : state) : option state :=
  '(o, b) ← receivers s !! r; Some (mk_state (procs s) (senders s) (<[r := (None, b)]> (receivers s) ++ [(o, b)])).
Definition assign_move_receiver (q r : nat) (s : state) : option state :=
  '(o, b) ← receivers s !! r;
  '(o', b') ← receivers s !! q;
  if q =? r then Some s
  else h ← reset o' (procs s); Some (mk_state h (senders s) (<[q := (o, b)]> (<[r := (None, b)]> (receivers s)))).
Definition assign_copy_receiver (q r : nat) (s : state) : option state :=
  s ← copy_receiver r s;
  let tmp := length (receivers s) - 1 in
  s ← assign_move_receiver q tmp s;
  Some (mk_state (procs s) (senders s) (take tmp (receivers s))).
(** [if (!_ready && _p) _p->remove_receiver()] *)
Definition leave (o : option nat) (ready : bool) (h : heap) : option heap :=
  if ready then Some h else receiver_do remove_receiver o h.
Definition set_ready (r : nat) (s : state) : option state :=
  '(o, b) ← receivers s !! r;
  h ← leave o b (procs s);
  Some (mk_state h (senders s) (<[r := (o, true)]> (receivers s))).
(** The destructor; then the one of its pointer. *)
Definition drop_receiver (r : nat) (s : state) : option state :=
  '(o, b) ← receivers s !! r;
  h ← leave o b (procs s);
  h ← reset o h;
  Some (mk_state h (senders s) (<[r := (None, b)]> (receivers s))).

(** [channel] *)
Definition channel (void : bool) (s : state) : option state :=
  let a := length (procs s) in
  Some (mk_state (procs s ++ [new_process void void [] []]) (senders s ++ (if void then [] else [Some a])) (receivers s ++ [(Some a, false)])).
(** The [make_shared] and [map] of [operator|] and [merge_helper]. *)
Definition map_sender (a p : nat) : heap -> option heap := call (fun n => Some (set_targets (downstream n ++ [a]) (held n) n)) p.
Definition attach (snk : bool) (ps hold : list nat) (s : state) : option state :=
  let a := length (procs s) in
  let gen := match ps with p :: _ => match procs s !! p with Some n => sink n | None => false end | [] => false end in
  h ← fold_opt (fun h p => share p h) ps (procs s);
  h ← fold_opt (fun h p => map_sender a p h) ps (h ++ [new_process gen snk ps hold]);
  Some (mk_state h (senders s) (receivers s ++ [(Some a, false)])).
Definition pipe_check (r : nat) (s : state) : option (nat + error) :=
  match receivers s !! r with
  | Some (None, _) => Some (inr broken_channel)
  | Some (Some p, b) => if b : bool then Some (inr process_already_running) else Some (inl p)
  | None => None
  end.
Definition pipe (r : nat) (snk : bool) (s : state) : option (state * option error) :=
  c ← pipe_check r s;
  match c with inr e => Some (s, Some e) | inl p => s' ← attach snk [p] [] s; returns s' end.
(** [operator|] with a sender that is moved into the function. *)
Definition pipe_sender (r v : nat) (s : state) : option (state * option error) :=
  c ← pipe_check r s;
  o ← senders s !! v;
  let s := mk_state (procs s) (<[v := None]> (senders s)) (receivers s) in
  match c with
  | inr e => h ← sender_do remove_sender o (procs s); Some (mk_state h (senders s) (receivers s), Some e)
  | inl p => s ← attach true [p] (option_list o) s; returns s
  end.
Definition merge (rs : list nat) (snk : bool) (s : state) : option state :=
  ps ← mapM (fun r => '(o, _) ← receivers s !! r; o) rs; attach snk ps [] s.

(** What a running process does: it takes a message ([pop_from_queue]) and sends the
    result; after the last one it rests, or ends ([task_done]). *)
Definition take_message (p : nat) (s : state) : option state :=
  n ← procs s !! p;
  if negb (strong n =? 0) && running n && negb (queued n =? 0) then
    h ← fold_opt (fun h d => via enqueue d h) (downstream n) (<[p := set_process (queued n - 1) true (close_queue n) (final n) n]> (procs s));
    Some (mk_state h (senders s) (receivers s))
  else Some s.
Definition rest (p : nat) (s : state) : option state :=
  h ← via (fun n => Some (if running n then set_process (queued n) (negb (queued n =? 0) || close_queue n) (close_queue n) (final n) n else n)) p (procs s);
  Some (mk_state h (senders s) (receivers s)).
Definition finish (p : nat) (s : state) : option state :=
  n ← procs s !! p;
  if negb (strong n =? 0) && running n && (queued n =? 0) && close_queue n then
    h ← drop_senders (downstream n ++ held n) (<[p := set_targets [] [] (set_process 0 false false true n)]> (procs s));
    Some (mk_state h (senders s) (receivers s))
  else Some s.

Inductive op :=
  | Channel (void : bool)
  | CopySender (v : nat) | MoveSender (v : nat) | AssignMoveSender (w v : nat) | AssignCopySender (w v : nat)
  | Close (v : nat) | Send (v : nat)
  | CopyReceiver (r : nat) | MoveReceiver (r : nat) | AssignMoveReceiver (q r : nat) | AssignCopyReceiver (q r : nat)
  | SetReady (r : nat) | DropReceiver (r : nat)
  | Pipe (r : nat) (snk : bool) | PipeSender (r v : nat) | Merge (rs : list nat) (snk : bool)
  | TakeMessage (p : nat) | Rest (p : nat) | Finish (p : nat).
Definition step (o : op) (s : state) : option state :=
  match o with
  | Channel void => channel void s
  | CopySender v => copy_sender v s
  | MoveSender v => move_sender v s
  | AssignMoveSender w v => assign_move_sender w v s
  | AssignCopySender w v => assign_copy_sender w v s
  | Close v => close v s
  | Send v => send v s
  | CopyReceiver r => copy_receiver r s
  | MoveReceiver r => move_receiver r s
  | AssignMoveReceiver q r => assign_move_receiver q r s
  | AssignCopyReceiver q r => assign_copy_receiver q r s
  | SetReady r => set_ready r s
  | DropReceiver r => drop_receiver r s
  | Pipe r snk => fst <$> pipe r snk s
  | PipeSender r v => fst <$> pipe_sender r v s
  | Merge rs snk => merge rs snk s
  | TakeMessage p => take_message p s
  | Rest p => rest p s
  | Finish p => finish p s
  end.
Definition start : state := mk_state [] [] [].
Definition steps (ops : list op) (s : state) : option state := fold_opt (fun s o => step o s) ops s.

(** Programs that use variables they have, assign to senders that are empty and to
    receivers that are empty or ready, copy no receiver that is ready, and merge
    receivers of channels. *)
Definition has_sender (v : nat) (s : state) : bool := v <? length (senders s).
Definition free_sender (w : nat) (s : state) : bool := match senders s !! w with Some None => true | _ => false end.
Definition may_copy (r : nat) (s : state) : bool := match receivers s !! r with Some (Some _, true) | None => false | _ => true end.
Definition free_receiver (q : nat) (s : state) : bool := match receivers s !! q with Some (None, _) | Some (_, true) => true | _ => false end.
Definition engaged (r : nat) (s : state) : bool := match receivers s !! r with Some (Some _, _) => true | _ => false end.
Definition clean (o : op) (s : state) : bool :=
  match o with
  | Channel _ => true
  | CopySender v | MoveSender v | Close v | Send v => has_sender v s
  | AssignMoveSender w v => has_sender v s && ((has_sender w s && (w =? v)) || free_sender w s)
  | AssignCopySender w v => has_sender v s && free_sender w s
  | CopyReceiver r => may_copy r s
  | MoveReceiver r | SetReady r | DropReceiver r | Pipe r _ => r <? length (receivers s)
  | AssignMoveReceiver q r => (r <? length (receivers s)) && ((q =? r) || free_receiver q s)
  | AssignCopyReceiver q r => may_copy r s && free_receiver q s
  | PipeSender r v => (r <? length (receivers s)) && has_sender v s
  | Merge rs _ => negb (length rs =? 0) && forallb (fun r => engaged r s) rs
  | TakeMessage p | Rest p | Finish p => p <? length (procs s)
  end.
Fixpoint all_clean (ops : list op) (s : state) : bool :=
  match ops with
  | [] => true
  | o :: ops => clean o s && match step o s with Some s' => all_clean ops s' | None => true end
  end.

(** ** What the counts count

    The pointers and the senders of the processes that live. *)

Definition live (f : node -> list nat) (n : node) : list nat := if strong n =? 0 then [] else f n.
Definition live_up : node -> list nat := live upstream.
Definition live_targets : node -> list nat := live (fun n => downstream n ++ held n).
(** The senders, the pointers and the receivers that are not ready, of the variables. *)
Definition sender_handles (s : state) : list nat := flat_map option_list (senders s).
Definition receiver_handles (s : state) : list nat := flat_map (fun r => option_list (fst r)) (receivers s).
Definition unready_handles (s : state) : list nat := flat_map (fun r : option nat * bool => if snd r then [] else option_list (fst r)) (receivers s).
(** [q] holds a pointer to [p]. *)
Definition follows (h : heap) (q p : nat) : Prop := exists n, h !! q = Some n /\ p ∈ upstream n.

(** ** Programs that lose count *)

(** An assignment to a sender in use does not call [remove_sender]: with no sender
    left, the first channel is neither closed nor run. *)
Definition overwriting : list op := [Channel false; Pipe 0 true; SetReady 0; Channel false; AssignMoveSender 0 1; Close 0; Close 1].
(** The same with [s = s]; and a receiver that is copied when it is ready, after which
    a message wakes nobody up. *)
Definition assigning_itself : list op := [Channel false; Pipe 0 true; SetReady 0; AssignCopySender 0 0; Close 0].
Definition copying_ready : list op := [Channel false; Pipe 0 true; SetReady 0; CopyReceiver 0; Send 0].

(** An assignment to a sender that is in use, also to itself, and the copy of a
    receiver that is ready leave a count too high for ever: with every sender gone a
    channel is not closed; with every receiver ready a message is not taken. *)
Theorem counts_get_lost :
  (exists s n, steps overwriting start = Some s /\ sender_handles s = [] /\ procs s !! 0 = Some n /\
    sender_count n = 1 /\ receiver_count n = 0 /\ close_queue n = false /\ running n = false) /\
  (exists s n, steps assigning_itself start = Some s /\ sender_handles s = [] /\ procs s !! 0 = Some n /\
    sender_count n = 1 /\ close_queue n = false /\ running n = false) /\
  (exists s n, steps copying_ready start = Some s /\ unready_handles s = [1] /\ procs s !! 0 = Some n /\
    receiver_count n = 1 /\ queued n = 1 /\ running n = false).
Proof. split_and!; eexists _, _; repeat (split; [vm_compute; reflexivity|]); vm_compute; reflexivity. Qed.
