(* ===== verification/HandleCounts.v ===== *)
(** * What the counts of channels count

    In programs that do not assign to a handle which is in use, the counts of
    [ChannelHandles] are the numbers of handles, processes live as long as somebody
    can receive from them, and none waits with work to do. *)

From S2P Require Import Prelude ChannelHandles.
Local Open Scope nat_scope.

(** ** The invariant

    Of a heap, with the senders, the pointers and the receivers that are not ready,
    of the variables and of destructors that still have to run. *)
Record node_ok (svs unr : list nat) (h : heap) (p : nat) (n : node) : Prop := mk_node_ok {
  n_senders : sender_count n = occ p svs + occs p live_targets h;
  n_receivers : receiver_count n = if sink n then 0 else occ p unr;
  n_awake : receiver_count n = 0 -> queued n <> 0 \/ close_queue n = true -> running n = true;
  n_closed : close_queue n = true \/ final n = true -> sender_count n = 0;
  n_open : sender_count n = 0 -> close_queue n = true \/ final n = true \/ upstream n = [] /\ generator n = true
}.
Record counts (h : heap) (svs rvs unr : list nat) : Prop := mk_counts {
  c_strong : forall p n, h !! p = Some n -> strong n = occ p rvs + occs p live_up h;
  c_node : forall p n, h !! p = Some n -> strong n <> 0 -> node_ok svs unr h p n;
  c_up : forall p n q, h !! p = Some n -> q ∈ upstream n -> q < p;
  c_targets : forall p n q, h !! p = Some n -> q ∈ downstream n ++ held n -> q < length h;
  c_svs : forall q, q ∈ svs -> q < length h;
  c_rvs : forall q, q ∈ rvs -> q < length h;
  c_unr : forall q, q ∈ unr -> q < length h
}.

Lemma occs_same {A} (f : A -> list nat) (h : list A) p a b x : h !! p = Some a -> f b = f a -> occs x f (<[p := b]> h) = occs x f h.
Proof. intros Hp Hf. pose proof (occs_insert x f h p a b Hp) as H. rewrite Hf in H. lia. Qed.
Lemma lookup_insert_cases {A} (h : list A) p a q b : <[p := a]> h !! q = Some b -> p = q /\ b = a /\ p < length h \/ p <> q /\ h !! q = Some b.
Proof.
  intros [(-> & <- & ?)|[??]]%list_lookup_insert_Some; [by left|by right].
Qed.

(** One process changes, with the handles that it counts. *)
Lemma counts_local h svs svs' rvs unr unr' p n n' : counts h svs rvs unr -> h !! p = Some n ->
  strong n' = strong n -> upstream n' = upstream n -> downstream n' = downstream n -> held n' = held n ->
  (forall x, x <> p -> occ x svs' = occ x svs /\ occ x unr' = occ x unr) ->
  (strong n <> 0 -> node_ok svs unr h p n -> node_ok svs' unr' h p n') ->
  counts (<[p := n']> h) svs' rvs unr'.
Proof.
  intros Hc Hp Hs Hu Hd Hh Hx Hn.
  assert (Hup : forall x, occs x live_up (<[p := n']> h) = occs x live_up h) by (intros x; eapply occs_same; [done|]; unfold live_up, live; by rewrite Hs, Hu).
  assert (Htg : forall x, occs x live_targets (<[p := n']> h) = occs x live_targets h) by (intros x; eapply occs_same; [done|]; unfold live_targets, live; by rewrite Hs, Hd, Hh).
  constructor.
  - intros q m [(<- & -> & _)|[_ Hm]]%lookup_insert_cases; rewrite Hup; [rewrite Hs; by apply (c_strong _ _ _ _ Hc)|by apply (c_strong _ _ _ _ Hc)].
  - intros q m [(<- & -> & _)|[Hne Hm]]%lookup_insert_cases Hst.
    + rewrite Hs in Hst. destruct (Hn Hst (c_node _ _ _ _ Hc p n Hp Hst)) as [H1 H2 H3 H4 H5]. constructor; try done. by rewrite Htg.
    + destruct (c_node _ _ _ _ Hc q m Hm Hst) as [H1 H2 H3 H4 H5], (Hx q (not_eq_sym Hne)) as [E1 E2]. constructor; try done; [by rewrite Htg, E1|by rewrite E2].
  - intros q m x [(<- & -> & _)|[_ Hm]]%lookup_insert_cases; [rewrite Hu; by apply (c_up _ _ _ _ Hc)|by apply (c_up _ _ _ _ Hc)].
  - intros q m x [(<- & -> & _)|[_ Hm]]%lookup_insert_cases; rewrite length_insert; [rewrite Hd, Hh|]; by apply (c_targets _ _ _ _ Hc _ _ _ ltac:(done)).
  - intros q Hq. rewrite length_insert. destruct (decide (q = p)) as [->|Hne]; [by eapply lookup_lt_Some|].
    apply (c_svs _ _ _ _ Hc), occ_in. destruct (Hx q Hne) as [<- _]. by apply occ_in.
  - intros q. rewrite length_insert. apply (c_rvs _ _ _ _ Hc).
  - intros q Hq. rewrite length_insert. destruct (decide (q = p)) as [->|Hne]; [by eapply lookup_lt_Some|].
    apply (c_unr _ _ _ _ Hc), occ_in. destruct (Hx q Hne) as [_ <-]. by apply occ_in.
Qed.
Lemma counts_handles h svs svs' rvs rvs' unr unr' : counts h svs rvs unr ->
  (forall x, occ x svs' = occ x svs) -> (forall x, occ x rvs' = occ x rvs) -> (forall x, occ x unr' = occ x unr) -> counts h svs' rvs' unr'.
Proof.
  intros [H1 H2 H3 H4 H5 H6 H7] Es Er Eu. constructor; try done.
  - intros p n Hp. rewrite Er. by apply H1.
  - intros p n Hp Hs. destruct (H2 p n Hp Hs) as [N1 N2 N3 N4 N5]. constructor; try done; [by rewrite Es|by rewrite Eu].
  - intros q Hq. apply H5, occ_in. rewrite <- Es. by apply occ_in.
  - intros q Hq. apply H6, occ_in. rewrite <- Er. by apply occ_in.
  - intros q Hq. apply H7, occ_in. rewrite <- Eu. by apply occ_in.
Qed.
Lemma counts_alive h svs rvs unr p n : counts h svs rvs unr -> h !! p = Some n -> p ∈ rvs -> strong n <> 0.
Proof. intros Hc Hp Hin%occ_in. rewrite (c_strong _ _ _ _ Hc p n Hp). lia. Qed.

(** ** Calls *)
Ltac occ_lia := repeat rewrite ?occ_app, ?occ_nil, ?(occ_cons _ _ (_ :: _)) in *; lia.

(** What calls leave alone. *)
Definition same (n n' : node) : Prop :=
  strong n' = strong n /\ upstream n' = upstream n /\ downstream n' = downstream n /\ held n' = held n.
(** [f] turns a process with the one set of handles into one with the other. *)
Definition moves (f : node -> option node) (p : nat) (svs unr svs' unr' : list nat) (h : heap) : Prop :=
  forall n, node_ok svs unr h p n -> exists n', f n = Some n' /\ node_ok svs' unr' h p n' /\ same n n'.
Lemma via_ok h svs svs' rvs unr unr' p f : counts h svs rvs unr -> p < length h ->
  (forall x, x <> p -> occ x svs' = occ x svs /\ occ x unr' = occ x unr) -> moves f p svs unr svs' unr' h ->
  exists h', via f p h = Some h' /\ counts h' svs' rvs unr' /\ length h' = length h.
Proof.
  intros Hc Hp Hx Hf. destruct (lookup_lt_is_Some_2 _ _ Hp) as [n Hn]. unfold via. rewrite Hn. cbn.
  destruct (Nat.eqb_spec (strong n) 0) as [Hz|Hz].
  - exists h. split_and!; [done| |done]. replace h with (<[p := n]> h) by by apply list_insert_id. by eapply counts_local.
  - destruct (Hf n (c_node _ _ _ _ Hc p n Hn Hz)) as (n' & -> & Hok & Hs & Hu & Hd & Hh). cbn. eexists. split_and!; [done| |apply length_insert].
    by eapply counts_local.
Qed.
Lemma call_via f p h n : h !! p = Some n -> strong n <> 0 -> call f p h = via f p h.
Proof. intros Hp Hs. unfold call, via. rewrite Hp. cbn. by destruct (Nat.eqb_spec (strong n) 0). Qed.
Lemma call_ok h svs svs' rvs unr unr' p f : counts h svs rvs unr -> p ∈ rvs ->
  (forall x, x <> p -> occ x svs' = occ x svs /\ occ x unr' = occ x unr) -> moves f p svs unr svs' unr' h ->
  exists h', call f p h = Some h' /\ counts h' svs' rvs unr' /\ length h' = length h.
Proof.
  intros Hc Hp. pose proof (c_rvs _ _ _ _ Hc p Hp) as Hl. destruct (lookup_lt_is_Some_2 _ _ Hl) as [n Hn].
  rewrite (call_via _ _ _ _ Hn (counts_alive _ _ _ _ _ _ Hc Hn Hp)). by apply via_ok.
Qed.

Lemma occ_other x p l : x <> p -> occ x (p :: l) = occ x l.
Proof. intros Hx. rewrite occ_cons, occ_one. by rewrite decide_False by congruence. Qed.
Lemma occ_self p l : occ p (p :: l) = S (occ p l).
Proof. rewrite occ_cons, occ_one. by rewrite decide_True. Qed.

Lemma add_sender_moves p svs unr h : p ∈ svs -> moves add_sender p svs unr (p :: svs) unr h.
Proof.
  intros Hin%occ_in n [H1 H2 H3 H4 H5]. eexists. split_and!; [done| |done]. constructor; cbn; try done.
  - by rewrite occ_self, H1.
  - intros Hcl. specialize (H4 Hcl). lia.
Qed.
Lemma remove_sender_moves p svs unr h : moves remove_sender p (p :: svs) unr svs unr h.
Proof.
  intros n [H1 H2 H3 H4 H5]. rewrite occ_self in H1. unfold remove_sender. rewrite H1. cbn.
  destruct (Nat.eqb_spec (occ p svs + occs p live_targets h) 0) as [Hz|Hz]; (eexists; split_and!; [done| |done]); constructor; cbn; try done.
  - intros Hr Hw. rewrite Hr. cbn. by destruct (running n).
  - by left.
  - intros Hcl. specialize (H4 Hcl). lia.
Qed.
Lemma add_receiver_moves p svs unr h : moves add_receiver p svs unr svs (p :: unr) h.
Proof.
  intros n [H1 H2 H3 H4 H5]. unfold add_receiver. destruct (sink n) eqn:Hs; (eexists; split_and!; [done| |done]); constructor; cbn; rewrite ?Hs; try done.
  by rewrite occ_self, H2.
Qed.
Lemma remove_receiver_moves p svs unr h : moves remove_receiver p svs (p :: unr) svs unr h.
Proof.
  intros n [H1 H2 H3 H4 H5]. rewrite occ_self in H2. unfold remove_receiver. destruct (sink n) eqn:Hs.
  - eexists. split_and!; [done| |done]. constructor; rewrite ?Hs; done.
  - rewrite H2. destruct (Nat.eqb_spec (occ p unr) 0) as [Hz|Hz]; (eexists; split_and!; [done| |done]); constructor; cbn; rewrite ?Hs; try done.
    intros _ Hw. destruct (running n); [done|]. cbn. rewrite andb_true_r.
    destruct Hw as [Hq| ->]; [by destruct (Nat.eqb_spec (queued n) 0)|by rewrite orb_true_r].
Qed.
Lemma enqueue_moves p svs unr h : moves enqueue p svs unr svs unr h.
Proof.
  intros n [H1 H2 H3 H4 H5]. eexists. split_and!; [done| |done]. constructor; cbn; try done.
  intros Hr _. rewrite Hr. cbn. by destruct (running n).
Qed.

Lemma add_sender_ok h svs rvs unr p : counts h svs rvs unr -> p ∈ svs ->
  exists h', via add_sender p h = Some h' /\ counts h' (p :: svs) rvs unr /\ length h' = length h.
Proof.
  intros Hc Hp. apply (via_ok h svs (p :: svs) rvs unr unr); [done|by apply (c_svs _ _ _ _ Hc)| |by apply add_sender_moves].
  intros x Hx. by rewrite occ_other.
Qed.
Lemma remove_sender_ok h svs rvs unr p : counts h (p :: svs) rvs unr ->
  exists h', via remove_sender p h = Some h' /\ counts h' svs rvs unr /\ length h' = length h.
Proof.
  intros Hc. apply (via_ok h (p :: svs) svs rvs unr unr); [done|apply (c_svs _ _ _ _ Hc); by left| |by apply remove_sender_moves].
  intros x Hx. by rewrite occ_other.
Qed.
Lemma drop_senders_ok rvs unr l : forall h svs, counts h (l ++ svs) rvs unr ->
  exists h', drop_senders l h = Some h' /\ counts h' svs rvs unr /\ length h' = length h.
Proof.
  induction l as [|p l IH]; intros h svs Hc; [by exists h|]. destruct (remove_sender_ok _ _ _ _ _ Hc) as (h1 & H1 & Hc1 & Hl1).
  destruct (IH h1 svs Hc1) as (h2 & H2 & Hc2 & Hl2). exists h2. cbn. rewrite H1. cbn. split_and!; [done..|lia].
Qed.
Lemma add_receiver_ok h svs rvs unr p : counts h svs rvs unr -> p ∈ rvs ->
  exists h', call add_receiver p h = Some h' /\ counts h' svs rvs (p :: unr) /\ length h' = length h.
Proof. intros Hc Hp. apply (call_ok h svs svs rvs unr (p :: unr)); [done..| |apply add_receiver_moves]. intros x Hx. by rewrite (occ_other x p unr). Qed.
Lemma remove_receiver_ok h svs rvs unr p : counts h svs rvs (p :: unr) -> p ∈ rvs ->
  exists h', call remove_receiver p h = Some h' /\ counts h' svs rvs unr /\ length h' = length h.
Proof. intros Hc Hp. apply (call_ok h svs svs rvs (p :: unr) unr); [done..| |apply remove_receiver_moves]. intros x Hx. by rewrite (occ_other x p unr). Qed.

(** ** Pointers *)
Lemma counts_strong h svs rvs rvs' unr p n k : counts h svs rvs unr -> h !! p = Some n -> strong n <> 0 -> k <> 0 ->
  (forall x, x <> p -> occ x rvs' = occ x rvs) -> k + occ p rvs = strong n + occ p rvs' -> counts (<[p := set_strong k n]> h) svs rvs' unr.
Proof.
  intros Hc Hp Hn Hk Hx Hs.
  assert (Hlive : forall f, f (set_strong k n) = f n -> live f (set_strong k n) = live f n).
  { intros f Hf. unfold live. cbn. rewrite Hf. by destruct (Nat.eqb_spec k 0), (Nat.eqb_spec (strong n) 0). }
  assert (Hup : forall x, occs x live_up (<[p := set_strong k n]> h) = occs x live_up h) by (intros x; eapply occs_same; [done|by apply Hlive]).
  assert (Htg : forall x, occs x live_targets (<[p := set_strong k n]> h) = occs x live_targets h) by (intros x; eapply occs_same; [done|by apply Hlive]).
  pose proof (c_strong _ _ _ _ Hc) as Hst. constructor.
  - intros q m [(<- & -> & _)|[Hne Hm]]%lookup_insert_cases; rewrite Hup; [specialize (Hst p n Hp); cbn; lia|]. rewrite Hx by done. by apply Hst.
  - intros q m [(<- & -> & _)|[Hne Hm]]%lookup_insert_cases Hq.
    + destruct (c_node _ _ _ _ Hc p n Hp Hn) as [H1 H2 H3 H4 H5]. constructor; try done. by rewrite Htg.
    + destruct (c_node _ _ _ _ Hc q m Hm Hq) as [H1 H2 H3 H4 H5]. constructor; try done. by rewrite Htg.
  - intros q m x [(<- & -> & _)|[_ Hm]]%lookup_insert_cases; [by apply (c_up _ _ _ _ Hc p n)|by apply (c_up _ _ _ _ Hc q m)].
  - intros q m x [(<- & -> & _)|[_ Hm]]%lookup_insert_cases; rewrite length_insert; [by apply (c_targets _ _ _ _ Hc p n)|by apply (c_targets _ _ _ _ Hc q m)].
  - intros q. rewrite length_insert. apply (c_svs _ _ _ _ Hc).
  - intros q Hq. rewrite length_insert. destruct (decide (q = p)) as [->|Hne]; [by eapply lookup_lt_Some|].
    apply (c_rvs _ _ _ _ Hc), occ_in. rewrite <- (Hx q Hne). by apply occ_in.
  - intros q. rewrite length_insert. apply (c_unr _ _ _ _ Hc).
Qed.
Lemma share_ok h svs rvs unr p : counts h svs rvs unr -> p ∈ rvs ->
  exists h', share p h = Some h' /\ counts h' svs (p :: rvs) unr /\ length h' = length h.
Proof.
  intros Hc Hp. pose proof (c_rvs _ _ _ _ Hc p Hp) as Hl. destruct (lookup_lt_is_Some_2 _ _ Hl) as [n Hn].
  pose proof (counts_alive _ _ _ _ _ _ Hc Hn Hp) as Hs. unfold share, call. rewrite Hn. cbn. destruct (Nat.eqb_spec (strong n) 0); [done|].
  cbn. eexists. split_and!; [done| |apply length_insert]. eapply counts_strong; [done|done|done|done| |].
  - intros x Hx. by apply occ_other.
  - rewrite occ_self. lia.
Qed.

Lemma live_alive f n : strong n <> 0 -> live f n = f n.
Proof. intros H. unfold live. by destruct (Nat.eqb_spec (strong n) 0). Qed.
Lemma occs_dies f x h p n : h !! p = Some n -> strong n <> 0 ->
  occs x (live f) (<[p := set_strong 0 n]> h) + occ x (f n) = occs x (live f) h.
Proof. intros Hp Hs. rewrite <- (live_alive f n Hs), <- (Nat.add_0_r (occs x (live f) h)). by apply (occs_insert x (live f)). Qed.
(** The last pointer goes: those upstream and the senders of the process are next. *)
Lemma counts_dies h svs rvs unr p n : counts h svs (p :: rvs) unr -> h !! p = Some n -> strong n = 1 ->
  counts (<[p := set_strong 0 n]> h) ((held n ++ downstream n) ++ svs) (upstream n ++ rvs) unr.
Proof.
  intros Hc Hp H1. pose proof (c_strong _ _ _ _ Hc) as Hst.
  pose proof (fun x => occs_dies upstream x h p n Hp ltac:(lia)) as Hup. pose proof (fun x => occs_dies (fun n => downstream n ++ held n) x h p n Hp ltac:(lia)) as Htg.
  fold live_up in Hup. fold live_targets in Htg.
  constructor.
  - intros q m [(<- & -> & _)|[Hne Hm]]%lookup_insert_cases; rewrite occ_app.
    + specialize (Hst p n Hp). rewrite occ_self in Hst. specialize (Hup p). cbn. lia.
    + specialize (Hst q m Hm). rewrite occ_other in Hst by done. specialize (Hup q). lia.
  - intros q m [(<- & -> & _)|[Hne Hm]]%lookup_insert_cases Hq; [done|].
    destruct (c_node _ _ _ _ Hc q m Hm Hq) as [N1 N2 N3 N4 N5]. constructor; try done.
    rewrite N1, !occ_app. specialize (Htg q). cbn beta in Htg. rewrite occ_app in Htg. lia.
  - intros q m x [(<- & -> & _)|[_ Hm]]%lookup_insert_cases; [by apply (c_up _ _ _ _ Hc p n)|by apply (c_up _ _ _ _ Hc q m)].
  - intros q m x [(<- & -> & _)|[_ Hm]]%lookup_insert_cases; rewrite length_insert; [by apply (c_targets _ _ _ _ Hc p n)|by apply (c_targets _ _ _ _ Hc q m)].
  - intros q. rewrite length_insert, !elem_of_app. intros [Hq|Hq]; [|by apply (c_svs _ _ _ _ Hc)].
    apply (c_targets _ _ _ _ Hc p n q Hp). rewrite elem_of_app. tauto.
  - intros q. rewrite length_insert, elem_of_app. pose proof (lookup_lt_Some _ _ _ Hp).
    intros [Hq|Hq]; [pose proof (c_up _ _ _ _ Hc p n q Hp Hq); lia|]. apply (c_rvs _ _ _ _ Hc). by right.
  - intros q. rewrite length_insert. apply (c_unr _ _ _ _ Hc).
Qed.
Lemma release_ok k : forall p h svs rvs unr, p < k -> counts h svs (p :: rvs) unr ->
  exists h', release k p h = Some h' /\ counts h' svs rvs unr /\ length h' = length h.
Proof.
  induction k as [|k IH]; intros p h svs rvs unr Hk Hc; [lia|].
  pose proof (c_rvs _ _ _ _ Hc p ltac:(by left)) as Hl. destruct (lookup_lt_is_Some_2 _ _ Hl) as [n Hn]. cbn. rewrite Hn. cbn.
  pose proof (c_strong _ _ _ _ Hc p n Hn) as Hs. rewrite occ_self in Hs.
  destruct (strong n) as [|[|c]] eqn:H1; [lia| |].
  - pose proof (counts_dies _ _ _ _ _ _ Hc Hn H1) as Hd. pose proof (c_up _ _ _ _ Hc p n) as Hup.
    assert (Hall : forall l h1, (forall q, q ∈ l -> q < k) -> counts h1 ((held n ++ downstream n) ++ svs) (l ++ rvs) unr ->
      exists h2, fold_opt (fun h u => release k u h) l h1 = Some h2 /\ counts h2 ((held n ++ downstream n) ++ svs) rvs unr /\ length h2 = length h1).
    { induction l as [|u l IHl]; intros h1 Hu Hc1; [by exists h1|].
      destruct (IH u h1 _ _ _ (Hu u ltac:(by left)) Hc1) as (h2 & H2 & Hc2 & Hl2). destruct (IHl h2) as (h3 & H3 & Hc3 & Hl3); [by intros q Hq; apply Hu; right|done|].
      exists h3. cbn. rewrite H2. cbn. split_and!; [done..|lia]. }
    destruct (Hall (upstream n) _ ltac:(intros q Hq; specialize (Hup q Hn Hq); lia) Hd) as (h2 & H2 & Hc2 & Hl2). rewrite H2. cbn.
    destruct (drop_senders_ok _ _ _ _ _ Hc2) as (h3 & H3 & Hc3 & Hl3). exists h3. split_and!; [done..|]. rewrite Hl3, Hl2. apply length_insert.
  - eexists. split_and!; [done| |apply length_insert]. eapply counts_strong; [done|done|lia|done| |].
    + intros x Hx. by rewrite occ_other.
    + rewrite occ_self, H1. lia.
Qed.
Lemma reset_ok o h svs rvs unr : counts h svs (option_list o ++ rvs) unr ->
  exists h', reset o h = Some h' /\ counts h' svs rvs unr /\ length h' = length h.
Proof. destruct o as [p|]; intros Hc; [|by exists h]. apply release_ok; [|done]. apply (c_rvs _ _ _ _ Hc). by left. Qed.

(** ** New processes *)
Lemma counts_keeps h svs rvs unr a na p : counts h svs rvs unr -> h !! a = Some na -> strong na <> 0 -> p ∈ upstream na ->
  exists n, h !! p = Some n /\ strong n <> 0.
Proof.
  intros Hc Ha Hs Hp. pose proof (c_up _ _ _ _ Hc a na p Ha Hp) as Hl. apply lookup_lt_Some in Ha as Hla.
  destruct (lookup_lt_is_Some_2 h p ltac:(lia)) as [n Hn]. exists n. split; [done|].
  rewrite (c_strong _ _ _ _ Hc p n Hn). pose proof (occs_in p live_up h a na Ha) as Ho.
  unfold live_up in Ho at 1. rewrite live_alive in Ho by done. specialize (Ho Hp). lia.
Qed.
Lemma share_all_ok svs unr ps : forall h rvs, counts h svs rvs unr -> (forall p, p ∈ ps -> p ∈ rvs) ->
  exists h', fold_opt (fun h p => share p h) ps h = Some h' /\ counts h' svs (ps ++ rvs) unr /\ length h' = length h.
Proof.
  induction ps as [|p ps IH]; intros h rvs Hc Hin; [by exists h|].
  destruct (share_ok _ _ _ _ _ Hc (Hin p ltac:(by left))) as (h1 & H1 & Hc1 & Hl1).
  destruct (IH h1 (p :: rvs) Hc1) as (h2 & H2 & Hc2 & Hl2); [intros q Hq; right; apply Hin; by right|].
  exists h2. cbn. rewrite H1. cbn. split_and!; [done| |lia]. eapply counts_handles; [done|done| |done].
  intros x. cbn. rewrite (occ_cons x p (ps ++ rvs)), !occ_app, (occ_cons x p rvs). lia.
Qed.
Lemma occ_bounded x l k : (forall q, q ∈ l -> q < k) -> k <= x -> occ x l = 0.
Proof. intros Hb Hx. destruct (decide (0 < occ x l)) as [H%occ_in%Hb|]; lia. Qed.
Lemma counts_new h svs rvs unr gen snk ps hold : counts h (hold ++ svs) (ps ++ rvs) unr -> (ps = [] -> gen = snk) ->
  let n := new_process gen snk ps hold in
  counts (h ++ [n]) (replicate (sender_count n) (length h) ++ svs) (length h :: rvs) (length h :: unr).
Proof.
  intros Hc Hgen n. set (a := length h).
  assert (Hup : forall x, occs x live_up (h ++ [n]) = occs x live_up h + occ x ps) by (intros x; rewrite occs_app; unfold occs at 2; cbn; lia).
  assert (Htg : forall x, occs x live_targets (h ++ [n]) = occs x live_targets h + occ x hold) by (intros x; rewrite occs_app; unfold occs at 2; cbn; lia).
  assert (Hrep : forall x m, x <> a -> occ x (replicate m a) = 0).
  { intros x m Hx. induction m as [|m IH]; [done|]. cbn. rewrite occ_cons, IH, occ_one. by rewrite decide_False by congruence. }
  assert (Hself : forall m, occ a (replicate m a) = m) by (intros m; induction m as [|m IH]; [done|]; cbn; rewrite occ_self; lia).
  assert (Hsv : occ a (hold ++ svs) = 0) by (apply (occ_bounded _ _ a); [apply (c_svs _ _ _ _ Hc)|done]).
  assert (Hrv : occ a (ps ++ rvs) = 0) by (apply (occ_bounded _ _ a); [apply (c_rvs _ _ _ _ Hc)|done]).
  assert (Hun : occ a unr = 0) by (apply (occ_bounded _ _ a); [apply (c_unr _ _ _ _ Hc)|done]).
  assert (Hnone : forall f, (forall p m q, h !! p = Some m -> q ∈ f m -> q < a) -> occs a (live f) h = 0).
  { intros f Hf. destruct (decide (0 < occs a (live f) h)) as [(p & m & Hm & Hin)%occs_exists|]; [|lia].
    unfold live in Hin. destruct (strong m =? 0); [by apply elem_of_nil in Hin|]. specialize (Hf p m a Hm Hin). lia. }
  assert (Hua : occs a live_up h = 0).
  { apply Hnone. intros p m q Hm Hq. pose proof (c_up _ _ _ _ Hc p m q Hm Hq). apply lookup_lt_Some in Hm. unfold a. lia. }
  assert (Hta : occs a live_targets h = 0) by (apply Hnone; intros p m q Hm Hq; by apply (c_targets _ _ _ _ Hc p m)).
  rewrite occ_app in Hsv, Hrv.
  assert (Hcase : forall p m, (h ++ [n]) !! p = Some m -> p <> a /\ h !! p = Some m \/ p = a /\ m = n).
  { intros p m [Hm|[Hp Hm]]%lookup_app_Some; [left; split; [|done]; apply lookup_lt_Some in Hm; unfold a; lia|].
    right. apply list_lookup_singleton_Some in Hm as [Hp0 <-]. unfold a. split; [lia|done]. }
  constructor.
  - intros p m [[Hne Hm]|[-> ->]]%Hcase; rewrite Hup.
    + rewrite (c_strong _ _ _ _ Hc p m Hm), occ_app, occ_other by done. lia.
    + rewrite occ_self. cbn. lia.
  - intros p m [[Hne Hm]|[-> ->]]%Hcase Hs.
    + destruct (c_node _ _ _ _ Hc p m Hm Hs) as [N1 N2 N3 N4 N5]. constructor; try done.
      * rewrite N1, Htg, !occ_app, Hrep by done. lia.
      * by rewrite occ_other.
    + constructor; try done.
      * rewrite Htg, occ_app, Hself. lia.
      * cbn. rewrite occ_self, Hun. by destruct snk.
      * by intros _ [|].
      * by intros [|].
      * intros H0. right; right. cbn in *. destruct ps as [|p ps]; [|done]. split; [done|]. rewrite Hgen by done. by destruct snk.
  - intros p m q [[Hne Hm]|[-> ->]]%Hcase; [by apply (c_up _ _ _ _ Hc)|]. cbn. intros Hq. apply (c_rvs _ _ _ _ Hc). apply elem_of_app. by left.
  - intros p m q Hpm Hq. rewrite length_app. cbn. apply Hcase in Hpm as [[Hne Hm]|[-> ->]]; [pose proof (c_targets _ _ _ _ Hc p m q Hm Hq); lia|].
    cbn in Hq. pose proof (c_svs _ _ _ _ Hc q ltac:(apply elem_of_app; by left)). lia.
  - intros q. rewrite length_app, elem_of_app. cbn. intros [Hq|Hq]; [apply elem_of_replicate in Hq as [-> _]; unfold a; lia|].
    pose proof (c_svs _ _ _ _ Hc q ltac:(apply elem_of_app; by right)). lia.
  - intros q. rewrite length_app, elem_of_cons. cbn. intros [->|Hq]; [unfold a; lia|].
    pose proof (c_rvs _ _ _ _ Hc q ltac:(apply elem_of_app; by right)). lia.
  - intros q. rewrite length_app, elem_of_cons. cbn. intros [->|Hq]; [unfold a; lia|]. pose proof (c_unr _ _ _ _ Hc q Hq). lia.
Qed.
Lemma map_sender_ok h svs rvs unr a p n : counts h (a :: svs) rvs unr -> h !! p = Some n -> strong n <> 0 ->
  let h' := <[p := set_targets (downstream n ++ [a]) (held n) n]> h in map_sender a p h = Some h' /\ counts h' svs rvs unr.
Proof.
  intros Hc Hp Hs h'. split; [unfold map_sender, call; rewrite Hp; cbn; by destruct (Nat.eqb_spec (strong n) 0)|].
  assert (Hup : forall x, occs x live_up h' = occs x live_up h) by (intros x; by eapply occs_same).
  assert (Htg : forall x, occs x live_targets h' = occs x live_targets h + occ x [a]).
  { intros x. pose proof (occs_insert x live_targets h p n (set_targets (downstream n ++ [a]) (held n) n) Hp) as Hi. fold h' in Hi.
    unfold live_targets in Hi at 2 4. rewrite !live_alive in Hi by done. cbn in Hi. rewrite !occ_app in Hi. lia. }
  assert (Hok : forall q m, strong m <> 0 -> node_ok (a :: svs) unr h q m -> node_ok svs unr h' q m).
  { intros q m Hm [N1 N2 N3 N4 N5]. constructor; try done. rewrite N1, Htg, (occ_cons q a svs). lia. }
  pose proof (c_svs _ _ _ _ Hc) as Hb. constructor.
  - intros q m [(<- & -> & _)|[_ Hm]]%lookup_insert_cases; rewrite Hup; [by apply (c_strong _ _ _ _ Hc p n)|by apply (c_strong _ _ _ _ Hc)].
  - intros q m [(<- & -> & _)|[_ Hm]]%lookup_insert_cases Hq; [|by apply Hok, (c_node _ _ _ _ Hc)].
    by destruct (Hok p n Hs (c_node _ _ _ _ Hc p n Hp Hs)) as [N1 N2 N3 N4 N5].
  - intros q m x [(<- & -> & _)|[_ Hm]]%lookup_insert_cases; [by apply (c_up _ _ _ _ Hc p n)|by apply (c_up _ _ _ _ Hc q m)].
  - intros q m x Hq Hx. unfold h'. rewrite length_insert. apply lookup_insert_cases in Hq as [(<- & -> & _)|[_ Hm]]; [|by apply (c_targets _ _ _ _ Hc q m)].
    cbn in Hx. rewrite <- app_assoc, !elem_of_app in Hx. destruct Hx as [Hx|[Hx|Hx]].
    + apply (c_targets _ _ _ _ Hc p n x Hp). apply elem_of_app. by left.
    + apply list_elem_of_singleton in Hx as ->. apply Hb. by left.
    + apply (c_targets _ _ _ _ Hc p n x Hp). apply elem_of_app. by right.
  - intros q Hq. unfold h'. rewrite length_insert. apply Hb. by right.
  - intros q. unfold h'. rewrite length_insert. apply (c_rvs _ _ _ _ Hc).
  - intros q. unfold h'. rewrite length_insert. apply (c_unr _ _ _ _ Hc).
Qed.
Lemma map_all_ok a svs rvs unr ps : forall h na, counts h (replicate (length ps) a ++ svs) rvs unr ->
  h !! a = Some na -> strong na <> 0 -> (forall p, p ∈ ps -> p ∈ upstream na /\ p <> a) ->
  exists h', fold_opt (fun h p => map_sender a p h) ps h = Some h' /\ counts h' svs rvs unr /\ length h' = length h.
Proof.
  induction ps as [|p ps IH]; intros h na Hc Ha Hs Hin; [by exists h|]. destruct (Hin p ltac:(by left)) as [Hp Hne].
  destruct (counts_keeps _ _ _ _ _ _ _ Hc Ha Hs Hp) as (n & Hn & Hsn). destruct (map_sender_ok _ _ _ _ _ _ _ Hc Hn Hsn) as [Hm Hc'].
  destruct (IH _ na Hc') as (h2 & H2 & Hc2 & Hl2); [by rewrite list_lookup_insert_ne|done|intros q Hq; apply Hin; by right|].
  exists h2. cbn. rewrite Hm. cbn. split_and!; [done..|]. by rewrite Hl2, length_insert.
Qed.

(** ** States *)
Definition state_ok (s : state) : Prop := counts (procs s) (sender_handles s) (receiver_handles s) (unready_handles s).

Lemma occ_flat {A} x (f : A -> list nat) l : occ x (flat_map f l) = occs x f l.
Proof. induction l as [|a l IH]; [done|]. cbn. by rewrite occ_app, occs_cons, IH. Qed.
Lemma handle_in {A} (f : A -> list nat) l i a p : l !! i = Some a -> p ∈ f a -> p ∈ flat_map f l.
Proof. intros Hi Hp. apply occ_in. rewrite occ_flat. by eapply occs_in. Qed.
(** A variable changes, or there is a new one. *)
Lemma var_insert {A} x (f : A -> list nat) l i a b : l !! i = Some a -> occ x (flat_map f (<[i := b]> l)) + occ x (f a) = occ x (flat_map f l) + occ x (f b).
Proof. rewrite !occ_flat. apply occs_insert. Qed.
Lemma var_new {A} x (f : A -> list nat) l a : occ x (flat_map f (l ++ [a])) = occ x (flat_map f l) + occ x (f a).
Proof. rewrite flat_map_app, occ_app. change (flat_map f [a]) with (f a ++ []). by rewrite app_nil_r. Qed.

Lemma attach_ok h svs rvs unr snk ps hold sv rv : counts h (hold ++ svs) rvs unr -> (forall p, p ∈ ps -> p ∈ rvs) -> ps <> [] ->
  exists h', attach snk ps hold (mk_state h sv rv) = Some (mk_state h' sv (rv ++ [(Some (length h), false)])) /\
    counts h' svs (length h :: rvs) (length h :: unr).
Proof.
  intros Hc Hin Hne. unfold attach. cbn [procs senders receivers]. set (gen := match ps with [] => false | _ => _ end).
  destruct (share_all_ok _ _ _ _ _ Hc Hin) as (h1 & -> & Hc1 & Hl1). cbn [mbind option_bind].
  pose proof (counts_new h1 svs rvs unr gen snk ps hold Hc1 ltac:(done)) as Hc2. cbn zeta in Hc2. rewrite Hl1 in Hc2.
  replace (sender_count (new_process gen snk ps hold)) with (length ps) in Hc2 by by destruct ps.
  destruct (map_all_ok _ _ _ _ _ _ (new_process gen snk ps hold) Hc2) as (h3 & -> & Hc3 & Hl3).
  - rewrite <- Hl1. by apply list_lookup_middle.
  - done.
  - intros p Hp. split; [done|]. specialize (Hin p Hp). pose proof (c_rvs _ _ _ _ Hc p Hin). lia.
  - cbn. by exists h3.
Qed.

(** A temporary is made, and assigned to a variable. *)
Lemma temporary {A} (l : list A) w a b c : w < length l -> take (length l) (<[w := b]> (<[length l := c]> (l ++ [a]))) = <[w := b]> l.
Proof.
  intros Hw. rewrite (insert_app_r_alt l [a]), Nat.sub_diag by done. cbn. rewrite insert_app_l by done. apply take_app_length'. by rewrite length_insert.
Qed.

Lemma copy_sender_ok s v o : state_ok s -> senders s !! v = Some o ->
  exists h, copy_sender v s = Some (mk_state h (senders s ++ [o]) (receivers s)) /\ state_ok (mk_state h (senders s ++ [o]) (receivers s)).
Proof.
  intros Hok Hv. unfold copy_sender. rewrite Hv. cbn. destruct o as [p|]; cbn.
  - destruct (add_sender_ok _ _ _ _ p Hok) as (h & -> & Hc & _); [by eapply (handle_in option_list); [done|left]|]. exists h. split; [done|].
    eapply counts_handles; [done| |done|done]. intros x. unfold sender_handles. cbn [senders]. rewrite var_new. cbn. rewrite (occ_cons x p (flat_map _ _)). lia.
  - eexists. split; [done|]. eapply counts_handles; [done| |done|done]. intros x. unfold sender_handles. cbn [senders]. rewrite var_new. cbn. rewrite occ_nil. lia.
Qed.
Lemma set_sender_ok s v w o : state_ok s -> senders s !! v = Some o -> senders s !! w = Some None ->
  state_ok (mk_state (procs s) (<[w := o]> (<[v := None]> (senders s))) (receivers s)).
Proof.
  intros Hok Hv Hw. eapply counts_handles; [done| |done|done]. intros x. unfold sender_handles. cbn [senders].
  assert (H : <[v := None]> (senders s) !! w = Some None).
  { destruct (decide (v = w)) as [->|]; [by apply list_lookup_insert_eq, lookup_lt_is_Some; exists None|by rewrite list_lookup_insert_ne]. }
  pose proof (var_insert x option_list _ _ _ o H) as H1. pose proof (var_insert x option_list _ _ _ None Hv) as H2. cbn in H1, H2. rewrite occ_nil in H1, H2. lia.
Qed.
Lemma assign_move_sender_ok s w v : state_ok s -> v < length (senders s) -> w = v \/ senders s !! w = Some None ->
  exists s', assign_move_sender w v s = Some s' /\ state_ok s'.
Proof.
  intros Hok [o Hv]%lookup_lt_is_Some_2 Hw. unfold assign_move_sender. rewrite Hv. cbn. destruct Hw as [->|Hw].
  - rewrite Hv. cbn. eexists. split; [done|]. rewrite list_insert_insert_eq. by rewrite list_insert_id by done.
  - rewrite Hw. cbn. eexists. split; [done|]. by apply set_sender_ok.
Qed.
Lemma assign_copy_sender_ok s w v : state_ok s -> v < length (senders s) -> senders s !! w = Some None ->
  exists s', assign_copy_sender w v s = Some s' /\ state_ok s'.
Proof.
  intros Hok [o Hv]%lookup_lt_is_Some_2 Hw. destruct (copy_sender_ok s v o Hok Hv) as (h & H1 & Hok1). unfold assign_copy_sender. rewrite H1. cbn [mbind option_bind senders receivers].
  rewrite length_app. cbn [length]. rewrite Nat.add_sub. unfold assign_move_sender. cbn [senders]. apply lookup_lt_Some in Hw as Hl.
  rewrite (list_lookup_middle (senders s) [] o (length (senders s))) by done. cbn. rewrite lookup_app_l, Hw by done. cbn. eexists. split; [done|].
  rewrite temporary by done. eapply counts_handles; [done| |done|done]. intros x. unfold sender_handles. cbn [senders]. rewrite var_new.
  pose proof (var_insert x option_list _ _ _ o Hw) as H2. cbn in H2. rewrite occ_nil in H2. lia.
Qed.
Lemma sender_gone s v o : state_ok s -> senders s !! v = Some o ->
  counts (procs s) (option_list o ++ flat_map option_list (<[v := None]> (senders s))) (receiver_handles s) (unready_handles s).
Proof.
  intros Hok Hv. eapply counts_handles; [done| |done|done]. intros x. unfold sender_handles. rewrite occ_app.
  pose proof (var_insert x option_list _ _ _ None Hv) as H. cbn in H. rewrite occ_nil in H. lia.
Qed.
Lemma close_ok s v : state_ok s -> v < length (senders s) -> exists s', close v s = Some s' /\ state_ok s'.
Proof.
  intros Hok [o Hv]%lookup_lt_is_Some_2. pose proof (sender_gone s v o Hok Hv) as Hc. unfold close. rewrite Hv. cbn.
  destruct o as [p|]; [|by eexists]. destruct (remove_sender_ok _ _ _ _ _ Hc) as (h & H & Hc' & _). cbn. rewrite H. cbn. by eexists.
Qed.
Lemma enqueue_ok h svs rvs unr p : counts h svs rvs unr -> p < length h -> exists h', via enqueue p h = Some h' /\ counts h' svs rvs unr /\ length h' = length h.
Proof. intros Hc Hp. apply (via_ok h svs svs rvs unr unr); [done|done|done|apply enqueue_moves]. Qed.
Lemma send_ok s v : state_ok s -> v < length (senders s) -> exists s', send v s = Some s' /\ state_ok s'.
Proof.
  intros Hok [o Hv]%lookup_lt_is_Some_2. unfold send. rewrite Hv. cbn. destruct o as [p|]; cbn; [|by destruct s; eexists].
  destruct (enqueue_ok _ _ _ _ p Hok) as (h & -> & Hc & _); [apply (c_svs _ _ _ _ Hok); by eapply (handle_in option_list); [done|left]|]. by eexists.
Qed.
Lemma move_sender_ok s v : state_ok s -> v < length (senders s) -> exists s', move_sender v s = Some s' /\ state_ok s'.
Proof.
  intros Hok [o Hv]%lookup_lt_is_Some_2. unfold move_sender. rewrite Hv. cbn. eexists. split; [done|].
  eapply counts_handles; [done| |done|done]. intros x. unfold sender_handles. cbn [senders]. rewrite var_new.
  pose proof (var_insert x option_list _ _ _ None Hv) as H. cbn in H. rewrite occ_nil in H. lia.
Qed.

(** What a receiver adds to the pointers, and to the receivers that are not ready. *)
Abbreviation ptr := (fun r : option nat * bool => option_list (fst r)).
Abbreviation unr := (fun r : option nat * bool => if snd r then [] else option_list (fst r)).

Lemma copy_receiver_ok s r o b : state_ok s -> receivers s !! r = Some (o, b) -> o = None \/ b = false ->
  exists h, copy_receiver r s = Some (mk_state h (senders s) (receivers s ++ [(o, b)])) /\ state_ok (mk_state h (senders s) (receivers s ++ [(o, b)])).
Proof.
  intros Hok Hr Hb. unfold copy_receiver. rewrite Hr. cbn. destruct o as [p|]; cbn.
  - destruct Hb as [|Hb]; [done|subst b]. destruct (share_ok _ _ _ _ p Hok) as (h1 & -> & Hc1 & _); [by eapply (handle_in ptr); [done|left]|]. cbn.
    destruct (add_receiver_ok _ _ _ _ p Hc1) as (h2 & -> & Hc2 & _); [by left|]. exists h2. split; [done|].
    eapply counts_handles; [done|done|intros x..]; unfold receiver_handles, unready_handles; cbn [receivers]; rewrite var_new; cbn; rewrite (occ_cons x p (flat_map _ _)); lia.
  - eexists. split; [done|]. eapply counts_handles; [done|done|intros x..]; unfold receiver_handles, unready_handles; cbn [receivers]; rewrite var_new; cbn.
    + rewrite occ_nil. lia.
    + destruct b; rewrite occ_nil; lia.
Qed.
Lemma receiver_gone s r o (b b' : bool) : state_ok s -> receivers s !! r = Some (o, b) ->
  counts (procs s) (sender_handles s) (option_list o ++ flat_map ptr (<[r := (None, b')]> (receivers s)))
    ((if b then [] else option_list o) ++ flat_map unr (<[r := (None, b')]> (receivers s))).
Proof.
  intros Hok Hr. eapply counts_handles; [done|done|intros x..]; unfold receiver_handles, unready_handles; rewrite occ_app.
  - pose proof (var_insert x ptr _ _ _ (None, b') Hr) as H. cbn [fst] in H. rewrite occ_nil in H. lia.
  - pose proof (var_insert x unr _ _ _ (None, b') Hr) as H. cbn [fst snd] in H. destruct b'; rewrite ?occ_nil in H; lia.
Qed.
Lemma leave_ok o (b : bool) h svs rvs l : counts h svs (option_list o ++ rvs) ((if b then [] else option_list o) ++ l) ->
  exists h', leave o b h = Some h' /\ counts h' svs (option_list o ++ rvs) l /\ length h' = length h.
Proof.
  intros Hc. unfold leave. destruct b; [by exists h|]. destruct o as [p|]; [|by exists h]. apply (remove_receiver_ok _ _ _ _ p Hc). by left.
Qed.
Lemma move_receiver_ok s r : state_ok s -> r < length (receivers s) -> exists s', move_receiver r s = Some s' /\ state_ok s'.
Proof.
  intros Hok [[o b] Hr]%lookup_lt_is_Some_2. unfold move_receiver. rewrite Hr. cbn. eexists. split; [done|].
  eapply counts_handles; [by apply (receiver_gone s r o b b)|done|intros x..]; unfold receiver_handles, unready_handles; cbn [receivers]; rewrite var_new, occ_app; cbn [fst snd]; lia.
Qed.
Lemma set_ready_ok s r : state_ok s -> r < length (receivers s) -> exists s', set_ready r s = Some s' /\ state_ok s'.
Proof.
  intros Hok [[o b] Hr]%lookup_lt_is_Some_2. pose proof (receiver_gone s r o b true Hok Hr) as Hc. unfold set_ready. rewrite Hr. cbn.
  destruct (leave_ok _ _ _ _ _ _ Hc) as (h & -> & Hc' & _). cbn. eexists. split; [done|].
  eapply counts_handles; [done|done|intros x..]; unfold receiver_handles, unready_handles; cbn [receivers].
  - rewrite occ_app. pose proof (var_insert x ptr _ _ _ (o, true) Hr) as H1. pose proof (var_insert x ptr _ _ _ (None, true) Hr) as H2. cbn [fst] in *. rewrite occ_nil in H2. lia.
  - pose proof (var_insert x unr _ _ _ (o, true) Hr) as H1. pose proof (var_insert x unr _ _ _ (None, true) Hr) as H2. cbn [snd] in *. lia.
Qed.
Lemma drop_receiver_ok s r : state_ok s -> r < length (receivers s) -> exists s', drop_receiver r s = Some s' /\ state_ok s'.
Proof.
  intros Hok [[o b] Hr]%lookup_lt_is_Some_2. pose proof (receiver_gone s r o b b Hok Hr) as Hc. unfold drop_receiver. rewrite Hr. cbn.
  destruct (leave_ok _ _ _ _ _ _ Hc) as (h & -> & Hc' & _). cbn. destruct (reset_ok _ _ _ _ _ Hc') as (h2 & -> & Hc2 & _). cbn. by eexists.
Qed.
Lemma assign_move_receiver_ok s q r : state_ok s -> r < length (receivers s) -> q = r \/ free_receiver q s = true ->
  exists s', assign_move_receiver q r s = Some s' /\ state_ok s'.
Proof.
  intros Hok [[o b] Hr]%lookup_lt_is_Some_2 Hq. unfold assign_move_receiver. rewrite Hr. cbn.
  destruct (decide (q = r)) as [->|Hne]; [rewrite Hr; cbn; rewrite Nat.eqb_refl; by eexists|].
  destruct Hq as [|Hq]; [done|]. unfold free_receiver in Hq. destruct (receivers s !! q) as [[o' b']|] eqn:Hrq; [|done]. cbn.
  destruct (Nat.eqb_spec q r) as [|_]; [done|].
  assert (Hc : counts (procs s) (sender_handles s) (option_list o' ++ flat_map ptr (<[q := (o, b)]> (<[r := (None, b)]> (receivers s))))
    (flat_map unr (<[q := (o, b)]> (<[r := (None, b)]> (receivers s))))).
  { assert (H : <[r := (None, b)]> (receivers s) !! q = Some (o', b')) by by rewrite list_lookup_insert_ne.
    eapply counts_handles; [done|done|intros x..]; unfold receiver_handles, unready_handles; rewrite ?occ_app.
    - pose proof (var_insert x ptr _ _ _ (o, b) H) as H1. pose proof (var_insert x ptr _ _ _ (None, b) Hr) as H2. cbn [fst option_list] in *. rewrite occ_nil in H2. lia.
    - pose proof (var_insert x unr _ _ _ (o, b) H) as H1. pose proof (var_insert x unr _ _ _ (None, b) Hr) as H2. cbn [fst snd option_list] in *.
      destruct o', b', b; rewrite ?occ_nil in *; try done; lia. }
  destruct (reset_ok _ _ _ _ _ Hc) as (h & -> & Hc' & _). cbn. by eexists.
Qed.
Lemma assign_copy_receiver_ok s q r : state_ok s -> may_copy r s = true -> free_receiver q s = true ->
  exists s', assign_copy_receiver q r s = Some s' /\ state_ok s'.
Proof.
  intros Hok Hm Hq. unfold may_copy in Hm. destruct (receivers s !! r) as [[o b]|] eqn:Hr; [|done].
  destruct (copy_receiver_ok s r o b Hok Hr) as (h & H1 & Hok1); [destruct o, b; (by left) || (by right)|]. unfold assign_copy_receiver. rewrite H1.
  cbn [mbind option_bind senders receivers]. rewrite length_app. cbn [length]. rewrite Nat.add_sub.
  set (s1 := mk_state h (senders s) (receivers s ++ [(o, b)])) in *. unfold free_receiver in Hq. destruct (receivers s !! q) as [[o' b']|] eqn:Hrq; [|done].
  apply lookup_lt_Some in Hrq as Hl.
  destruct (assign_move_receiver_ok s1 q (length (receivers s)) Hok1) as (s2 & H2 & Hok2).
  { cbn. rewrite length_app. cbn. lia. }
  { right. unfold free_receiver. cbn. by rewrite lookup_app_l, Hrq. }
  rewrite H2. cbn. eexists. split; [done|]. unfold assign_move_receiver in H2.
  cbn [receivers s1] in H2. rewrite (list_lookup_middle (receivers s) [] (o, b) (length (receivers s))), lookup_app_l, Hrq in H2 by done. cbn in H2.
  destruct (Nat.eqb_spec q (length (receivers s))) as [->|_]; [lia|]. destruct (reset o' h) as [h2|]; [|done]. injection H2 as <-. cbn [procs senders receivers].
  rewrite temporary by done. eapply counts_handles; [done|done|intros x..]; unfold receiver_handles, unready_handles; cbn [receivers];
    rewrite (insert_app_r_alt (receivers s) [(o, b)]), Nat.sub_diag, insert_app_l by done; cbn; rewrite var_new; cbn; rewrite ?occ_nil; [lia|]. by destruct b; rewrite occ_nil, Nat.add_0_r.
Qed.

(** ** Channels and processes *)
Lemma channel_ok s void : state_ok s -> exists s', channel void s = Some s' /\ state_ok s'.
Proof.
  intros Hok. eexists. split; [done|]. pose proof (counts_new (procs s) (sender_handles s) (receiver_handles s) (unready_handles s) void void [] [] Hok ltac:(done)) as Hc.
  cbn zeta in Hc. eapply counts_handles; [done|intros x..]; unfold sender_handles, receiver_handles, unready_handles; cbn [senders receivers];
    rewrite ?var_new, ?flat_map_app, ?occ_app; cbn [flat_map option_list fst snd].
  - destruct void; cbn; rewrite ?occ_nil; lia.
  - cbn. rewrite (occ_cons x _ (flat_map _ _)). lia.
  - cbn. rewrite (occ_cons x _ (flat_map _ _)). lia.
Qed.
(** [attach] with pointers of receivers, after [hold] was taken from the senders. *)
Lemma attach_state_ok s snk ps hold sv : counts (procs s) (hold ++ flat_map option_list sv) (receiver_handles s) (unready_handles s) ->
  (forall p, p ∈ ps -> p ∈ receiver_handles s) -> ps <> [] ->
  exists s', attach snk ps hold (mk_state (procs s) sv (receivers s)) = Some s' /\ state_ok s'.
Proof.
  intros Hc Hin Hne. destruct (attach_ok _ _ _ _ snk ps hold sv (receivers s) Hc Hin Hne) as (h & H & Hc'). eexists. split; [done|].
  eapply counts_handles; [done|done|intros x..]; unfold receiver_handles, unready_handles; cbn [receivers]; rewrite var_new; cbn; rewrite (occ_cons x _ (flat_map _ _)); lia.
Qed.
Lemma state_eta s : mk_state (procs s) (senders s) (receivers s) = s.
Proof. by destruct s. Qed.
Lemma pipe_check_ok s r : r < length (receivers s) -> exists c, pipe_check r s = Some c /\ forall p, c = inl p -> p ∈ receiver_handles s.
Proof.
  intros [[o b] Hr]%lookup_lt_is_Some_2. unfold pipe_check. rewrite Hr. destruct o as [p|]; [|by eexists]. destruct b; eexists; (split; [done|]); [done|].
  intros p' [= ->]. eapply (handle_in ptr); [done|left].
Qed.
Lemma pipe_ok s r snk : state_ok s -> r < length (receivers s) -> exists s', fst <$> pipe r snk s = Some s' /\ state_ok s'.
Proof.
  intros Hok Hr. destruct (pipe_check_ok s r Hr) as ([p|e] & Hp & Hin); unfold pipe; rewrite Hp; cbn [mbind option_bind]; [|by exists s].
  destruct (attach_state_ok s snk [p] [] (senders s) Hok) as (s' & H & Hok'); [intros q ->%list_elem_of_singleton; by apply Hin|done|].
  rewrite state_eta in H. rewrite H. by exists s'.
Qed.
Lemma pipe_sender_ok s r v : state_ok s -> r < length (receivers s) -> v < length (senders s) -> exists s', fst <$> pipe_sender r v s = Some s' /\ state_ok s'.
Proof.
  intros Hok Hr [o Hv]%lookup_lt_is_Some_2. destruct (pipe_check_ok s r Hr) as (c & Hp & Hin). unfold pipe_sender. rewrite Hp. cbn [mbind option_bind].
  rewrite Hv. cbn [mbind option_bind]. pose proof (sender_gone s v o Hok Hv) as Hc. destruct c as [p|e].
  - destruct (attach_state_ok s true [p] (option_list o) (<[v := None]> (senders s)) Hc) as (s' & H & Hok'); [intros q ->%list_elem_of_singleton; by apply Hin|done|].
    rewrite H. by exists s'.
  - destruct o as [p|]; [|by eexists]. destruct (remove_sender_ok _ _ _ _ _ Hc) as (h & H & Hc' & _). cbn. rewrite H. by eexists.
Qed.
Lemma merge_ok s rs snk : state_ok s -> forallb (fun r => engaged r s) rs = true -> rs <> [] -> exists s', merge rs snk s = Some s' /\ state_ok s'.
Proof.
  intros Hok Hrs Hne. unfold merge.
  assert (H : exists ps, mapM (fun r => '(o, _) ← receivers s !! r; o) rs = Some ps /\ (forall p, p ∈ ps -> p ∈ receiver_handles s) /\ length ps = length rs).
  { clear Hne. induction rs as [|r rs IH]; [exists []; split_and!; [done|by intros p ?%elem_of_nil|done]|]. cbn in Hrs. apply andb_prop in Hrs as [Hr Hrs].
    destruct (IH Hrs) as (ps & H & Hin & Hl). unfold engaged in Hr. destruct (receivers s !! r) as [[[p|] b]|] eqn:Hr'; try done.
    exists (p :: ps). split_and!; [cbn; rewrite Hr'; cbn; by rewrite H| |by cbn; rewrite Hl]. intros q [->|Hq]%elem_of_cons; [|by apply Hin].
    eapply (handle_in ptr); [done|left]. }
  destruct H as (ps & -> & Hin & Hl). cbn [mbind option_bind]. destruct (attach_state_ok s snk ps [] (senders s) Hok Hin) as (s' & H & Hok'); [by intros ->; destruct rs|].
  rewrite state_eta in H. by exists s'.
Qed.

(** A process by itself. *)
Lemma process_ok h svs rvs unr p n k run cl fin : counts h svs rvs unr -> h !! p = Some n -> strong n <> 0 ->
  (k <> 0 \/ cl = true -> run = true) -> cl = close_queue n /\ fin = final n \/ close_queue n = true /\ cl || fin = true ->
  counts (<[p := set_process k run cl fin n]> h) svs rvs unr.
Proof.
  intros Hc Hp Hs Hrun Hcl. eapply counts_local; [done|done|done..|]. intros _ [N1 N2 N3 N4 N5]. constructor; cbn; try done.
  - destruct Hcl as [[-> ->]|[Hc1 Hc2]]; [done|]. intros _. apply N4. by left.
  - intros H0. destruct Hcl as [[-> ->]|[Hc1 Hc2]]; [by apply N5|]. apply orb_prop in Hc2. tauto.
Qed.
Lemma rest_ok s p : state_ok s -> p < length (procs s) -> exists s', rest p s = Some s' /\ state_ok s'.
Proof.
  intros Hok [n Hn]%lookup_lt_is_Some_2. unfold rest, via. rewrite Hn. cbn. destruct (Nat.eqb_spec (strong n) 0) as [|Hs]; cbn; [by eexists|].
  eexists. split; [done|]. destruct (running n) eqn:Hr; [|by destruct s; rewrite list_insert_id].
  apply (process_ok _ _ _ _ _ _ _ _ _ _ Hok Hn Hs); [|by left]. intros [Hq| ->]; [by destruct (Nat.eqb_spec (queued n) 0)|apply orb_true_r].
Qed.
Lemma sends_ok rvs unr svs l : forall h, counts h svs rvs unr -> (forall p, p ∈ l -> p < length h) ->
  exists h', fold_opt (fun h d => via enqueue d h) l h = Some h' /\ counts h' svs rvs unr.
Proof.
  induction l as [|p l IH]; intros h Hc Hl; [by exists h|]. destruct (enqueue_ok _ _ _ _ p Hc) as (h1 & H1 & Hc1 & Hl1); [apply Hl; by left|].
  destruct (IH h1 Hc1) as (h2 & H2 & Hc2); [intros q Hq; rewrite Hl1; apply Hl; by right|]. exists h2. cbn. rewrite H1. by cbn.
Qed.
Lemma take_message_ok s p : state_ok s -> p < length (procs s) -> exists s', take_message p s = Some s' /\ state_ok s'.
Proof.
  intros Hok [n Hn]%lookup_lt_is_Some_2. unfold take_message. rewrite Hn. cbn. destruct (Nat.eqb_spec (strong n) 0) as [|Hs]; cbn; [by exists s|].
  destruct (running n && negb (queued n =? 0)); [|by exists s].
  destruct (sends_ok _ _ _ (downstream n) _ (process_ok _ _ _ _ _ _ (queued n - 1) true _ _ Hok Hn Hs ltac:(done) ltac:(by left))) as (h & -> & Hc).
  - intros q Hq. rewrite length_insert. apply (c_targets _ _ _ _ Hok p n q Hn). apply elem_of_app. by left.
  - by eexists.
Qed.
(** A process lets its senders go. *)
Lemma targets_ok h svs rvs unr p n : counts h svs rvs unr -> h !! p = Some n -> strong n <> 0 ->
  counts (<[p := set_targets [] [] n]> h) ((downstream n ++ held n) ++ svs) rvs unr.
Proof.
  intros Hc Hp Hs.
  assert (Hup : forall x, occs x live_up (<[p := set_targets [] [] n]> h) = occs x live_up h) by (intros x; by eapply occs_same).
  assert (Htg : forall x, occs x live_targets (<[p := set_targets [] [] n]> h) + occ x (downstream n ++ held n) = occs x live_targets h).
  { intros x. pose proof (occs_insert x live_targets h p n (set_targets [] [] n) Hp) as Hi.
    replace (live_targets (set_targets [] [] n)) with (@nil nat) in Hi by (unfold live_targets; by rewrite live_alive).
    replace (live_targets n) with (downstream n ++ held n) in Hi by (unfold live_targets; by rewrite live_alive). rewrite occ_nil in Hi. lia. }
  assert (Hok : forall q m, node_ok svs unr h q m -> node_ok ((downstream n ++ held n) ++ svs) unr (<[p := set_targets [] [] n]> h) q m).
  { intros q m [N1 N2 N3 N4 N5]. constructor; try done. rewrite N1, (occ_app q _ svs). specialize (Htg q). lia. }
  constructor.
  - intros q m [(<- & -> & _)|[_ Hm]]%lookup_insert_cases; rewrite Hup; [by apply (c_strong _ _ _ _ Hc p n)|by apply (c_strong _ _ _ _ Hc)].
  - intros q m [(<- & -> & _)|[_ Hm]]%lookup_insert_cases Hq; [|by apply Hok, (c_node _ _ _ _ Hc)].
    by destruct (Hok p n (c_node _ _ _ _ Hc p n Hp Hs)) as [N1 N2 N3 N4 N5].
  - intros q m x [(<- & -> & _)|[_ Hm]]%lookup_insert_cases; [by apply (c_up _ _ _ _ Hc p n)|by apply (c_up _ _ _ _ Hc q m)].
  - intros q m x [(<- & -> & _)|[_ Hm]]%lookup_insert_cases; rewrite length_insert; [by intros ?%elem_of_nil|by apply (c_targets _ _ _ _ Hc q m)].
  - intros q. rewrite length_insert, elem_of_app. intros [Hq|Hq]; [by apply (c_targets _ _ _ _ Hc p n)|by apply (c_svs _ _ _ _ Hc)].
  - intros q. rewrite length_insert. apply (c_rvs _ _ _ _ Hc).
  - intros q. rewrite length_insert. apply (c_unr _ _ _ _ Hc).
Qed.
Lemma finish_ok s p : state_ok s -> p < length (procs s) -> exists s', finish p s = Some s' /\ state_ok s'.
Proof.
  intros Hok [n Hn]%lookup_lt_is_Some_2. unfold finish. rewrite Hn. cbn. destruct (Nat.eqb_spec (strong n) 0) as [|Hs]; cbn; [by exists s|].
  destruct (running n && (queued n =? 0) && close_queue n) eqn:Hb; [|by exists s]. apply andb_prop in Hb as [_ Hcl].
  pose proof (process_ok _ _ _ _ _ _ 0 false false true Hok Hn Hs ltac:(by intros [|]) ltac:(by right)) as Hc.
  pose proof (targets_ok _ _ _ _ p _ Hc ltac:(apply list_lookup_insert_eq; by eapply lookup_lt_Some) Hs) as Ht. rewrite list_insert_insert_eq in Ht.
  destruct (drop_senders_ok _ _ _ _ _ Ht) as (h & Hd & Hc' & _). unfold drop_senders in *. cbn in Hd |- *. rewrite Hd. by eexists.
Qed.

(** ** Properties *)
Lemma handles_step_ok o s : state_ok s -> clean o s = true -> exists s', step o s = Some s' /\ state_ok s'.
Proof.
  intros Hok Hc. destruct o; cbn [clean step] in Hc |- *; repeat match goal with H : _ && _ = true |- _ => apply andb_prop in H as [? ?] end;
    unfold has_sender in *; repeat match goal with H : (_ <? _) = true |- _ => apply Nat.ltb_lt in H end.
  - by apply channel_ok.
  - destruct (lookup_lt_is_Some_2 _ _ Hc) as [o Ho]. destruct (copy_sender_ok s v o Hok Ho) as (h & H & Hok'). by eexists.
  - by apply move_sender_ok.
  - apply assign_move_sender_ok; [done..|]. apply orb_prop in H0 as [[_ H0]%andb_prop|H0]; [left; by apply Nat.eqb_eq|right].
    unfold free_sender in H0. by destruct (senders s !! w) as [[|]|].
  - apply assign_copy_sender_ok; [done..|]. unfold free_sender in H0. by destruct (senders s !! w) as [[|]|].
  - by apply close_ok.
  - by apply send_ok.
  - unfold may_copy in Hc. destruct (receivers s !! r) as [[o b]|] eqn:Hr; [|done].
    destruct (copy_receiver_ok s r o b Hok Hr) as (h & H & Hok'); [destruct o, b; (by left) || (by right)|]. by eexists.
  - by apply move_receiver_ok.
  - apply assign_move_receiver_ok; [done..|]. apply orb_prop in H0 as [H0|H0]; [left; by apply Nat.eqb_eq|by right].
  - by apply assign_copy_receiver_ok.
  - by apply set_ready_ok.
  - by apply drop_receiver_ok.
  - by apply pipe_ok.
  - by apply pipe_sender_ok.
  - apply merge_ok; [done..|]. by intros ->.
  - by apply take_message_ok.
  - by apply rest_ok.
  - by apply finish_ok.
Qed.
Lemma steps_ok ops : forall s, state_ok s -> all_clean ops s = true -> exists s', steps ops s = Some s' /\ state_ok s'.
Proof.
  induction ops as [|o ops IH]; intros s Hok Hc; [by exists s|]. cbn in Hc. apply andb_prop in Hc as [Ho Hc].
  destruct (handles_step_ok o s Hok Ho) as (s1 & H1 & Hok1). rewrite H1 in Hc. destruct (IH s1 Hok1 Hc) as (s2 & H2 & Hok2).
  exists s2. split; [|done]. unfold steps in *. cbn. by rewrite H1.
Qed.
Lemma start_ok : state_ok start.
Proof. constructor; cbn; try done; by intros ? ?%elem_of_nil. Qed.
Lemma lives h svs rvs unr p n : counts h svs rvs unr -> h !! p = Some n -> strong n <> 0 <-> exists q, q ∈ rvs /\ rtc (follows h) q p.
Proof.
  intros Hc Hp. split.
  - remember (length h - p) as k eqn:Hk. revert p n Hp Hk. induction k as [k IH] using lt_wf_ind. intros p n Hp -> Hs.
    rewrite (c_strong _ _ _ _ Hc p n Hp) in Hs. destruct (decide (0 < occ p rvs)) as [H%occ_in|H]; [by exists p|].
    destruct (occs_exists p live_up h) as (q & m & Hq & Hin); [lia|]. unfold live_up, live in Hin.
    destruct (Nat.eqb_spec (strong m) 0) as [|Hm]; [by apply elem_of_nil in Hin|]. pose proof (c_up _ _ _ _ Hc q m p Hq Hin). apply lookup_lt_Some in Hq as Hl.
    destruct (IH (length h - q) ltac:(lia) q m Hq eq_refl Hm) as (r & Hr & Hrq). exists r. split; [done|]. eapply rtc_r; [done|]. by exists m.
  - intros (q & Hq & Hrq). destruct (lookup_lt_is_Some_2 _ _ (c_rvs _ _ _ _ Hc q Hq)) as [m Hm].
    pose proof (counts_alive _ _ _ _ _ _ Hc Hm Hq) as Hs. clear Hq. revert m Hm Hs. induction Hrq as [x|x y z (nx & Hx & Hy) Hyz IH]; intros m Hm Hs.
    + by rewrite Hp in Hm; injection Hm as ->.
    + rewrite Hx in Hm. injection Hm as ->. destruct (counts_keeps _ _ _ _ _ _ _ Hc Hx Hs Hy) as (ny & Hny & Hsy). by apply (IH Hp ny).
Qed.

(** The counts of a living process are the numbers of its handles; it runs if its
    receivers are ready and there is something to do; it is closed, or has ended,
    exactly when there is no sender. *)
Definition counted (s : state) (p : nat) (n : node) : Prop :=
  sender_count n = occ p (sender_handles s) + occs p live_targets (procs s) /\
  receiver_count n = (if sink n then 0 else occ p (unready_handles s)) /\
  (receiver_count n = 0 -> queued n <> 0 \/ close_queue n = true -> running n = true) /\
  (upstream n <> [] \/ generator n = false -> sender_count n = 0 <-> close_queue n = true \/ final n = true).
(** A variable holds a receiver of [p], or of a process downstream of it. *)
Definition held_by_client (s : state) (p : nat) : Prop :=
  exists q, q ∈ receiver_handles s /\ rtc (follows (procs s)) q p.

(** C13: programs with channels that are [clean], that is, assign to no sender or unready
    receiver in use, copy no receiver that is ready and merge only receivers of channels, run without failing an assertion, and
    then the counts of every process that lives are the numbers of its handles: of its
    senders, in variables, downstream of others and in their functions; of its
    receivers that are not ready. A process whose receivers are all ready runs if it
    has messages or is closed, and it is closed, or has ended, exactly when there is
    no sender. *)
Theorem handles_counted ops : all_clean ops start = true ->
  exists s, steps ops start = Some s /\ forall p n, procs s !! p = Some n -> strong n <> 0 ->
    counted s p n.
Proof.
  intros Hcl. destruct (steps_ok ops start start_ok Hcl) as (s & H & Hok). exists s. split; [done|].
  intros p n Hp Hs. destruct (c_node _ _ _ _ Hok p n Hp Hs) as [N1 N2 N3 N4 N5]. split_and!; [done..|].
  intros Hg. split; [|done]. intros H0. destruct (N5 H0) as [|[|[H1 H2]]]; [by left|by right|]. destruct Hg as [Hg|Hg]; [done|by rewrite H2 in Hg].
Qed.

(** C28: in such programs a process lives exactly as long as a variable holds one of its
    receivers, or a receiver of a process downstream of it. *)
Theorem held_processes_live ops : all_clean ops start = true ->
  exists s, steps ops start = Some s /\ forall p n, procs s !! p = Some n ->
    strong n <> 0 <-> held_by_client s p.
Proof.
  intros Hcl. destruct (steps_ok ops start start_ok Hcl) as (s & H & Hok). exists s. split; [done|]. intros p n Hp. by eapply lives.
Qed.

(** A channel with a copied sender, two processes, a generator and a merge, closed and dropped. *)
Definition two_ends : list op :=
  [Channel false; Pipe 0 false; Pipe 0 true; SetReady 0; CopySender 0; AssignMoveSender 0 0; Send 0; Close 0; Channel true; Pipe 3 false; CopyReceiver 1;
   Merge [1; 4] true; SetReady 1; SetReady 5; SetReady 4; TakeMessage 0; Close 1; DropReceiver 0; Rest 0; Finish 0; PipeSender 3 1; DropReceiver 7; DropReceiver 2].
Lemma handles_counted_witness : all_clean two_ends start = true /\ exists s, steps two_ends start = Some s /\ forall p n, procs s !! p = Some n -> strong n <> 0 ->
    counted s p n.
Proof. split; [vm_compute; reflexivity|]. apply handles_counted. vm_compute. reflexivity. Defined.
Lemma held_processes_live_witness : all_clean two_ends start = true /\ exists s, steps two_ends start = Some s /\ forall p n, procs s !! p = Some n ->
    strong n <> 0 <-> held_by_client s p.
Proof. split; [vm_compute; reflexivity|]. apply held_processes_live. vm_compute. reflexivity. Defined.
