(* ===== verification/Annotations.v ===== *)
(** * Annotations of processes

    Model of [operator&] and of what [operator|] makes of it: [buffer_size],
    [annotations], [annotated_process] of [channel.hpp] ([deps/clean_stlab_trash]) and
    [executor], [executor_task_pair] of [executor_base.hpp] ([deps/clean_stlab]). *)

From S2P Require Import Prelude.
Local Open Scope nat_scope.

Section annotations.
Context {Ex F : Type}.
Implicit Types (e : Ex) (f : F) (b : nat).

Record annotations := mk_annotations { _executor : option Ex; _buffer_size : option nat }.
Record annotated_process := mk_process { _f : F; _annotations : annotations }.

(** What stands beside an [&]. *)
Inductive operand :=
  | Buffer b | Exec e | Fun f | Pair e f | Notes (a : annotations) | Process (p : annotated_process).

(** The overloads, on temporaries; [None]: none of them gives a process. The last two
    assign to the process that has been moved from, and return the other one. *)
Definition combine_bs_executor b e : annotations :=
  let result := mk_annotations None (Some b) in mk_annotations (Some e) (_buffer_size result).
Definition amp_process_executor (a : annotated_process) e : annotated_process :=
  let result := a in let a := mk_process (_f a) (mk_annotations (Some e) (_buffer_size (_annotations a))) in result.
Definition amp_process_buffer (a : annotated_process) b : annotated_process :=
  let result := a in let a := mk_process (_f a) (mk_annotations (_executor (_annotations a)) (Some b)) in result.
Definition amp (x y : operand) : option operand :=
  match x, y with
  | Buffer b, Exec e | Exec e, Buffer b => Some (Notes (combine_bs_executor b e))
  | Buffer b, Fun f | Fun f, Buffer b => Some (Process (mk_process f (mk_annotations None (Some b))))
  | Exec e, Fun f | Fun f, Exec e => Some (Pair e f)
  | Pair e f, Buffer b | Buffer b, Pair e f => Some (Process (mk_process f (mk_annotations (Some e) (Some b))))
  | Notes a, Fun f | Fun f, Notes a => Some (Process (mk_process f a))
  | Process a, Exec e => Some (Process (amp_process_executor a e))
  | Process a, Buffer b => Some (Process (amp_process_buffer a b))
  | _, _ => None
  end.

(** Expressions; [operator|] takes a function, a pair or a process: the function, the
    executor it runs on and the size of its buffer, which is 1 by default. *)
Inductive expr := Size b | On e | Call f | And (x y : expr).
Fixpoint value (x : expr) : option operand :=
  match x with
  | Size b => Some (Buffer b)
  | On e => Some (Exec e)
  | Call f => Some (Fun f)
  | And x y => x ← value x; y ← value y; amp x y
  end.
Definition attached (upstream : Ex) (x : operand) : option (F * Ex * nat) :=
  match x with
  | Fun f => Some (f, upstream, 1)
  | Pair e f => Some (f, e, 1)
  | Process p => Some (_f p, default upstream (_executor (_annotations p)), default 1 (_buffer_size (_annotations p)))
  | _ => None
  end.
Definition process_of (upstream : Ex) (x : expr) : option (F * Ex * nat) := v ← value x; attached upstream v.

(** ** What is written in an expression *)
Fixpoint sizes (x : expr) : list nat := match x with Size b => [b] | And x y => sizes x ++ sizes y | _ => [] end.
Fixpoint executors (x : expr) : list Ex := match x with On e => [e] | And x y => executors x ++ executors y | _ => [] end.
Fixpoint functions (x : expr) : list F := match x with Call f => [f] | And x y => functions x ++ functions y | _ => [] end.
(** Nothing is added to a process that has its buffer. *)
Fixpoint added_in_time (x : expr) : Prop :=
  match x with And x y => added_in_time x /\ added_in_time y /\ forall p, value x <> Some (Process p) | _ => True end.

Definition says (v : operand) (x : expr) : Prop :=
  match v with
  | Buffer b => (sizes x, executors x, functions x) = ([b], [], [])
  | Exec e => (sizes x, executors x, functions x) = ([], [e], [])
  | Fun f => (sizes x, executors x, functions x) = ([], [], [f])
  | Pair e f => (sizes x, executors x, functions x) = ([], [e], [f])
  | Notes a => exists b e, a = mk_annotations (Some e) (Some b) /\ (sizes x, executors x, functions x) = ([b], [e], [])
  | Process p => exists b, _buffer_size (_annotations p) = Some b /\ (sizes x, executors x, functions x) = ([b], option_list (_executor (_annotations p)), [_f p])
  end.
Lemma value_says x : added_in_time x -> forall v, value x = Some v -> says v x.
Proof.
  induction x as [b|e|f|x IHx y IHy]; intros Hx v Hv; [by injection Hv as <-..|]. cbn in Hx. destruct Hx as (Hax & Hay & Hp). cbn in Hv.
  destruct (value x) as [vx|]; [|done]. destruct (value y) as [vy|]; [|done]. cbn in Hv. specialize (IHx Hax vx eq_refl). specialize (IHy Hay vy eq_refl).
  destruct vx, vy; cbn in Hv; try done; try (by destruct (Hp p)); injection Hv as <-; cbn in IHx, IHy |- *;
    repeat match goal with H : exists _ _, _ |- _ => destruct H as (? & ? & -> & H) end; simplify_eq;
    repeat match goal with H : ?l = _ |- context [?l] => rewrite H; clear H end; repeat eexists; done.
Qed.

(** An expression that [operator|] accepts, in which nothing is added to a process
    that has its buffer already, gives what is written in it: its one function, with
    its one executor, or the one of the channel, and its one size, or 1. *)
Theorem annotations_kept upstream x f e b : added_in_time x -> process_of upstream x = Some (f, e, b) ->
  functions x = [f] /\ (executors x = [e] \/ executors x = [] /\ e = upstream) /\ (sizes x = [b] \/ sizes x = [] /\ b = 1).
Proof.
  intros Hx H. unfold process_of in H. destruct (value x) as [v|] eqn:Hv; [|done]. pose proof (value_says x Hx v Hv) as Hs. cbn in H.
  destruct v as [| | | |a|p]; cbn in *; try done; simplify_eq; [rewrite H0, H1, H2..|].
  - split_and!; [done|by right|by right].
  - split_and!; [done|by left|by right].
  - destruct Hs as (b & Hb & Hs). rewrite Hb. injection Hs as -> -> ->. split_and!; [done| |by left]. destruct (_executor (_annotations p)); [by left|by right].
Qed.

(** An executor, or a size, that is added to a process with a buffer is dropped;
    in the other orders without parentheses it is kept. *)
Theorem annotations_get_lost upstream f e b b' :
  process_of upstream (And (And (Call f) (Size b)) (On e)) = Some (f, upstream, b) /\
  process_of upstream (And (And (Size b) (Call f)) (On e)) = Some (f, upstream, b) /\
  process_of upstream (And (And (Call f) (Size b)) (Size b')) = Some (f, upstream, b) /\
  process_of upstream (And (And (Call f) (On e)) (Size b)) = Some (f, e, b) /\
  process_of upstream (And (And (On e) (Call f)) (Size b)) = Some (f, e, b) /\
  process_of upstream (And (And (Size b) (On e)) (Call f)) = Some (f, e, b) /\
  process_of upstream (And (And (On e) (Size b)) (Call f)) = Some (f, e, b).
Proof. done. Qed.
End annotations.

Lemma annotations_kept_witness : process_of 0 (And (Size 3) (And (@On nat nat 1) (Call 2))) = Some (2, 1, 3) /\
  [2] = [2] /\ ([1] = [1] \/ [1] = [] /\ 1 = 0) /\ ([3] = [3] \/ [3] = [] /\ 3 = 1).
Proof.
  split; [reflexivity|]. apply (annotations_kept 0 (And (Size 3) (And (On 1) (Call 2))) 2 1 3); [|reflexivity].
  cbn. split_and!; done.
Defined.
