(* ===== verification/ProgressTracker.v ===== *)
(** * Progress trackers

    Model of [progress.hpp] ([deps/clean_stlab_trash]): the counts of a
    [tracker_server], the clients that count themselves, and calls of clients by
    several threads, interleaved at the atomic operations. *)

From S2P Require Import Prelude.
Local Open Scope nat_scope.

(** What a call still has to do after [++_done_tasks]: to load [steps()], to load
    [completed()] (C++ leaves the order of the two open), to call [_signal]. *)
Inductive call := Load_steps | Load_completed (steps : nat) | Signal (steps completed : nat).
(** The counts, the pointers of the client variables (weak ones: empty or to the
    tracker, which is kept), the calls, and what [_signal] was called with. *)
Record state := mk_state {
  task_number : nat; done_tasks : nat; clients : list bool; calls : list call; signals : list (nat * nat)
}.
Definition start : state := mk_state 0 0 [] [] [].

Definition set_tasks (n : nat) (s : state) : state := mk_state n (done_tasks s) (clients s) (calls s) (signals s).
Definition set_clients (l : list bool) (s : state) : state := mk_state (task_number s) (done_tasks s) l (calls s) (signals s).
Definition set_calls (l : list call) (s : state) : state := mk_state (task_number s) (done_tasks s) (clients s) l (signals s).
Definition add_task (s : state) : state := set_tasks (S (task_number s)) s.
(** [None]: the count would wrap around. *)
Definition drop_task (s : state) : option state := match task_number s with 0 => None | S n => Some (set_tasks n s) end.
(** [if (p) p->...] *)
Definition locked (b : bool) (f : state -> option state) (s : state) : option state := if b then f s else Some s.

(** [progress_tracker::operator()]; the constructors, assignments and the destructor of
    [tracker_client], after which a variable is empty. *)
Definition track (s : state) : option state := Some (add_task (set_clients (clients s ++ [true]) s)).
Definition copy (v : nat) (s : state) : option state :=
  b ← clients s !! v; locked b (fun s => Some (add_task s)) (set_clients (clients s ++ [b]) s).
Definition move (v : nat) (s : state) : option state :=
  b ← clients s !! v; Some (set_clients (<[v := false]> (clients s) ++ [b]) s).
Definition assign_copy (w v : nat) (s : state) : option state :=
  b ← clients s !! v; b' ← clients s !! w; locked b (fun s => Some (add_task s)) (set_clients (<[w := b]> (clients s)) s).
Definition assign_move (w v : nat) (s : state) : option state :=
  b ← clients s !! v; b' ← clients s !! w; Some (set_clients (<[w := b]> (<[v := false]> (clients s))) s).
Definition destroy (v : nat) (s : state) : option state :=
  b ← clients s !! v; locked b drop_task (set_clients (<[v := false]> (clients s)) s).
(** [operator()], and [task_done] up to its increment; [throws]: [_f] does. *)
Definition invoke (v : nat) (throws : bool) (s : state) : option state :=
  b ← clients s !! v;
  locked (b && negb throws) (fun s => Some (mk_state (task_number s) (S (done_tasks s)) (clients s) (calls s ++ [Load_steps]) (signals s))) s.
Definition advance (i : nat) (s : state) : option state :=
  c ← calls s !! i;
  match c with
  | Load_steps => Some (set_calls (<[i := Load_completed (task_number s)]> (calls s)) s)
  | Load_completed n => Some (set_calls (<[i := Signal n (done_tasks s)]> (calls s)) s)
  | Signal n m => Some (mk_state (task_number s) (done_tasks s) (clients s) (delete i (calls s)) (signals s ++ [(n, m)]))
  end.

Inductive op := Track | Copy (v : nat) | Move (v : nat) | AssignCopy (w v : nat) | AssignMove (w v : nat) | Destroy (v : nat) | Invoke (v : nat) (throws : bool) | Advance (i : nat).
Definition step (o : op) (s : state) : option state :=
  match o with
  | Track => track s | Copy v => copy v s | Move v => move v s
  | AssignCopy w v => assign_copy w v s | AssignMove w v => assign_move w v s
  | Destroy v => destroy v s | Invoke v throws => invoke v throws s | Advance i => advance i s
  end.
Definition steps (ops : list op) (s : state) : option state := fold_opt (fun s o => step o s) ops s.

(** How often a client in use is overwritten, and how many calls return. *)
Definition in_use (v : nat) (s : state) : nat := match clients s !! v with Some true => 1 | _ => 0 end.
Definition overwrites (o : op) (s : state) : nat :=
  match o with AssignCopy w v => in_use w s | AssignMove w v => if w =? v then 0 else in_use w s | _ => 0 end.
Definition returns (o : op) (s : state) : nat := match o with Invoke v false => in_use v s | _ => 0 end.
Fixpoint count_ops (g : op -> state -> nat) (ops : list op) (s : state) : nat :=
  match ops with [] => 0 | o :: ops => g o s + match step o s with Some s' => count_ops g ops s' | None => 0 end end.
Definition engaged (s : state) : nat := sum_list_with Nat.b2n (clients s).

(** A signal that carries, or will carry, the number of tasks done by now. *)
Definition up_to_date (s : state) : Prop :=
  done_tasks s = 0 \/ (exists n, (n, done_tasks s) ∈ signals s) \/
  exists c, c ∈ calls s /\ match c with Signal _ m => m = done_tasks s | _ => True end.
Definition sane (s : state) : Prop :=
  (forall n m, (n, m) ∈ signals s -> m <= done_tasks s) /\ (forall n m, Signal n m ∈ calls s -> m <= done_tasks s) /\ up_to_date s.

Lemma engaged_insert l v b b' : l !! v = Some b -> sum_list_with Nat.b2n (<[v := b']> l) + Nat.b2n b = sum_list_with Nat.b2n l + Nat.b2n b'.
Proof. apply (sum_with_insert Nat.b2n). Qed.
Lemma engaged_new l b : sum_list_with Nat.b2n (l ++ [b]) = sum_list_with Nat.b2n l + Nat.b2n b.
Proof. rewrite sum_list_with_app. cbn. lia. Qed.
(** Steps, and the counts they keep. *)
Definition keeps (o : op) (s s' : state) : Prop :=
  task_number s' + engaged s = task_number s + engaged s' + overwrites o s /\ done_tasks s' = done_tasks s + returns o s /\ (sane s -> sane s').
Ltac client v s b Hv := destruct (clients s !! v) as [b|] eqn:Hv; [cbn [mbind option_bind]|intros; discriminate].
Ltac counted := unfold keeps, engaged, overwrites, returns, in_use in *; cbn [task_number done_tasks clients set_tasks set_clients add_task] in *; rewrite ?engaged_new.
Lemma track_keeps s s' : track s = Some s' -> keeps Track s s'.
Proof. intros [= <-]. counted. cbn. split_and!; [lia..|done]. Qed.
Lemma copy_keeps v s s' : copy v s = Some s' -> keeps (Copy v) s s'.
Proof. unfold copy. client v s b Hv. destruct b; intros [= <-]; counted; cbn; split_and!; [lia..|done|lia|lia|done]. Qed.
Lemma move_keeps v s s' : move v s = Some s' -> keeps (Move v) s s'.
Proof.
  unfold move. client v s b Hv. intros [= <-]. pose proof (engaged_insert _ _ _ false Hv). counted. cbn in *. split_and!; [lia..|done].
Qed.
Lemma assign_copy_keeps w v s s' : assign_copy w v s = Some s' -> keeps (AssignCopy w v) s s'.
Proof.
  unfold assign_copy. client v s b Hv. client w s b' Hw. pose proof (engaged_insert _ _ _ b Hw).
  destruct b; intros [= <-]; counted; rewrite Hw; destruct b'; cbn in *; split_and!; lia || done.
Qed.
Lemma assign_move_keeps w v s s' : assign_move w v s = Some s' -> keeps (AssignMove w v) s s'.
Proof.
  unfold assign_move. client v s b Hv. client w s b' Hw. intros [= <-]. counted. destruct (Nat.eqb_spec w v) as [->|Hne].
  - rewrite list_insert_insert_eq, list_insert_id by done. split_and!; [lia..|done].
  - pose proof (engaged_insert _ _ _ false Hv) as H1.
    pose proof (engaged_insert (<[v := false]> (clients s)) w b' b ltac:(by rewrite list_lookup_insert_ne)) as H2.
    rewrite Hw. destruct b'; cbn in *; split_and!; lia || done.
Qed.
Lemma destroy_keeps v s s' : destroy v s = Some s' -> keeps (Destroy v) s s'.
Proof.
  unfold destroy. client v s b Hv. pose proof (engaged_insert _ _ _ false Hv). destruct b; cbn [locked]; [|intros [= <-]; counted; cbn in *; split_and!; lia || done].
  unfold drop_task. cbn [task_number set_clients]. destruct (task_number s) eqn:Ht; [done|]. intros [= <-]. counted. cbn in *. split_and!; lia || done.
Qed.
Lemma invoke_keeps v b s s' : invoke v b s = Some s' -> keeps (Invoke v b) s s'.
Proof.
  unfold invoke. client v s c Hv. destruct b, c; cbn; intros [= <-]; counted; cbn; rewrite ?Hv; split_and!; try lia; try done.
  intros (H1 & H2 & _). split_and!; cbn.
  - intros n m Hin. specialize (H1 n m Hin). lia.
  - intros n m [Hin|Hin%list_elem_of_singleton]%elem_of_app; [|done]. specialize (H2 n m Hin). lia.
  - right; right. exists Load_steps. split; [apply elem_of_app; right; by left|done].
Qed.
Lemma elem_insert {A} (l : list A) i x y : y ∈ <[i := x]> l -> y = x \/ y ∈ l.
Proof. intros [j [(_ & <- & _)|[_ Hj]]%list_lookup_insert_Some]%list_elem_of_lookup; [by left|right; by eapply list_elem_of_lookup_2]. Qed.
Lemma elem_kept {A} (l : list A) i a x y : l !! i = Some a -> y ∈ l -> y = a \/ y ∈ <[i := x]> l /\ y ∈ delete i l.
Proof.
  intros Hi. rewrite <- (take_drop_middle _ _ _ Hi) at 1. rewrite elem_of_app, elem_of_cons, delete_take_drop.
  apply lookup_lt_Some in Hi as Hl. rewrite insert_take_drop by done. rewrite !elem_of_app, elem_of_cons. tauto.
Qed.
Lemma advance_keeps i s s' : advance i s = Some s' -> keeps (Advance i) s s'.
Proof.
  unfold advance. destruct (calls s !! i) as [c|] eqn:Hi; [cbn [mbind option_bind]|done]. intros H.
  assert (Hk : sane s -> sane s').
  { intros (H1 & H2 & H3). pose proof (lookup_lt_Some _ _ _ Hi) as Hl. destruct c as [|n|n m]; injection H as <-; split_and!; cbn [signals calls done_tasks set_calls]; try done.
    - by intros n m [|Hin]%elem_insert; [|by eapply H2].
    - destruct H3 as [H3|[H3|(c & Hc & Hm)]]; [by left|by right; left|]. right; right. cbn [calls set_calls done_tasks].
      destruct (elem_kept _ _ _ (Load_completed (task_number s)) c Hi Hc) as [->|[Hin _]]; [|by exists c].
      exists (Load_completed (task_number s)). split; [by apply list_elem_of_insert|done].
    - intros k m [[= -> ->]|Hin]%elem_insert; [done|by eapply H2].
    - right; right. exists (Signal n (done_tasks s)). split; [by apply list_elem_of_insert|done].
    - intros k l [Hin|[= -> ->]%list_elem_of_singleton]%elem_of_app; [by eapply H1|]. eapply H2. by eapply list_elem_of_lookup_2.
    - intros k l Hin. eapply H2. by eapply list_elem_of_delete_inv.
    - destruct H3 as [H3|[(k & Hk)|(c & Hc & Hm)]]; [by left|right; left; exists k; apply elem_of_app; by left|].
      destruct (elem_kept _ _ _ (Load_steps) c Hi Hc) as [->|[_ Hin]]; [|right; right; by exists c].
      right; left. exists n. cbn. rewrite <- Hm. apply elem_of_app. right. by left. }
  split_and!; [..|done]; destruct c; injection H as <-; counted; cbn; lia.
Qed.
Lemma step_keeps o s s' : step o s = Some s' -> keeps o s s'.
Proof.
  destruct o; [apply track_keeps|apply copy_keeps|apply move_keeps|apply assign_copy_keeps|apply assign_move_keeps|apply destroy_keeps|apply invoke_keeps|apply advance_keeps].
Qed.

(** *** What the signals carry was read on the way *)

(** After [ops] the value of [g] is [n] at some moment; [n] tasks, and [m] done at that
    moment or later. *)
Definition read_steps (ops : list op) (n : nat) : Prop :=
  exists ops1 ops2 s1, ops = ops1 ++ ops2 /\ steps ops1 start = Some s1 /\ n = task_number s1 /\ 0 < done_tasks s1.
Definition read_both (ops : list op) (n m : nat) : Prop :=
  exists ops1 ops2 s1, ops = ops1 ++ ops2 /\ read_steps ops1 n /\ steps ops1 start = Some s1 /\ m = done_tasks s1.
Record traced (ops : list op) (s : state) : Prop := mk_traced {
  t_started : Load_steps ∈ calls s -> 0 < done_tasks s;
  t_steps n : Load_completed n ∈ calls s -> read_steps ops n;
  t_both n m : Signal n m ∈ calls s -> read_both ops n m;
  t_signals n m : (n, m) ∈ signals s -> read_both ops n m
}.

Lemma read_steps_more ops o n : read_steps ops n -> read_steps (ops ++ [o]) n.
Proof. intros (ops1 & ops2 & s1 & -> & H). exists ops1, (ops2 ++ [o]), s1. by rewrite app_assoc. Qed.
Lemma read_both_more ops o n m : read_both ops n m -> read_both (ops ++ [o]) n m.
Proof. intros (ops1 & ops2 & s1 & -> & H). exists ops1, (ops2 ++ [o]), s1. by rewrite app_assoc. Qed.
Lemma read_steps_now ops s : steps ops start = Some s -> 0 < done_tasks s -> read_steps ops (task_number s).
Proof. intros H Hd. exists ops, [], s. by rewrite app_nil_r. Qed.
Lemma read_both_now ops s n : steps ops start = Some s -> read_steps ops n -> read_both ops n (done_tasks s).
Proof. intros H Hn. exists ops, [], s. by rewrite app_nil_r. Qed.

Lemma traced_same ops o s s' : traced ops s -> calls s' = calls s -> signals s' = signals s -> done_tasks s' = done_tasks s -> traced (ops ++ [o]) s'.
Proof.
  intros [H1 H2 H3 H4] Ec Es Ed. constructor; rewrite ?Ec, ?Es, ?Ed; [done|..]; intros *.
  - intros Hin. by apply read_steps_more, H2.
  - intros Hin. by apply read_both_more, H3.
  - intros Hin. by apply read_both_more, H4.
Qed.
Lemma advance_traced ops i s s' : steps ops start = Some s -> steps (ops ++ [Advance i]) start = Some s' -> traced ops s -> advance i s = Some s' -> traced (ops ++ [Advance i]) s'.
Proof.
  intros Hr Hr' [H1 H2 H3 H4]. unfold advance. destruct (calls s !! i) as [c|] eqn:Hi; [cbn [mbind option_bind]|done].
  pose proof (list_elem_of_lookup_2 _ _ _ Hi) as Hc. destruct c as [|n|n m]; intros [= <-]; constructor; cbn.
  - by intros [|]%elem_insert; auto.
  - intros n [[= ->]|Hin]%elem_insert; [|by apply read_steps_more, H2]. apply (read_steps_now _ _ Hr'). by apply H1.
  - intros n m [|Hin]%elem_insert; [done|]. by apply read_both_more, H3.
  - intros n m Hin. by apply read_both_more, H4.
  - by intros [|]%elem_insert; auto.
  - intros k [|Hin]%elem_insert; [done|]. by apply read_steps_more, H2.
  - intros k m [[= -> ->]|Hin]%elem_insert; [|by apply read_both_more, H3]. apply (read_both_now _ _ n Hr'). by apply read_steps_more, H2.
  - intros k m Hin. by apply read_both_more, H4.
  - intros Hin. apply H1. by eapply list_elem_of_delete_inv.
  - intros k Hin. apply read_steps_more, H2. by eapply list_elem_of_delete_inv.
  - intros k l Hin. apply read_both_more, H3. by eapply list_elem_of_delete_inv.
  - intros k l [Hin|[= -> ->]%list_elem_of_singleton]%elem_of_app; [by apply read_both_more, H4|]. by apply read_both_more, H3.
Qed.
Lemma step_traced ops o s s' : steps ops start = Some s -> steps (ops ++ [o]) start = Some s' -> traced ops s -> step o s = Some s' -> traced (ops ++ [o]) s'.
Proof.
  intros Hr Hr' Ht H. destruct o as [|v|v|w v|w v|v|v b|i]; [| | | | | | |by apply (advance_traced ops i s)].
  1: by injection H as <-; apply (traced_same ops _ s).
  all: cbn in H; unfold copy, move, assign_copy, assign_move, destroy, invoke in H; destruct (clients s !! v) as [c|]; [cbn [mbind option_bind] in H|done].
  3, 4: destruct (clients s !! w) as [c'|]; [cbn [mbind option_bind] in H|done].
  1-5: apply (traced_same ops _ s _ Ht); unfold locked, drop_task in H; repeat case_match; by simplify_eq/=.
  destruct (c && negb b); injection H as <-; [|by apply (traced_same ops _ s)]. destruct Ht as [H1 H2 H3 H4]. constructor; cbn.
  - intros _. lia.
  - intros n [Hin|?%list_elem_of_singleton]%elem_of_app; [|done]. by apply read_steps_more, H2.
  - intros n m [Hin|?%list_elem_of_singleton]%elem_of_app; [|done]. by apply read_both_more, H3.
  - intros n m Hin. by apply read_both_more, H4.
Qed.
Lemma steps_traced ops s : steps ops start = Some s -> traced ops s.
Proof.
  revert s. induction ops as [|o ops IH] using rev_ind; intros s H; [by injection H as <-; constructor; intros * ?%elem_of_nil|].
  pose proof H as H'. unfold steps in H. rewrite fold_opt_app in H. apply bind_Some in H as (s1 & H1 & H2). cbn in H2.
  destruct (step o s1) as [s2|] eqn:Hs; [|done]. injection H2 as <-. apply (step_traced ops o s1); [done..|by apply IH|done].
Qed.

Definition demo_ops : list op :=
  [Track; Copy 0; Invoke 0 false; Advance 0; Advance 0; Invoke 1 false; Advance 1; Advance 1; Advance 1; Advance 0; AssignMove 1 0; Destroy 1; Invoke 0 true].
