(* ===== verification/FutureCombinators.v ===== *)
(** * Combining futures

    Model of [when_all] and [when_any] of [stlab]'s [future.hpp] ([deps/clean_stlab]),
    on ranges ([common_context] with its triggers) and on argument packs
    ([when_all_shared], [when_any_shared]). The continuations attached to the
    input futures run on any threads when their inputs are ready; what each does
    to the shared context is cut at its atomic operations and at its accesses to
    data others use, and everything interleaves. Resetting the holds may cancel
    inputs that have not arrived. Whether an input is ready with a value or an
    exception is given. *)

From S2P Require Import Prelude.
Local Open Scope nat_scope.

Section combinators.
Context {V E : Type}.

(** What a ready future holds. *)
Inductive ready := Value (v : V) | Error (e : E).
#[global] Instance ready_eq_dec `{EqDecision V} `{EqDecision E} : EqDecision ready.
Proof. solve_decision. Defined.

(** ** Triggers and contexts *)

Inductive trigger := single_trigger | all_trigger.

(** [ResultCollector], [FailureCollector]; whether [_results] is a vector with a
    place for each input ([when_all]) or one value with its index ([when_any]);
    whether a single event resets the holds. *)
Record config := mk_config {
  result_collector : trigger;
  failure_collector : trigger;
  per_input : bool;
  resets_holds : bool
}.
Definition when_all_config : config := mk_config all_trigger single_trigger true true.
Definition when_any_range_config : config := mk_config single_trigger all_trigger false true.
(** [when_any_shared::done] keeps the other inputs. *)
Definition when_any_args_config : config := mk_config single_trigger all_trigger false false.

(** What the continuation of one input has still to do: it has not begun, or has
    been cancelled; it has stored its value; it has taken the single event, and
    has reset the holds; it was the last error; it is about to call [_f]; it has
    returned. *)
Inductive pc := Waiting | Cancelled | Stored | Won | Reset | LastError | Firing | Finished.

(** [_results] as vector ([None]: as [resize] or the default constructor left it)
    and as one value with [_index]. *)
Record results := mk_results { slots : list (option V); picked : option (V * nat); exception : option E }.

(** The context, the inputs, and the results [_f] was called on. *)
Record state := mk_state {
  context : results;
  remaining : nat;
  single_event_trigger : bool;
  holds : bool;
  inputs : list (ready * pc);
  fired : list results
}.

Section context.
Context (c : config).

(** [apply]: [value_storer] and the overload for exceptions. *)
Definition apply (r : ready) (index : nat) (x : results) : results :=
  match r with
  | Value v =>
      if per_input c then mk_results (<[index := Some v]> (slots x)) (picked x) (exception x)
      else mk_results (slots x) (Some (v, index)) (exception x)
  | Error e => mk_results (slots x) (picked x) (Some e)
  end.

Definition collector (r : ready) : trigger :=
  match r with Value _ => result_collector c | Error _ => failure_collector c end.

(** One step of the continuation of input [i]: [done] or [failure], through
    [single_trigger::go] or [all_trigger::go]. *)
Definition step_input (i : nat) (s : state) : option state :=
  let moves p := Some (mk_state (context s) (remaining s) (single_event_trigger s) (holds s)
                        (alter (fun x => (x.1, p)) i (inputs s)) (fired s)) in
  let applies r p := Some (mk_state (apply r i (context s)) (remaining s) (single_event_trigger s) (holds s)
                        (alter (fun x => (x.1, p)) i (inputs s)) (fired s)) in
  let counts last := Some (mk_state (context s) (remaining s - 1) (single_event_trigger s) (holds s)
                        (alter (fun x => (x.1, if remaining s - 1 =? 0 then last else Finished)) i (inputs s)) (fired s)) in
  match inputs s !! i with
  | Some (r, Waiting) =>
      match collector r with
      | all_trigger => match r with Value _ => applies r Stored | Error _ => counts LastError end
      | single_trigger =>
          Some (mk_state (context s) (remaining s) true (holds s)
                 (alter (fun x => (x.1, if single_event_trigger s then Finished else Won)) i (inputs s)) (fired s))
      end
  | Some (r, Stored) => counts Firing
  | Some (r, LastError) => applies r Firing
  | Some (r, Won) =>
      Some (mk_state (context s) (remaining s) (single_event_trigger s) (if resets_holds c then false else holds s)
             (alter (fun x => (x.1, Reset)) i (inputs s)) (fired s))
  | Some (r, Reset) => applies r Firing
  | Some (r, Firing) =>
      Some (mk_state (context s) (remaining s) (single_event_trigger s) (holds s)
             (alter (fun x => (x.1, Finished)) i (inputs s)) (fired s ++ [context s]))
  | Some (_, Cancelled) | Some (_, Finished) | None => None
  end.

(** Without its hold an input may never arrive. *)
Definition cancel (i : nat) (s : state) : option state :=
  match inputs s !! i with
  | Some (r, Waiting) =>
      if holds s then None
      else Some (mk_state (context s) (remaining s) (single_event_trigger s) (holds s)
                  (alter (fun x => (x.1, Cancelled)) i (inputs s)) (fired s))
  | _ => None
  end.

Inductive step : state -> state -> Prop :=
  | step_by_input i s s' : step_input i s = Some s' -> step s s'
  | step_cancel i s s' : cancel i s = Some s' -> step s s'.

(** [create_range_of_futures], [when_all], [when_any] with inputs attached. *)
Definition start (rs : list ready) : state :=
  mk_state (mk_results (replicate (length rs) None) None None) (length rs) false true ((fun r => (r, Waiting)) <$> rs) [].
End context.

(** ** What the packaged task answers

    [common_context::execute] on the results it was called on: the exception, or
    what the client's function is called with. [d] is the default value [resize]
    fills the vector with. *)
Definition execute_all (d : V) (x : results) : list V + E :=
  match exception x with Some e => inr e | None => inl (default d <$> slots x) end.
Definition execute_any (x : results) : option (V * nat) + E :=
  match exception x with Some e => inr e | None => inl (picked x) end.

(** [apply_when_all_args]: an argument that is missing rethrows the exception,
    which is undefined without one ([None]). *)
Definition apply_when_all_args (x : results) : option (list V + E) :=
  match mapM id (slots x) with
  | Some l => Some (inl l)
  | None => inr <$> exception x
  end.
(** [apply_when_any_arg] and [when_any_shared::apply]. *)
Definition apply_when_any_arg (x : results) : option (V * nat + E) :=
  match exception x with Some e => Some (inr e) | None => inl <$> picked x end.

(** ** Ranges of no futures: [when_all] runs its function on the empty vector,
    [when_any] answers a broken promise. *)
Inductive answer := Runs (l : list V) | BrokenPromise | Attached (s : state).
Definition when_all_range (rs : list ready) : answer :=
  match rs with [] => Runs [] | _ => Attached (start rs) end.
Definition when_any_range (rs : list ready) : answer :=
  match rs with [] => BrokenPromise | _ => Attached (start rs) end.

(** ** Invariant *)

Section invariant.
Context (c : config) (rs : list ready).

(** Has counted itself down; will call [_f] or is about to. *)
Definition counted (x : ready * pc) : nat :=
  match collector c x.1, x.2 with
  | all_trigger, (LastError | Firing | Finished) => 1
  | _, _ => 0
  end.
Definition active (x : ready * pc) : nat :=
  match x.2 with Won | Reset | LastError | Firing => 1 | _ => 0 end.
Definition pc_ok (x : ready * pc) : bool :=
  match collector c x.1, x.1, x.2 with
  | _, _, (Waiting | Cancelled | Firing | Finished) => true
  | single_trigger, _, (Won | Reset) => true
  | all_trigger, Value _, Stored => true
  | all_trigger, Error _, LastError => true
  | _, _, _ => false
  end.

Record inv (s : state) : Prop := mk_inv {
  inv_inputs : (inputs s).*1 = rs;
  inv_slots : length (slots (context s)) = length rs;
  inv_remaining : remaining s + sum_list_with counted (inputs s) = length rs;
  inv_fire : sum_list_with active (inputs s) + length (fired s)
             = Nat.b2n (single_event_trigger s) + Nat.b2n (remaining s =? 0);
  inv_trigger : single_event_trigger s = true -> exists i x, inputs s !! i = Some x /\ collector c x.1 = single_trigger;
  inv_quiet : single_event_trigger s = false -> holds s = true /\
    forall i x, inputs s !! i = Some x -> collector c x.1 = single_trigger -> x.2 = Waiting;
  inv_cancelled : forall i x, inputs s !! i = Some x -> x.2 = Cancelled -> holds s = false;
  inv_pc : Forall (fun x => pc_ok x = true) (inputs s);
  inv_last : forall i x, inputs s !! i = Some x -> collector c x.1 = all_trigger -> x.2 = LastError \/ x.2 = Firing ->
    remaining s = 0
}.

Lemma counted_le x : counted x <= 1.
Proof. unfold counted. destruct (collector c x.1), x.2; lia. Qed.

(** Not everyone counts if somebody triggers. *)
Lemma trigger_remaining s : inv s -> single_event_trigger s = true -> remaining s <> 0.
Proof.
  intros Hi Ht Hr. destruct (inv_trigger _ Hi Ht) as (i & x & Hx & Hc). pose proof (inv_remaining _ Hi) as Hn.
  rewrite Hr, <- (inv_inputs _ Hi), length_fmap in Hn. cbn in Hn.
  pose proof (proj1 (sum_full counted _ counted_le) Hn) as Hf. pose proof (Forall_lookup_1 _ _ _ _ Hf Hx) as H1.
  cbn in H1. unfold counted in H1. by rewrite Hc in H1.
Qed.

(** Whoever is active is alone, and nobody has fired. *)
Lemma active_alone s i j x y : inv s -> inputs s !! i = Some x -> inputs s !! j = Some y ->
  active x = 1 -> active y = 1 -> i = j /\ fired s = [].
Proof.
  intros Hi Hx Hy Hax Hay. pose proof (inv_fire _ Hi) as Hf.
  assert (Hle : Nat.b2n (single_event_trigger s) + Nat.b2n (remaining s =? 0) <= 1).
  { destruct (single_event_trigger s) eqn:Ht; cbn; [|destruct (remaining s =? 0); cbn; lia].
    pose proof (trigger_remaining s Hi Ht). destruct (Nat.eqb_spec (remaining s) 0); cbn; lia. }
  pose proof (sum_with_insert active _ _ _ (x.1, Finished) Hx) as H1. cbn in H1. split; [|destruct (fired s); cbn in *; [done|lia]].
  destruct (decide (i = j)) as [|Hne]; [done|exfalso].
  assert (Hy' : <[i := (x.1, Finished)]> (inputs s) !! j = Some y) by (by rewrite list_lookup_insert_ne).
  pose proof (sum_with_insert active _ _ _ (y.1, Finished) Hy') as H2. cbn in H2. lia.
Qed.

Lemma combinator_inv_start : rs <> [] -> inv (start rs).
Proof.
  intros Hne. assert (Hz : forall g, (forall r, g (r, Waiting) = 0) -> sum_list_with g ((fun r : ready => (r, Waiting)) <$> rs) = 0).
  { intros g Hg. rewrite sum_with_fmap. by apply sum_zero, Forall_true. }
  constructor; cbn; try done.
  - rewrite <- list_fmap_compose. by rewrite list_fmap_id.
  - by rewrite length_replicate.
  - rewrite Hz; [lia|]. intros r. unfold counted. cbn. by destruct (collector c r).
  - rewrite Hz by done. by destruct rs.
  - split; [done|]. intros i x. rewrite list_lookup_fmap. by intros (r & _ & ->)%fmap_Some.
  - intros i x. rewrite list_lookup_fmap. by intros (r & _ & ->)%fmap_Some.
  - apply Forall_fmap, Forall_true. intros r. unfold compose, pc_ok. cbn. by destruct (collector c r), r.
  - intros i x. rewrite list_lookup_fmap. intros (r & _ & ->)%fmap_Some. by intros _ [?|?].
Qed.

Lemma moved_lookup (l : list (ready * pc)) i r p p' j y :
  l !! i = Some (r, p) -> alter (fun x => (x.1, p')) i l !! j = Some y -> (j = i /\ y = (r, p')) \/ (j <> i /\ l !! j = Some y).
Proof.
  intros Hx. destruct (decide (j = i)) as [->|Hne].
  - rewrite list_lookup_alter_eq, Hx. intros [= <-]. by left.
  - rewrite list_lookup_alter_ne by done. by right.
Qed.

(** Input [i] moves on: what its move must account for. *)
Lemma combinator_inv_move s i r p p' ctx rem tr ho fi :
  inv s -> inputs s !! i = Some (r, p) -> pc_ok (r, p') = true -> p' <> Cancelled ->
  length (slots ctx) = length rs ->
  rem + counted (r, p') = remaining s + counted (r, p) ->
  active (r, p') + length fi + Nat.b2n (single_event_trigger s) + Nat.b2n (remaining s =? 0)
    = active (r, p) + length (fired s) + Nat.b2n tr + Nat.b2n (rem =? 0) ->
  (tr = single_event_trigger s \/ tr = true /\ collector c r = single_trigger) ->
  (tr = false -> ho = true /\ (collector c r = single_trigger -> p' = Waiting)) ->
  (holds s = false -> ho = false) ->
  rem <= remaining s -> (collector c r = all_trigger -> p' = LastError \/ p' = Firing -> rem = 0) ->
  inv (mk_state ctx rem tr ho (alter (fun x => (x.1, p')) i (inputs s)) fi).
Proof.
  intros [] Hx Hok Hp' Hlen Hrem Hfire Htr Hq Hh Hle Hlast.
  pose proof (fun j y => moved_lookup _ i r p p' j y Hx) as Hlook. rewrite (alter_at _ _ _ _ Hx) in Hlook |- *. cbn [fst] in *.
  pose proof (sum_with_insert counted _ _ _ (r, p') Hx). pose proof (sum_with_insert active _ _ _ (r, p') Hx).
  assert (Hil : i < length (inputs s)) by (by eapply lookup_lt_Some).
  constructor; cbn; try done.
  - rewrite list_fmap_insert. cbn. rewrite list_insert_id; [done|]. by rewrite list_lookup_fmap, Hx.
  - lia.
  - lia.
  - intros ->. destruct Htr as [Htr|[_ Hc]].
    + destruct (inv_trigger0 (eq_sym Htr)) as (j & y & Hj & Hc). destruct (decide (j = i)) as [->|Hne].
      * exists i, (r, p'). rewrite list_lookup_insert_eq by done. rewrite Hx in Hj. injection Hj as <-. done.
      * exists j, y. by rewrite list_lookup_insert_ne.
    + exists i, (r, p'). by rewrite list_lookup_insert_eq.
  - intros ->. destruct (Hq eq_refl) as [Hho Hw]. split; [done|]. destruct Htr as [Htr|[? _]]; [|done].
    intros j y [[-> ->]|[Hne Hj]]%Hlook Hc; [by apply Hw|]. by apply (inv_quiet0 (eq_sym Htr)) with j.
  - intros j y [[-> ->]|[Hne Hj]]%Hlook; [done|]. intros Hc. by apply Hh, (inv_cancelled0 j y).
  - by apply Forall_set.
  - intros j y [[-> ->]|[Hne Hj]]%Hlook; cbn; [by apply Hlast|]. intros Hc Hp. pose proof (inv_last0 j y Hj Hc Hp). lia.
Qed.

Lemma uncounted_remaining s i x : inv s -> inputs s !! i = Some x -> counted x = 0 -> remaining s <> 0.
Proof.
  intros Hi Hx H0 Hr. pose proof (inv_remaining _ Hi) as Hn. rewrite Hr, <- (inv_inputs _ Hi), length_fmap in Hn.
  cbn in Hn. pose proof (Forall_lookup_1 _ _ _ _ (proj1 (sum_full counted _ counted_le) Hn) Hx) as H1. cbn in H1. lia.
Qed.

Lemma apply_slots r i x : length (slots (apply c r i x)) = length (slots x).
Proof. destruct r; cbn; [|done]. destruct (per_input c); cbn; [by rewrite length_insert|done]. Qed.

Lemma quiet_waiting s i x : inv s -> inputs s !! i = Some x -> single_event_trigger s = false ->
  holds s = true /\ (collector c x.1 = single_trigger -> x.2 = Waiting).
Proof. intros Hi Hx Ht. destruct (inv_quiet _ Hi Ht) as [Hh Hq]. split; [done|]. by apply (Hq i). Qed.

Ltac move_side Hi Hq Hc :=
  first
  [ done
  | by apply (inv_slots _ Hi)
  | by auto
  | let Ht := fresh "Ht" in let Hw := fresh "Hw" in let Hho := fresh "Hho" in intros Ht; destruct (Hq Ht) as [Hho Hw]; discriminate (Hw eq_refl)
  | let Ht := fresh "Ht" in let Hw := fresh "Hw" in let Hho := fresh "Hho" in let H := fresh "H" in
    intros Ht; destruct (Hq Ht) as [Hho Hw]; split; [done | intros H; first [congruence | discriminate (Hw H)]]
  | unfold pc_ok, counted, active; cbn [fst snd]; try rewrite Hc;
    repeat match goal with
    | |- context [single_event_trigger ?s] => destruct (single_event_trigger s) eqn:?
    | |- context [?n =? 0] => destruct (Nat.eqb_spec n 0)
    | |- context [collector ?c ?r] => destruct (collector c r) eqn:?
    | |- context [match ?r with Value _ => _ | Error _ => _ end] => destruct r
    end; rewrite ?length_app; cbn in *; first [done | lia | congruence | by auto | intuition congruence] ].

Lemma inv_step_input s s' i : inv s -> step_input c i s = Some s' -> inv s'.
Proof.
  intros Hi Hs. unfold step_input in Hs. destruct (inputs s !! i) as [[r p]|] eqn:Hx; [|done].
  pose proof (Forall_lookup_1 _ _ _ _ (inv_pc _ Hi) Hx) as Hok. unfold pc_ok in Hok. cbn in Hok.
  pose proof (quiet_waiting s i _ Hi Hx) as Hq. cbn in Hq.
  pose proof (inv_last _ Hi i _ Hx) as Hl. cbn in Hl.
  assert (Hu : counted (r, p) = 0 -> remaining s <> 0) by (by apply (uncounted_remaining s i)).
  assert (Hslots : length (slots (apply c r i (context s))) = length rs) by (rewrite apply_slots; apply (inv_slots _ Hi)).
  destruct (collector c r) eqn:Hc; destruct p; try done; try (by destruct r); unfold counted in Hu; cbn [fst snd] in Hu; rewrite ?Hc in Hu.
  - injection Hs as <-. apply (combinator_inv_move s i r Waiting); try done; move_side Hi Hq Hc.
  - injection Hs as <-. apply (combinator_inv_move s i r Won); try done; try move_side Hi Hq Hc. intros ->. by destruct (resets_holds c).
  - injection Hs as <-. apply (combinator_inv_move s i r Reset); try done; move_side Hi Hq Hc.
  - injection Hs as <-. apply (combinator_inv_move s i r Firing); try done; move_side Hi Hq Hc.
  - specialize (Hu eq_refl). destruct r as [v|e]; injection Hs as <-; [apply (combinator_inv_move s i (Value v) Waiting)|apply (combinator_inv_move s i (Error e) Waiting)];
      try done; move_side Hi Hq Hc.
  - specialize (Hu eq_refl). destruct r as [v|e]; [|done]. injection Hs as <-. apply (combinator_inv_move s i (Value v) Stored); try done; move_side Hi Hq Hc.
  - destruct r as [v|e]; [done|]. injection Hs as <-. apply (combinator_inv_move s i (Error e) LastError); try done; move_side Hi Hq Hc.
  - injection Hs as <-. apply (combinator_inv_move s i r Firing); try done; move_side Hi Hq Hc.
Qed.

Lemma inv_cancel s s' i : inv s -> cancel i s = Some s' -> inv s'.
Proof.
  intros Hi Hs. unfold cancel in Hs. destruct (inputs s !! i) as [[r []]|] eqn:Hx; try done.
  destruct (holds s) eqn:Hh; [done|]. injection Hs as <-. rewrite (alter_at _ _ _ _ Hx). cbn [fst].
  assert (Ht : single_event_trigger s = true).
  { destruct (single_event_trigger s) eqn:Ht; [done|]. destruct (inv_quiet _ Hi Ht) as [He _]. by rewrite Hh in He. }
  pose proof (sum_with_insert counted _ _ _ (r, Cancelled) Hx) as H1. pose proof (sum_with_insert active _ _ _ (r, Cancelled) Hx) as H2.
  assert (Hil : i < length (inputs s)) by (by eapply lookup_lt_Some).
  assert (Hc0 : counted (r, Cancelled) = 0 /\ counted (r, Waiting) = 0) by (unfold counted; cbn; by destruct (collector c r)).
  destruct Hi. cbn [active snd] in H2. constructor; cbn; try done.
  - rewrite list_fmap_insert. cbn. rewrite list_insert_id; [done|]. by rewrite list_lookup_fmap, Hx.
  - lia.
  - lia.
  - intros _. destruct (inv_trigger0 Ht) as (j & y & Hj & Hc). destruct (decide (j = i)) as [->|Hne].
    + exists i, (r, Cancelled). rewrite list_lookup_insert_eq by done. rewrite Hx in Hj. injection Hj as <-. done.
    + exists j, y. by rewrite list_lookup_insert_ne.
  - by rewrite Ht.
  - apply Forall_set; [done|]. unfold pc_ok. cbn. by destruct (collector c r), r.
  - intros j y Hj. destruct (decide (j = i)) as [->|Hne].
    + rewrite list_lookup_insert_eq in Hj by done. injection Hj as <-. by intros _ [?|?].
    + rewrite list_lookup_insert_ne in Hj by done. by apply (inv_last0 j).
Qed.

Lemma combinator_inv_reachable s : rs <> [] -> rtc (step c) (start rs) s -> inv s.
Proof.
  intros Hne Hr. pose proof (combinator_inv_start Hne) as H0. revert H0.
  induction Hr as [|s1 s2 s3 Hs _ IH]; intros H0; [done|]. apply IH.
  destruct Hs; eauto using inv_step_input, inv_cancel.
Qed.

(** Nobody can move: every input has delivered or was cancelled. *)
Lemma combinator_stuck s i x : (forall s', ~ step c s s') -> inputs s !! i = Some x -> x.2 = Finished \/ x.2 = Cancelled.
Proof.
  intros Hstuck Hx. assert (Hs : step_input c i s = None).
  { destruct (step_input c i s) eqn:He; [|done]. by destruct (Hstuck _ (step_by_input c i _ _ He)). }
  unfold step_input in Hs. rewrite Hx in Hs. destruct x as [r []]; cbn; auto; try done.
  destruct (collector c r); [done|]. by destruct r.
Qed.

Lemma fired_at_most_once s : inv s -> length (fired s) <= 1.
Proof.
  intros Hi. pose proof (inv_fire _ Hi). destruct (single_event_trigger s) eqn:Ht; cbn in *.
  - pose proof (trigger_remaining s Hi Ht). destruct (Nat.eqb_spec (remaining s) 0); cbn in *; lia.
  - destruct (remaining s =? 0); cbn in *; lia.
Qed.

Lemma fired_at_rest s : inv s -> (forall s', ~ step c s s') -> length (fired s) = 1.
Proof.
  intros Hi Hstuck. pose proof (inv_fire _ Hi) as Hf.
  assert (Ha : sum_list_with active (inputs s) = 0).
  { apply sum_zero, Forall_lookup. intros i x Hx. unfold active. by destruct (combinator_stuck s i x Hstuck Hx) as [-> | ->]. }
  rewrite Ha in Hf. pose proof (fired_at_most_once s Hi). destruct (single_event_trigger s) eqn:Ht; cbn in Hf; [lia|].
  assert (Hr : remaining s = 0).
  { pose proof (inv_remaining _ Hi) as Hn. rewrite <- (inv_inputs _ Hi), length_fmap in Hn.
    enough (sum_list_with counted (inputs s) = length (inputs s)) by lia.
    apply sum_full; [apply counted_le|]. apply Forall_lookup. intros i x Hx.
    destruct (inv_quiet _ Hi Ht) as [Hh Hq]. destruct (combinator_stuck s i x Hstuck Hx) as [He|He].
    - unfold counted. rewrite He. destruct (collector c x.1) eqn:Hc; [|done]. by rewrite (Hq i x Hx Hc) in He.
    - by rewrite (inv_cancelled _ Hi i x Hx He) in Hh. }
  by rewrite Hr in Hf.
Qed.

(** Every step brings its input closer to its end. *)
Definition weight (x : ready * pc) : nat :=
  match x.2 with Waiting => 4 | Won => 3 | Reset | Stored | LastError => 2 | Firing => 1 | Cancelled | Finished => 0 end.

Lemma weight_alter s i r p p' : inputs s !! i = Some (r, p) -> weight (r, p') < weight (r, p) ->
  sum_list_with weight (alter (fun x => (x.1, p')) i (inputs s)) < sum_list_with weight (inputs s).
Proof.
  intros Hx Hw. rewrite (alter_at _ _ _ _ Hx). cbn [fst].
  pose proof (sum_with_insert weight _ _ _ (r, p') Hx). lia.
Qed.

Lemma step_weight s s' : step c s s' -> sum_list_with weight (inputs s') < sum_list_with weight (inputs s).
Proof.
  intros [i s1 s2 Hs|i s1 s2 Hs].
  - unfold step_input in Hs. destruct (inputs s1 !! i) as [[r p]|] eqn:Hx; [|done].
    destruct p; try done; try (destruct (collector c r); [|destruct r]); injection Hs as <-; cbn [inputs];
      (eapply weight_alter; [exact Hx|]); unfold weight; cbn; try lia; destruct (_ : bool); lia.
  - unfold cancel in Hs. destruct (inputs s1 !! i) as [[r []]|] eqn:Hx; try done.
    destruct (holds s1); [done|]. injection Hs as <-. cbn [inputs]. by eapply weight_alter; [exact Hx|cbn; lia].
Qed.

Lemma steps_weight n s s' : nsteps (step c) n s s' -> n + sum_list_with weight (inputs s') <= sum_list_with weight (inputs s).
Proof. induction 1 as [|n s1 s2 s3 Hs _ IH]; [lia|]. pose proof (step_weight _ _ Hs). lia. Qed.
End invariant.

Lemma all_counted c rs s i x : inv c rs s -> remaining s = 0 -> inputs s !! i = Some x ->
  collector c x.1 = all_trigger /\ (x.2 = LastError \/ x.2 = Firing \/ x.2 = Finished).
Proof.
  intros Hi H0 Hx. assert (H1 : counted c x <> 0) by (intros Hz; by apply (uncounted_remaining c rs s i x)).
  unfold counted in H1. destruct (collector c x.1), x.2; try done; auto.
Qed.

(** What a step of input [i] does to its position, the results and the calls. *)
Lemma step_input_shape c i s s' : step_input c i s = Some s' -> exists r p p',
  inputs s !! i = Some (r, p) /\ inputs s' = alter (fun x => (x.1, p')) i (inputs s) /\
  remaining s' <= remaining s /\ (single_event_trigger s = true -> single_event_trigger s' = true) /\
  match r, p, p' with
  | Value _, Waiting, (Won | Finished) => collector c r = single_trigger
  | Value _, Waiting, Stored => collector c r = all_trigger
  | _, _, _ => True
  end /\
  match r, p, p' with
  | Value _, Waiting, Stored | _, Reset, Firing | _, LastError, Firing =>
      context s' = apply c r i (context s) /\ fired s' = fired s
  | _, Firing, Finished => context s' = context s /\ fired s' = fired s ++ [context s]
  | _, Waiting, Won | _, Waiting, Finished | Error _, Waiting, LastError | _, Stored, Firing | _, Stored, Finished | _, Won, Reset =>
      context s' = context s /\ fired s' = fired s
  | _, _, _ => False
  end.
Proof.
  intros Hs. unfold step_input in Hs. destruct (inputs s !! i) as [[r p]|]; [|done]. exists r, p.
  destruct p; try done; try (destruct (collector c r) eqn:?); try (destruct r);
    injection Hs as <-; cbn; eexists; (split; [done|]); (split; [reflexivity|]); cbn; (split; [lia|]); (split; [done|]);
    (split; [by repeat case_match|]); try done; by repeat case_match.
Qed.

Lemma cancel_shape i s s' : cancel i s = Some s' -> exists r,
  inputs s !! i = Some (r, Waiting) /\ inputs s' = alter (fun x => (x.1, Cancelled)) i (inputs s) /\
  remaining s' = remaining s /\ single_event_trigger s' = single_event_trigger s /\
  context s' = context s /\ fired s' = fired s.
Proof.
  intros Hs. unfold cancel in Hs. destruct (inputs s !! i) as [[r []]|]; try done.
  destruct (holds s); [done|]. injection Hs as <-. by exists r.
Qed.

Lemma combinator_inv_step c rs s s' : inv c rs s -> step c s s' -> inv c rs s'.
Proof. intros Hi Hs. destruct Hs; eauto using inv_step_input, inv_cancel. Qed.

(** ** [when_all] *)

Definition value_of (r : ready) : option V := match r with Value v => Some v | Error _ => None end.

(** All inputs hold values, and these are the arguments, or the exception is
    that of an input. *)
Definition answers_all (rs : list ready) (x : results) : Prop :=
  match mapM value_of rs with
  | Some vs => slots x = Some <$> vs /\ exception x = None
  | None => exists i e, rs !! i = Some (Error e) /\ exception x = Some e /\ slots x !! i = Some None
  end.

Record all_data (rs : list ready) (s : state) : Prop := mk_all_data {
  ad_slots : forall i r p, inputs s !! i = Some (r, p) ->
    slots (context s) !! i = Some (match r, p with Value v, (Stored | Firing | Finished) => Some v | _, _ => None end);
  ad_firing : forall i e, inputs s !! i = Some (Error e, Firing) -> exception (context s) = Some e;
  ad_exception : single_event_trigger s = false -> exception (context s) = None;
  ad_fired : Forall (answers_all rs) (fired s)
}.

Lemma mapM_slots {A B} (f : A -> option B) l : forall k : list (option B), length k = length l ->
  (forall i x, l !! i = Some x -> is_Some (f x) /\ k !! i = Some (f x)) ->
  exists vs, mapM f l = Some vs /\ k = Some <$> vs.
Proof.
  induction l as [|x l IH]; intros [|y k] Hlen Hk; try done; [by exists []|].
  destruct (Hk 0 x eq_refl) as [[b Hb] [= ->]]. destruct (IH k) as (vs & Hm & ->); [by injection Hlen| |].
  - intros i z Hz. by apply (Hk (S i)).
  - exists (b :: vs). cbn. by rewrite Hb, Hm.
Qed.

Lemma all_answers rs s i r : inv when_all_config rs s -> all_data rs s -> inputs s !! i = Some (r, Firing) ->
  answers_all rs (context s).
Proof.
  intros Hi Hd Hx. unfold answers_all. pose proof (inv_inputs _ _ _ Hi) as Hrs.
  assert (Hin : rs !! i = Some r) by (by rewrite <- Hrs, list_lookup_fmap, Hx).
  destruct r as [v|e].
  - pose proof (inv_last _ _ _ Hi i _ Hx eq_refl (or_intror eq_refl)) as H0.
    assert (Ht : single_event_trigger s = false).
    { destruct (single_event_trigger s) eqn:Ht; [|done]. by destruct (trigger_remaining _ _ _ Hi Ht). }
    destruct (mapM_slots value_of rs (slots (context s)) (inv_slots _ _ _ Hi)) as (vs & -> & Hs).
    { intros j y Hj. rewrite <- Hrs, list_lookup_fmap in Hj. apply fmap_Some in Hj as ([r p] & Hj & ->).
      destruct (all_counted _ _ _ _ _ Hi H0 Hj) as [Hc Hp]. pose proof (ad_slots _ _ Hd j r p Hj) as Hsl.
      pose proof (Forall_lookup_1 _ _ _ _ (inv_pc _ _ _ Hi) Hj) as Hok.
      destruct r as [w|e]; [|done]. rewrite Hsl. cbn in Hp. by destruct Hp as [-> | [-> | ->]]. }
    split; [done|by apply (ad_exception _ _ Hd)].
  - destruct (mapM value_of rs) as [vs|] eqn:Hm.
    + apply mapM_Some in Hm. destruct (Forall2_lookup_l _ _ _ _ _ Hm Hin) as (y & _ & Hy). done.
    + exists i, e. split_and!; [done|by apply (ad_firing _ _ Hd i)|]. by apply (ad_slots _ _ Hd i _ _ Hx).
Qed.

Lemma all_data_start rs : all_data rs (start rs).
Proof.
  constructor; cbn; try done.
  - intros i r p Hx. rewrite list_lookup_fmap in Hx. apply fmap_Some in Hx as (r' & Hr & [= -> ->]).
    rewrite lookup_replicate_2 by (by eapply lookup_lt_Some). by destruct r'.
  - intros i e Hx. rewrite list_lookup_fmap in Hx. by apply fmap_Some in Hx as (r' & Hr & [=]).
Qed.

Lemma all_data_step rs s s' : inv when_all_config rs s -> step when_all_config s s' -> all_data rs s -> all_data rs s'.
Proof.
  intros Hi Hs Hd. destruct Hs as [i s s' Hs|i s s' Hs].
  - destruct (step_input_shape _ _ _ _ Hs) as (r & p & p' & Hx & Hin & _ & Ht & Hcol & Hshape).
    pose proof (fun j y => moved_lookup (inputs s) i r p p' j y Hx) as Hl. rewrite <- Hin in Hl.
    pose proof (ad_slots _ _ Hd i r p Hx) as Hsi.
    assert (Hil : i < length (slots (context s))) by (by eapply lookup_lt_Some).
    pose proof (inv_quiet _ _ _ Hi) as Hq. pose proof (ad_firing _ _ Hd) as Hfi.
    pose proof (Forall_lookup_1 _ _ _ _ (inv_pc _ _ _ Hi) Hx) as Hok.
    assert (Ht' : single_event_trigger s' = false -> single_event_trigger s = false).
    { destruct (single_event_trigger s); [by rewrite Ht|done]. }
    constructor.
    + intros j r' p1 [[-> [= -> ->]]|[Hne Hj]]%Hl.
      * destruct r, p, p'; try done; destruct Hshape as [-> _]; try done. cbn. by rewrite list_lookup_insert_eq.
      * rewrite <- (ad_slots _ _ Hd j r' p1 Hj).
        destruct r, p, p'; try done; destruct Hshape as [-> _]; try done. cbn. by rewrite list_lookup_insert_ne.
    + intros j e [[-> [= <- <-]]|[Hne Hj]]%Hl.
      * destruct p; try done; by destruct Hshape as [-> _].
      * rewrite <- (Hfi j e Hj). assert (Ha : active (r, p) <> 1).
        { intros Ha. by destruct (active_alone _ _ _ _ _ _ _ Hi Hx Hj Ha eq_refl). }
        destruct r, p, p'; try done; by destruct Hshape as [-> _].
    + intros Hf. pose proof (ad_exception _ _ Hd (Ht' Hf)) as He. destruct (Hq (Ht' Hf)) as [_ Hw].
      pose proof (Hw i _ Hx) as Hwi.
      destruct r, p, p'; try done; destruct Hshape as [-> _]; try done; by discriminate Hwi.
    + pose proof (ad_fired _ _ Hd) as Hfd. pose proof (all_answers rs s i r Hi Hd) as Ha.
      destruct r, p, p'; try done; destruct Hshape as [_ ->]; try done; apply Forall_app; split; auto.
  - destruct (cancel_shape _ _ _ Hs) as (r & Hx & Hin & _ & Ht & Hc & Hf).
    pose proof (fun j y => moved_lookup (inputs s) i r Waiting Cancelled j y Hx) as Hl. rewrite <- Hin in Hl.
    constructor; rewrite ?Ht, ?Hc, ?Hf; try apply Hd.
    + intros j r' p' [[-> [= -> ->]]|[_ Hj]]%Hl; [|by apply (ad_slots _ _ Hd)]. rewrite (ad_slots _ _ Hd _ _ _ Hx). by destruct r.
    + intros j e [[-> [=]]|[_ Hj]]%Hl. by apply (ad_firing _ _ Hd j).
Qed.

(** ** [when_any] *)

(** An input with a value, and no exception, or all inputs failed, one of them
    with the exception. *)
Definition answers_any (rs : list ready) (x : results) : Prop :=
  (exists i v, rs !! i = Some (Value v) /\ picked x = Some (v, i) /\ exception x = None) \/
  (forall i r, rs !! i = Some r -> value_of r = None) /\ exists i e, rs !! i = Some (Error e) /\ exception x = Some e.

Record any_data (rs : list ready) (s : state) : Prop := mk_any_data {
  yd_value : forall i v, inputs s !! i = Some (Value v, Firing) -> picked (context s) = Some (v, i);
  yd_error : forall i e, inputs s !! i = Some (Error e, Firing) -> exception (context s) = Some e;
  yd_exception : remaining s <> 0 -> exception (context s) = None;
  yd_fired : Forall (answers_any rs) (fired s)
}.

Section any.
Context (c : config) (Hc : c = when_any_range_config \/ c = when_any_args_config).

Lemma any_collector r : collector c r = match r with Value _ => single_trigger | Error _ => all_trigger end.
Proof using Hc. by destruct Hc as [-> | ->], r. Qed.

Lemma any_answers rs s i r : inv c rs s -> any_data rs s -> inputs s !! i = Some (r, Firing) -> answers_any rs (context s).
Proof using Hc.
  intros Hi Hd Hx. pose proof (inv_inputs _ _ _ Hi) as Hrs.
  assert (Hin : rs !! i = Some r) by (by rewrite <- Hrs, list_lookup_fmap, Hx). destruct r as [v|e].
  - left. exists i, v. split_and!; [done|by apply (yd_value _ _ Hd)|]. apply (yd_exception _ _ Hd).
    apply (trigger_remaining _ _ _ Hi). destruct (single_event_trigger s) eqn:Ht; [done|].
    destruct (inv_quiet _ _ _ Hi Ht) as [_ Hq]. by discriminate (Hq _ _ Hx (any_collector _)).
  - right. split; [|exists i, e; split; [done|by apply (yd_error _ _ Hd i)]].
    pose proof (inv_last _ _ _ Hi i _ Hx (any_collector _) (or_intror eq_refl)) as H0.
    intros j r Hj. rewrite <- Hrs, list_lookup_fmap in Hj. apply fmap_Some in Hj as (y & Hj & ->).
    destruct (all_counted _ _ _ _ _ Hi H0 Hj) as [Hy _]. rewrite any_collector in Hy. by destruct (y.1).
Qed.

Lemma any_data_start rs : any_data rs (start rs).
Proof.
  constructor; cbn; try done; intros i v Hx; rewrite list_lookup_fmap in Hx; by apply fmap_Some in Hx as (r' & Hr & [=]).
Qed.

Lemma any_data_step rs s s' : inv c rs s -> step c s s' -> any_data rs s -> any_data rs s'.
Proof using Hc.
  intros Hi Hs Hd. destruct Hs as [i s s' Hs|i s s' Hs].
  - destruct (step_input_shape _ _ _ _ Hs) as (r & p & p' & Hx & Hin & Hrem & _ & Hcol & Hshape).
    pose proof (fun j y => moved_lookup (inputs s) i r p p' j y Hx) as Hl. rewrite <- Hin in Hl.
    pose proof (Forall_lookup_1 _ _ _ _ (inv_pc _ _ _ Hi) Hx) as Hok. unfold pc_ok in Hok. rewrite any_collector in Hok, Hcol.
    assert (Hap : forall r x, apply c r i x = match r with
      | Value v => mk_results (slots x) (Some (v, i)) (exception x) | Error e => mk_results (slots x) (picked x) (Some e) end).
    { intros [] x; destruct Hc as [-> | ->]; done. }
    rewrite Hap in Hshape.
    assert (Hother : forall j y, inputs s !! j = Some (y, Firing) -> j <> i -> context s' = context s).
    { intros j y Hj Hne. assert (Ha : active (r, p) <> 1).
      { intros Ha. by destruct (active_alone _ _ _ _ _ _ _ Hi Hx Hj Ha eq_refl). }
      destruct r, p, p'; try done; by destruct Hshape as [-> _]. }
    constructor.
    + intros j v [[-> [= <- <-]]|[Hne Hj]]%Hl; [|rewrite (Hother j _ Hj Hne); by apply (yd_value _ _ Hd)].
      destruct p; try done; by destruct Hshape as [-> _].
    + intros j e [[-> [= <- <-]]|[Hne Hj]]%Hl; [|rewrite (Hother j _ Hj Hne); by apply (yd_error _ _ Hd j)].
      destruct p; try done; by destruct Hshape as [-> _].
    + intros H0. assert (Hnl : p = LastError -> False).
      { intros ->. destruct r as [|e]; [done|].
        pose proof (inv_last _ _ _ Hi i _ Hx (any_collector _) (or_introl eq_refl)). lia. }
      rewrite <- (yd_exception _ _ Hd) by lia.
      destruct r, p, p'; try done; destruct Hshape as [-> _]; try done; by destruct Hnl.
    + pose proof (yd_fired _ _ Hd) as Hfd. pose proof (any_answers rs s i r Hi Hd) as Ha.
      destruct r, p, p'; try done; destruct Hshape as [_ ->]; try done; apply Forall_app; split; auto.
  - destruct (cancel_shape _ _ _ Hs) as (r & Hx & Hin & Hrem & _ & Hct & Hf).
    pose proof (fun j y => moved_lookup (inputs s) i r Waiting Cancelled j y Hx) as Hl. rewrite <- Hin in Hl.
    constructor; rewrite ?Hrem, ?Hct, ?Hf; try apply Hd.
    + intros j v [[-> [=]]|[_ Hj]]%Hl. by apply (yd_value _ _ Hd).
    + intros j e [[-> [=]]|[_ Hj]]%Hl. by apply (yd_error _ _ Hd j).
Qed.
End any.

Lemma data_reachable (D : state -> Prop) c rs : rs <> [] -> D (start rs) ->
  (forall s s', inv c rs s -> step c s s' -> D s -> D s') ->
  forall s, rtc (step c) (start rs) s -> inv c rs s /\ D s.
Proof.
  intros Hne H0 Hstep s Hr. enough (forall s0, rtc (step c) s0 s -> inv c rs s0 -> D s0 -> inv c rs s /\ D s) as H.
  { apply (H _ Hr); [by apply combinator_inv_start|done]. }
  clear Hr. intros s0. induction 1 as [|s1 s2 s3 Hs _ IH]; [done|]. intros Hi Hd. apply IH; [by eapply combinator_inv_step|by eapply Hstep].
Qed.

Lemma one_answer c rs s x : inv c rs s -> x ∈ fired s -> fired s = [x].
Proof.
  intros Hi Hx. pose proof (fired_at_most_once _ _ _ Hi). destruct (fired s) as [|y [|z l]]; cbn in *; [set_solver| |lia].
  by apply list_elem_of_singleton in Hx as ->.
Qed.

(** Runs of continuations of given inputs. *)
Fixpoint exec (c : config) (ns : list nat) (s : state) : option state :=
  match ns with
  | [] => Some s
  | i :: ns => match step_input c i s with Some s' => exec c ns s' | None => None end
  end.
Lemma exec_steps c ns : forall s s', exec c ns s = Some s' -> rtc (step c) s s'.
Proof.
  induction ns as [|i ns IH]; intros s s' Hs; cbn in Hs; [by injection Hs as ->|].
  destruct (step_input c i s) as [s1|] eqn:H1; [|done]. eapply rtc_l; [by eapply step_by_input|by apply IH].
Qed.

(** ** Properties *)

(** C24: [when_all], on a range or on arguments: its task is called once at most, and
    answers with all values, in the order of the inputs, if all inputs have one,
    and otherwise with the exception of an input, however the inputs arrive. *)
Theorem when_all_answers (rs : list ready) (s0 s : state) (x : results) (d : V) :
  when_all_range rs = Attached s0 -> rtc (step when_all_config) s0 s -> x ∈ fired s ->
  fired s = [x] /\
  match mapM value_of rs with
  | Some vs => execute_all d x = inl vs /\ apply_when_all_args x = Some (inl vs)
  | None => exists e, Error e ∈ rs /\ execute_all d x = inr e /\ apply_when_all_args x = Some (inr e)
  end.
Proof.
  intros H0 Hr Hx. assert (Hne : rs <> [] /\ s0 = start rs) by (destruct rs; cbn in H0; [done|by injection H0 as <-]).
  destruct Hne as [Hne ->].
  destruct (data_reachable (all_data rs) _ rs Hne (all_data_start rs) (all_data_step rs) s Hr) as [Hi Hd].
  split; [by eapply one_answer|]. pose proof (proj1 (Forall_forall _ _) (ad_fired _ _ Hd) x Hx) as Ha.
  unfold answers_all in Ha. unfold execute_all, apply_when_all_args. destruct (mapM value_of rs) as [vs|].
  - destruct Ha as [-> ->]. assert (Hm : mapM id (Some <$> vs) = Some vs).
    { clear. induction vs as [|v vs IH]; [done|]. cbn. by rewrite IH. }
    rewrite Hm. split; [|done]. f_equal. rewrite <- list_fmap_compose. apply list_fmap_id.
  - destruct Ha as (i & e & Hin & -> & Hsl). exists e. split_and!; [by eapply list_elem_of_lookup_2|done|].
    destruct (mapM id (slots x)) as [vs|] eqn:Hm; [|done].
    apply mapM_Some in Hm. by destruct (Forall2_lookup_l _ _ _ _ _ Hm Hsl) as (y & _ & [=]).
Qed.

(** [when_any], on a range or on arguments: its task is called once at most, and
    answers with the value of an input and the index of that input; only if no
    input has a value it answers with the exception of one. *)
Theorem when_any_answers (c : config) (rs : list ready) (s0 s : state) (x : results) :
  c = when_any_range_config \/ c = when_any_args_config ->
  when_any_range rs = Attached s0 -> rtc (step c) s0 s -> x ∈ fired s ->
  fired s = [x] /\
  ((exists i v, rs !! i = Some (Value v) /\ execute_any x = inl (Some (v, i)) /\ apply_when_any_arg x = Some (inl (v, i))) \/
   (forall r, r ∈ rs -> value_of r = None) /\
   exists e, Error e ∈ rs /\ execute_any x = inr e /\ apply_when_any_arg x = Some (inr e)).
Proof.
  intros Hc H0 Hr Hx. assert (Hne : rs <> [] /\ s0 = start rs) by (destruct rs; cbn in H0; [done|by injection H0 as <-]).
  destruct Hne as [Hne ->].
  destruct (data_reachable (any_data rs) c rs Hne (any_data_start rs) (any_data_step c Hc rs) s Hr) as [Hi Hd].
  split; [by eapply one_answer|]. pose proof (proj1 (Forall_forall _ _) (yd_fired _ _ Hd) x Hx) as Ha.
  unfold execute_any, apply_when_any_arg. destruct Ha as [(i & v & Hin & Hp & He)|[Hall (i & e & Hin & He)]]; rewrite He.
  - left. exists i, v. by rewrite Hp.
  - right. split; [|exists e; split; [by eapply list_elem_of_lookup_2|done]].
    intros r (j & Hj)%list_elem_of_lookup_1. by eapply Hall.
Qed.

(** The combinators answer: whatever runs, it ends after at most four steps for
    each input, and when every input has been delivered or cancelled the task has
    been called; an input is cancelled only after the single event. *)
Theorem combinators_settle (c : config) (rs : list ready) (n : nat) (s : state) :
  rs <> [] -> nsteps (step c) n (start rs) s ->
  n <= 4 * length rs /\
  ((forall s', ~ step c s s') -> exists x, fired s = [x]) /\
  (forall i r, inputs s !! i = Some (r, Cancelled) -> single_event_trigger s = true).
Proof.
  intros Hne Hn. assert (Hi : inv c rs s) by (apply combinator_inv_reachable; [done|by eapply rtc_nsteps_2]). split_and!.
  - pose proof (steps_weight c n _ _ Hn) as Hw. cbn in Hw. rewrite sum_with_fmap in Hw.
    assert (H4 : sum_list_with (fun _ : ready => 4) rs = 4 * length rs) by (clear; induction rs; cbn in *; lia).
    unfold weight in Hw. cbn in Hw. lia.
  - intros Hstuck. pose proof (fired_at_rest c rs s Hi Hstuck). destruct (fired s) as [|x [|y l]]; try done. by exists x.
  - intros i r Hx. destruct (single_event_trigger s) eqn:Ht; [done|]. destruct (inv_quiet _ _ _ Hi Ht) as [Hh _].
    by rewrite (inv_cancelled _ _ _ Hi i _ Hx eq_refl) in Hh.
Qed.
End combinators.

(** Three numbers, the second a failure; and two numbers. *)
Definition demo_ready : list (ready (V := nat) (E := nat)) := [Value 10; Error 7; Value 30].
Definition demo_results_all : results (V := nat) (E := nat) := mk_results [Some 10; None; None] None (Some 7).
Definition demo_all : state (V := nat) (E := nat) :=
  mk_state demo_results_all 2 true false [(Value 10, Finished); (Error 7, Finished); (Value 30, Waiting)] [demo_results_all].
Lemma demo_all_run : exec when_all_config [0; 1; 0; 1; 1; 1] (start demo_ready) = Some demo_all.
Proof. reflexivity. Qed.

Lemma when_all_answers_witness :
  fired demo_all = [demo_results_all] /\
  exists e, Error e ∈ demo_ready /\ execute_all 0 demo_results_all = inr e /\ apply_when_all_args demo_results_all = Some (inr e).
Proof.
  apply (when_all_answers demo_ready (start demo_ready) demo_all demo_results_all 0 eq_refl (exec_steps _ _ _ _ demo_all_run)).
  cbn. by left.
Defined.

Definition demo_results_any : results (V := nat) (E := nat) := mk_results [None; None; None] (Some (30, 2)) None.
Definition demo_any : state (V := nat) (E := nat) :=
  mk_state demo_results_any 2 true false [(Value 10, Finished); (Error 7, Finished); (Value 30, Finished)] [demo_results_any].
Lemma demo_any_run : exec when_any_range_config [1; 2; 0; 2; 2; 2] (start demo_ready) = Some demo_any.
Proof. reflexivity. Qed.

Lemma when_any_answers_witness :
  fired demo_any = [demo_results_any] /\
  ((exists i v, demo_ready !! i = Some (Value v) /\ execute_any demo_results_any = inl (Some (v, i)) /\
      apply_when_any_arg demo_results_any = Some (inl (v, i))) \/
   (forall r, r ∈ demo_ready -> value_of r = None) /\
   exists e, Error e ∈ demo_ready /\ execute_any demo_results_any = inr e /\ apply_when_any_arg demo_results_any = Some (inr e)).
Proof.
  apply (when_any_answers when_any_range_config demo_ready (start demo_ready) demo_any demo_results_any (or_introl eq_refl) eq_refl
    (exec_steps _ _ _ _ demo_any_run)).
  cbn. by left.
Defined.

Lemma combinators_settle_witness :
  1 <= 4 * length demo_ready /\
  ((forall s', ~ step when_any_args_config
      (mk_state (mk_results [None; None; None] None None) 3 true true [(Value 10, Won); (Error 7, Waiting); (Value 30, Waiting)] []) s') ->
     exists x : results (V := nat) (E := nat), [] = [x]) /\
  (forall i r, [(Value 10, Won); (Error 7, Waiting); (Value 30, Waiting)] !! i = Some (r, Cancelled) -> true = true).
Proof.
  apply (combinators_settle when_any_args_config demo_ready 1
    (mk_state (mk_results [None; None; None] None None) 3 true true [(Value 10, Won); (Error 7, Waiting); (Value 30, Waiting)] []));
    [discriminate|].
  econstructor; [apply (step_by_input _ 0); reflexivity|constructor].
Defined.
