(* ===== verification/FutureChains.v ===== *)
(** * Chains of futures

    Model of what is built from futures in [future.hpp] and [utility.hpp]
    ([deps/clean_stlab]): [async], [make_ready_future], [then], [recover], and the
    reduction of a future of a future, over a heap of the shared states they make.
    Tasks wait with executors and are run, one at a time, in any order, while a
    client goes on building; the critical sections inside of one shared state are in
    [SharedFuture]. Futures of copyable values, kept alive by their handles. *)

From S2P Require Import Prelude.
Local Open Scope nat_scope.

Section futures.
Context {V E : Type} (broken_promise reduction_failed : E).

(** What a future comes to. *)
Abbreviation outcome := (V + E)%type.

(** ** What a client writes

    A future the client has; [async] and what the function will answer;
    [make_ready_future] and [make_exceptional_future]; [recover] with a function that
    answers or throws, and with one that throws or returns a future. *)
Inductive expr :=
  | Var (i : nat)
  | Async (r : outcome)
  | Made (r : outcome)
  | Recover (e : expr) (g : outcome -> outcome)
  | RecoverF (e : expr) (t : outcome -> option E) (k : outcome -> expr).

(** [then]: [get_ready] throws again what the future holds. *)
Definition Then (e : expr) (g : V -> outcome) : expr := Recover e (fun o => match o with inl v => g v | inr x => inr x end).
Definition ThenF (e : expr) (t : V -> option E) (k : V -> expr) : expr :=
  RecoverF e (fun o => match o with inl v => t v | inr x => Some x end) (fun o => match o with inl v => k v | inr x => Made (inr x) end).

(** ** Shared states *)

(** The function of a task: of [async]; of [recover], with the future it holds, also
    when it returns a future (with the futures it captures); the two of
    the reduction (the future it waits for, the outer one); the one of [reduce]. *)
Inductive body :=
  | BAsync (r : outcome)
  | BRecover (p : nat) (g : outcome -> outcome)
  | BRecoverF (p : nat) (env : list nat) (t : outcome -> option E) (k : outcome -> expr)
  | BCheck (p outer : nat)
  | BFinish (p outer : nat)
  | BUnwrap (p : nat).
(** A result: a value, a future, [void]. *)
Inductive res := RVal (v : V) | RFut (a : nat) | RUnit.
(** [_result], [_exception], [_ready], the tasks in [_then], [_f], and whether the
    type of the result is not itself a future. *)
Record cell := mk_cell {
  result : option res;
  exception : option E;
  ready : bool;
  then_ : list nat;
  function : option body;
  plain : bool
}.
(** The shared states, and the tasks handed to executors. *)
Record store := mk_store { heap : list cell; pool : list nat }.

Definition new_cell (b : body) (pl : bool) : cell := mk_cell None None false [] (Some b) pl.
Definition set_result (r : res) (c : cell) : cell := mk_cell (Some r) (exception c) (ready c) (then_ c) (function c) (plain c).
Definition set_exception (x : E) (c : cell) : cell := mk_cell (result c) (Some x) (ready c) (then_ c) (function c) (plain c).
Definition set_then (l : list nat) (c : cell) : cell := mk_cell (result c) (exception c) (ready c) l (function c) (plain c).
Definition set_ready (c : cell) : cell := mk_cell (result c) (exception c) true [] (function c) (plain c).
Definition reset_f (c : cell) : cell := mk_cell (result c) (exception c) (ready c) (then_ c) None (plain c).
Definition made (r : outcome) : cell :=
  match r with inl v => mk_cell (Some (RVal v)) None true [] None true | inr x => mk_cell None (Some x) true [] None true end.

Definition update (a : nat) (f : cell -> cell) (s : store) : store := mk_store (alter f a (heap s)) (pool s).
Definition alloc (c : cell) (s : store) : nat * store := (length (heap s), mk_store (heap s ++ [c]) (pool s)).
Definition schedule (a : nat) (s : store) : store := mk_store (heap s) (pool s ++ [a]).
(** The end of [recover]: the task waits for [p], or goes to the executor. *)
Definition attach (p a : nat) (s : store) : store :=
  match heap s !! p with
  | Some c => if ready c then schedule a s else update p (set_then (then_ c ++ [a])) s
  | None => s
  end.
(** [proceed] *)
Definition proceed (a : nat) (s : store) : store :=
  match heap s !! a with
  | Some c => mk_store (alter set_ready a (heap s)) (pool s ++ then_ c)
  | None => s
  end.
(** [package] and [recover] with task [b] on future [p]. *)
Definition recover (p : nat) (b : body) (pl : bool) (s : store) : nat * store :=
  let '(a, s) := alloc (new_cell b pl) s in (a, attach p a s).

(** [reduce]: [then] with the [get_try] of the inner future. *)
Definition reduce (p : nat) (s : store) : nat * store := recover p (BUnwrap p) true s.

(** ** Building *)
Fixpoint build (env : list nat) (e : expr) (s : store) : option (nat * store) :=
  match e with
  | Var i => a ← env !! i; Some (a, s)
  | Async r => let '(a, s) := alloc (new_cell (BAsync r) true) s in Some (a, schedule a s)
  | Made r => Some (alloc (made r) s)
  | Recover e g => '(p, s) ← build env e s; Some (recover p (BRecover p g) true s)
  | RecoverF e t k =>
      '(p, s) ← build env e s;
      let '(a, s) := recover p (BRecoverF p env t k) false s in
      Some (reduce a s)
  end.

(** ** Running a task *)

(** What a ready future of a value holds: [None] is an empty [_result]. *)
Definition held (c : cell) : option outcome :=
  match exception c, result c with
  | Some x, _ => Some (inr x)
  | None, Some (RVal v) => Some (inl v)
  | None, _ => None
  end.
(** [get_try] on a future that has to be ready. *)
Definition get (p : nat) (s : store) : option outcome := c ← heap s !! p; if ready c then held c else None.

(** [set_value] of a value, [set_exception]. *)
Definition resolve (a : nat) (o : outcome) (s : store) : store :=
  proceed a (update a (match o with inl v => set_result (RVal v) | inr x => set_exception x end) s).
(** [operator()]; [None]: an empty [optional] is read. *)
Definition run_body (a : nat) (b : body) (s : store) : option store :=
  match b with
  | BAsync r => Some (resolve a r s)
  | BRecover p g => o ← get p s; Some (resolve a (g o) s)
  | BRecoverF p env t k =>
      o ← get p s;
      match t o with
      | Some x => Some (resolve a (inr x) s)
      | None =>
          '(i, s) ← build env (k o) s;
          let s := update a (set_result (RFut i)) s in
          let '(c, s) := recover i (BCheck i a) true s in
          let '(_, s) := recover c (BFinish c a) true s in
          Some s
      end
  | BCheck p outer =>
      o ← get p s;
      match o with
      | inr x => Some (resolve a (inr reduction_failed) (proceed outer (update outer (set_exception x) s)))
      | inl v => Some (resolve a (inl v) s)
      end
  | BFinish p outer =>
      o ← get p s;
      match o with
      | inr x => Some (resolve a (inr x) s)
      | inl _ => Some (proceed a (update a (set_result RUnit) (proceed outer s)))
      end
  | BUnwrap p =>
      c ← heap s !! p;
      match ready c, exception c, result c with
      | true, Some x, _ => Some (resolve a (inr x) s)
      | true, None, Some (RFut i) => o ← get i s; Some (resolve a o s)
      | _, _, _ => None
      end
  end.
Definition run (a : nat) (s : store) : option store :=
  c ← heap s !! a;
  match function c with
  | Some b => s ← run_body a b s; Some (update a reset_f s)
  | None => Some s
  end.

(** A task is destroyed with its last promise: [remove_promise], which destroys the
    tasks that wait for it. *)
Fixpoint break (fuel a : nat) (h : list cell) : list cell :=
  match fuel, h !! a with
  | S n, Some c =>
      if plain c && negb (ready c) then
        foldl (fun h b => break n b h) (<[a := mk_cell (result c) (Some broken_promise) true [] None true]> h) (then_ c)
      else h
  | _, _ => h
  end.

(** ** The program *)

(** What the client still builds, and the futures it has. *)
Record state := mk_state { mem : store; program : list expr; handles : list nat }.
Definition unpool (i : nat) (s : store) : store := mk_store (heap s) (list_delete i (pool s)).
Definition step_client (s : state) : option state :=
  match program s with
  | e :: es => '(a, m) ← build (handles s) e (mem s); Some (mk_state m es (handles s ++ [a]))
  | [] => None
  end.
(** An executor runs a task, or destroys it. *)
Definition step_run (i : nat) (s : state) : option state :=
  a ← pool (mem s) !! i; m ← run a (unpool i (mem s)); Some (mk_state m (program s) (handles s)).
Definition step_drop (i : nat) (s : state) : option state :=
  a ← pool (mem s) !! i;
  Some (mk_state (mk_store (break (length (heap (mem s))) a (heap (mem s))) (list_delete i (pool (mem s)))) (program s) (handles s)).
Inductive step : state -> state -> Prop :=
  | step_by_client s s' : step_client s = Some s' -> step s s'
  | step_by_run i s s' : step_run i s = Some s' -> step s s'.
Definition start (es : list expr) : state := mk_state (mk_store [] []) es [].

(** ** Specification

    What a future comes to, given what the futures the client has come to; the number
    of tasks it takes; its height over what it waits for, given theirs. *)
Fixpoint eval (rho : list outcome) (e : expr) : outcome :=
  match e with
  | Var i => default (inr broken_promise) (rho !! i)
  | Async r | Made r => r
  | Recover e g => g (eval rho e)
  | RecoverF e t k => match t (eval rho e) with Some x => inr x | None => eval rho (k (eval rho e)) end
  end.
Fixpoint cost (rho : list outcome) (e : expr) : nat :=
  match e with
  | Var _ | Made _ => 0
  | Async _ => 1
  | Recover e _ => cost rho e + 1
  | RecoverF e t k => cost rho e + 2 + match t (eval rho e) with Some _ => 0 | None => cost rho (k (eval rho e)) + 2 end
  end.
Fixpoint height (rho : list outcome) (hs : list nat) (e : expr) : nat :=
  match e with
  | Var i => default 0 (hs !! i)
  | Async _ | Made _ => 0
  | Recover e _ => S (height rho hs e)
  | RecoverF e t k =>
      S (S (Nat.max (height rho hs e) match t (eval rho e) with Some _ => 0 | None => S (S (height rho hs (k (eval rho e)))) end))
  end.
(** The client uses only futures it has. *)
Fixpoint scoped (n : nat) (e : expr) : Prop :=
  match e with
  | Var i => i < n
  | Async _ | Made _ => True
  | Recover e _ => scoped n e
  | RecoverF e t k => scoped n e /\ forall o, t o = None -> scoped n (k o)
  end.
Fixpoint scoped_all (n : nat) (es : list expr) : Prop :=
  match es with [] => True | e :: es => scoped n e /\ scoped_all (S n) es end.
Fixpoint eval_all (rho : list outcome) (es : list expr) : list outcome :=
  match es with [] => rho | e :: es => eval_all (rho ++ [eval rho e]) es end.
Fixpoint cost_all (rho : list outcome) (es : list expr) : nat :=
  match es with [] => 0 | e :: es => S (cost rho e) + cost_all (rho ++ [eval rho e]) es end.
End futures.

(** ** Runs *)

(** Exceptions are numbers: 100 for a broken promise, 101 for a failed reduction. *)
Inductive turn := Client | Runs (i : nat) | Drops (i : nat).
Definition take_turn (t : turn) (s : @state nat nat) : option state :=
  match t with Client => step_client s | Runs i => step_run 101 i s | Drops i => step_drop 100 i s end.
Fixpoint take_turns (ts : list turn) (s : state) : option state :=
  match ts with [] => Some s | t :: ts => match take_turn t s with Some s' => take_turns ts s' | None => None end end.

(** A value, its double through a future, and what becomes of an exception in there. *)
Definition doubling : list (@expr nat nat) :=
  [Async (inl 1); ThenF (Var 0) (fun _ => None) (fun v => Then (Async (inl v)) (fun w => inl (w + v)));
   Recover (ThenF (Var 1) (fun _ => None) (fun v => Then (Var 0) (fun _ => inr 7))) (fun o => match o with inl v => inl v | inr x => inl (x + 1) end)].
Example doubling_evals : eval_all 100 [] doubling = [inl 1; inl 2; inl 8].
Proof. reflexivity. Qed.

(** Two futures: a value that becomes 0 if there is an exception, and one that is the answer of a future. *)
Definition forgiving : list (@expr nat nat) :=
  [Recover (Async (inl 1)) (fun o => match o with inl v => inl v | inr _ => inl 0 end);
   ThenF (Made (inl 2)) (fun _ => None) (fun v => Async (inl v))].

(** A task that is destroyed before it has run breaks its promise, and the tasks
    that wait for it are destroyed with theirs, not run: [recover] is not asked
    about the exception; and a future that waits for the answer of a future whose
    promise is broken is never ready, with nothing left to run. *)
Theorem broken_promises_are_not_passed_on :
  exists s : @state nat nat, take_turns [Client; Client; Drops 0; Runs 0; Drops 0] (start forgiving) = Some s /\
    program s = [] /\ pool (mem s) = [] /\ exists a b, handles s = [a; b] /\
    get a (mem s) = Some (inr 100) /\ eval_all 100 [] forgiving = [inl 1; inl 2] /\
    (exists c, heap (mem s) !! b = Some c /\ ready c = false) /\ get b (mem s) = None.
Proof. eexists. split; [vm_compute; reflexivity|]. split_and!; try reflexivity. eexists _, _. split_and!; try reflexivity. by eexists. Qed.
