(* ===== verification/ChainsAnswer.v ===== *)
(** * Chains of futures answer

    Whatever order the executors of [FutureChains] run their tasks in, every future
    comes to what its expression says, no empty result is read, and the number of
    tasks is known. *)

From S2P Require Import Prelude FutureChains.
Local Open Scope nat_scope.

Section answer.
Context {V E : Type} (broken_promise reduction_failed : E).
Abbreviation outcome := (V + E)%type.
Abbreviation expr := (@expr V E).
Abbreviation body := (@body V E).
Abbreviation cell := (@cell V E).
Abbreviation store := (@store V E).
Abbreviation eval := (eval broken_promise).
Abbreviation cost := (cost broken_promise).
Abbreviation height := (height broken_promise).
Abbreviation run := (run reduction_failed).

(** ** What every shared state will come to

    A future of a value, of a future, of nothing. *)
Inductive kind := KVal | KOuter | KUnit.
Record ghost := mk_ghost { kind_of : kind; den : outcome; rank : nat }.
Implicit Types G : list ghost.

Definition val_at G (a : nat) : Prop := exists o r, G !! a = Some (mk_ghost KVal o r).
Definition rho_of G (env : list nat) : list outcome := (fun a => match G !! a with Some g => den g | None => inr broken_promise end) <$> env.
Definition hs_of G (env : list nat) : list nat := (fun a => match G !! a with Some g => rank g | None => 0 end) <$> env.
Definition check (o : outcome) : outcome := match o with inl v => inl v | inr _ => inr reduction_failed end.

(** A task that has not run gives what the ghost of its shared state says, from futures of
    lower rank. *)
Definition body_ok G (g : ghost) (b : body) : Prop :=
  match b with
  | BAsync x => kind_of g = KVal /\ den g = x
  | BRecover p f => kind_of g = KVal /\ exists o r, G !! p = Some (mk_ghost KVal o r) /\ r < rank g /\ den g = f o
  | BRecoverF p env t k => kind_of g = KOuter /\ exists o r, G !! p = Some (mk_ghost KVal o r) /\ r < rank g /\ Forall (val_at G) env /\
      match t o with
      | Some x => den g = inr x
      | None => scoped (length env) (k o) /\ den g = eval (rho_of G env) (k o) /\ S (S (height (rho_of G env) (hs_of G env) (k o))) < rank g
      end
  | BCheck p outer => kind_of g = KVal /\ exists o r r', G !! p = Some (mk_ghost KVal o r) /\ G !! outer = Some (mk_ghost KOuter o r') /\
      r < rank g /\ den g = check o
  | BFinish p outer => kind_of g = KUnit /\ exists o r r', G !! p = Some (mk_ghost KVal (check o) r) /\ G !! outer = Some (mk_ghost KOuter o r') /\
      r < rank g < r'
  | BUnwrap p => kind_of g = KVal /\ exists r, G !! p = Some (mk_ghost KOuter (den g) r) /\ r < rank g
  end.
Definition cell_ok G (g : ghost) (c : cell) : Prop :=
  match function c with
  | Some b => ready c = false /\ result c = None /\ exception c = None /\ body_ok G g b
  | None => match kind_of g with
    | KVal => ready c = true /\ held c = Some (den g)
    | KUnit => ready c = true
    | KOuter => match exception c with
      | Some x => ready c = true /\ den g = inr x
      | None => exists i r, result c = Some (RFut i) /\ G !! i = Some (mk_ghost KVal (den g) r)
      end
    end
  end.
Definition parent (b : body) : option nat :=
  match b with BAsync _ => None | BRecover p _ | BRecoverF p _ _ _ | BCheck p _ | BFinish p _ | BUnwrap p => Some p end.
Definition ready_at (s : store) (a : nat) : Prop := exists c, heap s !! a = Some c /\ ready c = true.

(** The store with task [act] taken out to be run: every other state is as its ghost
    says; a task that has not run is in one place, with an executor if what it
    waits for is ready, else there; and how the three states of a reduction go
    together. *)
Record inv (act : option nat) G (s : store) : Prop := mk_inv {
  v_len : length (heap s) = length G;
  v_cell : forall a c g, heap s !! a = Some c -> G !! a = Some g -> act <> Some a -> cell_ok G g c;
  v_body : forall a c b g, heap s !! a = Some c -> function c = Some b -> G !! a = Some g -> body_ok G g b;
  v_occ : forall a, occ a (pool s) + occs a then_ (heap s) =
    match heap s !! a with
    | Some c => match function c with Some _ => if decide (act = Some a) then 0 else 1 | None => 0 end
    | None => 0
    end;
  v_then : forall a c, heap s !! a = Some c -> ready c = true -> then_ c = [];
  v_wait : forall p cp a, heap s !! p = Some cp -> a ∈ then_ cp ->
    exists c b, heap s !! a = Some c /\ function c = Some b /\ parent b = Some p;
  v_pool : forall a c b p, a ∈ pool s -> heap s !! a = Some c -> function c = Some b -> parent b = Some p -> ready_at s p;
  v_check : forall a c p outer, heap s !! a = Some c -> function c = Some (BCheck p outer) ->
    exists co, heap s !! outer = Some co /\ result co = Some (RFut p);
  v_finish : forall a c p outer, heap s !! a = Some c -> function c = Some (BFinish p outer) ->
    exists co i, heap s !! outer = Some co /\ result co = Some (RFut i) /\
    ((exists cp, heap s !! p = Some cp /\ function cp = Some (BCheck i outer)) \/
     ready_at s p /\ ready_at s i /\ forall x r, G !! outer = Some (mk_ghost KOuter (inr x) r) -> ready_at s outer);
  v_fut : forall a c i, heap s !! a = Some c -> ready c = true -> exception c = None -> result c = Some (RFut i) -> ready_at s i;
  v_outer : forall a c i, heap s !! a = Some c -> function c = None -> ready c = false -> result c = Some (RFut i) -> act <> Some a ->
    exists d cd p, heap s !! d = Some cd /\ function cd = Some (BFinish p a)
}.

(** The tasks that a state may still run: its own, and those its function builds. *)
Definition den_at G (a : nat) : outcome := match G !! a with Some g => den g | None => inr broken_promise end.
Definition pot G (c : cell) : nat :=
  match function c with
  | None => 0
  | Some (BRecoverF p env t k) => S match t (den_at G p) with Some _ => 0 | None => cost (rho_of G env) (k (den_at G p)) + 2 end
  | Some _ => 1
  end.
Definition tasks_left G (s : store) : nat := sum_list_with (pot G) (heap s).

(** ** More shared states *)

Lemma Forall_val_ext G G' env : Forall (val_at G) env -> Forall (val_at (G ++ G')) env.
Proof. intros H. eapply Forall_impl; [exact H|]. intros a (o & r & Ha). exists o, r. by apply lookup_app_l_Some. Qed.
Lemma rho_ext G G' env : Forall (val_at G) env -> rho_of (G ++ G') env = rho_of G env /\ hs_of (G ++ G') env = hs_of G env.
Proof.
  unfold rho_of, hs_of. induction 1 as [|a env (o & r & Ha) _ [IH1 IH2]]; [done|]. rewrite !fmap_cons, IH1, IH2, Ha.
  by rewrite (lookup_app_l_Some _ G' _ _ Ha).
Qed.
Lemma body_ok_ext G G' g b : body_ok G g b -> body_ok (G ++ G') g b.
Proof.
  assert (Hl : forall a x, G !! a = Some x -> (G ++ G') !! a = Some x) by (intros; by apply lookup_app_l_Some).
  destruct b; cbn; intros H; [done|..]; destruct H as [Hk H]; (split; [done|]).
  - destruct H as (o & r & ? & ? & ?). eauto 10.
  - destruct H as (o & r & ? & ? & He & Ht). exists o, r. split_and!; [auto|done|by apply Forall_val_ext|].
    destruct (rho_ext G G' env He) as [-> ->]. done.
  - destruct H as (o & r & r' & ? & ? & ? & ?). eauto 10.
  - destruct H as (o & r & r' & ? & ? & ?). eauto 10.
  - destruct H as (r & ? & ?). eauto.
Qed.
Lemma cell_ok_ext G G' g c : cell_ok G g c -> cell_ok (G ++ G') g c.
Proof.
  unfold cell_ok. destruct (function c); [intros (? & ? & ? & ?); split_and!; try done; by apply body_ok_ext|].
  destruct (kind_of g); [done| |done]. destruct (exception c); [done|]. intros (i & r & ? & ?). exists i, r. split; [done|by apply lookup_app_l_Some].
Qed.

(** [s'] has the states of [s], some with more tasks waiting, and maybe others. *)
Definition more (s s' : store) : Prop :=
  forall a c, heap s !! a = Some c -> exists l, heap s' !! a = Some (set_then (then_ c ++ l) c).
Lemma set_then_same (c : cell) : set_then (then_ c ++ []) c = c.
Proof. destruct c. cbn. by rewrite app_nil_r. Qed.
Lemma more_refl s : more s s.
Proof. intros a c Ha. exists []. by rewrite set_then_same. Qed.
Lemma more_trans s1 s2 s3 : more s1 s2 -> more s2 s3 -> more s1 s3.
Proof. intros H1 H2 a c Ha. destruct (H1 a c Ha) as [l Hl]. destruct (H2 a _ Hl) as [l' Hl']. exists (l ++ l'). rewrite Hl'. cbn. by rewrite app_assoc. Qed.
Lemma more_ready s s' a : more s s' -> ready_at s a -> ready_at s' a.
Proof. intros Hm (c & Ha & Hr). destruct (Hm a c Ha) as [l Hl]. by eexists. Qed.

Lemma pot_ext G G' g c : (forall b, function c = Some b -> body_ok G g b) -> pot (G ++ G') c = pot G c.
Proof.
  intros H. unfold pot. destruct (function c) as [[]|]; try done. destruct (H _ eq_refl) as (_ & o & r & Hp & _ & He & _).
  unfold den_at. rewrite Hp, (lookup_app_l_Some _ G' _ _ Hp). by destruct (rho_ext G G' env He) as [-> _].
Qed.
Lemma sum_same {A} (f h : A -> nat) (l l' : list A) : length l' = length l ->
  (forall a x, l !! a = Some x -> exists y, l' !! a = Some y /\ h y = f x) -> sum_list_with h l' = sum_list_with f l.
Proof.
  revert l'. induction l as [|x l IH]; intros [|y l'] Hl H; try done. cbn. injection Hl as Hl.
  destruct (H 0 x eq_refl) as (z & Hz & Hxz). injection Hz as <-. rewrite Hxz, (IH l' Hl); [done|]. intros a. apply (H (S a)).
Qed.

(** A new state, whose task, if it has one, is with an executor or waits. *)
Definition waits_for (c : cell) (p : nat) : Prop := exists b, function c = Some b /\ parent b = Some p.
Lemma inv_add act G s s' g cn h1 extra : inv act G s -> heap s' = h1 ++ [cn] -> pool s' = pool s ++ extra ->
  length h1 = length (heap s) -> act <> Some (length (heap s)) -> cell_ok G g cn -> then_ cn = [] -> (forall i, result cn <> Some (RFut i)) ->
  (function cn = None -> ready cn = true) ->
  (forall a c, heap s !! a = Some c -> exists l, h1 !! a = Some (set_then (then_ c ++ l) c) /\
     (l = [] \/ l = [length (heap s)] /\ ready c = false /\ waits_for cn a)) ->
  (forall x, occ x extra + occs x then_ h1 = occs x then_ (heap s) + match function cn with Some _ => occ x [length (heap s)] | None => 0 end) ->
  extra = [] \/ extra = [length (heap s)] /\ (forall p, waits_for cn p -> ready_at s p) ->
  (forall p outer, function cn = Some (BCheck p outer) -> exists co, heap s !! outer = Some co /\ result co = Some (RFut p)) ->
  (forall p outer, function cn = Some (BFinish p outer) -> exists co i cp, heap s !! outer = Some co /\ result co = Some (RFut i) /\
     heap s !! p = Some cp /\ function cp = Some (BCheck i outer)) ->
  inv act (G ++ [g]) s' /\ more s s' /\ heap s' !! length (heap s) = Some cn /\
  tasks_left (G ++ [g]) s' = tasks_left G s + pot (G ++ [g]) cn.
Proof.
  intros Hi Hh Hp Hl1 Hact Hb Hth Hrf Hfr Hl Hocc Hextra Hck Hfn. set (n := length (heap s)) in *. pose proof (v_len _ _ _ Hi) as Hlen.
  assert (Hold : forall a c, heap s !! a = Some c -> exists l, heap s' !! a = Some (set_then (then_ c ++ l) c) /\ (l = [] \/ l = [n] /\ ready c = false /\ waits_for cn a)).
  { intros a c Ha. destruct (Hl a c Ha) as (l & H1 & H2). exists l. split; [|done]. rewrite Hh. by apply lookup_app_l_Some. }
  assert (Hnew : heap s' !! n = Some cn) by by rewrite Hh, lookup_app_r, Hl1, Nat.sub_diag by lia.
  assert (Hinv : forall a c, heap s' !! a = Some c -> a = n /\ c = cn \/ exists c0 l, heap s !! a = Some c0 /\ c = set_then (then_ c0 ++ l) c0 /\
    (l = [] \/ l = [n] /\ ready c0 = false /\ waits_for cn a)).
  { intros a c Ha. destruct (decide (a < n)) as [Hlt|Hge].
    - right. destruct (lookup_lt_is_Some_2 (heap s) a Hlt) as [c0 H0]. destruct (Hold a c0 H0) as (l & H1 & H2). rewrite Ha in H1. injection H1 as ->. eauto.
    - left. pose proof (lookup_lt_Some _ _ _ Ha) as Hlt. rewrite Hh, length_app, Hl1 in Hlt. cbn in Hlt. assert (a = n) as -> by (unfold n in *; lia).
      rewrite Hnew in Ha. by injection Ha as <-. }
  assert (Hmore : more s s') by (intros a c Ha; destruct (Hold a c Ha) as (l & H1 & _); eauto).
  assert (Hleft : tasks_left (G ++ [g]) s' = tasks_left G s + pot (G ++ [g]) cn).
  { unfold tasks_left. rewrite Hh, sum_list_with_app. cbn. rewrite Nat.add_0_r. f_equal. apply sum_same; [done|].
    intros a c Ha. destruct (Hl a c Ha) as (l & H1 & _). eexists. split; [done|].
    destruct (lookup_lt_is_Some_2 G a) as [g' Hg']; [rewrite <- Hlen; by eapply lookup_lt_Some|].
    apply (pot_ext G [g] g' c). intros b Hf. by apply (v_body _ _ _ Hi a c). }
  split; [|done]. constructor.
  - rewrite Hh, !length_app, Hl1. unfold n. by rewrite Hlen.
  - intros a c g' Ha Hg Hne. destruct (Hinv a c Ha) as [[-> ->]|(c0 & l & H0 & -> & _)].
    + rewrite lookup_app_r, <- Hlen, Nat.sub_diag in Hg by (unfold n; lia). injection Hg as <-. by apply cell_ok_ext.
    + rewrite lookup_app_l in Hg by (rewrite <- Hlen; by eapply lookup_lt_Some). apply cell_ok_ext. change (cell_ok G g' c0). by apply (v_cell _ _ _ Hi a).
  - intros a c b g' Ha Hf Hg. destruct (Hinv a c Ha) as [[-> ->]|(c0 & l & H0 & -> & _)].
    + rewrite lookup_app_r, <- Hlen, Nat.sub_diag in Hg by (unfold n; lia). injection Hg as <-. unfold cell_ok in Hb. rewrite Hf in Hb. destruct Hb as (_ & _ & _ & Hb). by apply body_ok_ext.
    + rewrite lookup_app_l in Hg by (rewrite <- Hlen; by eapply lookup_lt_Some). by apply body_ok_ext, (v_body _ _ _ Hi a c0).
  - intros a. rewrite Hp, Hh, occ_app. unfold occs. rewrite sum_list_with_app. cbn. rewrite Hth, occ_nil, !Nat.add_0_r. fold (occs a then_ h1).
    pose proof (v_occ _ _ _ Hi a) as Ho. specialize (Hocc a). rewrite <- Hh. destruct (decide (a = n)) as [->|Hne].
    + rewrite Hnew. rewrite (decide_False (P := act = Some n)) by done. rewrite lookup_ge_None_2 in Ho by (unfold n; lia).
      replace (occ n [n]) with 1 in Hocc; [lia|]. unfold occ. cbn. by destruct (Nat.eq_dec n n).
    + replace (occ a [n]) with 0 in Hocc by (unfold occ; cbn; by destruct (Nat.eq_dec n a)).
      assert (Hz : match function cn with Some _ => 0 | None => 0 end = 0) by by destruct (function cn). rewrite Hz in Hocc.
      replace (match heap s' !! a with Some c => match function c with Some _ => if decide (act = Some a) then 0 else 1 | None => 0 end | None => 0 end)
        with (match heap s !! a with Some c => match function c with Some _ => if decide (act = Some a) then 0 else 1 | None => 0 end | None => 0 end); [lia|].
      destruct (heap s !! a) as [c0|] eqn:H0; [by destruct (Hold a c0 H0) as (l & -> & _)|].
      destruct (heap s' !! a) as [c|] eqn:H1; [|done]. destruct (Hinv a c H1) as [[-> _]|(c0 & l & H & _)]; [done|by rewrite H in H0].
  - intros a c Ha Hr. destruct (Hinv a c Ha) as [[-> ->]|(c0 & l & H0 & -> & Hor)]; [done|]. cbn in *.
    rewrite (v_then _ _ _ Hi a c0 H0 Hr). destruct Hor as [->|(_ & Hr' & _)]; [done|by rewrite Hr in Hr'].
  - intros p cp a Hcp Hin. destruct (Hinv p cp Hcp) as [[-> ->]|(c0 & l & H0 & -> & Hor)]; [rewrite Hth in Hin; by apply not_elem_of_nil in Hin|]. cbn in Hin.
    apply elem_of_app in Hin as [Hin|Hin].
    + destruct (v_wait _ _ _ Hi p c0 a H0 Hin) as (c & b' & Ha & Hf & Hpar). destruct (Hold a c Ha) as (l' & Ha' & _). eexists _, b'. by split_and!.
    + destruct Hor as [->|(-> & _ & b & Hf & Hpar)]; [by apply not_elem_of_nil in Hin|]. apply list_elem_of_singleton in Hin as ->. by exists cn, b.
  - intros a c b' p Hin Ha Hf Hpar. rewrite Hp in Hin. apply (more_ready s); [done|]. apply elem_of_app in Hin as [Hin|Hin].
    + destruct (Hinv a c Ha) as [[-> ->]|(c0 & l & H0 & -> & _)]; [|by apply (v_pool _ _ _ Hi a c0 b')].
      exfalso. pose proof (v_occ _ _ _ Hi n) as Ho. rewrite lookup_ge_None_2 in Ho by (unfold n; lia).
      assert (0 < occ n (pool s)); [|lia]. unfold occ. apply (count_occ_In Nat.eq_dec). by apply list_elem_of_In.
    + destruct Hextra as [->|[-> Hpr]]; [by apply not_elem_of_nil in Hin|]. apply list_elem_of_singleton in Hin as ->.
      rewrite Hnew in Ha. injection Ha as <-. apply Hpr. by exists b'.
  - intros a c p outer Ha Hf. destruct (Hinv a c Ha) as [[-> ->]|(c0 & l & H0 & -> & _)].
    + destruct (Hck p outer Hf) as (co & Hco & Hr). destruct (Hold outer co Hco) as (l & Hl' & _). by eexists.
    + destruct (v_check _ _ _ Hi a c0 p outer H0 Hf) as (co & Hco & Hr). destruct (Hold outer co Hco) as (l' & Hl' & _). by eexists.
  - intros a c p outer Ha Hf. destruct (Hinv a c Ha) as [[-> ->]|(c0 & l & H0 & -> & _)].
    + destruct (Hfn p outer Hf) as (co & i & cp & Hco & Hr & Hcp & Hfp). destruct (Hold outer co Hco) as (l & Hl' & _).
      destruct (Hold p cp Hcp) as (l' & Hl'' & _). eexists _, i. split_and!; [done|done|]. left. by eexists.
    + destruct (v_finish _ _ _ Hi a c0 p outer H0 Hf) as (co & i & Hco & Hr & Hor). destruct (Hold outer co Hco) as (l' & Hl' & _).
      eexists _, i. split_and!; [done|done|]. destruct Hor as [(cp & Hcp & Hfp)|(Hrp & Hri & Hx)].
      * left. destruct (Hold p cp Hcp) as (l'' & Hl'' & _). by eexists.
      * right. split_and!; [by eapply more_ready..|]. intros x r Hg. apply (more_ready s); [done|]. apply (Hx x r).
        rewrite lookup_app_l in Hg; [done|]. rewrite <- Hlen. by eapply lookup_lt_Some.
  - intros a c i Ha Hr Hx Hres. apply (more_ready s); [done|]. destruct (Hinv a c Ha) as [[-> ->]|(c0 & l & H0 & -> & _)]; [by apply Hrf in Hres|]. by apply (v_fut _ _ _ Hi a c0 i).
  - intros a c i Ha Hf Hr Hres Hne. destruct (Hinv a c Ha) as [[-> ->]|(c0 & l & H0 & -> & _)]; [by apply Hrf in Hres|].
    destruct (v_outer _ _ _ Hi a c0 i H0 Hf Hr Hres Hne) as (d & cd & p & Hd & Hfd). destruct (Hold d cd Hd) as (l' & Hl' & _). by eexists d, _, p.
Qed.

Lemma new_cell_ok G g b pl : body_ok G g b -> cell_ok G g (new_cell b pl).
Proof. done. Qed.
Lemma inv_recover act G s p b pl g : inv act G s -> p < length (heap s) -> act <> Some (length (heap s)) -> parent b = Some p ->
  body_ok G g b ->
  (forall q outer, b = BCheck q outer -> exists co, heap s !! outer = Some co /\ result co = Some (RFut q)) ->
  (forall q outer, b = BFinish q outer -> exists co i cp, heap s !! outer = Some co /\ result co = Some (RFut i) /\
     heap s !! q = Some cp /\ function cp = Some (BCheck i outer)) ->
  exists s', recover p b pl s = (length (heap s), s') /\ inv act (G ++ [g]) s' /\ more s s' /\ heap s' !! length (heap s) = Some (new_cell b pl) /\
  tasks_left (G ++ [g]) s' = tasks_left G s + pot (G ++ [g]) (new_cell b pl).
Proof.
  intros Hi Hp Hact Hpar Hb Hck Hfn. destruct (lookup_lt_is_Some_2 (heap s) p Hp) as [c Hc]. eexists. split; [done|].
  assert (Hw : forall q, waits_for (new_cell b pl) q -> q = p).
  { intros q (b' & Hb' & Hq). injection Hb' as <-. rewrite Hpar in Hq. by injection Hq. }
  assert (Hck' : forall q outer, function (new_cell b pl) = Some (BCheck q outer) -> exists co, heap s !! outer = Some co /\ result co = Some (RFut q)).
  { intros q outer H. injection H as H. auto. }
  assert (Hfn' : forall q outer, function (new_cell b pl) = Some (BFinish q outer) -> exists co i cp, heap s !! outer = Some co /\
    result co = Some (RFut i) /\ heap s !! q = Some cp /\ function cp = Some (BCheck i outer)).
  { intros q outer H. injection H as H. auto. }
  unfold attach. cbn [heap]. rewrite (lookup_app_l_Some _ [new_cell b pl] _ _ Hc). destruct (ready c) eqn:Hr.
  - apply (inv_add act G s _ g (new_cell b pl) (heap s) [length (heap s)]); try done.
    + intros a c0 Ha. exists []. rewrite set_then_same. auto.
    + intros x. cbn. lia.
    + right. split; [done|]. intros q Hq. rewrite (Hw q Hq). by exists c.
  - apply (inv_add act G s _ g (new_cell b pl) (alter (set_then (then_ c ++ [length (heap s)])) p (heap s)) []); try done.
    + cbn. by rewrite alter_app_l.
    + cbn. by rewrite app_nil_r.
    + apply length_alter.
    + intros a c0 Ha. destruct (decide (a = p)) as [->|Hne].
      * rewrite Hc in Ha. injection Ha as <-. rewrite list_lookup_alter_eq, Hc. exists [length (heap s)]. split; [done|]. right. split_and!; [done|done|]. by exists b.
      * rewrite list_lookup_alter_ne by done. exists []. rewrite set_then_same. auto.
    + intros x. rewrite (alter_at _ _ _ _ Hc). pose proof (occs_insert x then_ (heap s) p c (set_then (then_ c ++ [length (heap s)]) c) Hc) as H.
      cbn in *. rewrite occ_app in H. rewrite occ_nil. lia.
    + by left.
Qed.
Lemma inv_fresh act G s cn g : inv act G s -> act <> Some (length (heap s)) -> cell_ok G g cn -> then_ cn = [] -> (forall i, result cn <> Some (RFut i)) ->
  (function cn = None -> ready cn = true) -> (forall b, function cn = Some b -> parent b = None) ->
  let s' := mk_store (heap s ++ [cn]) (pool s ++ match function cn with Some _ => [length (heap s)] | None => [] end) in
  inv act (G ++ [g]) s' /\ more s s' /\ heap s' !! length (heap s) = Some cn /\
  tasks_left (G ++ [g]) s' = tasks_left G s + pot (G ++ [g]) cn.
Proof.
  intros Hi Hact Hok Hth Hrf Hfr Hpar. apply (inv_add act G s _ g cn (heap s) match function cn with Some _ => [length (heap s)] | None => [] end); try done.
  - intros a c0 Ha. exists []. rewrite set_then_same. auto.
  - intros x. destruct (function cn); cbn; [lia|]. rewrite occ_nil. lia.
  - destruct (function cn) as [b|] eqn:Hf; [right|by left]. split; [done|]. intros p (b' & Hb' & Hp). rewrite Hf in Hb'. injection Hb' as <-. by rewrite (Hpar b eq_refl) in Hp.
  - intros p outer H. by apply Hpar in H.
  - intros p outer H. by apply Hpar in H.
Qed.

(** ** Building *)

Lemma rho_lookup G env i : Forall (val_at G) env -> i < length env -> exists a o r, env !! i = Some a /\ G !! a = Some (mk_ghost KVal o r) /\
  rho_of G env !! i = Some o /\ hs_of G env !! i = Some r.
Proof.
  intros He Hi. destruct (lookup_lt_is_Some_2 env i Hi) as [a Ha]. destruct (Forall_lookup_1 _ _ _ _ He Ha) as (o & r & Hg).
  exists a, o, r. unfold rho_of, hs_of. rewrite !list_lookup_fmap, Ha. cbn. by rewrite Hg.
Qed.
Definition ghost_of G env (e : expr) : ghost := mk_ghost KVal (eval (rho_of G env) e) (height (rho_of G env) (hs_of G env) e).
Lemma at_new G s act g : inv act G s -> (G ++ [g]) !! length (heap s) = Some g.
Proof. intros Hi. rewrite (v_len _ _ _ Hi). by rewrite lookup_app_r, Nat.sub_diag by lia. Qed.
Lemma more_length s s' : more s s' -> length (heap s) <= length (heap s').
Proof.
  intros Hm. destruct (decide (length (heap s) = 0)) as [Hz|Hnz]; [lia|].
  destruct (lookup_lt_is_Some_2 (heap s) (length (heap s) - 1)) as [c Hc]; [lia|]. destruct (Hm _ c Hc) as [l Hl]. apply lookup_lt_Some in Hl. lia.
Qed.
Lemma not_act act (n : nat) : (forall a, act = Some a -> a < n) -> act <> Some n.
Proof. intros H Hn. specialize (H n Hn). lia. Qed.
Lemma ghost_ext G G' env e : Forall (val_at G) env -> ghost_of (G ++ G') env e = ghost_of G env e.
Proof. intros He. unfold ghost_of. by destruct (rho_ext G G' env He) as [-> ->]. Qed.
Lemma in_heap act G s a g : inv act G s -> G !! a = Some g -> a < length (heap s).
Proof. intros Hi Hg. rewrite (v_len _ _ _ Hi). by eapply lookup_lt_Some. Qed.

Lemma inv_build act env e : forall G s, inv act G s -> (forall a, act = Some a -> a < length (heap s)) -> Forall (val_at G) env -> scoped (length env) e ->
  exists a s' G', build env e s = Some (a, s') /\ inv act (G ++ G') s' /\ more s s' /\
    (G ++ G') !! a = Some (ghost_of G env e) /\ tasks_left (G ++ G') s' = tasks_left G s + cost (rho_of G env) e.
Proof.
  induction e as [i|r|r|e IH f|e IH t k _]; intros G s Hi Hact He Hsc; cbn [scoped] in Hsc.
  - destruct (rho_lookup G env i He Hsc) as (a & o & r & Ha & Hg & Ho & Hr). exists a, s, []. cbn. rewrite Ha, app_nil_r. cbn.
    split_and!; [done|done|apply more_refl| |lia]. unfold ghost_of. cbn. by rewrite Hg, Ho, Hr.
  - destruct (inv_fresh act G s (new_cell (BAsync r) true) (mk_ghost KVal r 0) Hi (not_act _ _ Hact)) as (H1 & H2 & H3 & H4); try done.
    + intros b Hb. by injection Hb as <-.
    + eexists _, _, [_]. cbn. split_and!; [done|exact H1|done|by apply (at_new G s act)|exact H4].
  - destruct (inv_fresh act G s (made r) (mk_ghost KVal r 0) Hi (not_act _ _ Hact)) as (H1 & H2 & H3 & H4); try (by destruct r).
    eexists _, _, [_]. cbn. split_and!; [done| |done|by apply (at_new G s act)|].
    + destruct r; cbn in *; by rewrite app_nil_r in H1.
    + by destruct r.
  - destruct (IH G s Hi Hact He Hsc) as (p & s1 & G1 & Hb & Hi1 & Hm1 & Hp & Hl1). cbn [build]. rewrite Hb. cbn [mbind option_bind].
    assert (Hact1 : forall a, act = Some a -> a < length (heap s1)) by (intros a Ha; apply more_length in Hm1; specialize (Hact a Ha); lia).
    destruct (inv_recover act (G ++ G1) s1 p (BRecover p f) true (ghost_of G env (Recover e f)) Hi1 (in_heap _ _ _ _ _ Hi1 Hp) (not_act _ _ Hact1))
      as (s2 & Hs2 & Hi2 & Hm2 & Hc2 & Hl2); try done.
    { split; [done|]. eexists _, _. split; [exact Hp|]. cbn. split; [lia|done]. }
    rewrite Hs2. exists (length (heap s1)), s2, (G1 ++ [ghost_of G env (Recover e f)]). rewrite app_assoc. split_and!; [done|done|by eapply more_trans| |].
    + by apply (at_new _ s1 act).
    + rewrite Hl2, Hl1. cbn. lia.
  - destruct Hsc as [Hsc Hk]. destruct (IH G s Hi Hact He Hsc) as (p & s1 & G1 & Hb & Hi1 & Hm1 & Hp & Hl1). cbn [build]. rewrite Hb. cbn [mbind option_bind].
    assert (Hact1 : forall a, act = Some a -> a < length (heap s1)) by (intros a Ha; apply more_length in Hm1; specialize (Hact a Ha); lia).
    set (g := mk_ghost KOuter (eval (rho_of G env) (RecoverF e t k)) (height (rho_of G env) (hs_of G env) (RecoverF e t k) - 1)).
    destruct (inv_recover act (G ++ G1) s1 p (BRecoverF p env t k) false g Hi1 (in_heap _ _ _ _ _ Hi1 Hp) (not_act _ _ Hact1))
      as (s2 & Hs2 & Hi2 & Hm2 & Hc2 & Hl2); try done.
    { split; [done|]. eexists _, _. destruct (rho_ext G G1 env He) as [-> ->]. split_and!; [exact Hp|cbn; lia|by apply Forall_val_ext|].
      unfold g. cbn. destruct (t (eval (rho_of G env) e)) eqn:Ht; [done|]. split_and!; [by apply Hk|done|lia]. }
    rewrite Hs2.
    assert (Hact2 : forall a, act = Some a -> a < length (heap s2)) by (intros a Ha; apply more_length in Hm2; specialize (Hact1 a Ha); lia).
    pose proof (at_new _ s1 act g Hi1) as Hg.
    destruct (inv_recover act ((G ++ G1) ++ [g]) s2 (length (heap s1)) (BUnwrap (length (heap s1))) true (ghost_of G env (RecoverF e t k)) Hi2 (in_heap _ _ _ _ _ Hi2 Hg) (not_act _ _ Hact2))
      as (s3 & Hs3 & Hi3 & Hm3 & Hc3 & Hl3); try done.
    { split; [done|]. eexists. split; [exact Hg|]. cbn. lia. }
    unfold reduce. rewrite Hs3. exists (length (heap s2)), s3, (G1 ++ [g; ghost_of G env (RecoverF e t k)]).
    assert (Hassoc : G ++ G1 ++ [g; ghost_of G env (RecoverF e t k)] = ((G ++ G1) ++ [g]) ++ [ghost_of G env (RecoverF e t k)]) by by rewrite <- !app_assoc.
    rewrite Hassoc. split_and!; [done|done|by eapply more_trans, more_trans|by apply (at_new _ s2 act)|].
    rewrite Hl3, Hl2, Hl1. cbn [pot new_cell function]. unfold den_at. rewrite (lookup_app_l_Some _ [g] _ _ Hp). cbn [den ghost_of].
    rewrite <- app_assoc. destruct (rho_ext G (G1 ++ [g]) env He) as [-> _]. cbn [FutureChains.cost]. destruct (t (eval (rho_of G env) e)); lia.
Qed.

(** ** A state becomes ready *)

(** Nobody has the task being run, or a task that has run. *)
Lemma nowhere act G s a c : inv act G s -> heap s !! a = Some c -> act = Some a \/ function c = None ->
  (a ∈ pool s -> False) /\ forall p cp, heap s !! p = Some cp -> a ∈ then_ cp -> False.
Proof.
  intros Hi Ha Hor. pose proof (v_occ _ _ _ Hi a) as Ho. rewrite Ha in Ho.
  replace (match function c with Some _ => if decide (act = Some a) then 0 else 1 | None => 0 end) with 0 in Ho;
    [|destruct Hor as [H|H]; [destruct (function c); [by rewrite decide_True|done]|by rewrite H]].
  split; [intros Hin%occ_in; lia|]. intros p cp Hp Hin. pose proof (occs_in a then_ (heap s) p cp Hp Hin). lia.
Qed.

Lemma inv_settle act act' G s a c c' g : inv act G s -> heap s !! a = Some c -> G !! a = Some g ->
  ready c' = true -> then_ c' = [] -> function c' = None -> cell_ok G g c' ->
  act' = act /\ act <> Some a /\ function c = None \/ act = Some a /\ act' = None ->
  (forall i, result c = Some (RFut i) -> result c' = Some (RFut i)) ->
  (forall i outer, function c = Some (BCheck i outer) -> ready_at s i /\ forall x r, G !! outer = Some (mk_ghost KOuter (inr x) r) -> ready_at s outer) ->
  (forall p outer, function c = Some (BFinish p outer) -> ready_at s outer) ->
  (forall i, exception c' = None -> result c' = Some (RFut i) -> ready_at s i) ->
  let s' := mk_store (<[a := c']> (heap s)) (pool s ++ then_ c) in
  inv act' G s' /\ tasks_left G s' + pot G c = tasks_left G s /\ (forall x, ready_at s x -> ready_at s' x) /\ ready_at s' a.
Proof.
  intros Hi Ha Hg Hr Ht Hf Hok Hor Hres Hck Hfn Hfut s'. pose proof (lookup_lt_Some _ _ _ Ha) as Hlt.
  assert (Hnew : heap s' !! a = Some c') by by apply list_lookup_insert_eq.
  assert (Hold : forall x, x <> a -> heap s' !! x = heap s !! x) by (intros x Hx; by apply list_lookup_insert_ne).
  assert (Hra : ready_at s' a) by by exists c'.
  assert (Hrx : forall x, ready_at s x -> ready_at s' x).
  { intros x (cx & Hx & Hrx). destruct (decide (x = a)) as [->|Hne]; [done|]. exists cx. by rewrite Hold. }
  destruct (nowhere act G s a c Hi Ha) as [Hnp Hnt]; [destruct Hor as [(_ & _ & ?)|(? & _)]; auto|].
  split; [|split_and!; [|done|done]].
  2: { unfold tasks_left. pose proof (sum_with_insert (pot G) (heap s) a c c' Ha) as H. unfold pot at 4 in H. rewrite Hf in H. cbn. lia. }
  constructor.
  - cbn. rewrite length_insert. by apply (v_len _ _ _ Hi).
  - intros x cx gx Hx Hgx Hne. destruct (decide (x = a)) as [->|Hxa]; [rewrite Hnew in Hx; injection Hx as <-; rewrite Hg in Hgx; by injection Hgx as <-|].
    rewrite Hold in Hx by done. apply (v_cell _ _ _ Hi x); [done|done|]. destruct Hor as [(-> & _)|(-> & _)]; [done|congruence].
  - intros x cx b gx Hx Hfx Hgx. destruct (decide (x = a)) as [->|Hxa]; [rewrite Hnew in Hx; injection Hx as <-; by rewrite Hf in Hfx|].
    rewrite Hold in Hx by done. by apply (v_body _ _ _ Hi x cx).
  - intros x. cbn [pool heap s']. rewrite occ_app. pose proof (v_occ _ _ _ Hi x) as Ho.
    pose proof (occs_insert x then_ (heap s) a c c' Ha) as Hins. rewrite Ht, occ_nil in Hins. destruct (decide (x = a)) as [->|Hxa].
    + rewrite list_lookup_insert_eq by done. rewrite Hf. rewrite Ha in Ho.
      replace (match function c with Some _ => if decide (act = Some a) then 0 else 1 | None => 0 end) with 0 in Ho; [lia|].
      destruct Hor as [(_ & _ & ->)|(-> & _)]; [done|]. destruct (function c); [by rewrite decide_True|done].
    + rewrite list_lookup_insert_ne by done. replace (if decide (act' = Some x) then 0 else 1) with (if decide (act = Some x) then 0 else 1); [lia|].
      destruct Hor as [(-> & _)|(-> & ->)]; [done|]. rewrite !decide_False by congruence. done.
  - intros x cx Hx Hrc. destruct (decide (x = a)) as [->|Hxa]; [rewrite Hnew in Hx; by injection Hx as <-|].
    rewrite Hold in Hx by done. by apply (v_then _ _ _ Hi x).
  - intros p cp x Hp Hin. destruct (decide (p = a)) as [->|Hpa]; [rewrite Hnew in Hp; injection Hp as <-; rewrite Ht in Hin; by apply not_elem_of_nil in Hin|].
    rewrite Hold in Hp by done. destruct (v_wait _ _ _ Hi p cp x Hp Hin) as (cx & b & Hx & Hfx & Hpar).
    destruct (decide (x = a)) as [->|Hxa]; [by destruct (Hnt p cp)|]. exists cx, b. by rewrite Hold.
  - intros x cx b p Hin Hx Hfx Hpar. destruct (decide (x = a)) as [->|Hxa]; [rewrite Hnew in Hx; injection Hx as <-; by rewrite Hf in Hfx|].
    rewrite Hold in Hx by done. cbn in Hin. apply elem_of_app in Hin as [Hin|Hin]; [by apply Hrx, (v_pool _ _ _ Hi x cx b)|].
    destruct (v_wait _ _ _ Hi a c x Ha Hin) as (cx' & b' & Hx' & Hfx' & Hpar'). rewrite Hx in Hx'. injection Hx' as <-. rewrite Hfx in Hfx'. injection Hfx' as <-.
    rewrite Hpar in Hpar'. by injection Hpar' as ->.
  - intros x cx p outer Hx Hfx. destruct (decide (x = a)) as [->|Hxa]; [rewrite Hnew in Hx; injection Hx as <-; by rewrite Hf in Hfx|].
    rewrite Hold in Hx by done. destruct (v_check _ _ _ Hi x cx p outer Hx Hfx) as (co & Hco & Hrco).
    destruct (decide (outer = a)) as [->|Hoa]; [|exists co; by rewrite Hold]. exists c'. split; [done|]. apply Hres. rewrite Ha in Hco. by injection Hco as <-.
  - intros x cx p outer Hx Hfx. destruct (decide (x = a)) as [->|Hxa]; [rewrite Hnew in Hx; injection Hx as <-; by rewrite Hf in Hfx|].
    rewrite Hold in Hx by done. destruct (v_finish _ _ _ Hi x cx p outer Hx Hfx) as (co & i & Hco & Hrco & Hcase).
    assert (Ho : exists co, heap s' !! outer = Some co /\ result co = Some (RFut i)).
    { destruct (decide (outer = a)) as [->|Hoa]; [|exists co; by rewrite Hold]. exists c'. split; [done|]. apply Hres. rewrite Ha in Hco. by injection Hco as <-. }
    destruct Ho as (co' & Hco' & Hrco'). exists co', i. split_and!; [done|done|].
    destruct Hcase as [(cp & Hcp & Hfcp)|(H1 & H2 & H3)]; [|right; split_and!; eauto].
    destruct (decide (p = a)) as [->|Hpa]; [|left; exists cp; by rewrite Hold].
    right. rewrite Ha in Hcp. injection Hcp as <-. destruct (Hck i outer Hfcp) as [H1 H2]. split_and!; eauto.
  - intros x cx i Hx Hrc He Hrs. apply Hrx. destruct (decide (x = a)) as [->|Hxa]; [rewrite Hnew in Hx; injection Hx as <-; by apply Hfut|].
    rewrite Hold in Hx by done. by apply (v_fut _ _ _ Hi x cx).
  - intros x cx i Hx Hfx Hrc Hrs Hne. destruct (decide (x = a)) as [->|Hxa]; [rewrite Hnew in Hx; injection Hx as <-; by rewrite Hr in Hrc|].
    rewrite Hold in Hx by done. destruct (v_outer _ _ _ Hi x cx i Hx Hfx Hrc Hrs) as (d & cd & p & Hd & Hfd); [destruct Hor as [(-> & _)|(-> & _)]; congruence|].
    destruct (decide (d = a)) as [->|Hda]; [|exists d, cd, p; by rewrite Hold].
    exfalso. rewrite Ha in Hd. injection Hd as <-. destruct (Hfn p x Hfd) as (cx' & Hx' & Hr'). rewrite Hx in Hx'. injection Hx' as <-. by rewrite Hrc in Hr'.
Qed.

(** ** Running *)

Lemma list_delete_split (l : list nat) i : list_delete i l = firstn i l ++ drop (S i) l.
Proof. apply (delete_take_drop l i). Qed.
Lemma occ_delete x (l : list nat) i a : l !! i = Some a -> occ x (list_delete i l) + occ x [a] = occ x l.
Proof.
  intros Hi. rewrite <- (take_drop_middle l i a Hi) at 2. rewrite list_delete_split, !occ_app, (occ_cons x a (drop (S i) l)). lia.
Qed.
Lemma in_delete (x : nat) (l : list nat) i : x ∈ list_delete i l -> x ∈ l.
Proof. rewrite list_delete_split, elem_of_app. intros [H|H]; [by eapply subseteq_take|by eapply subseteq_drop]. Qed.
Lemma inv_take G s i a : inv None G s -> pool s !! i = Some a -> inv (Some a) G (unpool i s) /\
  exists c b, heap s !! a = Some c /\ function c = Some b /\ forall p, parent b = Some p -> ready_at s p.
Proof.
  intros Hi Ha. assert (Hin : a ∈ pool s) by by eapply list_elem_of_lookup_2. pose proof (v_occ _ _ _ Hi a) as Ho. apply occ_in in Hin as Hpos.
  destruct (heap s !! a) as [c|] eqn:Hc; [|lia]. destruct (function c) as [b|] eqn:Hf; [|lia]. rewrite decide_False in Ho by done. split.
  - destruct Hi as [Vlen Vcell Vbody Vocc Vthen Vwait Vpool Vcheck Vfin Vfut Vout]. constructor; try done.
    + intros x cx gx Hx Hg _. by apply (Vcell x).
    + intros x. cbn [unpool pool heap]. pose proof (occ_delete x (pool s) i a Ha) as Hd. specialize (Vocc x). cbn [heap] in *.
      destruct (decide (x = a)) as [->|Hxa].
      * rewrite Hc, Hf, decide_True by done.
        replace (occ a [a]) with 1 in Hd; [lia|]. unfold occ. cbn. by destruct (Nat.eq_dec a a).
      * replace (occ x [a]) with 0 in Hd by (unfold occ; cbn; by destruct (Nat.eq_dec a x)).
        destruct (heap s !! x) as [cx|]; [|lia]. destruct (function cx); [|lia]. rewrite decide_False by congruence. rewrite decide_False in Vocc by congruence. lia.
    + intros x cx bx p Hx. apply in_delete in Hx. by apply Vpool.
    + intros x cx j Hx Hfx Hr Hrs _. by apply (Vout x cx j).
  - exists c, b. split_and!; [done|done|]. intros p Hp. by apply (v_pool _ _ _ Hi a c b).
Qed.

Lemma get_ok act G s p o r : inv act G s -> ready_at s p -> act <> Some p -> G !! p = Some (mk_ghost KVal o r) -> get p s = Some o.
Proof.
  intros Hi (c & Hc & Hr) Hne Hg. unfold get. rewrite Hc. cbn. rewrite Hr. pose proof (v_cell _ _ _ Hi p c _ Hc Hg Hne) as Hok. unfold cell_ok in Hok.
  destruct (function c); [destruct Hok as (Hr' & _); by rewrite Hr in Hr'|]. by destruct Hok.
Qed.
Lemma outer_ok act G s a c o r i : inv act G s -> heap s !! a = Some c -> G !! a = Some (mk_ghost KOuter o r) -> act <> Some a -> result c = Some (RFut i) ->
  function c = None /\ forall x, exception c = Some x -> o = inr x.
Proof.
  intros Hi Hc Hg Hne Hr. pose proof (v_cell _ _ _ Hi a c _ Hc Hg Hne) as Hok. unfold cell_ok in Hok.
  destruct (function c); [destruct Hok as (_ & Hr' & _); by rewrite Hr in Hr'|]. split; [done|]. intros x Hx. cbn in Hok. rewrite Hx in Hok. by destruct Hok.
Qed.

Lemma finish_store a f c (s : store) : heap s !! a = Some c -> then_ (f c) = then_ c ->
  update a reset_f (proceed a (update a f s)) = mk_store (<[a := reset_f (set_ready (f c))]> (heap s)) (pool s ++ then_ c).
Proof.
  intros Ha Ht. unfold proceed, update. cbn. rewrite list_lookup_alter_eq, Ha. cbn. rewrite Ht. f_equal.
  pose proof (lookup_lt_Some _ _ _ Ha) as Hlt. rewrite (alter_at f a _ c Ha), (alter_at set_ready a _ (f c)) by by apply list_lookup_insert_eq.
  rewrite list_insert_insert_eq. rewrite (alter_at reset_f a _ (set_ready (f c))) by by apply list_lookup_insert_eq. by rewrite list_insert_insert_eq.
Qed.
Lemma proceed_store a c (s : store) : heap s !! a = Some c -> proceed a s = mk_store (<[a := set_ready c]> (heap s)) (pool s ++ then_ c).
Proof. intros Ha. unfold proceed. rewrite Ha. by rewrite (alter_at set_ready a _ c Ha). Qed.
Lemma proceed_update a f c (s : store) : heap s !! a = Some c -> then_ (f c) = then_ c ->
  proceed a (update a f s) = mk_store (<[a := set_ready (f c)]> (heap s)) (pool s ++ then_ c).
Proof.
  intros Ha Ht. unfold proceed, update. cbn. rewrite list_lookup_alter_eq, Ha. cbn. rewrite Ht. f_equal.
  rewrite (alter_at f a _ c Ha), (alter_at set_ready a _ (f c)); [by rewrite list_insert_insert_eq|]. apply list_lookup_insert_eq. by eapply lookup_lt_Some.
Qed.

(** The task being run ends with a value or an exception. *)
Lemma inv_resolve G s a c g o : inv (Some a) G s -> heap s !! a = Some c -> G !! a = Some g -> result c = None -> exception c = None ->
  kind_of g = KVal /\ den g = o \/ kind_of g = KUnit \/ kind_of g = KOuter /\ (exists x, o = inr x /\ den g = inr x) ->
  (forall i outer, function c = Some (BCheck i outer) -> ready_at s i /\ forall x r, G !! outer = Some (mk_ghost KOuter (inr x) r) -> ready_at s outer) ->
  (forall p outer, function c = Some (BFinish p outer) -> ready_at s outer) ->
  let s' := update a reset_f (resolve a o s) in inv None G s' /\ tasks_left G s' + pot G c = tasks_left G s /\ (forall x, ready_at s x -> ready_at s' x).
Proof.
  intros Hi Ha Hg Hr He Hk Hck Hfn. unfold resolve. rewrite (finish_store a _ c) by (done || by destruct o).
  destruct (inv_settle (Some a) None G s a c (reset_f (set_ready ((match o with inl v => set_result (RVal v) | inr x => set_exception x end) c))) g Hi Ha Hg)
    as (H1 & H2 & H3 & _); try done; [..|by right| |].
  - unfold cell_ok. destruct Hk as [[-> <-]|[->|[-> (x & -> & Hx)]]]; [|by destruct o|by cbn].
    destruct (den g) as [v|x]; cbn; unfold held; cbn; by rewrite ?He.
  - intros i H. by rewrite Hr in H.
  - intros i _ Hrs. destruct o; cbn in Hrs; [done|by rewrite Hr in Hrs].
Qed.

(** The task being run answers with a future: the outer state waits for two tasks. *)
Lemma inv_result G s a c r : inv (Some a) G s -> heap s !! a = Some c -> result c = None -> ready c = false -> is_Some (function c) ->
  let s' := update a (set_result r) s in inv (Some a) G s' /\ tasks_left G s' = tasks_left G s /\
  (forall x, ready_at s x -> ready_at s' x) /\ heap s' !! a = Some (set_result r c) /\ length (heap s') = length (heap s).
Proof.
  intros Hi Ha Hr Hn Hf s'. pose proof (lookup_lt_Some _ _ _ Ha) as Hlt.
  assert (Hheap : heap s' = <[a := set_result r c]> (heap s)) by (apply (alter_at _ _ _ _ Ha)).
  assert (Hnew : heap s' !! a = Some (set_result r c)) by (rewrite Hheap; by apply list_lookup_insert_eq).
  assert (Hold : forall x, x <> a -> heap s' !! x = heap s !! x) by (intros x Hx; rewrite Hheap; by apply list_lookup_insert_ne).
  assert (Hinv : forall x cx, heap s' !! x = Some cx -> exists c0, heap s !! x = Some c0 /\ function cx = function c0 /\ then_ cx = then_ c0 /\
    ready cx = ready c0 /\ exception cx = exception c0 /\ (x <> a -> cx = c0)).
  { intros x cx Hx. destruct (decide (x = a)) as [->|Hxa]; [rewrite Hnew in Hx; injection Hx as <-; by exists c|].
    rewrite Hold in Hx by done. exists cx. by split_and!. }
  assert (Hinv' : forall x c0, heap s !! x = Some c0 -> exists cx, heap s' !! x = Some cx /\ function cx = function c0 /\ ready cx = ready c0 /\
    forall i, result c0 = Some (RFut i) -> result cx = Some (RFut i)).
  { intros x c0 Hx. destruct (decide (x = a)) as [->|Hxa]; [|exists c0; by rewrite Hold]. rewrite Ha in Hx. injection Hx as <-.
    exists (set_result r c). split_and!; [done..|]. intros i Hi'. by rewrite Hr in Hi'. }
  assert (Hrx : forall x, ready_at s x -> ready_at s' x).
  { intros x (cx & Hx & Hrx). destruct (Hinv' x cx Hx) as (cy & Hy & _ & Hry & _). exists cy. by rewrite Hry. }
  split; [|split_and!; [|done|done|by rewrite Hheap, length_insert]].
  2: { unfold tasks_left. rewrite Hheap. pose proof (sum_with_insert (pot G) (heap s) a c (set_result r c) Ha) as H.
    change (pot G (set_result r c)) with (pot G c) in H. lia. }
  constructor.
  - rewrite Hheap, length_insert. by apply (v_len _ _ _ Hi).
  - intros x cx gx Hx Hg Hne. rewrite Hold in Hx by congruence. by apply (v_cell _ _ _ Hi x).
  - intros x cx b gx Hx Hfx Hg. destruct (Hinv x cx Hx) as (c0 & H0 & Hf0 & _). rewrite Hf0 in Hfx. by apply (v_body _ _ _ Hi x c0).
  - intros x. pose proof (v_occ _ _ _ Hi x) as Ho. pose proof (occs_insert x then_ (heap s) a c (set_result r c) Ha) as Hins. cbn in Hins. rewrite <- Hheap in Hins.
    change (pool s') with (pool s). replace (occs x then_ (heap s')) with (occs x then_ (heap s)) by lia. rewrite Ho.
    destruct (decide (x = a)) as [->|Hxa]; [by rewrite Ha, Hnew|by rewrite Hold].
  - intros x cx Hx Hrc. destruct (Hinv x cx Hx) as (c0 & H0 & _ & Ht & Hr0 & _). rewrite Ht. rewrite Hr0 in Hrc. by apply (v_then _ _ _ Hi x).
  - intros p cp x Hp Hin. destruct (Hinv p cp Hp) as (c0 & H0 & _ & Ht & _). rewrite Ht in Hin.
    destruct (v_wait _ _ _ Hi p c0 x H0 Hin) as (cx & b & Hx & Hfx & Hpar). destruct (Hinv' x cx Hx) as (cy & Hy & Hfy & _). exists cy, b. by rewrite Hfy.
  - intros x cx b p Hin Hx Hfx Hpar. destruct (Hinv x cx Hx) as (c0 & H0 & Hf0 & _). rewrite Hf0 in Hfx. by apply Hrx, (v_pool _ _ _ Hi x c0 b).
  - intros x cx p outer Hx Hfx. destruct (Hinv x cx Hx) as (c0 & H0 & Hf0 & _). rewrite Hf0 in Hfx.
    destruct (v_check _ _ _ Hi x c0 p outer H0 Hfx) as (co & Hco & Hrco). destruct (Hinv' outer co Hco) as (cy & Hy & _ & _ & Hry). exists cy. auto.
  - intros x cx p outer Hx Hfx. destruct (Hinv x cx Hx) as (c0 & H0 & Hf0 & _). rewrite Hf0 in Hfx.
    destruct (v_finish _ _ _ Hi x c0 p outer H0 Hfx) as (co & i & Hco & Hrco & Hcase). destruct (Hinv' outer co Hco) as (cy & Hy & _ & _ & Hry).
    exists cy, i. split_and!; [done|auto|]. destruct Hcase as [(cp & Hcp & Hfcp)|(H1 & H2 & H3)]; [left|right; split_and!; eauto].
    destruct (Hinv' p cp Hcp) as (cz & Hz & Hfz & _). exists cz. by rewrite Hfz.
  - intros x cx i Hx Hrc He Hrs. destruct (decide (x = a)) as [->|Hxa]; [rewrite Hnew in Hx; injection Hx as <-; cbn in Hrc; by rewrite Hn in Hrc|].
    rewrite Hold in Hx by done. by apply Hrx, (v_fut _ _ _ Hi x cx).
  - intros x cx i Hx Hfx Hrc Hrs Hne. rewrite Hold in Hx by congruence. destruct (v_outer _ _ _ Hi x cx i Hx Hfx Hrc Hrs Hne) as (d & cd & p & Hd & Hfd).
    destruct (Hinv' d cd Hd) as (cz & Hz & Hfz & _). exists d, cz, p. by rewrite Hfz.
Qed.

Lemma inv_release G s a c o r i ri : inv (Some a) G s -> heap s !! a = Some c -> G !! a = Some (mk_ghost KOuter o r) ->
  ready c = false -> exception c = None -> result c = Some (RFut i) -> G !! i = Some (mk_ghost KVal o ri) ->
  (exists d cd p, heap s !! d = Some cd /\ function cd = Some (BFinish p a)) ->
  (forall q outer, function c <> Some (BCheck q outer) /\ function c <> Some (BFinish q outer)) ->
  let s' := update a reset_f s in inv None G s' /\ tasks_left G s' + pot G c = tasks_left G s /\ (forall x, ready_at s x -> ready_at s' x).
Proof.
  intros Hi Ha Hg Hn He Hres Hgi (d & cd & pd & Hd & Hfd) Hnf s'. pose proof (lookup_lt_Some _ _ _ Ha) as Hlt.
  assert (Hheap : heap s' = <[a := reset_f c]> (heap s)) by (apply (alter_at _ _ _ _ Ha)).
  assert (Hnew : heap s' !! a = Some (reset_f c)) by (rewrite Hheap; by apply list_lookup_insert_eq).
  assert (Hold : forall x, x <> a -> heap s' !! x = heap s !! x) by (intros x Hx; rewrite Hheap; by apply list_lookup_insert_ne).
  assert (Hinv : forall x cx, heap s' !! x = Some cx -> exists c0, heap s !! x = Some c0 /\ then_ cx = then_ c0 /\ ready cx = ready c0 /\
    exception cx = exception c0 /\ result cx = result c0 /\ forall b, function cx = Some b -> function c0 = Some b /\ x <> a).
  { intros x cx Hx. destruct (decide (x = a)) as [->|Hxa]; [rewrite Hnew in Hx; injection Hx as <-; by exists c|].
    rewrite Hold in Hx by done. exists cx. by split_and!. }
  assert (Hinv' : forall x c0, heap s !! x = Some c0 -> exists cx, heap s' !! x = Some cx /\ ready cx = ready c0 /\ result cx = result c0 /\
    (x <> a -> cx = c0)).
  { intros x c0 Hx. destruct (decide (x = a)) as [->|Hxa]; [|exists c0; by rewrite Hold]. rewrite Ha in Hx. injection Hx as <-. by exists (reset_f c). }
  assert (Hrx : forall x, ready_at s x -> ready_at s' x).
  { intros x (cx & Hx & Hrx). destruct (Hinv' x cx Hx) as (cy & Hy & Hry & _). exists cy. by rewrite Hry. }
  destruct (nowhere (Some a) G s a c Hi Ha (or_introl eq_refl)) as [Hnp Hnt].
  assert (Hda : d <> a) by (intros ->; rewrite Ha in Hd; injection Hd as <-; by destruct (Hnf pd a)).
  split; [|split_and!; [|done]].
  2: { unfold tasks_left. rewrite Hheap. pose proof (sum_with_insert (pot G) (heap s) a c (reset_f c) Ha) as H.
    change (pot G (reset_f c)) with 0 in H. lia. }
  constructor.
  - rewrite Hheap, length_insert. by apply (v_len _ _ _ Hi).
  - intros x cx gx Hx Hgx _. destruct (decide (x = a)) as [->|Hxa]; [|rewrite Hold in Hx by done; apply (v_cell _ _ _ Hi x); congruence].
    rewrite Hnew in Hx. injection Hx as <-. rewrite Hg in Hgx. injection Hgx as <-. unfold cell_ok. cbn. rewrite He. by exists i, ri.
  - intros x cx b gx Hx Hfx Hgx. destruct (Hinv x cx Hx) as (c0 & H0 & _ & _ & _ & _ & Hf0). by apply (v_body _ _ _ Hi x c0), Hgx; [done|apply Hf0].
  - intros x. pose proof (v_occ _ _ _ Hi x) as Ho. pose proof (occs_insert x then_ (heap s) a c (reset_f c) Ha) as Hins. cbn in Hins. rewrite <- Hheap in Hins.
    change (pool s') with (pool s). replace (occs x then_ (heap s')) with (occs x then_ (heap s)) by lia. rewrite Ho.
    destruct (decide (x = a)) as [->|Hxa].
    + rewrite Ha, Hnew. cbn. destruct (function c); [by rewrite decide_True|done].
    + rewrite Hold by done. destruct (heap s !! x) as [cx|]; [|done]. destruct (function cx); [|done]. rewrite !decide_False by congruence. done.
  - intros x cx Hx Hrc. destruct (Hinv x cx Hx) as (c0 & H0 & Ht & Hr0 & _). rewrite Ht. rewrite Hr0 in Hrc. by apply (v_then _ _ _ Hi x).
  - intros p cp x Hp Hin. destruct (Hinv p cp Hp) as (c0 & H0 & Ht & _). rewrite Ht in Hin.
    destruct (v_wait _ _ _ Hi p c0 x H0 Hin) as (cx & b & Hx & Hfx & Hpar). exists cx, b. rewrite Hold; [done|]. intros ->. by apply (Hnt p c0).
  - intros x cx b p Hin Hx Hfx Hpar. destruct (Hinv x cx Hx) as (c0 & H0 & _ & _ & _ & _ & Hf0). destruct (Hf0 b Hfx) as [Hf _]. by apply Hrx, (v_pool _ _ _ Hi x c0 b).
  - intros x cx p outer Hx Hfx. destruct (Hinv x cx Hx) as (c0 & H0 & _ & _ & _ & _ & Hf0). destruct (Hf0 _ Hfx) as [Hf _].
    destruct (v_check _ _ _ Hi x c0 p outer H0 Hf) as (co & Hco & Hrco). destruct (Hinv' outer co Hco) as (cy & Hy & _ & Hry & _). exists cy. by rewrite Hry.
  - intros x cx p outer Hx Hfx. destruct (Hinv x cx Hx) as (c0 & H0 & _ & _ & _ & _ & Hf0). destruct (Hf0 _ Hfx) as [Hf _].
    destruct (v_finish _ _ _ Hi x c0 p outer H0 Hf) as (co & j & Hco & Hrco & Hcase). destruct (Hinv' outer co Hco) as (cy & Hy & _ & Hry & _).
    exists cy, j. rewrite Hry. split_and!; [done|done|]. destruct Hcase as [(cp & Hcp & Hfcp)|(H1 & H2 & H3)]; [left|right; split_and!; eauto].
    exists cp. rewrite Hold; [done|]. intros ->. rewrite Ha in Hcp. injection Hcp as <-. by destruct (Hnf j outer).
  - intros x cx j Hx Hrc Hex Hrs. destruct (Hinv x cx Hx) as (c0 & H0 & _ & Hr0 & He0 & Hs0 & _). rewrite Hr0 in Hrc. rewrite He0 in Hex. rewrite Hs0 in Hrs.
    by apply Hrx, (v_fut _ _ _ Hi x c0).
  - intros x cx j Hx Hfx Hrc Hrs _. destruct (decide (x = a)) as [->|Hxa]; [exists d, cd, pd; by rewrite Hold|]. rewrite Hold in Hx by done.
    destruct (v_outer _ _ _ Hi x cx j Hx Hfx Hrc Hrs ltac:(congruence)) as (e & ce & p & Hd' & Hfd').
    exists e, ce, p. rewrite Hold; [done|]. intros ->. rewrite Ha in Hd'. injection Hd' as <-. by destruct (Hnf p x).
Qed.

Lemma den_at_lookup G p g : G !! p = Some g -> den_at G p = den g.
Proof. intros H. unfold den_at. by rewrite H. Qed.
Lemma ready_not_act act G s a c p : inv act G s -> heap s !! a = Some c -> ready c = false -> ready_at s p -> Some a <> Some p.
Proof. intros _ Ha Hr (cp & Hp & Hrp) Heq. injection Heq as <-. rewrite Ha in Hp. injection Hp as <-. by rewrite Hr in Hrp. Qed.

Lemma act_ne (s : store) a c : heap s !! a = Some c -> Some a <> Some (length (heap s)).
Proof. intros H%lookup_lt_Some Heq. injection Heq as Heq. lia. Qed.

(** One case for each function; [s] is without the task. *)
Lemma run_recover_future G s a c g p env t k : inv (Some a) G s -> heap s !! a = Some c -> G !! a = Some g ->
  ready c = false -> result c = None -> exception c = None -> function c = Some (BRecoverF p env t k) -> ready_at s p ->
  exists s' G', run a s = Some s' /\ inv None (G ++ G') s' /\ tasks_left (G ++ G') s' + 1 = tasks_left G s.
Proof.
  intros Hi Ha Hg Hr Hres Hex Hf Hp. destruct (v_body _ _ _ Hi a c _ g Ha Hf Hg) as (Hk & o & r & Hgp & Hlt & He & Ht).
  unfold FutureChains.run. rewrite Ha. cbn [mbind option_bind]. rewrite Hf. cbn [run_body].
  rewrite (get_ok _ _ _ _ _ _ Hi Hp (ready_not_act _ _ _ _ _ _ Hi Ha Hr Hp) Hgp). cbn [mbind option_bind].
  assert (Hpot : pot G c = S match t o with Some _ => 0 | None => cost (rho_of G env) (k o) + 2 end).
  { unfold pot. rewrite Hf, (den_at_lookup _ _ _ Hgp). done. }
  destruct (t o) as [x|].
  - destruct (inv_resolve G s a c g (inr x) Hi Ha Hg Hres Hex) as (H1 & H2 & _); [right; right; eauto|by rewrite Hf..|].
    eexists _, []. rewrite app_nil_r. cbn [mbind option_bind]. split_and!; [done|exact H1|lia].
  - destruct Ht as (Hsc & Hden & Hrk). assert (Hact : forall x, Some a = Some x -> x < length (heap s)) by (intros x Hx; injection Hx as <-; by eapply lookup_lt_Some).
    destruct (inv_build (Some a) env (k o) G s Hi Hact He Hsc) as (i & s1 & G1 & Hb & Hi1 & Hm1 & Hgi & Hl1). rewrite Hb. cbn [mbind option_bind].
    destruct (Hm1 a c Ha) as [l1 Ha1]. pose proof (lookup_app_l_Some _ G1 _ _ Hg) as Hg1.
    destruct (inv_result (G ++ G1) s1 a _ (RFut i) Hi1 Ha1 Hres Hr ltac:(by cbn; rewrite Hf)) as (Hi2 & Hl2 & Hr2 & Ha2 & Hlen2).
    set (s2 := update a (set_result (RFut i)) s1) in *.
    pose proof (act_ne s2 a _ Ha2) as Hact2.
    set (g3 := mk_ghost KVal (check (den g)) (S (height (rho_of G env) (hs_of G env) (k o)))).
    destruct g as [kg og rg]. cbn in Hk. subst kg. cbn [den rank] in *.
    destruct (inv_recover (Some a) (G ++ G1) s2 i (BCheck i a) true g3 Hi2 (in_heap _ _ _ _ _ Hi2 Hgi) Hact2 eq_refl) as (s3 & Hs3 & Hi3 & Hm3 & Hc3 & Hl3).
    { split; [done|]. exists og, (height (rho_of G env) (hs_of G env) (k o)), rg. rewrite Hgi. unfold ghost_of. rewrite <- Hden. split_and!; [done|done|cbn; lia|done]. }
    { intros q outer H. injection H as <- <-. eexists. split; [exact Ha2|done]. }
    { intros q outer H. discriminate H. }
    rewrite Hs3. destruct (Hm3 a _ Ha2) as [l3 Ha3].
    pose proof (act_ne s3 a _ Ha3) as Hact3.
    pose proof (at_new _ _ _ g3 Hi2) as Hg3.
    set (g4 := mk_ghost KUnit og (S (S (height (rho_of G env) (hs_of G env) (k o))))).
    destruct (inv_recover (Some a) ((G ++ G1) ++ [g3]) s3 (length (heap s2)) (BFinish (length (heap s2)) a) true g4 Hi3 (in_heap _ _ _ _ _ Hi3 Hg3) Hact3 eq_refl)
      as (s4 & Hs4 & Hi4 & Hm4 & Hc4 & Hl4).
    { split; [done|]. exists og, (S (height (rho_of G env) (hs_of G env) (k o))), rg. rewrite Hg3. split_and!; [done| |cbn; lia|cbn; lia].
      by apply lookup_app_l_Some. }
    { intros q outer H. discriminate H. }
    { intros q outer H. injection H as <- <-. eexists _, i, _. split_and!; [exact Ha3|done|exact Hc3|done]. }
    rewrite Hs4. cbn [mbind option_bind]. destruct (Hm4 a _ Ha3) as [l4 Ha4].
    destruct (inv_release (((G ++ G1) ++ [g3]) ++ [g4]) s4 a _ og rg i (height (rho_of G env) (hs_of G env) (k o)) Hi4 Ha4) as (H1 & H2 & _); try done.
    { do 2 apply lookup_app_l_Some. exact Hg1. }
    { rewrite Hden. do 2 apply lookup_app_l_Some. exact Hgi. }
    { exists (length (heap s3)), (new_cell (BFinish (length (heap s2)) a) true), (length (heap s2)). by split. }
    { intros q outer. cbn. by rewrite Hf. }
    eexists _, (G1 ++ [g3; g4]). assert (Hassoc : G ++ G1 ++ [g3; g4] = ((G ++ G1) ++ [g3]) ++ [g4]) by by rewrite <- !app_assoc.
    rewrite Hassoc. split_and!; [done|exact H1|].
    assert (Hpot4 : pot ((((G ++ G1) ++ [g3]) ++ [g4])) (set_then (then_ (set_then (then_ (set_result (RFut i) (set_then (then_ c ++ l1) c)) ++ l3) (set_result (RFut i) (set_then (then_ c ++ l1) c))) ++ l4)
      (set_then (then_ (set_result (RFut i) (set_then (then_ c ++ l1) c)) ++ l3) (set_result (RFut i) (set_then (then_ c ++ l1) c)))) = pot G c).
    { rewrite <- !app_assoc. apply (pot_ext G _ (mk_ghost KOuter og rg) c). intros b Hfb. by apply (v_body _ _ _ Hi a c). }
    rewrite Hpot4 in H2. cbn [pot new_cell function] in Hl3, Hl4. rewrite Hl4, Hl3, Hl2, Hl1 in H2. lia.
Qed.

Lemma run_check G s a c g p outer : inv (Some a) G s -> heap s !! a = Some c -> G !! a = Some g ->
  ready c = false -> result c = None -> exception c = None -> function c = Some (BCheck p outer) -> ready_at s p ->
  exists s', run a s = Some s' /\ inv None G s' /\ tasks_left G s' + 1 = tasks_left G s.
Proof.
  intros Hi Ha Hg Hr Hres Hex Hf Hp. destruct (v_body _ _ _ Hi a c _ g Ha Hf Hg) as (Hk & o & r & r' & Hgp & Hgo & Hlt & Hden).
  unfold FutureChains.run. rewrite Ha. cbn [mbind option_bind]. rewrite Hf. cbn [run_body].
  rewrite (get_ok _ _ _ _ _ _ Hi Hp (ready_not_act _ _ _ _ _ _ Hi Ha Hr Hp) Hgp). cbn [mbind option_bind].
  assert (Hpot : pot G c = 1) by (unfold pot; by rewrite Hf).
  destruct (v_check _ _ _ Hi a c p outer Ha Hf) as (co & Hco & Hrco).
  assert (Hao : a <> outer) by (intros <-; rewrite Hg in Hgo; injection Hgo as ->; by cbn in Hk).
  assert (Hao' : Some a <> Some outer) by congruence.
  destruct (outer_ok _ _ _ _ _ _ _ _ Hi Hco Hgo Hao' Hrco) as [Hfo Hxo]. destruct o as [v|x].
  - destruct (inv_resolve G s a c g (inl v) Hi Ha Hg Hres Hex) as (H1 & H2 & _); [by left| |by rewrite Hf|].
    { intros i outer' H. rewrite Hf in H. injection H as <- <-. split; [done|]. intros x r'' Hgo'. rewrite Hgo in Hgo'. by injection Hgo'. }
    eexists. cbn [mbind option_bind]. split_and!; [done|exact H1|lia].
  - rewrite (proceed_update outer (set_exception x) co s Hco) by done.
    destruct (inv_settle (Some a) (Some a) G s outer co (set_ready (set_exception x co)) _ Hi Hco Hgo) as (H1 & H2 & H3 & H4); try done; try (by rewrite Hfo).
    { unfold cell_ok. cbn. by rewrite Hfo. }
    { by left. }
    set (s1 := mk_store (<[outer := set_ready (set_exception x co)]> (heap s)) (pool s ++ then_ co)) in *.
    assert (Ha1 : heap s1 !! a = Some c) by (cbn; by rewrite list_lookup_insert_ne).
    destruct (inv_resolve G s1 a c g (inr reduction_failed) H1 Ha1 Hg Hres Hex) as (H5 & H6 & _); [by left| |by rewrite Hf|].
    { intros i outer' H. rewrite Hf in H. injection H as <- <-. split; [by apply H3|done]. }
    eexists. cbn [mbind option_bind]. split_and!; [done|exact H5|]. unfold pot at 1 in H2. rewrite Hfo in H2. lia.
Qed.
Lemma run_finish G s a c g p outer : inv (Some a) G s -> heap s !! a = Some c -> G !! a = Some g ->
  ready c = false -> result c = None -> exception c = None -> function c = Some (BFinish p outer) -> ready_at s p ->
  exists s', run a s = Some s' /\ inv None G s' /\ tasks_left G s' + 1 = tasks_left G s.
Proof.
  intros Hi Ha Hg Hr Hres Hex Hf Hp. destruct (v_body _ _ _ Hi a c _ g Ha Hf Hg) as (Hk & o & r & r' & Hgp & Hgo & Hlt).
  unfold FutureChains.run. rewrite Ha. cbn [mbind option_bind]. rewrite Hf. cbn [run_body].
  pose proof (ready_not_act _ _ _ _ _ _ Hi Ha Hr Hp) as Hnp. rewrite (get_ok _ _ _ _ _ _ Hi Hp Hnp Hgp). cbn [mbind option_bind].
  assert (Hpot : pot G c = 1) by (unfold pot; by rewrite Hf).
  destruct (v_finish _ _ _ Hi a c p outer Ha Hf) as (co & i & Hco & Hrco & Hcase).
  assert (Hri : ready_at s i /\ forall x r, G !! outer = Some (mk_ghost KOuter (inr x) r) -> ready_at s outer).
  { destruct Hcase as [(cp & Hcp & Hfcp)|(_ & H2 & H3)]; [|done]. exfalso. destruct Hp as (cp' & Hcp' & Hrp). rewrite Hcp in Hcp'. injection Hcp' as <-.
    pose proof (v_cell _ _ _ Hi p cp _ Hcp Hgp Hnp) as Hok. unfold cell_ok in Hok. rewrite Hfcp in Hok. destruct Hok as (Hrp' & _). by rewrite Hrp in Hrp'. }
  destruct Hri as [Hri Hro].
  assert (Hao : a <> outer) by (intros <-; rewrite Hg in Hgo; injection Hgo as ->; by cbn in Hk).
  assert (Hao' : Some a <> Some outer) by congruence.
  destruct (outer_ok _ _ _ _ _ _ _ _ Hi Hco Hgo Hao' Hrco) as [Hfo Hxo]. destruct o as [v|x]; cbn [check].
  - rewrite (proceed_store outer co s Hco).
    pose proof (v_cell _ _ _ Hi outer co _ Hco Hgo Hao') as Hok. unfold cell_ok in Hok. rewrite Hfo in Hok. cbn in Hok.
    assert (Hno : exception co = None) by (destruct (exception co) as [y|] eqn:Hy; [by pose proof (Hxo y eq_refl)|done]). rewrite Hno in Hok.
    destruct (inv_settle (Some a) (Some a) G s outer co (set_ready co) _ Hi Hco Hgo) as (H1 & H2 & H3 & H4); try done; try (by rewrite Hfo).
    { unfold cell_ok. cbn. by rewrite Hfo, Hno. }
    { by left. }
    { intros j _ Hj. cbn in Hj. rewrite Hrco in Hj. by injection Hj as <-. }
    set (s1 := mk_store (<[outer := set_ready co]> (heap s)) (pool s ++ then_ co)) in *.
    assert (Ha1 : heap s1 !! a = Some c) by (cbn; by rewrite list_lookup_insert_ne).
    cbn [mbind option_bind]. rewrite (finish_store a (set_result RUnit) c s1 Ha1) by done.
    destruct (inv_settle (Some a) None G s1 a c (reset_f (set_ready (set_result RUnit c))) g H1 Ha1 Hg) as (H5 & H6 & H7 & H8); try done.
    { unfold cell_ok. cbn. by rewrite Hk. }
    { by right. }
    { intros j H. by rewrite Hres in H. }
    { by rewrite Hf. }
    { intros q outer' H. rewrite Hf in H. by injection H as <- <-. }
    eexists. cbn [mbind option_bind]. split_and!; [done|exact H5|]. unfold pot at 1 in H2. rewrite Hfo in H2. lia.
  - destruct (inv_resolve G s a c g (inr reduction_failed) Hi Ha Hg Hres Hex) as (H1 & H2 & _); [by right; left|by rewrite Hf| |].
    { intros q outer' H. rewrite Hf in H. injection H as <- <-. by apply (Hro x r'). }
    eexists. cbn [mbind option_bind]. split_and!; [done|exact H1|lia].
Qed.
Lemma inv_run G s i a : inv None G s -> pool s !! i = Some a ->
  exists s' G', run a (unpool i s) = Some s' /\ inv None (G ++ G') s' /\ tasks_left (G ++ G') s' + 1 = tasks_left G s.
Proof.
  intros Hi0 Hpa. destruct (inv_take G s i a Hi0 Hpa) as (Hi & c & b & Ha & Hf & Hpar).
  destruct (lookup_lt_is_Some_2 G a) as [g Hg]; [rewrite <- (v_len _ _ _ Hi0); by eapply lookup_lt_Some|].
  pose proof (v_cell _ _ _ Hi0 a c g Ha Hg ltac:(done)) as Hok. unfold cell_ok in Hok. rewrite Hf in Hok. destruct Hok as (Hr & Hres & Hex & Hb).
  assert (Hpl : forall p, parent b = Some p -> ready_at (unpool i s) p) by done. change (heap s) with (heap (unpool i s)) in Ha.
  change (tasks_left G s) with (tasks_left G (unpool i s)). clear Hi0 Hpa Hpar. revert Hi Ha Hpl. generalize (unpool i s). clear s. intros s Hi Ha Hpl.
  assert (Hsame : (exists s', run a s = Some s' /\ inv None G s' /\ tasks_left G s' + 1 = tasks_left G s) ->
    exists s' G', run a s = Some s' /\ inv None (G ++ G') s' /\ tasks_left (G ++ G') s' + 1 = tasks_left G s).
  { intros (s' & H). exists s', []. by rewrite app_nil_r. }
  assert (Hone : forall o, run a s = Some (update a reset_f (resolve a o s)) -> pot G c = 1 -> kind_of g = KVal -> den g = o ->
    (forall q outer, b <> BCheck q outer /\ b <> BFinish q outer) -> exists s', run a s = Some s' /\ inv None G s' /\ tasks_left G s' + 1 = tasks_left G s).
  { intros o Hrun Hpot Hk Hd Hnb. destruct (inv_resolve G s a c g o Hi Ha Hg Hres Hex) as (H1 & H2 & _); [by left|..].
    - intros q outer H. rewrite Hf in H. injection H as H. by destruct (Hnb q outer).
    - intros q outer H. rewrite Hf in H. injection H as H. by destruct (Hnb q outer).
    - eexists. split_and!; [exact Hrun|exact H1|lia]. }
  assert (Hrun : run a s = (s ← run_body reduction_failed a b s; Some (update a reset_f s))) by (unfold FutureChains.run; rewrite Ha; cbn; by rewrite Hf).
  destruct b as [o|p f|p env t k|p outer|p outer|p].
  - apply Hsame. destruct Hb as [Hk Hd]. apply (Hone o); [done|unfold pot; by rewrite Hf|done..].
  - apply Hsame. destruct Hb as (Hk & o & r & Hgp & _ & Hd). specialize (Hpl p eq_refl).
    apply (Hone (f o)); [|unfold pot; by rewrite Hf|done..]. rewrite Hrun. cbn [run_body].
    by rewrite (get_ok _ _ _ _ _ _ Hi Hpl (ready_not_act _ _ _ _ _ _ Hi Ha Hr Hpl) Hgp).
  - eapply run_recover_future; try done. by apply Hpl.
  - apply Hsame. eapply run_check; try done. by apply Hpl.
  - apply Hsame. eapply run_finish; try done. by apply Hpl.
  - apply Hsame. destruct Hb as (Hk & r & Hgp & Hlt). specialize (Hpl p eq_refl). pose proof (ready_not_act _ _ _ _ _ _ Hi Ha Hr Hpl) as Hnp.
    apply (Hone (den g)); [|unfold pot; by rewrite Hf|done..]. rewrite Hrun. cbn [run_body].
    destruct Hpl as (cp & Hcp & Hrp). rewrite Hcp. cbn [mbind option_bind]. rewrite Hrp.
    pose proof (v_cell _ _ _ Hi p cp _ Hcp Hgp Hnp) as Hok. unfold cell_ok in Hok. destruct (function cp); [destruct Hok as (Hrp' & _); by rewrite Hrp in Hrp'|].
    cbn in Hok. destruct (exception cp) as [x|] eqn:Hx; [destruct Hok as [_ ->]; done|]. destruct Hok as (j & rj & Hj & Hgj). rewrite Hj.
    pose proof (v_fut _ _ _ Hi p cp j Hcp Hrp Hx Hj) as Hrj. by rewrite (get_ok _ _ _ _ _ _ Hi Hrj (ready_not_act _ _ _ _ _ _ Hi Ha Hr Hrj) Hgj).
Qed.

(** ** The program *)

Abbreviation state := (@state V E).
Abbreviation step := (step reduction_failed).
Abbreviation eval_all := (@FutureChains.eval_all V E broken_promise).
Abbreviation cost_all := (@FutureChains.cost_all V E broken_promise).

Record sound (es : list expr) G (s : state) : Prop := mk_sound {
  s_inv : inv None G (mem s);
  s_handles : Forall (val_at G) (handles s);
  s_scoped : scoped_all (length (handles s)) (program s);
  s_eval : eval_all (rho_of G (handles s)) (program s) = eval_all [] es
}.
Definition steps_to_go G (s : state) : nat := tasks_left G (mem s) + cost_all (rho_of G (handles s)) (program s).

Lemma sound_start es : scoped_all 0 es -> sound es [] (start es).
Proof. intros Hs. by constructor; [constructor|..]. Qed.
Lemma client_ok es G s : sound es G s -> program s <> [] -> exists s' G', step_client s = Some s' /\ sound es G' s' /\ steps_to_go G' s' + 1 = steps_to_go G s.
Proof.
  intros [Hi Hh Hsc He] Hne. unfold step_client, steps_to_go. destruct (program s) as [|e l]; [done|]. destruct Hsc as [Hse Hsl].
  destruct (inv_build None (handles s) e G (mem s) Hi ltac:(done) Hh Hse) as (a & m & G' & Hb & Hi' & _ & Hg & Hl).
  rewrite Hb. cbn [mbind option_bind]. eexists _, (G ++ G'). split; [done|].
  assert (Hrho : rho_of (G ++ G') (handles s ++ [a]) = rho_of G (handles s) ++ [eval (rho_of G (handles s)) e]).
  { unfold rho_of at 1. rewrite fmap_app. cbn. rewrite Hg. f_equal. apply (rho_ext G G' _ Hh). }
  split.
  - constructor; cbn [mem handles program]; [done| | |].
    + apply Forall_app. split; [by apply Forall_val_ext|]. repeat constructor. by eexists _, _.
    + rewrite length_app. cbn. by rewrite Nat.add_1_r.
    + by rewrite Hrho, <- He.
  - cbn [mem handles program]. rewrite Hrho, Hl. cbn [FutureChains.cost_all]. lia.
Qed.
Lemma run_step_ok es G s i a : sound es G s -> pool (mem s) !! i = Some a ->
  exists s' G', step_run reduction_failed i s = Some s' /\ sound es G' s' /\ steps_to_go G' s' + 1 = steps_to_go G s.
Proof.
  intros [Hi Hh Hsc He] Ha. destruct (inv_run G (mem s) i a Hi Ha) as (m & G' & Hr & Hi' & Hl). unfold step_run. rewrite Ha. cbn [mbind option_bind].
  rewrite Hr. cbn [mbind option_bind]. eexists _, (G ++ G'). split; [done|]. destruct (rho_ext G G' _ Hh) as [Hrho _]. split.
  - constructor; cbn [mem handles program]; [done|by apply Forall_val_ext|done|by rewrite Hrho].
  - unfold steps_to_go. cbn [mem handles program]. rewrite Hrho. lia.
Qed.
Lemma step_ok es G s s' : sound es G s -> step s s' -> exists G', sound es G' s' /\ steps_to_go G' s' + 1 = steps_to_go G s.
Proof.
  intros Hs Hst. destruct Hst as [s s' H|i s s' H].
  - destruct (client_ok es G s Hs) as (s2 & G' & H2 & H3); [intros Hn; unfold step_client in H; by rewrite Hn in H|]. rewrite H in H2. injection H2 as ->. eauto.
  - destruct (pool (mem s) !! i) as [a|] eqn:Ha; [|unfold step_run in H; by rewrite Ha in H].
    destruct (run_step_ok es G s i a Hs Ha) as (s2 & G' & H2 & H3). rewrite H in H2. injection H2 as ->. eauto.
Qed.
Lemma sound_run es k s s' G : sound es G s -> nsteps step k s s' -> exists G', sound es G' s' /\ k + steps_to_go G' s' = steps_to_go G s.
Proof.
  intros Hs Hn. revert G Hs. induction Hn as [s|k s1 s2 s3 H12 _ IH]; intros G Hs; [by exists G|].
  destruct (step_ok es G s1 s2 Hs H12) as (G2 & Hs2 & Hl). destruct (IH G2 Hs2) as (G3 & Hs3 & Hl3). exists G3. split; [done|]. lia.
Qed.

(** Nothing is left waiting. *)
Lemma all_ready G s : inv None G s -> pool s = [] -> forall n a c g, heap s !! a = Some c -> G !! a = Some g -> rank g < n -> ready c = true /\ function c = None.
Proof.
  intros Hi Hp. induction n as [|n IH]; intros a c g Ha Hg Hn; [lia|].
  pose proof (v_cell _ _ _ Hi a c g Ha Hg ltac:(done)) as Hok. unfold cell_ok in Hok. destruct (function c) as [b|] eqn:Hf.
  - exfalso. destruct Hok as (Hr & _ & _ & Hb). pose proof (v_occ _ _ _ Hi a) as Ho. rewrite Hp, occ_nil, Ha, Hf in Ho. rewrite decide_False in Ho by done.
    destruct (occs_exists a then_ (heap s)) as (p & cp & Hcp & Hin); [lia|]. destruct (v_wait _ _ _ Hi p cp a Hcp Hin) as (c' & b' & Ha' & Hf' & Hpar).
    rewrite Ha in Ha'. injection Ha' as <-. rewrite Hf in Hf'. injection Hf' as <-.
    assert (Hgp : exists gp, G !! p = Some gp /\ rank gp < rank g).
    { destruct b; cbn in Hpar; try done; injection Hpar as ->; destruct Hb as [_ Hb];
        [destruct Hb as (o & r & ? & ? & _)|destruct Hb as (o & r & ? & ? & _)|destruct Hb as (o & r & r' & ? & _ & ? & _)
        |destruct Hb as (o & r & r' & ? & _ & ? & _)|destruct Hb as (r & ? & ?)]; eexists; (split; [done|done]). }
    destruct Hgp as (gp & Hgp & Hlt). destruct (IH p cp gp Hcp Hgp ltac:(lia)) as [Hrp _]. rewrite (v_then _ _ _ Hi p cp Hcp Hrp) in Hin. by apply not_elem_of_nil in Hin.
  - split; [|done]. destruct g as [[] o r]; cbn in Hok; [by destruct Hok| |done]. destruct (exception c) as [x|]; [by destruct Hok|].
    destruct Hok as (i & ri & Hres & Hgi). destruct (ready c) eqn:Hr; [done|exfalso].
    destruct (v_outer _ _ _ Hi a c i Ha Hf Hr Hres ltac:(done)) as (d & cd & p & Hd & Hfd).
    destruct (lookup_lt_is_Some_2 G d) as [gd Hgd]; [rewrite <- (v_len _ _ _ Hi); by eapply lookup_lt_Some|].
    destruct (v_body _ _ _ Hi d cd _ gd Hd Hfd Hgd) as (_ & o' & r1 & r2 & _ & Hg2 & Hlt). rewrite Hg in Hg2. injection Hg2 as <- <-.
    cbn in Hn. destruct (IH d cd gd Hd Hgd ltac:(lia)) as [_ Hfd']. by rewrite Hfd in Hfd'.
Qed.
Lemma eval_all_prefix es : forall rho j o, rho !! j = Some o -> eval_all rho es !! j = Some o.
Proof. induction es as [|e es IH]; intros rho j o Hj; [done|]. cbn. apply IH. by apply lookup_app_l_Some. Qed.
Lemma stopped es G s : sound es G s -> (forall s', ~ step s s') -> pool (mem s) = [] /\ program s = [].
Proof.
  intros Hs Hno. split.
  - destruct (pool (mem s)) as [|a l] eqn:Hp; [done|exfalso]. destruct (run_step_ok es G s 0 a Hs) as (s' & _ & H & _); [by rewrite Hp|].
    eapply Hno, (step_by_run _ 0), H.
  - destruct (program s) as [|e l] eqn:Hp; [done|exfalso]. destruct (client_ok es G s Hs) as (s' & _ & H & _); [by rewrite Hp|].
    by eapply Hno, step_by_client.
Qed.
Lemma handle_den es G s j a : sound es G s -> handles s !! j = Some a -> exists o r, G !! a = Some (mk_ghost KVal o r) /\ eval_all [] es !! j = Some o.
Proof.
  intros [Hi Hh _ He] Hj. destruct (Forall_lookup_1 _ _ _ _ Hh Hj) as (o & r & Hg). exists o, r. split; [done|].
  rewrite <- He. apply eval_all_prefix. unfold rho_of. by rewrite list_lookup_fmap, Hj; cbn; rewrite Hg.
Qed.

(** ** Properties *)

(** C5: futures built from [async], [make_ready_future], [then], [recover] and
    functions that return futures: in every state that can be reached, whatever
    order the tasks are run in, a future that is ready holds what its expression says
    (the functions composed, exceptions passed on, a future of a future reduced); the
    client and every task with an executor can go on, so that no empty result is
    read; and when nobody can, every future is ready. *)
Theorem chains_answer es s : scoped_all 0 es -> rtc step (start es) s ->
  (forall j a o, handles s !! j = Some a -> get a (mem s) = Some o -> eval_all [] es !! j = Some o) /\
  (forall i, i < length (pool (mem s)) -> is_Some (step_run reduction_failed i s)) /\
  (program s <> [] -> is_Some (step_client s)) /\
  ((forall s', ~ step s s') -> program s = [] /\ forall j a, handles s !! j = Some a -> get a (mem s) = eval_all [] es !! j).
Proof.
  intros Hsc Hr. apply rtc_nsteps in Hr as [k Hr]. destruct (sound_run es k _ s [] (sound_start es Hsc) Hr) as (G & Hs & _).
  assert (Hget : forall j a, handles s !! j = Some a -> ready_at (mem s) a -> get a (mem s) = eval_all [] es !! j).
  { intros j a Hj Hra. destruct (handle_den es G s j a Hs Hj) as (o & r & Hg & ->). by eapply (get_ok None), Hg; [apply (s_inv _ _ _ Hs)|..]. }
  split_and!.
  - intros j a o Hj Hga. rewrite <- Hga. symmetry. apply Hget; [done|]. unfold get in Hga. destruct (heap (mem s) !! a) as [c|] eqn:Hc; [|done]. cbn in Hga.
    exists c. split; [done|]. by destruct (ready c).
  - intros i Hi. destruct (lookup_lt_is_Some_2 _ _ Hi) as [a Ha]. destruct (run_step_ok es G s i a Hs Ha) as (s' & _ & H & _). by exists s'.
  - intros Hne. destruct (client_ok es G s Hs Hne) as (s' & _ & H & _). by exists s'.
  - intros Hno. destruct (stopped es G s Hs Hno) as [Hp Hpr]. split; [done|]. intros j a Hj. apply Hget; [done|].
    destruct (handle_den es G s j a Hs Hj) as (o & r & Hg & _). pose proof (s_inv _ _ _ Hs) as Hi.
    destruct (lookup_lt_is_Some_2 (heap (mem s)) a) as [c Hc]; [by apply (in_heap _ _ _ _ _ Hi Hg)|]. exists c. split; [done|].
    by apply (all_ready G (mem s) Hi Hp (S r) a c _ Hc Hg); cbn; lia.
Qed.

(** Every run of such a program stops after the same number of steps, which its
    text determines, whatever the order of the tasks. *)
Theorem chains_take_their_cost es k s : scoped_all 0 es -> nsteps step k (start es) s ->
  k <= cost_all [] es /\ ((forall s', ~ step s s') <-> k = cost_all [] es).
Proof.
  intros Hsc Hr. destruct (sound_run es k _ s [] (sound_start es Hsc) Hr) as (G & Hs & Hk). change (steps_to_go [] (start es)) with (cost_all [] es) in Hk.
  split; [lia|]. split.
  - intros Hno. destruct (stopped es G s Hs Hno) as [Hp Hpr]. pose proof (s_inv _ _ _ Hs) as Hi. unfold steps_to_go in Hk. rewrite Hpr in Hk. cbn in Hk.
    assert (tasks_left G (mem s) = 0); [|lia]. apply sum_zero, Forall_lookup_2. intros a c Hc.
    destruct (lookup_lt_is_Some_2 G a) as [g Hg]; [rewrite <- (v_len _ _ _ Hi); by eapply lookup_lt_Some|].
    destruct (all_ready G (mem s) Hi Hp (S (rank g)) a c g Hc Hg) as [_ Hf]; [lia|]. unfold pot. by rewrite Hf.
  - intros -> s' Hst. destruct (step_ok es G s s' Hs Hst) as (G' & _ & Hl). lia.
Qed.
End answer.

(** The doubling program, run to its end. *)
Definition doubling_turns : list turn := replicate 3 Client ++ replicate 13 (Runs 0).
Definition doubling_state : @state nat nat := default (start doubling) (take_turns doubling_turns (start doubling)).
Lemma chains_turns_steps ts : forall s s', Forall (fun t => match t with Drops _ => False | _ => True end) ts -> take_turns ts s = Some s' ->
  nsteps (step 101) (length ts) s s'.
Proof.
  induction ts as [|t ts IH]; intros s s' Hf H; cbn in H; [injection H as ->; constructor|]. apply Forall_cons in Hf as [Ht Hf].
  destruct (take_turn t s) as [s1|] eqn:H1; [|done]. eapply nsteps_l; [|by apply IH].
  destruct t; [by apply step_by_client|by eapply step_by_run|done].
Qed.
Lemma doubling_run : nsteps (step 101) (length doubling_turns) (start doubling) doubling_state.
Proof. apply chains_turns_steps; [cbv; repeat constructor|by vm_compute]. Qed.
Lemma doubling_scoped : scoped_all 0 doubling.
Proof. cbn. split_and!; try lia; intros [v|x] _; cbn; lia || done. Qed.
Lemma chains_answer_witness : handles doubling_state !! 2 = Some 5 /\ get 5 (mem doubling_state) = Some (inl 8) /\ eval_all 100 [] doubling !! 2 = Some (inl 8).
Proof.
  split; [vm_compute; reflexivity|]. split; [vm_compute; reflexivity|].
  apply (chains_answer 100 101 doubling doubling_state doubling_scoped) with 5; [|vm_compute; reflexivity..].
  apply rtc_nsteps_2 with (length doubling_turns), doubling_run.
Defined.
Lemma chains_take_their_cost_witness : length doubling_turns = 16 /\ (length doubling_turns <= cost_all 100 [] doubling /\
  ((forall s', ~ step 101 doubling_state s') <-> length doubling_turns = cost_all 100 [] doubling)).
Proof. split; [reflexivity|]. apply (chains_take_their_cost 100 101 doubling (length doubling_turns) doubling_state doubling_scoped doubling_run). Defined.
