(* ===== verification/FutureLifetimes.v ===== *)
(** * Lifetimes of futures

    Model of who keeps the shared states of [future.hpp] ([deps/clean_stlab]) alive:
    futures hold them, a continuation's function holds the future it waits for until
    it has run, [detach] lets a state hold itself until it is ready, and the tasks that
    wait or lie with executors hold nothing: a task whose future is gone does
    nothing when it is run. The results are those of [FutureChains]. *)

From S2P Require Import Prelude.
Local Open Scope nat_scope.

(** A shared state: the use count of its pointers, the future that [_f] has captured,
    [_ready], the tasks in [_then], and how many executors there hold it ([detach]). *)
Record cell := mk_cell { strong : nat; parent : option nat; ready : bool; waiting : list nat; holds : nat }.
Definition set_strong (k : nat) (c : cell) : cell := mk_cell k (parent c) (ready c) (waiting c) (holds c).
Definition set_waiting (l : list nat) (c : cell) : cell := mk_cell (strong c) (parent c) (ready c) l (holds c).
Definition hold (c : cell) : cell := mk_cell (S (strong c)) (parent c) (ready c) (waiting c) (S (holds c)).
Abbreviation heap := (list cell).

(** A promise that is removed from a state which is there and not ready is broken. *)
Definition unbroken (h : heap) (t : nat) : bool :=
  match h !! t with Some c => (strong c =? 0) || ready c | None => true end.
(** Copies and destructors of shared pointers; the last one destroys the state: the
    tasks that wait, and the function. [None]: a promise would be broken. *)
Definition share (p : nat) (h : heap) : option heap :=
  c ← h !! p; if strong c =? 0 then None else Some (<[p := set_strong (S (strong c)) c]> h).
Fixpoint release (k p : nat) (h : heap) : option heap :=
  match k with
  | 0 => None
  | S k =>
      c ← h !! p;
      match strong c with
      | 0 => None
      | 1 =>
          let h := <[p := set_strong 0 c]> h in
          if forallb (unbroken h) (waiting c) then match parent c with Some q => release k q h | None => Some h end else None
      | S n => Some (<[p := set_strong n c]> h)
      end
  end.
Definition reset (o : option nat) (h : heap) : option heap :=
  match o with Some p => release (length h) p h | None => Some h end.

(** The states, the future variables of the clients, the tasks with executors; [ran]:
    the tasks whose function was called. *)
Record state := mk_state { cells : heap; futures : list (option nat); pool : list nat; ran : list nat }.
Definition start : state := mk_state [] [] [] [].

(** [async] *)
Definition async (s : state) : option state :=
  let a := length (cells s) in
  Some (mk_state (cells s ++ [mk_cell 1 None false [] 0]) (futures s ++ [Some a]) (pool s ++ [a]) (ran s)).
(** [recover], and [then]. *)
Definition recover (v : nat) (s : state) : option state :=
  o ← futures s !! v;
  p ← o;
  h ← share p (cells s);
  c ← h !! p;
  let a := length h in
  let child := mk_cell 1 (Some p) false [] 0 in
  if ready c then Some (mk_state (h ++ [child]) (futures s ++ [Some a]) (pool s ++ [a]) (ran s))
  else Some (mk_state (<[p := set_waiting (waiting c ++ [a]) c]> h ++ [child]) (futures s ++ [Some a]) (pool s) (ran s)).
(** [detach]: the future of the continuation is dropped at once; its executor holds the
    state while it is in [_then]. *)
Definition detach (v : nat) (s : state) : option state :=
  o ← futures s !! v;
  p ← o;
  c ← cells s !! p;
  if strong c =? 0 then None
  else if ready c then Some s
  else Some (mk_state (<[p := hold c]> (cells s)) (futures s) (pool s) (ran s)).
(** Copies, assignments and destructors of futures. *)
Definition copy (v : nat) (s : state) : option state :=
  o ← futures s !! v;
  h ← match o with Some p => share p (cells s) | None => Some (cells s) end;
  Some (mk_state h (futures s ++ [o]) (pool s) (ran s)).
Definition assign (w v : nat) (s : state) : option state :=
  o ← futures s !! v;
  o' ← futures s !! w;
  h ← match o with Some p => share p (cells s) | None => Some (cells s) end;
  h ← reset o' h;
  Some (mk_state h (<[w := o]> (futures s)) (pool s) (ran s)).
Definition drop (v : nat) (s : state) : option state :=
  o ← futures s !! v;
  h ← reset o (cells s);
  Some (mk_state h (<[v := None]> (futures s)) (pool s) (ran s)).

(** An executor runs a task: nothing, if its state is gone or has no function any more.
    Otherwise the state is held meanwhile; the function asks the future it has,
    which has to be ready; [proceed] hands on what waits; then the function is reset. *)
Definition parent_ready (c : cell) (h : heap) : bool :=
  match parent c with Some p => match h !! p with Some q => ready q | None => false end | None => true end.
Definition run (i : nat) (s : state) : option state :=
  a ← pool s !! i;
  c ← cells s !! a;
  let rest := delete i (pool s) in
  if (strong c =? 0) || ready c then Some (mk_state (cells s) (futures s) rest (ran s))
  else if parent_ready c (cells s) then
    h ← reset (parent c) (<[a := mk_cell (S (strong c) - holds c) None true [] 0]> (cells s));
    h ← release (length h) a h;
    Some (mk_state h (futures s) (rest ++ waiting c) (ran s ++ [a]))
  else None.

Inductive op := Async | Recover (v : nat) | Detach (v : nat) | Copy (v : nat) | Assign (w v : nat) | Drop (v : nat) | Run (i : nat).
Definition step (o : op) (s : state) : option state :=
  match o with
  | Async => async s | Recover v => recover v s | Detach v => detach v s | Copy v => copy v s
  | Assign w v => assign w v s | Drop v => drop v s | Run i => run i s
  end.
Definition steps (ops : list op) (s : state) : option state := fold_opt (fun s o => step o s) ops s.
(** Programs that use variables they have, and continue futures that are valid. *)
Definition valid (o : op) (s : state) : bool :=
  match o with
  | Async => true
  | Recover v | Detach v => match futures s !! v with Some (Some _) => true | _ => false end
  | Copy v | Drop v => v <? length (futures s)
  | Assign w v => (w <? length (futures s)) && (v <? length (futures s))
  | Run i => i <? length (pool s)
  end.
Fixpoint all_valid (ops : list op) (s : state) : bool :=
  match ops with
  | [] => true
  | o :: ops => valid o s && match step o s with Some s' => all_valid ops s' | None => true end
  end.

(** What the variables hold; who is held by the function of whom. *)
Definition held (s : state) : list nat := flat_map option_list (futures s).
Definition waits_for (h : heap) (q p : nat) : Prop := exists c, h !! q = Some c /\ parent c = Some p.

(** ** Who owns what

    The pointers to a state are those of the variables and of destructors under way,
    of the functions of living states, and its own. *)
Definition live_parent (c : cell) : list nat := if strong c =? 0 then [] else option_list (parent c).
Record owned (h : heap) (rvs : list nat) : Prop := mk_owned {
  o_strong : forall p c, h !! p = Some c -> strong c <> 0 -> strong c = occ p rvs + occs p live_parent h + holds c;
  o_dead : forall p c, h !! p = Some c -> strong c = 0 -> occ p rvs + occs p live_parent h + holds c = 0;
  o_up : forall p c q, h !! p = Some c -> parent c = Some q -> q < p;
  o_rvs : forall q, q ∈ rvs -> q < length h;
  o_ready : forall p c, h !! p = Some c -> ready c = true -> parent c = None /\ waiting c = [] /\ holds c = 0;
  o_wait : forall p c t, h !! p = Some c -> t ∈ waiting c -> exists ct, h !! t = Some ct /\ (strong ct <> 0 -> parent ct = Some p /\ ready ct = false);
  o_child : forall t ct p cp, h !! t = Some ct -> strong ct <> 0 -> ready ct = false -> parent ct = Some p -> h !! p = Some cp -> ready cp = false -> t ∈ waiting cp
}.
(** States lose pointers; the rest of them stays. *)
Definition fade (c c' : cell) : Prop := (exists k, c' = set_strong k c) /\ (strong c = 0 -> strong c' = 0).
Definition fades : heap -> heap -> Prop := Forall2 fade.

Lemma fade_refl c : fade c c.
Proof. split; [exists (strong c); by destruct c|done]. Qed.
Lemma fades_refl h : fades h h.
Proof. induction h; constructor; [apply fade_refl|done]. Qed.
Lemma fades_trans h1 h2 h3 : fades h1 h2 -> fades h2 h3 -> fades h1 h3.
Proof.
  intros H12. revert h3. induction H12 as [|c1 c2 l1 l2 [[k ->] H1] _ IH]; intros h3 H23; inversion H23 as [|? c3 ? l3 [[l ->] H2] ? Heq]; subst; constructor; [|by apply IH].
  split; [by exists l|]. cbn in *. auto.
Qed.
Lemma fades_insert h p c k : h !! p = Some c -> strong c <> 0 -> fades h (<[p := set_strong k c]> h).
Proof.
  intros Hp Hs. apply Forall2_same_length_lookup_2; [by rewrite length_insert|]. intros i c1 c2 H1 H2.
  apply list_lookup_insert_Some in H2 as [(<- & <- & _)|[_ H2]]; [|rewrite H1 in H2; injection H2 as ->; apply fade_refl].
  rewrite Hp in H1. injection H1 as <-. split; [by exists k|done].
Qed.
Lemma fades_lookup h h' p c' : fades h h' -> h' !! p = Some c' -> exists c, h !! p = Some c /\ fade c c'.
Proof. intros Hf Hp. eapply Forall2_lookup_r in Hf; [|done]. done. Qed.
Lemma fades_lookup_l h h' p c : fades h h' -> h !! p = Some c -> exists c', h' !! p = Some c' /\ fade c c'.
Proof. intros Hf Hp. eapply Forall2_lookup_l in Hf; [|done]. done. Qed.
Lemma fades_length h h' : fades h h' -> length h' = length h.
Proof. intros Hf. symmetry. by eapply Forall2_length. Qed.

Lemma owned_handles h rvs rvs' : owned h rvs -> (forall x, occ x rvs' = occ x rvs) -> owned h rvs'.
Proof.
  intros [H1 H2 H3 H4 H5 H6 H7] E. constructor; try done.
  - intros p c Hp Hs. rewrite E. by apply H1.
  - intros p c Hp Hs. rewrite E. by apply H2.
  - intros q Hq. apply H4, occ_in. rewrite <- E. by apply occ_in.
Qed.
Lemma alive_in h rvs p c : owned h rvs -> h !! p = Some c -> p ∈ rvs -> strong c <> 0.
Proof. intros Ho Hp Hin%occ_in Hs. pose proof (o_dead _ _ Ho p c Hp Hs). lia. Qed.
Lemma alive_parent h rvs t ct p c : owned h rvs -> h !! t = Some ct -> strong ct <> 0 -> parent ct = Some p -> h !! p = Some c -> strong c <> 0.
Proof.
  intros Ho Ht Hs Hpar Hp H0. pose proof (o_dead _ _ Ho p c Hp H0). pose proof (occs_in p live_parent h t ct Ht) as Hi.
  unfold live_parent in Hi at 1. destruct (Nat.eqb_spec (strong ct) 0); [done|]. rewrite Hpar in Hi. specialize (Hi ltac:(by left)). lia.
Qed.
(** Counts of a state change, and the pointers they count. *)
Lemma owned_change h rvs rvs' p c c' : owned h rvs -> h !! p = Some c -> strong c <> 0 -> strong c' <> 0 ->
  parent c' = parent c -> ready c' = ready c -> waiting c' = waiting c -> (ready c = true -> holds c' = 0) ->
  (forall x, x <> p -> occ x rvs' = occ x rvs) -> strong c' + occ p rvs + holds c = strong c + occ p rvs' + holds c' -> owned (<[p := c']> h) rvs'.
Proof.
  intros Ho Hp Hs Hk Epa Er Ew Hh Hx Hc.
  assert (Hl : forall x, occs x live_parent (<[p := c']> h) = occs x live_parent h).
  { intros x. pose proof (occs_insert x live_parent h p c c' Hp) as Hi. unfold live_parent in Hi at 2 4. rewrite Epa in Hi.
    destruct (Nat.eqb_spec (strong c) 0), (Nat.eqb_spec (strong c') 0); try done. lia. }
  pose proof (o_strong _ _ Ho p c Hp Hs) as Hst.
  assert (Hcase : forall q d, <[p := c']> h !! q = Some d -> exists d0, h !! q = Some d0 /\ (d = d0 /\ q <> p \/ q = p /\ d0 = c /\ d = c')).
  { intros q d [(<- & <- & _)|[Hne Hd]]%list_lookup_insert_Some; [exists c; split; [done|by right]|exists d; split; [done|by left]]. }
  constructor.
  - intros q d (d0 & Hq & [[-> Hne]|(-> & -> & ->)])%Hcase Hd; rewrite Hl; [rewrite Hx by done; by apply (o_strong _ _ Ho)|]. lia.
  - intros q d (d0 & Hq & [[-> Hne]|(-> & -> & ->)])%Hcase Hd; rewrite Hl; [rewrite Hx by done; by apply (o_dead _ _ Ho)|done].
  - intros q d r (d0 & Hq & [[-> _]|(-> & -> & ->)])%Hcase; [by apply (o_up _ _ Ho q d0)|rewrite Epa; by apply (o_up _ _ Ho p c)].
  - intros q Hq. rewrite length_insert. destruct (decide (q = p)) as [->|Hne]; [by eapply lookup_lt_Some|]. apply (o_rvs _ _ Ho), occ_in. rewrite <- Hx by done. by apply occ_in.
  - intros q d (d0 & Hq & [[-> _]|(-> & -> & ->)])%Hcase; [by apply (o_ready _ _ Ho q d0)|rewrite Epa, Er, Ew; intros Hr; destruct (o_ready _ _ Ho p c Hp Hr) as (? & ? & _); auto].
  - intros q d t Hqd Ht. apply Hcase in Hqd as (d0 & Hq & Hd).
    assert (Hw : t ∈ waiting d0) by (destruct Hd as [[-> _]|(-> & -> & ->)]; [done|by rewrite <- Ew]). destruct (o_wait _ _ Ho q d0 t Hq Hw) as (ct & Hct & Hi).
    destruct (decide (t = p)) as [->|Hne].
    + rewrite Hp in Hct. injection Hct as <-. exists c'. split; [by apply list_lookup_insert_eq; eapply lookup_lt_Some|rewrite Epa, Er; intros _; by apply Hi].
    + exists ct. split; [by rewrite list_lookup_insert_ne|done].
  - intros t ct q cq (d0 & Ht & Hd)%Hcase Hst' Hr Hpar (e0 & Hq & He)%Hcase Hrq.
    assert (Hw : t ∈ waiting e0). { apply (o_child _ _ Ho t d0 q e0); destruct Hd as [[-> _]|(-> & -> & ->)], He as [[-> _]|(-> & -> & ->)]; congruence. }
    destruct He as [[-> _]|(-> & -> & ->)]; [done|by rewrite Ew].
Qed.
Lemma owned_strong h rvs rvs' p c k : owned h rvs -> h !! p = Some c -> strong c <> 0 -> k <> 0 ->
  (forall x, x <> p -> occ x rvs' = occ x rvs) -> k + occ p rvs = strong c + occ p rvs' -> owned (<[p := set_strong k c]> h) rvs'.
Proof. intros Ho Hp Hs Hk Hx Hc. eapply owned_change; try done; [intros Hr; by apply (o_ready _ _ Ho p c)|cbn; lia]. Qed.
Lemma share_owned h rvs p c : owned h rvs -> h !! p = Some c -> strong c <> 0 ->
  let h' := <[p := set_strong (S (strong c)) c]> h in share p h = Some h' /\ owned h' (p :: rvs).
Proof.
  intros Ho Hp Hs h'. split; [unfold share; rewrite Hp; cbn; by destruct (Nat.eqb_spec (strong c) 0)|].
  apply (owned_strong h rvs); [done..| |]; [intros x Hx|]; rewrite occ_cons, occ_one; case_decide; congruence || lia.
Qed.
Lemma owned_dies h rvs p c : owned h (p :: rvs) -> h !! p = Some c -> strong c = 1 ->
  owned (<[p := set_strong 0 c]> h) (option_list (parent c) ++ rvs) /\ forallb (unbroken (<[p := set_strong 0 c]> h)) (waiting c) = true.
Proof.
  intros Ho Hp H1. set (h' := <[p := set_strong 0 c]> h).
  pose proof (o_strong _ _ Ho p c Hp ltac:(lia)) as Hst. rewrite occ_cons, occ_one, decide_True in Hst by done.
  assert (Hl : forall x, occs x live_parent h' + occ x (option_list (parent c)) = occs x live_parent h).
  { intros x. pose proof (occs_insert x live_parent h p c (set_strong 0 c) Hp) as Hi. unfold live_parent in Hi at 2 4. cbn in Hi. rewrite H1, occ_nil in Hi. cbn in Hi. fold h' in Hi. lia. }
  assert (Hpp : parent c <> Some p) by (intros Hpar; pose proof (o_up _ _ Ho p c p Hp Hpar); lia).
  assert (Hx : forall x, x <> p -> occ x (p :: rvs) = occ x rvs) by (intros x Hx; rewrite occ_cons, occ_one, decide_False by congruence; done).
  assert (Hcase : forall q d, h' !! q = Some d -> exists d0, h !! q = Some d0 /\ (d = d0 /\ q <> p \/ q = p /\ d0 = c /\ d = set_strong 0 c)).
  { intros q d [(<- & <- & _)|[Hne Hd]]%list_lookup_insert_Some; [exists c; split; [done|by right]|exists d; split; [done|by left]]. }
  assert (Hsame : forall t ct, h !! t = Some ct -> strong ct <> 0 -> parent ct <> Some p).
  { intros t ct Ht Hs Hpar. pose proof (occs_in p live_parent h t ct Ht) as Hi. unfold live_parent in Hi at 1.
    destruct (Nat.eqb_spec (strong ct) 0); [done|]. rewrite Hpar in Hi. specialize (Hi ltac:(by left)). lia. }
  split; [constructor|].
  - intros q d (d0 & Hq & [[-> Hne]|(-> & -> & ->)])%Hcase Hd; [|done]. pose proof (o_strong _ _ Ho q d0 Hq Hd) as Hsd. rewrite Hx in Hsd by done.
    specialize (Hl q). rewrite occ_app. lia.
  - intros q d (d0 & Hq & [[-> Hne]|(-> & -> & ->)])%Hcase Hd; rewrite occ_app.
    + pose proof (o_dead _ _ Ho q d0 Hq Hd) as Hsd. rewrite Hx in Hsd by done. specialize (Hl q). lia.
    + cbn. specialize (Hl p). destruct (parent c) as [r|]; cbn in *; rewrite ?occ_one, ?occ_nil in *; try case_decide; try congruence; lia.
  - intros q d r (d0 & Hq & [[-> _]|(-> & -> & ->)])%Hcase; [by apply (o_up _ _ Ho q d0)|by apply (o_up _ _ Ho p c)].
  - intros q. unfold h'. rewrite length_insert, elem_of_app. pose proof (lookup_lt_Some _ _ _ Hp).
    intros [Hq|Hq]; [|apply (o_rvs _ _ Ho); by right]. destruct (parent c) as [r|] eqn:Hpar; [|by apply elem_of_nil in Hq].
    apply list_elem_of_singleton in Hq as ->. pose proof (o_up _ _ Ho p c r Hp Hpar). lia.
  - intros q d (d0 & Hq & [[-> _]|(-> & -> & ->)])%Hcase; [by apply (o_ready _ _ Ho q d0)|by apply (o_ready _ _ Ho p c)].
  - intros q d t Hqd Ht. apply Hcase in Hqd as (d0 & Hq & Hd).
    assert (Hw : t ∈ waiting d0) by (destruct Hd as [[-> _]|(-> & -> & ->)]; done). destruct (o_wait _ _ Ho q d0 t Hq Hw) as (ct & Hct & Hi).
    destruct (decide (t = p)) as [->|Hne].
    + exists (set_strong 0 c). split; [by apply list_lookup_insert_eq; eapply lookup_lt_Some|done].
    + exists ct. split; [by unfold h'; rewrite list_lookup_insert_ne|done].
  - intros t ct q cq (d0 & Ht & [[-> Hne]|(-> & -> & ->)])%Hcase Hst' Hr Hpar (e0 & Hq & He)%Hcase Hrq; [|done].
    assert (Hw : t ∈ waiting e0) by (apply (o_child _ _ Ho t d0 q e0); destruct He as [[-> _]|(-> & -> & ->)]; done).
    by destruct He as [[-> _]|(-> & -> & ->)].
  - apply forallb_forall. intros t Ht%list_elem_of_In. unfold unbroken. destruct (o_wait _ _ Ho p c t Hp Ht) as (ct & Hct & Hi).
    destruct (h' !! t) as [d|] eqn:Hd; [|done]. apply Hcase in Hd as (d0 & Hd0 & [[-> Hne]|(-> & -> & ->)]); [|done].
    rewrite Hct in Hd0. injection Hd0 as ->. destruct (Nat.eqb_spec (strong d0) 0); [done|]. exfalso. destruct (Hi ltac:(done)) as [Hpar _]. by apply (Hsame t d0).
Qed.
Lemma release_owned k : forall p h rvs, p < k -> owned h (p :: rvs) -> exists h', release k p h = Some h' /\ owned h' rvs /\ fades h h'.
Proof.
  induction k as [|k IH]; intros p h rvs Hk Ho; [lia|]. destruct (lookup_lt_is_Some_2 h p) as [c Hp]; [apply (o_rvs _ _ Ho); by left|].
  cbn. rewrite Hp. cbn. pose proof (alive_in _ _ _ _ Ho Hp ltac:(by left)) as Hs. destruct (strong c) as [|[|n]] eqn:H1; [done| |].
  - destruct (owned_dies _ _ _ _ Ho Hp H1) as [Hd ->]. destruct (parent c) as [q|] eqn:Hpar.
    + destruct (IH q (<[p := set_strong 0 c]> h) rvs) as (h' & H & Ho' & Hf); [pose proof (o_up _ _ Ho p c q Hp Hpar); lia|exact Hd|]. exists h'. split_and!; [done..|].
      eapply fades_trans, Hf. apply fades_insert; [done|lia].
    + eexists. split_and!; [done|exact Hd|]. apply fades_insert; [done|lia].
  - eexists. split_and!; [done| |apply fades_insert; [done|lia]]. eapply owned_strong; [done|done|lia|done| |].
    + intros x Hx. by rewrite (occ_cons x p rvs), occ_one, decide_False by congruence.
    + rewrite (occ_cons p p rvs), occ_one, decide_True by done. lia.
Qed.
Lemma reset_owned o h rvs : owned h (option_list o ++ rvs) -> exists h', reset o h = Some h' /\ owned h' rvs /\ fades h h'.
Proof.
  destruct o as [p|]; cbn; intros Ho; [|exists h; split_and!; [done..|apply fades_refl]]. apply release_owned; [|done]. apply (o_rvs _ _ Ho). by left.
Qed.

(** A state is added, with a function that holds its parent, which may not be ready:
    then it waits there. *)
Definition wait_in (par : option nat) (a : nat) (h : heap) : heap :=
  match par with
  | Some p => match h !! p with Some c => if ready c then h else <[p := set_waiting (waiting c ++ [a]) c]> h | None => h end
  | None => h
  end.
Definition child_of (par : option nat) : cell := mk_cell 1 par false [] 0.
Lemma wait_in_lookup par a h q d : wait_in par a h !! q = Some d -> exists d0, h !! q = Some d0 /\
  (d = d0 /\ (par = Some q -> ready d0 = true) \/ par = Some q /\ ready d0 = false /\ d = set_waiting (waiting d0 ++ [a]) d0).
Proof.
  intros H. unfold wait_in in H. destruct par as [p|]; [|exists d; split; [done|by left]]. destruct (h !! p) as [c|] eqn:Hp.
  - destruct (ready c) eqn:Hr.
    + exists d. split; [done|left; split; [done|]]. intros [= ->]. rewrite Hp in H. by injection H as <-.
    + apply list_lookup_insert_Some in H as [(<- & <- & _)|[Hne H]]; [exists c; split; [done|by right]|]. exists d. split; [done|left; split; [done|congruence]].
  - exists d. split; [done|left; split; [done|]]. intros [= ->]. by rewrite Hp in H.
Qed.
Lemma wait_in_length par a h : length (wait_in par a h) = length h.
Proof. unfold wait_in. repeat case_match; rewrite ?length_insert; done. Qed.
Lemma wait_in_live par a h x : occs x live_parent (wait_in par a h) = occs x live_parent h.
Proof.
  unfold wait_in. destruct par as [p|]; [|done]. destruct (h !! p) as [c|] eqn:Hp; [|done]. destruct (ready c); [done|].
  pose proof (occs_insert x live_parent h p c (set_waiting (waiting c ++ [a]) c) Hp) as Hi. change (live_parent (set_waiting (waiting c ++ [a]) c)) with (live_parent c) in Hi. lia.
Qed.
Lemma owned_child h rvs par : owned h (option_list par ++ rvs) -> let a := length h in owned (wait_in par a h ++ [child_of par]) (a :: rvs).
Proof.
  intros Ho a.
  assert (Hrv : occ a (option_list par ++ rvs) = 0) by (destruct (decide (0 < occ a (option_list par ++ rvs))) as [H%occ_in|]; [pose proof (o_rvs _ _ Ho a H); unfold a in *; lia|lia]).
  assert (Hla : occs a live_parent h = 0).
  { destruct (decide (0 < occs a live_parent h)) as [(p & c & Hp & Hin)%occs_exists|]; [|lia]. unfold live_parent in Hin.
    destruct (strong c =? 0); [by apply elem_of_nil in Hin|]. destruct (parent c) as [r|] eqn:Hpar; [|by apply elem_of_nil in Hin].
    apply list_elem_of_singleton in Hin as <-. pose proof (o_up _ _ Ho p c a Hp Hpar). apply lookup_lt_Some in Hp. unfold a in *. lia. }
  assert (Hl : forall x, occs x live_parent (wait_in par a h ++ [child_of par]) = occs x live_parent h + occ x (option_list par)).
  { intros x. rewrite occs_app, wait_in_live. unfold occs at 2. cbn. lia. }
  assert (Hcase : forall q d, (wait_in par a h ++ [child_of par]) !! q = Some d -> q < a /\ wait_in par a h !! q = Some d \/ q = a /\ d = child_of par).
  { intros q d [Hq|[Hq Hd]]%lookup_app_Some; [left; split; [apply lookup_lt_Some in Hq; by rewrite wait_in_length in Hq|done]|]. rewrite wait_in_length in *.
    right. apply list_lookup_singleton_Some in Hd as [H0 <-]. unfold a. split; [lia|done]. }
  assert (Hpar : forall p, par = Some p -> p < a) by (intros p ->; apply (o_rvs _ _ Ho); by left). rewrite occ_app in Hrv. constructor.
  - intros q d [[Hlt (d0 & Hq & Hd)%wait_in_lookup]|[-> ->]]%Hcase Hs; rewrite Hl.
    + assert (E : strong d = strong d0 /\ holds d = holds d0) by (by destruct Hd as [[-> _]|(_ & _ & ->)]). destruct E as [E1 E2]. rewrite E1 in Hs. rewrite E1, E2.
      pose proof (o_strong _ _ Ho q d0 Hq Hs) as Hst. rewrite occ_app in Hst. rewrite (occ_cons q a rvs), occ_one, decide_False by lia. lia.
    + cbn. rewrite (occ_cons a a rvs), occ_one, decide_True by done. lia.
  - intros q d [[Hlt (d0 & Hq & Hd)%wait_in_lookup]|[-> ->]]%Hcase Hs; [|done]. rewrite Hl.
    assert (E : strong d = strong d0 /\ holds d = holds d0) by (by destruct Hd as [[-> _]|(_ & _ & ->)]). destruct E as [E1 E2]. rewrite E1 in Hs. rewrite E2.
    pose proof (o_dead _ _ Ho q d0 Hq Hs) as Hst. rewrite occ_app in Hst. rewrite (occ_cons q a rvs), occ_one, decide_False by lia. lia.
  - intros q d r [[Hlt (d0 & Hq & Hd)%wait_in_lookup]|[-> ->]]%Hcase Hr; [|by apply Hpar].
    apply (o_up _ _ Ho q d0 r Hq). by destruct Hd as [[-> _]|(_ & _ & ->)].
  - intros q. rewrite length_app, wait_in_length, elem_of_cons. cbn. intros [->|Hq]; [unfold a; lia|]. pose proof (o_rvs _ _ Ho q ltac:(apply elem_of_app; by right)). lia.
  - intros q d [[Hlt (d0 & Hq & Hd)%wait_in_lookup]|[-> ->]]%Hcase Hr; [|done].
    destruct Hd as [[-> _]|(_ & H0 & ->)]; [by apply (o_ready _ _ Ho q d0)|]. cbn in Hr. congruence.
  - intros q d t [[Hlt Hq]|[-> ->]]%Hcase Ht; [|by apply elem_of_nil in Ht]. apply wait_in_lookup in Hq as (d0 & Hq & Hd).
    assert (Hw : t ∈ waiting d0 \/ t = a /\ par = Some q).
    { destruct Hd as [[-> _]|(Hp & _ & ->)]; [by left|]. cbn in Ht. apply elem_of_app in Ht as [| ->%list_elem_of_singleton]; [by left|by right]. }
    destruct Hw as [Hw|[-> Hp]].
    + destruct (o_wait _ _ Ho q d0 t Hq Hw) as (ct & Hct & Hi). apply lookup_lt_Some in Hct as Hlt'.
      destruct (lookup_lt_is_Some_2 (wait_in par a h) t) as [e He]; [by rewrite wait_in_length|]. exists e. split; [by apply lookup_app_l_Some|].
      apply wait_in_lookup in He as (e0 & He0 & He). rewrite Hct in He0. injection He0 as <-. destruct He as [[-> _]|(_ & _ & ->)]; exact Hi.
    + exists (child_of par). split; [|done]. apply list_lookup_middle. by rewrite wait_in_length.
  - intros t ct q cq [[Hlt (d0 & Ht & Hd)%wait_in_lookup]|[-> ->]]%Hcase Hs Hr Hpt [[Hltq (e0 & Hq & He)%wait_in_lookup]|[-> ->]]%Hcase Hrq.
    + assert (Hw : t ∈ waiting e0) by (apply (o_child _ _ Ho t d0 q e0); destruct Hd as [[-> _]|(_ & _ & ->)], He as [[-> _]|(_ & _ & ->)]; done).
      destruct He as [[-> _]|(_ & _ & ->)]; [done|]. cbn. apply elem_of_app. by left.
    + pose proof (o_up _ _ Ho t d0 a Ht ltac:(by destruct Hd as [[-> _]|(_ & _ & ->)])). lia.
    + cbn in Hpt. destruct He as [[-> He]|(_ & _ & ->)]; [rewrite He in Hrq; done|]. cbn. apply elem_of_app. right. by left.
    + cbn in Hpt. specialize (Hpar a Hpt). lia.
Qed.

(** A task runs: its state is ready, and lets go what it holds. *)
Definition finished (c : cell) : cell := mk_cell (S (strong c) - holds c) None true [] 0.
Lemma owned_run h rvs a c : owned h rvs -> h !! a = Some c -> strong c <> 0 -> ready c = false -> parent_ready c h = true ->
  owned (<[a := finished c]> h) (option_list (parent c) ++ a :: rvs).
Proof.
  intros Ho Ha Hs Hr Hpr. set (h' := <[a := finished c]> h). pose proof (o_strong _ _ Ho a c Ha Hs) as Hst.
  assert (Hk : strong (finished c) <> 0) by (cbn; lia).
  assert (Hl : forall x, occs x live_parent h' + occ x (option_list (parent c)) = occs x live_parent h).
  { intros x. pose proof (occs_insert x live_parent h a c (finished c) Ha) as Hi. unfold live_parent in Hi at 2 4.
    destruct (Nat.eqb_spec (strong c) 0), (Nat.eqb_spec (strong (finished c)) 0); try done. cbn in Hi. rewrite occ_nil in Hi. fold h' in Hi. lia. }
  assert (Hpa : parent c <> Some a) by (intros Hpar; pose proof (o_up _ _ Ho a c a Ha Hpar); lia).
  assert (Ha0 : occ a (option_list (parent c)) = 0) by (destruct (parent c) as [q|]; cbn; rewrite ?occ_one; [rewrite decide_False by congruence|]; done).
  assert (Hcase : forall q d, h' !! q = Some d -> h !! q = Some d /\ q <> a \/ q = a /\ d = finished c).
  { intros q d [(<- & <- & _)|[Hne Hd]]%list_lookup_insert_Some; [by right|by left]. }
  assert (Hx : forall x, x <> a -> occ x (a :: rvs) = occ x rvs) by (intros x Hx; rewrite (occ_cons x a rvs), occ_one, decide_False by congruence; done).
  constructor.
  - intros q d [[Hq Hne]|[-> ->]]%Hcase Hd; rewrite occ_app.
    + pose proof (o_strong _ _ Ho q d Hq Hd). rewrite Hx by done. specialize (Hl q). lia.
    + specialize (Hl a). rewrite (occ_cons a a rvs), occ_one, decide_True by done. cbn. lia.
  - intros q d [[Hq Hne]|[-> ->]]%Hcase Hd; [|done]. rewrite occ_app, Hx by done. pose proof (o_dead _ _ Ho q d Hq Hd). specialize (Hl q). lia.
  - intros q d r [[Hq _]|[-> ->]]%Hcase; [by apply (o_up _ _ Ho q d)|done].
  - intros q. unfold h'. rewrite length_insert, elem_of_app, elem_of_cons. pose proof (lookup_lt_Some _ _ _ Ha).
    intros [Hq|[->|Hq]]; [|done|by apply (o_rvs _ _ Ho)]. destruct (parent c) as [r|] eqn:Hpar; [|by apply elem_of_nil in Hq].
    apply list_elem_of_singleton in Hq as ->. pose proof (o_up _ _ Ho a c r Ha Hpar). lia.
  - intros q d [[Hq _]|[-> ->]]%Hcase; [by apply (o_ready _ _ Ho q d)|done].
  - intros q d t [[Hq Hne]|[-> ->]]%Hcase Ht; [|by apply elem_of_nil in Ht]. destruct (o_wait _ _ Ho q d t Hq Ht) as (ct & Hct & Hi).
    destruct (decide (t = a)) as [->|Hta]; [|exists ct; split; [by unfold h'; rewrite list_lookup_insert_ne|done]].
    rewrite Ha in Hct. injection Hct as <-. destruct (Hi Hs) as [Hpar _]. exfalso. unfold parent_ready in Hpr. rewrite Hpar, Hq in Hpr.
    destruct (o_ready _ _ Ho q d Hq Hpr) as (_ & Hw & _). rewrite Hw in Ht. by apply elem_of_nil in Ht.
  - intros t ct q cq [[Ht _]|[-> ->]]%Hcase Hst' Hrt Hpar [[Hq _]|[-> ->]]%Hcase Hrq; [by apply (o_child _ _ Ho t ct q cq)|done..].
Qed.

(** ** Where the tasks are *)
Record placed (h : heap) (pl rn : list nat) : Prop := mk_placed {
  p_pool : forall a, a ∈ pl -> exists c, h !! a = Some c /\ (strong c <> 0 -> ready c = false -> parent_ready c h = true);
  p_root : forall a c, h !! a = Some c -> strong c <> 0 -> ready c = false -> parent_ready c h = true -> a ∈ pl;
  p_once : NoDup rn;
  p_ran : forall a, a ∈ rn <-> exists c, h !! a = Some c /\ ready c = true
}.
Definition inv (s : state) : Prop := owned (cells s) (held s) /\ placed (cells s) (pool s) (ran s).

Lemma parent_ready_alike h h' c c' : length h' = length h -> (forall p d', h' !! p = Some d' -> exists d, h !! p = Some d /\ ready d' = ready d) ->
  parent c' = parent c -> parent_ready c' h' = parent_ready c h.
Proof.
  intros Hl Hh Hp. unfold parent_ready. rewrite Hp. destruct (parent c) as [p|]; [|done]. destruct (h' !! p) as [d'|] eqn:Hd.
  - destruct (Hh p d' Hd) as (d & -> & ->). done.
  - rewrite lookup_ge_None_2; [done|]. apply lookup_ge_None_1 in Hd. lia.
Qed.
Lemma placed_alike h h' pl rn : length h' = length h -> (forall p d', h' !! p = Some d' -> exists d, h !! p = Some d /\ parent d' = parent d /\ ready d' = ready d /\ (strong d = 0 -> strong d' = 0)) ->
  placed h pl rn -> placed h' pl rn.
Proof.
  intros Hl Hh [H1 H2 H3 H4].
  assert (Hpr : forall c c', parent c' = parent c -> parent_ready c' h' = parent_ready c h).
  { intros c c' Hp. apply parent_ready_alike; [done| |done]. intros p d' Hd. destruct (Hh p d' Hd) as (d & Hd0 & _ & Hr & _). by exists d. }
  assert (Hget : forall p d, h !! p = Some d -> exists d', h' !! p = Some d' /\ parent d' = parent d /\ ready d' = ready d /\ (strong d = 0 -> strong d' = 0)).
  { intros p d Hd. destruct (lookup_lt_is_Some_2 h' p) as [d' Hd']; [rewrite Hl; by eapply lookup_lt_Some|].
    destruct (Hh p d' Hd') as (d0 & Hd0 & E). rewrite Hd in Hd0. injection Hd0 as <-. by exists d'. }
  constructor; [..|done|].
  - intros a Ha. destruct (H1 a Ha) as (c & Hc & Hi). destruct (Hget a c Hc) as (c' & Hc' & Ep & Er & Es). exists c'. split; [done|].
    intros Hs Hr. rewrite (Hpr c c' Ep). apply Hi; [auto|congruence].
  - intros a c' Hc' Hs Hr Hp. destruct (Hh a c' Hc') as (c & Hc & Ep & Er & Es). rewrite (Hpr c c' Ep) in Hp. apply (H2 a c Hc); [auto|congruence|done].
  - intros a. rewrite H4. split; intros (c & Hc & Hr); [destruct (Hget a c Hc) as (c' & Hc' & _ & Er & _)|destruct (Hh a c Hc) as (c' & Hc' & _ & Er & _)]; exists c'; split; congruence.
Qed.
Lemma placed_fades h h' pl rn : fades h h' -> placed h pl rn -> placed h' pl rn.
Proof.
  intros Hf. apply placed_alike; [by apply fades_length|]. intros p d' Hd. destruct (fades_lookup _ _ _ _ Hf Hd) as (d & Hd0 & [k ->] & Hs). by exists d.
Qed.
Lemma placed_insert h pl rn p c c' : h !! p = Some c -> parent c' = parent c -> ready c' = ready c -> strong c <> 0 ->
  placed h pl rn -> placed (<[p := c']> h) pl rn.
Proof.
  intros Hp Epa Er Hs. apply placed_alike; [apply length_insert|]. intros q d [(<- & <- & _)|[_ Hd]]%list_lookup_insert_Some; [by exists c|by exists d].
Qed.
Lemma held_insert s v o o' x : futures s !! v = Some o ->
  occ x (flat_map option_list (<[v := o']> (futures s))) + occ x (option_list o) = occ x (held s) + occ x (option_list o').
Proof.
  intros Hv. assert (E : forall l, occ x (flat_map option_list l) = occs x option_list l) by (intros l; induction l as [|y l IH]; [done|]; cbn; by rewrite occ_app, occs_cons, IH).
  unfold held. rewrite !E. by apply occs_insert.
Qed.
Lemma held_new s o x : occ x (flat_map option_list (futures s ++ [o])) = occ x (option_list o) + occ x (held s).
Proof. unfold held. rewrite flat_map_app, occ_app. cbn. rewrite app_nil_r. lia. Qed.
Lemma held_in s v p : futures s !! v = Some (Some p) -> p ∈ held s.
Proof.
  intros Hv. apply occ_in. pose proof (held_insert s v (Some p) None p Hv) as H. cbn in H. rewrite occ_one, decide_True, occ_nil in H by done. lia.
Qed.
Lemma held_cell s v p : inv s -> futures s !! v = Some (Some p) -> exists c, cells s !! p = Some c /\ strong c <> 0.
Proof.
  intros [Ho _] Hv. pose proof (held_in s v p Hv) as Hin. destruct (lookup_lt_is_Some_2 _ _ (o_rvs _ _ Ho p Hin)) as [c Hc].
  exists c. split; [done|]. by eapply alive_in.
Qed.
(** A new state, with its task where it belongs. *)
Lemma placed_child h pl rn par rvs : owned h rvs -> placed h pl rn ->
  let a := length h in
  placed (wait_in par a h ++ [child_of par]) (if parent_ready (child_of par) h then pl ++ [a] else pl) rn.
Proof.
  intros Ho Hp a. set (h' := wait_in par a h ++ [child_of par]).
  assert (Hold : forall q d, h !! q = Some d -> exists d', h' !! q = Some d' /\ parent d' = parent d /\ ready d' = ready d /\ strong d' = strong d).
  { intros q d Hq. destruct (lookup_lt_is_Some_2 (wait_in par a h) q) as [d' Hd']; [rewrite wait_in_length; by eapply lookup_lt_Some|].
    exists d'. split; [by apply lookup_app_l_Some|]. apply wait_in_lookup in Hd' as (d0 & Hd0 & Hd). rewrite Hq in Hd0. injection Hd0 as <-.
    by destruct Hd as [[-> _]|(_ & _ & ->)]. }
  assert (Hcase : forall q d', h' !! q = Some d' -> q <> a /\ (exists d, h !! q = Some d /\ parent d' = parent d /\ ready d' = ready d /\ strong d' = strong d) \/ q = a /\ d' = child_of par).
  { intros q d [Hq|[Hq Hd]]%lookup_app_Some.
    - apply lookup_lt_Some in Hq as Hl. rewrite wait_in_length in Hl. left. split; [unfold a; lia|].
      destruct (lookup_lt_is_Some_2 h q Hl) as [d0 Hd0]. exists d0. split; [done|]. destruct (Hold q d0 Hd0) as (d' & Hd' & E).
      unfold h' in Hd'. rewrite (lookup_app_l_Some _ _ _ _ Hq) in Hd'. by injection Hd' as <-.
    - rewrite wait_in_length in *. right. apply list_lookup_singleton_Some in Hd as [H0 <-]. unfold a. split; [lia|done]. }
  assert (Hpr : forall c c', parent c' = parent c -> (forall p, parent c = Some p -> p < a) -> parent_ready c' h' = parent_ready c h).
  { intros c c' E Hlt. unfold parent_ready. rewrite E. destruct (parent c) as [p|]; [|done]. destruct (lookup_lt_is_Some_2 h p (Hlt p eq_refl)) as [d Hd].
    rewrite Hd. destruct (Hold p d Hd) as (d' & -> & _ & Hr & _). done. }
  destruct Hp as [H1 H2 H3 H4]. constructor; [..|done|].
  - intros q Hq.
    assert (Hq' : q ∈ pl \/ q = a /\ parent_ready (child_of par) h = true) by (destruct (parent_ready (child_of par) h); [apply elem_of_app in Hq as [| ->%list_elem_of_singleton]; [by left|by right]|by left]).
    destruct Hq' as [Hq'|[-> Hr]].
    + destruct (H1 q Hq') as (c & Hc & Hi). destruct (Hold q c Hc) as (c' & Hc' & Ep & Er & Es). exists c'. split; [done|]. intros Hs Hr.
      rewrite (Hpr c c' Ep); [apply Hi; congruence|]. intros p Hpar. pose proof (o_up _ _ Ho q c p Hc Hpar). apply lookup_lt_Some in Hc. unfold a. lia.
    + exists (child_of par). split; [apply list_lookup_middle; by rewrite wait_in_length|]. intros _ _. unfold parent_ready in Hr |- *. cbn [parent child_of] in *.
      destruct par as [p|]; [|done]. destruct (h !! p) as [d|] eqn:Hd; [|done]. destruct (Hold p d Hd) as (d' & -> & _ & -> & _). done.
  - intros q c' Hq Hs Hr Hpq. destruct (Hcase q c' Hq) as [[Hne (c & Hc & Ep & Er & Es)]|[-> ->]].
    + assert (Hin : q ∈ pl).
      { apply (H2 q c Hc); [congruence..|]. rewrite <- (Hpr c c' Ep); [done|]. intros p Hpar. pose proof (o_up _ _ Ho q c p Hc Hpar). apply lookup_lt_Some in Hc. unfold a. lia. }
      destruct (parent_ready (child_of par) h); [apply elem_of_app; by left|done].
    + assert (E : parent_ready (child_of par) h = true); [|rewrite E; apply elem_of_app; right; by left].
      unfold parent_ready in Hpq |- *. cbn [parent child_of] in *. destruct par as [p|]; [|done].
      destruct (h' !! p) as [d'|] eqn:Hd; [|done]. destruct (Hcase p d' Hd) as [[_ (d & -> & _ & Er & _)]|[-> ->]]; [congruence|done].
  - intros q. rewrite H4. split; intros (c & Hc & Hr).
    + destruct (Hold q c Hc) as (c' & Hc' & _ & Er & _). exists c'. split; congruence.
    + destruct (Hcase q c Hc) as [[_ (d & Hd & _ & Er & _)]|[-> ->]]; [exists d; split; congruence|done].
Qed.

Lemma async_ok s : inv s -> exists s', async s = Some s' /\ inv s'.
Proof.
  intros [Ho Hp]. eexists. split; [done|]. split.
  - eapply owned_handles; [exact (owned_child (cells s) (held s) None Ho)|]. intros x. unfold held at 1. cbn [futures]. rewrite held_new. by rewrite (occ_cons x _ (held s)).
  - exact (placed_child (cells s) (pool s) (ran s) None (held s) Ho Hp).
Qed.
Lemma recover_ok s v p : inv s -> futures s !! v = Some (Some p) -> exists s', recover v s = Some s' /\ inv s'.
Proof.
  intros Hi Hv. destruct (held_cell s v p Hi Hv) as (c & Hc & Hs). destruct Hi as [Ho Hp]. unfold recover. rewrite Hv. cbn [mbind option_bind].
  destruct (share_owned _ _ _ _ Ho Hc Hs) as [-> Ho1]. cbn [mbind option_bind]. set (c1 := set_strong (S (strong c)) c) in *. set (h1 := <[p := c1]> (cells s)) in *.
  assert (Hc1 : h1 !! p = Some c1) by (apply list_lookup_insert_eq; by eapply lookup_lt_Some). rewrite Hc1. cbn [mbind option_bind].
  assert (Hp1 : placed h1 (pool s) (ran s)) by (by eapply placed_insert).
  pose proof (owned_child h1 (held s) (Some p) Ho1) as Hoc. pose proof (placed_child h1 (pool s) (ran s) (Some p) _ Ho1 Hp1) as Hpc.
  cbn zeta in Hoc, Hpc. unfold parent_ready in Hpc. cbn [parent child_of wait_in] in Hoc, Hpc. rewrite Hc1 in Hoc, Hpc.
  destruct (ready c1); (eexists; split; [done|]; split; [|exact Hpc]); (eapply owned_handles; [exact Hoc|]); intros x; unfold held at 1; cbn [futures]; rewrite held_new;
    cbn [option_list]; by rewrite (occ_cons x _ (held s)).
Qed.
Lemma detach_ok s v p : inv s -> futures s !! v = Some (Some p) -> exists s', detach v s = Some s' /\ inv s'.
Proof.
  intros Hi Hv. destruct (held_cell s v p Hi Hv) as (c & Hc & Hs). unfold detach. rewrite Hv. cbn. rewrite Hc. cbn.
  destruct (Nat.eqb_spec (strong c) 0); [done|]. destruct (ready c) eqn:Hr; [by exists s|]. destruct Hi as [Ho Hp]. eexists. split; [done|]. split.
  - apply (owned_change (cells s) (held s) (held s) p c (hold c)); try done; [congruence|cbn; lia].
  - by eapply placed_insert.
Qed.
Lemma share_opt_ok s o : inv s -> (forall p, o = Some p -> p ∈ held s) ->
  exists h, match o with Some p => share p (cells s) | None => Some (cells s) end = Some h /\ owned h (option_list o ++ held s) /\ placed h (pool s) (ran s).
Proof.
  intros [Ho Hp] Hin. destruct o as [p|]; [|by exists (cells s)]. specialize (Hin p eq_refl).
  destruct (lookup_lt_is_Some_2 _ _ (o_rvs _ _ Ho p Hin)) as [c Hc]. pose proof (alive_in _ _ _ _ Ho Hc Hin) as Hs.
  destruct (share_owned _ _ _ _ Ho Hc Hs) as [-> Ho1]. eexists. split_and!; [done..|]. by eapply placed_insert.
Qed.
Lemma copy_ok s v : inv s -> v < length (futures s) -> exists s', copy v s = Some s' /\ inv s'.
Proof.
  intros Hi [o Hv]%lookup_lt_is_Some_2. destruct (share_opt_ok s o Hi) as (h & H & Ho & Hp); [intros p ->; by eapply held_in|].
  unfold copy. rewrite Hv. cbn. rewrite H. cbn. eexists. split; [done|]. split; [|done]. eapply owned_handles; [done|]. intros x. unfold held at 1. cbn [futures].
  rewrite held_new. by rewrite occ_app.
Qed.
Lemma let_go s o rvs h : owned h (option_list o ++ rvs) -> placed h (pool s) (ran s) -> exists h', reset o h = Some h' /\ owned h' rvs /\ placed h' (pool s) (ran s).
Proof. intros Ho Hp. destruct (reset_owned _ _ _ Ho) as (h' & H & Ho' & Hf). exists h'. split_and!; [done..|]. by eapply placed_fades. Qed.
Lemma assign_ok s w v : inv s -> w < length (futures s) -> v < length (futures s) -> exists s', assign w v s = Some s' /\ inv s'.
Proof.
  intros Hi [o' Hw]%lookup_lt_is_Some_2 [o Hv]%lookup_lt_is_Some_2. destruct (share_opt_ok s o Hi) as (h & H & Ho & Hp); [intros p ->; by eapply held_in|].
  unfold assign. rewrite Hv. cbn. rewrite Hw. cbn. rewrite H. cbn.
  destruct (let_go s o' (flat_map option_list (<[w := o]> (futures s))) h) as (h' & -> & Ho' & Hp'); [|done|].
  - eapply owned_handles; [done|]. intros x. rewrite !occ_app. pose proof (held_insert s w o' o x Hw). lia.
  - eexists. by split; [|split].
Qed.
Lemma drop_ok s v : inv s -> v < length (futures s) -> exists s', drop v s = Some s' /\ inv s'.
Proof.
  intros [Ho Hp] [o Hv]%lookup_lt_is_Some_2. unfold drop. rewrite Hv. cbn.
  destruct (let_go s o (flat_map option_list (<[v := None]> (futures s))) (cells s)) as (h' & -> & Ho' & Hp'); [|done|].
  - eapply owned_handles; [done|]. intros x. rewrite occ_app. pose proof (held_insert s v o None x Hv) as H. cbn in H. rewrite occ_nil in H. lia.
  - eexists. by split; [|split].
Qed.
Lemma elem_delete {A} (l : list A) i a x : l !! i = Some a -> x ∈ l -> x = a \/ x ∈ delete i l.
Proof.
  intros Hi. rewrite <- (take_drop_middle _ _ _ Hi) at 1. rewrite delete_take_drop, !elem_of_app, elem_of_cons. tauto.
Qed.
Lemma placed_delete h pl rn i a c : placed h pl rn -> pl !! i = Some a -> h !! a = Some c -> strong c = 0 \/ ready c = true -> placed h (delete i pl) rn.
Proof.
  intros [H1 H2 H3 H4] Hi Hc Hd. constructor; [..|done|done].
  - intros q Hq%list_elem_of_delete_inv. by apply H1.
  - intros q d Hq Hs Hr Hp. destruct (elem_delete _ _ _ q Hi (H2 q d Hq Hs Hr Hp)) as [->|]; [|done]. rewrite Hc in Hq. injection Hq as <-. destruct Hd; congruence.
Qed.
Lemma placed_run h pl rn i a c rvs : owned h rvs -> placed h pl rn -> pl !! i = Some a -> h !! a = Some c -> strong c <> 0 -> ready c = false ->
  placed (<[a := finished c]> h) (delete i pl ++ waiting c) (rn ++ [a]).
Proof.
  intros Ho [H1 H2 H3 H4] Hi Ha Hs Hr. pose proof (lookup_lt_Some _ _ _ Ha) as Hl.
  assert (Hcase : forall q d, <[a := finished c]> h !! q = Some d -> h !! q = Some d /\ q <> a \/ q = a /\ d = finished c).
  { intros q d [(<- & <- & _)|[Hne Hd]]%list_lookup_insert_Some; [by right|by left]. }
  assert (Hself : <[a := finished c]> h !! a = Some (finished c)) by by apply list_lookup_insert_eq.
  assert (Hmono : forall d, parent_ready d h = true -> parent_ready d (<[a := finished c]> h) = true).
  { intros d Hd. unfold parent_ready in *. destruct (parent d) as [p|]; [|done]. destruct (decide (p = a)) as [->|Hne]; [by rewrite Hself|]. by rewrite list_lookup_insert_ne. }
  constructor.
  - intros q [Hq%list_elem_of_delete_inv|Hq]%elem_of_app.
    + destruct (H1 q Hq) as (d & Hd & Hi'). destruct (decide (q = a)) as [->|Hne]; [exists (finished c); split; [done|by cbn]|].
      exists d. split; [by rewrite list_lookup_insert_ne|]. intros. by apply Hmono, Hi'.
    + destruct (o_wait _ _ Ho a c q Ha Hq) as (d & Hd & Hi'). destruct (decide (q = a)) as [->|Hne]; [exists (finished c); split; [done|by cbn]|].
      exists d. split; [by rewrite list_lookup_insert_ne|]. intros Hsd _. destruct (Hi' Hsd) as [Hpar _]. unfold parent_ready. by rewrite Hpar, Hself.
  - intros q d [[Hq Hne]|[-> ->]]%Hcase Hsq Hrq Hp; [|done]. apply elem_of_app. destruct (parent_ready d h) eqn:Hpr.
    + left. by destruct (elem_delete _ _ _ q Hi (H2 q d Hq Hsq Hrq Hpr)) as [|].
    + right. unfold parent_ready in Hp, Hpr. destruct (parent d) as [p|] eqn:Hpar; [|done]. destruct (decide (p = a)) as [->|Hpa].
      * by apply (o_child _ _ Ho q d a c).
      * rewrite list_lookup_insert_ne in Hp by done. congruence.
  - apply NoDup_app. split_and!; [done| |apply NoDup_singleton]. intros q Hq ->%list_elem_of_singleton. apply H4 in Hq as (d & Hd & Hrd). congruence.
  - intros q. rewrite elem_of_app, H4, list_elem_of_singleton. split.
    + intros [(d & Hd & Hrd)| ->]; [|by exists (finished c)]. exists d. split; [|done]. rewrite list_lookup_insert_ne; [done|congruence].
    + intros (d & [[Hd _]|[-> _]]%Hcase & Hrd); [left; by exists d|by right].
Qed.
Lemma run_ok s i : inv s -> i < length (pool s) -> exists s', run i s = Some s' /\ inv s'.
Proof.
  intros [Ho Hp] [a Hi]%lookup_lt_is_Some_2. destruct (p_pool _ _ _ Hp a) as (c & Hc & Hpr); [by eapply list_elem_of_lookup_2|].
  unfold run. rewrite Hi. cbn [mbind option_bind]. rewrite Hc. cbn [mbind option_bind].
  destruct (Nat.eqb_spec (strong c) 0) as [Hs|Hs]; [eexists; split; [done|]; split; [done|]; eapply placed_delete; [done..|by left]|].
  destruct (ready c) eqn:Hr; [eexists; split; [done|]; split; [done|]; eapply placed_delete; [done..|by right]|]. cbn [orb].
  rewrite (Hpr Hs eq_refl). pose proof (owned_run _ _ _ _ Ho Hc Hs Hr (Hpr Hs eq_refl)) as Ho1. pose proof (placed_run _ _ _ _ _ _ _ Ho Hp Hi Hc Hs Hr) as Hp1.
  fold (finished c). destruct (reset_owned _ _ _ Ho1) as (h2 & -> & Ho2 & Hf2). cbn [mbind option_bind].
  destruct (release_owned (length h2) a h2 (held s)) as (h3 & -> & Ho3 & Hf3); [apply (o_rvs _ _ Ho2); by left|done|]. cbn [mbind option_bind].
  eexists. split; [done|]. split; [done|]. eapply placed_fades; [done|]. by eapply placed_fades.
Qed.
Lemma lifetimes_step_ok o s : inv s -> valid o s = true -> exists s', step o s = Some s' /\ inv s'.
Proof.
  intros Hi Hv. destruct o; cbn [valid step] in *; repeat match goal with H : _ && _ = true |- _ => apply andb_prop in H as [? ?] end;
    repeat match goal with H : (_ <? _) = true |- _ => apply Nat.ltb_lt in H end.
  - by apply async_ok.
  - destruct (futures s !! v) as [[p|]|] eqn:Hf; [|done..]. by eapply recover_ok.
  - destruct (futures s !! v) as [[p|]|] eqn:Hf; [|done..]. by eapply detach_ok.
  - by apply copy_ok.
  - by apply assign_ok.
  - by apply drop_ok.
  - by apply run_ok.
Qed.
Lemma lifetimes_ok ops : forall s, inv s -> all_valid ops s = true -> exists s', steps ops s = Some s' /\ inv s'.
Proof.
  induction ops as [|o ops IH]; intros s Hi Hv; [by exists s|]. cbn in Hv. apply andb_prop in Hv as [Ho Hv].
  destruct (lifetimes_step_ok o s Hi Ho) as (s1 & H1 & Hi1). rewrite H1 in Hv. destruct (IH s1 Hi1 Hv) as (s2 & H2 & Hi2). exists s2. split; [|done]. unfold steps in *. cbn. by rewrite H1.
Qed.
Lemma lifetimes_start : inv start.
Proof. split; constructor; cbn; try done; try (by intros ? ?%elem_of_nil); [constructor|]. intros a. split; [by intros ?%elem_of_nil|by intros (? & ? & _)]. Qed.

(** ** Properties *)
Definition needed (s : state) (p : nat) : Prop :=
  exists q c, cells s !! q = Some c /\ (q ∈ held s \/ holds c <> 0) /\ rtc (waits_for (cells s)) q p.
Lemma needed_alive s p c : inv s -> cells s !! p = Some c -> needed s p <-> strong c <> 0.
Proof.
  intros [Ho Hp] Hc. split.
  - intros (q & cq & Hq & Hor & Hrt). assert (Hs : strong cq <> 0).
    { destruct Hor as [Hin|Hh]; [by eapply alive_in|]. intros H0. pose proof (o_dead _ _ Ho q cq Hq H0). lia. }
    clear Hor. revert cq Hq Hs. induction Hrt as [x|x y z (cx & Hx & Hpar) _ IH]; intros cq Hq Hs; [congruence|].
    rewrite Hx in Hq. injection Hq as ->. destruct (lookup_lt_is_Some_2 (cells s) y) as [cy Hy].
    { pose proof (o_up _ _ Ho x cq y Hx Hpar). apply lookup_lt_Some in Hx. lia. }
    apply (IH Hc cy Hy). exact (alive_parent _ _ x _ y cy Ho Hx Hs Hpar Hy).
  - remember (length (cells s) - p) as k eqn:Hk. revert p c Hc Hk. induction k as [k IH] using lt_wf_ind. intros p c Hc -> Hs.
    pose proof (o_strong _ _ Ho p c Hc Hs) as Hst. destruct (decide (0 < occ p (held s))) as [H%occ_in|Hh]; [exists p, c; split_and!; [done|by left|done]|].
    destruct (decide (holds c = 0)) as [H0|H0]; [|exists p, c; split_and!; [done|by right|done]].
    destruct (occs_exists p live_parent (cells s)) as (q & d & Hq & Hin); [lia|]. unfold live_parent in Hin. destruct (Nat.eqb_spec (strong d) 0) as [|Hd]; [by apply elem_of_nil in Hin|].
    destruct (parent d) as [r|] eqn:Hpar; [|by apply elem_of_nil in Hin]. apply list_elem_of_singleton in Hin as <-.
    pose proof (o_up _ _ Ho q d p Hq Hpar). apply lookup_lt_Some in Hq as Hl.
    destruct (IH (length (cells s) - q) ltac:(lia) q d Hq eq_refl Hd) as (r & cr & Hr & Hor & Hrt). exists r, cr. split_and!; [done..|]. eapply rtc_r; [done|]. by exists d.
Qed.
Lemma all_computed s : inv s -> pool s = [] -> forall p c, cells s !! p = Some c -> strong c <> 0 -> ready c = true.
Proof.
  intros [Ho Hp] Hpool p. induction p as [p IH] using lt_wf_ind. intros c Hc Hs. destruct (ready c) eqn:Hr; [done|]. exfalso.
  assert (Hin : p ∈ pool s); [|rewrite Hpool in Hin; by apply elem_of_nil in Hin]. apply (p_root _ _ _ Hp p c); [done..|].
  unfold parent_ready. destruct (parent c) as [q|] eqn:Hpar; [|done]. pose proof (o_up _ _ Ho p c q Hc Hpar) as Hq.
  destruct (lookup_lt_is_Some_2 (cells s) q) as [d Hd]; [apply lookup_lt_Some in Hc; lia|]. rewrite Hd. apply (IH q Hq d Hd). exact (alive_parent _ _ p _ q d Ho Hc Hs Hpar Hd).
Qed.

(** C15: whatever clients copy, assign, drop, detach and continue, in any order with the
    tasks that are run: a state lives exactly as long as it is needed, that is, held by
    a client or detached and not ready, or waited for by a continuation that is needed;
    no function is called twice, or asks a future that is not ready, and no
    promise of a living state is broken; when no task is left every state that lives
    is ready. *)
Theorem needed_futures_live ops : all_valid ops start = true ->
  exists s, steps ops start = Some s /\ NoDup (ran s) /\
    forall p c, cells s !! p = Some c -> (strong c <> 0 <-> needed s p) /\ (pool s = [] -> needed s p -> ready c = true).
Proof.
  intros Hv. destruct (lifetimes_ok ops start lifetimes_start Hv) as (s & H & Hi). exists s. split_and!; [done|apply Hi|].
  intros p c Hc. pose proof (needed_alive s p c Hi Hc) as Hn. split; [tauto|]. intros Hp Hne. eapply all_computed; [done..|]. by apply Hn.
Qed.

(** What is gone stays gone. *)
Lemma gone_insert (h : heap) a p c x : h !! p = Some c -> a <> p -> <[a := x]> h !! p = Some c.
Proof. intros Hp Hne. by rewrite list_lookup_insert_ne. Qed.
Lemma gone_share q h h' p c : share q h = Some h' -> h !! p = Some c -> strong c = 0 -> h' !! p = Some c.
Proof.
  unfold share. destruct (h !! q) as [d|] eqn:Hq; [cbn|done]. intros H Hp Hs. destruct (Nat.eqb_spec (strong d) 0); [done|]. injection H as <-.
  apply gone_insert; [done|]. intros ->. congruence.
Qed.
Lemma gone_release k : forall q h h' p c, release k q h = Some h' -> h !! p = Some c -> strong c = 0 -> h' !! p = Some c.
Proof.
  induction k as [|k IH]; intros q h h' p c H Hp Hs; [done|]. cbn in H. destruct (h !! q) as [d|] eqn:Hq; [cbn in H|done].
  destruct (strong d) as [|[|n]] eqn:Hd; [done| |].
  - destruct (forallb _ _); [|done]. assert (Hg : <[q := set_strong 0 d]> h !! p = Some c) by (apply gone_insert; [done|congruence]).
    destruct (parent d) as [r|]; [by eapply IH|by injection H as <-].
  - injection H as <-. apply gone_insert; [done|congruence].
Qed.
Lemma gone_reset o h h' p c : reset o h = Some h' -> h !! p = Some c -> strong c = 0 -> h' !! p = Some c.
Proof. destruct o as [q|]; cbn; [apply gone_release|by intros [= ->]]. Qed.
Lemma gone_step o s s' p c : step o s = Some s' -> cells s !! p = Some c -> strong c = 0 -> cells s' !! p = Some c /\ (p ∈ ran s' -> p ∈ ran s).
Proof.
  intros H Hp Hs. assert (Hlt := lookup_lt_Some _ _ _ Hp). destruct o; cbn in H.
  - injection H as <-. split; [by apply lookup_app_l_Some|done].
  - unfold recover in H. destruct (futures s !! v) as [[q|]|]; [|done..]. cbn in H. destruct (share q (cells s)) as [h|] eqn:Hsh; [cbn in H|done].
    pose proof (gone_share _ _ _ _ _ Hsh Hp Hs) as Hg. unfold share in Hsh. destruct (cells s !! q) as [d|] eqn:Hq; [cbn in Hsh|done].
    destruct (Nat.eqb_spec (strong d) 0); [done|]. destruct (h !! q) as [e|]; [cbn in H|done].
    destruct (ready e); injection H as <-; (split; [|done]); cbn [cells]; apply lookup_app_l_Some; [done|]. apply gone_insert; [done|congruence].
  - unfold detach in H. destruct (futures s !! v) as [[q|]|]; [|done..]. cbn in H. destruct (cells s !! q) as [d|] eqn:Hq; [cbn in H|done].
    destruct (Nat.eqb_spec (strong d) 0); [done|]. destruct (ready d); injection H as <-; [done|]. split; [apply gone_insert; [done|congruence]|done].
  - unfold copy in H. destruct (futures s !! v) as [[q|]|]; [..|done]; cbn in H; [|by injection H as <-].
    destruct (share q (cells s)) as [h|] eqn:Hsh; [cbn in H|done]. injection H as <-. split; [by eapply gone_share|done].
  - unfold assign in H. destruct (futures s !! v) as [o|]; [cbn in H|done]. destruct (futures s !! w) as [o'|]; [cbn in H|done].
    destruct (match o with Some q => _ | None => _ end) as [h|] eqn:Hsh; [cbn in H|done]. destruct (reset o' h) as [h'|] eqn:Hre; [cbn in H|done]. injection H as <-.
    split; [|done]. eapply gone_reset; [done| |done]. destruct o as [q|]; [by eapply gone_share|by injection Hsh as <-].
  - unfold drop in H. destruct (futures s !! v) as [o|]; [cbn in H|done]. destruct (reset o (cells s)) as [h|] eqn:Hre; [cbn in H|done]. injection H as <-.
    split; [by eapply gone_reset|done].
  - unfold run in H. destruct (pool s !! i) as [a|]; [cbn in H|done]. destruct (cells s !! a) as [d|] eqn:Ha; [cbn in H|done].
    destruct (Nat.eqb_spec (strong d) 0); [by injection H as <-|]. destruct (ready d); [by injection H as <-|]. cbn in H. destruct (parent_ready d (cells s)); [|done].
    destruct (reset (parent d) _) as [h|] eqn:Hre; [cbn in H|done]. destruct (release (length h) a h) as [h'|] eqn:Hrl; [cbn in H|done]. injection H as <-.
    assert (Hne : a <> p) by congruence. split.
    + cbn. eapply gone_release; [done| |done]. eapply gone_reset; [done| |done]. by apply gone_insert.
    + cbn. intros [| ->%list_elem_of_singleton]%elem_of_app; done.
Qed.

(** C27: a task whose future is gone is cancelled: its function is not called any more,
    whatever happens. *)
Theorem dropped_futures_are_cancelled ops s s' p c : steps ops s = Some s' ->
  cells s !! p = Some c -> strong c = 0 -> cells s' !! p = Some c /\ (p ∈ ran s' -> p ∈ ran s).
Proof.
  revert s. induction ops as [|o ops IH]; intros s H Hp Hs; [by injection H as <-|]. unfold steps in *. cbn in H.
  destruct (step o s) as [s1|] eqn:H1; [|done]. destruct (gone_step o s s1 p c H1 Hp Hs) as [Hp1 Hr1]. destruct (IH s1 H Hp1 Hs) as [Hp2 Hr2]. split; [done|]. auto.
Qed.

(** A chain of three, of which the middle and the end are kept; a branch that is
    dropped; one that is detached. *)
Definition branches : list op :=
  [Async; Recover 0; Recover 1; Recover 0; Drop 0; Drop 3; Async; Detach 4; Drop 4; Copy 2; Assign 1 2; Run 0; Run 0; Run 0; Run 0; Drop 2].
Lemma needed_futures_live_witness : all_valid branches start = true /\ exists s, steps branches start = Some s /\ NoDup (ran s) /\
    forall p c, cells s !! p = Some c -> (strong c <> 0 <-> needed s p) /\ (pool s = [] -> needed s p -> ready c = true).
Proof. split; [vm_compute; reflexivity|]. apply needed_futures_live. vm_compute. reflexivity. Defined.
(** The second future is dropped before its task is run; the third one's is. *)
Definition before : list op := [Async; Recover 0; Recover 0; Drop 1].
Definition after : list op := [Run 0; Run 0; Run 0].
Lemma dropped_futures_are_cancelled_witness : exists s s', steps before start = Some s /\ steps after s = Some s' /\ ran s' = [0; 2] /\
  cells s' !! 1 = Some (mk_cell 0 (Some 0) false [] 0) /\ (1 ∈ ran s' -> 1 ∈ ran s).
Proof.
  eexists _, _. split; [vm_compute; reflexivity|]. split; [vm_compute; reflexivity|]. split; [reflexivity|].
  eapply (dropped_futures_are_cancelled after); vm_compute; reflexivity.
Defined.
