(* ===== verification/BlockingGet.v ===== *)
(** * Waiting for a future

    Model of [blocking_get] of [utility.hpp] ([deps/clean_stlab]), with and without a
    timeout: the thread that waits, and the continuation of the future, which the
    thread that resolves the future runs, interleaved at the operations on the
    mutex and the condition variable. *)

From S2P Require Import Prelude.
Local Open Scope nat_scope.

Section blocking_get.
(** What the future comes to; whether there is a timeout. *)
Context {T : Type} (o : T) (timed : bool).

Inductive thread := Waiter | Continuation.
(** The waiter: before the lock; with it, at the test of [flag]; in [wait]; woken up;
    timed out; after the loop; returned, with a result or none. The destructor of
    the [recover] in [hold] is no concern of the continuation. *)
Inductive waiter_pc := W_start | W_test | W_wait | W_woken | W_late | W_read | W_returned (r : option T).
(** The continuation: not yet called; after [error] or [result] is written; with
    the lock; after [flag = true]; after [notify_one]; at its end; returned
    because nobody waits; destroyed. *)
Inductive continuation_pc := C_start | C_written | C_locked | C_flagged | C_notified | C_end | C_skipped | C_destroyed.
(** [alive]: the variables, on the stack or, with a timeout, of the shared state, exist;
    [crashed]: they were used when they did not. *)
Record state := mk_state {
  waiter : waiter_pc; continuation : continuation_pc;
  flag : bool; slot : option T; owner : option thread; alive : bool; crashed : bool
}.
Definition start : state := mk_state W_start C_start false None None true false.

Definition set_waiter (w : waiter_pc) (m : option thread) (s : state) : state :=
  mk_state w (continuation s) (flag s) (slot s) m (alive s) (crashed s).
(** The waiter's next operation. [wait] gives the mutex back and ends when it is
    notified ([spurious]: or not), with a timeout also by the clock ([late]). *)
Definition step_waiter (s : state) : option state :=
  match waiter s, owner s with
  | W_start, None | W_woken, None => Some (set_waiter W_test (Some Waiter) s)
  | W_test, _ => Some (if flag s then set_waiter W_read None s else set_waiter W_wait None s)
  | W_late, None => Some (mk_state (W_returned None) (continuation s) (flag s) (slot s) None false (crashed s))
  | W_read, _ => Some (mk_state (W_returned (slot s)) (continuation s) (flag s) (slot s) (owner s) false (crashed s))
  | _, _ => None
  end.
Definition spurious (s : state) : option state :=
  match waiter s with W_wait => Some (set_waiter W_woken (owner s) s) | _ => None end.
Definition late (s : state) : option state :=
  match waiter s with W_wait => if timed then Some (set_waiter W_late (owner s) s) else None | _ => None end.

(** The continuation. With a timeout it looks first whether somebody still waits, and
    then keeps the shared state alive. *)
Definition touch (c : continuation_pc) (f : bool) (v : option T) (m : option thread) (w : waiter_pc) (s : state) : state :=
  mk_state w c f v m (alive s) (crashed s || (negb timed && negb (alive s))).
Definition step_continuation (s : state) : option state :=
  match continuation s with
  | C_start => if timed && negb (alive s) then Some (mk_state (waiter s) C_skipped (flag s) (slot s) (owner s) (alive s) (crashed s))
               else Some (touch C_written (flag s) (Some o) (owner s) (waiter s) s)
  | C_written => match owner s with None => Some (touch C_locked (flag s) (slot s) (Some Continuation) (waiter s) s) | Some _ => None end
  | C_locked => Some (touch C_flagged true (slot s) (owner s) (waiter s) s)
  | C_flagged => Some (touch C_notified (flag s) (slot s) (owner s) (match waiter s with W_wait => W_woken | w => w end) s)
  | C_notified => Some (touch C_end (flag s) (slot s) None (waiter s) s)
  | C_end | C_skipped | C_destroyed => None
  end.
(** The promise is broken: the continuation is destroyed. *)
Definition break_promise (s : state) : option state :=
  match continuation s with C_start => Some (mk_state (waiter s) C_destroyed (flag s) (slot s) (owner s) (alive s) (crashed s)) | _ => None end.

(** A run: whose turn it is; the clock, a wake-up for no reason, the promise. *)
Inductive turn := Turn (t : thread) | Late | Spurious | Breaks.
Definition take_turn (t : turn) (s : state) : option state :=
  match t with
  | Turn Waiter => step_waiter s
  | Turn Continuation => step_continuation s
  | Late => late s
  | Spurious => spurious s
  | Breaks => break_promise s
  end.
Definition take_turns (ts : list turn) (s : state) : option state := fold_opt (fun s t => take_turn t s) ts s.

(** ** The invariant

    Everything is determined by where the two are, and only some pairs are possible. *)
Definition in_section (c : continuation_pc) : bool := match c with C_locked | C_flagged | C_notified => true | _ => false end.
Definition has_flag (c : continuation_pc) : bool := match c with C_flagged | C_notified | C_end => true | _ => false end.
Definition has_slot (c : continuation_pc) : bool := match c with C_start | C_skipped | C_destroyed => false | _ => true end.
Definition shape (w : waiter_pc) (c : continuation_pc) : state :=
  mk_state w c (has_flag c) (if has_slot c then Some o else None)
    (match w with W_test => Some Waiter | _ => if in_section c then Some Continuation else None end)
    (match w with W_returned _ => false | _ => true end) false.
Definition legal (w : waiter_pc) (c : continuation_pc) : Prop :=
  match w with
  | W_start | W_woken => c <> C_skipped
  | W_test => in_section c = false /\ c <> C_skipped
  | W_wait => c <> C_notified /\ c <> C_end /\ c <> C_skipped
  | W_read => c = C_end
  | W_late => timed = true /\ c <> C_skipped
  | W_returned (Some r) => r = o /\ c = C_end
  | W_returned None => timed = true
  end.
Definition inv (s : state) : Prop := s = shape (waiter s) (continuation s) /\ legal (waiter s) (continuation s).

Ltac cases :=
  match goal with
  | Hi : inv ?s, H : _ = Some _ |- _ =>
      let w := fresh "w" in let c := fresh "c" in let Hl := fresh "Hl" in
      destruct Hi as [Hs Hl]; revert Hl Hs H; generalize (waiter s) as w; generalize (continuation s) as c; intros c w Hl -> H;
      unfold step_waiter, step_continuation, late, spurious, break_promise in H;
      destruct w as [| | | | | |[r|]], c; cbn in Hl, H; try done; simplify_eq/=
  end.
Ltac settle := unfold inv, legal, touch, shape, set_waiter in *; destruct timed; simplify_eq/=; destruct_and?; simplify_eq/=; by repeat split.
Lemma step_waiter_inv s s' : inv s -> step_waiter s = Some s' -> inv s'.
Proof. intros Hi H. cases; settle. Qed.
Lemma step_continuation_inv s s' : inv s -> step_continuation s = Some s' -> inv s'.
Proof. intros Hi H. cases; settle. Qed.
Lemma late_inv s s' : inv s -> late s = Some s' -> inv s'.
Proof. intros Hi H. cases; settle. Qed.
Lemma spurious_inv s s' : inv s -> spurious s = Some s' -> inv s'.
Proof. intros Hi H. cases; settle. Qed.
Lemma broken_inv s s' : inv s -> break_promise s = Some s' -> inv s'.
Proof. intros Hi H. cases; settle. Qed.
Lemma turn_inv t s s' : inv s -> take_turn t s = Some s' -> inv s'.
Proof. destruct t as [[]| | |]; [apply step_waiter_inv|apply step_continuation_inv|apply late_inv|apply spurious_inv|apply broken_inv]. Qed.

(** ** Turns that are left *)
Definition rank_continuation (c : continuation_pc) : nat :=
  match c with C_start => 5 | C_written => 4 | C_locked => 3 | C_flagged => 2 | C_notified => 1 | _ => 0 end.
Definition rank_waiter (f : bool) (w : waiter_pc) : nat :=
  match w with
  | W_start | W_woken => if f then 4 else 8
  | W_test => if f then 3 else 7
  | W_wait => if f then 5 else 6
  | W_late => 1
  | W_read => 2
  | W_returned _ => 0
  end.
Definition rank (s : state) : nat := rank_continuation (continuation s) + rank_waiter (has_flag (continuation s)) (waiter s).
Definition is_spurious (t : turn) : nat := match t with Spurious => 1 | _ => 0 end.
Lemma turn_rank t s s' : inv s -> take_turn t s = Some s' -> t <> Breaks -> S (rank s') <= rank s + 3 * is_spurious t.
Proof.
  intros Hi H Ht. destruct t as [[]| | |]; cbn [take_turn is_spurious] in *; try done;
    cases; unfold legal, touch, rank, set_waiter in *; destruct timed; simplify_eq/=; destruct_and?; simplify_eq/=; lia.
Qed.
Lemma turns_inv ts : forall s s', inv s -> take_turns ts s = Some s' -> inv s'.
Proof.
  induction ts as [|t ts IH]; intros s s' Hi H; [by injection H as <-|]. unfold take_turns in *. cbn in H.
  destruct (take_turn t s) as [s1|] eqn:H1; [|done]. by eapply IH, H; eapply turn_inv.
Qed.
Lemma turns_rank ts : forall s s', inv s -> take_turns ts s = Some s' -> Breaks ∉ ts ->
  length ts + rank s' <= rank s + 3 * sum_list_with is_spurious ts.
Proof.
  induction ts as [|t ts IH]; intros s s' Hi H Hb; [injection H as <-; cbn; lia|]. unfold take_turns in *. cbn in H. apply not_elem_of_cons in Hb as [Ht Hb].
  destruct (take_turn t s) as [s1|] eqn:H1; [|done]. pose proof (turn_rank t s s1 Hi H1 (not_eq_sym Ht)). pose proof (IH s1 s' (turn_inv _ _ _ Hi H1) H Hb). cbn. lia.
Qed.
Lemma start_inv : inv start.
Proof. done. Qed.
Lemma kept ts : forall s s', take_turns ts s = Some s' -> Breaks ∉ ts -> continuation s <> C_destroyed -> continuation s' <> C_destroyed.
Proof.
  induction ts as [|t ts IH]; intros s s' H Hb Hs; [by injection H as <-|]. unfold take_turns in *. cbn in H. apply not_elem_of_cons in Hb as [Ht Hb].
  destruct (take_turn t s) as [s1|] eqn:H1; [|done]. eapply IH; [done..|]. clear IH H. unfold take_turn, step_waiter, step_continuation, late, spurious, touch, set_waiter in H1.
  destruct t as [[]| | |]; [..|done]; repeat case_match; simplify_eq/=; try done; congruence.
Qed.
Lemma destroyed_stays ts : forall s s', take_turns ts s = Some s' -> continuation s = C_destroyed -> continuation s' = C_destroyed.
Proof.
  induction ts as [|t ts IH]; intros s s' H Hs; [by injection H as <-|]. unfold take_turns in *. cbn in H.
  destruct (take_turn t s) as [s1|] eqn:H1; [|done]. eapply IH; [done|]. clear IH H.
  unfold take_turn, step_waiter, step_continuation, late, spurious, break_promise, set_waiter in H1. rewrite Hs in H1.
  destruct t as [[]| | |]; repeat case_match; simplify_eq/=; done.
Qed.
(** Nobody has a turn, unless something happens for no reason. *)
Definition stuck (s : state) : Prop := step_waiter s = None /\ step_continuation s = None /\ late s = None.
Lemma stuck_returned s : inv s -> continuation s <> C_destroyed -> stuck s -> exists r, waiter s = W_returned r.
Proof.
  intros [Hs Hl] Hd (H1 & H2 & H3). revert Hl Hs Hd H1 H2 H3. generalize (waiter s) as w, (continuation s) as c. intros w c Hl -> Hd H1 H2 H3.
  unfold step_waiter, step_continuation, late in *. destruct w as [| | | | | |[r|]], c; unfold touch, legal, shape in *; destruct timed; simplify_eq/=; destruct_and?; try done; by eexists.
Qed.

(** C14: while the promise is kept, [blocking_get] gives what the future comes to, or
    nothing after a timeout, and neither thread uses the variables of the call after
    it has returned; it returns, after 13 turns and three more for every time it
    wakes up for no reason. *)
Theorem blocking_get_answers ts s : take_turns ts start = Some s -> Breaks ∉ ts ->
  crashed s = false /\ (forall r, waiter s = W_returned r -> r = Some o \/ timed = true /\ r = None) /\
  length ts <= 13 + 3 * sum_list_with is_spurious ts /\ (stuck s -> exists r, waiter s = W_returned r).
Proof.
  intros H Hb. pose proof (turns_inv ts _ _ start_inv H) as Hi. pose proof (turns_rank ts _ _ start_inv H Hb) as Hr. split_and!.
  - by destruct Hi as [-> _].
  - intros [r|] Hw; destruct Hi as [_ Hl]; rewrite Hw in Hl; cbn in Hl; [left; by destruct Hl as [-> _]|by right].
  - change (rank start) with 13 in Hr. lia.
  - apply stuck_returned; [done|]. by eapply kept.
Qed.

(** When the promise is broken, [blocking_get] does not return: without a timeout
    never, with one only because of it, and the exception is lost. *)
Theorem broken_promise_hangs ts s r : take_turns ts start = Some s -> Breaks ∈ ts -> waiter s = W_returned r -> timed = true /\ r = None.
Proof.
  intros H Hb Hw. pose proof (turns_inv ts _ _ start_inv H) as Hi.
  assert (Hd : continuation s = C_destroyed).
  { clear Hw r Hi. revert H Hb. generalize start. induction ts as [|t ts IH]; intros s0 H Hb; [by apply elem_of_nil in Hb|]. unfold take_turns in *. cbn in H.
    destruct (take_turn t s0) as [s1|] eqn:H1; [|done]. apply elem_of_cons in Hb as [<-|Hb]; [|by eapply IH]. cbn in H1. unfold break_promise in H1. destruct (continuation s0); simplify_eq/=.
    clear IH. apply (destroyed_stays ts _ _ H). done. }
  destruct Hi as [_ Hl]. rewrite Hw, Hd in Hl. destruct r as [r|]; cbn in Hl; [by destruct Hl|done].
Qed.
End blocking_get.

(** The waiter waits first, wakes up once for no reason; then the continuation runs. *)
Definition waiting : list turn :=
  [Turn Waiter; Turn Waiter; Spurious; Turn Continuation; Turn Waiter; Turn Waiter; Turn Continuation; Turn Continuation; Turn Continuation; Turn Continuation;
   Turn Waiter; Turn Waiter; Turn Waiter].
Lemma blocking_get_answers_witness : exists s : @state nat, waiter s = W_returned (Some 5) /\
  crashed s = false /\ (forall r, waiter s = W_returned r -> r = Some 5 \/ false = true /\ r = None) /\
  length waiting <= 13 + 3 * sum_list_with is_spurious waiting /\ (stuck 5 false s -> exists r, waiter s = W_returned r).
Proof.
  eexists. split; [|apply (blocking_get_answers 5 false waiting); [vm_compute; reflexivity|by unfold waiting; rewrite !not_elem_of_cons; repeat split; try discriminate; apply not_elem_of_nil]].
  reflexivity.
Defined.
Lemma broken_promise_hangs_witness : exists s : @state nat, waiter s = W_returned None /\ true = true /\ @None nat = None.
Proof.
  exists (mk_state (W_returned None) C_destroyed false None None false false). split; [reflexivity|].
  apply (broken_promise_hangs 5 true [Turn Waiter; Breaks; Turn Waiter; Late; Turn Waiter] (mk_state (W_returned None) C_destroyed false None None false false));
    [vm_compute; reflexivity|right; left|reflexivity].
Defined.
